(* ===== verification/_CoqProject ===== *)
-Q . S2P
Prelude.v
Chan.v
Registry.v
Protocol.v
TokenBucket.v
Float.v
SignalHub.v
SignalHubFacts.v
SignalClient.v
RelayRate.v
RelayFair.v
SignalTheorems.v
Rendezvous.v
InboxEvents.v
InboxHub.v
InboxTheorems.v
InboxConn.v
Keepalive.v
KeepaliveExamples.v
GoStrings.v
Crypto.v
Effects.v
RedisSpec.v
PostgresSpec.v
Hasher.v
RateLimit.v
Sim.v
RateLimitTheorems.v
Sessions.v
SessionFacts.v
SessionOps.v
SessionCreate.v
SessionTheorems.v
SessionExamples.v
Password.v
Net.v
Users.v
Frames.v
Guarded.v
Lifetimes.v
AuthService.v
AuthFacts.v
AuthLogin.v
LoginSucceeds.v
World.v
AuthKeeps.v
Httpx.v
Respond.v
Duration.v
Middleware.v
AuthHandlers.v
Rooms.v
Invites.v
Turn.v
Config.v
Server.v
Interleaving.v
SharedSessions.v
ServerFacts.v
ServerKeeps.v
AuthRegister.v
AuthTheorems.v
Guards.v
ServerTheorems.v
RoomTheorems.v
EdgeTheorems.v
InviteTheorems.v
Ringing.v
Demo.v
AuthExamples.v
ServerExamples.v
Switchboard.v
Calls.v
CallExamples.v
Migrate.v
Startup.v
