(* ===== verification/Prelude.v ===== *)
(** * cb-back: a verification development

    cb-back is the backend of a video-call application: accounts and sessions over
    HTTP, rooms with a websocket relay for signaling, an inbox websocket on which a
    phone rings, and TURN credentials. Its Go sources are under [src/]; this library
    models them definition by definition and proves what the parts promise.

    ** How the program is modelled

    Two styles, as the code has two kinds of state.

    The two hubs live in memory. Their operations are functions in a state monad
    with panics ([ST], [outcome], below) on the registry of connections and their
    channels ([Chan.v], [Registry.v]). What the Go scheduler decides, the order of a
    range over a map and when a write pump takes a frame, is a [sched]; every theorem
    holds for all of them.

    Request handlers talk to Redis, PostgreSQL, the clock, the random source and the
    password hasher. They are programs of a free monad ([prog], [Effects.v]) that run
    on a [Machine], alone ([interp]) or call by call interleaved ([pool_step]). What a
    machine answers is bounded by interfaces that follow the documentation of the
    services: [RedisLaws] and [ClockLaws] ([RedisSpec.v]), [PostgresLaws]
    ([PostgresSpec.v], the tables and constraints of [src/internal/database/migrations]),
    [HasherLaws] ([Hasher.v]). Requests may fail, be executed more than once, or take
    effect although the answer is lost. [Sim.v] is a machine that meets all of them,
    on which the examples and witnesses run.

    Third-party code that cannot be read here is a class: JSON codecs, [net/url], the
    websocket upgrader, Unicode tables, the uuid generator. What the sources use of
    Go's standard library is defined: strings ([GoStrings.v]), hashes and base64
    ([Crypto.v], their constants computed), addresses ([Net.v]), durations
    ([Duration.v], [Config.v]), binary64 arithmetic ([TokenBucket.v], with the
    rounding errors of its operations in [Float.v]).

    ** Parts

    - [Protocol.v], [TokenBucket.v], [SignalHub.v], [SignalClient.v]: the package
      [src/internal/signaling] ([protocol.go], [ratelimit.go], [hub.go],
      [client.go]); [Run] is [handle], one event at a time; the goroutines around it
      are the relation [step], and [Rendezvous.v] shows that with the calls handed
      over on its channels they do nothing else. Facts in [SignalHubFacts.v], properties in
      [SignalTheorems.v]; which messages the budget relays, in [RelayRate.v] (no more
      than the rate) and [RelayFair.v] (all of a client that keeps to it).
    - [InboxEvents.v], [InboxHub.v], [InboxConn.v]: [src/internal/inbox] ([conn.go],
      [hub.go]); properties in [InboxTheorems.v] and, for the write pumps of both
      packages on their channels, in [InboxConn.v].
    - [Keepalive.v]: the two pumps of a connection of either package in time, with the
      package's deadlines, pings, pongs and [close]; [KeepaliveExamples.v] follows one.
    - [RateLimit.v], [Sessions.v], [Password.v], [Users.v], [AuthService.v],
      [Middleware.v], [AuthHandlers.v]: [src/internal/auth], a file each. The
      invariant of the session store is in [SessionFacts.v], a triple per operation in
      [SessionOps.v] and [SessionCreate.v]; [Frames.v] says what a program cannot
      touch; [AuthFacts.v], [AuthLogin.v], [LoginSucceeds.v], [AuthRegister.v] analyse
      the service.
      Properties: [RateLimitTheorems.v], [SessionTheorems.v], [AuthTheorems.v].
    - [Httpx.v]: [src/internal/httpx]; [Respond.v]: its [respond.go] on the response
      writer, with [Recover]. [Rooms.v], [Invites.v], [Turn.v]: the packages of those
      names. Properties: [RoomTheorems.v], [InviteTheorems.v], [EdgeTheorems.v].
    - [Server.v]: the routes, guards and websocket endpoints put together by [run] in
      [src/cmd/server/main.go]. [World.v], [AuthKeeps.v], [ServerKeeps.v] carry the
      invariant through every handler, [ServerFacts.v] the discipline of the hashing
      slots, [Guards.v] what the guards establish; properties in [ServerTheorems.v].
    - Requests that interleave: [Guarded.v] is the proof principle (what a program may
      do, and what it learns), [Interleaving.v] applies it to the accounts,
      [Lifetimes.v] and [SharedSessions.v] to the sessions.
    - Parts put together: [Ringing.v], the request that rings and the inbox hub;
      [Calls.v], the server and the signaling hub. [Switchboard.v] and [CallExamples.v]
      apply them.
    - [Config.v]: [src/internal/config]; [Migrate.v]: [src/internal/database/migrate.go];
      [Startup.v]: [main] and [run], with [Connect] of [src/internal/database/postgres.go].
    - [Demo.v] and the files named [Examples]: a small installation on [Sim.v] in
      which the properties are applied.

    ** What is shown

    Signaling: the hub never panics and its mutual recursion ends; every member's
    frames give the true list of who is in the room; frames carry the sender the
    server authenticated; rooms do not hear each other; a connection gets no more
    relayed than its burst and rate, and all of that, roundings included; shutdown
    closes everything, leaves no caller waiting and no client unanswered. From the
    login to the frame, everybody in a call is who the server let in. A clean close follows all that was accepted. A peer that answers its pings
    is never timed out, one that falls silent is let go within seventy seconds. Inbox:
    an invite reaches only its recipient, with its true sender, on exactly as many
    connections as the answer says.

    Sessions: as long as operations run one after the other, the index of a user is
    complete, signing out everywhere misses no session, the cap holds and evicts the
    oldest; expiry is enforced; a ticket is redeemed at most once under any
    interleaving; a window of the limiter grants no
    more than its quota to any number of concurrent callers; whatever interleaves, a
    session belongs to an account and ends at the time it was created with.

    Accounts: what a login and a registration decide on every branch, with failures
    that cost the same work; registration is all or nothing, and who registered
    gets in; a change of password takes the old one and, when nothing overlaps it,
    ends the other sessions; PHC texts and TURN credentials
    round-trip.

    Server: protected routes need an identity, cross-site requests change nothing,
    websockets open for checked origins only, accounts stay well formed and hashing
    slots are never lost whatever interleaves. Settings that load are consistent, and
    from them and a migrated database every state the server reaches is well formed;
    replicas that migrate at once do what one of them would.

    ** Fuel

    Recursion that is not structural carries fuel, each with a proof that it is
    enough: [leave_fuel] gets one more than the size of the room, since every drop
    removes a member; [evict] the number of sessions, since every round deletes one;
    [duration_terms] the length of its text. [allocate] bounds its own attempts in the
    code.

    ** Bounds of the model

    That the index of a user's sessions is complete is proved for operations
    ([reachable] of [SessionTheorems.v]) or requests ([served] of [ServerTheorems.v])
    one after the other, with anything failing in between, and so is what rests on
    it: signing out everywhere, the cap, the guards and the websockets; interleavings are covered for the
    accounts, the owners and lifetimes of sessions, tickets, the limiter, revocation,
    hashing slots, both hubs and migrations. Run concurrently, [Touch] can bring a
    revoked session back ([touch_resurrects_revoked_session] in [SessionExamples.v],
    and through the server in [ServerExamples.v]). The theorems on the index suppose
    an absolute lifetime in whole seconds, since [EXPIRE] counts those. In
    [Keepalive.v] the delays of the runtime, of a tick at the select and of a pong are
    parameters: Go's select does not bound how long a tick waits. Where both pumps
    write at once the library may panic; in the model both writes go on. A frame that
    is in the reader's buffer when the read deadline passes is lost there, and the hub
    takes a call within the slack. [ClockLaws] supposes that the clocks of the program
    and of Redis agree to the millisecond. Every operation of the token bucket rounds
    on its own, as on amd64 (a compiler may fuse a multiplication and an addition
    elsewhere), and [now.Sub] does not saturate.

    ** Not modelled

    Logging and [WarnUnsafe]; the cancellation of requests, which appears as failing
    calls; what the drivers do with the settings of their pools; the bytes of HTTP and
    of websocket frames; the SQL of the migration files except for the constraints the
    stores rely on; the cleaning of paths by [ServeMux] and the redirects it answers
    for them; the tests. *)

From stdpp Require Export base gmap sets list strings fin_maps.
From Stdlib Require Export ZArith Lia.

#[export] Set Default Goal Selector "!".

(** ** Machine integers *)

(** Two's-complement wrap-around of Go's [int64]: what an [atomic.Int64] or an
    [int64] product holds. *)
Definition wrap64 (z : Z) : Z := ((z + 2 ^ 63) mod 2 ^ 64 - 2 ^ 63)%Z.

(** ** Outcomes and the state monad

    [Panic] is a Go run-time panic (a send on or a close of a closed channel, an
    index out of range); [OutOfFuel] marks a fuel-indexed recursion that was not
    given enough, and is never a behaviour of the program. *)
Inductive outcome (A : Type) : Type :=
| Ok (a : A)
| Panic (msg : string)
| OutOfFuel.
Arguments Ok {A} a.
Arguments Panic {A} msg.
Arguments OutOfFuel {A}.

Definition ST (W A : Type) : Type := W -> outcome (A * W).

Definition st_ret {W A} (a : A) : ST W A := fun w => Ok (a, w).

Definition st_bind {W A B} (m : ST W A) (k : A -> ST W B) : ST W B := fun w =>
  match m w with
  | Ok (a, w') => k a w'
  | Panic s => Panic s
  | OutOfFuel => OutOfFuel
  end.

Definition st_get {W} : ST W W := fun w => Ok (w, w).

Definition st_modify {W} (f : W -> W) : ST W unit := fun w => Ok (tt, f w).

Definition st_panic {W A} (msg : string) : ST W A := fun _ => Panic msg.

Definition st_out_of_fuel {W A} : ST W A := fun _ => OutOfFuel.

Declare Scope prog_scope.
Delimit Scope prog_scope with prog.
Notation "x <-- m ;; k" := (st_bind m (fun x => k))
  (at level 100, m at next level, right associativity) : prog_scope.
Notation "m ;;; k" := (st_bind m (fun _ => k))
  (at level 100, k at level 200, right associativity) : prog_scope.
Open Scope prog_scope.

(** [for _, x := range l { body(x) }] *)
Fixpoint for_each {W A} (l : list A) (body : A -> ST W unit) : ST W unit :=
  match l with
  | [] => st_ret tt
  | x :: l => body x ;;; for_each l body
  end.

(** The loop that collects the elements its body selects:
    [for _, x := range l { if body(x) { acc = append(acc, x) } }]. *)
Fixpoint collect {W A} (l : list A) (body : A -> ST W bool) : ST W (list A) :=
  match l with
  | [] => st_ret []
  | x :: l =>
      b <-- body x ;;
      rest <-- collect l body ;;
      st_ret (if b : bool then x :: rest else rest)
  end.

(** ** Total-correctness triples

    [wp m Q w]: started in [w], [m] neither panics nor runs out of fuel, and
    ends with a result and a state that satisfy [Q]. *)
Definition wp {W A} (m : ST W A) (Q : A -> W -> Prop) (w : W) : Prop :=
  match m w with
  | Ok (a, w') => Q a w'
  | _ => False
  end.

(** Remove the first occurrence of [x]. *)
Fixpoint remove_one {A} `{EqDecision A} (x : A) (l : list A) : list A :=
  match l with
  | [] => []
  | y :: l => if decide (x = y) then l else y :: remove_one x l
  end.

(** How many elements satisfy the predicate. *)
Definition count_if {A} (f : A -> bool) (l : list A) : Z := Z.of_nat (length (List.filter f l)).

(** The hints of the development: rewriting with the [wp] equations of the
    control operators, and the monotonicity and frame facts of channels. *)
Create Rewrite HintDb cbback.

(** ** Lemmas *)

Section wp_rules.
Context {W : Type}.

Lemma wp_ret {A} (a : A) Q (w : W) : wp (st_ret a) Q w <-> Q a w.
Proof. done. Qed.

Lemma wp_bind {A B} (m : ST W A) (k : A -> ST W B) Q w :
  wp (st_bind m k) Q w <-> wp m (fun a w' => wp (k a) Q w') w.
Proof. unfold wp, st_bind. destruct (m w) as [[a w']| |]; done. Qed.

Lemma wp_get Q (w : W) : wp st_get Q w <-> Q w w.
Proof. done. Qed.

Lemma wp_modify f Q (w : W) : wp (st_modify f) Q w <-> Q tt (f w).
Proof. done. Qed.

Lemma wp_mono {A} (m : ST W A) (Q Q' : A -> W -> Prop) w :
  wp m Q w -> (forall a w', Q a w' -> Q' a w') -> wp m Q' w.
Proof. unfold wp. destruct (m w) as [[a w']| |]; naive_solver. Qed.

Lemma wp_conj {A} (m : ST W A) (Q Q' : A -> W -> Prop) w :
  wp m Q w -> wp m Q' w -> wp m (fun a w' => Q a w' /\ Q' a w') w.
Proof. unfold wp. destruct (m w) as [[a w']| |]; naive_solver. Qed.

(** A successful run satisfies every postcondition of the triple. *)
Lemma wp_run {A} (m : ST W A) Q w :
  wp m Q w -> exists a w', m w = Ok (a, w') /\ Q a w'.
Proof. unfold wp. destruct (m w) as [[a w']| |]; naive_solver. Qed.

Lemma wp_intro {A} (m : ST W A) (Q : A -> W -> Prop) w a w' :
  m w = Ok (a, w') -> Q a w' -> wp m Q w.
Proof. unfold wp. by intros ->. Qed.

(** Loop rule: [I] speaks of the elements still to be visited. *)
Lemma wp_for_each {A} (I : list A -> W -> Prop) (l : list A) body (w : W) :
  I l w ->
  (forall x l' w, I (x :: l') w -> wp (body x) (fun _ w' => I l' w') w) ->
  wp (for_each l body) (fun _ w' => I [] w') w.
Proof.
  intros HI Hbody. revert w HI. induction l as [|x l IH]; intros w HI; simpl.
  - by apply wp_ret.
  - apply wp_bind. eapply wp_mono; [by apply Hbody|]. naive_solver.
Qed.

(** Loop rule for [collect]: [I] relates the elements visited so far with what
    was collected from them. *)
Lemma wp_collect {A} (I : list A -> list A -> W -> Prop) (l : list A) body (w : W) :
  I [] [] w ->
  (forall x don rest acc w, l = don ++ x :: rest -> I don acc w ->
     wp (body x) (fun (b : bool) w' =>
       I (don ++ [x]) (if b then acc ++ [x] else acc) w') w) ->
  wp (collect l body) (fun acc w' => I l acc w') w.
Proof.
  intros HI Hbody.
  enough (forall rest don acc w, l = don ++ rest -> I don acc w ->
            wp (collect rest body) (fun acc' w' => I l (acc ++ acc') w') w)
    as H by (by apply (H l [] [])).
  intros rest. induction rest as [|x rest IH]; intros don acc w1 Hl Hacc; simpl.
  - apply wp_ret. rewrite app_nil_r in Hl. by rewrite app_nil_r, Hl.
  - apply wp_bind. eapply wp_mono; [by eapply Hbody|].
    intros b w2 Hb. apply wp_bind. eapply wp_mono.
    { eapply (IH (don ++ [x])); [|exact Hb]. rewrite <- app_assoc. exact Hl. }
    intros acc' w3 H. apply wp_ret. destruct b; [by rewrite <- app_assoc in H|done].
Qed.
End wp_rules.

#[export] Hint Rewrite @wp_ret @wp_bind @wp_get @wp_modify : cbback.

(** Step through the control operators of a program under a [wp]. *)
Ltac wp_step := autorewrite with cbback; simpl.

(** Use the triple [H] of the first operation of the goal. *)
Ltac wp_use H := eapply wp_mono; [apply H | simpl].

Lemma wrap64_small z : (- 2 ^ 63 <= z < 2 ^ 63)%Z -> wrap64 z = z.
Proof. intros H. unfold wrap64. rewrite Z.mod_small; lia. Qed.

Lemma wrap64_add a b : wrap64 (wrap64 a + b) = wrap64 (a + b).
Proof.
  unfold wrap64.
  replace ((a + 2 ^ 63) mod 2 ^ 64 - 2 ^ 63 + b + 2 ^ 63)%Z
    with ((a + 2 ^ 63) mod 2 ^ 64 + b)%Z by lia.
  rewrite Z.add_mod_idemp_l by lia. f_equal. f_equal. lia.
Qed.

Lemma wrap64_range z : (- 2 ^ 63 <= wrap64 z < 2 ^ 63)%Z.
Proof. unfold wrap64. pose proof (Z.mod_pos_bound (z + 2 ^ 63) (2 ^ 64)). lia. Qed.

Lemma count_if_insert {A} (f : A -> bool) l i x y :
  l !! i = Some x ->
  count_if f (<[i := y]> l) = (count_if f l + (if f y then 1 else 0) - (if f x then 1 else 0))%Z.
Proof.
  intros Hi. unfold count_if. rewrite (insert_take_drop _ _ _ (lookup_lt_Some _ _ _ Hi)).
  rewrite <- (take_drop_middle l i x Hi) at 3.
  rewrite !List.filter_app, !length_app. simpl. destruct (f x), (f y); simpl; lia.
Qed.

Lemma count_if_none {A} (f : A -> bool) l : Forall (fun x => f x = false) l -> count_if f l = 0%Z.
Proof. unfold count_if. induction 1 as [|x l Hx _ IH]; [done|]. simpl. by rewrite Hx. Qed.

Section lists.
Context {A : Type} {EqA : EqDecision A}.

Lemma remove_one_Permutation (x : A) l l' :
  l ≡ₚ x :: l' -> remove_one x l ≡ₚ l'.
Proof.
  revert l'. induction l as [|y l IH]; intros l' H; simpl.
  { by apply Permutation_nil_cons in H. }
  case_decide as Hxy; [subst; by apply Permutation_cons_inv in H|].
  assert (y ∈ l') as Hy.
  { assert (y ∈ x :: l') as [->|?]%elem_of_cons by (rewrite <- H; left); done. }
  apply list_elem_of_split in Hy as (l1 & l2 & ->).
  rewrite (IH (l1 ++ l2)); [by rewrite Permutation_middle|].
  apply (Permutation_cons_inv (a := y)). rewrite H.
  rewrite <- Permutation_middle. constructor.
Qed.

Lemma elem_of_snoc (x y : A) (l : list A) : x ∈ l ++ [y] <-> x ∈ l \/ x = y.
Proof. rewrite elem_of_app, list_elem_of_singleton. done. Qed.

Lemma elements_remove `{Countable A} (x : A) (s : gset A) :
  x ∈ s -> elements s ≡ₚ x :: elements (s ∖ {[x]}).
Proof.
  intros Hx. rewrite <- elements_union_singleton by set_solver.
  by rewrite <- union_difference_singleton_L.
Qed.

Lemma elements_add `{Countable A} (x : A) (s : gset A) :
  x ∉ s -> elements ({[x]} ∪ s) ≡ₚ x :: elements s.
Proof. apply elements_union_singleton. Qed.

Lemma size_list_to_set_le `{Countable A} (l : list A) : size (list_to_set l : gset A) <= length l.
Proof.
  induction l as [|x l IH]; [done|]. simpl. rewrite size_union_alt, size_singleton.
  pose proof (subseteq_size (list_to_set l ∖ {[x]}) (list_to_set l : gset A)). specialize (H0 ltac:(set_solver)). lia.
Qed.
End lists.

#[export] Instance remove_one_proper {A} `{EqDecision A} (x : A) :
  Proper ((≡ₚ) ==> (≡ₚ)) (remove_one x).
Proof.
  intros l1 l2 H. destruct (decide (x ∈ l2)) as [Hin|Hout].
  - apply list_elem_of_split in Hin as (k1 & k2 & ->).
    assert (k1 ++ x :: k2 ≡ₚ x :: (k1 ++ k2)) as Hp by (by rewrite Permutation_middle).
    rewrite !(remove_one_Permutation x _ (k1 ++ k2)); [done..|].
    by rewrite H.
  - assert (forall l, x ∉ l -> remove_one x l = l) as Hid.
    { intros l. induction l as [|y l IH]; [done|]. intros Hn. simpl.
      rewrite decide_False by set_solver. f_equal. apply IH. set_solver. }
    rewrite !Hid; [done| done | by rewrite H].
Qed.
