(* ===== verification/Chan.v ===== *)
(** * Go channels, the select statement with a default, and grouped registries

    What the two hubs ([src/internal/signaling/hub.go] and
    [src/internal/inbox/hub.go]) share: the buffered [send] channel each
    connection owns, the non-blocking offer of a frame, the close that only the
    hub performs, and the [map[string]map[*T]struct{}] both use as registry.

    A connection's write pump is a goroutine of its own: it may take frames off
    the channel between any two steps of the hub. A [sched] decides, for every
    offer and every range over a Go map, which write pumps have run just before
    and in which order the map is walked; theorems quantify over it. *)

From S2P Require Import Prelude.

(** ** Buffered channels *)

(** A [chan []byte] of capacity [ch_cap]. [ch_buf] is the buffered content,
    oldest first; [ch_got] is the history of what the receiver has taken. *)
Record chan := Chan {
  ch_cap : nat;
  ch_buf : list string;
  ch_got : list string;
  ch_closed : bool
}.

(** [make(chan []byte, n)] *)
Definition make_chan (n : nat) : chan := Chan n [] [] false.

(** Every frame the channel ever accepted, in order. *)
Definition ch_log (c : chan) : list string := ch_got c ++ ch_buf c.

(** One receive by the write pump; an empty channel leaves it waiting. *)
Definition ch_take (c : chan) : chan :=
  match ch_buf c with
  | [] => c
  | x :: b => Chan (ch_cap c) b (ch_got c ++ [x]) (ch_closed c)
  end.

(** [select { case c <- data: return true; default: return false }] *)
Definition ch_offer (c : chan) (data : string) : outcome (bool * chan) :=
  if ch_closed c then Panic "send on closed channel"
  else if decide (length (ch_buf c) < ch_cap c) then
    Ok (true, Chan (ch_cap c) (ch_buf c ++ [data]) (ch_got c) false)
  else Ok (false, c).

(** [close(c)] *)
Definition ch_close (c : chan) : outcome chan :=
  if ch_closed c then Panic "close of closed channel"
  else Ok (Chan (ch_cap c) (ch_buf c) (ch_got c) true).

(** ** The world of a hub *)

Record world (K S : Type) `{Countable K} := World {
  chans : gmap K chan;   (* the send channel of each connection *)
  tick : nat;            (* counts the scheduling points passed *)
  hub : S                (* the hub's own fields *)
}.
Arguments World {K S _ _} chans tick hub.
Arguments chans {K S _ _} _.
Arguments tick {K S _ _} _.
Arguments hub {K S _ _} _.

Record sched (K : Type) := Sched {
  (* the order in which the n-th range statement walks a map *)
  order : nat -> list K -> list K;
  order_perm : forall n l, order n l ≡ₚ l;
  order_keys : nat -> list string -> list string;
  order_keys_perm : forall n l, order_keys n l ≡ₚ l;
  (* the write pumps that each take one frame just before the n-th point *)
  readers : nat -> list K
}.
Arguments order {K} _.
Arguments order_perm {K} _.
Arguments order_keys {K} _.
Arguments order_keys_perm {K} _.
Arguments readers {K} _.

(** The schedule that walks maps in key order and never runs a write pump. *)
Definition idle_sched (K : Type) : sched K :=
  Sched K (fun _ l => l) (fun _ l => Permutation_refl l)
    (fun _ l => l) (fun _ l => Permutation_refl l) (fun _ => []).

(** The schedule that walks maps backwards. *)
Definition reverse_sched (K : Type) : sched K :=
  Sched K (fun _ l => reverse l) (fun _ l => reverse_Permutation l)
    (fun _ l => reverse l) (fun _ l => reverse_Permutation l) (fun _ => []).

Section ops.
Context {K S : Type} `{Countable K}.

Definition set_chans (chs : gmap K chan) (w : world K S) : world K S :=
  World chs (tick w) (hub w).

Definition set_hub (h : S) (w : world K S) : world K S := World (chans w) (tick w) h.

(** The listed write pumps each take one frame. *)
Definition take_all (ks : list K) (chs : gmap K chan) : gmap K chan :=
  foldr (fun k m => alter ch_take k m) chs ks.

(** Walk a [map[*T]struct{}]: the members in the order of the schedule. *)
Definition range (sc : sched K) (s : gset K) : ST (world K S) (list K) := fun w =>
  Ok (order sc (tick w) (elements s), World (chans w) (tick w + 1) (hub w)).

(** Walk the outer map of a registry. *)
Definition range_keys (sc : sched K) (g : gmap string (gset K)) : ST (world K S) (list string) :=
  fun w => Ok (order_keys sc (tick w) (elements (dom g)), World (chans w) (tick w + 1) (hub w)).

(** The non-blocking offer on the channel of [k]. A channel that was never made
    is nil: offering on it selects the default. *)
Definition offer (sc : sched K) (k : K) (data : string) : ST (world K S) bool := fun w =>
  let chs := take_all (readers sc (tick w)) (chans w) in
  let w' := World chs (tick w + 1) (hub w) in
  match chs !! k with
  | None => Ok (false, w')
  | Some c =>
      match ch_offer c data with
      | Ok (b, c') => Ok (b, set_chans (<[k := c']> chs) w')
      | Panic s => Panic s
      | OutOfFuel => OutOfFuel
      end
  end.

(** [close(k.send)] *)
Definition close_chan (k : K) : ST (world K S) unit := fun w =>
  match chans w !! k with
  | None => Panic "close of nil channel"
  | Some c =>
      match ch_close c with
      | Ok c' => Ok (tt, set_chans (<[k := c']> (chans w)) w)
      | Panic s => Panic s
      | OutOfFuel => OutOfFuel
      end
  end.

(** What can be seen of a channel: whether it exists and is closed, what it has
    accepted, and how much room its buffer has. *)
Definition status (w : world K S) (k : K) : option bool := ch_closed <$> chans w !! k.

Definition log (w : world K S) (k : K) : list string := from_option ch_log [] (chans w !! k).

Definition room_left (w : world K S) (k : K) : nat :=
  from_option (fun c => ch_cap c - length (ch_buf c)) 0 (chans w !! k).

Definition bounded (w : world K S) : Prop :=
  map_Forall (fun _ c => length (ch_buf c) <= ch_cap c) (chans w).
End ops.

(** ** Registries: [map[string]map[*T]struct{}] *)

Section groups.
Context {K : Type} `{Countable K}.

(** [g[r]], where a missing group is a nil map: it has no members. *)
Definition members (g : gmap string (gset K)) (r : string) : gset K := default ∅ (g !! r).

(** Create the group when it is missing, then add [k] to it. *)
Definition group_add (r : string) (k : K) (g : gmap string (gset K)) : gmap string (gset K) :=
  <[r := {[k]} ∪ members g r]> g.

(** Delete [k] from the group, and the group once it is empty. *)
Definition group_remove (r : string) (k : K) (g : gmap string (gset K)) : gmap string (gset K) :=
  let s := members g r ∖ {[k]} in
  if decide (s = ∅) then delete r g else <[r := s]> g.

(** The number of members across all groups. *)
Definition group_total (g : gmap string (gset K)) : nat :=
  map_fold (fun _ s n => size s + n) 0 g.

(** No group is empty. *)
Definition group_ok (g : gmap string (gset K)) : Prop := map_Forall (fun _ s => s ≠ ∅) g.
End groups.

(** ** Lemmas about channels *)

Lemma ch_take_log c : ch_log (ch_take c) = ch_log c.
Proof. unfold ch_take, ch_log. destruct (ch_buf c) eqn:E; simpl; rewrite ?E; [done|]. by rewrite <- app_assoc. Qed.

Lemma ch_take_closed c : ch_closed (ch_take c) = ch_closed c.
Proof. unfold ch_take. by destruct (ch_buf c). Qed.

Lemma ch_take_cap c : ch_cap (ch_take c) = ch_cap c.
Proof. unfold ch_take. by destruct (ch_buf c). Qed.

Lemma ch_take_buf c : length (ch_buf (ch_take c)) <= length (ch_buf c).
Proof. unfold ch_take. destruct (ch_buf c) eqn:E; simpl; [rewrite E; simpl; lia|lia]. Qed.

Section chan_lemmas.
Context {K S : Type} `{Countable K}.
Implicit Types (w : world K S) (k : K).

(** Two maps of channels that differ only by what write pumps have taken. *)
Definition drained (m m' : gmap K chan) : Prop :=
  forall k, option_Forall2 (fun c c' => ch_closed c' = ch_closed c /\ ch_cap c' = ch_cap c /\
    ch_log c' = ch_log c /\ length (ch_buf c') <= length (ch_buf c)) (m !! k) (m' !! k).

Lemma drained_refl m : drained m m.
Proof. intros k. destruct (m !! k); constructor; auto. Qed.

Lemma take_all_drained ks (m : gmap K chan) : drained m (take_all ks m).
Proof.
  induction ks as [|k ks IH]; simpl; [apply drained_refl|].
  intros k'. specialize (IH k'). rewrite lookup_alter. case_decide; [subst|done].
  destruct IH as [c c' (H1 & H2 & H3 & H4)|]; simpl; constructor.
  rewrite ch_take_closed, ch_take_cap, ch_take_log. pose proof (ch_take_buf c').
  repeat split; [done..|lia].
Qed.

Lemma drained_status w w' : drained (chans w) (chans w') -> forall k, status w' k = status w k.
Proof. intros Hd k. unfold status. destruct (Hd k) as [c c' Hc|]; simpl; [|done]. f_equal. apply Hc. Qed.

Lemma drained_log w w' : drained (chans w) (chans w') -> forall k, log w' k = log w k.
Proof. intros Hd k. unfold log. destruct (Hd k) as [c c' Hc|]; simpl; [|done]. apply Hc. Qed.

Lemma drained_room w w' : drained (chans w) (chans w') -> forall k, room_left w k <= room_left w' k.
Proof.
  intros Hd k. unfold room_left. destruct (Hd k) as [c c' (_ & H1 & _ & H2)|]; simpl; lia.
Qed.

Lemma drained_bounded w w' : drained (chans w) (chans w') -> bounded w -> bounded w'.
Proof.
  intros Hd Hb k c' Hk. specialize (Hd k). rewrite Hk in Hd.
  inversion Hd as [c c'' (_ & H1 & _ & H2) Hc Hc'|]; subst.
  specialize (Hb k c (eq_sym Hc)). simpl in Hb. lia.
Qed.

(** A range visits every member exactly once and touches nothing. *)
Lemma wp_range sc s (Q : list K -> world K S -> Prop) w :
  (forall l w', l ≡ₚ elements s -> chans w' = chans w -> hub w' = hub w -> Q l w') ->
  wp (range sc s) Q w.
Proof. intros HQ. apply HQ; [apply order_perm|done..]. Qed.

Lemma wp_range_keys sc g (Q : list string -> world K S -> Prop) w :
  (forall l w', l ≡ₚ elements (dom g) -> chans w' = chans w -> hub w' = hub w -> Q l w') ->
  wp (range_keys sc g) Q w.
Proof. intros HQ. apply HQ; [apply order_keys_perm|done..]. Qed.

(** The effect of an offer on an open channel: either the frame is appended, or
    the buffer was full and nothing happened; other channels keep what they
    accepted, and no channel opens or closes. *)
Record offered (k : K) (data : string) (w : world K S) (b : bool) (w' : world K S) : Prop := {
  off_hub : hub w' = hub w;
  off_status : forall k', status w' k' = status w k';
  off_log : log w' k = log w k ++ (if b then [data] else []);
  off_log_ne : forall k', k' ≠ k -> log w' k' = log w k';
  off_room_ne : forall k', k' ≠ k -> room_left w k' <= room_left w' k';
  off_room : 0 < room_left w k -> b = true;
  off_bounded : bounded w -> bounded w'
}.

Lemma wp_offer sc k data (Q : bool -> world K S -> Prop) w :
  status w k = Some false ->
  (forall b w', offered k data w b w' -> Q b w') ->
  wp (offer sc k data) Q w.
Proof.
  intros Hst HQ. unfold wp, offer.
  set (chs := take_all _ _). set (w1 := World chs (tick w + 1) (hub w)).
  assert (drained (chans w) (chans w1)) as Hd by apply take_all_drained.
  pose proof (drained_status w w1 Hd) as Hs. pose proof (drained_log w w1 Hd) as Hl.
  pose proof (drained_room w w1 Hd) as Hr. pose proof (drained_bounded w w1 Hd) as Hb.
  specialize (Hs k) as Hk. rewrite Hst in Hk. unfold status in Hk. simpl in Hk.
  apply fmap_Some in Hk as (c & Hc & Hopen). rewrite Hc. unfold ch_offer. rewrite <- Hopen.
  assert (room_left w1 k = ch_cap c - length (ch_buf c)) as Hroom
    by (unfold room_left; simpl; by rewrite Hc).
  assert (log w1 k = ch_log c) as Hlog by (unfold log; simpl; by rewrite Hc).
  assert (<[k:=c]> chs = chs) as Hid by by apply insert_id.
  case_decide as Hfree; apply HQ; split.
  all: try (simpl; done).
  all: try (intros k'; specialize (Hs k'); unfold status in *; simpl in *;
            destruct (decide (k' = k)) as [->|]; [rewrite lookup_insert_eq|rewrite lookup_insert_ne by done];
            [rewrite <- Hs, Hc; simpl; congruence|done]).
  - rewrite <- Hl, Hlog. unfold log; simpl. rewrite lookup_insert_eq. simpl.
    unfold ch_log; simpl. by rewrite <- app_assoc.
  - intros k' Hne. rewrite <- Hl. unfold log; simpl. by rewrite lookup_insert_ne.
  - intros k' Hne. specialize (Hr k'). unfold room_left in *; simpl in *. by rewrite lookup_insert_ne.
  - intros Hw. specialize (Hb Hw). apply map_Forall_insert_2; [simpl; rewrite length_app; simpl; lia|done].
  - rewrite app_nil_r, <- Hl, Hlog. unfold log; simpl. by rewrite lookup_insert_eq.
  - intros k' Hne. rewrite <- Hl. unfold log; simpl. by rewrite lookup_insert_ne.
  - intros k' Hne. specialize (Hr k'). unfold room_left in *; simpl in *. by rewrite lookup_insert_ne.
  - intros Hpos. specialize (Hr k). lia.
  - intros Hw. unfold bounded. simpl. rewrite Hid. by apply Hb.
Qed.

(** The effect of closing an open channel. *)
Record chan_closed (k : K) (w w' : world K S) : Prop := {
  cls_hub : hub w' = hub w;
  cls_status : status w' k = Some true;
  cls_status_ne : forall k', k' ≠ k -> status w' k' = status w k';
  cls_log : forall k', log w' k' = log w k';
  cls_room : forall k', room_left w' k' = room_left w k';
  cls_bounded : bounded w -> bounded w'
}.

Lemma wp_close_chan k (Q : unit -> world K S -> Prop) w :
  status w k = Some false ->
  (forall w', chan_closed k w w' -> Q tt w') ->
  wp (close_chan k) Q w.
Proof.
  intros Hst HQ. unfold status in Hst. apply fmap_Some in Hst as (c & Hc & Hopen).
  unfold wp, close_chan. rewrite Hc. unfold ch_close. rewrite <- Hopen. apply HQ. split.
  - done.
  - unfold status; simpl. by rewrite lookup_insert_eq.
  - intros k' Hne. unfold status; simpl. by rewrite lookup_insert_ne.
  - intros k'. unfold log; simpl. rewrite lookup_insert. case_decide; [subst; by rewrite Hc|done].
  - intros k'. unfold room_left; simpl. rewrite lookup_insert. case_decide; [subst; by rewrite Hc|done].
  - intros Hb. apply map_Forall_insert_2; [apply (Hb k c Hc)|done].
Qed.

(** The loop both hubs push with: offer [data] to every listed key that is not
    skipped and collect those that could not take it. *)
Record fanned (l : list K) (skip : K -> bool) (data : string) (w : world K S)
    (acc : list K) (w' : world K S) : Prop := {
  fan_hub : hub w' = hub w;
  fan_status : forall k, status w' k = status w k;
  fan_log : forall k, k ∈ l -> skip k = false -> k ∉ acc -> log w' k = log w k ++ [data];
  fan_log_ne : forall k, k ∉ l \/ skip k = true \/ k ∈ acc -> log w' k = log w k;
  fan_acc : forall k, k ∈ acc -> k ∈ l /\ skip k = false /\ room_left w k = 0;
  fan_bounded : bounded w -> bounded w'
}.

Lemma wp_fanout sc (l : list K) skip data body (Q : list K -> world K S -> Prop) w :
  NoDup l ->
  (forall k, skip k = true -> body k = st_ret false) ->
  (forall k, skip k = false -> body k = (ok <-- offer sc k data ;; st_ret (negb ok))) ->
  (forall k, k ∈ l -> skip k = false -> status w k = Some false) ->
  (forall acc w', fanned l skip data w acc w' -> Q acc w') ->
  wp (collect l body) Q w.
Proof.
  intros Hnd Hskip Hpush Hopen HQ.
  apply (wp_mono _ (fun acc w' => fanned l skip data w acc w' /\
    forall k, k ∉ l -> room_left w k <= room_left w' k)); [|intros acc w' [? _]; by apply HQ].
  apply (wp_collect (fun don acc w' => fanned don skip data w acc w' /\
    forall k, k ∉ don -> room_left w k <= room_left w' k)).
  { split; [|lia]. split; try done; intros k Hk; by apply elem_of_nil in Hk. }
  intros x don rest acc wi Hl [[H1 H2 H3 H4 H5 H6] Hroom].
  assert (x ∉ don) as Hx.
  { subst l. apply NoDup_app in Hnd as (_ & Hnd & _). intros Hin. apply (Hnd x Hin). by left. }
  assert (x ∈ l) as Hxl by (subst l; apply elem_of_app; right; by left).
  assert (x ∉ acc) as Hacc by (intros Hin; apply Hx; by apply H5).
  clear Hl. destruct (skip x) eqn:Hs.
  - rewrite Hskip by done. apply wp_ret. split.
    + split; [done|done|..|done]; intros k; rewrite elem_of_snoc.
      * intros [?| ->]; [by apply H3|congruence].
      * intros Hk. apply H4. tauto.
      * intros Hk. destruct (H5 k Hk). tauto.
    + intros k. rewrite elem_of_snoc. intros Hk. apply Hroom. tauto.
  - rewrite Hpush by done. apply wp_bind. apply wp_offer; [by rewrite H2, Hopen|].
    intros b w' [O1 O2 O3 O4 O5 O6 O7]. apply wp_ret.
    assert (log wi x = log w x) as Hlx by (apply H4; by left).
    assert (forall k, k ∉ don ++ [x] -> room_left w k <= room_left w' k) as Hroom'.
    { intros k. rewrite elem_of_snoc. intros Hk.
      etransitivity; [apply Hroom|apply O5]; [tauto|intros ->; tauto]. }
    assert (forall k, k <> x -> k ∉ don \/ skip k = true \/ k ∈ acc -> log w' k = log w k) as Hne.
    { intros k Hk Hc. rewrite O4 by done. by apply H4. }
    assert (forall k, k ∈ don -> skip k = false -> k ∉ acc -> log w' k = log w k ++ [data]) as Hin.
    { intros k Hk Hsk Hka. rewrite O4 by (by intros ->). by apply H3. }
    split; [|done].
    destruct b; simpl in *; split; try congruence; try (intros k; by rewrite O2, H2); auto;
      intros k; rewrite !elem_of_snoc.
    + intros [Hk| ->] Hsk Hka; [auto|congruence].
    + intros Hk. apply Hne; [intros ->; destruct Hk as [?|[?|?]]; [tauto|congruence|tauto]|tauto].
    + intros Hk. destruct (H5 k Hk). tauto.
    + intros [Hk| ->] Hsk Hka; [apply Hin; tauto|tauto].
    + intros Hk. destruct (decide (k = x)) as [->|Hkx]; [by rewrite O3, app_nil_r|].
      apply Hne; tauto.
    + intros [Hk| ->]; [destruct (H5 k Hk); tauto|].
      split; [by right|split; [done|]]. destruct (decide (room_left w x = 0)) as [Hz|Hz]; [done|].
      specialize (Hroom x Hx). discriminate O6. lia.
Qed.

(** A send on, or a second close of, a closed channel is a panic: the two ways
    the hub could crash the process. *)
Lemma offer_closed_panics sc k data w :
  status w k = Some true -> offer sc k data w = Panic "send on closed channel".
Proof.
  intros Hst. unfold offer.
  pose proof (drained_status w (World (take_all (readers sc (tick w)) (chans w)) 0 (hub w))
    (take_all_drained _ _) k) as Hk.
  rewrite Hst in Hk. unfold status in Hk. simpl in Hk.
  apply fmap_Some in Hk as (c & -> & Hcl). unfold ch_offer. by rewrite <- Hcl.
Qed.

Lemma close_closed_panics k w :
  status w k = Some true -> close_chan k w = Panic "close of closed channel".
Proof.
  intros (c & Hc & Hcl)%fmap_Some. unfold close_chan, ch_close. by rewrite Hc, <- Hcl.
Qed.
End chan_lemmas.

(** ** Lemmas about registries *)

Section group_lemmas.
Context {K : Type} `{Countable K}.
Implicit Types (g : gmap string (gset K)) (r : string) (k : K).

Lemma members_add r k g : members (group_add r k g) r = {[k]} ∪ members g r.
Proof. unfold group_add, members at 1. by rewrite lookup_insert_eq. Qed.

Lemma members_add_ne r r' k g : r' ≠ r -> members (group_add r k g) r' = members g r'.
Proof. intros Hne. unfold group_add, members at 1. by rewrite lookup_insert_ne. Qed.

Lemma members_remove r k g : members (group_remove r k g) r = members g r ∖ {[k]}.
Proof.
  unfold group_remove. case_decide as Hs; unfold members at 1.
  - by rewrite lookup_delete_eq, Hs.
  - by rewrite lookup_insert_eq.
Qed.

Lemma members_remove_ne r r' k g : r' ≠ r -> members (group_remove r k g) r' = members g r'.
Proof.
  intros Hne. unfold group_remove. case_decide; unfold members at 1.
  - by rewrite lookup_delete_ne.
  - by rewrite lookup_insert_ne.
Qed.

Lemma group_add_ok r k g : group_ok g -> group_ok (group_add r k g).
Proof. intros Hg. apply map_Forall_insert_2; [set_solver|done]. Qed.

Lemma group_remove_ok r k g : group_ok g -> group_ok (group_remove r k g).
Proof.
  intros Hg. unfold group_remove. case_decide.
  - by apply map_Forall_delete.
  - by apply map_Forall_insert_2.
Qed.

Lemma group_total_insert r s g :
  g !! r = None -> group_total (<[r := s]> g) = size s + group_total g.
Proof.
  intros Hr. unfold group_total.
  apply (map_fold_insert_L (fun (_ : string) (s : gset K) n => size s + n)); [intros; lia|done].
Qed.

Lemma group_total_members r g :
  group_total g = size (members g r) + group_total (delete r g).
Proof.
  unfold members. destruct (g !! r) as [s|] eqn:Hr.
  - rewrite <- (insert_delete_id g r s Hr) at 1. by rewrite group_total_insert by apply lookup_delete_eq.
  - rewrite delete_id by done. change (default ∅ None) with (∅ : gset K).
    by rewrite size_empty.
Qed.

Lemma group_total_add r k g :
  k ∉ members g r -> group_total (group_add r k g) = group_total g + 1.
Proof.
  intros Hk. rewrite (group_total_members r g), (group_total_members r (group_add r k g)).
  rewrite members_add, size_union by set_solver. rewrite size_singleton.
  unfold group_add. rewrite delete_insert_eq. lia.
Qed.

Lemma group_total_remove r k g :
  k ∈ members g r -> group_total g = group_total (group_remove r k g) + 1.
Proof.
  intros Hk. rewrite (group_total_members r g), (group_total_members r (group_remove r k g)).
  rewrite members_remove.
  assert (size (members g r) = size (members g r ∖ {[k]}) + 1) as ->.
  { pose proof (Permutation_length (elements_remove k _ Hk)) as Hl. simpl in Hl.
    unfold size, set_size. simpl. lia. }
  assert (delete r (group_remove r k g) = delete r g) as ->; [|lia].
  unfold group_remove. case_decide; [by rewrite delete_delete_eq|by rewrite delete_insert_eq].
Qed.

Lemma group_total_empty : group_total (∅ : gmap string (gset K)) = 0.
Proof. apply map_fold_empty. Qed.

Lemma lookup_members r s g : g !! r = Some s -> members g r = s.
Proof. unfold members. by intros ->. Qed.

Lemma members_lookup r k g : k ∈ members g r -> g !! r = Some (members g r).
Proof. unfold members. destruct (g !! r); [done|]. simpl. set_solver. Qed.
End group_lemmas.

#[export] Hint Rewrite @members_add @members_remove : cbback.
