(* ===== verification/Registry.v ===== *)
(** * The registry of connections

    The state both hubs keep ([rooms]/[users], [count], the stopped flag) and the
    three things both do with it: enter a connection under its key, remove one
    and close its channel, and close everything at shutdown. [key] is the field
    of a connection it is grouped by: the room id in
    [src/internal/signaling/hub.go], the user id in [src/internal/inbox/hub.go]. *)

From S2P Require Import Prelude Chan.

Record registry (K : Type) `{Countable K} := mkRegistry {
  groups : gmap string (gset K);
  count : Z;        (* an atomic.Int64 *)
  stopped : bool
}.
Arguments mkRegistry {K _ _} _ _ _.
Arguments groups {K _ _} _.
Arguments count {K _ _} _.
Arguments stopped {K _ _} _.

Section registry.
Context {K : Type} `{Countable K}.
Variable key : K -> string.

Definition empty_registry : registry K := mkRegistry ∅ 0 false.

Definition initial_world : world K (registry K) := World ∅ 0 empty_registry.

(** The members of group [r]. *)
Definition in_group (w : world K (registry K)) (r : string) : gset K := members (groups (hub w)) r.

Definition set_groups (f : gmap string (gset K) -> gmap string (gset K))
    (w : world K (registry K)) : world K (registry K) :=
  set_hub (mkRegistry (f (groups (hub w))) (count (hub w)) (stopped (hub w))) w.

(** [h.count.Add(d)] *)
Definition count_add (d : Z) (w : world K (registry K)) : world K (registry K) :=
  set_hub (mkRegistry (groups (hub w)) (wrap64 (count (hub w) + d)) (stopped (hub w))) w.

(** Find or create the group, add the connection, count it. *)
Definition enter (c : K) : ST (world K (registry K)) unit :=
  st_modify (set_groups (group_add (key c) c)) ;;; st_modify (count_add 1).

(** Delete the connection, close its channel, count it off, and delete its group
    if it was the last. *)
Definition remove (c : K) : ST (world K (registry K)) unit :=
  st_modify (set_groups (group_remove (key c) c)) ;;;
  close_chan c ;;;
  st_modify (count_add (-1)).

(** Close every member's channel and forget them all. *)
Definition close_all (sc : sched K) : ST (world K (registry K)) unit :=
  w <-- st_get ;;
  rs <-- range_keys sc (groups (hub w)) ;;
  for_each rs (fun r =>
    cs <-- range sc (in_group w r) ;;
    for_each cs (fun c => close_chan c)) ;;;
  st_modify (fun w => set_hub (mkRegistry ∅ 0 true) w).

(** The connection [c] with a new channel of capacity [n]. *)
Definition with_chan (n : nat) (c : K) (w : world K (registry K)) : world K (registry K) :=
  set_chans (<[c := make_chan n]> (chans w)) w.

(** Registered connections are in the group of their key and their channel is
    open; every other channel is closed; the counter counts the members. *)
Record reg_inv (w : world K (registry K)) : Prop := {
  inv_ok : group_ok (groups (hub w));
  inv_key : forall r c, c ∈ in_group w r -> key c = r;
  inv_open : forall c, c ∈ in_group w (key c) <-> status w c = Some false;
  inv_count : count (hub w) = wrap64 (Z.of_nat (group_total (groups (hub w))));
  inv_bounded : bounded w;
  inv_stopped : stopped (hub w) = true -> groups (hub w) = ∅
}.

(** What [remove] does to a registered connection. *)
Record removed (c : K) (w w' : world K (registry K)) : Prop := {
  rm_inv : reg_inv w';
  rm_group : in_group w' (key c) = in_group w (key c) ∖ {[c]};
  rm_other : forall r, r ≠ key c -> in_group w' r = in_group w r;
  rm_stopped : stopped (hub w') = stopped (hub w);
  rm_log : forall k, log w' k = log w k;
  rm_room : forall k, room_left w' k = room_left w k;
  rm_closed : status w' c = Some true;
  rm_status : forall k, k ≠ c -> status w' k = status w k
}.

(** What [with_chan] and [enter] do for a new connection. *)
Record entered (n : nat) (c : K) (w w' : world K (registry K)) : Prop := {
  en_inv : reg_inv w';
  en_group : in_group w' (key c) = {[c]} ∪ in_group w (key c);
  en_other : forall r, r ≠ key c -> in_group w' r = in_group w r;
  en_stopped : stopped (hub w') = stopped (hub w);
  en_log : log w' c = [];
  en_room : room_left w' c = n;
  en_ne : forall k, k ≠ c -> log w' k = log w k /\ status w' k = status w k
}.

(** What [close_all] does. *)
Record closed_all (w w' : world K (registry K)) : Prop := {
  ca_hub : hub w' = mkRegistry ∅ 0 true;
  ca_bounded : bounded w';
  ca_log : forall k, log w' k = log w k;
  ca_status : forall k, status w' k = (fun _ => true) <$> status w k
}.

(** Part of the members have been closed; nothing else has changed. *)
Record closing (w : world K (registry K)) (todo : K -> Prop) (w' : world K (registry K)) : Prop := {
  clo_hub : hub w' = hub w;
  clo_log : forall k, log w' k = log w k;
  clo_todo : forall k, todo k -> status w' k = status w k;
  clo_member : forall k, k ∈ in_group w (key k) -> ~ todo k -> status w' k = Some true;
  clo_other : forall k, k ∉ in_group w (key k) -> status w' k = status w k;
  clo_bounded : bounded w'
}.

(** ** Lemmas *)

Implicit Types (w : world K (registry K)) (c k : K) (r : string).

Lemma inv_member w r c : reg_inv w -> c ∈ in_group w r -> key c = r /\ status w c = Some false.
Proof.
  intros Hw Hc. assert (key c = r) as <- by by apply (inv_key w Hw).
  split; [done|]. by apply (inv_open w Hw).
Qed.

Lemma fresh_not_member w c r : reg_inv w -> status w c = None -> c ∉ in_group w r.
Proof. intros Hw Hs Hc. destruct (inv_member w r c Hw Hc). congruence. Qed.

Lemma closed_not_member w c r : reg_inv w -> status w c = Some true -> c ∉ in_group w r.
Proof. intros Hw Hs Hc. destruct (inv_member w r c Hw Hc). congruence. Qed.

Lemma initial_reg_inv : reg_inv initial_world.
Proof. split; done. Qed.

(** The invariant only looks at the hub, the statuses and the bounds. *)
Lemma reg_inv_same w w' :
  hub w' = hub w -> (forall k, status w' k = status w k) -> (bounded w -> bounded w') ->
  reg_inv w -> reg_inv w'.
Proof.
  intros Hh Hs Hb [I1 I2 I3 I4 I5 I6]. split; unfold in_group in *; rewrite ?Hh; auto.
  intros c. by rewrite Hs, I3.
Qed.

Lemma wp_enter n c w (Q : unit -> world K (registry K) -> Prop) w1 :
  reg_inv w -> status w c = None -> stopped (hub w) = false ->
  chans w1 = chans (with_chan n c w) -> hub w1 = hub w ->
  (forall w', entered n c w w' -> Q tt w') ->
  wp (enter c) Q w1.
Proof.
  intros Hw Hs Hst Hch Hh1 HQ. unfold enter. rewrite wp_bind, !wp_modify. apply HQ.
  set (w2 := count_add 1 _). simpl in Hch.
  pose proof (fresh_not_member w c (key c) Hw Hs) as Hnew.
  assert (forall r, in_group w2 r = members (group_add (key c) c (groups (hub w))) r) as Hin
    by (intros r; unfold in_group, w2; simpl; by rewrite Hh1).
  assert (in_group w2 (key c) = {[c]} ∪ in_group w (key c)) as Hroom
    by (rewrite Hin; apply members_add).
  assert (forall r, r ≠ key c -> in_group w2 r = in_group w r) as Hother
    by (intros r Hr; rewrite Hin; unfold in_group; by apply members_add_ne).
  assert (chans w2 = <[c := make_chan n]> (chans w)) as Hch2 by done.
  assert (forall k, k ≠ c -> log w2 k = log w k /\ status w2 k = status w k) as Hne.
  { intros k Hk. unfold log, status. rewrite Hch2, lookup_insert_ne by done. done. }
  split; try done.
  - split.
    + unfold w2; simpl. rewrite Hh1. apply group_add_ok, Hw.
    + intros r k Hk. destruct (decide (r = key c)) as [->|Hr].
      * rewrite Hroom in Hk. apply elem_of_union in Hk as [->%elem_of_singleton|Hk]; [done|].
        by apply (inv_key w Hw).
      * apply (inv_key w Hw). by rewrite <- Hother.
    + intros k. destruct (decide (k = c)) as [->|Hk].
      * rewrite Hroom. unfold status. rewrite Hch2, lookup_insert_eq. set_solver.
      * destruct (Hne k Hk) as [_ ->]. rewrite <- (inv_open w Hw).
        destruct (decide (key k = key c)) as [->|Hr]; [rewrite Hroom; set_solver|by rewrite Hother].
    + unfold w2; simpl. rewrite Hh1, (inv_count w Hw), wrap64_add. f_equal.
      rewrite group_total_add by done. lia.
    + unfold bounded. rewrite Hch2. apply map_Forall_insert_2; [simpl; lia|apply Hw].
    + unfold w2; simpl. rewrite Hh1, Hst. done.
  - unfold w2; simpl. by rewrite Hh1.
  - unfold log. by rewrite Hch2, lookup_insert_eq.
  - unfold room_left. rewrite Hch2, lookup_insert_eq. simpl. lia.
Qed.

Lemma wp_remove c w (Q : unit -> world K (registry K) -> Prop) :
  reg_inv w -> c ∈ in_group w (key c) ->
  (forall w', removed c w w' -> Q tt w') ->
  wp (remove c) Q w.
Proof.
  intros Hw Hc HQ. unfold remove. rewrite wp_bind, wp_modify, wp_bind.
  destruct (inv_member w _ c Hw Hc) as [_ Hopen].
  apply wp_close_chan; [done|]. intros w1 [C1 C2 C3 C4 C5 C6]. rewrite wp_modify. apply HQ.
  set (w2 := count_add (-1) w1).
  assert (forall r, in_group w2 r = members (group_remove (key c) c (groups (hub w))) r) as Hin.
  { intros r. unfold in_group, w2; simpl. by rewrite C1. }
  assert (in_group w2 (key c) = in_group w (key c) ∖ {[c]}) as Hroom
    by (rewrite Hin; apply members_remove).
  assert (forall r, r ≠ key c -> in_group w2 r = in_group w r) as Hother
    by (intros r Hr; rewrite Hin; unfold in_group; by apply members_remove_ne).
  assert (forall r, in_group w2 r ⊆ in_group w r) as Hsub.
  { intros r. destruct (decide (r = key c)) as [->|Hr]; [rewrite Hroom|rewrite Hother]; set_solver. }
  split; try done.
  - split.
    + unfold w2; simpl. rewrite C1; simpl. apply group_remove_ok, Hw.
    + intros r k Hk. apply (inv_key w Hw). by apply Hsub.
    + intros k. change (status w2 k) with (status w1 k).
      destruct (decide (k = c)) as [->|Hne].
      * rewrite Hroom, C2. set_solver.
      * rewrite C3 by done. change (status _ k) with (status w k).
        rewrite <- (inv_open w Hw). destruct (decide (key k = key c)) as [->|Hr].
        -- rewrite Hroom. set_solver.
        -- by rewrite Hother.
    + unfold w2; simpl. rewrite C1; simpl. rewrite (inv_count w Hw), wrap64_add.
      f_equal. pose proof (group_total_remove _ _ _ Hc). lia.
    + apply C6, Hw.
    + unfold w2; simpl. rewrite C1; simpl. intros Hst. apply (inv_stopped w Hw) in Hst.
      unfold in_group in Hc. rewrite Hst in Hc. unfold members in Hc.
      rewrite lookup_empty in Hc. simpl in Hc. set_solver.
  - unfold w2; simpl. by rewrite C1.
Qed.

Lemma closing_iff w (P P' : K -> Prop) w' :
  (forall k, k ∈ in_group w (key k) -> P k <-> P' k) -> closing w P w' -> closing w P' w'.
Proof.
  intros HP [C1 C2 C3 C4 C5 C6]. split; try done.
  - intros k Hk. destruct (decide (k ∈ in_group w (key k))); [apply C3; by apply HP|by apply C5].
  - intros k Hk Hn. apply C4; [done|]. by rewrite HP.
Qed.

Lemma wp_close_group sc w r (P : K -> Prop) w1 Q :
  reg_inv w -> closing w (fun k => key k = r \/ P k) w1 -> (forall k, P k -> key k ≠ r) ->
  (forall w2, closing w P w2 -> Q tt w2) ->
  wp (cs <-- range sc (in_group w r) ;; for_each cs (fun c => close_chan c)) Q w1.
Proof.
  intros Hw Hc HP HQ. rewrite wp_bind. apply wp_range. intros l w2 Hl Hch Hh.
  assert (NoDup l) as Hnd by (rewrite Hl; apply NoDup_elements).
  assert (forall k, k ∈ l <-> k ∈ in_group w r) as Hin by (intros k; rewrite Hl; apply elem_of_elements).
  eapply wp_mono.
  { apply (wp_for_each (fun rem w' => NoDup rem /\ (forall k, k ∈ rem -> k ∈ in_group w r) /\
        closing w (fun k => k ∈ rem \/ P k) w')).
    - split; [done|]. split; [intros k; apply Hin|].
      assert (closing w (fun k => key k = r \/ P k) w2) as Hc2.
      { destruct Hc. split; unfold status, log, bounded in *; rewrite ?Hch, ?Hh; done. }
      eapply closing_iff, Hc2. intros k Hk. rewrite Hin.
      split; (intros [?|?]; [left|by right]); [congruence|by apply (inv_key w Hw)].
    - intros x rem w3 (Hnd3 & Hsub & [C1 C2 C3 C4 C5 C6]).
      apply NoDup_cons in Hnd3 as [Hx Hnd3].
      destruct (inv_member w r x Hw) as [Hrx Hox]; [apply Hsub; by left|].
      apply wp_close_chan; [by rewrite C3 by (left; left)|].
      intros w4 [D1 D2 D3 D4 D5 D6]. split; [done|]. split; [intros k Hk; apply Hsub; by right|].
      assert (x ∈ in_group w (key x)) as Hxin by (rewrite Hrx; apply Hsub; by left).
      split.
      + congruence.
      + intros k. by rewrite D4.
      + intros k Hk. rewrite D3; [apply C3; destruct Hk; [left; by right|by right]|].
        intros ->. destruct Hk as [?|Hk]; [done|]. by apply (HP x Hk).
      + intros k Hk Hn. destruct (decide (k = x)) as [->|Hne]; [done|].
        rewrite D3 by done. apply C4; [done|]. rewrite elem_of_cons. tauto.
      + intros k Hk. rewrite D3 by (by intros ->). by apply C5.
      + by apply D6. }
  intros [] w3 (_ & _ & H3). apply HQ. eapply closing_iff, H3.
  intros k _. cbn beta. rewrite elem_of_nil. tauto.
Qed.

Lemma wp_close_all sc w (Q : unit -> world K (registry K) -> Prop) :
  reg_inv w -> (forall w', closed_all w w' -> Q tt w') -> wp (close_all sc) Q w.
Proof.
  intros Hw HQ. unfold close_all. rewrite wp_bind, wp_get, wp_bind. apply wp_range_keys.
  intros rs w1 Hrs Hch Hh. rewrite wp_bind.
  assert (NoDup rs) as Hnd by (rewrite Hrs; apply NoDup_elements).
  eapply wp_mono.
  { apply (wp_for_each (fun rem w' => NoDup rem /\ closing w (fun k => key k ∈ rem) w')).
    - split; [done|]. split; unfold status, log, bounded; rewrite ?Hch, ?Hh; try done; [|apply Hw].
      intros k Hk Hn. destruct Hn. rewrite Hrs, elem_of_elements, elem_of_dom.
      eexists. by apply (members_lookup _ k).
    - intros r rem w2 [[Hr Hnd2]%NoDup_cons Hc]. eapply (wp_close_group sc w r (fun k => key k ∈ rem)).
      + done.
      + eapply closing_iff, Hc. intros k _. by rewrite elem_of_cons.
      + intros k Hk <-. done.
      + by split. }
  intros _ w2 [_ [C1 C2 C3 C4 C5 C6]]. rewrite wp_modify. apply HQ.
  split; [done|done|done|]. intros k.
  change (status w2 k = (fun _ => true) <$> status w k).
  destruct (decide (k ∈ in_group w (key k))) as [Hk|Hk].
  - rewrite C4; [|done|by intros ?%elem_of_nil]. by apply (inv_open w Hw) in Hk as ->.
  - rewrite C5 by done. destruct (status w k) as [b|] eqn:E; [|done]. simpl.
    destruct b; [done|]. by apply (inv_open w Hw) in E.
Qed.

Lemma in_group_empty w r : groups (hub w) = ∅ -> in_group w r = ∅.
Proof. intros Hg. unfold in_group, members. by rewrite Hg, lookup_empty. Qed.

Lemma closed_all_inv w w' : reg_inv w -> closed_all w w' -> reg_inv w'.
Proof.
  intros Hw [Hh Hb Hl Hs].
  assert (forall r, in_group w' r = ∅) as Hin by (intros r; apply in_group_empty; by rewrite Hh).
  split; rewrite ?Hh; try done.
  - intros r c. rewrite Hin. set_solver.
  - intros c. rewrite Hin, Hs. destruct (status w c); simpl; set_solver.
Qed.

(** A write pump taking a frame. *)
Lemma write_drained c w :
  drained (chans w) (chans (set_chans (alter ch_take c (chans w)) w)).
Proof. apply (take_all_drained [c]). Qed.

Lemma write_inv c w : reg_inv w -> reg_inv (set_chans (alter ch_take c (chans w)) w).
Proof.
  apply reg_inv_same; [done|apply (drained_status _ _ (write_drained c w))|
    apply (drained_bounded _ _ (write_drained c w))].
Qed.
End registry.
