(* ===== verification/Protocol.v ===== *)
(** * The signaling protocol

    [src/internal/signaling/protocol.go]: the frames a client may send, the
    frames the server emits, the decoding that rejects unknown types, and the
    stamping of the sender that [readPump] performs on every relayed frame. *)

From S2P Require Import Prelude.

(** ** Message types *)

Definition TypeOffer : string := "offer".
Definition TypeAnswer : string := "answer".
Definition TypeCandidate : string := "candidate".
Definition TypeBye : string := "bye".
Definition TypeChat : string := "chat".

Definition TypeWelcome : string := "welcome".
Definition TypePeerJoined : string := "peer-joined".
Definition TypePeerLeft : string := "peer-left".

(** ** Frames *)

Record Peer := mkPeer { peerID : string; peerDisplayName : string }.

#[export] Instance Peer_eq_dec : EqDecision Peer.
Proof. solve_decision. Defined.

Record Inbound := mkInbound {
  inType : string;
  inTo : string;
  inPayload : string    (* json.RawMessage; empty when absent *)
}.

Record Outbound := mkOutbound {
  outType : string;
  outFrom : string;
  outPayload : string;  (* json.RawMessage; empty is omitted *)
  outPeers : list Peer
}.

(** The two uses of [encoding/json]: [json.Unmarshal] into an [Inbound] and
    [json.Marshal] of an [Outbound]; [None] is an error. *)
Class Json := {
  json_unmarshal : string -> option Inbound;
  json_marshal : Outbound -> option string
}.

(** What the hub relies on: [json.Marshal] fails only on values that JSON cannot
    represent, and the one field of an [Outbound] that can hold such a value is
    the raw payload. *)
Class JsonLaws `{Json} : Prop := {
  json_marshal_plain : forall o, outPayload o = "" -> is_Some (json_marshal o)
}.

Inductive parse_error :=
| ErrDecode
| errUnknownType (t : string).

(** The cases of the switch of [parseInbound]. *)
Definition client_types : list string := [TypeOffer; TypeAnswer; TypeCandidate; TypeBye; TypeChat].

Definition parseInbound `{Json} (data : string) : parse_error + Inbound :=
  match json_unmarshal data with
  | None => inl ErrDecode
  | Some i =>
      if decide (inType i ∈ client_types) then inr i
      else inl (errUnknownType (inType i))
  end.

Definition encode `{Json} (out : Outbound) : option string := json_marshal out.

(** The frame [readPump] builds from a parsed message of the user [userID]. *)
Definition stamp (userID : string) (i : Inbound) : Outbound :=
  mkOutbound (inType i) userID (inPayload i) [].

(** The presence frames the hub builds. *)
Definition welcome_frame (userID : string) (peers : list Peer) : Outbound :=
  mkOutbound TypeWelcome userID "" peers.

Definition joined_frame (p : Peer) : Outbound := mkOutbound TypePeerJoined (peerID p) "" [p].

Definition left_frame (p : Peer) : Outbound := mkOutbound TypePeerLeft (peerID p) "" [p].

(** ** The membership a client can compute from its frames

    A client starts with nobody, takes the list of a [welcome], adds the peers of
    a [peer-joined] and drops one entry for each peer of a [peer-left]. *)
Definition view_step (v : list Peer) (o : Outbound) : list Peer :=
  if decide (outType o = TypeWelcome) then outPeers o
  else if decide (outType o = TypePeerJoined) then v ++ outPeers o
  else if decide (outType o = TypePeerLeft) then foldr remove_one v (outPeers o)
  else v.

Definition view (os : list Outbound) : list Peer := foldl view_step [] os.

(** ** A concrete codec

    A line format with the same interface, for evaluating the model: a message is
    its type, a space, its addressee, a space, its payload. *)
Definition split_at_space (s : string) : string * string :=
  match String.index 0 " " s with
  | Some n => (String.substring 0 n s, String.substring (n + 1) (String.length s) s)
  | None => (s, "")
  end.

#[export] Instance line_codec : Json := {|
  json_unmarshal s :=
    let '(t, rest) := split_at_space s in
    let '(to, payload) := split_at_space rest in
    Some (mkInbound t to payload);
  json_marshal o :=
    Some (outType o +:+ " " +:+ outFrom o +:+ " " +:+ outPayload o +:+
          String.concat "," (map peerDisplayName (outPeers o)))
|}.

#[export] Instance line_codec_laws : JsonLaws (H := line_codec).
Proof. split. intros o _. eexists. reflexivity. Defined.

(** ** Lemmas *)

Lemma view_app os o : view (os ++ [o]) = view_step (view os) o.
Proof. unfold view. by rewrite foldl_app. Qed.

Lemma view_step_joined v p : view_step v (joined_frame p) = v ++ [p].
Proof. done. Qed.

Lemma view_step_left v p : view_step v (left_frame p) = remove_one p v.
Proof. done. Qed.

Lemma view_step_welcome v u ps : view_step v (welcome_frame u ps) = ps.
Proof. done. Qed.

(** A frame of a client type leaves the view alone. *)
Lemma view_step_relayed v o : outType o ∈ client_types -> view_step v o = v.
Proof.
  intros Ht. unfold view_step.
  rewrite !decide_False; [done|..]; intros He; rewrite He in Ht; vm_compute in Ht;
    repeat (apply elem_of_cons in Ht as [Ht|Ht]; [discriminate|]); by apply elem_of_nil in Ht.
Qed.

Lemma parseInbound_type `{Json} data i :
  parseInbound data = inr i -> inType i ∈ client_types.
Proof.
  unfold parseInbound. destruct (json_unmarshal data); [|done]. case_decide; naive_solver.
Qed.
