(* ===== verification/TokenBucket.v ===== *)
(** * The inbound message budget

    [src/internal/signaling/ratelimit.go]. The code computes with [float64]; the
    bucket is written once over the arithmetic it uses, and instantiated with
    IEEE binary64 (the code) and with exact rationals (its specification). *)

From S2P Require Import Prelude.
From Stdlib Require Import QArith Qminmax Lqa.
From Corelib Require Import SpecFloat.

(** The arithmetic of the bucket. [seconds] is [time.Duration.Seconds]: its
    argument is a number of nanoseconds. *)
Class Arith (F : Type) := {
  f_add : F -> F -> F;
  f_sub : F -> F -> F;
  f_mul : F -> F -> F;
  f_ltb : F -> F -> bool;
  f_of_Z : Z -> F;
  f_seconds : Z -> F
}.

Definition messageBurst : Z := 120.
Definition messagesPerSecond : Z := 60.

Record tokenBucket (F : Type) := mkBucket {
  tokens : F;
  capacity : F;
  rate : F;
  last : Z     (* time.Time, in nanoseconds *)
}.
Arguments mkBucket {F} _ _ _ _.
Arguments tokens {F} _.
Arguments capacity {F} _.
Arguments rate {F} _.
Arguments last {F} _.

Section bucket.
Context {F : Type} `{Arith F}.

Definition newTokenBucket (cap ratePerSecond : F) (now : Z) : tokenBucket F :=
  mkBucket cap cap ratePerSecond now.

(** The refill of [allow], before a token is taken. *)
Definition refill (b : tokenBucket F) (now : Z) : tokenBucket F :=
  let elapsed := f_seconds (now - last b) in
  if f_ltb (f_of_Z 0) elapsed then
    let t := f_add (tokens b) (f_mul elapsed (rate b)) in
    let t := if f_ltb (capacity b) t then capacity b else t in
    mkBucket t (capacity b) (rate b) now
  else b.

Definition allow (b : tokenBucket F) (now : Z) : bool * tokenBucket F :=
  let b := refill b now in
  if f_ltb (tokens b) (f_of_Z 1) then (false, b)
  else (true, mkBucket (f_sub (tokens b) (f_of_Z 1)) (capacity b) (rate b) (last b)).

(** Call [allow] at each of the given times; how many calls it grants. *)
Fixpoint allow_all (b : tokenBucket F) (times : list Z) : nat * tokenBucket F :=
  match times with
  | [] => (0%nat, b)
  | t :: times =>
      let '(ok, b) := allow b t in
      let '(n, b) := allow_all b times in
      (((if ok then 1 else 0) + n)%nat, b)
  end.
End bucket.

(** ** Binary64, as the code computes *)

Definition f64 : Type := spec_float.

Definition f64_of_Z (z : Z) : f64 := binary_normalize 53 1024 z 0 false.

(** [func (d Duration) Seconds() float64] *)
Definition f64_seconds (d : Z) : f64 :=
  let sec := Z.quot d 1000000000 in
  let nsec := Z.rem d 1000000000 in
  SFadd 53 1024 (f64_of_Z sec) (SFdiv 53 1024 (f64_of_Z nsec) (f64_of_Z 1000000000)).

#[export] Instance f64_arith : Arith f64 := {|
  f_add := SFadd 53 1024;
  f_sub := SFsub 53 1024;
  f_mul := SFmul 53 1024;
  f_ltb := SFltb;
  f_of_Z := f64_of_Z;
  f_seconds := f64_seconds
|}.

(** ** Exact rationals *)

Definition q_ltb (x y : Q) : bool := negb (Qle_bool y x).

#[export] Instance q_arith : Arith Q := {|
  f_add := Qplus;
  f_sub := Qminus;
  f_mul := Qmult;
  f_ltb := q_ltb;
  f_of_Z := inject_Z;
  f_seconds := fun d => d # 1000000000
|}.

(** The bucket of a connection: [newTokenBucket(messageBurst, messagesPerSecond, now)]. *)
Definition connection_bucket {F} `{Arith F} (now : Z) : tokenBucket F :=
  newTokenBucket (f_of_Z messageBurst) (f_of_Z messagesPerSecond) now.

(** ** Lemmas *)

Lemma q_ltb_lt x y : q_ltb x y = true <-> (x < y)%Q.
Proof.
  unfold q_ltb. rewrite negb_true_iff, <- not_true_iff_false, Qle_bool_iff.
  split; intros; [by apply Qnot_le_lt|by apply Qlt_not_le].
Qed.

Lemma q_ltb_le x y : q_ltb x y = false <-> (y <= x)%Q.
Proof.
  rewrite <- not_true_iff_false, q_ltb_lt. split; intros; [by apply Qnot_lt_le|by apply Qle_not_lt].
Qed.

(** The potential of the exact bucket: what it holds plus what it can still earn
    by time [T]. *)
Definition budget (b : tokenBucket Q) (T : Z) : Q :=
  (tokens b + rate b * ((T - last b) # 1000000000))%Q.

(** Well-formed buckets: the level is between zero and the capacity. *)
Definition bucket_ok (b : tokenBucket Q) : Prop :=
  (0 <= tokens b <= capacity b)%Q /\ (0 <= rate b)%Q.

Lemma ns_pos (d : Z) : (0 < d)%Z <-> (0 < (d # 1000000000))%Q.
Proof. unfold Qlt. simpl. lia. Qed.

Lemma ns_nonneg (d : Z) : (0 <= d)%Z -> (0 <= (d # 1000000000))%Q.
Proof. unfold Qle. simpl. lia. Qed.

Lemma ns_add (a c : Z) : ((a # 1000000000) + (c # 1000000000) == ((a + c) # 1000000000))%Q.
Proof. unfold Qeq. simpl. lia. Qed.

Lemma refill_ok b now : bucket_ok b -> bucket_ok (refill b now).
Proof.
  intros [Ht Hr]. unfold refill. destruct (f_ltb _ _) eqn:E; [|done].
  apply q_ltb_lt in E. simpl in *. unfold bucket_ok; simpl.
  destruct (q_ltb _ _) eqn:E2; [apply q_ltb_lt in E2|apply q_ltb_le in E2].
  - split; [split; lra|done].
  - split; [split|done]; [|lra].
    assert (0 <= ((now - last b) # 1000000000) * rate b)%Q; [|lra].
    change (inject_Z 0) with 0%Q in E. apply Qmult_le_0_compat; [by apply Qlt_le_weak|done].
Qed.

Lemma allow_ok b now : bucket_ok b -> bucket_ok (snd (allow b now)).
Proof.
  intros H. apply (refill_ok b now) in H. unfold allow.
  destruct (f_ltb _ _) eqn:E; [done|]. apply q_ltb_le in E.
  destruct H as [H1 H2]. split; [|done]. simpl in *. unfold inject_Z in *. lra.
Qed.

Lemma refill_budget b now T :
  bucket_ok b -> (now <= T)%Z -> (budget (refill b now) T <= budget b T)%Q.
Proof.
  intros [Ht Hr] HT. unfold refill. destruct (f_ltb _ _) eqn:E; [|lra].
  unfold budget; simpl.
  assert (((T - last b) # 1000000000) == ((T - now) # 1000000000) + ((now - last b) # 1000000000))%Q as ->.
  { rewrite ns_add. unfold Qeq; simpl. lia. }
  destruct (q_ltb _ _) eqn:E2; [apply q_ltb_lt in E2|apply q_ltb_le in E2]; simpl in *; lra.
Qed.

Lemma refill_last b now T : (last b <= T)%Z -> (now <= T)%Z -> (last (refill b now) <= T)%Z.
Proof. intros. unfold refill. by destruct (f_ltb _ _). Qed.

Lemma allow_budget b now T :
  bucket_ok b -> (now <= T)%Z ->
  (budget (snd (allow b now)) T <= budget b T - (if fst (allow b now) then 1 else 0))%Q.
Proof.
  intros Hb HT. pose proof (refill_budget b now T Hb HT) as Hr. unfold allow.
  destruct (f_ltb _ _); simpl; [lra|]. unfold budget in *; simpl in *; unfold inject_Z in *. lra.
Qed.

Lemma allow_last b now T : (last b <= T)%Z -> (now <= T)%Z -> (last (snd (allow b now)) <= T)%Z.
Proof.
  intros H1 H2. pose proof (refill_last b now T H1 H2). unfold allow. by destruct (f_ltb _ _).
Qed.

(** However the calls are spaced, the grants by time [T] never exceed what the
    bucket held plus what it earned. *)
Lemma allow_all_budget times b T :
  bucket_ok b -> (last b <= T)%Z -> Forall (fun t => (t <= T)%Z) times ->
  (inject_Z (Z.of_nat (fst (allow_all b times))) <= budget b T)%Q.
Proof.
  intros Hb Hl Ht. revert b Hb Hl. induction Ht as [|t times Ht _ IH]; intros b Hb Hl; simpl.
  - unfold budget. destruct Hb as [? Hr].
    assert (0 <= rate b * ((T - last b) # 1000000000))%Q by (apply Qmult_le_0_compat; [done|apply ns_nonneg; lia]).
    change (0 <= tokens b + rate b * ((T - last b) # 1000000000))%Q. lra.
  - pose proof (allow_budget b t T Hb Ht) as Hbud. pose proof (allow_ok b t Hb) as Hok.
    pose proof (allow_last b t T Hl Ht) as Hlast.
    destruct (allow b t) as [ok b1]. simpl in *. specialize (IH b1 Hok Hlast).
    destruct (allow_all b1 times) as [n b2]. simpl in *.
    rewrite Nat2Z.inj_add, inject_Z_plus. set (x := inject_Z (Z.of_nat n)) in *.
    destruct ok; [change (inject_Z (Z.of_nat 1)) with 1%Q|change (inject_Z (Z.of_nat 0)) with 0%Q]; lra.
Qed.
