(* ===== verification/Float.v ===== *)
(** * Rounding in binary64

    How far the result of an operation on binary64 numbers can lie from the exact
    one. [SpecFloat] defines the operations as bit manipulations; here they are
    bounded over the rationals, for the operands the program has: not negative. An
    operation adds at most half a unit in the last place, and takes away less than
    three. *)

From S2P Require Import Prelude.
From Stdlib Require Import QArith Qminmax Lqa Qpower.
From Corelib Require Import SpecFloat.

Abbreviation prec := 53%Z.
Abbreviation emax := 1024%Z.
Abbreviation fexp := (SpecFloat.fexp prec emax).

#[export] Instance Qle_transitive : Transitive Qle.
Proof. intros x y z. apply Qle_trans. Qed.

(** ** Powers of two *)

Definition pow2 (e : Z) : Q := (2 ^ e)%Q.

Lemma pow2_pos e : (0 < pow2 e)%Q.
Proof. by apply Qpower_0_lt. Qed.

Lemma pow2_plus a b : (pow2 (a + b) == pow2 a * pow2 b)%Q.
Proof. by apply Qpower_plus. Qed.

Lemma pow2_le a b : (a <= b)%Z -> (pow2 a <= pow2 b)%Q.
Proof. intros. by apply Qpower_le_compat_l. Qed.

Lemma pow2_Z n : (0 <= n)%Z -> (inject_Z (2 ^ n) == pow2 n)%Q.
Proof. intros. by rewrite Zpower_Qpower. Qed.

Lemma pow2_succ e : (pow2 (e + 1) == 2 * pow2 e)%Q.
Proof. rewrite pow2_plus. change (pow2 1) with 2%Q. ring. Qed.

Lemma pow2_pred e : (pow2 (e - 1) == pow2 e * (1 # 2))%Q.
Proof. unfold Z.sub. rewrite pow2_plus. reflexivity. Qed.

(** The number with mantissa [m] and exponent [e]. *)
Definition dyadic (m e : Z) : Q := (inject_Z m * pow2 e)%Q.

Lemma dyadic_shift m e n : (0 <= n)%Z -> (dyadic (m * 2 ^ n) (e - n) == dyadic m e)%Q.
Proof.
  intros Hn. unfold dyadic. rewrite inject_Z_mult, pow2_Z, <- Qmult_assoc, <- pow2_plus by done.
  by replace (n + (e - n))%Z with e by lia.
Qed.

Lemma dyadic_le m m' e : (m <= m')%Z -> (dyadic m e <= dyadic m' e)%Q.
Proof.
  intros Hm. apply Qmult_le_compat_r; [by rewrite <- Zle_Qle|apply Qlt_le_weak, pow2_pos].
Qed.

(** ** Digits *)

Lemma digits2_size p : digits2_pos p = Pos.size p.
Proof. induction p as [p IH|p IH|]; simpl; by rewrite ?IH. Qed.

Lemma digits_bounds m : (0 < m)%Z -> (2 ^ (Zdigits2 m - 1) <= m < 2 ^ Zdigits2 m)%Z /\ (0 < Zdigits2 m)%Z.
Proof.
  destruct m as [|p|]; [done| |done]. intros _. cbn [Zdigits2]. rewrite digits2_size.
  pose proof (Pos.size_gt p) as Hgt. pose proof (Pos.size_le p) as Hle.
  assert (Z.pos p < 2 ^ Z.pos (Pos.size p))%Z by (rewrite <- Pos2Z.inj_pow; lia).
  assert (2 ^ Z.pos (Pos.size p) <= 2 * Z.pos p)%Z by (rewrite <- Pos2Z.inj_pow; lia).
  rewrite Z.pow_sub_r by lia. change (2 ^ 1)%Z with 2%Z.
  split; [split; [|done]|lia]. apply Z.div_le_upper_bound; lia.
Qed.

Lemma digits_lower m n : (2 ^ (n - 1) <= m)%Z -> (0 < n)%Z -> (n <= Zdigits2 m)%Z.
Proof.
  intros Hm Hn. assert (0 < m)%Z as Hpos by (pose proof (Z.pow_pos_nonneg 2 (n - 1)); lia).
  destruct (digits_bounds m Hpos) as [[_ Hlt] Hd].
  assert (2 ^ (n - 1) < 2 ^ Zdigits2 m)%Z as Hp by lia. apply Z.pow_lt_mono_r_iff in Hp; lia.
Qed.

Lemma digits_mono m m' : (0 <= m <= m')%Z -> (Zdigits2 m <= Zdigits2 m')%Z.
Proof.
  intros [H0 Hm]. destruct (Z.eq_dec m 0) as [->|].
  { destruct m'; simpl; lia. }
  destruct (digits_bounds m) as [[Hb _] ?]; [lia|]. apply digits_lower; lia.
Qed.

(** Dropping [n] low bits drops [n] digits. *)
Lemma digits_div m n : (0 <= n)%Z -> (0 < m / 2 ^ n)%Z -> Zdigits2 (m / 2 ^ n) = (Zdigits2 m - n)%Z.
Proof.
  intros Hn Hpos. assert (0 < 2 ^ n)%Z as Hp by (by apply Z.pow_pos_nonneg).
  assert (2 ^ n <= m)%Z as Hm by (apply Z.nlt_ge; intros Hlt; destruct (Z.le_gt_cases 0 m); [rewrite Z.div_small in Hpos; lia|pose proof (Z.div_lt_upper_bound m (2 ^ n) 0); lia]).
  destruct (digits_bounds m) as [[Hlo Hhi] Hd]; [lia|].
  assert (n < Zdigits2 m)%Z as Hnd by (assert (2 ^ n < 2 ^ Zdigits2 m)%Z as Hx by lia; apply Z.pow_lt_mono_r_iff in Hx; lia).
  destruct (digits_bounds (m / 2 ^ n)) as [[Hlo' Hhi'] Hd']; [done|].
  assert (m / 2 ^ n < 2 ^ (Zdigits2 m - n))%Z.
  { apply Z.div_lt_upper_bound; [done|]. rewrite <- Z.pow_add_r by lia. by replace (n + (Zdigits2 m - n))%Z with (Zdigits2 m) by lia. }
  assert (2 ^ (Zdigits2 m - n - 1) <= m / 2 ^ n)%Z.
  { apply Z.div_le_lower_bound; [done|]. rewrite <- Z.pow_add_r by lia. by replace (n + (Zdigits2 m - n - 1))%Z with (Zdigits2 m - 1)%Z by lia. }
  apply Z.le_antisymm.
  - assert (2 ^ (Zdigits2 (m / 2 ^ n) - 1) < 2 ^ (Zdigits2 m - n))%Z as Hx by lia. apply Z.pow_lt_mono_r_iff in Hx; lia.
  - by apply digits_lower; [|lia].
Qed.

(** ** Mantissas with a round and a sticky bit *)

(** Where the exact value [y] lies, in units of the mantissa. *)
Definition located (mrs : shr_record) (y : Q) : Prop :=
  (0 <= shr_m mrs)%Z /\
  let m := inject_Z (shr_m mrs) in
  (match shr_r mrs, shr_s mrs with
  | false, false => y == m
  | false, true => m < y /\ y < m + (1 # 2)
  | true, false => y == m + (1 # 2)
  | true, true => m + (1 # 2) < y /\ y < m + 1
  end)%Q.

(** Linear arithmetic through conjunctions. *)
Ltac lra_all := cbn zeta in *; repeat match goal with H : _ /\ _ |- _ => destruct H end; repeat split; lra.

Lemma located_eq mrs y y' : (y == y')%Q -> located mrs y -> located mrs y'.
Proof. intros He [H0 H]. split; [done|]. destruct (shr_r mrs), (shr_s mrs); lra_all. Qed.

Lemma inject_pos_I p : (inject_Z (Zpos p~1) == 2 * inject_Z (Zpos p) + 1)%Q.
Proof. unfold inject_Z, Qeq, Qplus, Qmult; cbn [Qnum Qden]; lia. Qed.

Lemma inject_pos_O p : (inject_Z (Zpos p~0) == 2 * inject_Z (Zpos p))%Q.
Proof. unfold inject_Z, Qeq, Qplus, Qmult; cbn [Qnum Qden]; lia. Qed.

Lemma shr_1_located mrs y :
  located mrs y -> located (shr_1 mrs) (y * (1 # 2)) /\ shr_m (shr_1 mrs) = (shr_m mrs / 2)%Z.
Proof.
  destruct mrs as [m r s]. intros [Hm Hy]. cbn [shr_m shr_r shr_s] in *.
  destruct m as [|[p|p|]|p]; [| | | |lia]; cbn; unfold located; cbn [shr_m shr_r shr_s];
    (split; [split; [lia|]|Z.to_euclidean_division_equations; lia]).
  - change (inject_Z 0) with 0%Q in *. destruct r, s; cbn; lra_all.
  - pose proof (inject_pos_I p). destruct r, s; cbn; lra_all.
  - pose proof (inject_pos_O p). destruct r, s; cbn; lra_all.
  - change (inject_Z 1) with 1%Q in *. change (inject_Z 0) with 0%Q. destruct r, s; cbn; lra_all.
Qed.

Lemma iter_located n mrs y :
  located mrs y -> located (iter_pos shr_1 n mrs) (y * pow2 (- Zpos n)) /\
    shr_m (iter_pos shr_1 n mrs) = (shr_m mrs / 2 ^ Zpos n)%Z.
Proof.
  assert (forall a b z, (0 < a)%Z -> (0 < b)%Z ->
    (pow2 (- a) * pow2 (- b) == pow2 (- (a + b)))%Q /\ (z / 2 ^ a / 2 ^ b = z / 2 ^ (a + b))%Z) as Hab.
  { intros a b z Ha Hb. rewrite <- pow2_plus. split; [by replace (- a + - b)%Z with (- (a + b))%Z by lia|].
    rewrite Z.div_div by (try apply Z.pow_pos_nonneg; try apply Z.pow_nonzero; lia). by rewrite Z.pow_add_r by lia. }
  revert mrs y. induction n as [n IH|n IH|]; intros mrs y Hy; cbn [iter_pos].
  - destruct (shr_1_located _ _ Hy) as [H1 E1]. destruct (IH _ _ H1) as [H2 E2]. destruct (IH _ _ H2) as [H3 E3].
    destruct (Hab (Zpos n) (Zpos n) (shr_m mrs / 2 ^ 1)%Z) as [Hp Hz]; [done..|].
    destruct (Hab 1%Z (Zpos n + Zpos n)%Z (shr_m mrs)) as [Hp' Hz']; [done..|].
    replace (Zpos n~1) with (1 + (Zpos n + Zpos n))%Z by lia. split.
    + eapply located_eq, H3. rewrite <- Hp', <- Hp. change (pow2 (- (1))) with (1 # 2)%Q. ring.
    + rewrite E3, E2, E1, <- Hz', <- Hz. done.
  - destruct (IH _ _ Hy) as [H2 E2]. destruct (IH _ _ H2) as [H3 E3].
    destruct (Hab (Zpos n) (Zpos n) (shr_m mrs)) as [Hp Hz]; [done..|].
    replace (Zpos n~0) with (Zpos n + Zpos n)%Z by lia. split.
    + eapply located_eq, H3. rewrite <- Hp. ring.
    + by rewrite E3, E2, <- Hz.
  - destruct (shr_1_located _ _ Hy) as [H1 E1]. by split.
Qed.

Lemma shr_located mrs e n y :
  (0 <= n)%Z -> located mrs y ->
  exists mrs', shr mrs e n = (mrs', (e + n)%Z) /\ located mrs' (y * pow2 (- n)) /\
    shr_m mrs' = (shr_m mrs / 2 ^ n)%Z.
Proof.
  intros Hn Hy. destruct n as [|n|]; [| |lia]; cbn [shr].
  - exists mrs. rewrite Z.add_0_r, Z.div_1_r. split; [done|]. split; [|done].
    eapply located_eq, Hy. change (pow2 (- 0)) with 1%Q. ring.
  - destruct (iter_located n _ _ Hy) as [H1 H2]. eauto.
Qed.

(** Rounding to nearest moves by half a unit at most, and the mantissa by at most one. *)
Lemma round_located mrs y :
  located mrs y ->
  let m := round_nearest_even (shr_m mrs) (loc_of_shr_record mrs) in
  (shr_m mrs <= m <= shr_m mrs + 1)%Z /\ (inject_Z m <= y + (1 # 2))%Q /\ (y - (1 # 2) <= inject_Z m)%Q.
Proof.
  destruct mrs as [m r s]. intros [Hm Hy]. cbn [shr_m shr_r shr_s] in *.
  assert (inject_Z (m + 1) == inject_Z m + 1)%Q as H1 by (rewrite inject_Z_plus; done).
  destruct r, s; cbn; [| |split; [lia|lra_all]..].
  - split; [lia|lra_all].
  - destruct (Z.even m); (split; [lia|lra_all]).
Qed.

Lemma located_floor mrs y : located mrs y -> (inject_Z (shr_m mrs) <= y)%Q.
Proof. intros [_ H]. destruct (shr_r mrs), (shr_s mrs); lra_all. Qed.

Lemma located_ceil mrs y : located mrs y -> (y < inject_Z (shr_m mrs) + 1)%Q.
Proof. intros [_ H]. destruct (shr_r mrs), (shr_s mrs); lra_all. Qed.

Lemma shr_m_of_loc m l : shr_m (shr_record_of_loc m l) = m.
Proof. by destruct l as [|[]]. Qed.

(** ** Rounding *)

Lemma fexp_max e : fexp e = Z.max (e - 53) (-1074).
Proof. reflexivity. Qed.

(** Shifting to the exponent of the format gives a mantissa of the format. *)
Lemma shr_fexp_located m e l y :
  (0 <= m)%Z -> located (shr_record_of_loc m l) y -> (e <= fexp (Zdigits2 m + e))%Z ->
  let e' := fexp (Zdigits2 m + e) in
  exists mrs, shr_fexp prec emax m e l = (mrs, e') /\ located mrs (y * pow2 (e - e')) /\
    (e' <= fexp (Zdigits2 (shr_m mrs) + e'))%Z /\
    (0 < shr_m mrs -> fexp (Zdigits2 (shr_m mrs) + e') = e')%Z.
Proof.
  intros Hm Hy He e'. unfold shr_fexp. fold e'.
  destruct (shr_located _ e (e' - e) _ ltac:(lia) Hy) as (mrs & Hshr & Hloc & Hmrs).
  rewrite shr_m_of_loc in Hmrs. exists mrs. rewrite Hshr. split; [f_equal; lia|].
  split; [eapply located_eq, Hloc; by replace (- (e' - e))%Z with (e - e')%Z by lia|].
  assert (0 < shr_m mrs -> fexp (Zdigits2 (shr_m mrs) + e') = e')%Z as Hcanon.
  { intros Hpos. rewrite Hmrs in *. rewrite digits_div by lia. unfold e'. f_equal. fold e'. lia. }
  split; [|done]. destruct (Z.lt_ge_cases 0 (shr_m mrs)) as [Hpos|Hz]; [by rewrite Hcanon|].
  assert (shr_m mrs = 0)%Z as Hz' by (pose proof (proj1 Hloc); lia).
  enough (e' <= -1074)%Z by (rewrite fexp_max; lia). unfold e' in *. rewrite fexp_max in *.
  destruct (Z.eq_dec m 0) as [->|Hne]; [simpl in *; lia|].
  destruct (digits_bounds m) as [[Hlo _] Hd]; [lia|].
  destruct (Z.le_gt_cases (Zdigits2 m) (Z.max (Zdigits2 m + e - 53) (-1074) - e)) as [|Hgt]; [lia|].
  exfalso. rewrite Hz' in Hmrs. symmetry in Hmrs. apply Z.div_small_iff in Hmrs; [|by apply Z.pow_nonzero; lia].
  assert (2 ^ (Z.max (Zdigits2 m + e - 53) (-1074) - e) <= 2 ^ (Zdigits2 m - 1))%Z by (apply Z.pow_le_mono_r; lia).
  lia.
Qed.

(** A binary64 number that is not negative, and its value. *)
Definition finite_at (x : spec_float) (v : Q) : Prop :=
  (x = S754_zero false /\ v == 0)%Q \/
  exists m e, x = S754_finite false m e /\ fexp (Zpos (digits2_pos m) + e) = e /\ (e <= 971)%Z /\
    (v == dyadic (Zpos m) e)%Q.

(** At most [a]; what overflows is due to a large bound. *)
Definition below (x : spec_float) (a : Q) : Prop :=
  (x = S754_infinity false /\ pow2 971 <= a)%Q \/ exists v, finite_at x v /\ (v <= a)%Q.

Lemma below_le x a b : below x a -> (a <= b)%Q -> below x b.
Proof. intros [[Hx Ha]|(v & Hx & Hv)] Hab; [left; split; [done|lra]|right; exists v; split; [done|lra]]. Qed.

(** At least [a]. *)
Definition above (x : spec_float) (a : Q) : Prop :=
  x = S754_infinity false \/ exists v, finite_at x v /\ (a <= v)%Q.

Lemma above_le x a b : above x a -> (b <= a)%Q -> above x b.
Proof. intros [Hx|(v & Hx & Hv)] Hab; [by left|right; exists v; split; [done|lra]]. Qed.

(** The second shift, after the mantissa was rounded up, is by one place at most. *)
Lemma rounded_exponent m m1 e' :
  (0 <= m)%Z -> (m <= m1 <= m + 1)%Z -> (-1074 <= e' <= fexp (Zdigits2 m + e'))%Z ->
  (0 < m -> fexp (Zdigits2 m + e') = e')%Z -> (fexp (Zdigits2 m1 + e') <= e' + 1)%Z.
Proof.
  intros H0 Hm1 Hfit Hcanon. rewrite !fexp_max in *.
  assert (Zdigits2 m1 <= Zdigits2 m + 1)%Z as Hd.
  { destruct (Z.eq_dec m 0) as [->|Hne]; [assert (m1 = 0 \/ m1 = 1)%Z as [-> | ->] by lia; simpl; lia|].
    destruct (digits_bounds m1) as [[Hlo _] _]; [lia|]. destruct (digits_bounds m) as [[_ Hhi] Hd]; [lia|].
    assert (2 ^ (Zdigits2 m1 - 1) <= 2 ^ Zdigits2 m)%Z as Hp by lia. apply Z.pow_le_mono_r_iff in Hp; lia. }
  destruct (Z.eq_dec m 0) as [->|Hne]; [simpl in *; lia|]. specialize (Hcanon ltac:(lia)). lia.
Qed.

Lemma round_half m e l y :
  (0 <= m)%Z -> located (shr_record_of_loc m l) y -> (e <= fexp (Zdigits2 m + e))%Z ->
  below (binary_round_aux prec emax false m e l) (y * pow2 e + pow2 (fexp (Zdigits2 m + e) - 1)) /\
  above (binary_round_aux prec emax false m e l) (y * pow2 e - 5 * pow2 (fexp (Zdigits2 m + e) - 1)).
Proof.
  intros Hm Hy He. unfold binary_round_aux.
  destruct (shr_fexp_located m e l y Hm Hy He) as (mrs & -> & Hloc & Hfit & Hfirst).
  set (e' := fexp (Zdigits2 m + e)) in *. destruct (round_located _ _ Hloc) as (Hm1 & Hup & Hdown).
  set (m1 := round_nearest_even _ _) in *. pose proof (proj1 Hloc) as Hpos.
  destruct (shr_fexp_located m1 e' loc_Exact (inject_Z m1)) as (mrs2 & -> & Hloc2 & _ & Hcanon).
  { lia. } { split; [cbn; lia|]. simpl. reflexivity. }
  { etransitivity; [exact Hfit|]. rewrite !fexp_max. pose proof (digits_mono (shr_m mrs) m1). lia. }
  assert (-1074 <= e')%Z as Hbot by (unfold e'; rewrite fexp_max; lia).
  pose proof (rounded_exponent _ m1 e' Hpos Hm1 (conj Hbot Hfit) Hfirst) as He2.
  set (e2 := fexp (Zdigits2 m1 + e')) in *. apply located_floor in Hloc2 as Hfloor. apply located_ceil in Hloc2 as Hceil.
  assert (dyadic (shr_m mrs2) e2 <= y * pow2 e + pow2 (e' - 1))%Q as Hle.
  { unfold dyadic. transitivity (inject_Z m1 * pow2 (e' - e2) * pow2 e2)%Q.
    { apply Qmult_le_compat_r; [done|apply Qlt_le_weak, pow2_pos]. }
    rewrite <- Qmult_assoc, <- pow2_plus. replace (e' - e2 + e2)%Z with e' by lia.
    transitivity ((y * pow2 (e - e') + (1 # 2)) * pow2 e')%Q.
    { apply Qmult_le_compat_r; [done|apply Qlt_le_weak, pow2_pos]. }
    rewrite pow2_pred, Qmult_plus_distr_l, <- Qmult_assoc, <- pow2_plus.
    replace (e - e' + e')%Z with e by lia. lra. }
  assert (y * pow2 e - 5 * pow2 (e' - 1) <= dyadic (shr_m mrs2) e2)%Q as Hge.
  { unfold dyadic. assert (pow2 e2 <= 4 * pow2 (e' - 1))%Q as Hunit.
    { transitivity (pow2 (e' + 1)); [by apply pow2_le|]. replace (e' + 1)%Z with (e' - 1 + 1 + 1)%Z by lia. rewrite !pow2_succ. lra. }
    assert ((inject_Z m1 * pow2 (e' - e2) - 1) * pow2 e2 <= inject_Z (shr_m mrs2) * pow2 e2)%Q as H1.
    { apply Qmult_le_compat_r; [lra|apply Qlt_le_weak, pow2_pos]. }
    assert (inject_Z m1 * pow2 (e' - e2) * pow2 e2 == inject_Z m1 * pow2 e')%Q as H2.
    { rewrite <- Qmult_assoc, <- pow2_plus. by replace (e' - e2 + e2)%Z with e' by lia. }
    assert ((y * pow2 (e - e') - (1 # 2)) * pow2 e' <= inject_Z m1 * pow2 e')%Q as H3.
    { apply Qmult_le_compat_r; [done|apply Qlt_le_weak, pow2_pos]. }
    assert (y * pow2 (e - e') * pow2 e' == y * pow2 e)%Q as H4.
    { rewrite <- Qmult_assoc, <- pow2_plus. by replace (e - e' + e')%Z with e by lia. }
    rewrite pow2_pred in *. lra. }
  clearbody e2. pose proof (proj1 Hloc2) as Hpos2. destruct (shr_m mrs2) as [|p|p] eqn:Hp; [| |lia].
  - unfold dyadic in Hle, Hge. change (inject_Z 0) with 0%Q in *.
    split; right; exists 0%Q; (split; [by left|]); lra.
  - destruct (Z.leb_spec e2 (emax - prec)) as [H2|H2].
    + assert (finite_at (S754_finite false p e2) (dyadic (Zpos p) e2)) as Hfin.
      { right. exists p, e2. split; [done|]. split; [by apply Hcanon|]. split; [lia|reflexivity]. }
      split; right; eexists; by split.
    + split; [|by left]. left. split; [done|]. etransitivity; [|exact Hle]. unfold dyadic.
      transitivity (1 * pow2 e2)%Q; [rewrite Qmult_1_l; apply pow2_le; lia|].
      apply Qmult_le_compat_r; [|apply Qlt_le_weak, pow2_pos]. unfold Qle. simpl. lia.
Qed.

(** ** The error of an operation *)

(** Half a unit of a number near one, and a bound for the error near zero. *)
Definition u : Q := 1 # 9007199254740992.                     (* 2^-53 *)
Definition eta : Q := 1 # 1267650600228229401496703205376.    (* 2^-100 *)

Definition rnd (x : Q) : Q := (x * (1 + u) + eta)%Q.

Lemma rnd_ge x : (0 <= x)%Q -> (x <= rnd x)%Q.
Proof. unfold rnd, u, eta. lra. Qed.

Lemma rnd_le x y : (x <= y)%Q -> (rnd x <= rnd y)%Q.
Proof. unfold rnd, u. lra. Qed.

Lemma finite_nonneg x v : finite_at x v -> (0 <= v)%Q.
Proof.
  intros [[_ Hv]|(m & e & _ & _ & _ & Hv)]; rewrite Hv; [lra|].
  apply Qmult_le_0_compat; [done|apply Qlt_le_weak, pow2_pos].
Qed.

Lemma finite_below x v a : finite_at x v -> (v <= a)%Q -> below x a.
Proof. right. eauto. Qed.

(** Far below the overflow, the result is a number. *)
Lemma below_finite x a : below x a -> (a <= 1000000000000)%Q -> exists v, finite_at x v /\ (v <= a)%Q.
Proof.
  intros [[_ H]|H] Ha; [|done]. exfalso. assert (pow2 40 < pow2 971)%Q as Hlt by (by apply Qpower_lt_compat_l).
  change (pow2 40) with 1099511627776%Q in Hlt. lra.
Qed.

Definition rnd_dn (x : Q) : Q := (x * (1 - 5 * u) - eta)%Q.

Lemma rnd_dn_le x : (0 <= x)%Q -> (rnd_dn x <= x)%Q.
Proof. unfold rnd_dn, u, eta. lra. Qed.

Lemma rnd_dn_mono x y : (x <= y)%Q -> (rnd_dn x <= rnd_dn y)%Q.
Proof. unfold rnd_dn, u. lra. Qed.

(** [v], rounded. *)
Definition near (x : spec_float) (v : Q) : Prop := below x (rnd v) /\ above x (rnd_dn v).

Lemma near_eq x v w : (v == w)%Q -> near x v -> near x w.
Proof.
  intros E [H1 H2]. split; [eapply below_le, rnd_le; [exact H1|lra]|eapply above_le, rnd_dn_mono; [exact H2|lra]].
Qed.

Lemma finite_near x v : finite_at x v -> near x v.
Proof.
  intros Hx. pose proof (finite_nonneg _ _ Hx) as Hv.
  split; [apply (finite_below _ v); [done|by apply rnd_ge]|right; exists v; split; [done|by apply rnd_dn_le]].
Qed.

Lemma zero_near v : (v == 0)%Q -> near (S754_zero false) v.
Proof. intros Hv. apply finite_near. by left. Qed.

(** Half a unit in the last place of a mantissa, against the number. *)
Lemma half_unit m e l y x :
  (0 <= m)%Z -> located (shr_record_of_loc m l) y -> (e <= fexp (Zdigits2 m + e))%Z -> (y * pow2 e == x)%Q ->
  (0 <= x)%Q /\ (pow2 (fexp (Zdigits2 m + e) - 1) <= x * u + eta * (1 # 8))%Q.
Proof.
  intros Hm Hy He Hx.
  assert (0 <= y)%Q as Hy0.
  { apply located_floor in Hy. rewrite shr_m_of_loc in Hy. etransitivity; [|exact Hy]. change 0%Q with (inject_Z 0). by rewrite <- Zle_Qle. }
  assert (0 <= x)%Q as Hx0 by (rewrite <- Hx; apply Qmult_le_0_compat; [done|apply Qlt_le_weak, pow2_pos]).
  split; [done|]. assert (pow2 (-1075) <= eta * (1 # 8))%Q as Heta.
  { transitivity (pow2 (-103)); [by apply pow2_le|]. unfold Qle. simpl. lia. }
  assert (0 <= x * u)%Q as Hxu by (by apply Qmult_le_0_compat).
  destruct (Z.le_gt_cases (Zdigits2 m + e - 53) (-1074)) as [Hsub|Hnorm].
  { rewrite fexp_max, Z.max_r by lia. change (-1074 - 1)%Z with (-1075)%Z. lra. }
  rewrite fexp_max, Z.max_l in * by lia.
  destruct (Z.eq_dec m 0) as [->|Hne]; [simpl in *; lia|].
  destruct (digits_bounds m) as [[Hlo _] Hd]; [lia|].
  assert (pow2 (Zdigits2 m - 1) <= y)%Q as Hlow.
  { apply located_floor in Hy. rewrite shr_m_of_loc in Hy. etransitivity; [|exact Hy].
    rewrite <- pow2_Z by lia. by rewrite <- Zle_Qle. }
  assert (pow2 (Zdigits2 m + e - 53 - 1) <= x * u)%Q; [|unfold eta; lra].
  replace (Zdigits2 m + e - 53 - 1)%Z with ((Zdigits2 m - 1) + (e + -53))%Z by lia.
  rewrite !pow2_plus, <- Hx, Qmult_assoc. change (pow2 (-53)) with u.
  apply Qmult_le_compat_r; [|done]. apply Qmult_le_compat_r; [done|apply Qlt_le_weak, pow2_pos].
Qed.

Lemma round_near m e l y x :
  (0 <= m)%Z -> located (shr_record_of_loc m l) y -> (e <= fexp (Zdigits2 m + e))%Z ->
  (y * pow2 e == x)%Q -> near (binary_round_aux prec emax false m e l) x.
Proof.
  intros Hm Hy He Hx. destruct (round_half m e l y Hm Hy He) as [Hb Ha]. destruct (half_unit m e l y x Hm Hy He Hx) as [Hx0 Hh].
  set (h := pow2 _) in *. split; [eapply below_le; [exact Hb|]|eapply above_le; [exact Ha|]]; rewrite Hx; unfold rnd, rnd_dn, u, eta in *; lra.
Qed.

(** ** Alignment and normalisation *)

Lemma iter_xO p d : Zpos (Pos.iter xO p d) = (Zpos p * 2 ^ Zpos d)%Z.
Proof.
  induction d as [|d IH] using Pos.peano_ind; [simpl; lia|].
  rewrite Pos.iter_succ, Pos2Z.inj_xO, IH, Pos2Z.inj_succ, Z.pow_succ_r by lia. lia.
Qed.

Lemma iter_xO_digits p d : Zdigits2 (Zpos (Pos.iter xO p d)) = (Zdigits2 (Zpos p) + Zpos d)%Z.
Proof.
  induction d as [|d IH] using Pos.peano_ind; [simpl; lia|].
  rewrite Pos.iter_succ. simpl in *. lia.
Qed.

Lemma shl_align_spec p e e' :
  exists m, shl_align p e e' = (m, Z.min e e') /\ (dyadic (Zpos m) (Z.min e e') == dyadic (Zpos p) e)%Q /\
    (Zdigits2 (Zpos m) + Z.min e e' = Zdigits2 (Zpos p) + e)%Z.
Proof.
  unfold shl_align. destruct (e' - e)%Z as [|d|d] eqn:Hd.
  - rewrite Z.min_l by lia. exists p. by split.
  - rewrite Z.min_l by lia. exists p. by split.
  - rewrite Z.min_r by lia. exists (Pos.iter xO p d). split; [done|]. rewrite iter_xO_digits. split; [|lia].
    rewrite iter_xO. replace e' with (e - Zpos d)%Z by lia. by apply dyadic_shift.
Qed.

Lemma exact_located m : (0 <= m)%Z -> located (shr_record_of_loc m loc_Exact) (inject_Z m).
Proof. intros Hm. split; [done|]. simpl. reflexivity. Qed.

Lemma normalize_near m e : (0 <= m)%Z -> near (binary_normalize prec emax m e false) (dyadic m e).
Proof.
  intros Hm. destruct m as [|p|]; [| |lia]; cbn [binary_normalize].
  - apply zero_near. unfold dyadic. change (inject_Z 0) with 0%Q. ring.
  - unfold binary_round. set (e' := fexp _). destruct (shl_align_spec p e e') as (m & -> & Hv & Hd).
    eapply round_near; [done|by apply exact_located| |exact Hv].
    rewrite Hd. unfold e'. cbn [Zdigits2]. lia.
Qed.

(** ** The operations *)

Lemma add_near x y v w : finite_at x v -> finite_at y w -> near (SFadd prec emax x y) (v + w).
Proof.
  intros Hx Hy. pose proof (finite_nonneg _ _ Hx). pose proof (finite_nonneg _ _ Hy).
  destruct Hx as [[-> Hx]|(m & e & -> & Hc & He & Hx)].
  { apply (near_eq _ w); [lra|]. apply finite_near. by destruct Hy as [[-> Hy]|(m & e & -> & Hy)]; [left|right; exists m, e]. }
  destruct Hy as [[-> Hy]|(m' & e' & -> & Hc' & He' & Hy)].
  { apply (near_eq _ v); [lra|]. apply finite_near. right. by exists m, e. }
  cbn [SFadd cond_Zopp].
  destruct (shl_align_spec m e (Z.min e e')) as (m1 & -> & Hv1 & _).
  destruct (shl_align_spec m' e' (Z.min e e')) as (m2 & -> & Hv2 & _). cbn [fst].
  replace (Z.min e (Z.min e e')) with (Z.min e e') in Hv1 by lia.
  replace (Z.min e' (Z.min e e')) with (Z.min e e') in Hv2 by lia.
  eapply near_eq; [|by apply normalize_near]. unfold dyadic in *. rewrite inject_Z_plus. lra.
Qed.

(** Adding to or adding an infinity. *)
Lemma add_infinite x y :
  (x = S754_infinity false /\ (y = S754_infinity false \/ exists w, finite_at y w)) \/
  (y = S754_infinity false /\ exists v, finite_at x v) -> SFadd prec emax x y = S754_infinity false.
Proof.
  intros [[-> [-> |(w & [[-> _]|(m & e & -> & _)])]]|[-> (v & [[-> _]|(m & e & -> & _)])]]; done.
Qed.

Lemma add_below x y a b :
  below x a -> below y b -> (0 <= a)%Q -> (0 <= b)%Q -> below (SFadd prec emax x y) (rnd (a + b)).
Proof.
  intros Hx Hy Ha Hb. pose proof (rnd_ge (a + b)).
  destruct Hx as [[-> Hx]|(v & Hx & Hv)].
  { left. split; [|lra]. apply add_infinite. left. split; [done|]. destruct Hy as [[-> _]|(w & Hy & _)]; eauto. }
  destruct Hy as [[-> Hy]|(w & Hy & Hw)]; [left; split; [apply add_infinite|lra]; eauto|].
  eapply below_le; [by apply add_near|]. apply rnd_le. lra.
Qed.

Lemma add_above x y a b : above x a -> above y b -> above (SFadd prec emax x y) (rnd_dn (a + b)).
Proof.
  intros [-> |(v & Hx & Hv)] Hy.
  { left. apply add_infinite. left. split; [done|]. destruct Hy as [-> |(w & Hy & _)]; eauto. }
  destruct Hy as [-> |(w & Hy & Hw)]; [left; apply add_infinite; eauto|].
  eapply above_le; [by apply add_near|]. apply rnd_dn_mono. lra.
Qed.

Lemma sub_near x y a b : finite_at x a -> finite_at y b -> (b <= a)%Q -> near (SFsub prec emax x y) (a - b).
Proof.
  intros Hx Hy Hba. pose proof (finite_nonneg _ _ Hy) as Hb0.
  destruct Hy as [[-> Hy]|(m' & e' & -> & Hc' & He' & Hy)].
  { apply (near_eq _ a); [lra|]. apply finite_near.
    by destruct Hx as [[-> Hx]|(m & e & -> & Hx)]; [left|right; exists m, e]. }
  assert (0 < b)%Q as Hb by (rewrite Hy; apply Qmult_lt_0_compat; [done|apply pow2_pos]).
  destruct Hx as [[-> Hx]|(m & e & -> & Hc & He & Hx)]; [lra|].
  cbn [SFsub cond_Zopp].
  destruct (shl_align_spec m e (Z.min e e')) as (m1 & -> & Hv1 & _).
  destruct (shl_align_spec m' e' (Z.min e e')) as (m2 & -> & Hv2 & _). cbn [fst].
  replace (Z.min e (Z.min e e')) with (Z.min e e') in Hv1 by lia.
  replace (Z.min e' (Z.min e e')) with (Z.min e e') in Hv2 by lia.
  assert (dyadic (Zpos m1 - Zpos m2) (Z.min e e') == a - b)%Q as Hd.
  { unfold dyadic in *. unfold Z.sub. rewrite inject_Z_plus, inject_Z_opp. lra. }
  eapply near_eq; [exact Hd|]. apply normalize_near.
  apply Z.nlt_ge. intros Hneg.
  assert (dyadic (Zpos m1 - Zpos m2) (Z.min e e') < 0)%Q; [|lra].
  apply (Qlt_le_trans _ (0 * pow2 (Z.min e e'))); [|lra].
  apply Qmult_lt_compat_r; [apply pow2_pos|]. change 0%Q with (inject_Z 0). by rewrite <- Zlt_Qlt.
Qed.

(** A mantissa of the format has 53 digits at most, and fewer only at the bottom. *)
Lemma canonical_digits m e :
  fexp (Zpos (digits2_pos m) + e) = e ->
  (Zdigits2 (Zpos m) = 53 /\ -1074 <= e \/ Zdigits2 (Zpos m) <= 53 /\ e = -1074)%Z.
Proof. rewrite fexp_max. cbn [Zdigits2]. lia. Qed.

Lemma digits_mul m n : (Zdigits2 (Zpos m) <= Zdigits2 (Zpos (m * n)))%Z.
Proof. apply digits_mono. nia. Qed.

Lemma dyadic_mul m e m' e' : (inject_Z (m * m') * pow2 (e + e') == dyadic m e * dyadic m' e')%Q.
Proof. unfold dyadic. rewrite inject_Z_mult, pow2_plus. ring. Qed.

Lemma mul_near x y v b : finite_at x v -> finite_at y b -> near (SFmul prec emax x y) (v * b).
Proof.
  intros Hx Hy. destruct Hy as [[-> Hy]|(m' & e' & -> & Hc' & He' & Hy)].
  { destruct Hx as [[-> _]|(m & e & -> & _)]; apply zero_near; rewrite Hy; ring. }
  destruct Hx as [[-> Hx]|(m & e & -> & Hc & He & Hx)]; cbn [SFmul xorb]; [apply zero_near; rewrite Hx; ring|].
  pose proof (canonical_digits _ _ Hc). pose proof (canonical_digits _ _ Hc').
  pose proof (digits_mul m m'). pose proof (digits_mul m' m). rewrite (Pos.mul_comm m' m) in *.
  eapply near_eq; [|eapply round_near; [done|by apply exact_located| |apply (dyadic_mul (Zpos m) e (Zpos m') e')]].
  - by rewrite Hx, Hy.
  - rewrite fexp_max. lia.
Qed.

Lemma mul_infinite y b : finite_at y b -> (0 < b)%Q -> SFmul prec emax (S754_infinity false) y = S754_infinity false.
Proof. intros [[-> Hy]|(m & e & -> & _)] Hb; [lra|done]. Qed.

Lemma mul_below x y a b :
  below x a -> finite_at y b -> (0 <= a)%Q -> (1 <= b)%Q -> below (SFmul prec emax x y) (rnd (a * b)).
Proof.
  intros Hx Hy Ha Hb.
  assert (a <= a * b)%Q as Hab by (setoid_rewrite <- Qmult_1_r at 1; rewrite !(Qmult_comm a); by apply Qmult_le_compat_r).
  pose proof (rnd_ge (a * b)). destruct Hx as [[-> Hx]|(v & Hx & Hv)].
  - left. split; [eapply mul_infinite; [exact Hy|lra]|lra].
  - eapply below_le; [by apply mul_near|]. apply rnd_le, Qmult_le_compat_r; [done|lra].
Qed.

Lemma mul_above x y a b : above x a -> finite_at y b -> (0 < b)%Q -> above (SFmul prec emax x y) (rnd_dn (a * b)).
Proof.
  intros [-> |(v & Hx & Hv)] Hy Hb; [left; by eapply mul_infinite|].
  eapply above_le; [by apply mul_near|]. apply rnd_dn_mono, Qmult_le_compat_r; [done|lra].
Qed.

(** The remainder of a division locates the quotient. *)
Lemma new_location_located q r n :
  (0 <= q)%Z -> (0 <= r < n)%Z ->
  located (shr_record_of_loc q (new_location n r)) (inject_Z q + inject_Z r / inject_Z n)%Q.
Proof.
  intros Hq Hr. assert (0 < inject_Z n)%Q as Hn by (change 0%Q with (inject_Z 0); rewrite <- Zlt_Qlt; lia).
  assert (forall k, (k * n < 2 * r)%Z -> (inject_Z k * (1 # 2) < inject_Z r / inject_Z n)%Q) as Hlt.
  { intros k Hk. apply Qlt_shift_div_l; [done|]. unfold inject_Z, Qlt, Qmult. cbn [Qnum Qden]. lia. }
  assert (forall k, (2 * r < k * n)%Z -> (inject_Z r / inject_Z n < inject_Z k * (1 # 2))%Q) as Hgt.
  { intros k Hk. apply Qlt_shift_div_r; [done|]. unfold inject_Z, Qlt, Qmult. cbn [Qnum Qden]. lia. }
  assert (forall k, (2 * r = k * n)%Z -> (inject_Z r / inject_Z n == inject_Z k * (1 # 2))%Q) as Heq.
  { intros k Hk. apply (Qmult_inj_r _ _ (inject_Z n)); [lra|]. rewrite Qmult_comm, Qmult_div_r by lra.
    unfold inject_Z, Qeq, Qmult. cbn [Qnum Qden]. lia. }
  pose proof (Hlt 0%Z) as H0. pose proof (Heq 0%Z) as E0. pose proof (Hlt 1%Z) as H1. pose proof (Heq 1%Z) as E1.
  pose proof (Hgt 1%Z) as G1. pose proof (Hgt 2%Z) as G2.
  change (inject_Z 0) with 0%Q in *. change (inject_Z 1) with 1%Q in *. change (inject_Z 2) with 2%Q in *.
  unfold new_location, new_location_even, new_location_odd.
  destruct (Z.even n) eqn:Hev; (destruct (Z.eqb_spec r 0) as [->|Hne];
    [split; [done|]; cbn; specialize (E0 ltac:(lia)); lra|]).
  - destruct (Z.compare_spec (2 * r) n); (split; [done|]); cbn.
    + specialize (E1 ltac:(lia)). lra.
    + specialize (H0 ltac:(lia)). specialize (G1 ltac:(lia)). split; lra.
    + specialize (H1 ltac:(lia)). specialize (G2 ltac:(lia)). split; lra.
  - assert (n <> 2 * r)%Z by (intros ->; by rewrite Z.even_mul in Hev).
    destruct (Z.compare_spec (2 * r + 1) n); (split; [done|]); cbn.
    + specialize (H0 ltac:(lia)). specialize (G1 ltac:(lia)). split; lra.
    + specialize (H0 ltac:(lia)). specialize (G1 ltac:(lia)). split; lra.
    + specialize (H1 ltac:(lia)). specialize (G2 ltac:(lia)). split; lra.
Qed.

Lemma div_core_spec m1 e1 m2 e2 :
  exists q e l y, SFdiv_core_binary prec emax (Zpos m1) e1 (Zpos m2) e2 = (q, e, l) /\ (0 <= q)%Z /\
    located (shr_record_of_loc q l) y /\ (e <= fexp (Zdigits2 q + e))%Z /\
    (y * pow2 e == dyadic (Zpos m1) e1 / dyadic (Zpos m2) e2)%Q.
Proof.
  unfold SFdiv_core_binary. set (d1 := Zdigits2 (Zpos m1)). set (d2 := Zdigits2 (Zpos m2)).
  set (e := Z.min _ _). set (s := (e1 - e2 - e)%Z). assert (0 <= s)%Z as Hs by lia.
  assert (match s with Zpos _ => Z.shiftl (Zpos m1) s | Z0 => Zpos m1 | Zneg _ => 0%Z end = Zpos m1 * 2 ^ s)%Z as ->.
  { destruct s; [lia| |lia]. by rewrite Z.shiftl_mul_pow2. }
  pose proof (Z.div_eucl_eq (Zpos m1 * 2 ^ s) (Zpos m2) ltac:(done)) as Heq.
  pose proof (Z.mod_pos_bound (Zpos m1 * 2 ^ s) (Zpos m2) ltac:(done)) as Hr.
  unfold Z.modulo in Hr. destruct (Z.div_eucl _ _) as [q r].
  assert (0 < 2 ^ s)%Z as Hps by (by apply Z.pow_pos_nonneg).
  assert (0 <= q)%Z as Hq by nia.
  exists q, e, (new_location (Zpos m2) r), (inject_Z q + inject_Z r / inject_Z (Zpos m2))%Q.
  split; [done|]. split; [done|]. split; [by apply new_location_located|]. split.
  - assert (d1 + s - d2 <= Zdigits2 q)%Z as Hdig.
    { destruct (Z.le_gt_cases (d1 + s - d2) 0) as [|Hgt]; [destruct q; simpl; lia|]. apply digits_lower; [|lia].
      destruct (digits_bounds (Zpos m1)) as [[Hlo _] Hd1]; [done|]. destruct (digits_bounds (Zpos m2)) as [[_ Hhi] Hd2]; [done|].
      fold d1 in Hlo, Hd1. fold d2 in Hhi, Hd2.
      assert (2 ^ (d1 - 1) * 2 ^ s = 2 ^ d2 * 2 ^ (d1 + s - d2 - 1))%Z as Hpow
        by (rewrite <- !Z.pow_add_r by lia; f_equal; lia).
      assert (0 < 2 ^ (d1 + s - d2 - 1))%Z by (apply Z.pow_pos_nonneg; lia). nia. }
    assert (s = e1 - e2 - e)%Z as Hse by done.
    assert (e <= fexp (d1 + e1 - (d2 + e2)))%Z as Hee by apply Z.le_min_l.
    rewrite fexp_max in *. lia.
  - assert (~ inject_Z (Zpos m2) == 0)%Q as Hm2 by done. pose proof (pow2_pos e2).
    assert (inject_Z q + inject_Z r / inject_Z (Zpos m2) == inject_Z (Zpos m1) * pow2 s / inject_Z (Zpos m2))%Q as ->.
    { rewrite <- pow2_Z, <- inject_Z_mult, Heq, inject_Z_plus, inject_Z_mult by done. field. done. }
    unfold dyadic. assert (pow2 e1 == pow2 s * pow2 e * pow2 e2)%Q as ->.
    { rewrite <- !pow2_plus. by replace (s + e + e2)%Z with e1 by lia. }
    field. split; [lra|done].
Qed.

Lemma div_near x y a b : finite_at x a -> finite_at y b -> (0 < b)%Q -> near (SFdiv prec emax x y) (a / b).
Proof.
  intros Hx Hy Hb. destruct Hy as [[-> Hy]|(m' & e' & -> & Hc' & He' & Hy)]; [lra|].
  destruct Hx as [[-> Hx]|(m & e & -> & Hc & He & Hx)]; cbn [SFdiv xorb].
  - apply zero_near. rewrite Hx. field. lra.
  - destruct (div_core_spec m e m' e') as (q & e2 & l & y & -> & Hq & Hl & Hf & Hv).
    eapply near_eq; [|by eapply round_near]. by rewrite Hx, Hy.
Qed.

Lemma of_Z_near n : (0 <= n)%Z -> near (binary_normalize prec emax n 0 false) (inject_Z n).
Proof.
  intros Hn. eapply near_eq; [|by apply normalize_near]. unfold dyadic. change (pow2 0) with 1%Q. ring.
Qed.

(** ** Comparison *)

Lemma dyadic_lt m m' e : (m < m')%Z -> (dyadic m e < dyadic m' e)%Q.
Proof. intros Hm. apply Qmult_lt_compat_r; [apply pow2_pos|by rewrite <- Zlt_Qlt]. Qed.

(** Of two numbers of the format the one with the larger exponent is larger. *)
Lemma canonical_lt m e m' e' :
  fexp (Zpos (digits2_pos m) + e) = e -> fexp (Zpos (digits2_pos m') + e') = e' -> (e < e')%Z ->
  (dyadic (Zpos m) e < dyadic (Zpos m') e')%Q.
Proof.
  intros Hc Hc' He. pose proof (canonical_digits _ _ Hc). pose proof (canonical_digits _ _ Hc').
  destruct (digits_bounds (Zpos m)) as [[_ Hhi] _]; [done|]. destruct (digits_bounds (Zpos m')) as [[Hlo _] _]; [done|].
  assert (Zdigits2 (Zpos m') = 53)%Z as Hd by lia. rewrite Hd in Hlo.
  assert (Zpos m < 2 ^ 53)%Z as Hm.
  { eapply Z.lt_le_trans; [exact Hhi|]. apply Z.pow_le_mono_r; lia. }
  rewrite <- (dyadic_shift (Zpos m') e' (e' - e)) by lia. replace (e' - (e' - e))%Z with e by lia.
  apply dyadic_lt. assert (2 ^ 1 <= 2 ^ (e' - e))%Z as Hp by (apply Z.pow_le_mono_r; lia).
  change (2 ^ (53 - 1))%Z with (2 ^ 52)%Z in Hlo. change (2 ^ 53)%Z with (2 * 2 ^ 52)%Z in Hm. nia.
Qed.

Lemma ltb_spec x y a b : finite_at x a -> finite_at y b -> SFltb x y = true <-> (a < b)%Q.
Proof.
  intros [[-> Hx]|(m & e & -> & Hc & He & Hx)] [[-> Hy]|(m' & e' & -> & Hc' & He' & Hy)]; rewrite Hx, Hy; cbn.
  - split; [done|lra].
  - split; [|done]. intros _. apply Qmult_lt_0_compat; [done|apply pow2_pos].
  - split; [done|]. intros Hlt. exfalso. apply (Qlt_not_le _ _ Hlt).
    apply Qmult_le_0_compat; [done|apply Qlt_le_weak, pow2_pos].
  - unfold SFltb, SFcompare. destruct (Z.compare_spec e e') as [->|Hlt|Hgt].
    + change (Pos.compare_cont Eq m m') with (m ?= m')%positive. destruct (Pos.compare_spec m m') as [->|Hm|Hm]; (split; [try done|try done]).
      * intros Hlt. lra.
      * intros _. by apply dyadic_lt.
      * intros Hlt. apply Qlt_not_le in Hlt. destruct Hlt. apply dyadic_le. lia.
    + split; [|done]. intros _. by apply canonical_lt.
    + split; [done|]. intros Hlt. apply Qlt_not_le in Hlt. destruct Hlt. by apply Qlt_le_weak, canonical_lt.
Qed.
