(* ===== verification/SignalHub.v ===== *)
(** * The signaling hub

    [src/internal/signaling/hub.go]: the registry of connected clients grouped by
    room, owned by the goroutine that runs [Run]; every other goroutine reaches
    it through the register, unregister and broadcast channels, so its operations
    are the atomic events of this model. Between two pushes of one operation the
    write pumps of the clients may take frames ([Chan.v]).

    The recursion of the code, [leave] -> [announce] -> [dropStalled] -> [leave],
    is indexed by a fuel; [leave] is entered with one more than the number of
    members of the room, which the lemmas show to be enough. *)

From S2P Require Import Prelude Chan Registry Protocol.

(** ** Data *)

Definition sendBufferSize : nat := 64.

(** A [*Client]: its address and the fields that never change after it is made.
    Its [send] channel is [chans w !! c]. *)
Record Client := mkClient {
  addr : positive;
  id : string;
  userID : string;
  displayName : string;
  roomID : string
}.

#[export] Instance Client_eq_dec : EqDecision Client.
Proof. solve_decision. Defined.

#[export] Instance Client_countable : Countable Client.
Proof.
  refine (inj_countable' (fun c => (addr c, id c, userID c, displayName c, roomID c))
    (fun '(a, i, u, d, r) => mkClient a i u d r) _).
  by intros [].
Defined.

Definition peer_of (c : Client) : Peer := mkPeer (userID c) (displayName c).

Record message := mkMessage {
  msg_room : string;
  msg_sender : Client;
  msg_to : string;      (* empty: the whole room *)
  msg_data : string
}.

(** [Hub]: the [rooms] map, the counter and whether [Run] has returned
    ([Registry.v], with the room id as the key). *)
Abbreviation Hub := (registry Client).

Definition NewHub : Hub := empty_registry.

Abbreviation state := (world Client Hub).

Definition initial : state := World ∅ 0 NewHub.

(** [h.rooms[room]] *)
Abbreviation in_room := (@in_group Client _ _).

Section hub.
Context `{Json}.
Variable sc : sched Client.

(** ** Operations *)

Definition push (c : Client) (data : string) : ST state bool := offer sc c data.

Section recursion.
Variable leave_rec : Client -> ST state bool.

Definition dropStalled_ (stalled : list Client) : ST state unit :=
  for_each stalled (fun c => leave_rec c ;;; st_ret tt).

(** Walk the room's members, skip one of them, and collect those whose buffer is
    full. *)
Definition announce_ (room data : string) (except : Client) : ST state unit :=
  w <-- st_get ;;
  cs <-- range sc (in_room w room) ;;
  stalled <-- collect cs (fun c =>
    if decide (c = except) then st_ret false
    else ok <-- push c data ;; st_ret (negb ok)) ;;
  dropStalled_ stalled.
End recursion.

Fixpoint leave_fuel (fuel : nat) (c : Client) : ST state bool :=
  match fuel with
  | 0 => st_out_of_fuel
  | S fuel =>
      w <-- st_get ;;
      if decide (c ∈ in_room w (roomID c)) then
        remove roomID c ;;;
        match encode (left_frame (peer_of c)) with
        | None => st_ret true
        | Some frame => announce_ (leave_fuel fuel) (roomID c) frame c ;;; st_ret true
        end
      else st_ret false
  end.

Definition leave (c : Client) : ST state bool := fun w =>
  leave_fuel (size (in_room w (roomID c)) + 1) c w.

Definition dropStalled : list Client -> ST state unit := dropStalled_ leave.

Definition announce : string -> string -> Client -> ST state unit := announce_ leave.

Definition deliver (m : message) : ST state unit :=
  w <-- st_get ;;
  cs <-- range sc (in_room w (msg_room m)) ;;
  stalled <-- collect cs (fun c =>
    if decide (c = msg_sender m) then st_ret false
    else if decide (msg_to m ≠ "" /\ userID c ≠ msg_to m) then st_ret false
    else ok <-- push c (msg_data m) ;; st_ret (negb ok)) ;;
  dropStalled stalled.

Definition join (c : Client) : ST state unit :=
  w <-- st_get ;;
  others <-- range sc (in_room w (roomID c)) ;;
  enter roomID c ;;;
  match encode (welcome_frame (userID c) (peer_of <$> others)) with
  | None => st_ret tt
  | Some welcome =>
      ok <-- push c welcome ;;
      if ok : bool then
        match encode (joined_frame (peer_of c)) with
        | None => st_ret tt
        | Some joined => announce (roomID c) joined c
        end
      else leave c ;;; st_ret tt
  end.

(** The deferred calls of [Run]: close every member's channel, forget the rooms,
    close [done]. *)
Definition closeAll : ST state unit := close_all sc.

Definition ClientCount : ST state Z := w <-- st_get ;; st_ret (count (hub w)).

(** ** The event loop *)

(** What [Run] selects on. [Register c] stands for a connection's handler making
    the client with its channel and handing it over. *)
Inductive event :=
| Register (c : Client)
| Unregister (c : Client)
| Broadcast (m : message)
| Cancelled.

(** One iteration of the loop of [Run]. Once it has returned, [add] reports
    false and [drop] and [publish] return at once. *)
Definition handle (e : event) : ST state unit :=
  w <-- st_get ;;
  if stopped (hub w) then st_ret tt
  else match e with
    | Register c =>
        st_modify (with_chan sendBufferSize c) ;;;
        join c
    | Unregister c => leave c ;;; st_ret tt
    | Broadcast m => deliver m
    | Cancelled => closeAll
    end.

Definition Run (es : list event) : ST state unit := for_each es handle.
End hub.

(** The invariant of the hub: that of its registry. *)
Abbreviation hub_inv := (reg_inv roomID).
