(* ===== verification/SignalHubFacts.v ===== *)
(** * Facts about the signaling hub

    The recursion [leave] -> [announce] -> [dropStalled] is analysed once: every
    operation of the family evolves the state in the same way ([evolve]) and
    keeps every member's picture of the room accurate ([views_kept]), except for
    clients already condemned to eviction. *)

From S2P Require Import Prelude Chan Registry Protocol SignalHub.

Section frames.
Context `{Json}.

(** The clients that take part: in the end, those that were ever connected. *)
Variable party : Client -> Prop.

(** Where a frame that client [c] was sent may come from: the hub's own presence
    announcements about clients of the same room that take part, or the relay of
    a message of a permitted type, stamped with the user id of another such client
    and addressed to everybody or to the user of [c]. *)
Inductive origin (c : Client) : Outbound -> Prop :=
| origin_welcome ps :
    Forall (fun p => exists k, party k /\ roomID k = roomID c /\ peer_of k = p) ps ->
    origin c (welcome_frame (userID c) ps)
| origin_joined p : party p -> roomID p = roomID c -> p ≠ c -> origin c (joined_frame (peer_of p))
| origin_left p : party p -> roomID p = roomID c -> p ≠ c -> origin c (left_frame (peer_of p))
| origin_relayed s i :
    party s -> roomID s = roomID c -> s ≠ c -> inType i ∈ client_types ->
    inTo i = "" \/ inTo i = userID c ->
    origin c (stamp (userID s) i).

(** [os] are the messages behind the frames [c] has been sent. *)
Definition frames (w : state) (c : Client) (os : list Outbound) : Prop :=
  Forall2 (fun f o => encode o = Some f /\ origin c o) (log w c) os.

Definition legit (w : state) (c : Client) : Prop := exists os, frames w c os.

(** The other members of the room of [c], as peers. *)
Definition others (w : state) (c : Client) : list Peer :=
  peer_of <$> elements (in_room w (roomID c) ∖ {[c]}).

Definition view_ok (w : state) (c : Client) : Prop :=
  exists os, frames w c os /\ view os ≡ₚ others w c.

(** As [view_ok], once the message [o] has been received as well. *)
Definition view_after (o : Outbound) (w : state) (c : Client) : Prop :=
  exists os, frames w c os /\ view (os ++ [o]) ≡ₚ others w c.

(** How the operations that evict clients of [room] change the state. *)
Record evolve (room : string) (w w' : state) : Prop := {
  ev_inv : hub_inv w';
  ev_sub : forall r, in_room w' r ⊆ in_room w r;
  ev_other : forall r, r ≠ room -> in_room w' r = in_room w r;
  ev_stopped : stopped (hub w') = stopped (hub w);
  ev_log : forall k, roomID k ≠ room \/ k ∉ in_room w (roomID k) -> log w' k = log w k;
  ev_status : forall k, k ∉ in_room w (roomID k) -> status w' k = status w k;
  ev_made : forall k, status w' k ≠ None <-> status w k ≠ None;
  ev_prefix : forall k, log w k `prefix_of` log w' k;
  ev_legit : (forall k, legit w k) -> forall k, legit w' k
}.

(** Whatever set [D] of clients is left out, accurate views stay accurate. *)
Definition views_kept (room : string) (w w' : state) : Prop :=
  forall D : Client -> Prop,
    (forall m, m ∈ in_room w room -> ~ D m -> view_ok w m) ->
    (forall m, m ∈ in_room w' room -> ~ D m -> view_ok w' m).

Definition left_post (c : Client) (w : state) (b : bool) (w' : state) : Prop :=
  evolve (roomID c) w w' /\
  c ∉ in_room w' (roomID c) /\
  b = bool_decide (c ∈ in_room w (roomID c)) /\
  (JsonLaws -> views_kept (roomID c) w w').

(** The members of a room take part. *)
Definition made (r : string) (w : state) : Prop := forall k, k ∈ in_room w r -> party k.

Definition leave_spec (n : nat) (lv : Client -> ST state bool) : Prop :=
  forall c w, hub_inv w -> made (roomID c) w -> size (in_room w (roomID c)) < n ->
    wp (lv c) (left_post c w) w.
End frames.

(** ** Elementary facts *)

Section facts.
Context `{Json}.
Variable party : Client -> Prop.

Abbreviation origin := (origin party).
Abbreviation frames := (frames party).
Abbreviation legit := (legit party).
Abbreviation view_ok := (view_ok party).
Abbreviation view_after := (view_after party).
Abbreviation evolve := (evolve party).
Abbreviation views_kept := (views_kept party).
Abbreviation left_post := (left_post party).
Abbreviation made := (made party).
Abbreviation leave_spec := (leave_spec party).

Implicit Types (w : state) (c k m : Client) (r : string).

Lemma evolve_refl r w : hub_inv w -> evolve r w w.
Proof. by split. Qed.

Lemma evolve_trans r w1 w2 w3 : evolve r w1 w2 -> evolve r w2 w3 -> evolve r w1 w3.
Proof.
  intros [A1 A2 A3 A4 A5 A6 A6' A7 A8] [B1 B2 B3 B4 B5 B6 B6' B7 B8]. split; [done|..].
  - intros r'. by rewrite B2.
  - intros r' Hr. by rewrite B3, A3.
  - congruence.
  - intros k Hk. rewrite B5, A5; [done..|]. destruct Hk as [?|Hk]; [by left|right].
    intros Hin. by apply Hk, A2.
  - intros k Hk. rewrite B6, A6; [done..|]. intros Hin. by apply Hk, A2.
  - intros k. by rewrite B6', A6'.
  - intros k. by transitivity (log w2 k).
  - auto.
Qed.

Lemma made_sub r w w' : in_room w' r ⊆ in_room w r -> made r w -> made r w'.
Proof. intros Hsub Hm k Hk. by apply Hm, Hsub. Qed.

Lemma evolve_made r r' w w' : evolve r w w' -> made r' w -> made r' w'.
Proof. intros He. apply made_sub, (ev_sub _ _ _ _ He). Qed.

Lemma views_kept_trans r w1 w2 w3 :
  views_kept r w1 w2 -> views_kept r w2 w3 -> views_kept r w1 w3.
Proof. intros H1 H2 D HD. apply (H2 D), (H1 D), HD. Qed.

Lemma frames_log w w' c os : log w' c = log w c -> frames w c os -> frames w' c os.
Proof. unfold frames. by intros ->. Qed.

Lemma frames_snoc w w' c os o data :
  log w' c = log w c ++ [data] -> encode o = Some data -> origin c o ->
  frames w c os -> frames w' c (os ++ [o]).
Proof. unfold frames. intros -> ???. apply Forall2_app; [done|]. by repeat constructor. Qed.

(** Two members are told of each other's departure by one entry. *)
Lemma others_remove w w' c m :
  roomID m = roomID c -> m ≠ c -> c ∈ in_room w (roomID c) ->
  in_room w' (roomID c) = in_room w (roomID c) ∖ {[c]} ->
  others w m ≡ₚ peer_of c :: others w' m.
Proof.
  intros Hr Hne Hc Hw'. unfold others. rewrite Hr, Hw'.
  rewrite (elements_remove c) by set_solver. simpl.
  assert (in_room w (roomID c) ∖ {[m]} ∖ {[c]} = in_room w (roomID c) ∖ {[c]} ∖ {[m]}) as -> by set_solver.
  done.
Qed.

Lemma others_add w w' c m :
  roomID m = roomID c -> m ≠ c -> c ∉ in_room w (roomID c) ->
  in_room w' (roomID c) = {[c]} ∪ in_room w (roomID c) ->
  others w' m ≡ₚ peer_of c :: others w m.
Proof.
  intros Hr Hne Hc Hw'. unfold others. rewrite Hr, Hw'.
  assert (({[c]} ∪ in_room w (roomID c)) ∖ {[m]} = {[c]} ∪ in_room w (roomID c) ∖ {[m]}) as -> by set_solver.
  rewrite elements_add by set_solver. done.
Qed.

(** ** The start of [leave] *)

Lemma removed_evolve c w w' :
  hub_inv w -> c ∈ in_room w (roomID c) -> removed roomID c w w' -> evolve (roomID c) w w'.
Proof.
  intros Hw Hc [R1 R2 R3 R4 R5 R6 R7 R8]. split; try done.
  - intros r. destruct (decide (r = roomID c)) as [->|Hr]; [rewrite R2|rewrite R3]; set_solver.
  - intros k Hk. apply R8. by intros ->.
  - intros k. destruct (decide (k = c)) as [->|Hk]; [|by rewrite R8].
    destruct (inv_member roomID w _ c Hw Hc) as [_ ->]. by rewrite R7.
  - intros k. by rewrite R5.
  - intros Hl k. destruct (Hl k) as [os Hos]. exists os. eapply frames_log, Hos. apply R5.
Qed.

(** ** One round of pushes, and the evictions it causes *)

Lemma dropStalled_spec n lv r stalled w :
  leave_spec n lv -> hub_inv w -> made r w -> (stalled = [] \/ size (in_room w r) < n) ->
  Forall (fun s => roomID s = r) stalled ->
  wp (dropStalled_ lv stalled) (fun _ w' =>
    evolve r w w' /\ (forall s, s ∈ stalled -> s ∉ in_room w' r) /\
    (JsonLaws -> views_kept r w w')) w.
Proof.
  intros Hlv Hw Hmade Hn Hr. revert w Hw Hmade Hn.
  induction Hr as [|s stalled Hs _ IH]; intros w Hw Hmade Hn; unfold dropStalled_; simpl.
  - apply wp_ret. split; [by apply evolve_refl|]. split; [set_solver|]. intros _ D HD. apply HD.
  - destruct Hn as [?|Hn]; [done|]. rewrite !wp_bind.
    pose proof (Hlv s w Hw) as Hleave. unfold left_post in Hleave. rewrite Hs in Hleave.
    eapply wp_mono; [by apply Hleave|]. intros b w1 (He & Hout & _ & Hv). apply wp_ret.
    eapply wp_mono.
    { apply IH; [apply He|by eapply evolve_made|]. right. pose proof (subseteq_size _ _ (ev_sub _ _ _ _ He r)). lia. }
    simpl. intros _ w2 (He2 & Hout2 & Hv2). split; [by eapply evolve_trans|]. split.
    + intros k [->|Hk]%elem_of_cons; [|by apply Hout2].
      intros Hin. by apply Hout, (ev_sub _ _ _ _ He2).
    + intros HL. eapply views_kept_trans; [by apply Hv|by apply Hv2].
Qed.

(** The views after one round: those that were skipped keep theirs, those that
    were offered the message have read it, unless they were evicted. *)
Definition round_views (r : string) (skip : Client -> bool) (o : Outbound) (w w' : state) : Prop :=
  forall D : Client -> Prop,
    (forall m, m ∈ in_room w r -> ~ D m -> if skip m then view_ok w m else view_after o w m) ->
    (forall m, m ∈ in_room w' r -> ~ D m -> view_ok w' m).

(** Every member that was not skipped has been sent [data], or had no room for it
    and is out. *)
Definition reached (r : string) (skip : Client -> bool) (data : string) (w w' : state) : Prop :=
  forall m, m ∈ in_room w r -> skip m = false ->
    (log w m ++ [data]) `prefix_of` log w' m \/ room_left w m = 0 /\ m ∉ in_room w' r.

Lemma fanned_inv (l : list Client) skip data w acc w' :
  fanned l skip data w acc w' -> hub_inv w -> hub_inv w'.
Proof. intros [F1 F2 _ _ _ F6]. by apply reg_inv_same. Qed.

Lemma fan_case (l acc : list Client) (skip : Client -> bool) k :
  ~ (k ∈ l /\ skip k = false /\ k ∉ acc) -> k ∉ l \/ skip k = true \/ k ∈ acc.
Proof.
  intros Hno. destruct (decide (k ∈ l)); [|by left]. destruct (skip k); [by right; left|].
  right. right. apply dec_stable. tauto.
Qed.

Lemma fanned_evolve r l skip o data w acc w' :
  fanned l skip data w acc w' -> hub_inv w -> l ≡ₚ elements (in_room w r) ->
  encode o = Some data ->
  (forall m, m ∈ in_room w r -> skip m = false -> origin m o) ->
  evolve r w w'.
Proof.
  intros HF Hw Hl Ho Horig. assert (hub_inv w') as Hw' by by eapply fanned_inv.
  destruct HF as [F1 F2 F3 F4 F5 F6].
  assert (forall k, k ∈ l <-> k ∈ in_room w r) as Hin by (intros k; rewrite Hl; apply elem_of_elements).
  split; [done|..].
  - intros r'. unfold in_group. by rewrite F1.
  - intros r' _. unfold in_group. by rewrite F1.
  - by rewrite F1.
  - intros k Hk. apply F4. left. rewrite Hin. intros Hkr.
    destruct (inv_member roomID w r k Hw Hkr) as [Hrk _]. rewrite Hrk in Hk. by destruct Hk.
  - intros k _. apply F2.
  - intros k. by rewrite F2.
  - intros k. destruct (decide (k ∈ l /\ skip k = false /\ k ∉ acc)) as [(H1 & H2 & H3)|Hno].
    + rewrite F3 by done. by apply prefix_app_r.
    + rewrite F4; [done|]. by apply fan_case.
  - intros Hleg k. destruct (Hleg k) as [os Hos].
    destruct (decide (k ∈ l /\ skip k = false /\ k ∉ acc)) as [(H1 & H2 & H3)|Hno].
    + exists (os ++ [o]). eapply frames_snoc; [by apply F3|done| |done].
      apply Horig; [by apply Hin|done].
    + exists os. eapply frames_log, Hos. apply F4. by apply fan_case.
Qed.

Lemma fanned_views r l skip o data w acc w' :
  fanned l skip data w acc w' -> hub_inv w -> l ≡ₚ elements (in_room w r) ->
  encode o = Some data ->
  (forall m, m ∈ in_room w r -> skip m = false -> origin m o) ->
  forall D : Client -> Prop,
    (forall m, m ∈ in_room w r -> ~ D m -> if skip m then view_ok w m else view_after o w m) ->
    (forall m, m ∈ in_room w' r -> ~ (D m \/ m ∈ acc) -> view_ok w' m).
Proof.
  intros [F1 F2 F3 F4 F5 F6] Hw Hl Ho Horig D HD m Hm HDm.
  assert (in_room w' = in_room w) as Hroom by (unfold in_group; by rewrite F1).
  assert (others w' m = others w m) as Hoth by (unfold others; by rewrite Hroom).
  rewrite Hroom in Hm. specialize (HD m Hm ltac:(tauto)).
  assert (m ∈ l) as Hml by (rewrite Hl; by apply elem_of_elements).
  destruct (skip m) eqn:E; destruct HD as (os & Hos & Hv).
  - exists os. rewrite Hoth. split; [|done]. eapply frames_log, Hos. apply F4. auto.
  - exists (os ++ [o]). rewrite Hoth. split; [|done].
    eapply frames_snoc; [apply F3; tauto|done|by apply Horig|done].
Qed.

Lemma wp_round sc n lv r skip body o data w (Q : unit -> state -> Prop) :
  leave_spec n lv -> hub_inv w -> made r w -> size (in_room w r) < n -> encode o = Some data ->
  (forall k, skip k = true -> body k = st_ret false) ->
  (forall k, skip k = false -> body k = (ok <-- push sc k data ;; st_ret (negb ok))) ->
  (forall m, m ∈ in_room w r -> skip m = false -> origin m o) ->
  (forall w', evolve r w w' -> reached r skip data w w' ->
     (JsonLaws -> round_views r skip o w w') -> Q tt w') ->
  wp (cs <-- range sc (in_room w r) ;;
      stalled <-- collect cs body ;; dropStalled_ lv stalled) Q w.
Proof.
  intros Hlv Hw Hmade Hn Ho Hskip Hpush Horig HQ. rewrite wp_bind. apply wp_range.
  intros l w0 Hl Hc0 Hh0. rewrite wp_bind.
  assert (forall k, k ∈ l -> k ∈ in_room w r) as Hin by (intros k; rewrite Hl; apply elem_of_elements).
  apply (wp_fanout sc l skip data).
  - rewrite Hl. apply NoDup_elements.
  - done.
  - done.
  - intros k Hk _. unfold status. rewrite Hc0. by apply (inv_member roomID w r k Hw), Hin.
  - intros acc w1 HF0.
    assert (fanned l skip data w acc w1) as HF.
    { destruct HF0. split; unfold status, log, room_left, bounded in *; rewrite <- ?Hc0, <- ?Hh0; auto. }
    pose proof (fanned_evolve r l skip o data w acc w1 HF Hw Hl Ho Horig) as He1.
    eapply wp_mono.
    { apply (dropStalled_spec n lv r acc w1 Hlv); [apply He1|by eapply evolve_made|..].
      - right. pose proof (subseteq_size _ _ (ev_sub _ _ _ _ He1 r)). lia.
      - apply Forall_forall. intros k Hk. apply (inv_key roomID w Hw r), Hin, (fan_acc _ _ _ _ _ _ HF k Hk). }
    simpl. intros [] w2 (He2 & Hout & Hv). apply HQ; [by eapply evolve_trans|..].
    { intros m Hm Hsk. destruct (decide (m ∈ acc)) as [Hacc|Hacc].
      - right. split; [by apply (fan_acc _ _ _ _ _ _ HF)|by apply Hout].
      - left. rewrite <- (fan_log _ _ _ _ _ _ HF); [apply (ev_prefix _ _ _ _ He2)| |done..].
        rewrite Hl. by apply elem_of_elements. }
    intros HL D HD m Hm HDm.
    apply (Hv HL (fun m => D m \/ m ∈ acc)); [|done|].
    + by eapply fanned_views.
    + intros [?|Hacc]; [done|]. by apply (Hout m Hacc).
Qed.

Lemma wp_announce sc n lv r data o except w (Q : unit -> state -> Prop) :
  leave_spec n lv -> hub_inv w -> made r w -> size (in_room w r) < n -> encode o = Some data ->
  (forall m, m ∈ in_room w r -> m ≠ except -> origin m o) ->
  (forall w', evolve r w w' ->
     (JsonLaws -> round_views r (fun k => bool_decide (k = except)) o w w') -> Q tt w') ->
  wp (announce_ sc lv r data except) Q w.
Proof.
  intros Hlv Hw Hmade Hn Ho Horig HQ. unfold announce_. rewrite wp_bind, wp_get.
  eapply (wp_round sc n lv r (fun k => bool_decide (k = except)) _ o data); try done.
  - intros k Hk. by rewrite decide_True by by eapply bool_decide_eq_true.
  - intros k Hk. by rewrite decide_False by by eapply bool_decide_eq_false.
  - intros m Hm Hk. apply Horig; [done|]. by eapply bool_decide_eq_false.
  - auto.
Qed.

(** ** The departure of a client *)

Lemma view_after_left w w' c m :
  removed roomID c w w' -> c ∈ in_room w (roomID c) -> roomID m = roomID c -> m ≠ c ->
  view_ok w m -> view_after (left_frame (peer_of c)) w' m.
Proof.
  intros Hrm Hc Hr Hne (os & Hos & Hv). exists os. split.
  - eapply frames_log, Hos. apply (rm_log _ _ _ _ Hrm).
  - rewrite view_app, view_step_left. apply remove_one_Permutation.
    rewrite Hv. apply others_remove; [done..|]. apply (rm_group _ _ _ _ Hrm).
Qed.

Lemma encode_plain `{!JsonLaws} o : outPayload o = "" -> encode o ≠ None.
Proof. intros Ho He. destruct (json_marshal_plain o Ho) as [x Hx]. unfold encode in He. congruence. Qed.

Lemma leave_fuel_spec sc n : leave_spec n (leave_fuel sc n).
Proof.
  induction n as [|n IH]; intros c w Hw Hmade Hn; [lia|]. cbn [leave_fuel].
  rewrite wp_bind, wp_get. case_decide as Hc.
  2:{ apply wp_ret. split; [by apply evolve_refl|]. split; [done|].
      split; [by rewrite bool_decide_eq_false_2|]. intros _ D HD. apply HD. }
  rewrite wp_bind. apply wp_remove; [done..|]. intros w1 Hrm.
  pose proof (removed_evolve _ _ _ Hw Hc Hrm) as He1. pose proof (rm_group _ _ _ _ Hrm) as Hroom.
  assert (c ∉ in_room w1 (roomID c)) as Hout by (rewrite Hroom; set_solver).
  destruct (encode (left_frame (peer_of c))) as [frame|] eqn:Hframe.
  2:{ apply wp_ret. split; [done|]. split; [done|]. split; [by rewrite bool_decide_eq_true_2|].
      intros HL. by destruct (encode_plain (left_frame (peer_of c))). }
  rewrite wp_bind. eapply wp_announce; [apply IH|apply He1|by eapply evolve_made| |done|..].
  - rewrite Hroom. pose proof (Permutation_length (elements_remove c _ Hc)) as Hl.
    unfold size, set_size in *. simpl in *. lia.
  - intros m Hm Hne. apply origin_left; [by apply Hmade| |done].
    by rewrite (inv_key roomID w1 (ev_inv _ _ _ _ He1) _ m Hm).
  - intros w2 He2 Hv2. apply wp_ret. split; [by eapply evolve_trans|].
    split; [intros Hin; by apply Hout, (ev_sub _ _ _ _ He2)|].
    split; [by rewrite bool_decide_eq_true_2|]. intros HL D HD. apply Hv2; [done|].
    intros m Hm HDm. assert (m ≠ c) as Hne by by intros ->.
    rewrite bool_decide_eq_false_2 by done. eapply view_after_left; try done.
    + by apply (inv_key roomID w1 (ev_inv _ _ _ _ He1)).
    + apply HD; [by apply (ev_sub _ _ _ _ He1)|done].
Qed.

Lemma leave_fuel_more sc c w n :
  hub_inv w -> made (roomID c) w -> size (in_room w (roomID c)) < n -> wp (leave_fuel sc n c) (left_post c w) w.
Proof. intros. by apply leave_fuel_spec. Qed.

(** [leave] gives itself enough fuel. *)
Lemma leave_ok sc n : leave_spec n (leave sc).
Proof. intros c w Hw Hmade _. unfold leave. apply leave_fuel_spec; [done|done|lia]. Qed.

(** ** Delivery *)

(** A message that a [readPump] may hand to the hub. *)
Record published (m : message) (i : Inbound) : Prop := {
  pub_room : msg_room m = roomID (msg_sender m);
  pub_to : msg_to m = inTo i;
  pub_type : inType i ∈ client_types;
  pub_data : encode (stamp (userID (msg_sender m)) i) = Some (msg_data m)
}.

(** The clients [deliver] passes over. *)
Definition deliver_skip (m : message) (c : Client) : bool :=
  bool_decide (c = msg_sender m) || bool_decide (msg_to m ≠ "" /\ userID c ≠ msg_to m).

Lemma deliver_skip_false (m : message) c :
  deliver_skip m c = false -> c ≠ msg_sender m /\ (msg_to m = "" \/ userID c = msg_to m).
Proof.
  unfold deliver_skip. rewrite orb_false_iff. intros [H1%bool_decide_eq_false H2%bool_decide_eq_false].
  split; [done|]. destruct (decide (msg_to m = "")); [by left|right]. apply dec_stable. tauto.
Qed.

Lemma deliver_body sc (m : message) c :
  (deliver_skip m c = true ->
   (if decide (c = msg_sender m) then st_ret false
    else if decide (msg_to m ≠ "" /\ userID c ≠ msg_to m) then st_ret false
    else ok <-- push sc c (msg_data m) ;; st_ret (negb ok)) = st_ret false) /\
  (deliver_skip m c = false ->
   (if decide (c = msg_sender m) then st_ret false
    else if decide (msg_to m ≠ "" /\ userID c ≠ msg_to m) then st_ret false
    else ok <-- push sc c (msg_data m) ;; st_ret (negb ok))
   = (ok <-- push sc c (msg_data m) ;; st_ret (negb ok))).
Proof.
  unfold deliver_skip. split; intros Hs.
  - destruct (decide (c = msg_sender m)) as [|Hne]; [done|].
    rewrite bool_decide_eq_false_2 in Hs by done.
    simpl in Hs. apply bool_decide_eq_true in Hs. by rewrite decide_True.
  - apply orb_false_iff in Hs as [H1 H2]. apply bool_decide_eq_false in H1, H2. by rewrite !decide_False.
Qed.

Lemma wp_deliver sc (m : message) i w (Q : unit -> state -> Prop) :
  hub_inv w -> published m i -> made (msg_room m) w -> party (msg_sender m) ->
  (forall w', evolve (msg_room m) w w' ->
     reached (msg_room m) (deliver_skip m) (msg_data m) w w' ->
     (JsonLaws -> views_kept (msg_room m) w w') -> Q tt w') ->
  wp (deliver sc m) Q w.
Proof.
  intros Hw [P1 P2 P3 P4] Hmade Hparty HQ. unfold deliver. rewrite wp_bind, wp_get.
  eapply (wp_round sc _ (leave sc) (msg_room m) (deliver_skip m)); try done.
  - apply (leave_ok sc (S (size (in_room w (msg_room m))))).
  - lia.
  - intros k Hk. by apply deliver_body.
  - intros k Hk. by apply deliver_body.
  - intros k Hk Hs. apply deliver_skip_false in Hs as [Hne Hto]. apply origin_relayed; [done| |done..|].
    + destruct (inv_member roomID w _ k Hw Hk). congruence.
    + rewrite <- P2. destruct Hto; [by left|by right].
  - intros w' He Hre Hv. apply HQ; [done..|]. intros HL D HD. apply (Hv HL D).
    intros k Hk HDk. destruct (HD k Hk HDk) as (os & Hos & Hview).
    destruct (deliver_skip m k); exists os; split; try done.
    rewrite view_app, view_step_relayed; done.
Qed.

(** ** Arrival *)

Abbreviation arrived := (entered roomID sendBufferSize).

(** What [join] guarantees whatever the encoder does. *)
Record join_core (c : Client) (w w' : state) : Prop := {
  jc_inv : hub_inv w';
  jc_other : forall r, r ≠ roomID c -> in_room w' r = in_room w r;
  jc_room : in_room w' (roomID c) ⊆ {[c]} ∪ in_room w (roomID c);
  jc_stopped : stopped (hub w') = stopped (hub w);
  jc_log : forall k, k ≠ c -> roomID k ≠ roomID c \/ k ∉ in_room w (roomID k) -> log w' k = log w k;
  jc_status : forall k, k ≠ c -> k ∉ in_room w (roomID k) -> status w' k = status w k;
  jc_made : forall k, status w' k ≠ None <-> k = c \/ status w k ≠ None;
  jc_legit : (forall k, legit w k) -> forall k, legit w' k
}.

(** The first frame of the newcomer: who was there before it. *)
Definition welcomed (c : Client) (w w' : state) : Prop :=
  exists l frame, l ≡ₚ elements (in_room w (roomID c)) /\
    encode (welcome_frame (userID c) (peer_of <$> l)) = Some frame /\
    [frame] `prefix_of` log w' c.

Definition room_views (r : string) (w : state) : Prop :=
  forall m, m ∈ in_room w r -> view_ok w m.

Definition join_post (c : Client) (w w' : state) : Prop :=
  join_core c w w' /\
  (JsonLaws -> welcomed c w w' /\
    (room_views (roomID c) w -> room_views (roomID c) w')).

Lemma offered_inv k data w b w' : offered k data w b w' -> hub_inv w -> hub_inv w'.
Proof. intros [O1 O2 _ _ _ _ O7]. by apply reg_inv_same. Qed.

(** The newcomer after its welcome: it knows everybody. *)
Lemma welcomed_view c w w1 w2 l frame b :
  arrived c w w1 -> offered c frame w1 b w2 -> b = true -> c ∉ in_room w (roomID c) ->
  origin c (welcome_frame (userID c) (peer_of <$> l)) ->
  l ≡ₚ elements (in_room w (roomID c)) ->
  encode (welcome_frame (userID c) (peer_of <$> l)) = Some frame -> view_ok w2 c.
Proof.
  intros [_ Hroom _ _ Hlog _ _] [O1 _ O3 _ _ _ _] -> Hc Horig Hl He.
  exists [welcome_frame (userID c) (peer_of <$> l)]. split.
  - unfold frames. rewrite O3, Hlog. simpl. constructor; [|constructor]. by split.
  - unfold view; simpl. rewrite view_step_welcome. unfold others.
    assert (in_room w2 (roomID c) ∖ {[c]} = in_room w (roomID c)) as ->; [|by rewrite Hl].
    unfold in_group at 1. rewrite O1. change (members _ _) with (in_room w1 (roomID c)).
    rewrite Hroom. set_solver.
Qed.

(** An earlier member before it reads the announcement. *)
Lemma announced_view c w w1 w2 frame b m :
  arrived c w w1 -> offered c frame w1 b w2 -> c ∉ in_room w (roomID c) ->
  roomID m = roomID c -> m ≠ c -> view_ok w m -> view_after (joined_frame (peer_of c)) w2 m.
Proof.
  intros [_ Hroom _ _ _ _ Hne] [O1 _ _ O4 _ _ _] Hc Hr Hm (os & Hos & Hv).
  exists os. split.
  - eapply frames_log, Hos. rewrite O4 by done. by apply Hne.
  - rewrite view_app, view_step_joined, Hv, <- Permutation_cons_append. symmetry.
    apply others_add; [done..|]. unfold in_group at 1. by rewrite O1.
Qed.

Lemma entered_legit c w w1 w2 l frame b :
  arrived c w w1 -> offered c frame w1 b w2 ->
  origin c (welcome_frame (userID c) (peer_of <$> l)) ->
  encode (welcome_frame (userID c) (peer_of <$> l)) = Some frame ->
  (forall k, legit w k) -> forall k, legit w2 k.
Proof.
  intros [_ _ _ _ Hlog _ Hne] [_ _ O3 O4 _ _ _] Horig He Hleg k.
  destruct (decide (k = c)) as [->|Hk].
  - destruct b.
    + exists [welcome_frame (userID c) (peer_of <$> l)]. unfold frames. rewrite O3, Hlog. simpl.
      constructor; [|constructor]. by split.
    + exists []. unfold frames. rewrite O3, Hlog. constructor.
  - destruct (Hleg k) as [os Hos]. exists os. eapply frames_log, Hos.
    rewrite O4 by done. by apply Hne.
Qed.

Lemma entered_silent_legit c w w1 :
  arrived c w w1 -> (forall k, legit w k) -> forall k, legit w1 k.
Proof.
  intros [_ _ _ _ Hlog _ Hne] Hleg k. destruct (decide (k = c)) as [->|Hk].
  - exists []. unfold frames. rewrite Hlog. constructor.
  - destruct (Hleg k) as [os Hos]. exists os. eapply frames_log, Hos. by apply Hne.
Qed.

Lemma entered_core c w w1 w2 w3 :
  status w c = None -> arrived c w w1 -> hub w2 = hub w1 -> (forall k, status w2 k = status w1 k) ->
  (forall k, k ≠ c -> log w2 k = log w1 k) -> ((forall k, legit w k) -> forall k, legit w2 k) ->
  evolve (roomID c) w2 w3 -> join_core c w w3.
Proof.
  intros Hfresh [I1 Hroom Hother Hst _ _ Hne] Hh Hs Hl Hleg [E1 E2 E3 E4 E5 E6 E6' _ E8].
  assert (in_room w2 = in_room w1) as Hin by (unfold in_group; by rewrite Hh).
  assert (forall k, k ≠ c -> k ∉ in_room w (roomID k) -> k ∉ in_room w2 (roomID k)) as Hout.
  { intros k Hk Hout. rewrite Hin. destruct (decide (roomID k = roomID c)) as [He|He].
    - rewrite He in *. rewrite Hroom. set_solver.
    - by rewrite Hother. }
  split.
  - done.
  - intros r Hr. by rewrite E3, Hin, Hother.
  - by rewrite <- Hroom, <- Hin.
  - by rewrite E4, Hh.
  - intros k Hk Hc. rewrite E5, Hl by (done || naive_solver). by apply Hne.
  - intros k Hk Hout'. rewrite E6, Hs by auto. by apply Hne.
  - intros k. rewrite E6', Hs. destruct (decide (k = c)) as [->|Hkc].
    + assert (c ∈ in_room w1 (roomID c)) as ->%(inv_open roomID w1 I1) by (rewrite Hroom; set_solver).
      split; [by left|done].
    + destruct (Hne k Hkc) as [_ ->]. tauto.
  - auto.
Qed.

Lemma wp_join sc c w (Q : unit -> state -> Prop) :
  hub_inv w -> status w c = None -> stopped (hub w) = false -> party c -> made (roomID c) w ->
  (forall w', join_post c w w' -> Q tt w') ->
  wp (st_modify (with_chan sendBufferSize c) ;;; join sc c) Q w.
Proof.
  intros Hw Hs Hst Hparty Hmade HQ. pose proof (fresh_not_member roomID w c (roomID c) Hw Hs) as Hnew.
  rewrite wp_bind, wp_modify. unfold join. rewrite wp_bind, wp_get, wp_bind. apply wp_range.
  intros l w0 Hl Hch0 Hh0. rewrite wp_bind.
  eapply (wp_enter roomID sendBufferSize c w); [done..|]. intros w1 Hent.
  change (in_room (with_chan _ c w)) with (in_room w) in Hl.
  assert (hub_inv w1) as Hw1 by apply Hent.
  assert (origin c (welcome_frame (userID c) (peer_of <$> l))) as Horig.
  { apply origin_welcome, Forall_fmap, Forall_forall. intros k Hk. rewrite Hl, elem_of_elements in Hk.
    exists k. split; [by apply Hmade|]. split; [by apply (inv_key roomID w Hw)|done]. }
  destruct (encode (welcome_frame _ _)) as [frame|] eqn:Hframe.
  2:{ apply wp_ret, HQ. split; [|intros HL; exfalso; by refine (encode_plain _ _ Hframe)].
      eapply (entered_core c w w1 w1); try done. by eapply entered_silent_legit. }
  rewrite wp_bind. apply wp_offer.
  { apply (inv_open roomID w1 Hw1). rewrite (en_group _ _ _ _ _ Hent). set_solver. }
  intros b w2 Hoff. pose proof (offered_inv _ _ _ _ _ Hoff Hw1) as Hw2.
  assert (b = true) as Hb.
  { apply (off_room _ _ _ _ _ Hoff). rewrite (en_room _ _ _ _ _ Hent). unfold sendBufferSize. lia. }
  rewrite Hb. pose proof (entered_legit _ _ _ _ _ _ _ Hent Hoff Horig Hframe) as Hleg.
  assert (forall w3, evolve (roomID c) w2 w3 -> join_core c w w3) as Hcore.
  { intros w3. eapply (entered_core c w w1 w2); try apply Hoff; done. }
  assert (log w2 c = [frame]) as Hlog.
  { rewrite (off_log _ _ _ _ _ Hoff), Hb. by rewrite (en_log _ _ _ _ _ Hent). }
  destruct (encode (joined_frame _)) as [joined|] eqn:Hjoined.
  2:{ apply wp_ret, HQ. split; [by apply Hcore, evolve_refl|].
      intros HL. exfalso. by refine (encode_plain _ _ Hjoined). }
  assert (in_room w2 (roomID c) = {[c]} ∪ in_room w (roomID c)) as Hroom2.
  { unfold in_group at 1. rewrite (off_hub _ _ _ _ _ Hoff). apply Hent. }
  assert (made (roomID c) w2) as Hmade2.
  { intros k. rewrite Hroom2, elem_of_union, elem_of_singleton. intros [->|Hk]; [done|by apply Hmade]. }
  eapply wp_announce; [apply (leave_ok sc (S (size (in_room w2 (roomID c)))))|done|exact Hmade2|lia|exact Hjoined|..].
  - intros m Hm Hne. apply origin_joined; [done| |done]. symmetry. by apply (inv_key roomID w2 Hw2).
  - intros w3 He Hv. apply HQ. split; [by apply Hcore|]. intros HL. split.
    + exists l, frame. split; [done|split; [done|]]. rewrite <- Hlog. apply (ev_prefix _ _ _ _ He).
    + intros HV m Hm. apply (Hv HL (fun _ => False)); [|done|tauto].
      intros k Hk _. case_bool_decide as Hkc.
      * subst k. by eapply welcomed_view.
      * assert (k ∈ in_room w (roomID c)) as Hkin by (rewrite Hroom2 in Hk; set_solver).
        eapply announced_view; try done; [by apply (inv_key roomID w Hw)|by apply HV].
Qed.

End facts.
