(* ===== verification/SignalClient.v ===== *)
(** * One signaling connection

    [src/internal/signaling/client.go]: the read pump, which polices and stamps
    what a client sends; the write pump, which drains the send channel; and the
    system they form with the hub. *)

From S2P Require Import Prelude Chan Registry Protocol TokenBucket SignalHub.

(** ** The read pump *)

(** What [conn.ReadMessage] returns: an error, or a frame and whether its type
    is [websocket.TextMessage]. *)
Inductive read_result :=
| ReadError
| ReadFrame (text : bool) (data : string).

(** Close codes of RFC 6455 the code uses. *)
Definition CloseNormalClosure : Z := 1000.
Definition CloseGoingAway : Z := 1001.
Definition CloseUnsupportedData : Z := 1003.
Definition ClosePolicyViolation : Z := 1008.

(** What one iteration of the loop of [readPump] does with a frame. *)
Inductive read_action :=
| Stop (code : Z) (reason : string)
| Discard
| Publish (m : message).

Section client.
Context `{Json} {F : Type} `{Arith F}.

Definition readFrame (c : Client) (budget : tokenBucket F) (now : Z) (text : bool) (data : string)
    : tokenBucket F * read_action :=
  if negb text then (budget, Stop CloseUnsupportedData "text frames only")
  else
    let '(ok, budget) := allow budget now in
    if negb ok then (budget, Stop ClosePolicyViolation "message rate exceeded")
    else match parseInbound data with
    | inl _ => (budget, Discard)
    | inr i =>
        match encode (stamp (userID c) i) with
        | None => (budget, Discard)
        | Some out => (budget, Publish (mkMessage (roomID c) c (inTo i) out))
        end
    end.

(** The loop of [readPump]: the messages published before it returns, and the
    close frame it sends, if any. Each read carries the time it completes. *)
Fixpoint readLoop (c : Client) (budget : tokenBucket F) (reads : list (Z * read_result))
    : list message * option (Z * string) :=
  match reads with
  | [] => ([], None)
  | (_, ReadError) :: _ => ([], None)
  | (now, ReadFrame text data) :: reads =>
      match readFrame c budget now text data with
      | (_, Stop code reason) => ([], Some (code, reason))
      | (budget, Discard) => readLoop c budget reads
      | (budget, Publish m) =>
          let '(ms, cl) := readLoop c budget reads in (m :: ms, cl)
      end
  end.

(** [readPump], whose budget starts full when the pump starts. *)
Definition readPump (c : Client) (start : Z) (reads : list (Z * read_result))
    : list message * option (Z * string) :=
  readLoop c (connection_bucket start) reads.

(** ** The write pump *)

(** What the select of [writePump] receives: a frame, the close of the channel,
    or a tick of the ping timer. *)
Inductive write_event :=
| GotFrame (data : string)
| ChannelClosed
| PingTick.

(** What it writes to the websocket. *)
Inductive ws_write :=
| WriteText (data : string)
| WritePing
| WriteClose (code : Z) (reason : string).

(** Each event comes with whether the write it causes succeeds. *)
Fixpoint writePump (evs : list (write_event * bool)) : list ws_write :=
  match evs with
  | [] => []
  | (ChannelClosed, _) :: _ => [WriteClose CloseNormalClosure ""]
  | (GotFrame data, ok) :: evs => WriteText data :: (if ok : bool then writePump evs else [])
  | (PingTick, ok) :: evs => WritePing :: (if ok : bool then writePump evs else [])
  end.

(** ** Admission: [ServeHTTP] *)

(** The answer of [ServeHTTP] before the upgrade, or the client it makes. *)
Inductive admission :=
| Rejected (status : Z) (code : string)
| UpgradeFailed
| Upgraded (c : Client).

(** What [resolveRoom] can answer. *)
Inductive resolve_error := ErrRoomNotFound | ErrResolve.

Definition ServeHTTP (auth : option (string * string)) (slug : string)
    (resolveRoom : string -> resolve_error + string) (upgraded : bool)
    (address : positive) (clientID : string) : admission :=
  match auth with
  | None => Rejected 401 "unauthenticated"
  | Some (uid, name) =>
      if decide (slug = "") then Rejected 400 "room_required"
      else match resolveRoom slug with
      | inl ErrRoomNotFound => Rejected 404 "room_not_found"
      | inl ErrResolve => Rejected 500 "internal_error"
      | inr room =>
          if upgraded then Upgraded (mkClient address clientID uid name room)
          else UpgradeFailed
      end
  end.

(** ** The system

    The hub, the connections and their pumps. A connection is made once, its
    channel with it; its read pump may publish whatever [readFrame] lets through
    and asks the hub to drop it at some point; its write pump takes frames; the
    server may be cancelled. *)
Inductive step : state -> state -> Prop :=
| step_connect sc c w w' :
    status w c = None -> handle sc (Register c) w = Ok (tt, w') -> step w w'
| step_disconnect sc c w w' :
    status w c ≠ None -> handle sc (Unregister c) w = Ok (tt, w') -> step w w'
| step_publish sc c budget budget' now text data m w w' :
    status w c ≠ None ->
    readFrame c budget now text data = (budget', Publish m) ->
    handle sc (Broadcast m) w = Ok (tt, w') -> step w w'
| step_write c w : step w (set_chans (alter ch_take c (chans w)) w)
| step_cancel sc w w' : handle sc Cancelled w = Ok (tt, w') -> step w w'.

Inductive reachable : state -> Prop :=
| reach_init : reachable initial
| reach_step w w' : reachable w -> step w w' -> reachable w'.

(** The events the system can hand to the hub in a state. *)
Inductive admissible (w : state) : event -> Prop :=
| adm_register c : status w c = None -> admissible w (Register c)
| adm_unregister c : status w c ≠ None -> admissible w (Unregister c)
| adm_broadcast c budget budget' now text data m :
    status w c ≠ None ->
    readFrame c budget now text data = (budget', Publish m) -> admissible w (Broadcast m)
| adm_cancelled : admissible w Cancelled.
End client.
