(* ===== verification/RelayRate.v ===== *)
(** * The message budget in binary64

    The bucket of [TokenBucket.v] as the code computes it: every rounding counted,
    what a connection gets relayed stays within the burst and the rate. *)

From S2P Require Import Prelude Protocol TokenBucket Float SignalHub SignalClient.
From Stdlib Require Import QArith Qminmax Lqa.
From Corelib Require Import SpecFloat.

(** Evaluates the value of a binary64 constant. *)
Ltac constant := right; eexists _, _; split; [vm_compute; reflexivity|]; split; [vm_compute; reflexivity|];
  split; [lia|vm_compute; reflexivity].

Lemma burst_value : finite_at (f64_of_Z messageBurst) 120.
Proof. constant. Qed.

Lemma rate_value : finite_at (f64_of_Z messagesPerSecond) 60.
Proof. constant. Qed.

Lemma one_value : finite_at (f64_of_Z 1) 1.
Proof. constant. Qed.

Lemma billion_value : finite_at (f64_of_Z 1000000000) 1000000000.
Proof. constant. Qed.

(** ** Elapsed time *)

Definition seconds (d : Z) : Q := d # 1000000000.

Lemma seconds_le d d' : (d <= d')%Z -> (seconds d <= seconds d')%Q.
Proof. unfold seconds, Qle. cbn. lia. Qed.

Lemma seconds_add d d' : (seconds d + seconds d' == seconds (d + d'))%Q.
Proof. apply ns_add. Qed.

(** A negative duration is never a positive number of seconds. *)
Definition not_positive (x : spec_float) : Prop := SFltb (S754_zero false) x = false.

Lemma round_not_positive m e l : not_positive (binary_round_aux 53 1024 true m e l).
Proof.
  unfold binary_round_aux. destruct (shr_fexp _ _ _ _ _) as [mrs e']. destruct (shr_fexp _ _ _ _ _) as [mrs' e''].
  destruct (shr_m mrs'); [done| |done]. by destruct (_ <=? _)%Z.
Qed.

Lemma normalize_not_positive m e : (m <= 0)%Z -> not_positive (binary_normalize 53 1024 m e false).
Proof.
  intros Hm. destruct m as [|p|p]; [done|lia|]. unfold binary_normalize, binary_round.
  destruct (shl_align _ _ _). apply round_not_positive.
Qed.

Lemma div_not_positive x m e : not_positive x -> not_positive (SFdiv 53 1024 x (S754_finite false m e)).
Proof.
  destruct x as [[|]|[|]| |[|] m' e']; intros Hx; try done. unfold SFdiv.
  destruct (SFdiv_core_binary _ _ _ _ _ _) as [[q e''] l]. apply round_not_positive.
Qed.

Lemma add_not_positive x y : not_positive x -> not_positive y -> not_positive (SFadd 53 1024 x y).
Proof.
  destruct x as [[|]|[|]| |[|] m e], y as [[|]|[|]| |[|] m' e']; intros Hx Hy; try done.
  unfold SFadd. apply normalize_not_positive. unfold cond_Zopp. lia.
Qed.

Lemma f64_seconds_not_positive d : (d <= 0)%Z -> not_positive (f64_seconds d).
Proof.
  intros Hd. unfold f64_seconds.
  assert (Z.quot d 1000000000 <= 0 /\ Z.rem d 1000000000 <= 0)%Z as [Hq Hr] by (Z.to_euclidean_division_equations; lia).
  destruct billion_value as [[_ H]|(m & e & -> & _)]; [by vm_compute in H|].
  apply add_not_positive, div_not_positive; by apply normalize_not_positive.
Qed.

(** The rounding of [Seconds] is a few units in the last place. *)
Lemma f64_seconds_below d :
  (0 <= d)%Z -> below (f64_seconds d) (seconds d * (1 + 4 * u) + 8 * eta).
Proof.
  intros Hd. unfold f64_seconds.
  set (sec := Z.quot d 1000000000). set (nsec := Z.rem d 1000000000).
  assert (0 <= sec /\ 0 <= nsec < 1000000000 /\ d = sec * 1000000000 + nsec)%Z as (Hs & Hn & Hsum)
    by (unfold sec, nsec; Z.to_euclidean_division_equations; lia).
  assert (seconds d == inject_Z sec + inject_Z nsec * (1 # 1000000000))%Q as Hsec.
  { unfold seconds, inject_Z, Qeq, Qplus, Qmult. cbn. lia. }
  assert (0 <= inject_Z sec)%Q as Hs0 by (change 0%Q with (inject_Z 0); by rewrite <- Zle_Qle).
  assert (0 <= inject_Z nsec)%Q as Hn0 by (change 0%Q with (inject_Z 0); rewrite <- Zle_Qle; lia).
  assert (inject_Z nsec <= 1000000000)%Q as Hn1 by (change 1000000000%Q with (inject_Z 1000000000); rewrite <- Zle_Qle; lia).
  destruct (below_finite _ _ (proj1 (of_Z_near nsec ltac:(lia)))) as (v & Hv & Hle).
  { unfold rnd, u, eta. lra. }
  pose proof (finite_nonneg _ _ Hv) as Hv0.
  pose proof (proj1 (div_near _ _ _ _ Hv billion_value ltac:(done))) as Hdiv.
  assert (v / 1000000000 == v * (1 # 1000000000))%Q as Hvd by reflexivity.
  eapply below_le.
  - apply add_below; [by apply of_Z_near|exact Hdiv|unfold rnd, u, eta; lra|].
    unfold rnd, u, eta. rewrite Hvd. lra.
  - unfold rnd, u, eta in *. rewrite Hsec, Hvd. lra.
Qed.

(** ** The bucket *)

(** What all the roundings of one call can add. *)
Definition slack : Q := 1 # 4398046511104.   (* 2^-42 *)

(** The bucket of a connection, at level [v]. *)
Definition level (b : tokenBucket f64) (v : Q) : Prop :=
  finite_at (tokens b) v /\ (v <= 120)%Q /\ capacity b = f64_of_Z messageBurst /\ rate b = f64_of_Z messagesPerSecond.

(** What it can let through by [T]. *)
Definition potential (b : tokenBucket f64) (v : Q) (T : Z) : Q := v + 60 * seconds (T - last b).

Lemma connection_level start : level (connection_bucket start) 120.
Proof. split; [exact burst_value|]. split; [lra|]. done. Qed.

(** The level after the refill, before the cap. *)
Lemma refilled_below b v d :
  level b v -> (0 < d)%Z ->
  below (SFadd 53 1024 (tokens b) (SFmul 53 1024 (f64_seconds d) (rate b)))
    (rnd (v + rnd ((seconds d * (1 + 4 * u) + 8 * eta) * 60))).
Proof.
  intros (Hv & _ & _ & Hr) Hd. pose proof (finite_nonneg _ _ Hv) as Hv0. rewrite Hr.
  assert (0 <= seconds d)%Q as Hs by (apply ns_nonneg; lia).
  apply add_below; [by eapply finite_below, Qle_refl| |done|unfold rnd, u, eta; lra].
  apply mul_below; [apply f64_seconds_below; lia|apply rate_value|unfold u, eta; lra|lra].
Qed.

Lemma refill_level b v now T :
  level b v -> exists v', level (refill b now) v' /\
    (potential (refill b now) v' T <= potential b v T + (1 # 2) * slack)%Q.
Proof.
  intros Hl. pose proof Hl as (Hv & Hv120 & Hc & Hr). pose proof (finite_nonneg _ _ Hv) as Hv0.
  unfold refill. destruct (f_ltb (f_of_Z 0) (f_seconds (now - last b))) eqn:Hpos.
  2:{ exists v. split; [done|]. unfold slack. lra. }
  destruct (Z.le_gt_cases (now - last b) 0) as [Hd|Hd].
  { pose proof (f64_seconds_not_positive _ Hd) as Hn. unfold not_positive in Hn. cbn in Hpos, Hn. congruence. }
  pose proof (refilled_below b v (now - last b) Hl ltac:(lia)) as Hb.
  assert (seconds (T - last b) == seconds (T - now) + seconds (now - last b))%Q as Hsum.
  { rewrite seconds_add. by replace (T - now + (now - last b))%Z with (T - last b)%Z by lia. }
  assert (0 < seconds (now - last b))%Q as Hs by (apply (ns_pos (now - last b)); lia).
  assert (forall v', (v' <= 120)%Q ->
    (v' <= rnd (v + rnd ((seconds (now - last b) * (1 + 4 * u) + 8 * eta) * 60)))%Q ->
    (v' + 60 * seconds (T - now) <= v + 60 * seconds (T - last b) + (1 # 2) * slack)%Q) as Hpot.
  { intros v' H1 H2. rewrite Hsum. destruct (Qlt_le_dec 120 (60 * seconds (now - last b))) as [Hbig|Hsmall].
    - unfold slack. lra.
    - unfold rnd, u, eta, slack in *. lra. }
  cbn [f_add f_mul f_ltb f_seconds f64_arith] in *.
  set (t := SFadd 53 1024 _ _) in *. rewrite Hc. destruct (SFltb _ t) eqn:Hcap.
  - exists 120%Q. split; [split; [exact burst_value|by split; [lra|]]|]. unfold potential. cbn [last].
    apply Hpot; [lra|]. destruct Hb as [[_ Hb]|(w & Hw & Hle)].
    + pose proof (pow2_le 40 971 ltac:(done)) as Hp. change (pow2 40) with 1099511627776%Q in Hp. lra.
    + apply (ltb_spec _ _ _ _ burst_value Hw) in Hcap. lra.
  - destruct Hb as [[Hb _]|(w & Hw & Hle)]; [by rewrite Hb in Hcap|].
    assert (w <= 120)%Q as Hw120.
    { apply Qnot_lt_le. intros Hlt. apply (ltb_spec _ _ _ _ burst_value Hw) in Hlt. congruence. }
    exists w. split; [by split; [|split]|]. unfold potential. cbn [last]. by apply Hpot.
Qed.

Lemma allow_clock (b : tokenBucket f64) now T :
  (last b <= T)%Z -> (now <= T)%Z -> (last (snd (allow b now)) <= T)%Z.
Proof.
  intros Hl Hn. assert (last (snd (allow b now)) = last (refill b now)) as ->.
  { unfold allow. by destruct (f_ltb _ _). }
  unfold refill. by destruct (f_ltb _ _).
Qed.

Lemma allow_level b v now T :
  level b v -> exists v', level (snd (allow b now)) v' /\
    (potential (snd (allow b now)) v' T + (if fst (allow b now) then 1 else 0) <= potential b v T + slack)%Q.
Proof.
  intros Hl. destruct (refill_level b v now T Hl) as (w & (Hw & Hw120 & Hc & Hr) & Hpot).
  unfold allow. destruct (f_ltb (tokens (refill b now)) (f_of_Z 1)) eqn:Hlt; cbn [fst snd].
  { exists w. split; [done|]. unfold slack in *. lra. }
  assert (1 <= w)%Q as H1.
  { apply Qnot_lt_le. intros Hx. apply (ltb_spec _ _ _ _ Hw one_value) in Hx. cbn [f_ltb f64_arith f_of_Z] in Hlt. congruence. }
  destruct (below_finite _ _ (proj1 (sub_near _ _ _ _ Hw one_value H1))) as (v' & Hv' & Hle).
  { unfold rnd, u, eta. lra. }
  unfold potential, rnd, u, eta, slack in *. cbn [last]. exists v'. split.
  - split; [exact Hv'|]. split; [lra|done].
  - lra.
Qed.

(** ** What a connection gets relayed *)

Section relay.
Context `{Json}.

Lemma readFrame_budget c (b : tokenBucket f64) now text data :
  match readFrame c b now text data with
  | (b', Publish _) => b' = snd (allow b now) /\ fst (allow b now) = true
  | (b', Discard) => b' = snd (allow b now)
  | (_, Stop _ _) => True
  end.
Proof.
  unfold readFrame. destruct text; cbn; [|done]. destruct (allow b now) as [[|] b'] eqn:Ha; cbn; [|done].
  destruct (parseInbound data); [done|]. by destruct (encode _).
Qed.

Lemma readLoop_bound c reads (b : tokenBucket f64) v T :
  level b v -> (last b <= T)%Z -> Forall (fun r => fst r <= T)%Z reads ->
  (inject_Z (Z.of_nat (length (fst (readLoop c b reads)))) <=
    potential b v T + inject_Z (Z.of_nat (length reads)) * slack)%Q.
Proof.
  revert b v. induction reads as [|[now r] reads IH]; intros b v Hl Hlast Ht.
  - cbn [readLoop fst length Z.of_nat]. pose proof (finite_nonneg _ _ (proj1 Hl)). assert (0 <= seconds (T - last b))%Q as Hs by (apply ns_nonneg; lia).
    unfold potential, slack. change (Z.of_nat 0) with 0%Z. change (inject_Z 0) with 0%Q. lra.
  - apply Forall_cons in Ht as [Hnow Ht]. cbn [fst] in Hnow.
    assert (0 <= potential b v T)%Q as Hp0.
    { pose proof (finite_nonneg _ _ (proj1 Hl)). assert (0 <= seconds (T - last b))%Q as Hs by (apply ns_nonneg; lia).
      unfold potential. lra. }
    assert (0 <= inject_Z (Z.of_nat (length reads)))%Q as Hn0 by (change 0%Q with (inject_Z 0); rewrite <- Zle_Qle; lia).
    assert (inject_Z (Z.of_nat (length ((now, r) :: reads))) == 1 + inject_Z (Z.of_nat (length reads)))%Q as ->.
    { cbn [length]. rewrite Nat2Z.inj_succ. unfold Z.succ. rewrite inject_Z_plus. change (inject_Z 1) with 1%Q. lra. }
    assert (forall n : nat, n = 0%nat -> (inject_Z (Z.of_nat n) <=
      potential b v T + (1 + inject_Z (Z.of_nat (length reads))) * slack)%Q) as Hzero.
    { intros n ->. change (inject_Z (Z.of_nat 0)) with 0%Q. unfold slack. lra. }
    destruct r as [|text data]; cbn [readLoop]; [by apply Hzero|].
    pose proof (readFrame_budget c b now text data) as Hb.
    destruct (allow_level b v now T Hl) as (v' & Hl' & Hpot).
    assert (last (snd (allow b now)) <= T)%Z as Hlast'.
    { by apply allow_clock. }
    specialize (IH _ _ Hl' Hlast' Ht).
    destruct (readFrame _ _ _ _ _) as [b' [code reason| |m]]; [by apply Hzero|..].
    + subst b'. etransitivity; [exact IH|]. unfold slack in *. destruct (fst (allow b now)); lra.
    + destruct Hb as [-> Hok]. rewrite Hok in Hpot. destruct (readLoop _ _ _) as [ms cl]. cbn [fst length] in *.
      rewrite Nat2Z.inj_succ. unfold Z.succ. rewrite inject_Z_plus. change (inject_Z 1) with 1%Q. unfold slack in *. lra.
Qed.

(** C23: computed in binary64 with every rounding counted, the budget holds: of the
    frames a connection sends in any time from its start, at most its burst of 120
    and 60 a second are relayed, and one more at most, as long as it sends fewer
    than 2^42. *)
Theorem relay_rate_bounded c start reads T :
  (start <= T)%Z -> Forall (fun r => fst r <= T)%Z reads -> (Z.of_nat (length reads) < 2 ^ 42)%Z ->
  (Z.of_nat (length (fst (readPump (F := f64) c start reads))) <=
    messageBurst + messagesPerSecond * (T - start) / 1000000000 + 1)%Z.
Proof.
  intros HT Hreads Hlen.
  pose proof (readLoop_bound c reads (connection_bucket start) 120 T (connection_level start) HT Hreads) as Hb.
  fold (readPump (F := f64) c start reads) in Hb. set (n := length _) in *. clearbody n.
  unfold potential, seconds, slack, messageBurst, messagesPerSecond in *. cbn [last connection_bucket newTokenBucket] in Hb.
  unfold inject_Z, Qle, Qplus, Qmult in Hb. cbn [Qnum Qden] in Hb.
  rewrite ?Pos2Z.inj_mul in Hb. Z.to_euclidean_division_equations. lia.
Qed.
End relay.

(** ** A flood *)

Definition flooder : Client := mkClient 1 "1" "u-mallory" "Mallory" "room-a".

(** Two hundred chat messages at once. *)
Definition flood : list (Z * read_result) := replicate 200 (0%Z, ReadFrame true "chat  hi").

(** The burst is let through, then the connection is closed. *)
Example flood_cut :
  length (fst (readPump (F := f64) flooder 0 flood)) = 120%nat /\
  snd (readPump (F := f64) flooder 0 flood) = Some (ClosePolicyViolation, "message rate exceeded"%string).
Proof. vm_compute. by split. Qed.

Lemma relay_rate_bounded_witness :
  (Z.of_nat (length (fst (readPump (F := f64) flooder 0 flood))) <= 121)%Z.
Proof.
  refine (relay_rate_bounded flooder 0 flood 0 _ _ _); [lia| |vm_compute; reflexivity].
  apply Forall_replicate. simpl. lia.
Defined.
