(* ===== verification/RelayFair.v ===== *)
(** * Whom the message budget spares

    The other side of [RelayRate.v]: computed in binary64, with every rounding
    counted, the budget never closes a client that keeps to one message less than the
    burst, and to the rate. The exact bucket of capacity 119 is the yardstick: the
    code's bucket holds a token more than it, less the roundings. *)

From S2P Require Import Prelude Protocol TokenBucket Float SignalHub SignalClient RelayRate.
From Stdlib Require Import QArith Qminmax Lqa Sorted.
From Corelib Require Import SpecFloat.

(** ** Numbers of moderate size *)

Lemma near_finite x v : near x v -> (v <= 100000000000)%Q -> exists w, finite_at x w /\ (rnd_dn v <= w)%Q /\ (w <= rnd v)%Q.
Proof.
  intros [Hb Ha] Hv. destruct (below_finite _ _ Hb) as (w & Hw & Hle); [unfold rnd, u, eta; lra|].
  destruct Ha as [-> |(w' & Hw' & Hge)]; [by destruct Hw as [[? _]|(? & ? & ? & _)]|].
  assert (w == w')%Q as E.
  { destruct Hw as [[-> Hw]|(m & e & -> & _ & _ & Hw)], Hw' as [[? Hw']|(m' & e' & ? & _ & _ & Hw')]; try done; [lra|].
    simplify_eq. lra. }
  exists w. split; [done|]. split; lra.
Qed.

(** ** Elapsed time *)

Lemma f64_seconds_above d :
  (0 <= d)%Z -> above (f64_seconds d) (seconds d * (1 - 16 * u) - 4 * eta).
Proof.
  intros Hd. unfold f64_seconds.
  set (sec := Z.quot d 1000000000). set (nsec := Z.rem d 1000000000).
  assert (0 <= sec /\ 0 <= nsec < 1000000000 /\ d = sec * 1000000000 + nsec)%Z as (Hs & Hn & Hsum)
    by (unfold sec, nsec; Z.to_euclidean_division_equations; lia).
  assert (seconds d == inject_Z sec + inject_Z nsec * (1 # 1000000000))%Q as Hsec.
  { unfold seconds, inject_Z, Qeq, Qplus, Qmult. cbn. lia. }
  assert (0 <= inject_Z sec)%Q as Hs0 by (change 0%Q with (inject_Z 0); by rewrite <- Zle_Qle).
  assert (0 <= inject_Z nsec)%Q as Hn0 by (change 0%Q with (inject_Z 0); rewrite <- Zle_Qle; lia).
  assert (inject_Z nsec <= 1000000000)%Q as Hn1 by (change 1000000000%Q with (inject_Z 1000000000); rewrite <- Zle_Qle; lia).
  destruct (near_finite _ _ (of_Z_near nsec ltac:(lia))) as (v & Hv & Hle & _); [lra|].
  pose proof (proj2 (div_near _ _ _ _ Hv billion_value ltac:(done))) as Hdiv.
  assert (v / 1000000000 == v * (1 # 1000000000))%Q as Hvd by reflexivity.
  eapply above_le; [apply add_above; [by apply of_Z_near|exact Hdiv]|].
  unfold rnd_dn, u, eta in *. rewrite Hsec, Hvd. lra.
Qed.

Lemma f64_seconds_positive d : (0 < d)%Z -> SFltb (f64_of_Z 0) (f64_seconds d) = true.
Proof.
  intros Hd. destruct (f64_seconds_above d ltac:(lia)) as [-> |(v & Hv & Hle)]; [done|].
  apply (ltb_spec _ _ 0 v); [by left|done|].
  assert (seconds 1 <= seconds d)%Q as H1 by (apply seconds_le; lia). unfold seconds in H1 at 1. unfold u, eta in Hle. lra.
Qed.

(** ** The two buckets *)

(** What the roundings of one call can take away. *)
Definition loss : Q := 1 # 1099511627776.   (* 2^-40 *)

(** The code's bucket, at level [v], after [k] calls against the exact one. *)
Definition covers (k : nat) (b : tokenBucket f64) (v : Q) (q : tokenBucket Q) : Prop :=
  level b v /\ last b = last q /\ capacity q = 119%Q /\ rate q = 60%Q /\ (tokens q <= 119)%Q /\
  (tokens q + 1 - inject_Z (Z.of_nat k) * loss <= v)%Q.

Definition exact_bucket (start : Z) : tokenBucket Q := newTokenBucket 119%Q 60%Q start.

Lemma exact_covers start : covers 0 (connection_bucket start) 120 (exact_bucket start).
Proof.
  split; [apply connection_level|]. do 3 (split; [done|]). change (inject_Z (Z.of_nat 0)) with 0%Q.
  split; cbn [tokens exact_bucket newTokenBucket]; lra.
Qed.

(** The level after the refill, before the cap. *)
Lemma refilled_above b v d :
  level b v -> (0 < d)%Z ->
  above (SFadd 53 1024 (tokens b) (SFmul 53 1024 (f64_seconds d) (rate b)))
    (rnd_dn (v + rnd_dn ((seconds d * (1 - 16 * u) - 4 * eta) * 60))).
Proof.
  intros (Hv & _ & _ & Hr) Hd. rewrite Hr. apply add_above; [right; exists v; split; [done|lra]|].
  apply mul_above; [apply f64_seconds_above; lia|apply rate_value|done].
Qed.

Lemma refill_covers k b v q now :
  covers k b v q -> exists v', level (refill b now) v' /\ last (refill b now) = last (refill q now) /\
    capacity (refill q now) = 119%Q /\ rate (refill q now) = 60%Q /\ (tokens (refill q now) <= 119)%Q /\
    (tokens (refill q now) + 1 - inject_Z (Z.of_nat k) * loss <= v' + (1 # 2) * loss)%Q.
Proof.
  intros (Hl & Hlast & Hcq & Hrq & Hq & Hcov). pose proof Hl as (Hv & Hv120 & Hc & Hr).
  unfold refill. rewrite <- Hlast. destruct (Z.le_gt_cases (now - last b) 0) as [Hd|Hd].
  { assert (f_ltb (f_of_Z 0) (f_seconds (F := f64) (now - last b)) = false) as -> by (by apply f64_seconds_not_positive).
    assert (f_ltb (f_of_Z 0) (f_seconds (F := Q) (now - last b)) = false) as ->.
    { apply q_ltb_le. unfold Qle. simpl. lia. }
    exists v. unfold loss in *. repeat (split; [done|]). lra. }
  assert (f_ltb (f_of_Z 0) (f_seconds (F := f64) (now - last b)) = true) as -> by (apply f64_seconds_positive; lia).
  assert (f_ltb (f_of_Z 0) (f_seconds (F := Q) (now - last b)) = true) as ->.
  { apply q_ltb_lt. apply (ns_pos (now - last b)). lia. }
  pose proof (refilled_above b v (now - last b) Hl ltac:(lia)) as Ha.
  assert (0 < seconds (now - last b))%Q as Hs by (apply (ns_pos (now - last b)); lia).
  cbn [f_add f_mul f_ltb f_seconds f64_arith q_arith tokens capacity rate last] in *.
  set (t := SFadd 53 1024 _ _) in *. rewrite Hc, Hcq, Hrq.
  set (tq := (tokens q + ((now - last b) # 1000000000) * 60)%Q).
  assert (exists q', (if q_ltb 119 tq then 119%Q else tq) = q' /\ (q' <= 119)%Q /\ (q' <= tq)%Q) as (q' & -> & Hq1 & Hq2).
  { eexists. split; [done|]. destruct (q_ltb 119 tq) eqn:E; [apply q_ltb_lt in E; lra|apply q_ltb_le in E; lra]. }
  change ((now - last b) # 1000000000)%Q with (seconds (now - last b)) in tq. subst tq.
  assert (0 <= inject_Z (Z.of_nat k) * loss)%Q as Hk.
  { apply Qmult_le_0_compat; [|done]. change 0%Q with (inject_Z 0). rewrite <- Zle_Qle. lia. }
  destruct (SFltb (f64_of_Z messageBurst) t) eqn:Hcap.
  - exists 120%Q. split; [split; [exact burst_value|by split; [lra|]]|]. repeat (split; [done|]). unfold loss in *. lra.
  - destruct Ha as [Ha|(w & Hw & Hle)]; [by rewrite Ha in Hcap|].
    assert (w <= 120)%Q as Hw120.
    { apply Qnot_lt_le. intros Hlt. apply (ltb_spec _ _ _ _ burst_value Hw) in Hlt. congruence. }
    exists w. split; [by split; [|split]|]. repeat (split; [done|]).
    assert (60 * seconds (now - last b) <= 130)%Q as Hsmall by (unfold rnd_dn, u, eta in Hle; pose proof (finite_nonneg _ _ Hv); lra).
    unfold rnd_dn, u, eta, loss in *. lra.
Qed.

Lemma allow_covers k b v q now :
  covers k b v q -> (Z.of_nat k + 1 < 2 ^ 40)%Z -> fst (allow q now) = true ->
  fst (allow b now) = true /\ exists v', covers (S k) (snd (allow b now)) v' (snd (allow q now)).
Proof.
  intros Hcov Hk. destruct (refill_covers k b v q now Hcov) as (w & (Hw & Hw120 & Hc & Hr) & Hlast & Hcq & Hrq & Hq & Hle).
  assert (inject_Z (Z.of_nat (S k)) == inject_Z (Z.of_nat k) + 1)%Q as HS.
  { rewrite Nat2Z.inj_succ. unfold Z.succ. by rewrite inject_Z_plus. }
  assert (inject_Z (Z.of_nat k) + 1 <= 1099511627776)%Q as Hk1.
  { change 1099511627776%Q with (inject_Z 1099511627776). change 1%Q with (inject_Z 1). rewrite <- inject_Z_plus, <- Zle_Qle. lia. }
  unfold allow. destruct (f_ltb (tokens (refill q now)) (f_of_Z 1)) eqn:Hltq; [done|]. intros _.
  apply q_ltb_le in Hltq. change (f_of_Z 1) with 1%Q in Hltq.
  assert (1 <= w)%Q as H1 by (unfold loss in *; lra).
  assert (f_ltb (tokens (refill b now)) (f_of_Z 1) = false) as Hltb.
  { destruct (f_ltb _ _) eqn:E; [|done]. apply (ltb_spec _ _ _ _ Hw one_value) in E. lra. }
  rewrite Hltb. cbn [fst snd]. split; [done|].
  destruct (near_finite _ _ (sub_near _ _ _ _ Hw one_value H1)) as (v' & Hv' & Hge & Hle'); [lra|].
  exists v'. unfold rnd_dn, rnd, u, eta, loss in *. split; [split; [exact Hv'|split; [lra|done]]|].
  cbn [last capacity rate tokens f_sub q_arith]. change (f_of_Z 1) with 1%Q.
  repeat (split; [done|]). split; [lra|]. rewrite HS. unfold loss. lra.
Qed.

(** ** Keeping to the rate *)

(** Of any messages from one to a later one, at most 119 and 60 a second. *)
Definition keeps_rate (times : list Z) : Prop :=
  forall i j ti tj, times !! i = Some ti -> times !! j = Some tj -> (i <= j)%nat ->
    ((Z.of_nat (j - i) + 1 - 119) * 1000000000 <= 60 * (tj - ti))%Z.

(** The messages so far fit in what the bucket holds and earns. *)
Definition fits (q : tokenBucket Q) (times : list Z) : Prop :=
  forall j t, times !! j = Some t -> (inject_Z (Z.of_nat j) + 1 <= tokens q + 60 * seconds (t - last q))%Q.

Lemma exact_allows q times :
  capacity q = 119%Q -> rate q = 60%Q -> Sorted Z.le (last q :: times) -> keeps_rate times -> fits q times ->
  match times with
  | [] => True
  | t :: rest => fst (allow q t) = true /\ capacity (snd (allow q t)) = 119%Q /\ rate (snd (allow q t)) = 60%Q /\
      Sorted Z.le (last (snd (allow q t)) :: rest) /\ keeps_rate rest /\ fits (snd (allow q t)) rest
  end.
Proof.
  intros Hc Hr Hsort Hrate Hfit. destruct times as [|t rest]; [done|].
  apply Sorted_inv in Hsort as [Hsort Hfirst]. apply HdRel_inv in Hfirst.
  assert (last (refill q t) = t /\ capacity (refill q t) = 119%Q /\
    rate (refill q t) = 60%Q /\ (tokens (refill q t) == tokens q + 60 * seconds (t - last q) \/ tokens (refill q t) = 119%Q)%Q)
    as (Hlast & Hc' & Hr' & Htok).
  { unfold refill. destruct (f_ltb (f_of_Z 0) (f_seconds (t - last q))) eqn:E.
    - cbn [tokens last capacity rate]. repeat (split; [done|]). rewrite Hc, Hr. destruct (f_ltb 119%Q _); [by right|left].
      unfold seconds. cbn [f_add f_mul f_seconds q_arith]. ring.
    - apply q_ltb_le in E. assert (t = last q) as ->.
      { unfold Qle in E. simpl in E. lia. }
      repeat (split; [done|]). left. rewrite Z.sub_diag. unfold seconds, Qeq, Qplus, Qmult. simpl. lia. }
  assert (forall j tj, (t :: rest) !! j = Some tj ->
    (inject_Z (Z.of_nat j) + 1 <= tokens (refill q t) + 60 * seconds (tj - t))%Q) as Hnow.
  { intros j tj Hj. destruct Htok as [Htok|Htok]; rewrite Htok.
    - specialize (Hfit j tj Hj). assert (seconds (tj - last q) == seconds (tj - t) + seconds (t - last q))%Q as Hsum.
      { rewrite seconds_add. by replace (tj - t + (t - last q))%Z with (tj - last q)%Z by lia. }
      rewrite Hsum in Hfit. lra.
    - specialize (Hrate 0%nat j t tj eq_refl Hj ltac:(lia)). rewrite Nat.sub_0_r in Hrate.
      unfold seconds, inject_Z, Qle, Qplus, Qmult. cbn [Qnum Qden]. lia. }
  pose proof (Hnow 0%nat t eq_refl) as H1. rewrite Z.sub_diag in H1.
  assert (1 <= tokens (refill q t))%Q as Hone.
  { change (inject_Z (Z.of_nat 0)) with 0%Q in H1. assert (seconds 0 == 0)%Q as Hz by done. rewrite Hz in H1. lra. }
  unfold allow. assert (f_ltb (tokens (refill q t)) (f_of_Z 1) = false) as -> by (by apply q_ltb_le).
  cbn [fst snd capacity rate last tokens]. repeat (split; [done|]). rewrite Hlast. split; [done|]. split.
  - intros i j ti tj Hi Hj Hij. apply (Hrate (S i) (S j) ti tj Hi Hj). lia.
  - intros j tj Hj. specialize (Hnow (S j) tj Hj). cbn [tokens last f_sub q_arith] in *.
    change (f_of_Z 1) with 1%Q. rewrite Nat2Z.inj_succ in Hnow. unfold Z.succ in Hnow. rewrite inject_Z_plus in Hnow.
    change (inject_Z 1) with 1%Q in Hnow. lra.
Qed.

(** ** The read pump without a budget *)

Section relay.
Context `{Json}.

(** What is published of the frames up to the read that fails. *)
Fixpoint unlimited (c : Client) (reads : list (Z * read_result)) : list message :=
  match reads with
  | [] => []
  | (_, ReadError) :: _ => []
  | (_, ReadFrame _ data) :: reads =>
      match parseInbound data with
      | inl _ => unlimited c reads
      | inr i =>
          match encode (stamp (userID c) i) with
          | None => unlimited c reads
          | Some out => mkMessage (roomID c) c (inTo i) out :: unlimited c reads
          end
      end
  end.

Definition is_text (r : Z * read_result) : Prop := match r.2 with ReadFrame text _ => text = true | ReadError => True end.

Lemma readLoop_unlimited c reads k (b : tokenBucket f64) v q :
  covers k b v q -> Sorted Z.le (last q :: (fst <$> reads)) -> keeps_rate (fst <$> reads) -> fits q (fst <$> reads) ->
  (Z.of_nat k + Z.of_nat (length reads) < 2 ^ 40)%Z -> Forall is_text reads ->
  readLoop c b reads = (unlimited c reads, None).
Proof.
  revert k b v q. induction reads as [|[now r] reads IH]; intros k b v q Hcov Hsort Hrate Hfit Hlen Htext; [done|].
  apply Forall_cons in Htext as [Ht Htext]. destruct r as [|text data]; [done|]. unfold is_text in Ht. simpl in Ht. subst.
  cbn [length fmap list_fmap fst] in *.
  pose proof Hcov as (_ & _ & Hc & Hr & _). destruct (exact_allows _ _ Hc Hr Hsort Hrate Hfit) as (Hok & _ & _ & Hs' & Hr' & Hf').
  destruct (allow_covers k b v q now Hcov ltac:(lia) Hok) as [Hb (v' & Hcov')].
  specialize (IH _ _ _ _ Hcov' Hs' Hr' Hf' ltac:(lia) Htext).
  cbn [readLoop unlimited]. unfold readFrame. cbn [negb]. destruct (allow b now) as [ok b'] eqn:E. cbn [fst snd] in *. subst ok.
  cbn [negb]. destruct (parseInbound data) as [e|i]; [done|]. destruct (encode _) as [out|]; [|done]. by rewrite IH.
Qed.

(** C24: computed in binary64 with every rounding counted, the budget is invisible to
    a client that keeps to the rate: one that sends text frames of which any in a row
    are at most 119 and 60 for every second between them is never closed for it, and
    each of its valid messages is relayed, as by a pump without a budget, as long as it
    sends fewer than 2^40. *)
Theorem fair_client_never_cut c start reads :
  Sorted Z.le (start :: (fst <$> reads)) -> keeps_rate (fst <$> reads) -> Forall is_text reads ->
  (Z.of_nat (length reads) < 2 ^ 40)%Z ->
  readPump (F := f64) c start reads = (unlimited c reads, None).
Proof.
  intros Hsort Hrate Htext Hlen. eapply (readLoop_unlimited c reads 0); [apply exact_covers|done|done| |done|done].
  intros j t Hj. cbn [tokens exact_bucket newTokenBucket last].
  destruct (fst <$> reads) as [|t0 ts] eqn:E; [done|]. apply Sorted_inv in Hsort as [_ Hfirst]. apply HdRel_inv in Hfirst.
  specialize (Hrate 0%nat j t0 t eq_refl Hj ltac:(lia)). rewrite Nat.sub_0_r in Hrate.
  unfold seconds, inject_Z, Qle, Qplus, Qmult. cbn [Qnum Qden]. lia.
Qed.
End relay.

(** ** A busy but fair client *)

(** A burst of a hundred messages at once, then sixty a second for a second. *)
Definition chatter : list (Z * read_result) :=
  replicate 100 (0%Z, ReadFrame true "chat  hi") ++
  ((fun n => (Z.of_nat n * 16666667, ReadFrame true "chat  hi")%Z) <$> seq 1 60).

(** [keeps_rate], computed. *)
Definition in_rate (times : list Z) : bool :=
  forallb (fun i => forallb (fun j =>
    match times !! i, times !! j with
    | Some ti, Some tj => negb (i <=? j)%nat || ((Z.of_nat (j - i) + 1 - 119) * 1000000000 <=? 60 * (tj - ti))%Z
    | _, _ => true
    end) (seq 0 (length times))) (seq 0 (length times)).

Lemma in_rate_keeps times : in_rate times = true -> keeps_rate times.
Proof.
  unfold in_rate. rewrite forallb_forall. intros Hall i j ti tj Hi Hj Hij.
  pose proof (lookup_lt_Some _ _ _ Hi). pose proof (lookup_lt_Some _ _ _ Hj).
  specialize (Hall i ltac:(apply in_seq; lia)). rewrite forallb_forall in Hall. specialize (Hall j ltac:(apply in_seq; lia)).
  rewrite Hi, Hj in Hall. apply orb_true_iff in Hall as [Hn|Hle]; [|by apply Z.leb_le].
  apply negb_true_iff, Nat.leb_gt in Hn. lia.
Qed.

Lemma chatter_sorted : Sorted Z.le (0%Z :: (fst <$> chatter)).
Proof. repeat constructor; vm_compute; discriminate. Qed.

Lemma chatter_rate : in_rate (fst <$> chatter) = true.
Proof. vm_compute. reflexivity. Qed.

Lemma chatter_text : Forall is_text chatter.
Proof. apply Forall_app. split; [by apply Forall_replicate|]. apply Forall_fmap, Forall_forall. done. Qed.

Lemma fair_client_never_cut_witness :
  readPump (F := f64) flooder 0 chatter = (unlimited flooder chatter, None) /\ length (unlimited flooder chatter) = 160%nat.
Proof.
  split; [|vm_compute; reflexivity].
  apply (fair_client_never_cut flooder 0 chatter chatter_sorted (in_rate_keeps _ chatter_rate) chatter_text).
  vm_compute. reflexivity.
Defined.
