(* ===== verification/SignalTheorems.v ===== *)
(** * The properties of the signaling system *)

From S2P Require Import Prelude Chan Registry Protocol TokenBucket SignalHub SignalHubFacts SignalClient.

(** ** The invariant of the system *)

Section invariant.
Context `{Json} {F : Type} `{Arith F}.
Variable party : Client -> Prop.

Abbreviation evolve := (evolve party).
Abbreviation views_kept := (views_kept party).
Abbreviation room_views := (room_views party).
Abbreviation join_post := (join_post party).

Record sys_inv (w : state) : Prop := {
  sys_hub : hub_inv w;
  sys_legit : forall c, legit party w c;
  sys_views : JsonLaws -> forall r, room_views r w
}.

Lemma readFrame_publish c (b b' : tokenBucket F) now text data m :
  readFrame c b now text data = (b', Publish m) ->
  msg_sender m = c /\ exists i, parseInbound data = inr i /\ published m i.
Proof.
  unfold readFrame. destruct text; simpl; [|done]. destruct (allow b now) as [ok b1].
  destruct ok; simpl; [|done]. destruct (parseInbound data) as [|i] eqn:Hp; [done|].
  destruct (encode _) eqn:He; [|done]. intros [= <- <-]. split; [done|]. exists i.
  split; [done|]. split; try done. by eapply parseInbound_type.
Qed.

Lemma initial_inv : sys_inv initial.
Proof.
  split.
  - split; done.
  - intros c. exists []. constructor.
  - intros _ r m Hm. unfold in_room, members in Hm. simpl in Hm. rewrite lookup_empty in Hm. set_solver.
Qed.

(** Views in rooms that were not touched. *)
Lemma room_views_same r w w' :
  in_room w' r = in_room w r -> (forall k, k ∈ in_room w r -> log w' k = log w k) ->
  (forall k, k ∈ in_room w r -> roomID k = r) ->
  room_views r w -> room_views r w'.
Proof.
  intros Hr Hl Hrm HV m Hm. rewrite Hr in Hm. destruct (HV m Hm) as (os & Hos & Hv).
  exists os. split; [eapply frames_log, Hos; by apply Hl|].
  rewrite Hv. unfold others. by rewrite (Hrm m Hm), Hr.
Qed.

Lemma evolve_sys r w w' :
  evolve r w w' -> (JsonLaws -> views_kept r w w') -> sys_inv w -> sys_inv w'.
Proof.
  intros He Hv [H1 H2 H3]. split; [apply He|by apply (ev_legit _ _ _ _ He)|].
  intros HL r'. destruct (decide (r' = r)) as [->|Hr].
  - intros m Hm. apply (Hv HL (fun _ => False)); [|done|tauto]. intros k Hk _. by apply (H3 HL r).
  - eapply room_views_same; [by apply (ev_other _ _ _ _ He)|..|by apply (H3 HL)].
    + intros k Hk. apply (ev_log _ _ _ _ He). left. by rewrite (inv_key roomID w H1 r' k Hk).
    + intros k. apply (inv_key roomID w H1).
Qed.

Lemma join_sys c w w' : status w c = None -> join_post c w w' -> sys_inv w -> sys_inv w'.
Proof.
  intros Hs [J Hv] [H1 H2 H3]. split; [apply J|by apply (jc_legit _ _ _ _ J)|].
  intros HL r. destruct (decide (r = roomID c)) as [->|Hr]; [by apply (Hv HL), (H3 HL)|].
  eapply room_views_same; [by apply (jc_other _ _ _ _ J)|..|by apply (H3 HL)].
  - intros k Hk. apply (jc_log _ _ _ _ J).
    + intros ->. by apply (fresh_not_member roomID w c r H1 Hs).
    + left. by rewrite (inv_key roomID w H1 r k Hk).
  - intros k. apply (inv_key roomID w H1).
Qed.

Lemma closed_sys w w' : closed_all w w' -> sys_inv w -> sys_inv w'.
Proof.
  intros Hc [H1 H2 H3]. split; [by eapply closed_all_inv|..].
  - intros c. destruct (H2 c) as [os Hos]. exists os. eapply frames_log, Hos. apply Hc.
  - intros _ r m Hm. rewrite (in_group_empty w') in Hm; [set_solver|]. by rewrite (ca_hub _ _ Hc).
Qed.

(** What handling an event does, event by event. *)
Definition event_post (e : event) (w w' : state) : Prop :=
  match e with
  | Register c => join_post c w w'
  | Unregister c =>
      evolve (roomID c) w w' /\ c ∉ in_room w' (roomID c) /\ (JsonLaws -> views_kept (roomID c) w w')
  | Broadcast m =>
      evolve (msg_room m) w w' /\ reached (msg_room m) (deliver_skip m) (msg_data m) w w' /\
      (JsonLaws -> views_kept (msg_room m) w w')
  | Cancelled => closed_all w w'
  end.

(** Who takes part: those already connected, and the one that is registered. *)
Definition parties (e : event) (w : state) : Prop :=
  forall k, status w k ≠ None \/ e = Register k -> party k.

Lemma parties_made e w r : hub_inv w -> parties e w -> made party r w.
Proof.
  intros Hw Hp k Hk. apply Hp. left. destruct (inv_member roomID w r k Hw Hk) as [_ ->]. done.
Qed.

Lemma wp_handle sc e w :
  hub_inv w -> admissible (F := F) w e -> parties e w ->
  wp (handle sc e) (fun _ w' =>
    if stopped (hub w) then w' = w else event_post e w w') w.
Proof.
  intros Hw Hadm Hp. unfold handle. rewrite wp_bind, wp_get.
  destruct (stopped (hub w)) eqn:Hst; [by apply wp_ret|].
  pose proof (parties_made e w) as Hmade.
  destruct Hadm as [c Hs|c Hs|c b b' now text data m Hs Hm|]; simpl.
  - apply (wp_join party); [done..| | |done]; [apply Hp; by right|by apply Hmade].
  - rewrite wp_bind. eapply wp_mono; [by apply (leave_ok party sc (S (size (in_room w (roomID c))))); [|apply Hmade|lia]|].
    intros b w' (He & Hout & _ & Hv). by apply wp_ret.
  - destruct (readFrame_publish c b b' now text data m Hm) as (Hsender & i & _ & Hpub).
    eapply (wp_deliver party); [done|exact Hpub|by apply Hmade|rewrite Hsender; apply Hp; by left|]. by intros.
  - by eapply wp_close_all.
Qed.

Lemma event_sys sc e w w' :
  admissible (F := F) w e -> parties e w -> sys_inv w -> handle sc e w = Ok (tt, w') -> sys_inv w'.
Proof.
  intros Hadm Hp Hw Hok. pose proof (wp_handle sc e w (sys_hub w Hw) Hadm Hp) as Hpost.
  unfold wp in Hpost. rewrite Hok in Hpost. destruct (stopped (hub w)); [by subst|].
  destruct Hadm as [c Hs|c Hs|c b b' now text data m Hs Hm|]; simpl in Hpost.
  - by eapply join_sys.
  - destruct Hpost as (? & _ & ?). by eapply evolve_sys.
  - destruct Hpost as (? & _ & ?). by eapply evolve_sys.
  - by eapply closed_sys.
Qed.

Lemma write_sys c w : sys_inv w -> sys_inv (set_chans (alter ch_take c (chans w)) w).
Proof.
  intros [H1 H2 H3]. pose proof (drained_log _ _ (write_drained c w)) as Hl.
  split; [by apply write_inv|..].
  - intros k. destruct (H2 k) as [os Hos]. exists os. by eapply frames_log, Hos.
  - intros HL r m Hm. destruct (H3 HL r m Hm) as (os & Hos & Hv). exists os.
    split; [by eapply frames_log, Hos|done].
Qed.

(** Once connected, always known. *)
Lemma handle_made sc e w w' :
  hub_inv w -> admissible (F := F) w e -> parties e w -> handle sc e w = Ok (tt, w') ->
  stopped (hub w) = true /\ w' = w \/ forall k, status w k ≠ None \/ e = Register k -> status w' k ≠ None.
Proof.
  intros Hw Hadm Hp Hok. pose proof (wp_handle sc e w Hw Hadm Hp) as Hpost.
  unfold wp in Hpost. rewrite Hok in Hpost. destruct (stopped (hub w)); [by left|right].
  destruct Hadm as [c Hs|c Hs|c b b' now text data m Hs Hm|]; simpl in Hpost; intros k Hk.
  - destruct Hpost as [J _]. apply (jc_made _ _ _ _ J). destruct Hk as [Hk|[= ->]]; auto.
  - destruct Hpost as (He & _). apply (ev_made _ _ _ _ He). by destruct Hk.
  - destruct Hpost as (He & _). apply (ev_made _ _ _ _ He). by destruct Hk.
  - rewrite (ca_status _ _ Hpost). destruct Hk as [Hk|]; [|done]. by destruct (status w k).
Qed.
End invariant.

Section system.
Context `{Json} {F : Type} `{Arith F}.

(** Every client. *)
Abbreviation anyone := (fun _ : Client => True).

Lemma reachable_inv w : reachable (F := F) w -> sys_inv anyone w.
Proof.
  induction 1 as [|w w' _ IH Hstep]; [apply initial_inv|].
  destruct Hstep as [sc c w w' Hs Hok|sc c w w' Hs Hok|sc c b b' now text data m w w' Hs Hm Hok|c w|sc w w' Hok];
    [eapply (event_sys (F := F)); [| |exact IH|exact Hok]; [by econstructor|done]..|by apply write_sys|].
  eapply (event_sys (F := F)); [|done|exact IH|exact Hok]. constructor.
Qed.

(** The clients that were ever connected. *)
Definition was_connected (w : state) (k : Client) : Prop := status w k ≠ None.

(** The same when only those take part who are connected in the end. *)
Lemma reachable_parties party w :
  reachable (F := F) w -> (forall k, was_connected w k -> party k) -> sys_inv party w.
Proof.
  intros Hw. induction Hw as [|w w' Hw IH Hstep]; intros Hparty; [apply initial_inv|].
  pose proof (sys_hub _ w (reachable_inv w Hw)) as Hi.
  assert (forall sc e, admissible (F := F) w e -> handle sc e w = Ok (tt, w') -> sys_inv party w') as Hev.
  { intros sc e Hadm Hok.
    destruct (handle_made (F := F) anyone sc e w w' Hi Hadm) as [[_ ->]|Hmade]; [done|done|by apply IH|].
    eapply (event_sys (F := F)); [exact Hadm| | |exact Hok]; [intros k Hk|apply IH; intros k Hk];
      apply Hparty, Hmade; auto. }
  destruct Hstep as [sc c w w' Hs Hok|sc c w w' Hs Hok|sc c b b' now text data m w w' Hs Hm Hok|c w|sc w w' Hok].
  - eapply Hev, Hok. by constructor.
  - eapply Hev, Hok. by constructor.
  - eapply Hev, Hok. by econstructor.
  - apply write_sys, IH. intros k Hk. apply Hparty. unfold was_connected.
    by rewrite (drained_status _ _ (write_drained c w)).
  - eapply Hev, Hok. constructor.
Qed.

Lemma wp_event sc e w :
  hub_inv w -> admissible (F := F) w e ->
  wp (handle sc e) (fun _ w' => if stopped (hub w) then w' = w else event_post anyone e w w') w.
Proof. intros Hw Hadm. by apply (wp_handle (F := F) anyone). Qed.

Lemma event_inv sc e w w' :
  admissible (F := F) w e -> sys_inv anyone w -> handle sc e w = Ok (tt, w') -> sys_inv anyone w'.
Proof. intros Hadm. by apply (event_sys (F := F) anyone). Qed.

(** ** Properties *)

(** C5: in every reachable state of the signaling system the hub handles every
    event it can receive to completion: it never sends on or closes a closed
    channel, its eviction recursion terminates, and its invariant holds again. *)
Theorem signal_events_succeed sc e w :
  reachable (F := F) w -> admissible (F := F) w e ->
  exists w', handle sc e w = Ok (tt, w') /\ hub_inv w'.
Proof.
  intros Hw Hadm. apply reachable_inv in Hw.
  destruct (wp_run _ _ _ (wp_event sc e w (sys_hub _ w Hw) Hadm)) as ([] & w' & Hok & _).
  exists w'. split; [done|]. apply (event_inv sc e w w'); done.
Qed.

(** C10: presence is accurate: whatever was evicted and however slowly clients
    read, folding the frames a member has been sent gives exactly the other
    members of its room. *)
Theorem presence_accurate `{!JsonLaws} w r c :
  reachable (F := F) w -> c ∈ in_room w r ->
  exists os, Forall2 (fun f o => encode o = Some f) (log w c) os /\
    view os ≡ₚ peer_of <$> elements (in_room w r ∖ {[c]}).
Proof.
  intros Hw Hc. apply reachable_inv in Hw. destruct (sys_views _ w Hw _ r c Hc) as (os & Hos & Hv).
  exists os. unfold others in Hv. rewrite (inv_key roomID w (sys_hub _ w Hw) r c Hc) in Hv.
  split; [|done]. eapply Forall2_impl; [exact Hos|]. by intros f o [? _].
Qed.

(** What a client is sent comes from those who take part. *)
Lemma frames_origin party w c f :
  reachable (F := F) w -> (forall k, was_connected w k -> party k) -> f ∈ log w c ->
  exists o, encode o = Some f /\ origin party c o.
Proof.
  intros Hw Hparty Hf. apply (reachable_parties party) in Hw; [|done].
  destruct (sys_legit _ w Hw c) as [os Hos].
  apply list_elem_of_lookup in Hf as [i Hi].
  destruct (Forall2_lookup_l _ _ _ _ _ Hos Hi) as (o & _ & Ho). by exists o.
Qed.

(** C7: no client can pose as another: every frame a client was ever sent is a
    presence frame of the hub about clients of its room that were connected, or the
    relay of a message of a permitted type from another such client, addressed to
    it or to everybody, whose [from] is the user id of that client's connection. *)
Theorem frames_not_forged w c f :
  reachable (F := F) w -> f ∈ log w c ->
  exists o, encode o = Some f /\ origin (was_connected w) c o.
Proof. intros Hw. by apply frames_origin. Qed.

Definition event_room (e : event) : option string :=
  match e with
  | Register c | Unregister c => Some (roomID c)
  | Broadcast m => Some (msg_room m)
  | Cancelled => None
  end.

(** Rooms are isolated: an event of one room sends nothing to the clients of
    any other room, evicts none of them and leaves their membership as it is. *)
Theorem rooms_isolated sc e r w w' k :
  reachable (F := F) w -> admissible (F := F) w e -> event_room e = Some r ->
  handle sc e w = Ok (tt, w') -> roomID k ≠ r ->
  log w' k = log w k /\ in_room w' (roomID k) = in_room w (roomID k) /\
  (status w' k = Some false <-> status w k = Some false).
Proof.
  intros Hw Hadm Her Hok Hk. apply reachable_inv in Hw.
  pose proof (sys_hub _ w Hw) as Hi. pose proof (event_inv sc e w w' Hadm Hw Hok) as Hw'.
  enough (log w' k = log w k /\ in_room w' (roomID k) = in_room w (roomID k)) as [Hl Hin].
  { split; [done|]. split; [done|]. rewrite <- (inv_open roomID w Hi), <- (inv_open roomID w' (sys_hub _ w' Hw')).
    by rewrite Hin. }
  pose proof (wp_event sc e w Hi Hadm) as Hpost. unfold wp in Hpost. rewrite Hok in Hpost.
  destruct (stopped (hub w)); [by subst|].
  destruct e as [c|c|m|]; simpl in *; simplify_eq.
  - destruct Hpost as [J _]. split; [|by apply (jc_other _ _ _ _ J)].
    apply (jc_log _ _ _ _ J); [by intros ->|by left].
  - destruct Hpost as (He & _). split; [apply (ev_log _ _ _ _ He); by left|by apply (ev_other _ _ _ _ He)].
  - destruct Hpost as (He & _). split; [apply (ev_log _ _ _ _ He); by left|by apply (ev_other _ _ _ _ He)].
Qed.

(** A client that could not take a relayed message is evicted rather than
    left with a gap: after a broadcast every client still in the room, other
    than the sender and those it was not addressed to, has been sent it. *)
Theorem broadcast_reaches_members sc m w w' k :
  reachable (F := F) w -> admissible (F := F) w (Broadcast m) -> stopped (hub w) = false ->
  handle sc (Broadcast m) w = Ok (tt, w') ->
  k ∈ in_room w' (msg_room m) -> k ≠ msg_sender m -> (msg_to m = "" \/ userID k = msg_to m) ->
  (log w k ++ [msg_data m]) `prefix_of` log w' k.
Proof.
  intros Hw Hadm Hst Hok Hk Hne Hto. apply reachable_inv in Hw.
  pose proof (wp_event sc _ w (sys_hub _ w Hw) Hadm) as Hpost. unfold wp in Hpost.
  rewrite Hok, Hst in Hpost. destruct Hpost as (He & Hre & _).
  destruct (Hre k) as [?|[_ Hout]]; [by apply (ev_sub _ _ _ _ He)| |done|done].
  unfold deliver_skip. rewrite bool_decide_eq_false_2 by done. simpl.
  apply bool_decide_eq_false. naive_solver.
Qed.

(** Whom a broadcast does not reach it evicts. *)
Lemma broadcast_or_evict sc m w w' k :
  sys_inv anyone w -> admissible (F := F) w (Broadcast m) -> stopped (hub w) = false ->
  handle sc (Broadcast m) w = Ok (tt, w') ->
  k ∈ in_room w (msg_room m) -> deliver_skip m k = false ->
  (log w k ++ [msg_data m]) `prefix_of` log w' k \/
  room_left w k = 0 /\ k ∉ in_room w' (msg_room m) /\ status w' k = Some true.
Proof.
  intros Hw Hadm Hst Hok Hk Hskip. pose proof (sys_hub _ w Hw) as Hi.
  pose proof (wp_event sc _ w Hi Hadm) as Hpost. unfold wp in Hpost.
  rewrite Hok, Hst in Hpost. destruct Hpost as (He & Hre & _).
  destruct (Hre k Hk Hskip) as [?|[Hfull Hout]]; [by left|right]. split; [done|]. split; [done|].
  destruct (inv_member roomID w _ k Hi Hk) as [Hr Hs].
  assert (status w' k <> None) as Hmade by (apply (ev_made _ _ _ _ He); congruence).
  destruct (status w' k) as [[|]|] eqn:E; [done| |done].
  apply (inv_open roomID w' (ev_inv _ _ _ _ He)) in E. by rewrite Hr in E.
Qed.

(** C13: a broadcast leaves nobody with a gap: every member of the room it is
    addressed to, other than the sender, is sent the frame next after all it was sent
    before, or had no room for it and is then out of the room, its channel closed. When
    all members have room, those it is addressed to are sent exactly the frame, and
    nothing else changes. *)
Theorem broadcast_exact sc m w :
  reachable (F := F) w -> stopped (hub w) = false ->
  (forall w' k, admissible (F := F) w (Broadcast m) -> handle sc (Broadcast m) w = Ok (tt, w') ->
    k ∈ in_room w (msg_room m) -> deliver_skip m k = false ->
    (log w k ++ [msg_data m]) `prefix_of` log w' k \/
    room_left w k = 0 /\ k ∉ in_room w' (msg_room m) /\ status w' k = Some true) /\
  ((forall k, k ∈ in_room w (msg_room m) -> 0 < room_left w k) ->
   exists w', handle sc (Broadcast m) w = Ok (tt, w') /\ hub w' = hub w /\
    (forall k, status w' k = status w k) /\
    (forall k, log w' k = log w k ++
       (if bool_decide (k ∈ in_room w (msg_room m)) && negb (deliver_skip m k) then [msg_data m] else []))).
Proof.
  intros Hw Hst. apply reachable_inv in Hw. pose proof (sys_hub _ w Hw) as Hi.
  split; [intros w' k Hadm Hok; by eapply broadcast_or_evict|]. intros Hroom.
  enough (wp (handle sc (Broadcast m)) (fun _ w' => hub w' = hub w /\
    (forall k, status w' k = status w k) /\
    (forall k, log w' k = log w k ++
       (if bool_decide (k ∈ in_room w (msg_room m)) && negb (deliver_skip m k) then [msg_data m] else []))) w) as Hwp.
  { destruct (wp_run _ _ _ Hwp) as ([] & w' & Hok & H'). by exists w'. }
  unfold handle. rewrite wp_bind, wp_get, Hst. unfold deliver. rewrite wp_bind, wp_get, wp_bind.
  apply wp_range. intros l w0 Hl Hc0 Hh0. rewrite wp_bind.
  assert (forall k, k ∈ l <-> k ∈ in_room w (msg_room m)) as Hin by (intros k; rewrite Hl; apply elem_of_elements).
  apply (wp_fanout sc l (deliver_skip m) (msg_data m)).
  - rewrite Hl. apply NoDup_elements.
  - intros k. apply deliver_body.
  - intros k. apply deliver_body.
  - intros k Hk _. unfold status. rewrite Hc0. by apply (inv_member roomID w (msg_room m) k Hi), Hin.
  - intros acc w1 [F1 F2 F3 F4 F5 _]. destruct acc as [|x acc].
    2:{ destruct (F5 x) as (Hx & _ & Hz); [by left|]. unfold room_left in Hz. rewrite Hc0 in Hz.
        specialize (Hroom x). rewrite Hin in Hx. unfold room_left in Hroom. specialize (Hroom Hx). lia. }
    apply wp_ret. split; [congruence|]. split.
    + intros k. rewrite F2. unfold status. by rewrite Hc0.
    + intros k. assert (log w0 k = log w k) as <- by (unfold log; by rewrite Hc0).
      destruct (bool_decide (k ∈ in_room w (msg_room m))) eqn:E1; simpl.
      * apply bool_decide_eq_true in E1. destruct (deliver_skip m k) eqn:E2; simpl.
        -- rewrite app_nil_r. apply F4. auto.
        -- apply F3; [by apply Hin|done|]. by intros ?%elem_of_nil.
      * apply bool_decide_eq_false in E1. rewrite app_nil_r. apply F4. left. by rewrite Hin.
Qed.

(** Leaving is idempotent: a second drop of the same client reports false
    and changes nothing, so its channel is closed exactly once. *)
Theorem leave_idempotent sc c w b w' :
  reachable (F := F) w -> leave sc c w = Ok (b, w') ->
  b = bool_decide (c ∈ in_room w (roomID c)) /\ leave sc c w' = Ok (false, w').
Proof.
  intros Hw Hok. apply reachable_inv in Hw.
  pose proof (leave_ok anyone sc (S (size (in_room w (roomID c)))) c w (sys_hub _ w Hw) (fun _ _ => I) ltac:(lia)) as Hpost.
  unfold wp in Hpost. rewrite Hok in Hpost. destruct Hpost as (He & Hout & -> & _). split; [done|].
  unfold leave. rewrite Nat.add_1_r. simpl. unfold st_bind, st_get. by rewrite decide_False.
Qed.

(** The client counter is the number of members across all rooms. *)
Theorem client_count_exact w :
  reachable (F := F) w -> (Z.of_nat (group_total (groups (hub w))) < 2 ^ 63)%Z ->
  ClientCount w = Ok (Z.of_nat (group_total (groups (hub w))), w).
Proof.
  intros Hw Hlt. apply reachable_inv in Hw. unfold ClientCount, st_bind, st_get, st_ret.
  by rewrite (inv_count roomID w (sys_hub _ w Hw)), wrap64_small by lia.
Qed.

(** A client's first frame is its welcome, which lists exactly the members
    its room had before it. *)
Theorem welcome_first `{!JsonLaws} sc c w w' :
  reachable (F := F) w -> stopped (hub w) = false -> status w c = None ->
  handle sc (Register c) w = Ok (tt, w') ->
  exists ps frame, ps ≡ₚ peer_of <$> elements (in_room w (roomID c)) /\
    encode (welcome_frame (userID c) ps) = Some frame /\ [frame] `prefix_of` log w' c.
Proof.
  intros Hw Hst Hs Hok. apply reachable_inv in Hw.
  pose proof (wp_event sc _ w (sys_hub _ w Hw) (adm_register w c Hs)) as Hpost. unfold wp in Hpost.
  rewrite Hok, Hst in Hpost. destruct Hpost as [_ HL]. destruct (HL _) as [(l & frame & Hl & He & Hp) _].
  exists (peer_of <$> l), frame. split; [by apply fmap_Permutation|done].
Qed.

(** C40: shutting the hub down closes every channel ever made, so every write
    pump ends, and afterwards no event changes anything. *)
Theorem shutdown_closes_everything sc e w w' :
  reachable (F := F) w -> stopped (hub w) = false -> handle sc Cancelled w = Ok (tt, w') ->
  (forall c, status w c ≠ None -> status w' c = Some true) /\
  (forall c, log w' c = log w c) /\ ClientCount w' = Ok (0%Z, w') /\
  handle sc e w' = Ok (tt, w').
Proof.
  intros Hw Hst Hok. apply reachable_inv in Hw.
  pose proof (wp_event sc _ w (sys_hub _ w Hw) (adm_cancelled w)) as Hpost. unfold wp in Hpost.
  rewrite Hok, Hst in Hpost. destruct Hpost as [Hh _ Hl Hs].
  split; [|split; [done|]].
  - intros c Hc. rewrite Hs. by destruct (status w c).
  - unfold ClientCount, handle, st_bind, st_get, st_ret. by rewrite Hh.
Qed.

(** A client whose channel was closed is gone for good: no step of the
    system reopens the channel or sends it another frame. *)
Theorem closed_is_final w w' c :
  reachable (F := F) w -> step (F := F) w w' -> status w c = Some true ->
  status w' c = Some true /\ log w' c = log w c.
Proof.
  intros Hw Hstep Hc. apply reachable_inv in Hw. pose proof (sys_hub _ w Hw) as Hi.
  assert (c ∉ in_room w (roomID c)) as Hout.
  { intros Hin. apply (inv_open roomID w Hi) in Hin. congruence. }
  enough (forall sc e, admissible (F := F) w e -> handle sc e w = Ok (tt, w') ->
            status w' c = Some true /\ log w' c = log w c) as Hev.
  { destruct Hstep as [sc k w w' Hs Hok|sc k w w' Hs Hok|sc k b b' now text data m w w' Hs Hm Hok|k w|sc w w' Hok].
    - by apply (Hev sc (Register k)); [constructor|].
    - by apply (Hev sc (Unregister k)); [constructor|].
    - apply (Hev sc (Broadcast m)); [by econstructor|done].
    - split; [by rewrite (drained_status _ _ (write_drained k w))|apply (drained_log _ _ (write_drained k w))].
    - by apply (Hev sc Cancelled); [constructor|]. }
  intros sc e Hadm Hok. pose proof (wp_event sc e w Hi Hadm) as Hpost. unfold wp in Hpost.
  rewrite Hok in Hpost. destruct (stopped (hub w)); [by subst|].
  destruct Hadm as [k Hs|k Hs|k b b' now text data m Hs Hm|]; simpl in Hpost.
  - destruct Hpost as [J _]. assert (c ≠ k) by congruence.
    rewrite (jc_status _ _ _ _ J), (jc_log _ _ _ _ J) by auto. done.
  - destruct Hpost as (He & _). rewrite (ev_status _ _ _ _ He), (ev_log _ _ _ _ He) by auto. done.
  - destruct Hpost as (He & _). rewrite (ev_status _ _ _ _ He), (ev_log _ _ _ _ He) by auto. done.
  - destruct Hpost as [_ _ Hl Hs]. rewrite Hs, Hc. done.
Qed.
End system.

(** ** A concrete run

    Two clients of one room and one of another, evaluated with the line codec. *)

Definition alice : Client := mkClient 1 "1" "u-alice" "Alice" "room-a".
Definition bob : Client := mkClient 2 "2" "u-bob" "Bob" "room-a".
Definition carol : Client := mkClient 3 "3" "u-carol" "Carol" "room-b".

(** The state after an event, under the schedule that walks maps in key order. *)
Definition after (e : event) (w : state) : state :=
  match handle (idle_sched Client) e w with
  | Ok (_, w') => w'
  | _ => w
  end.

Lemma after_ok e w :
  (if handle (idle_sched Client) e w is Ok _ then true else false) = true ->
  handle (idle_sched Client) e w = Ok (tt, after e w).
Proof. unfold after. by destruct (handle _ _ _) as [[[] w']| |]. Qed.

Definition demo1 : state := after (Register alice) initial.
Definition demo2 : state := after (Register bob) demo1.
Definition demo3 : state := after (Register carol) demo2.

Definition hello : message := mkMessage "room-a" alice "" "chat u-alice hello".

Definition demo_bucket : tokenBucket f64 := connection_bucket 0.

Lemma demo1_reachable : reachable (F := f64) demo1.
Proof.
  apply (reach_step initial); [constructor|].
  apply (step_connect (idle_sched _) alice); [|apply after_ok]; vm_compute; reflexivity.
Qed.

Lemma demo2_reachable : reachable (F := f64) demo2.
Proof.
  apply (reach_step demo1); [apply demo1_reachable|].
  apply (step_connect (idle_sched _) bob); [|apply after_ok]; vm_compute; reflexivity.
Qed.

Lemma demo3_reachable : reachable (F := f64) demo3.
Proof.
  apply (reach_step demo2); [apply demo2_reachable|].
  apply (step_connect (idle_sched _) carol); [|apply after_ok]; vm_compute; reflexivity.
Qed.

Lemma hello_admissible : admissible (F := f64) demo3 (Broadcast hello).
Proof.
  eapply (adm_broadcast _ alice demo_bucket _ 0 true "chat  hello"); [vm_compute; discriminate|].
  vm_compute. reflexivity.
Qed.

(** What the first two clients have been sent after three arrivals and a chat. *)
Example demo_frames :
  let w := after (Broadcast hello) demo3 in
  log w alice = ["welcome u-alice "; "peer-joined u-bob Bob"] /\
  log w bob = ["welcome u-bob Alice"; "chat u-alice hello"] /\
  log w carol = ["welcome u-carol "].
Proof. vm_compute. done. Qed.

Lemma signal_events_succeed_witness :
  exists w', handle (idle_sched _) (Broadcast hello) demo3 = Ok (tt, w') /\ hub_inv w'.
Proof. apply (signal_events_succeed (F := f64)); [exact demo3_reachable|exact hello_admissible]. Defined.

Lemma presence_accurate_witness :
  exists os, Forall2 (fun f o => encode o = Some f) (log demo3 alice) os /\
    view os ≡ₚ peer_of <$> elements (in_room demo3 "room-a" ∖ {[alice]}).
Proof. apply (presence_accurate (F := f64)); [exact demo3_reachable|vm_compute; reflexivity]. Defined.

Lemma frames_not_forged_witness :
  exists o, encode o = Some "peer-joined u-bob Bob" /\ origin (was_connected demo3) alice o.
Proof.
  apply (frames_not_forged (F := f64) demo3 alice); [exact demo3_reachable|].
  vm_compute. right. left.
Defined.

Lemma rooms_isolated_witness :
  log (after (Broadcast hello) demo3) carol = log demo3 carol /\
  in_room (after (Broadcast hello) demo3) "room-b" = in_room demo3 "room-b" /\
  (status (after (Broadcast hello) demo3) carol = Some false <-> status demo3 carol = Some false).
Proof.
  apply (rooms_isolated (F := f64) (idle_sched _) (Broadcast hello) "room-a" demo3 _ carol);
    [exact demo3_reachable|exact hello_admissible|reflexivity|apply after_ok; vm_compute; reflexivity|discriminate].
Defined.

Lemma broadcast_reaches_members_witness :
  (log demo3 bob ++ ["chat u-alice hello"]) `prefix_of` log (after (Broadcast hello) demo3) bob.
Proof.
  apply (broadcast_reaches_members (F := f64) (idle_sched _) hello demo3 (after (Broadcast hello) demo3) bob);
    [exact demo3_reachable|exact hello_admissible|vm_compute; reflexivity|
     apply after_ok; vm_compute; reflexivity|vm_compute; reflexivity|discriminate|left; reflexivity].
Defined.

(** Alice says hello until the buffer of Bob, who does not read, is full. *)
Fixpoint chats (n : nat) : state := match n with 0 => demo3 | S n => after (Broadcast hello) (chats n) end.

Lemma after_event e w : reachable (F := f64) w -> admissible (F := f64) w e -> handle (idle_sched _) e w = Ok (tt, after e w).
Proof.
  intros Hw Hadm. apply after_ok.
  destruct (wp_run _ _ _ (wp_event (idle_sched _) e w (sys_hub _ w (reachable_inv w Hw)) Hadm)) as ([] & w' & -> & _). done.
Qed.

Lemma chats_admissible w : was_connected w alice -> admissible (F := f64) w (Broadcast hello).
Proof. intros Hw. eapply (adm_broadcast _ alice demo_bucket _ 0 true "chat  hello"); [exact Hw|]. vm_compute. reflexivity. Qed.

Lemma chats_reachable n : reachable (F := f64) (chats n) /\ was_connected (chats n) alice.
Proof.
  induction n as [|n [IH Ha]]; [split; [exact demo3_reachable|vm_compute; discriminate]|].
  pose proof (chats_admissible _ Ha) as Hadm. pose proof (after_event _ _ IH Hadm) as Hok. cbn [chats]. split.
  - eapply reach_step; [exact IH|]. inversion Hadm; subst. by eapply step_publish.
  - destruct (handle_made (F := f64) (fun _ => True) (idle_sched _) _ _ _ (sys_hub _ _ (reachable_inv _ IH)) Hadm (fun _ _ => I) Hok)
      as [[_ ->]|Hmade]; [exact Ha|]. apply Hmade. by left.
Qed.

Lemma broadcast_exact_witness :
  (exists w', handle (idle_sched _) (Broadcast hello) demo3 = Ok (tt, w') /\ hub w' = hub demo3 /\
    (forall k, status w' k = status demo3 k) /\
    (forall k, log w' k = log demo3 k ++
       (if bool_decide (k ∈ in_room demo3 "room-a") && negb (deliver_skip hello k)
        then ["chat u-alice hello"] else []))) /\
  room_left (chats 63) bob = 0 /\
  ((log (chats 63) bob ++ ["chat u-alice hello"]) `prefix_of` log (chats 64) bob \/
   room_left (chats 63) bob = 0 /\ bob ∉ in_room (chats 64) "room-a" /\ status (chats 64) bob = Some true).
Proof.
  split; [|split; [vm_compute; reflexivity|]].
  - apply (broadcast_exact (F := f64) (idle_sched _) hello demo3); [exact demo3_reachable|vm_compute; reflexivity|].
    intros k Hk. assert (in_room demo3 (msg_room hello) = {[alice; bob]}) as Hr
      by (refine (bool_decide_eq_true_1 _ _); vm_compute; reflexivity).
    rewrite Hr in Hk. apply elem_of_union in Hk as [ ->%elem_of_singleton | ->%elem_of_singleton]; vm_compute; lia.
  - assert (forall n, stopped (hub (chats n)) = false -> bob ∈ in_room (chats n) "room-a" ->
      (log (chats n) bob ++ ["chat u-alice hello"]) `prefix_of` log (chats (S n)) bob \/
      room_left (chats n) bob = 0 /\ bob ∉ in_room (chats (S n)) "room-a" /\ status (chats (S n)) bob = Some true) as Hsteps.
    { intros n Hst Hin. destruct (chats_reachable n) as [Hr Ha].
      apply (proj1 (broadcast_exact (F := f64) (idle_sched _) hello (chats n) Hr Hst) (chats (S n)) bob);
        [by apply chats_admissible|by apply after_event, chats_admissible|exact Hin|vm_compute; reflexivity]. }
    apply (Hsteps 63); vm_compute; reflexivity.
Defined.

Lemma leave_idempotent_witness :
  match leave (idle_sched _) alice demo2 with
  | Ok (b, w') => b = true /\ leave (idle_sched _) alice w' = Ok (false, w')
  | _ => False
  end.
Proof.
  assert ((if leave (idle_sched _) alice demo2 is Ok _ then true else false) = true) as Hok
    by (vm_compute; reflexivity).
  destruct (leave (idle_sched _) alice demo2) as [[b w']| |] eqn:E; [|discriminate Hok..].
  apply (leave_idempotent (F := f64)) in E; [|exact demo2_reachable].
  destruct E as [-> E]. split; [vm_compute; reflexivity|exact E].
Defined.

Lemma client_count_exact_witness : ClientCount demo3 = Ok (3%Z, demo3).
Proof. apply (client_count_exact (F := f64)); [exact demo3_reachable|vm_compute; reflexivity]. Defined.

Lemma welcome_first_witness :
  exists ps frame, ps ≡ₚ peer_of <$> elements (in_room demo1 "room-a") /\
    encode (welcome_frame "u-bob" ps) = Some frame /\ [frame] `prefix_of` log demo2 bob.
Proof.
  apply (welcome_first (F := f64) (idle_sched _) bob demo1 demo2);
    [exact demo1_reachable|vm_compute; reflexivity..|apply after_ok; vm_compute; reflexivity].
Defined.

Lemma shutdown_closes_everything_witness :
  let w' := after Cancelled demo3 in
  (forall c, status demo3 c ≠ None -> status w' c = Some true) /\
  (forall c, log w' c = log demo3 c) /\ ClientCount w' = Ok (0%Z, w') /\
  handle (idle_sched _) (Register bob) w' = Ok (tt, w').
Proof.
  apply (shutdown_closes_everything (F := f64));
    [exact demo3_reachable|vm_compute; reflexivity|apply after_ok; vm_compute; reflexivity].
Defined.

Definition demo4 : state := after (Unregister alice) demo3.

Lemma demo4_reachable : reachable (F := f64) demo4.
Proof.
  apply (reach_step demo3); [apply demo3_reachable|].
  apply (step_disconnect (idle_sched _) alice); [vm_compute; discriminate|].
  apply after_ok; vm_compute; reflexivity.
Qed.

Lemma closed_is_final_witness :
  let w' := after (Unregister bob) demo4 in
  status w' alice = Some true /\ log w' alice = log demo4 alice.
Proof.
  apply (closed_is_final (F := f64)); [exact demo4_reachable| |vm_compute; reflexivity].
  apply (step_disconnect (idle_sched _) bob); [vm_compute; discriminate|].
  apply after_ok; vm_compute; reflexivity.
Defined.
