(* ===== verification/Rendezvous.v ===== *)
(** * The goroutines around the signaling hub

    [Run] of [src/internal/signaling/hub.go] and the goroutines that call [add],
    [drop] and [publish], channel by channel: the channels of the hub are unbuffered,
    so a call is handed over only while [Run] is in its select; the caller goes on
    before the event is handled; after [Run] has closed [done] the calls return by
    themselves, and [ServeHTTP] of [src/internal/signaling/client.go] turns its client
    away.

    The relation [step] of [SignalClient.v] takes each event as one step. Here that is
    shown to be right: whatever the goroutines do, the hub goes through the states of
    [step]. *)

From S2P Require Import Prelude Chan Registry Protocol TokenBucket SignalHub SignalHubFacts SignalClient SignalTheorems.

Inductive call :=
| Add (c : Client)
| Drop (c : Client)
| Publish_ (m : message).

(** What [Run] receives. *)
Definition call_event (k : call) : event :=
  match k with Add c => Register c | Drop c => Unregister c | Publish_ m => Broadcast m end.

(** Where [Run] is: in its select; handling an event; in its deferred calls; returned,
    with [done] closed. *)
Inductive run_at :=
| Selecting
| Handling (e : event)
| Stopping
| Returned.

Record net := mkNet {
  at_hub : state;                (* what the hub owns, and the send channels *)
  at_run : run_at;
  cancelled : bool;              (* the context of [Run] *)
  calls : gmap positive call;    (* what the goroutines are waiting to hand over *)
  tried : gset Client;           (* those for which [add] was called *)
  added : gset Client;           (* those for which it returned true *)
  refused : gmap Client ws_write (* those for which it returned false, with what they were sent *)
}.

Definition quiet : net := mkNet SignalHub.initial Selecting false ∅ ∅ ∅ ∅.

Definition joined_by (k : call) (s : gset Client) : gset Client := match k with Add c => {[c]} ∪ s | _ => s end.

(** What [ServeHTTP] does when [add] returns false: it refuses the connection politely,
    and starts no pumps. *)
Definition refusal : ws_write := WriteClose CloseGoingAway "server shutting down".

Definition refused_by (k : call) (m : gmap Client ws_write) : gmap Client ws_write :=
  match k with Add c => <[c := refusal]> m | _ => m end.

Section net.
Context `{Json} {F : Type} `{Arith F}.

(** A goroutine makes a call: [ServeHTTP] once for its client, the pumps of a client
    only after [add] has returned true. *)
Inductive call_starts : net -> net -> Prop :=
| start_add g c n :
    calls n !! g = None -> c ∉ tried n ->
    call_starts n (mkNet (at_hub n) (at_run n) (cancelled n) (<[g := Add c]> (calls n)) ({[c]} ∪ tried n) (added n) (refused n))
| start_drop g c n :
    calls n !! g = None -> c ∈ added n ->
    call_starts n (mkNet (at_hub n) (at_run n) (cancelled n) (<[g := Drop c]> (calls n)) (tried n) (added n) (refused n))
| start_publish g c budget budget' now text data m n :
    calls n !! g = None -> c ∈ added n ->
    readFrame (F := F) c budget now text data = (budget', Publish m) ->
    call_starts n (mkNet (at_hub n) (at_run n) (cancelled n) (<[g := Publish_ m]> (calls n)) (tried n) (added n) (refused n)).

(** [Run], and the selects of the callers. *)
Inductive run_step : net -> net -> Prop :=
| run_receive g k n :
    at_run n = Selecting -> calls n !! g = Some k ->
    run_step n (mkNet (at_hub n) (Handling (call_event k)) (cancelled n) (delete g (calls n)) (tried n) (joined_by k (added n)) (refused n))
| run_handle sc e h n :
    at_run n = Handling e -> handle sc e (at_hub n) = Ok (tt, h) ->
    run_step n (mkNet h Selecting (cancelled n) (calls n) (tried n) (added n) (refused n))
| run_cancelled n :
    at_run n = Selecting -> cancelled n = true ->
    run_step n (mkNet (at_hub n) Stopping (cancelled n) (calls n) (tried n) (added n) (refused n))
| run_return sc h n :
    at_run n = Stopping -> handle sc Cancelled (at_hub n) = Ok (tt, h) ->
    run_step n (mkNet h Returned (cancelled n) (calls n) (tried n) (added n) (refused n))
| caller_gives_up g k n :
    at_run n = Returned -> calls n !! g = Some k ->
    run_step n (mkNet (at_hub n) Returned (cancelled n) (delete g (calls n)) (tried n) (added n) (refused_by k (refused n))).

(** Everything: a write pump takes a frame whatever the hub is doing. *)
Inductive net_step : net -> net -> Prop :=
| net_call n n' : call_starts n n' -> net_step n n'
| net_run n n' : run_step n n' -> net_step n n'
| net_cancel n : net_step n (mkNet (at_hub n) (at_run n) true (calls n) (tried n) (added n) (refused n))
| net_write c n :
    net_step n (mkNet (set_chans (alter ch_take c (chans (at_hub n))) (at_hub n)) (at_run n) (cancelled n) (calls n)
      (tried n) (added n) (refused n)).

Inductive net_reachable : net -> Prop :=
| net_start : net_reachable quiet
| net_next n n' : net_reachable n -> net_step n n' -> net_reachable n'.

(** ** The invariant *)

(** What every waiting call may count on. *)
Definition in_turn (n : net) (k : call) : Prop :=
  match k with
  | Add c => c ∈ tried n /\ c ∉ added n
  | Drop c => c ∈ added n
  | Publish_ m => exists c budget budget' now text data,
      c ∈ added n /\ readFrame (F := F) c budget now text data = (budget', Publish m)
  end.

Record net_ok (n : net) : Prop := {
  no_reach : reachable (F := F) (at_hub n);
  no_added : added n ⊆ tried n;
  no_made : forall c, c ∈ added n <-> was_connected (at_hub n) c \/ at_run n = Handling (Register c);
  no_calls : forall g k, calls n !! g = Some k -> in_turn n k;
  no_once : forall g g' c, calls n !! g = Some (Add c) -> calls n !! g' = Some (Add c) -> g = g';
  no_event : forall e, at_run n = Handling e -> admissible (F := F) (at_hub n) e /\ e <> Cancelled;
  no_stopped : stopped (hub (at_hub n)) = true <-> at_run n = Returned;
  no_refused : forall c w, refused n !! c = Some w -> at_run n = Returned /\ c ∉ added n /\ w = refusal;
  no_answer : forall c, c ∈ tried n ->
    c ∈ added n \/ refused n !! c = Some refusal \/ exists g, calls n !! g = Some (Add c)
}.

(** Who is connected after an event. *)
Lemma handle_connects sc e w w' k :
  reachable (F := F) w -> stopped (hub w) = false -> admissible (F := F) w e -> handle sc e w = Ok (tt, w') ->
  (was_connected w' k <-> was_connected w k \/ e = Register k).
Proof.
  intros Hw Hrun Hadm Hok. pose proof (sys_hub _ _ (reachable_inv _ Hw)) as Hi.
  pose proof (wp_event sc e w Hi Hadm) as Hpost. unfold wp in Hpost. rewrite Hok, Hrun in Hpost. unfold was_connected.
  destruct Hadm as [c Hs|c Hs|c b b' now text data m Hs Hm|]; simpl in Hpost.
  - destruct Hpost as [J _]. rewrite (jc_made _ _ _ _ J). naive_solver.
  - destruct Hpost as (He & _). rewrite (ev_made _ _ _ _ He). naive_solver.
  - destruct Hpost as (He & _). rewrite (ev_made _ _ _ _ He). naive_solver.
  - rewrite (ca_status _ _ Hpost). destruct (status w k); naive_solver.
Qed.

Lemma handle_stops sc e w w' :
  reachable (F := F) w -> stopped (hub w) = false -> admissible (F := F) w e -> handle sc e w = Ok (tt, w') ->
  stopped (hub w') = match e with Cancelled => true | _ => false end.
Proof.
  intros Hw Hrun Hadm Hok. pose proof (sys_hub _ _ (reachable_inv _ Hw)) as Hi.
  pose proof (wp_event sc e w Hi Hadm) as Hpost. unfold wp in Hpost. rewrite Hok, Hrun in Hpost.
  destruct Hadm as [c Hs|c Hs|c b b' now text data m Hs Hm|]; simpl in Hpost.
  - destruct Hpost as [J _]. by rewrite (jc_stopped _ _ _ _ J).
  - destruct Hpost as (He & _). by rewrite (ev_stopped _ _ _ _ He).
  - destruct Hpost as (He & _). by rewrite (ev_stopped _ _ _ _ He).
  - by rewrite (ca_hub _ _ Hpost).
Qed.

Lemma admissible_step sc e w w' :
  admissible (F := F) w e -> handle sc e w = Ok (tt, w') -> step (F := F) w w'.
Proof. intros [c Hs|c Hs|c b b' now text data m Hs Hm|] Hok; by econstructor. Qed.

Lemma write_connects c w k :
  was_connected (set_chans (alter ch_take c (chans w)) w) k <-> was_connected w k.
Proof. unfold was_connected. by rewrite (drained_status _ _ (write_drained c w)). Qed.

Lemma admissible_write c w e :
  admissible (F := F) w e -> admissible (F := F) (set_chans (alter ch_take c (chans w)) w) e.
Proof.
  pose proof (drained_status _ _ (write_drained c w)) as Hs. intros Hadm.
  destruct Hadm as [k Hk|k Hk|k b b' now text data m Hk Hm|]; econstructor; rewrite ?Hs; done.
Qed.

Lemma in_turn_mono n n' k :
  tried n ⊆ tried n' -> added n' = added n -> in_turn n k -> in_turn n' k.
Proof. intros Ht Ha. unfold in_turn. rewrite Ha. destruct k; set_solver. Qed.

(** A new call changes nothing for the others. *)
Lemma call_ok g k n t :
  net_ok n -> tried n ⊆ t -> (forall c, c ∈ t -> c ∈ tried n \/ k = Add c) -> calls n !! g = None ->
  in_turn (mkNet (at_hub n) (at_run n) (cancelled n) (<[g := k]> (calls n)) t (added n) (refused n)) k ->
  (forall c, k = Add c -> c ∉ tried n) ->
  net_ok (mkNet (at_hub n) (at_run n) (cancelled n) (<[g := k]> (calls n)) t (added n) (refused n)).
Proof.
  intros [H1 H2 H3 H4 H5 H6 H7 H8 H9] Ht Hback Hg Hk Hnew. split; simpl; [done|set_solver|done| | |done|done|done|].
  - intros g' k' Hk'. destruct (decide (g' = g)) as [->|Hne]; [rewrite lookup_insert_eq in Hk'; by injection Hk' as <-|].
    rewrite lookup_insert_ne in Hk' by done. eapply in_turn_mono; [exact Ht|done|by eapply H4].
  - assert (forall g' c, <[g := k]> (calls n) !! g' = Some (Add c) -> k = Add c -> g' = g) as Honly.
    { intros g' c Hg' Hkc. destruct (decide (g' = g)) as [|Hne]; [done|]. rewrite lookup_insert_ne in Hg' by done.
      apply H4 in Hg' as [Hin _]. by destruct (Hnew c Hkc). }
    intros g1 g2 c Hg1 Hg2. destruct (decide (g1 = g)) as [->|N1].
    { rewrite lookup_insert_eq in Hg1. injection Hg1 as ->. symmetry. by eapply Honly. }
    destruct (decide (g2 = g)) as [->|N2]; [rewrite lookup_insert_eq in Hg2; injection Hg2 as ->; by eapply Honly|].
    rewrite lookup_insert_ne in Hg1, Hg2 by done. by eapply H5.
  - intros c [Hc| ->]%Hback; [|right; right; exists g; apply lookup_insert_eq].
    destruct (H9 c Hc) as [?|[?|[g' Hg']]]; [by left|by right; left|right; right].
    exists g'. rewrite lookup_insert_ne; congruence.
Qed.

Lemma receive_ok g k n :
  net_ok n -> at_run n = Selecting -> calls n !! g = Some k ->
  net_ok (mkNet (at_hub n) (Handling (call_event k)) (cancelled n) (delete g (calls n)) (tried n) (joined_by k (added n)) (refused n)).
Proof.
  intros [H1 H2 H3 H4 H5 H6 H7 H8 H9] Hrun Hg. pose proof (H4 g k Hg) as Hk.
  assert (forall c, c ∈ added n <-> was_connected (at_hub n) c) as Hadd by (intros c; rewrite H3, Hrun; naive_solver).
  assert (forall c w, refused n !! c <> Some w) as Hnone by (intros c w Hr; destruct (H8 c w Hr); congruence).
  split; simpl; [done| | | | | | | |].
  - destruct k; simpl in *; set_solver.
  - intros c. destruct k as [c'|c'|m]; simpl; rewrite ?elem_of_union, ?elem_of_singleton, Hadd; naive_solver.
  - intros g' k' Hk'. apply lookup_delete_Some in Hk' as [Hne Hk']. specialize (H4 g' k' Hk') as Hin.
    assert (added n ⊆ joined_by k (added n)) as Hsub by (destruct k; simpl; set_solver).
    destruct k' as [c|c|m]; simpl in *; [|set_solver|naive_solver].
    destruct Hin as [Ht Ha]. split; [done|]. destruct k as [c'|c'|m]; simpl; [|done..].
    intros [->%elem_of_singleton|?]%elem_of_union; [|done]. destruct Hne. by eapply H5.
  - intros g1 g2 c [_ Hg1]%lookup_delete_Some [_ Hg2]%lookup_delete_Some. by eapply H5.
  - intros e [= <-]. destruct k as [c|c|m]; simpl in *; (split; [|done]).
    + constructor. destruct Hk as [_ Ha]. rewrite Hadd in Ha. unfold was_connected in Ha.
      by destruct (status (at_hub n) c); [destruct Ha|].
    + constructor. by apply Hadd.
    + destruct Hk as (c & b & b' & now & text & data & Hc & Hm). econstructor; [by apply Hadd|exact Hm].
  - rewrite H7, Hrun. naive_solver.
  - intros c w Hr. by destruct (Hnone c w).
  - intros c Hc. destruct (H9 c Hc) as [Ha|[Hr|[g' Hg']]]; [left; destruct k; simpl; set_solver|by apply Hnone in Hr|].
    destruct (decide (g' = g)) as [->|Hne]; [left|right; right; exists g'; by rewrite lookup_delete_ne].
    rewrite Hg in Hg'. injection Hg' as ->. simpl. set_solver.
Qed.

(** [Run] moves, the calls stay as they are. *)
Lemma run_ok n h p :
  net_ok n -> at_run n <> Returned -> reachable (F := F) h -> (forall e, p <> Handling e) ->
  (forall c, was_connected h c <-> was_connected (at_hub n) c \/ at_run n = Handling (Register c)) ->
  (stopped (hub h) = true <-> p = Returned) ->
  net_ok (mkNet h p (cancelled n) (calls n) (tried n) (added n) (refused n)).
Proof.
  intros [H1 H2 H3 H4 H5 H6 H7 H8 H9] Hr Hh Hp Hc Hs. split; simpl; [done|done| |exact H4|done| |done| |exact H9].
  - intros c. rewrite H3, Hc. split; [by left|]. intros [?|Hx]; [done|]. by apply Hp in Hx.
  - intros e He. by apply Hp in He.
  - intros c w Hw. by destruct (H8 c w Hw).
Qed.

Lemma run_step_ok n n' : run_step n n' -> net_ok n -> net_ok n'.
Proof.
  intros Hstep Hn. pose proof Hn as [H1 H2 H3 H4 H5 H6 H7 H8 H9].
  assert (at_run n <> Returned -> stopped (hub (at_hub n)) = false) as Hopen.
  { intros Hr. destruct (stopped _) eqn:E; [|done]. by destruct Hr; apply H7. }
  destruct Hstep as [g k n Hrun Hg|sc e h n Hrun Hok|n Hrun Hcan|sc h n Hrun Hok|g k n Hrun Hg].
  - by apply receive_ok.
  - destruct (H6 e Hrun) as [Hadm Hne]. specialize (Hopen ltac:(congruence)). apply run_ok; [done|congruence|..].
    + eapply reach_step; [exact H1|by eapply admissible_step].
    + done.
    + intros c. rewrite (handle_connects sc e _ _ c H1 Hopen Hadm Hok), Hrun. naive_solver.
    + rewrite (handle_stops sc e _ _ H1 Hopen Hadm Hok). by destruct e.
  - apply run_ok; [done|congruence|done|done| |].
    + intros c. rewrite Hrun. naive_solver.
    + rewrite H7, Hrun. naive_solver.
  - specialize (Hopen ltac:(congruence)). apply run_ok; [done|congruence|..].
    + eapply reach_step; [exact H1|by eapply step_cancel].
    + done.
    + intros c. rewrite (handle_connects sc Cancelled _ _ c H1 Hopen (adm_cancelled _) Hok), Hrun. naive_solver.
    + by rewrite (handle_stops sc Cancelled _ _ H1 Hopen (adm_cancelled _) Hok).
  - split; simpl; [done|done| | | |done| | |].
    + intros c. by rewrite H3, Hrun.
    + intros g' k' [_ Hk']%lookup_delete_Some. exact (H4 g' k' Hk').
    + intros g1 g2 c [_ Hg1]%lookup_delete_Some [_ Hg2]%lookup_delete_Some. by eapply H5.
    + by rewrite H7, Hrun.
    + intros c w Hw. destruct k as [c'|c'|m]; simpl in Hw; [|by apply (H8 c w) in Hw as (_ & ? & ?)..].
      apply lookup_insert_Some in Hw as [[-> <-]|[_ Hw]]; [|by apply (H8 c w) in Hw as (_ & ? & ?)].
      by destruct (H4 g (Add c) Hg).
    + intros c Hc. destruct (H9 c Hc) as [Ha|[Hr|[g' Hg']]]; [by left|right; left|].
      * destruct k as [c'|c'|m]; simpl; [|done..]. destruct (decide (c' = c)) as [->|]; [apply lookup_insert_eq|by rewrite lookup_insert_ne].
      * destruct (decide (g' = g)) as [->|Hne]; right; [left|right; exists g'; by rewrite lookup_delete_ne].
        rewrite Hg in Hg'. injection Hg' as ->. apply lookup_insert_eq.
Qed.

Lemma net_step_ok n n' : net_step n n' -> net_ok n -> net_ok n'.
Proof.
  intros Hstep Hn. pose proof Hn as [H1 H2 H3 H4 H5 H6 H7 H8 H9].
  destruct Hstep as [n n' Hcall|n n' Hrun|n|c n].
  - destruct Hcall as [g c n Hg Hc|g c n Hg Hc|g c b b' now text data m n Hg Hc Hm]; apply call_ok; try done.
    + set_solver.
    + intros c0 [->%elem_of_singleton|?]%elem_of_union; [by right|by left].
    + simpl. split; [set_solver|]. intros Ha. by apply Hc, H2.
    + by intros c' [= <-].
    + by left.
    + by left.
    + simpl. eauto 10.
  - by eapply run_step_ok.
  - by split.
  - split; simpl; [eapply reach_step; [exact H1|constructor]|done| |exact H4|done| |done|exact H8|exact H9].
    + intros k. by rewrite H3, write_connects.
    + intros e He. destruct (H6 e He). split; [by apply admissible_write|done].
Qed.

Lemma net_invariant n : net_reachable n -> net_ok n.
Proof.
  induction 1 as [|n n' _ IH Hstep]; [|by eapply net_step_ok].
  split; simpl; [constructor|done| |done|done|done|done|done|set_solver].
  intros c. split; [set_solver|]. intros [Hc|?]; [|done]. by destruct Hc.
Qed.

(** ** Properties *)

(** C6: what the goroutines of the signaling server do to the hub, whatever they do
    and in whatever order, is what [step] does with one event at a time: the state the
    hub owns is always one that [step] reaches, and changes by its steps. *)
Theorem goroutines_refine_steps n n' :
  net_reachable n -> net_step n n' ->
  reachable (F := F) (at_hub n) /\ (at_hub n' = at_hub n \/ step (F := F) (at_hub n) (at_hub n')).
Proof.
  intros Hn Hstep. destruct (net_invariant n Hn) as [H1 H2 H3 H4 H5 H6 H7 H8 H9]. split; [done|].
  destruct Hstep as [n n' Hcall|n n' Hrun|n|c n]; [left; by destruct Hcall| |by left|right; constructor].
  destruct Hrun as [g k n Hrun Hg|sc e h n Hrun Hok|n Hrun Hcan|sc h n Hrun Hok|g k n Hrun Hg]; simpl;
    [by left| |by left| |by left]; right.
  - eapply admissible_step; [by apply H6|exact Hok].
  - by eapply step_cancel.
Qed.

(** What [Run] and the callers have left to do, if nobody calls any more. *)
Definition left_to_do (n : net) : nat :=
  2 * size (calls n) + match at_run n with Handling _ => 3 | Selecting => 2 | Stopping => 1 | Returned => 0 end.

Lemma run_step_less n n' : run_step n n' -> left_to_do n' < left_to_do n.
Proof.
  unfold left_to_do.
  destruct 1 as [g k n Hrun Hg|sc e h n Hrun Hok|n Hrun Hcan|sc h n Hrun Hok|g k n Hrun Hg]; simpl; rewrite Hrun;
    try (rewrite map_size_delete_Some by done; assert (size (calls n) <> 0) by (rewrite map_size_ne_0_lookup; eauto)); lia.
Qed.

Lemma run_steps_less k n n' : nsteps run_step k n n' -> k + left_to_do n' <= left_to_do n.
Proof.
  induction 1 as [|k n1 n2 n3 Hstep _ IH]; [lia|]. apply run_step_less in Hstep. lia.
Qed.

Lemma handle_runs e w : reachable (F := F) w -> admissible (F := F) w e -> exists h, handle (idle_sched _) e w = Ok (tt, h).
Proof.
  intros Hw Hadm. destruct (wp_run _ _ _ (wp_event (idle_sched _) e w (sys_hub _ w (reachable_inv w Hw)) Hadm)) as ([] & h & Hok & _).
  by exists h.
Qed.

Lemma run_step_progress n :
  net_ok n -> (forall n', ~ run_step n n') ->
  calls n = ∅ /\ (at_run n = Returned \/ at_run n = Selecting /\ cancelled n = false).
Proof.
  intros [H1 H2 H3 H4 H5 H6 H7 H8 H9] Hstuck. destruct (at_run n) as [|e| |] eqn:Hrun.
  - assert (calls n = ∅) as Hno.
    { apply map_empty. intros g. destruct (calls n !! g) as [k|] eqn:Hg; [|done]. destruct (Hstuck _ (run_receive g k n Hrun Hg)). }
    split; [done|right]. split; [done|]. destruct (cancelled n) eqn:Hc; [|done]. destruct (Hstuck _ (run_cancelled n Hrun Hc)).
  - destruct (handle_runs e (at_hub n) H1) as [h Hok]; [by apply H6|]. destruct (Hstuck _ (run_handle _ e h n Hrun Hok)).
  - destruct (handle_runs Cancelled (at_hub n) H1) as [h Hok]; [constructor|]. destruct (Hstuck _ (run_return _ h n Hrun Hok)).
  - split; [|by left]. apply map_empty. intros g. destruct (calls n !! g) as [k|] eqn:Hg; [|done].
    destruct (Hstuck _ (caller_gives_up g k n Hrun Hg)).
Qed.

Lemma run_steps_reach n n' : rtc run_step n n' -> net_reachable n -> net_reachable n'.
Proof. induction 1 as [|n1 n2 n3 Hs _ IH]; [done|]. intros Hn. apply IH. eapply net_next; [exact Hn|by apply net_run]. Qed.

(** After [closeAll] every channel that was made is closed. *)
Lemma stopped_closed w c :
  reachable (F := F) w -> stopped (hub w) = true -> was_connected w c -> status w c = Some true.
Proof.
  intros Hw Hs Hc. pose proof (sys_hub _ _ (reachable_inv _ Hw)) as Hi. unfold was_connected in Hc.
  destruct (status w c) as [[|]|] eqn:E; [done| |done]. apply (inv_open _ _ Hi) in E.
  unfold in_group in E. by rewrite (inv_stopped _ _ Hi Hs) in E.
Qed.

(** Once no call is waiting and no event is being handled, everybody who came has been
    answered. *)
Lemma everyone_answered n c :
  net_ok n -> calls n = ∅ -> (forall e, at_run n <> Handling e) -> c ∈ tried n ->
  (c ∈ added n /\ was_connected (at_hub n) c) \/ refused n !! c = Some refusal.
Proof.
  intros Hok Hno Hidle Hc. destruct (no_answer _ Hok c Hc) as [Ha|[Hr|[g Hg]]]; [left|by right|].
  - split; [done|]. apply (no_made _ Hok) in Ha as [?|Ha]; [done|]. by apply Hidle in Ha.
  - by rewrite Hno in Hg.
Qed.

(** C28: nobody who calls the hub is left behind: from any state, once nobody else calls,
    [Run] and the callers stop within two steps a call and three more; then every call
    has returned, every client that came was either taken in or told that the server is
    shutting down, and if the context was cancelled [Run] has returned, the channel of
    every client it took in closed. *)
Theorem callers_return n :
  net_reachable n ->
  (forall k n', nsteps run_step k n n' -> k <= 2 * size (calls n) + 3) /\
  (forall n', rtc run_step n n' -> (forall n'', ~ run_step n' n'') ->
    calls n' = ∅ /\ (at_run n' = Returned \/ at_run n' = Selecting /\ cancelled n = false) /\
    (forall c, c ∈ tried n' -> (c ∈ added n' /\ was_connected (at_hub n') c) \/ refused n' !! c = Some refusal) /\
    (at_run n' = Returned -> forall c, was_connected (at_hub n') c -> status (at_hub n') c = Some true)).
Proof.
  intros Hn. split.
  - intros k n' Hk%run_steps_less. unfold left_to_do in Hk. destruct (at_run n); lia.
  - intros n' Hrun Hstuck. pose proof (run_steps_reach _ _ Hrun Hn) as Hn'.
    pose proof (net_invariant _ Hn') as Hok. destruct (run_step_progress _ Hok Hstuck) as [Hno Hend].
    assert (cancelled n' = cancelled n) as Hc.
    { clear -Hrun. induction Hrun as [|n1 n2 n3 Hs _ IH]; [done|]. rewrite IH. by destruct Hs. }
    split; [done|]. split; [by rewrite <- Hc|]. split.
    { intros c. apply everyone_answered; [done..|]. intros e. by destruct Hend as [-> |[-> _]]. }
    intros Hret c Hmade.
    apply (no_stopped _ Hok) in Hret. by eapply stopped_closed; [apply Hok| |].
Qed.
End net.

(** ** Witnesses *)

Definition waiting : net := mkNet SignalHub.initial Selecting false {[1%positive := Add alice]} {[alice]} ∅ ∅.
Definition arriving : net := mkNet SignalHub.initial (Handling (SignalHub.Register alice)) false ∅ {[alice]} {[alice]} ∅.
Definition arrived : net := mkNet demo1 Selecting false ∅ {[alice]} {[alice]} ∅.

(** Alice leaves, Bob arrives, and the server is told to stop: all at once. *)
Definition crowded : net :=
  mkNet demo1 Selecting true {[1%positive := Drop alice; 2%positive := Add bob]} {[alice; bob]} {[alice]} ∅.

Lemma arriving_reachable : net_reachable (F := f64) arriving.
Proof.
  apply (net_next waiting); [apply (net_next quiet); [constructor|]|].
  - apply net_call. exact (start_add 1 alice quiet eq_refl (not_elem_of_empty alice)).
  - apply net_run. exact (run_receive 1 (Add alice) waiting eq_refl eq_refl).
Qed.

Lemma arrival_handled : net_step (F := f64) arriving arrived.
Proof. apply net_run. apply (run_handle (idle_sched _) (SignalHub.Register alice) demo1 arriving); [done|]. by apply after_ok; vm_compute. Qed.

Lemma crowded_reachable : net_reachable (F := f64) crowded.
Proof.
  set (n1 := mkNet demo1 Selecting true ∅ {[alice]} {[alice]} ∅).
  set (n2 := mkNet demo1 Selecting true {[2%positive := Add bob]} {[alice; bob]} {[alice]} ∅).
  assert (net_reachable (F := f64) n1) as H1.
  { apply (net_next arrived); [|apply net_cancel]. apply (net_next arriving); [exact arriving_reachable|exact arrival_handled]. }
  assert (net_reachable (F := f64) n2) as H2.
  { apply (net_next n1); [exact H1|]. apply net_call. refine (start_add 2 bob n1 eq_refl _). by vm_compute. }
  apply (net_next n2); [exact H2|]. apply net_call. refine (start_drop 1 alice n2 eq_refl _). by vm_compute.
Qed.

Lemma goroutines_refine_steps_witness :
  reachable (F := f64) SignalHub.initial /\ (demo1 = SignalHub.initial \/ step (F := f64) SignalHub.initial demo1).
Proof. exact (goroutines_refine_steps arriving arrived arriving_reachable arrival_handled). Defined.

Lemma callers_return_witness :
  (forall k n', nsteps run_step k crowded n' -> k <= 2 * size (calls crowded) + 3) /\
  (forall n', rtc run_step crowded n' -> (forall n'', ~ run_step n' n'') ->
    calls n' = ∅ /\ (at_run n' = Returned \/ at_run n' = Selecting /\ cancelled crowded = false) /\
    (forall c, c ∈ tried n' -> (c ∈ added n' /\ was_connected (at_hub n') c) \/ refused n' !! c = Some refusal) /\
    (at_run n' = Returned -> forall c, was_connected (at_hub n') c -> status (at_hub n') c = Some true)).
Proof. exact (callers_return crowded crowded_reachable). Defined.
