(* ===== verification/InboxEvents.v ===== *)
(** * What the inbox carries

    The event types and the events of [src/internal/inbox/conn.go]. *)

From S2P Require Import Prelude.

Definition TypeInvite : string := "invite".
Definition TypeInviteCancelled : string := "invite-cancelled".
Definition TypeInviteDeclined : string := "invite-declined".

Record Room := mkRoom { Slug : string; Name : string }.
Record Sender := mkSender { senderID : string; senderName : string }.
Record Event := mkEvent { evType : string; evRoom : Room; evFrom : Sender }.
