(* ===== verification/InboxHub.v ===== *)
(** * The inbox hub

    [src/internal/inbox/hub.go] and [src/internal/inbox/conn.go]: the registry of
    inbox connections by user id. A mutex makes each operation atomic; the write
    pumps take frames at any time ([Chan.v]). *)

From S2P Require Import Prelude Chan Registry.

(** ** Data *)

Definition sendBufferSize : nat := 16.

(** A [*conn]: its address and its fixed fields. *)
Record conn := mkConn { addr : positive; connID : string; userID : string }.

#[export] Instance conn_eq_dec : EqDecision conn.
Proof. solve_decision. Defined.

#[export] Instance conn_countable : Countable conn.
Proof.
  refine (inj_countable' (fun c => (addr c, connID c, userID c)) (fun '(a, i, u) => mkConn a i u) _).
  by intros [].
Defined.

(** [Hub]: the [users] map, the counter and [closed], keyed by the user id. *)
Abbreviation Hub := (registry conn).
Abbreviation state := (world conn Hub).
Abbreviation inbox_inv := (reg_inv userID).

(** [h.users[userID]] *)
Abbreviation of_user := (@in_group conn _ _).

Section inbox.
Variable sc : sched conn.

(** ** Operations *)

Definition removeLocked (c : conn) : ST state unit :=
  w <-- st_get ;;
  if decide (c ∈ of_user w (userID c)) then Registry.remove userID c else st_ret tt.

Definition remove (c : conn) : ST state unit := removeLocked c.

(** The frame is offered to each of the user's connections; one that cannot take
    it is removed. The result counts those that could. *)
Definition Deliver (user data : string) : ST state nat :=
  w <-- st_get ;;
  cs <-- range sc (of_user w user) ;;
  accepted <-- collect cs (fun c =>
    ok <-- offer sc c data ;;
    if ok : bool then st_ret true else removeLocked c ;;; st_ret false) ;;
  st_ret (length accepted).

(** [ServeHTTP] makes the connection with its channel and adds it. *)
Definition add (c : conn) : ST state bool :=
  w <-- st_get ;;
  if stopped (hub w) then st_ret false
  else
    st_modify (with_chan sendBufferSize c) ;;;
    enter userID c ;;;
    st_ret true.

Definition Shutdown : ST state unit := close_all sc.

Definition ConnectionCount : ST state Z := w <-- st_get ;; st_ret (count (hub w)).

(** ** The system *)

(** What handlers, pumps and the server do to the hub. *)
Inductive op :=
| Add (c : conn)
| Remove (c : conn)
| Push (user data : string)
| Close.

Definition run (o : op) : ST state unit :=
  match o with
  | Add c => add c ;;; st_ret tt
  | Remove c => remove c
  | Push user data => Deliver user data ;;; st_ret tt
  | Close => Shutdown
  end.
End inbox.

(** A connection is added once. *)
Definition allowed (w : state) (o : op) : Prop :=
  match o with Add c => status w c = None | _ => True end.

Inductive reachable : state -> Prop :=
| reach_init : reachable initial_world
| reach_op sc o w w' :
    reachable w -> allowed w o -> run sc o w = Ok (tt, w') -> reachable w'
| reach_write c w : reachable w -> reachable (set_chans (alter ch_take c (chans w)) w).

(** ** Lemmas *)

(** The state of a delivery to [user] after the connections in [don] have been
    visited and those in [acc] have accepted. *)
Record delivering (user data : string) (w : state) (don acc : list conn) (w' : state) : Prop := {
  de_inv : inbox_inv w';
  de_sub : acc ⊆ don;
  de_nodup : NoDup acc;
  de_user : forall k, k ∈ of_user w' user <-> k ∈ of_user w user /\ (k ∈ don -> k ∈ acc);
  de_other : forall u, u ≠ user -> of_user w' u = of_user w u;
  de_stopped : stopped (hub w') = stopped (hub w);
  de_accepted : forall k, k ∈ acc -> log w' k = log w k ++ [data] /\ status w' k = Some false;
  de_dropped : forall k, k ∈ don -> k ∉ acc -> log w' k = log w k /\ status w' k = Some true;
  de_rest : forall k, k ∉ don -> log w' k = log w k /\ status w' k = status w k
}.

Section facts.
Implicit Types (w : state) (c k : conn).

Lemma wp_removeLocked c w (Q : unit -> state -> Prop) :
  inbox_inv w ->
  (c ∉ of_user w (userID c) -> Q tt w) ->
  (forall w', c ∈ of_user w (userID c) -> removed userID c w w' -> Q tt w') ->
  wp (removeLocked c) Q w.
Proof.
  intros Hw Hno Hyes. unfold removeLocked. rewrite wp_bind, wp_get. case_decide.
  - apply wp_remove; [done..|]. auto.
  - by apply wp_ret, Hno.
Qed.

Lemma delivering_start user data w : inbox_inv w -> delivering user data w [] [] w.
Proof. split; try done; try set_solver. constructor. Qed.

(** The start may be replaced by a state that looks the same. *)
Lemma delivering_transfer user data w0 w don acc w' :
  hub w0 = hub w -> chans w0 = chans w ->
  delivering user data w0 don acc w' -> delivering user data w don acc w'.
Proof.
  intros Hh Hch [D1 D2 D3 D4 D5 D6 D7 D8 D9].
  assert (forall u, of_user w0 u = of_user w u) as Hu0 by (intros u; unfold in_group; by rewrite Hh).
  assert (forall k, log w0 k = log w k) as Hl0 by (intros k; unfold log; by rewrite Hch).
  assert (forall k, status w0 k = status w k) as Hs0 by (intros k; unfold status; by rewrite Hch).
  split; [done|done|done|..].
  - intros k. by rewrite D4, Hu0.
  - intros u Hu. by rewrite D5, Hu0.
  - by rewrite D6, Hh.
  - intros k. rewrite <- Hl0. auto.
  - intros k. rewrite <- Hl0. auto.
  - intros k. rewrite <- Hl0, <- Hs0. auto.
Qed.

Lemma delivering_accept user data w don acc w1 w2 x :
  delivering user data w don acc w1 -> x ∈ of_user w user -> x ∉ don ->
  offered x data w1 true w2 -> delivering user data w (don ++ [x]) (acc ++ [x]) w2.
Proof.
  intros [D1 D2 D3 D4 D5 D6 D7 D8 D9] Hx Hxd [O1 O2 O3 O4 O5 O6 O7].
  assert (x ∉ acc) as Hxa by (intros Hin; by apply Hxd, D2).
  assert (of_user w2 = of_user w1) as Hg by (unfold in_group; by rewrite O1).
  assert (forall k, k ≠ x -> log w2 k = log w1 k /\ status w2 k = status w1 k) as Hne by auto.
  destruct (D9 x Hxd) as [Hlx Hsx].
  split; rewrite ?Hg; try done.
  - by eapply reg_inv_same.
  - intros k. rewrite !elem_of_snoc. intros [?|?]; [left; by apply D2|by right].
  - apply NoDup_app. split; [done|]. split; [|apply NoDup_singleton].
    intros k Hk ->%list_elem_of_singleton. done.
  - intros k. rewrite D4, !elem_of_snoc. split; intros [Hk Hi]; (split; [done|]); [tauto|].
    intros Hkd. destruct Hi as [?| ->]; [by left|done|done].
  - by rewrite O1.
  - intros k. rewrite elem_of_snoc. intros [Hk| ->].
    + destruct (Hne k) as [-> ->]; [by intros ->|by apply D7].
    + rewrite O3, O2, Hlx. split; [done|]. apply (inv_member userID w1 user); [done|].
      apply D4. split; [done|]. intros; done.
  - intros k. rewrite !elem_of_snoc. intros [Hk| ->] Hka; [|tauto].
    destruct (Hne k) as [-> ->]; [intros ->; tauto|]. apply D8; tauto.
  - intros k. rewrite elem_of_snoc. intros Hk.
    destruct (Hne k) as [-> ->]; [intros ->; tauto|]. apply D9. tauto.
Qed.

Lemma delivering_drop user data w don acc w1 w2 w3 x :
  delivering user data w don acc w1 -> x ∈ of_user w user -> x ∉ don -> userID x = user ->
  offered x data w1 false w2 -> removed userID x w2 w3 ->
  delivering user data w (don ++ [x]) acc w3.
Proof.
  intros [D1 D2 D3 D4 D5 D6 D7 D8 D9] Hx Hxd Hux [O1 O2 O3 O4 O5 O6 O7] [R1 R2 R3 R4 R5 R6 R7 R8].
  rewrite Hux in *.
  assert (x ∉ acc) as Hxa by (intros Hin; by apply Hxd, D2).
  assert (of_user w2 = of_user w1) as Hg by (unfold in_group; by rewrite O1).
  assert (forall k, k ≠ x -> log w3 k = log w1 k /\ status w3 k = status w1 k) as Hne.
  { intros k Hk. rewrite R5, R8, O2, O4 by done. done. }
  destruct (D9 x Hxd) as [Hlx Hsx].
  split; try done.
  - intros k Hk. apply elem_of_snoc. left. by apply D2.
  - intros k. rewrite R2, Hg, elem_of_difference, elem_of_singleton, D4, elem_of_snoc.
    split; [tauto|]. intros [Hk Hi]. split; [tauto|]. intros ->. tauto.
  - intros u Hu. rewrite R3, Hg by done. auto.
  - by rewrite R4, O1.
  - intros k Hk. destruct (Hne k) as [-> ->]; [by intros ->|by apply D7].
  - intros k. rewrite elem_of_snoc. intros [Hk| ->] Hka.
    + destruct (Hne k) as [-> ->]; [by intros ->|by apply D8].
    + split; [|done]. by rewrite R5, O3, app_nil_r.
  - intros k. rewrite elem_of_snoc. intros Hk.
    destruct (Hne k) as [-> ->]; [intros ->; tauto|]. apply D9. tauto.
Qed.

Lemma wp_Deliver sc user data w (Q : nat -> state -> Prop) :
  inbox_inv w ->
  (forall l acc w', l ≡ₚ elements (of_user w user) -> delivering user data w l acc w' ->
     Q (length acc) w') ->
  wp (Deliver sc user data) Q w.
Proof.
  intros Hw HQ. unfold Deliver. rewrite wp_bind, wp_get, wp_bind. apply wp_range.
  intros l w0 Hl Hch Hh. rewrite wp_bind.
  assert (inbox_inv w0) as Hw0.
  { eapply reg_inv_same, Hw; [done|..]; unfold status, bounded; by rewrite Hch. }
  eapply wp_mono.
  { apply (wp_collect (fun don acc w' => delivering user data w don acc w')).
    - by apply (delivering_transfer user data w0 w), delivering_start.
    - intros x don rest acc w1 Hdon HD.
      assert (NoDup l) as Hnd by (rewrite Hl; apply NoDup_elements).
      assert (x ∉ don) as Hx.
      { rewrite Hdon in Hnd. apply NoDup_app in Hnd as (_ & Hnd & _). intros Hin. apply (Hnd x Hin). by left. }
      assert (x ∈ of_user w user) as Hxu.
      { apply elem_of_elements. rewrite <- Hl, Hdon. apply elem_of_app. right. by left. }
      assert (x ∈ of_user w1 user) as Hxu1 by (by apply (de_user _ _ _ _ _ _ HD)).
      destruct (inv_member userID w1 user x (de_inv _ _ _ _ _ _ HD) Hxu1) as [Hux Hox].
      rewrite wp_bind. apply wp_offer; [done|]. intros b w2 Hoff. destruct b.
      + apply wp_ret. by eapply delivering_accept.
      + assert (inbox_inv w2) as Hw2.
        { eapply reg_inv_same; [apply Hoff..|]. apply HD. }
        assert (x ∈ of_user w2 (userID x)) as Hxu2.
        { rewrite Hux. unfold in_group. rewrite (off_hub _ _ _ _ _ Hoff). exact Hxu1. }
        rewrite wp_bind. apply wp_removeLocked; [done|by intros ?|].
        intros w3 _ Hrm. apply wp_ret. by eapply delivering_drop. }
  intros acc w1 HD. apply wp_ret. by eapply HQ.
Qed.
End facts.
