(* ===== verification/InboxTheorems.v ===== *)
(** * The properties of the inbox hub *)

From S2P Require Import Prelude Chan Registry InboxHub.

Section inbox.
Implicit Types (w : state) (c k : conn).

Lemma add_spec c w :
  inbox_inv w -> status w c = None ->
  wp (add c) (fun b w' =>
    if stopped (hub w) then b = false /\ w' = w
    else b = true /\ entered userID sendBufferSize c w w') w.
Proof.
  intros Hw Hs. unfold add. rewrite wp_bind, wp_get. destruct (stopped (hub w)) eqn:Hst.
  - by apply wp_ret.
  - rewrite wp_bind, wp_modify, wp_bind. eapply wp_enter; [done..|]. intros w' He. by apply wp_ret.
Qed.

Lemma run_inv sc o w :
  inbox_inv w -> allowed w o -> wp (run sc o) (fun _ w' => inbox_inv w') w.
Proof.
  intros Hw Ho. destruct o as [c|c|u data|]; simpl.
  - rewrite wp_bind. eapply wp_mono; [by apply add_spec|]. intros b w' Hb. apply wp_ret.
    destruct (stopped (hub w)); [by destruct Hb as [_ ->]|apply Hb].
  - apply wp_removeLocked; [done|done|]. intros w' _ Hr. apply Hr.
  - rewrite wp_bind. apply wp_Deliver; [done|]. intros l acc w' _ HD. apply wp_ret, HD.
  - apply (wp_close_all userID); [done|]. intros w' Hc. by eapply closed_all_inv.
Qed.

Lemma inbox_reachable_inv w : reachable w -> inbox_inv w.
Proof.
  induction 1 as [|sc o w w' _ IH Ho Hok|c w _ IH]; [apply initial_reg_inv| |by apply write_inv].
  pose proof (run_inv sc o w IH Ho) as Hwp. unfold wp in Hwp. by rewrite Hok in Hwp.
Qed.

(** ** Properties *)

(** In every reachable state every operation of the inbox hub completes: it
    never sends on or closes a closed channel, and its invariant holds again. *)
Theorem inbox_ops_succeed sc o w :
  reachable w -> allowed w o -> exists w', run sc o w = Ok (tt, w') /\ inbox_inv w'.
Proof.
  intros Hw Ho. apply inbox_reachable_inv in Hw.
  destruct (wp_run _ _ _ (run_inv sc o w Hw Ho)) as ([] & w' & ? & ?). by exists w'.
Qed.

(** What a delivery with the answer [n] does: the user is left with the [n]
    connections that were sent the frame, its others are closed without it, and
    nobody else is concerned. *)
Definition reached (user data : string) (n : nat) w w' : Prop :=
  n = size (of_user w' user) /\ of_user w' user ⊆ of_user w user /\
  (forall k, k ∈ of_user w' user -> log w' k = log w k ++ [data]) /\
  (forall k, k ∈ of_user w user -> k ∉ of_user w' user ->
     log w' k = log w k /\ status w' k = Some true) /\
  (forall u, u ≠ user -> of_user w' u = of_user w u) /\
  (forall k, userID k ≠ user -> log w' k = log w k /\ status w' k = status w k).

Lemma wp_reached sc user data w :
  reachable w -> wp (Deliver sc user data) (fun n w' => reached user data n w w') w.
Proof.
  intros Hw. apply inbox_reachable_inv in Hw. apply wp_Deliver; [done|].
  intros l acc w' Hl [D1 D2 D3 D4 D5 D6 D7 D8 D9].
  assert (forall k, k ∈ l <-> k ∈ of_user w user) as Hin by (intros k; rewrite Hl; apply elem_of_elements).
  assert (forall k, k ∈ acc <-> k ∈ of_user w' user) as Hacc.
  { intros k. rewrite D4, <- Hin. split; [intros Hk; split; [by apply D2|done]|tauto]. }
  split.
  { unfold size, set_size. simpl. apply Permutation_length, NoDup_Permutation; [done|apply NoDup_elements|].
    intros k. by rewrite Hacc, elem_of_elements. }
  split; [intros k; rewrite D4; tauto|]. split; [intros k Hk; apply D7; by apply Hacc|].
  split; [intros k Hk Hn; apply D8; [by apply Hin|by rewrite Hacc]|]. split; [done|].
  intros k Hk. apply D9. rewrite Hin. intros Hku. by destruct (inv_member userID w user k Hw Hku).
Qed.

(** The delivered count is the truth: it is the number of the user's
    connections that were sent the event, these are exactly the connections the
    user still has, every other one was closed without it, and nothing was sent
    to any other user. *)
Theorem delivered_count_exact sc user data w :
  reachable w ->
  exists n w', Deliver sc user data w = Ok (n, w') /\
    n = size (of_user w' user) /\ of_user w' user ⊆ of_user w user /\
    (forall k, k ∈ of_user w' user -> log w' k = log w k ++ [data]) /\
    (forall k, k ∈ of_user w user -> k ∉ of_user w' user ->
       log w' k = log w k /\ status w' k = Some true) /\
    (forall u, u ≠ user -> of_user w' u = of_user w u) /\
    (forall k, userID k ≠ user -> log w' k = log w k /\ status w' k = status w k).
Proof.
  intros Hw. destruct (wp_run _ _ _ (wp_reached sc user data w Hw)) as (n & w' & Hok & H). by exists n, w'.
Qed.

(** A delivery reports zero exactly when it leaves the user unreachable. *)
Theorem delivered_zero_unreachable sc user data w n w' :
  reachable w -> Deliver sc user data w = Ok (n, w') -> n = 0 <-> of_user w' user = ∅.
Proof.
  intros Hw Hok. apply inbox_reachable_inv in Hw.
  assert (wp (Deliver sc user data) (fun n w' => n = 0 <-> of_user w' user = ∅) w) as Hwp.
  { apply wp_Deliver; [done|]. intros l acc w1 Hl [D1 D2 D3 D4 _ _ _ _ _].
    assert (forall k, k ∈ acc <-> k ∈ of_user w1 user) as Hacc.
    { intros k. assert (k ∈ l <-> k ∈ of_user w user) as Hin by (rewrite Hl; apply elem_of_elements).
      rewrite D4, <- Hin. split; [intros Hk; split; [by apply D2|done]|tauto]. }
    destruct acc as [|x acc]; simpl; split; try done.
    - intros _. apply set_eq. intros k. rewrite <- Hacc. set_solver.
    - intros He. assert (x ∈ of_user w1 user) as Hx by (apply Hacc; left). rewrite He in Hx. set_solver. }
  unfold wp in Hwp. by rewrite Hok in Hwp.
Qed.

(** Removing a connection is idempotent, and a connection removed by a
    delivery may be removed again by its read pump without harm. *)
Theorem inbox_remove_idempotent c w w' :
  reachable w -> remove c w = Ok (tt, w') ->
  c ∉ of_user w' (userID c) /\ (forall k, log w' k = log w k) /\ remove c w' = Ok (tt, w').
Proof.
  intros Hw Hok. apply inbox_reachable_inv in Hw.
  assert (wp (remove c) (fun _ w' => c ∉ of_user w' (userID c) /\ (forall k, log w' k = log w k)) w) as Hwp.
  { apply wp_removeLocked; [done|done|]. intros w1 Hc [_ R2 _ _ R5 _ _ _]. rewrite R2. split; [set_solver|done]. }
  unfold wp in Hwp. rewrite Hok in Hwp. destruct Hwp as [Hout Hl]. split; [done|split; [done|]].
  unfold remove, removeLocked, st_bind, st_get. by rewrite decide_False.
Qed.

(** After the shutdown every connection's channel is closed, the count is
    zero, no connection can be added and deliveries reach nobody. *)
Theorem inbox_shutdown_final sc w w' c user data :
  reachable w -> Shutdown sc w = Ok (tt, w') ->
  (forall k, status w k ≠ None -> status w' k = Some true) /\
  ConnectionCount w' = Ok (0%Z, w') /\ add c w' = Ok (false, w') /\
  wp (Deliver sc user data) (fun n w2 => n = 0 /\ hub w2 = hub w') w'.
Proof.
  intros Hw Hok. apply inbox_reachable_inv in Hw.
  assert (wp (Shutdown sc) (fun _ w' => closed_all w w') w) as Hwp.
  { apply (wp_close_all userID); [done|]. auto. }
  unfold wp in Hwp. rewrite Hok in Hwp. destruct Hwp as [Hh Hb Hl Hs].
  split; [intros k Hk; rewrite Hs; by destruct (status w k)|].
  unfold ConnectionCount, add, st_bind, st_get, st_ret. rewrite Hh. split; [done|split; [done|]].
  unfold Deliver. rewrite wp_bind, wp_get, wp_bind. apply wp_range. intros l w2 Hlp Hch Hh2.
  rewrite in_group_empty in Hlp by (by rewrite Hh). rewrite elements_empty in Hlp.
  apply Permutation_nil_r in Hlp as ->. rewrite wp_bind. simpl. rewrite !wp_ret. by rewrite Hh2, Hh.
Qed.

(** The connection counter is the number of registered connections. *)
Theorem connection_count_exact w :
  reachable w -> (Z.of_nat (group_total (groups (hub w))) < 2 ^ 63)%Z ->
  ConnectionCount w = Ok (Z.of_nat (group_total (groups (hub w))), w).
Proof.
  intros Hw Hlt. apply inbox_reachable_inv in Hw. unfold ConnectionCount, st_bind, st_get, st_ret.
  by rewrite (inv_count userID w Hw), wrap64_small by lia.
Qed.
End inbox.

(** ** A concrete run *)

Definition phone : conn := mkConn 1 "1" "u-dave".
Definition laptop : conn := mkConn 2 "2" "u-dave".

Definition after_op (o : op) (w : state) : state :=
  match run (idle_sched conn) o w with
  | Ok (_, w') => w'
  | _ => w
  end.

Lemma after_op_ok o w :
  (if run (idle_sched conn) o w is Ok _ then true else false) = true ->
  run (idle_sched conn) o w = Ok (tt, after_op o w).
Proof. unfold after_op. by destruct (run _ _ _) as [[[] w']| |]. Qed.

Definition inbox1 : state := after_op (Add phone) initial_world.
Definition inbox2 : state := after_op (Add laptop) inbox1.

Lemma after_op_reachable o w :
  reachable w -> allowed w o ->
  (if run (idle_sched conn) o w is Ok _ then true else false) = true -> reachable (after_op o w).
Proof. intros Hw Ho Hr. eapply reach_op; [exact Hw|exact Ho|by apply after_op_ok]. Qed.

Lemma inbox2_reachable : reachable inbox2.
Proof. do 2 (apply after_op_reachable; [|vm_compute; reflexivity|vm_compute; reflexivity]). constructor. Qed.

Example inbox_demo :
  log (after_op (Push "u-dave" "ring") inbox2) phone = ["ring"] /\
  log (after_op (Push "u-dave" "ring") inbox2) laptop = ["ring"].
Proof. vm_compute. done. Qed.

Lemma inbox_ops_succeed_witness :
  exists w', run (idle_sched _) (Push "u-dave" "ring") inbox2 = Ok (tt, w') /\ inbox_inv w'.
Proof. apply inbox_ops_succeed; [exact inbox2_reachable|exact I]. Defined.

Lemma delivered_count_exact_witness :
  exists n w', Deliver (idle_sched _) "u-dave" "ring" inbox2 = Ok (n, w') /\
    n = size (of_user w' "u-dave") /\ of_user w' "u-dave" ⊆ of_user inbox2 "u-dave" /\
    (forall k, k ∈ of_user w' "u-dave" -> log w' k = log inbox2 k ++ ["ring"]) /\
    (forall k, k ∈ of_user inbox2 "u-dave" -> k ∉ of_user w' "u-dave" ->
       log w' k = log inbox2 k /\ status w' k = Some true) /\
    (forall u, u ≠ "u-dave" -> of_user w' u = of_user inbox2 u) /\
    (forall k, userID k ≠ "u-dave" -> log w' k = log inbox2 k /\ status w' k = status inbox2 k).
Proof. apply delivered_count_exact. exact inbox2_reachable. Defined.

Lemma delivered_zero_unreachable_witness :
  match Deliver (idle_sched _) "u-erin" "ring" inbox2 with
  | Ok (n, w') => n = 0 <-> of_user w' "u-erin" = ∅
  | _ => False
  end.
Proof.
  assert ((if Deliver (idle_sched _) "u-erin" "ring" inbox2 is Ok _ then true else false) = true) as Hok
    by (vm_compute; reflexivity).
  destruct (Deliver (idle_sched _) "u-erin" "ring" inbox2) as [[n w']| |] eqn:E; [|discriminate Hok..].
  apply (delivered_zero_unreachable (idle_sched _) "u-erin" "ring" inbox2); [exact inbox2_reachable|exact E].
Defined.

Lemma inbox_remove_idempotent_witness :
  let w' := after_op (Remove phone) inbox2 in
  phone ∉ of_user w' "u-dave" /\ (forall k, log w' k = log inbox2 k) /\ remove phone w' = Ok (tt, w').
Proof.
  apply (inbox_remove_idempotent phone inbox2); [exact inbox2_reachable|].
  apply (after_op_ok (Remove phone)). vm_compute. reflexivity.
Defined.

Lemma inbox_shutdown_final_witness :
  let w' := after_op Close inbox2 in
  (forall k, status inbox2 k ≠ None -> status w' k = Some true) /\
  ConnectionCount w' = Ok (0%Z, w') /\ add phone w' = Ok (false, w') /\
  wp (Deliver (idle_sched _) "u-dave" "ring") (fun n w2 => n = 0 /\ hub w2 = hub w') w'.
Proof.
  apply (inbox_shutdown_final (idle_sched _) inbox2); [exact inbox2_reachable|].
  apply (after_op_ok Close). vm_compute. reflexivity.
Defined.

Lemma connection_count_exact_witness : ConnectionCount inbox2 = Ok (2%Z, inbox2).
Proof. apply connection_count_exact; [exact inbox2_reachable|vm_compute; reflexivity]. Defined.
