(* ===== verification/InboxConn.v ===== *)
(** * One inbox connection, and what write pumps write

    [src/internal/inbox/conn.go] after the upgrade, and the part it shares with
    [src/internal/signaling/client.go]: the write pump at the receiving end of the
    send channel. *)

From S2P Require Import Prelude Chan Registry SignalClient InboxHub.

(** ** The connection *)

(** What [ServeHTTP] leaves behind: the two pumps, or the close frame it sends
    itself. *)
Inductive admitted :=
| Pumping
| TurnedAway (w : ws_write).

(** [ServeHTTP] once the connection is upgraded. *)
Definition attach (c : conn) : ST state admitted :=
  ok <-- add c ;;
  if ok : bool then st_ret Pumping
  else st_ret (TurnedAway (WriteClose CloseGoingAway "server shutting down")).

(** [readPump] up to [hub.remove]: how many frames it discards before the read that
    fails, if one does. *)
Fixpoint readPump (reads : list read_result) : nat * bool :=
  match reads with
  | [] => (0, false)
  | ReadError :: _ => (0, true)
  | ReadFrame _ _ :: reads => let '(n, ended) := readPump reads in (S n, ended)
  end.

(** The deferred calls of [readPump] run when its loop ends. *)
Definition read_pump_exit (c : conn) (reads : list read_result) : ST state unit :=
  if snd (readPump reads) then remove c else st_ret tt.

(** [writePump]: the same select, in the same order, as the signaling client's. *)
Fixpoint writePump (evs : list (write_event * bool)) : list ws_write :=
  match evs with
  | [] => []
  | (ev, ok) :: evs =>
      match ev with
      | ChannelClosed => [WriteClose CloseNormalClosure ""]
      | GotFrame data => WriteText data :: (if ok : bool then writePump evs else [])
      | PingTick => WritePing :: (if ok : bool then writePump evs else [])
      end
  end.

Lemma writePump_same evs : writePump evs = SignalClient.writePump evs.
Proof. induction evs as [|[[d| |] [|]] evs IH]; simpl; by rewrite ?IH. Qed.

(** ** A pump on its channel

    What happens to the channel of capacity [n] from its creation: the hub offers
    and closes, the select of the pump receives a frame, the close or a tick. *)
Inductive pumped (n : nat) : list (write_event * bool) -> chan -> Prop :=
| pumped_start : pumped n [] (make_chan n)
| pumped_offer evs c data b c' :
    pumped n evs c -> ch_offer c data = Ok (b, c') -> pumped n evs c'
| pumped_close evs c c' :
    pumped n evs c -> ch_close c = Ok c' -> pumped n evs c'
| pumped_frame evs c data rest ok :
    pumped n evs c -> ch_buf c = data :: rest -> pumped n (evs ++ [(GotFrame data, ok)]) (ch_take c)
| pumped_end evs c ok :
    pumped n evs c -> ch_buf c = [] -> ch_closed c = true -> pumped n (evs ++ [(ChannelClosed, ok)]) c
| pumped_tick evs c ok :
    pumped n evs c -> pumped n (evs ++ [(PingTick, ok)]) c.

(** The frames among the writes. *)
Fixpoint texts (ws : list ws_write) : list string :=
  match ws with
  | [] => []
  | WriteText data :: ws => data :: texts ws
  | _ :: ws => texts ws
  end.

(** The frames among the events. *)
Fixpoint got (evs : list (write_event * bool)) : list string :=
  match evs with
  | [] => []
  | (GotFrame data, _) :: evs => data :: got evs
  | _ :: evs => got evs
  end.

Definition is_close (w : ws_write) : bool := match w with WriteClose _ _ => true | _ => false end.

Lemma got_app evs evs' : got (evs ++ evs') = got evs ++ got evs'.
Proof. induction evs as [|[[d| |] ok] evs IH]; simpl; by rewrite ?IH. Qed.

Lemma texts_prefix evs : texts (writePump evs) `prefix_of` got evs.
Proof.
  induction evs as [|[[d| |] [|]] evs IH]; simpl; auto using prefix_cons, prefix_nil.
Qed.

(** A close frame ends what was received before the close, all of it. *)
Lemma close_splits evs w :
  w ∈ writePump evs -> is_close w = true ->
  w = WriteClose CloseNormalClosure "" /\
  exists before ok after, evs = before ++ (ChannelClosed, ok) :: after /\ texts (writePump evs) = got before.
Proof.
  induction evs as [|[ev ok] evs IH]; simpl; intros Hw Hc; [set_solver|].
  assert (forall x, x ∈ (if ok then writePump evs else []) -> ok = true /\ x ∈ writePump evs) as Hrest
    by (intros x; destruct ok; set_solver).
  destruct ev as [d| |].
  - apply elem_of_cons in Hw as [->|[-> Hw]%Hrest]; [done|].
    destruct (IH Hw Hc) as (-> & bs & o & af & -> & Ht). split; [done|].
    exists ((GotFrame d, true) :: bs), o, af. simpl. by rewrite Ht.
  - apply list_elem_of_singleton in Hw as ->. split; [done|]. by exists [], ok, evs.
  - apply elem_of_cons in Hw as [->|[-> Hw]%Hrest]; [done|].
    destruct (IH Hw Hc) as (-> & bs & o & af & -> & Ht). split; [done|].
    exists ((PingTick, true) :: bs), o, af. simpl. by rewrite Ht.
Qed.

(** The receiver's history is what the pump got; a pump that saw the close had got
    everything the channel accepted, and ever will. *)
Lemma pumped_got n evs c :
  pumped n evs c ->
  ch_got c = got evs /\
  forall before ok after, evs = before ++ (ChannelClosed, ok) :: after ->
    ch_closed c = true /\ ch_buf c = [] /\ got before = ch_log c.
Proof.
  induction 1 as [|evs c data b c' _ [IH1 IH2] Ho|evs c c' _ [IH1 IH2] Ho|evs c data rest ok _ [IH1 IH2] Hb
    |evs c ok _ [IH1 IH2] Hb Hc|evs c ok _ [IH1 IH2]].
  - split; [done|]. by intros [].
  - unfold ch_offer in Ho. destruct (ch_closed c) eqn:Hc; [done|].
    split; [|intros bs o af E; destruct (IH2 bs o af E); congruence]. case_decide; by injection Ho as <- <-.
  - unfold ch_close in Ho. destruct (ch_closed c) eqn:Hc; [done|]. injection Ho as <-.
    split; [done|]. intros bs o af E. destruct (IH2 bs o af E); congruence.
  - assert (ch_take c = Chan (ch_cap c) rest (ch_got c ++ [data]) (ch_closed c)) as Ht by (unfold ch_take; by rewrite Hb).
    rewrite Ht, got_app. simpl. split; [by rewrite IH1|]. intros bs o af E.
    destruct af as [|y af _] using rev_ind; [by apply app_inj_tail in E as [_ [=]]|].
    rewrite app_comm_cons, app_assoc in E. apply app_inj_tail in E as [E _].
    destruct (IH2 bs o af E) as (_ & Hnil & _). congruence.
  - rewrite got_app. simpl. split; [by rewrite app_nil_r|]. intros bs o af E. split; [done|]. split; [done|].
    unfold ch_log. rewrite Hb, app_nil_r, IH1. destruct af as [|y af _] using rev_ind.
    + by apply app_inj_tail in E as [-> _].
    + rewrite app_comm_cons, app_assoc in E. apply app_inj_tail in E as [E _].
      destruct (IH2 bs o af E) as (_ & _ & ->). unfold ch_log. by rewrite Hb, app_nil_r, IH1.
  - rewrite got_app. simpl. split; [by rewrite app_nil_r|]. intros bs o af E.
    destruct af as [|y af _] using rev_ind; [by apply app_inj_tail in E as [_ [=]]|].
    rewrite app_comm_cons, app_assoc in E. apply app_inj_tail in E as [E _]. by apply IH2 in E.
Qed.

(** What was written, and a close frame among it, against what was accepted. *)
Lemma written_accepted n evs c :
  pumped n evs c ->
  texts (writePump evs) `prefix_of` ch_log c /\
  forall w, w ∈ writePump evs -> is_close w = true ->
    w = WriteClose CloseNormalClosure "" /\ texts (writePump evs) = ch_log c /\ ch_closed c = true.
Proof.
  intros Hp. destruct (pumped_got _ _ _ Hp) as [Hg Hall]. split.
  - etrans; [apply texts_prefix|]. rewrite <- Hg. by exists (ch_buf c).
  - intros w Hw Hc. destruct (close_splits _ _ Hw Hc) as (-> & bs & ok & af & E & ->).
    by destruct (Hall _ _ _ E) as (? & ? & ->).
Qed.

(** ** Properties *)

(** C29: what a connection is sent is, in order and without gaps, the beginning of
    what its hub accepted for it; and a client that is sent the close frame has been
    sent all of it, so a clean close never swallows a frame. *)
Theorem close_after_everything n evs c :
  pumped n evs c ->
  texts (writePump evs) `prefix_of` ch_log c /\
  forall w, w ∈ writePump evs -> is_close w = true ->
    w = WriteClose CloseNormalClosure "" /\ texts (writePump evs) = ch_log c /\ ch_closed c = true.
Proof. apply written_accepted. Qed.

(** Once the hub has closed the channel, the pump is done after the frames that
    are still buffered: as long as its writes succeed, taking them one by one and then
    seeing the close writes each of them and then the close frame. *)
Theorem closed_pump_drains n evs c :
  pumped n evs c -> ch_closed c = true -> Forall (fun e => e.2 = true /\ e.1 <> ChannelClosed) evs ->
  exists c', pumped n (evs ++ ((fun d => (GotFrame d, true)) <$> ch_buf c) ++ [(ChannelClosed, true)]) c' /\
    writePump (evs ++ ((fun d => (GotFrame d, true)) <$> ch_buf c) ++ [(ChannelClosed, true)]) =
      writePump evs ++ (WriteText <$> ch_buf c) ++ [WriteClose CloseNormalClosure ""] /\
    ch_buf c' = [] /\ ch_log c' = ch_log c.
Proof.
  intros Hp Hc Hok.
  assert (forall ds, writePump (evs ++ ((fun d => (GotFrame d, true)) <$> ds) ++ [(ChannelClosed, true)]) =
    writePump evs ++ (WriteText <$> ds) ++ [WriteClose CloseNormalClosure ""]) as Hw.
  { intros ds. clear -Hok. induction Hok as [|[ev ok] evs [Ho Hne] _ IH]; simpl in *.
    - induction ds as [|d ds IHd]; [done|]. cbn. by f_equal.
    - subst. destruct ev; cbn; [by f_equal|done|by f_equal]. }
  rewrite Hw. clear Hw Hok. remember (ch_buf c) as ds eqn:Hb. revert evs c Hp Hc Hb.
  induction ds as [|d ds IH]; intros evs c Hp Hc Hb; simpl.
  - exists c. by split; [apply pumped_end|].
  - destruct (IH (evs ++ [(GotFrame d, true)]) (ch_take c)) as (c' & H1 & _ & H2 & H3).
    + by eapply pumped_frame.
    + by rewrite ch_take_closed.
    + unfold ch_take. by rewrite <- Hb.
    + exists c'. rewrite <- app_assoc in H1. rewrite H3, ch_take_log. done.
Qed.

(** ** A concrete run *)

(** Two frames are queued, the first is written, a ping goes out, the hub closes. *)
Definition demo_chan : chan := Chan sendBufferSize ["bye"] ["ring"] true.
Definition demo_events : list (write_event * bool) := [(GotFrame "ring", true); (PingTick, true)].

Lemma demo_pumped : pumped sendBufferSize demo_events demo_chan.
Proof.
  eapply (pumped_close _ _ (Chan sendBufferSize ["bye"] ["ring"] false)); [|done].
  apply (pumped_tick _ [(GotFrame "ring", true)]).
  apply (pumped_frame _ [] (Chan sendBufferSize ["ring"; "bye"] [] false) "ring" ["bye"]); [|done].
  eapply (pumped_offer _ _ (Chan sendBufferSize ["ring"] [] false) "bye"); [|done].
  eapply pumped_offer; [apply pumped_start|done].
Qed.

Lemma close_after_everything_witness :
  texts (writePump demo_events) `prefix_of` ["ring"; "bye"].
Proof. exact (proj1 (close_after_everything _ _ _ demo_pumped)). Defined.

Lemma closed_pump_drains_witness :
  exists c', pumped sendBufferSize (demo_events ++ [(GotFrame "bye", true); (ChannelClosed, true)]) c' /\
    writePump (demo_events ++ [(GotFrame "bye", true); (ChannelClosed, true)]) =
      [WriteText "ring"; WritePing; WriteText "bye"; WriteClose CloseNormalClosure ""] /\
    ch_buf c' = [] /\ ch_log c' = ["ring"; "bye"].
Proof.
  apply (closed_pump_drains _ _ _ demo_pumped eq_refl).
  constructor; [done|constructor; [done|constructor]].
Defined.
