(* ===== verification/Keepalive.v ===== *)
(** * Keepalive: the deadlines of a connection

    The two pumps of a connection of [src/internal/signaling/client.go] or
    [src/internal/inbox/conn.go] on their socket, in time: the read deadline that
    every pong pushes back, the pings of the ticker, the deadline of every write, and
    how one pump ends the other.

    Of the socket the model has what the documentation of gorilla/websocket and of
    [net.Conn] promises: a read or write that is still waiting at its deadline fails;
    after [Close] both fail; the pong handler runs inside [ReadMessage]; a message
    over the read limit is an error. Times are nanoseconds. [slack] is how long the
    runtime may take to wake a goroutine or a timer that is due, or the hub to take a
    call. Two things are left out: a frame that the reader's buffer already holds when
    the read deadline passes is not read any more, and when both pumps write at once
    ([refusal_overlaps]) the library does not panic but both writes go on. *)

From S2P Require Import Prelude Chan Registry Protocol TokenBucket SignalHub SignalClient InboxEvents InboxHub InboxConn.

Definition Second : Z := 1000000000.

(** The constants of [client.go] and those of [conn.go]. *)
Definition signal_writeWait : Z := 10 * Second.
Definition signal_pongWait : Z := 60 * Second.
Definition signal_pingPeriod : Z := (signal_pongWait * 9) / 10.
Definition signal_maxMessageSize : Z := Z.shiftl 64 10.

Definition inbox_writeWait : Z := 10 * Second.
Definition inbox_pongWait : Z := 60 * Second.
Definition inbox_pingPeriod : Z := (inbox_pongWait * 9) / 10.
Definition inbox_maxMessageSize : Z := 512.

Inductive package := Signaling | Inbox.

Definition write_wait (pkg : package) : Z := match pkg with Signaling => signal_writeWait | Inbox => inbox_writeWait end.
Definition pong_wait (pkg : package) : Z := match pkg with Signaling => signal_pongWait | Inbox => inbox_pongWait end.
Definition ping_period (pkg : package) : Z := match pkg with Signaling => signal_pingPeriod | Inbox => inbox_pingPeriod end.
Definition max_message (pkg : package) : Z := match pkg with Signaling => signal_maxMessageSize | Inbox => inbox_maxMessageSize end.
Definition send_buffer (pkg : package) : nat :=
  match pkg with Signaling => SignalHub.sendBufferSize | Inbox => InboxHub.sendBufferSize end.

Arguments Second : simpl never.
Arguments write_wait : simpl never.
Arguments pong_wait : simpl never.
Arguments ping_period : simpl never.
Arguments max_message : simpl never.
Arguments send_buffer : simpl never.

(** What the deadlines rest on, in either package. *)
Lemma periods pkg :
  (0 < ping_period pkg /\ 0 <= write_wait pkg /\ pong_wait pkg - ping_period pkg = 6 * Second /\
   pong_wait pkg - ping_period pkg < ping_period pkg /\ pong_wait pkg + write_wait pkg = 70 * Second)%Z.
Proof. by destruct pkg. Qed.

(** ** The state of a connection *)

(** Where [readPump] is: in [ReadMessage]; in [publish], until the hub takes the
    message; in the [writeClose] it ends some clients with; in its deferred calls,
    [drop] and then [close]; done. A deadline, or the time by which the call is over. *)
Inductive reader_at :=
| Reading
| Publishing (by_ : Z)
| Refusing (code : Z) (reason : string) (deadline : Z)
| Dropping (by_ : Z)
| Leaving (by_ : Z)
| ReaderDone.

(** Where [writePump] is: in its select, since when it has been able to go on if
    anything is ready; in a [write]; in its deferred calls; done. *)
Inductive writer_at :=
| Selecting (ready : option Z)
| Writing (w : ws_write) (deadline : Z)
| Closing (by_ : Z)
| WriterDone.

Section keepalive.
(** What a package does with a message: the state it keeps (the signaling client's
    budget), and the close frame with which [readPump] ends the client, if it does. *)
Context {B : Type} (on_message : B -> Z -> bool -> string -> B * option (Z * string)).
Context (pkg : package) (slack : Z).

Abbreviation writeWait := (write_wait pkg).
Abbreviation pongWait := (pong_wait pkg).
Abbreviation pingPeriod := (ping_period pkg).

Record link := mkLink {
  now : Z;
  read_deadline : Z;
  last_pong : Z;               (* or the start *)
  budget : B;
  reader : reader_at;
  writer : writer_at;
  next_tick : Z;               (* the ticker's *)
  tick : option Z;             (* since when a tick waits in its channel of one *)
  send : chan;
  closed : option Z;           (* when the socket was closed *)
  pinged : option Z;           (* since when a ping is unanswered *)
  events : list (write_event * bool);   (* what the writer received, and how its write went *)
  wire : list ws_write         (* what it wrote *)
}.

Definition set_now t l := mkLink t (read_deadline l) (last_pong l) (budget l) (reader l) (writer l) (next_tick l) (tick l)
  (send l) (closed l) (pinged l) (events l) (wire l).
Definition set_budget b l := mkLink (now l) (read_deadline l) (last_pong l) b (reader l) (writer l) (next_tick l) (tick l)
  (send l) (closed l) (pinged l) (events l) (wire l).
Definition set_reader p l := mkLink (now l) (read_deadline l) (last_pong l) (budget l) p (writer l) (next_tick l) (tick l)
  (send l) (closed l) (pinged l) (events l) (wire l).
Definition set_writer p l := mkLink (now l) (read_deadline l) (last_pong l) (budget l) (reader l) p (next_tick l) (tick l)
  (send l) (closed l) (pinged l) (events l) (wire l).
Definition set_ticker next t l := mkLink (now l) (read_deadline l) (last_pong l) (budget l) (reader l) (writer l) next t
  (send l) (closed l) (pinged l) (events l) (wire l).
Definition set_send c l := mkLink (now l) (read_deadline l) (last_pong l) (budget l) (reader l) (writer l) (next_tick l) (tick l)
  c (closed l) (pinged l) (events l) (wire l).
Definition set_pinged p l := mkLink (now l) (read_deadline l) (last_pong l) (budget l) (reader l) (writer l) (next_tick l) (tick l)
  (send l) (closed l) p (events l) (wire l).

(** The pong handler. *)
Definition pong l := mkLink (now l) (now l + pongWait) (now l) (budget l) (reader l) (writer l) (next_tick l) (tick l)
  (send l) (closed l) None (events l) (wire l).
Definition add_event e l := mkLink (now l) (read_deadline l) (last_pong l) (budget l) (reader l) (writer l) (next_tick l) (tick l)
  (send l) (closed l) (pinged l) (events l ++ [e]) (wire l).

(** [write] starts: [SetWriteDeadline], then [WriteMessage]. *)
Definition write (w : ws_write) l := mkLink (now l) (read_deadline l) (last_pong l) (budget l) (reader l)
  (Writing w (now l + writeWait)) (next_tick l) (tick l) (send l) (closed l) (pinged l) (events l) (wire l ++ [w]).

(** [close]: the second call changes nothing. *)
Definition close l := mkLink (now l) (read_deadline l) (last_pong l) (budget l) (reader l) (writer l) (next_tick l) (tick l)
  (send l) (Some (match closed l with None => now l | Some t => t end)) (pinged l) (events l) (wire l).

(** The pumps start: the read deadline is set [skew] before the ticker starts. *)
Definition connected (start skew : Z) (b : B) : link :=
  mkLink (start + skew) (start + pongWait) start b Reading (Selecting None) (start + skew + pingPeriod) None
    (make_chan (send_buffer pkg)) None None [] [].

(** ** Steps *)

(** Something for the select to receive. *)
Definition ready (l : link) : bool :=
  bool_decide (tick l <> None) || bool_decide (ch_buf (send l) <> []) || ch_closed (send l).

Definition wake (l : link) : link :=
  match writer l with
  | Selecting None => if ready l then set_writer (Selecting (Some (now l))) l else l
  | _ => l
  end.

(** When a call on the socket with this deadline returns at the latest. *)
Definition until (deadline : Z) (l : link) : Z :=
  (match closed l with None => deadline | Some t => Z.min deadline t end + slack)%Z.

Definition reader_due (l : link) : option Z :=
  match reader l with
  | Reading => Some (until (read_deadline l) l)
  | Refusing _ _ d => Some (until d l)
  | Publishing t | Dropping t | Leaving t => Some t
  | ReaderDone => None
  end.

Definition writer_due (l : link) : option Z :=
  match writer l with
  | Selecting since => (fun t => (t + slack)%Z) <$> since
  | Writing _ d => Some (until d l)
  | Closing t => Some t
  | WriterDone => None
  end.

(** The ticker runs until the deferred calls of [writePump]. *)
Definition ticking (l : link) : bool := match writer l with Selecting _ | Writing _ _ => true | _ => false end.

Definition tick_due (l : link) : option Z := if ticking l then Some (next_tick l + slack)%Z else None.

(** Nothing is overdue at [t]. *)
Definition on_time (t : Z) (l : link) : bool :=
  forallb (fun due => match due with None => true | Some b => (t <=? b)%Z end) [reader_due l; writer_due l; tick_due l].

(** What the writer received, from what it is writing. *)
Definition received (w : ws_write) : write_event :=
  match w with WriteText d => GotFrame d | WritePing => PingTick | WriteClose _ _ => ChannelClosed end.

(** The hub's [drop] or [remove]: the channel is closed unless it already is. *)
Definition hub_drop (c : chan) : chan := match ch_close c with Ok c' => c' | _ => c end.

Inductive link_step : link -> link -> Prop :=
| st_elapse t l : (now l <= t)%Z -> on_time t l = true -> link_step l (set_now t l)
| st_tick l :
    ticking l = true -> (next_tick l <= now l)%Z ->
    link_step l (wake (set_ticker (next_tick l + pingPeriod)
      (Some (match tick l with None => now l | Some t => t end)) l))
(* in [ReadMessage] *)
| st_pong l :
    reader l = Reading -> closed l = None -> (now l <= read_deadline l)%Z ->
    link_step l (pong l)
| st_message text data b l :
    reader l = Reading -> closed l = None -> (now l <= read_deadline l)%Z ->
    (Z.of_nat (String.length data) <= max_message pkg)%Z -> on_message (budget l) (now l) text data = (b, None) ->
    link_step l (set_budget b l)
| st_publish text data b l :
    pkg = Signaling -> reader l = Reading -> closed l = None -> (now l <= read_deadline l)%Z ->
    (Z.of_nat (String.length data) <= max_message pkg)%Z -> on_message (budget l) (now l) text data = (b, None) ->
    link_step l (set_reader (Publishing (now l + slack)) (set_budget b l))
| st_published t l : reader l = Publishing t -> link_step l (set_reader Reading l)
| st_refuse text data b code reason l :
    reader l = Reading -> closed l = None -> (now l <= read_deadline l)%Z ->
    (Z.of_nat (String.length data) <= max_message pkg)%Z -> on_message (budget l) (now l) text data = (b, Some (code, reason)) ->
    link_step l (set_reader (Refusing code reason (now l + writeWait)) (set_budget b l))
| st_read_fails l : reader l = Reading -> link_step l (set_reader (Dropping (now l + slack)) l)
| st_refused code reason d l :
    reader l = Refusing code reason d -> link_step l (set_reader (Dropping (now l + slack)) l)
(* the deferred calls of [readPump] *)
| st_drop t l :
    reader l = Dropping t ->
    link_step l (wake (set_send (hub_drop (send l)) (set_reader (Leaving (now l + slack)) l)))
| st_leave t l : reader l = Leaving t -> link_step l (close (set_reader ReaderDone l))
(* the hub *)
| st_offer data b c l : ch_offer (send l) data = Ok (b, c) -> link_step l (wake (set_send c l))
| st_evict c l : ch_close (send l) = Ok c -> link_step l (wake (set_send c l))
(* the select of [writePump] *)
| st_take since data rest l :
    writer l = Selecting since -> ch_buf (send l) = data :: rest ->
    link_step l (write (WriteText data) (set_send (ch_take (send l)) l))
| st_take_close since l :
    writer l = Selecting since -> ch_buf (send l) = [] -> ch_closed (send l) = true ->
    link_step l (write (WriteClose CloseNormalClosure "") l)
| st_take_tick since t l :
    writer l = Selecting since -> tick l = Some t ->
    link_step l (write WritePing (set_ticker (next_tick l) None
      (set_pinged (Some (match pinged l with None => now l | Some s => s end)) l)))
| st_wrote w d l :
    writer l = Writing w d -> is_close w = false -> closed l = None -> (now l <= d)%Z ->
    link_step l (wake (set_writer (Selecting None) (add_event (received w, true) l)))
| st_write_ends w d ok l :
    writer l = Writing w d -> ok = false \/ is_close w = true ->
    link_step l (set_writer (Closing (now l + slack)) (add_event (received w, ok) l))
| st_close t l : writer l = Closing t -> link_step l (close (set_writer WriterDone l)).

(** Everything a connection goes through from its start, as long as [P] holds. *)
Inductive lives (P : link -> Prop) (start skew : Z) (b : B) : link -> Prop :=
| lives_start : lives P start skew b (connected start skew b)
| lives_step l l' : lives P start skew b l -> link_step l l' -> P l' -> lives P start skew b l'.

(** ** Facts *)

Hypothesis slack_pos : (0 <= slack)%Z.

(** Whatever is proved of the state but for the point of the select. *)
Lemma wake_spec l :
  wake l = l \/ writer l = Selecting None /\ ready l = true /\ wake l = set_writer (Selecting (Some (now l))) l.
Proof. unfold wake. destruct (writer l) as [[t|]| | |]; auto. destruct (ready l); auto. Qed.

Lemma on_time_due t l :
  on_time t l = true -> forall d b, d ∈ [reader_due l; writer_due l; tick_due l] -> d = Some b -> (t <= b)%Z.
Proof.
  unfold on_time. rewrite forallb_forall. intros Hall d b Hd%list_elem_of_In ->. by apply Z.leb_le, (Hall (Some b)).
Qed.

Lemma on_time_reader t l d : on_time t l = true -> reader_due l = Some d -> (t <= d)%Z.
Proof. intros Ht. apply (on_time_due _ _ Ht). set_solver. Qed.

Lemma on_time_writer t l d : on_time t l = true -> writer_due l = Some d -> (t <= d)%Z.
Proof. intros Ht. apply (on_time_due _ _ Ht). set_solver. Qed.

Lemma on_time_tick t l : on_time t l = true -> ticking l = true -> (t <= next_tick l + slack)%Z.
Proof.
  intros Ht Htick. apply (on_time_due _ _ Ht (tick_due l)); [set_solver|]. unfold tick_due. by rewrite Htick.
Qed.

(** ** A peer that answers *)

(** A waiting tick is taken within [lag], and a ping answered within [rtt]. *)
Definition prompt (lag rtt : Z) (l : link) : Prop :=
  (forall t, tick l = Some t -> (now l <= t + lag)%Z) /\ (forall t, pinged l = Some t -> (now l <= t + rtt)%Z).

(** Where the deadline is relative to the ticker. *)
Record on_beat (lag gap : Z) (l : link) : Prop := {
  ob_after : (next_tick l - pingPeriod <= now l)%Z;
  ob_before : (now l <= next_tick l + slack)%Z;
  ob_deadline : (next_tick l - pingPeriod + gap <= read_deadline l)%Z;
  ob_cycle : match tick l, pinged l with
    | None, None => (next_tick l + gap <= read_deadline l)%Z
    | Some t, None => (next_tick l - pingPeriod <= t <= next_tick l - pingPeriod + slack)%Z
    | None, Some s => (next_tick l - pingPeriod <= s <= next_tick l - pingPeriod + slack + lag)%Z
    | Some _, Some _ => False
    end
}.

Definition receiving (l : link) : bool := match reader l with Reading | Publishing _ => true | _ => false end.

Definition keeps_beat (lag gap : Z) (l : link) : Prop :=
  receiving l = true -> ticking l = true -> on_beat lag gap l.

(** Steps that change neither clock, ticker, deadline nor pings. *)
Lemma beat_kept lag gap l l' :
  (receiving l' = true -> receiving l = true) -> (ticking l' = true -> ticking l = true) ->
  (now l', read_deadline l', next_tick l', tick l', pinged l') = (now l, read_deadline l, next_tick l, tick l, pinged l) ->
  keeps_beat lag gap l -> keeps_beat lag gap l'.
Proof.
  intros Hr Ht [= En Ed Ex Et Ep] Hl Hr' Ht'. destruct (Hl (Hr Hr') (Ht Ht')) as [H1 H2 H3 H4].
  split; by rewrite ?En, ?Ed, ?Ex, ?Et, ?Ep.
Qed.

Lemma beat_wake lag gap l : keeps_beat lag gap l -> keeps_beat lag gap (wake l).
Proof.
  destruct (wake_spec l) as [->|(Hw & _ & ->)]; [done|]. apply beat_kept; [done| |done].
  unfold ticking. by rewrite Hw.
Qed.

Lemma beat_tick lag rtt gap l :
  (slack + lag + rtt < pingPeriod)%Z -> (0 <= lag)%Z -> (0 <= rtt)%Z -> prompt lag rtt l -> keeps_beat lag gap l ->
  ticking l = true -> (next_tick l <= now l)%Z ->
  keeps_beat lag gap (set_ticker (next_tick l + pingPeriod) (Some (match tick l with None => now l | Some t => t end)) l).
Proof.
  intros Hsum Hlag Hrtt [Htick Hping] Hl Ht Hn Hr _. destruct (Hl Hr Ht) as [H1 H2 H3 H4].
  destruct (periods pkg) as (Hpos & _).
  destruct (tick l) as [t|], (pinged l) as [p|] eqn:Ep; try done;
    [specialize (Htick _ eq_refl); lia|specialize (Hping _ eq_refl); lia|].
  split; simpl; rewrite ?Ep; lia.
Qed.

Lemma beat_pong lag gap l :
  (gap <= pongWait - pingPeriod)%Z -> keeps_beat lag gap l -> keeps_beat lag gap (pong l).
Proof.
  intros Hgap Hl Hr Ht. destruct (Hl Hr Ht) as [H1 H2 H3 H4].
  destruct (periods pkg) as (Hpos & _). split; simpl in *; [lia..|]. destruct (tick l), (pinged l); simpl; lia || done.
Qed.

Lemma beat_ping lag rtt gap t l :
  prompt lag rtt l -> tick l = Some t -> keeps_beat lag gap l -> ticking l = true ->
  keeps_beat lag gap (write WritePing (set_ticker (next_tick l) None
    (set_pinged (Some (match pinged l with None => now l | Some s => s end)) l))).
Proof.
  intros [Hlag _] Ht Hl Htk Hr _. destruct (Hl Hr Htk) as [H1 H2 H3 H4]. specialize (Hlag _ Ht). rewrite Ht in H4.
  split; simpl; [lia..|]. destruct (pinged l); [done|]. lia.
Qed.

Lemma beat_step lag rtt gap l l' :
  (slack + lag + rtt < gap)%Z -> (gap <= pongWait - pingPeriod)%Z -> (0 <= lag)%Z -> (0 <= rtt)%Z ->
  prompt lag rtt l -> keeps_beat lag gap l -> link_step l l' -> keeps_beat lag gap l'.
Proof.
  intros Hsum Hgap Hlag Hrtt Hp Hl Hstep.
  destruct (periods pkg) as (_ & _ & _ & Hsix & _).
  destruct Hstep as [t l Hn Ht|l Ht Hn|l Hr Hc Hn|text data b l Hr|text data b l _ Hr|t l Hr|text data b code reason l Hr|l Hr|code reason d l Hr
    |t l Hr|t l Hr|data b c l Ho|c l Ho|since data rest l Hw|since l Hw|since t l Hw Ht|w d l Hw|w d ok l Hw|t l Hw].
  - intros Hr Htk. destruct (Hl Hr Htk) as [H1 H2 H3 H4]. pose proof (on_time_tick _ _ Ht Htk).
    split; simpl; [lia..|done].
  - apply beat_wake, (beat_tick lag rtt); [lia|done..].
  - by apply beat_pong.
  - by eapply beat_kept, Hl.
  - eapply beat_kept, Hl; [|done..]. unfold receiving. by rewrite Hr.
  - eapply beat_kept, Hl; [|done..]. unfold receiving. by rewrite Hr.
  - by eapply beat_kept, Hl.
  - by eapply beat_kept, Hl.
  - by eapply beat_kept, Hl.
  - apply beat_wake. by eapply beat_kept, Hl.
  - by eapply beat_kept, Hl.
  - apply beat_wake. by eapply beat_kept, Hl.
  - apply beat_wake. by eapply beat_kept, Hl.
  - eapply beat_kept, Hl; [done| |done]. unfold ticking. by rewrite Hw.
  - eapply beat_kept, Hl; [done| |done]. unfold ticking. by rewrite Hw.
  - apply (beat_ping lag rtt gap t); [done..|]. unfold ticking. by rewrite Hw.
  - apply beat_wake. eapply beat_kept, Hl; [done| |done]. unfold ticking. by rewrite Hw.
  - by eapply beat_kept, Hl.
  - by eapply beat_kept, Hl.
Qed.

Lemma lives_beat lag rtt start skew b l :
  (0 <= lag)%Z -> (0 <= rtt)%Z -> (0 <= skew)%Z -> (skew + slack + lag + rtt < pongWait - pingPeriod)%Z ->
  lives (prompt lag rtt) start skew b l -> prompt lag rtt l /\ keeps_beat lag (pongWait - pingPeriod - skew) l.
Proof.
  intros Hlag Hrtt Hskew Hsum. destruct (periods pkg) as (Hpos & _). induction 1 as [|l l' _ [Hp IH] Hstep Hp'].
  - split; [by split|]. intros _ _. split; simpl; lia.
  - split; [done|]. apply (beat_step lag rtt _ l); [lia|lia|done..].
Qed.

(** C31: a peer that answers is never timed out: when a tick waits at most [lag] for the
    select, a ping is answered within [rtt], and these, the wake-ups and the delay
    between the starts of the two pumps add up to less than six seconds, then in
    every state in which both pumps run the read deadline is still ahead. *)
Theorem prompt_peer_kept lag rtt start skew b l :
  (0 <= lag)%Z -> (0 <= rtt)%Z -> (0 <= skew)%Z -> (skew + slack + lag + rtt < 6 * Second)%Z ->
  lives (prompt lag rtt) start skew b l -> reader l = Reading -> ticking l = true ->
  (now l < read_deadline l)%Z.
Proof.
  intros Hlag Hrtt Hskew Hsum Hl Hr Ht.
  destruct (periods pkg) as (_ & _ & H5 & H6 & _). rewrite <- H5 in Hsum.
  destruct (lives_beat lag rtt start skew b l Hlag Hrtt Hskew Hsum Hl) as [[Htick Hping] Hb].
  assert (receiving l = true) as Hrec by (unfold receiving; by rewrite Hr).
  destruct (Hb Hrec Ht) as [H1 H2 H3 H4].
  destruct (tick l) as [t|], (pinged l) as [p|]; try done;
    [specialize (Htick _ eq_refl)|specialize (Hping _ eq_refl)|]; lia.
Qed.

(** ** A peer that falls silent *)

(** By when the reader has gone. *)
Definition gone_by (l : link) : Z := (read_deadline l + writeWait + 3 * slack)%Z.

(** What bounds each of the places where the reader can be. *)
Definition reader_bound (l : link) : Prop :=
  match reader l with
  | Reading => (now l <= read_deadline l + slack)%Z
  | Publishing t => (now l <= t <= read_deadline l + slack)%Z
  | Refusing _ _ d => (d <= read_deadline l + writeWait /\ now l <= d + slack)%Z
  | Dropping t => (now l <= t <= read_deadline l + writeWait + 2 * slack)%Z
  | Leaving t => (now l <= t <= gone_by l)%Z /\ ch_closed (send l) = true
  | ReaderDone => ch_closed (send l) = true /\ exists t, closed l = Some t /\ (t <= gone_by l)%Z
  end.

(** The writer, always and once the reader is done. *)
Definition writer_bound (l : link) : Prop :=
  match writer l with
  | Selecting None => ready l = false
  | Selecting (Some t) => (t <= now l <= t + slack)%Z
  | Closing t => (now l <= t <= now l + slack)%Z
  | _ => True
  end.

Definition writer_after (l : link) : Prop :=
  match writer l with
  | Selecting (Some t) => (t <= gone_by l)%Z
  | Writing _ _ => (now l <= gone_by l + slack)%Z
  | Closing t => (t <= gone_by l + 2 * slack)%Z
  | _ => True
  end.

Record on_clock (l : link) : Prop := {
  oc_pong : read_deadline l = (last_pong l + pongWait)%Z;
  oc_closed : forall t, closed l = Some t -> (t <= now l)%Z;
  oc_reader : reader_bound l;
  oc_writer : writer_bound l;
  oc_after : reader l = ReaderDone -> writer_after l
}.

Lemma clock_wake l :
  read_deadline l = (last_pong l + pongWait)%Z -> (forall t, closed l = Some t -> (t <= now l)%Z) -> reader_bound l ->
  (writer l <> Selecting None -> writer_bound l) ->
  (reader l = ReaderDone -> writer l <> Selecting None /\ writer_after l) -> on_clock (wake l).
Proof.
  intros H1 H2 H3 H4 H5. unfold wake. destruct (writer l) as [[t|]| | |] eqn:Hw;
    try (split; [done..|apply H4; congruence|intros Hr; by apply H5]).
  destruct (ready l) eqn:Hready.
  - split; [done|done|done|simpl; unfold writer_bound; simpl; lia|]. intros Hr. by destruct (H5 Hr).
  - split; [done..|unfold writer_bound; by rewrite Hw|]. intros Hr. by destruct (H5 Hr).
Qed.

(** A writer that waits for nothing can receive nothing. *)
Lemma idle_open l : on_clock l -> writer l = Selecting None -> ch_closed (send l) = false.
Proof.
  intros [_ _ _ Hw _] E. unfold writer_bound in Hw. rewrite E in Hw. unfold ready in Hw.
  by apply orb_false_iff in Hw as [_ ?].
Qed.

Lemma done_busy l : on_clock l -> reader l = ReaderDone -> writer l <> Selecting None /\ writer_after l.
Proof.
  intros Hl Hr. split; [|by apply Hl]. intros Hw. pose proof (idle_open _ Hl Hw) as Hc.
  pose proof (oc_reader _ Hl) as Hb. unfold reader_bound in Hb. rewrite Hr in Hb. destruct Hb. congruence.
Qed.

Lemma clock_elapse t l : (now l <= t)%Z -> on_time t l = true -> on_clock l -> on_clock (set_now t l).
Proof.
  intros Hn Ht [H1 H2 H3 H4 H5]. pose proof (on_time_reader t l) as Hrd. pose proof (on_time_writer t l) as Hwd.
  unfold reader_due in Hrd. unfold writer_due in Hwd. unfold until in *.
  split; simpl; [done|intros x Hx; specialize (H2 _ Hx); lia| | |].
  - unfold reader_bound in *. simpl. unfold gone_by in *. simpl.
    destruct (reader l) as [|d|c r d|d|d|]; try specialize (Hrd _ Ht eq_refl); [| | | |split; [|apply H3]; destruct H3|done].
    all: destruct (closed l); lia.
  - unfold writer_bound in *. simpl. unfold ready in *. simpl.
    destruct (writer l) as [[d|]|w d|d|]; try specialize (Hwd _ Ht eq_refl); [lia|done|done|lia|done].
  - intros Hr. specialize (H5 Hr). unfold reader_bound in H3. rewrite Hr in H3. destruct H3 as (_ & x & Hx & Hle).
    unfold writer_after in *. simpl. unfold gone_by in *. simpl.
    destruct (writer l) as [[d|]|w d|d|]; try specialize (Hwd _ Ht eq_refl); [lia|done| |lia|done].
    rewrite Hx in Hwd. lia.
Qed.

(** Steps of the writer, which leave the reader where it is. *)
Lemma clock_writer l l' :
  (now l', read_deadline l', last_pong l', reader l', ch_closed (send l'), closed l') =
    (now l, read_deadline l, last_pong l, reader l, ch_closed (send l), closed l) ->
  on_clock l ->
  read_deadline l' = (last_pong l' + pongWait)%Z /\ (forall t, closed l' = Some t -> (t <= now l')%Z) /\
  reader_bound l' /\ gone_by l' = gone_by l.
Proof.
  intros [= En Ed Ep Er Es Ec] [H1 H2 H3 _ _]. unfold reader_bound, gone_by in *.
  rewrite En, Ed, Ep, Er, Es, Ec. done.
Qed.

(** A write of a writer that could go on, so not for longer. *)
Lemma clock_write w l l0 :
  (now l0, read_deadline l0, last_pong l0, reader l0, ch_closed (send l0), closed l0) =
    (now l, read_deadline l, last_pong l, reader l, ch_closed (send l), closed l) ->
  (exists since, writer l = Selecting since) -> on_clock l -> on_clock (write w l0).
Proof.
  intros E [since Hw] Hl. destruct (clock_writer l (write w l0) E Hl) as (H1 & H2 & H3 & H4).
  split; [done..|]. intros Hr. unfold writer_after. simpl. rewrite H4. simpl in Hr. injection E as En _ _ Er _ _.
  rewrite En. rewrite Er in Hr. destruct (done_busy _ Hl Hr) as [Hne Ha]. unfold writer_after in Ha.
  pose proof (oc_writer _ Hl) as Hb. unfold writer_bound in Hb. rewrite Hw in *.
  destruct since as [t|]; [lia|done].
Qed.

(** Steps of the reader on its way out. *)
Lemma clock_leaving l p :
  reader l <> ReaderDone -> p <> ReaderDone -> reader_bound (set_reader p l) -> on_clock l -> on_clock (set_reader p l).
Proof. intros Hr Hp Hb [H1 H2 H3 H4 H5]. by split. Qed.

Lemma ch_close_closed c c' : ch_close c = Ok c' -> ch_closed c' = true.
Proof. unfold ch_close. destruct (ch_closed c); [done|]. by intros [= <-]. Qed.

Lemma hub_drop_closed c : ch_closed (hub_drop c) = true.
Proof. unfold hub_drop, ch_close. by destruct (ch_closed c) eqn:E. Qed.

(** What the hub does to the channel. *)
Lemma clock_hub l c :
  (ch_closed (send l) = true -> ch_closed c = true) -> on_clock l -> on_clock (wake (set_send c l)).
Proof.
  intros Hc Hl. pose proof Hl as [H1 H2 H3 H4 _]. apply clock_wake; simpl; [done|done| | |].
  - unfold reader_bound in *. simpl. destruct (reader l); try done; destruct H3 as [? ?]; auto.
  - unfold writer_bound in *. simpl. by destruct (writer l) as [[]| | |].
  - intros Hr. exact (done_busy l Hl Hr).
Qed.

Lemma clock_drop t l :
  reader l = Dropping t -> on_clock l ->
  on_clock (wake (set_send (hub_drop (send l)) (set_reader (Leaving (now l + slack)) l))).
Proof.
  intros Hr [H1 H2 H3 H4 _]. apply clock_wake; simpl; [done|done| | |done].
  - unfold reader_bound in *. rewrite Hr in H3. simpl. unfold gone_by. simpl. split; [lia|apply hub_drop_closed].
  - unfold writer_bound in *. simpl. by destruct (writer l) as [[]| | |].
Qed.

Lemma clock_leave t l : reader l = Leaving t -> on_clock l -> on_clock (close (set_reader ReaderDone l)).
Proof.
  intros Hr Hl. pose proof Hl as [H1 H2 H3 H4 _]. unfold reader_bound in H3. rewrite Hr in H3. destruct H3 as [Hb Hc].
  split; simpl; [done| | |done|].
  - intros x. destruct (closed l) as [y|]; intros [= <-]; [by apply H2|lia].
  - unfold reader_bound. simpl. split; [done|]. eexists. split; [done|]. unfold gone_by in *. simpl.
    destruct (closed l) as [y|]; [specialize (H2 _ eq_refl)|]; lia.
  - intros _. unfold writer_after. simpl. unfold gone_by in *. simpl. unfold writer_bound in H4.
    destruct (writer l) as [[d|]|w d|d|] eqn:Hw; [lia| |lia|lia|done].
    exfalso. pose proof (idle_open _ Hl Hw). congruence.
Qed.

Lemma clock_tick l :
  on_clock l ->
  on_clock (wake (set_ticker (next_tick l + pingPeriod) (Some (match tick l with None => now l | Some t => t end)) l)).
Proof.
  intros Hl. pose proof Hl as [H1 H2 H3 H4 _]. apply clock_wake; simpl; [done..| |].
  - unfold writer_bound in *. simpl. by destruct (writer l) as [[]| | |].
  - intros Hr. exact (done_busy l Hl Hr).
Qed.

Lemma clock_pong l : reader l = Reading -> on_clock l -> on_clock (pong l).
Proof.
  intros Hr [H1 H2 H3 H4 H5]. split; simpl; [done|done| |done|congruence].
  unfold reader_bound. simpl. rewrite Hr. destruct (periods pkg) as (? & _ & ? & _). assert (0 < 6 * Second)%Z by done. lia.
Qed.

Lemma clock_wrote w d l :
  writer l = Writing w d -> closed l = None -> on_clock l ->
  on_clock (wake (set_writer (Selecting None) (add_event (received w, true) l))).
Proof.
  intros Hw Hc Hl. pose proof Hl as [H1 H2 H3 _ _]. apply clock_wake; simpl; [done..|].
  intros Hr. unfold reader_bound in H3. rewrite Hr in H3. destruct H3 as (_ & t & ? & _). congruence.
Qed.

Lemma clock_write_ends w d ok l :
  writer l = Writing w d -> on_clock l -> on_clock (set_writer (Closing (now l + slack)) (add_event (received w, ok) l)).
Proof.
  intros Hw [H1 H2 H3 H4 H5]. split; simpl; [done..|unfold writer_bound; simpl; lia|].
  intros Hr. specialize (H5 Hr). unfold writer_after in *. rewrite Hw in H5. simpl. unfold gone_by in *. simpl. lia.
Qed.

Lemma clock_close t l : writer l = Closing t -> on_clock l -> on_clock (close (set_writer WriterDone l)).
Proof.
  intros Hw [H1 H2 H3 H4 H5]. split; simpl; [done| | |done|done].
  - intros x. destruct (closed l) as [y|]; intros [= <-]; [by apply H2|lia].
  - unfold reader_bound in *. simpl. destruct (reader l); try done.
    destruct H3 as (? & y & Hy & Hle). rewrite Hy. split; [done|]. by exists y.
Qed.

Lemma clock_step l l' : link_step l l' -> on_clock l -> on_clock l'.
Proof.
  intros Hstep Hl. destruct (periods pkg) as (_ & Hwait & _).
  assert (forall p, reader l <> ReaderDone -> p <> ReaderDone ->
    reader_bound (set_reader p l) -> on_clock (set_reader p l)) as Hreader.
  { intros p Hr Hp Hb. by apply clock_leaving. }
  pose proof (oc_reader _ Hl) as Hb. unfold reader_bound in Hb.
  destruct Hstep as [t l Hn Ht|l Ht Hn|l Hr Hc Hn|text data b l Hr|text data b l _ Hr Hc Hn|t l Hr|text data b code reason l Hr Hc Hn|l Hr|code reason d l Hr
    |t l Hr|t l Hr|data b c l Ho|c l Ho|since data rest l Hw Hbuf|since l Hw|since t l Hw Ht|w d l Hw Hcl Hc|w d ok l Hw|t l Hw].
  - by apply clock_elapse.
  - by apply clock_tick.
  - by apply clock_pong.
  - by destruct Hl.
  - rewrite Hr in Hb. destruct Hl as [H1 H2 _ H4 _]. split; [done..| |done|done]. simpl. unfold reader_bound. simpl. lia.
  - rewrite Hr in Hb. apply Hreader; [congruence|done|]. unfold reader_bound. simpl. lia.
  - rewrite Hr in Hb. destruct Hl as [H1 H2 _ H4 _]. split; [done..| |done|done]. simpl. unfold reader_bound. simpl. lia.
  - rewrite Hr in Hb. apply Hreader; [congruence|done|]. unfold reader_bound. simpl. lia.
  - rewrite Hr in Hb. apply Hreader; [congruence|done|]. unfold reader_bound. simpl. lia.
  - by eapply clock_drop.
  - by eapply clock_leave.
  - apply clock_hub; [|done]. unfold ch_offer in Ho. destruct (ch_closed (send l)); [done|done].
  - apply clock_hub; [|done]. intros _. by eapply ch_close_closed.
  - apply (clock_write _ l); [|by eexists|done]. simpl. by rewrite ch_take_closed.
  - apply (clock_write _ l); [done|by eexists|done].
  - apply (clock_write _ l); [done|by eexists|done].
  - by eapply clock_wrote.
  - by eapply clock_write_ends.
  - by eapply clock_close.
Qed.

Lemma lives_clock P start skew b l :
  (0 <= skew <= pongWait)%Z -> lives P start skew b l -> on_clock l.
Proof.
  intros Hskew. induction 1 as [|l l' _ IH Hstep _]; [|by eapply clock_step].
  split; simpl; [done|done| |done|done]. unfold reader_bound. simpl. lia.
Qed.

(** C30: a peer that falls silent is let go: seventy seconds after its last pong, and
    five wake-ups, both pumps of its connection have ended, the hub has dropped it and
    the socket is closed, whatever was being written or waited for. *)
Theorem silent_peer_dropped P start skew b l :
  (0 <= skew <= pongWait)%Z -> lives P start skew b l ->
  (last_pong l + 70 * Second + 5 * slack < now l)%Z ->
  reader l = ReaderDone /\ writer l = WriterDone /\ ch_closed (send l) = true /\ closed l <> None.
Proof.
  intros Hskew Hl Hlate. pose proof (lives_clock _ _ _ _ _ Hskew Hl) as Hc. pose proof Hc as [H1 H2 H3 H4 H5].
  destruct (periods pkg) as (_ & Hw & _ & _ & Hsum).
  unfold reader_bound, gone_by in H3. destruct (reader l) eqn:Hr; try lia.
  destruct H3 as (Hclosed & t & Ht & _). pose proof (done_busy _ Hc Hr) as [Hidle Ha].
  unfold writer_after, writer_bound, gone_by in *.
  destruct (writer l) as [[d|]|w d|d|] eqn:Hwr; try lia; [done|]. rewrite Ht. done.
Qed.

(** Nothing in the model stops the clock: from every state the connection can run down,
    and then any time can come. *)
Lemma wake_same l : reader (wake l) = reader l /\ now (wake l) = now l /\ send (wake l) = send l.
Proof. by destruct (wake_spec l) as [->|(_ & _ & ->)]. Qed.

Definition runs_to (P : link -> Prop) (l : link) : Prop := exists l', rtc link_step l l' /\ now l' = now l /\ P l'.

Lemma runs_step (P : link -> Prop) l l' : link_step l l' -> now l' = now l -> runs_to P l' -> runs_to P l.
Proof. intros Hs Hn (l2 & Hr & Hn2 & HP). exists l2. split; [by eapply rtc_l|]. by rewrite Hn2. Qed.

Lemma runs_end (P : link -> Prop) l : P l -> runs_to P l.
Proof. intros HP. exists l. by split. Qed.

Lemma reader_runs_down l :
  on_clock l -> runs_to (fun l' => reader l' = ReaderDone /\ ch_closed (send l') = true) l.
Proof.
  intros Hl. pose proof (oc_reader _ Hl) as Hb. unfold reader_bound in Hb.
  assert (forall t l0, reader l0 = Leaving t -> ch_closed (send l0) = true ->
    runs_to (fun l' => reader l' = ReaderDone /\ ch_closed (send l') = true) l0) as Hleave.
  { intros t l0 Hr Hc. eapply runs_step; [by eapply st_leave|done|]. by apply runs_end. }
  assert (forall t l0, reader l0 = Dropping t ->
    runs_to (fun l' => reader l' = ReaderDone /\ ch_closed (send l') = true) l0) as Hdrop.
  { intros t l0 Hr.
    set (l1 := set_send (hub_drop (send l0)) (set_reader (Leaving (now l0 + slack)) l0)).
    destruct (wake_same l1) as (Er & En & Es).
    eapply (runs_step _ _ (wake l1)); [by eapply st_drop|exact En|].
    eapply Hleave; rewrite ?Er, ?Es; [done|apply hub_drop_closed]. }
  destruct (reader l) as [|t|c r d|t|t|] eqn:Hr; [| | |by eapply Hdrop|by eapply Hleave; [|apply Hb]|].
  - eapply runs_step; [by apply st_read_fails|done|by eapply Hdrop].
  - eapply runs_step; [by eapply st_published|done|]. eapply runs_step; [by apply st_read_fails|done|by eapply Hdrop].
  - eapply runs_step; [by eapply st_refused|done|by eapply Hdrop].
  - apply runs_end. split; [done|apply Hb].
Qed.

Lemma writer_runs_down l :
  reader l = ReaderDone -> ch_closed (send l) = true ->
  runs_to (fun l' => reader l' = ReaderDone /\ writer l' = WriterDone) l.
Proof.
  intros Hr Hc.
  assert (forall t l0, reader l0 = ReaderDone -> writer l0 = Closing t ->
    runs_to (fun l' => reader l' = ReaderDone /\ writer l' = WriterDone) l0) as Hclose.
  { intros t l0 Hr0 Hw. eapply runs_step; [by eapply st_close|done|]. by apply runs_end. }
  assert (forall w d l0, reader l0 = ReaderDone -> writer l0 = Writing w d ->
    runs_to (fun l' => reader l' = ReaderDone /\ writer l' = WriterDone) l0) as Hwrite.
  { intros w d l0 Hr0 Hw. eapply runs_step; [by eapply (st_write_ends _ _ false); [|left]|done|by eapply Hclose]. }
  destruct (writer l) as [since|w d|t|] eqn:Hw; [|by eapply Hwrite|by eapply Hclose|by apply runs_end].
  destruct (ch_buf (send l)) eqn:Hb.
  - eapply runs_step; [by eapply st_take_close|done|by eapply Hwrite].
  - eapply runs_step; [by eapply st_take|done|by eapply Hwrite].
Qed.

Lemma time_goes_on l t : on_clock l -> (now l <= t)%Z -> exists l', rtc link_step l l' /\ now l' = t.
Proof.
  intros Hl Ht. destruct (reader_runs_down l Hl) as (l1 & Hrun1 & Hn1 & Hr & Hc).
  destruct (writer_runs_down l1 Hr Hc) as (l2 & Hrun2 & Hn2 & Hr2 & Hw2). exists (set_now t l2). split; [|done].
  etrans; [exact Hrun1|]. etrans; [exact Hrun2|]. apply rtc_once, st_elapse; [lia|].
  unfold on_time, reader_due, writer_due, tick_due, ticking. by rewrite Hr2, Hw2.
Qed.

(** ** The write pump in time is [writePump] *)






End keepalive.

(** ** The two packages *)

(** The inbox discards what clients say. *)
Definition inbox_message (_ : unit) (_ : Z) (_ : bool) (_ : string) : unit * option (Z * string) := (tt, None).

(** The signaling client lets [readFrame] decide. *)
Definition signal_message `{Json} {F : Type} `{Arith F} (c : Client) (budget : tokenBucket F) (now : Z)
    (text : bool) (data : string) : tokenBucket F * option (Z * string) :=
  match readFrame c budget now text data with
  | (budget, Stop code reason) => (budget, Some (code, reason))
  | (budget, _) => (budget, None)
  end.

(** Both pumps are in a call that writes. *)
Definition both_writing {B} (l : link (B := B)) : Prop :=
  (exists code reason d, reader l = Refusing code reason d) /\ exists w d, writer l = Writing w d.

(** A websocket takes one writer at a time, but the read pump of a signaling client
    answers a frame that is not text without asking what the write pump is doing. *)
Lemma refusal_overlaps `{Json} {F : Type} `{Arith F} (c : Client) slack (l : link (B := tokenBucket F)) w d :
  reader l = Reading -> writer l = Writing w d -> closed l = None -> (now l <= read_deadline l)%Z ->
  exists l', link_step (signal_message c) Signaling slack l l' /\ writer l' = writer l /\ both_writing l'.
Proof.
  intros Hr Hw Hc Hn. eexists. split; [by eapply (st_refuse _ _ _ false "")|]. split; [done|].
  split; simpl; [by eexists _, _, _|eauto].
Qed.
