(* ===== verification/KeepaliveExamples.v ===== *)
(** * A connection, minute by minute

    The properties of [Keepalive.v] applied to an inbox connection that is rung once,
    answers its first ping, and is never heard of again. *)

From S2P Require Import Prelude Chan Registry Protocol TokenBucket SignalHub SignalClient InboxEvents InboxHub InboxConn Keepalive.

Definition ms : Z := 1000000.

Abbreviation inbox_link := (link (B := unit)).
Abbreviation inbox_step := (link_step inbox_message Inbox ms).
Abbreviation inbox_lives P := (lives inbox_message Inbox ms P 0 ms tt).
Abbreviation patient := (prompt (B := unit) Second Second).

Definition l0 : inbox_link := connected Inbox 0 ms tt.
(* the hub rings, the writer writes it *)
Definition l1 : inbox_link := wake (set_send (Chan 16 ["ring"] [] false) l0).
Definition l2 : inbox_link := write Inbox (WriteText "ring") (set_send (ch_take (send l1)) l1).
Definition l3 : inbox_link := wake (set_writer (Selecting None) (add_event (GotFrame "ring", true) l2)).
(* the first tick, the ping and its answer *)
Definition l4 : inbox_link := set_now (54 * Second + ms) l3.
Definition l5 : inbox_link := wake (set_ticker (next_tick l4 + ping_period Inbox) (Some (now l4)) l4).
Definition l6 : inbox_link := write Inbox WritePing (set_ticker (next_tick l5) None (set_pinged (Some (now l5)) l5)).
Definition l7 : inbox_link := wake (set_writer (Selecting None) (add_event (PingTick, true) l6)).
Definition l8 : inbox_link := set_now (54 * Second + 80 * ms) l7.
Definition l9 : inbox_link := pong Inbox l8.
(* silence: a ping without an answer, the deadline *)
Definition l10 : inbox_link := set_now (108 * Second + ms) l9.
Definition l11 : inbox_link := wake (set_ticker (next_tick l10 + ping_period Inbox) (Some (now l10)) l10).
Definition l12 : inbox_link := write Inbox WritePing (set_ticker (next_tick l11) None (set_pinged (Some (now l11)) l11)).
Definition l13 : inbox_link := wake (set_writer (Selecting None) (add_event (PingTick, true) l12)).
Definition l14 : inbox_link := set_now (114 * Second + 80 * ms) l13.
Definition l15 : inbox_link := set_reader (Dropping (now l14 + ms)) l14.
Definition l16 : inbox_link := wake (set_send (hub_drop (send l15)) (set_reader (Leaving (now l15 + ms)) l15)).
Definition l17 : inbox_link := close (set_reader ReaderDone l16).
(* the writer sees the closed channel, its close frame fails *)
Definition l18 : inbox_link := write Inbox (WriteClose CloseNormalClosure "") l17.
Definition l19 : inbox_link := set_writer (Closing (now l18 + ms)) (add_event (ChannelClosed, false) l18).
Definition l20 : inbox_link := close (set_writer WriterDone l19).
Definition l21 : inbox_link := set_now (200 * Second) l20.

Lemma steps_to_pong :
  inbox_step l0 l1 /\ inbox_step l1 l2 /\ inbox_step l2 l3 /\ inbox_step l3 l4 /\ inbox_step l4 l5 /\
  inbox_step l5 l6 /\ inbox_step l6 l7 /\ inbox_step l7 l8 /\ inbox_step l8 l9.
Proof.
  split; [by apply (st_offer _ _ _ "ring" true)|]. split; [by eapply st_take|].
  split; [by eapply (st_wrote _ _ _ (WriteText "ring"))|]. split; [by apply st_elapse|].
  split; [by apply (st_tick _ _ _ l4)|]. split; [by apply (st_take_tick _ _ _ (Some (now l5)) (now l5) l5)|].
  split; [by eapply (st_wrote _ _ _ WritePing)|]. split; [by apply st_elapse|]. by apply st_pong.
Qed.

Lemma steps_to_end :
  inbox_step l9 l10 /\ inbox_step l10 l11 /\ inbox_step l11 l12 /\ inbox_step l12 l13 /\ inbox_step l13 l14 /\
  inbox_step l14 l15 /\ inbox_step l15 l16 /\ inbox_step l16 l17 /\ inbox_step l17 l18 /\ inbox_step l18 l19 /\
  inbox_step l19 l20 /\ inbox_step l20 l21.
Proof.
  split; [by apply st_elapse|]. split; [by apply (st_tick _ _ _ l10)|].
  split; [by apply (st_take_tick _ _ _ (Some (now l11)) (now l11) l11)|].
  split; [by eapply (st_wrote _ _ _ WritePing)|]. split; [by apply st_elapse|]. split; [by apply st_read_fails|].
  split; [by eapply st_drop|]. split; [by eapply st_leave|]. split; [by eapply st_take_close|].
  split; [by eapply (st_write_ends _ _ _ (WriteClose _ _)); [|right]|]. split; [by eapply st_close|]. by apply st_elapse.
Qed.

(** Whether a state is prompt, computed. *)
Definition is_prompt (lag rtt : Z) (l : inbox_link) : bool :=
  match tick l with Some t => (now l <=? t + lag)%Z | None => true end &&
  match pinged l with Some t => (now l <=? t + rtt)%Z | None => true end.

Lemma is_prompt_prompt lag rtt l : is_prompt lag rtt l = true -> prompt lag rtt l.
Proof.
  unfold is_prompt, prompt. intros [H1 H2]%andb_true_iff.
  split; intros t Ht; [rewrite Ht in H1|rewrite Ht in H2]; by apply Z.leb_le.
Qed.

Lemma patient_lives : inbox_lives patient l9.
Proof.
  destruct steps_to_pong as (H1 & H2 & H3 & H4 & H5 & H6 & H7 & H8 & H9).
  assert (forall l l', inbox_step l l' -> is_prompt Second Second l' = true -> inbox_lives patient l -> inbox_lives patient l')
    as Hstep by (intros l l' Hs Hp Hl; eapply lives_step; [exact Hl|exact Hs|by apply is_prompt_prompt]).
  apply (Hstep _ _ H9 eq_refl), (Hstep _ _ H8 eq_refl), (Hstep _ _ H7 eq_refl), (Hstep _ _ H6 eq_refl),
    (Hstep _ _ H5 eq_refl), (Hstep _ _ H4 eq_refl), (Hstep _ _ H3 eq_refl), (Hstep _ _ H2 eq_refl),
    (Hstep _ _ H1 eq_refl), lives_start.
Qed.

Lemma whole_life : inbox_lives (fun _ => True) l21.
Proof.
  destruct steps_to_pong as (H1 & H2 & H3 & H4 & H5 & H6 & H7 & H8 & H9).
  destruct steps_to_end as (J1 & J2 & J3 & J4 & J5 & J6 & J7 & J8 & J9 & J10 & J11 & J12).
  do 21 (eapply lives_step; [|eassumption|exact I]). apply lives_start.
Qed.

Lemma prompt_peer_kept_witness : (now l9 < read_deadline l9)%Z /\ (read_deadline l9 = 114 * Second + 80 * ms)%Z.
Proof.
  split; [|reflexivity].
  apply (prompt_peer_kept inbox_message Inbox ms ltac:(done) Second Second 0 ms tt l9);
    [done..|exact patient_lives|reflexivity|reflexivity].
Defined.

Lemma silent_peer_dropped_witness :
  reader l21 = ReaderDone /\ writer l21 = WriterDone /\ ch_closed (send l21) = true /\ closed l21 <> None.
Proof.
  apply (silent_peer_dropped inbox_message Inbox ms ltac:(done) (fun _ => True) 0 ms tt l21);
    [done|exact whole_life|done].
Defined.


Definition ann : Client := mkClient 1 "1" "u-ann" "Ann" "room".

Abbreviation ann_link := (link (B := tokenBucket f64)).
Abbreviation ann_step := (link_step (signal_message (F := f64) ann) Signaling ms).

Definition a0 : ann_link := connected Signaling 0 0 (connection_bucket 0).
Definition a1 : ann_link := wake (set_send (Chan 64 ["frame"] [] false) a0).
Definition a2 : ann_link := write Signaling (WriteText "frame") (set_send (ch_take (send a1)) a1).

(** Ann's client, sent a frame while it sends a binary one. *)
Example refusal_overlaps_ann :
  lives (signal_message (F := f64) ann) Signaling ms (fun _ => True) 0 0 (connection_bucket 0) a2 /\
  exists l, ann_step a2 l /\ writer l = writer a2 /\ both_writing l.
Proof.
  split; [|by eapply refusal_overlaps].
  assert (ann_step a0 a1 /\ ann_step a1 a2) as [H1 H2] by (split; [by apply (st_offer _ _ _ "frame" true)|by eapply st_take]).
  do 2 (eapply lives_step; [|eassumption|exact I]). apply lives_start.
Qed.

(** ** A slow link

    Six seconds lie between a ping and the deadline, but a write may take ten. A frame
    that takes eight to write delays the ping past the deadline of a peer that has
    answered everything it was sent. *)

Definition s0 : inbox_link := connected Inbox 0 0 tt.
Definition s1 : inbox_link := set_now (53 * Second) s0.
Definition s2 : inbox_link := wake (set_send (Chan 16 ["ring"] [] false) s1).
Definition s3 : inbox_link := write Inbox (WriteText "ring") (set_send (ch_take (send s2)) s2).
Definition s4 : inbox_link := set_now (54 * Second) s3.
Definition s5 : inbox_link := wake (set_ticker (next_tick s4 + ping_period Inbox) (Some (now s4)) s4).
Definition s6 : inbox_link := set_now (60 * Second) s5.

(** At sixty seconds the frame is still being written, within its deadline; the read
    deadline has come and the tick still waits. *)
Example slow_write_times_out :
  lives inbox_message Inbox ms (fun l => pinged l = None) 0 0 tt s6 /\
  reader s6 = Reading /\ read_deadline s6 = now s6 /\ tick s6 = Some (54 * Second)%Z /\
  writer s6 = Writing (WriteText "ring") (63 * Second).
Proof.
  split; [|done].
  assert (inbox_step s0 s1 /\ inbox_step s1 s2 /\ inbox_step s2 s3 /\ inbox_step s3 s4 /\ inbox_step s4 s5 /\ inbox_step s5 s6)
    as (H1 & H2 & H3 & H4 & H5 & H6).
  { split; [by apply st_elapse|]. split; [by apply (st_offer _ _ _ "ring" true)|]. split; [by eapply st_take|].
    split; [by apply st_elapse|]. split; [by apply (st_tick _ _ _ s4)|]. by apply st_elapse. }
  do 6 (eapply lives_step; [|eassumption|reflexivity]). apply lives_start.
Qed.
