(* ===== verification/GoStrings.v ===== *)
(** * Strings as Go has them

    A Go string is a sequence of bytes, here a [string]; this file holds the
    functions of Go's [strings], [utf8], [strconv], [net] and [fmt] packages
    that the program calls, for the arguments it calls them with. What needs
    the Unicode tables (lower-casing and case folding of non-ASCII text) is a
    class, [Unicode]. *)

From S2P Require Import Prelude.
From stdpp Require Export pretty.
From Stdlib Require Import Ascii.

(** ** Bytes *)

Definition byte (c : ascii) : N := N_of_ascii c.

(** The string made of the given bytes. *)
Definition str (l : list N) : string := String.string_of_list_ascii (ascii_of_N <$> l).

Definition bytes (s : string) : list N := byte <$> String.list_ascii_of_string s.

Fixpoint forall_bytes (p : N -> bool) (s : string) : bool :=
  match s with
  | "" => true
  | String c s => p (byte c) && forall_bytes p s
  end.

Fixpoint map_bytes (f : N -> N) (s : string) : string :=
  match s with
  | "" => ""
  | String c s => String (ascii_of_N (f (byte c))) (map_bytes f s)
  end.

Definition between (lo hi : N) (b : N) : bool := (lo <=? b)%N && (b <=? hi)%N.

Definition is_ascii (s : string) : bool := forall_bytes (fun b => b <? 128)%N s.

Definition is_digit : N -> bool := between 48 57.

Fixpoint drop_bytes (n : nat) (s : string) : string :=
  match n, s with
  | S n, String _ s => drop_bytes n s
  | _, _ => s
  end.

(** [s[:n]] for [n] up to the length of [s]. *)
Fixpoint take_bytes (n : nat) (s : string) : string :=
  match n, s with
  | S n, String c s => String c (take_bytes n s)
  | _, _ => ""
  end.

(** ** The [strings] package *)

Fixpoint HasPrefix (s p : string) : bool :=
  match p, s with
  | "", _ => true
  | String a p, String b s => bool_decide (a = b) && HasPrefix s p
  | _, _ => false
  end.

Definition HasSuffix (s p : string) : bool := HasPrefix (String.rev s) (String.rev p).

(** [strings.Cut], [strings.Split] and [strings.Count] with a separator of one
    byte. The third component of [Cut] is [found]. *)
Fixpoint Cut (s : string) (sep : ascii) : string * string * bool :=
  match s with
  | "" => ("", "", false)
  | String c s =>
      if decide (c = sep) then ("", s, true)
      else let '(before, after, found) := Cut s sep in (String c before, after, found)
  end.

Fixpoint Split (s : string) (sep : ascii) : list string :=
  match s with
  | "" => [""]
  | String c s =>
      if decide (c = sep) then "" :: Split s sep
      else match Split s sep with
           | [] => []
           | x :: l => String c x :: l
           end
  end.

Fixpoint Count (s : string) (sep : ascii) : nat :=
  match s with
  | "" => 0
  | String c s => (if decide (c = sep) then 1 else 0) + Count s sep
  end.

Definition Contains (s : string) (sep : ascii) : bool := bool_decide (0 < Count s sep).

Fixpoint Join (l : list string) (sep : string) : string :=
  match l with
  | [] => ""
  | [x] => x
  | x :: l => x +:+ sep +:+ Join l sep
  end.

(** The UTF-8 encodings of the runes for which [unicode.IsSpace] holds. *)
Definition space_encodings : list string := str <$>
  ([[9]; [10]; [11]; [12]; [13]; [32]; [194; 133]; [194; 160]; [225; 154; 128]]
   ++ ((fun b => [226; 128; b]) <$> [128; 129; 130; 131; 132; 133; 134; 135; 136; 137; 138; 168; 169; 175])
   ++ [[226; 129; 159]; [227; 128; 128]])%N.

(** The length of the encoding [s] starts with, 0 if there is none. *)
Definition space_len (encs : list string) (s : string) : nat :=
  from_option String.length 0 (List.find (HasPrefix s) encs).

(** Drop encodings from the front. [skip] counts the bytes still to drop of the
    last one found. *)
Fixpoint trim_front (encs : list string) (skip : nat) (s : string) : string :=
  match s with
  | "" => ""
  | String c s' =>
      match skip with
      | S k => trim_front encs k s'
      | 0 => match space_len encs s with
             | 0 => s
             | S k => trim_front encs k s'
             end
      end
  end.

Definition trim_left (s : string) : string := trim_front space_encodings 0 s.

Definition trim_right (s : string) : string :=
  String.rev (trim_front (String.rev <$> space_encodings) 0 (String.rev s)).

Definition TrimSpace (s : string) : string := trim_right (trim_left s).

(** What depends on the Unicode tables: [strings.Map(unicode.ToLower, s)] and
    [strings.EqualFold] where a byte is not ASCII. *)
Class Unicode := {
  lower_non_ascii : string -> string;
  fold_non_ascii : string -> string -> bool
}.

Definition lower_byte (b : N) : N := if between 65 90 b then (b + 32)%N else b.

Definition ToLower `{Unicode} (s : string) : string :=
  if is_ascii s then map_bytes lower_byte s else lower_non_ascii s.

Definition EqualFold `{Unicode} (s t : string) : bool :=
  if is_ascii s && is_ascii t then bool_decide (map_bytes lower_byte s = map_bytes lower_byte t)
  else fold_non_ascii s t.

(** ** Package [utf8] *)

Definition continuation : N -> bool := between 128 191.

(** The number of bytes of the first rune: 1 for an invalid one. *)
Definition rune_len (s : string) : nat :=
  match bytes s with
  | [] => 0
  | b0 :: rest =>
      let second lo hi := match rest with b1 :: _ => between lo hi b1 | _ => false end in
      let third := match rest with _ :: b2 :: _ => continuation b2 | _ => false end in
      let fourth := match rest with _ :: _ :: b3 :: _ => continuation b3 | _ => false end in
      if between 194 223 b0 then if second 128%N 191%N then 2 else 1
      else if between 224 239 b0 then
        if second (if (b0 =? 224)%N then 160 else 128)%N (if (b0 =? 237)%N then 159 else 191)%N && third
        then 3 else 1
      else if between 240 244 b0 then
        if second (if (b0 =? 240)%N then 144 else 128)%N (if (b0 =? 244)%N then 143 else 191)%N
           && third && fourth then 4 else 1
      else 1
  end.

Fixpoint count_runes (skip : nat) (s : string) : nat :=
  match s with
  | "" => 0
  | String _ s' =>
      match skip with
      | S k => count_runes k s'
      | 0 => S (count_runes (rune_len s - 1) s')
      end
  end.

Definition RuneCountInString (s : string) : nat := count_runes 0 s.

(** ** Package [strconv] *)

(** [strconv.FormatInt(z, 10)], [strconv.Itoa] and the verb [%d]. *)
Definition itoa (z : Z) : string := pretty z.

(** ** Package [fmt]: [Sscanf] with the verb [%d] *)

(** The longest prefix of digits, and the rest. *)
Fixpoint span_digits (s : string) : string * string :=
  match s with
  | "" => ("", "")
  | String c s' =>
      if is_digit (byte c) then let '(d, r) := span_digits s' in (String c d, r) else ("", s)
  end.

Fixpoint digits_value (acc : N) (s : string) : N :=
  match s with
  | "" => acc
  | String c s => digits_value (10 * acc + (byte c - 48))%N s
  end.

(** The spaces [SkipSpace] passes over; a newline is an error there. *)
Definition newline : string := str [10%N].

Definition scan_spaces (s : string) : option string :=
  let s := trim_front (List.filter (fun e => negb (bool_decide (e = newline))) space_encodings) 0 s in
  if HasPrefix s newline then None else Some s.

(** A literal of the format that holds neither a space nor [%]. *)
Definition scan_literal (lit s : string) : option string :=
  if HasPrefix s lit then Some (drop_bytes (String.length lit) s) else None.

(** [%d] into a [uint] of the given width; [%d] into an [int] also takes a sign. *)
Definition scan_uint (width : N) (s : string) : option (N * string) :=
  s ← scan_spaces s;
  let '(d, r) := span_digits s in
  if bool_decide (d = "") then None
  else if (digits_value 0 d <? 2 ^ width)%N then Some (digits_value 0 d, r) else None.

Definition scan_int (s : string) : option (Z * string) :=
  s ← scan_spaces s;
  let '(neg, s) :=
    match s with
    | String "-" s => (true, s)
    | String "+" s => (false, s)
    | _ => (false, s)
    end in
  let '(d, r) := span_digits s in
  let v := Z.of_N (digits_value 0 d) in
  let z := if neg : bool then (- v)%Z else v in
  if bool_decide (d = "") then None
  else if (- 2 ^ 63 <=? z)%Z && (z <? 2 ^ 63)%Z then Some (z, r) else None.

(** ** Lemmas *)

Lemma str_app_nil s : s +:+ "" = s.
Proof. induction s; [done|]. change (String a s +:+ "") with (String a (s +:+ "")). by rewrite IHs. Qed.

Lemma str_app_assoc a b c : (a +:+ b) +:+ c = a +:+ b +:+ c.
Proof.
  induction a as [|x a IH]; [done|].
  change ((String x a +:+ b) +:+ c) with (String x ((a +:+ b) +:+ c)). by rewrite IH.
Qed.

Lemma str_app_cons x a b : String x a +:+ b = String x (a +:+ b).
Proof. done. Qed.

Lemma rev_app_spec s t : String.rev_app s t = String.rev s +:+ t.
Proof.
  revert t. induction s as [|c s IH]; intros t; [done|]. unfold String.rev. simpl.
  rewrite IH, (IH (String c "")), str_app_assoc. done.
Qed.

Lemma rev_cons c s : String.rev (String c s) = String.rev s +:+ String c "".
Proof. unfold String.rev. simpl. apply rev_app_spec. Qed.

Lemma rev_append s t : String.rev (s +:+ t) = String.rev t +:+ String.rev s.
Proof.
  induction s as [|c s IH]; [by rewrite str_app_nil|].
  by rewrite str_app_cons, !rev_cons, IH, str_app_assoc.
Qed.

Lemma rev_rev s : String.rev (String.rev s) = s.
Proof. induction s as [|c s IH]; [done|]. by rewrite rev_cons, rev_append, IH. Qed.

Lemma HasPrefix_spec s p : HasPrefix s p = true <-> exists t, s = p +:+ t.
Proof.
  revert s. induction p as [|a p IH]; intros s; simpl.
  - split; [|by destruct s]. intros _. by exists s.
  - destruct s as [|b s]; simpl.
    + split; [done|]. intros [t Ht]. done.
    + rewrite andb_true_iff, bool_decide_eq_true, IH. split.
      * intros [-> [t ->]]. by exists t.
      * intros [t Ht]. rewrite str_app_cons in Ht. injection Ht as -> ->. eauto.
Qed.

Lemma HasPrefix_app s t p : HasPrefix s p = true -> HasPrefix (s +:+ t) p = true.
Proof. rewrite !HasPrefix_spec. intros [u ->]. exists (u +:+ t). by rewrite str_app_assoc. Qed.

Lemma forall_bytes_app p s t : forall_bytes p (s +:+ t) = forall_bytes p s && forall_bytes p t.
Proof.
  induction s as [|c s IH]; [done|]. rewrite str_app_cons. simpl. by rewrite IH, andb_assoc.
Qed.

Lemma forall_bytes_rev p s : forall_bytes p (String.rev s) = forall_bytes p s.
Proof.
  induction s as [|c s IH]; [done|]. rewrite rev_cons, forall_bytes_app, IH. simpl.
  rewrite andb_true_r. apply andb_comm.
Qed.

Lemma forall_bytes_impl (p q : N -> bool) s :
  (forall b, p b = true -> q b = true) -> forall_bytes p s = true -> forall_bytes q s = true.
Proof.
  intros Hpq. induction s as [|c s IH]; [done|]. simpl. rewrite !andb_true_iff.
  intros [H1 H2]. auto.
Qed.

Lemma str_length_app s t : String.length (s +:+ t) = String.length s + String.length t.
Proof. induction s as [|c s IH]; [done|]. rewrite str_app_cons. simpl. by rewrite IH. Qed.

Lemma drop_bytes_app s t : drop_bytes (String.length s) (s +:+ t) = t.
Proof. by induction s. Qed.

(** Splitting what was joined with a separator the parts do not hold. *)
Lemma Split_app s t sep :
  forall_bytes (fun b => negb (b =? byte sep)%N) s = true ->
  Split (s +:+ String sep t) sep = s :: Split t sep.
Proof.
  induction s as [|c s IH]; simpl; [by rewrite decide_True|].
  rewrite andb_true_iff, negb_true_iff. intros [Hc Hs].
  rewrite decide_False by (intros ->; by rewrite N.eqb_refl in Hc). by rewrite IH.
Qed.

Lemma Split_none s sep :
  forall_bytes (fun b => negb (b =? byte sep)%N) s = true -> Split s sep = [s].
Proof.
  induction s as [|c s IH]; simpl; [done|].
  rewrite andb_true_iff, negb_true_iff. intros [Hc Hs].
  rewrite decide_False by (intros ->; by rewrite N.eqb_refl in Hc). by rewrite IH.
Qed.

Section trim.
Variable encs : list string.

(** No encoding starts the string. *)
Definition no_space_first (s : string) : Prop := Forall (fun e => HasPrefix s e = false) encs.

Lemma no_space_first_len s : no_space_first s -> space_len encs s = 0.
Proof.
  intros H. unfold no_space_first in H. unfold space_len.
  destruct (List.find _ _) as [e|] eqn:E; [|done].
  apply List.find_some in E as [Hin He]. rewrite <- list_elem_of_In in Hin.
  rewrite Forall_forall in H. rewrite H in He; done.
Qed.

Hypothesis nonempty : Forall (fun e => e <> "") encs.

Lemma space_len_no_space s : space_len encs s = 0 -> no_space_first s.
Proof.
  unfold space_len. destruct (List.find _ _) as [e|] eqn:E.
  - apply List.find_some in E as [Hin _]. rewrite <- list_elem_of_In in Hin.
    rewrite Forall_forall in nonempty. specialize (nonempty e Hin). by destruct e.
  - intros _. apply Forall_forall. intros e He. apply List.find_none with (x := e) in E; [done|].
    by apply list_elem_of_In.
Qed.

Lemma trim_front_stops k s : no_space_first (trim_front encs k s).
Proof.
  revert k. induction s as [|c s IH]; intros [|k]; simpl; try apply IH.
  - apply Forall_forall. intros e He. rewrite Forall_forall in nonempty.
    specialize (nonempty e He). by destruct e.
  - apply Forall_forall. intros e He. rewrite Forall_forall in nonempty.
    specialize (nonempty e He). by destruct e.
  - destruct (space_len encs (String c s)) eqn:E; [by apply space_len_no_space|apply IH].
Qed.

Lemma trim_front_id s : no_space_first s -> trim_front encs 0 s = s.
Proof. intros H. destruct s; [done|]. simpl. by rewrite (no_space_first_len _ H). Qed.

Lemma trim_front_suffix k s : exists p, s = p +:+ trim_front encs k s.
Proof.
  revert k. induction s as [|c s IH]; intros k; [by exists ""|].
  assert (forall j, exists p, String c s = p +:+ trim_front encs j s) as Hs.
  { intros j. destruct (IH j) as [p Hp]. exists (String c p). rewrite str_app_cons. by rewrite <- Hp. }
  simpl. destruct k as [|k]; [|apply Hs].
  destruct (space_len _ _); [by exists ""|apply Hs].
Qed.

Lemma no_space_first_app s t : no_space_first (s +:+ t) -> no_space_first s.
Proof.
  intros H. eapply Forall_impl; [exact H|]. simpl. intros e He.
  destruct (HasPrefix s e) eqn:E; [|done]. by rewrite (HasPrefix_app _ t) in He.
Qed.

(** A string whose first byte starts no encoding. *)
Lemma no_space_first_byte (p : N -> bool) c s :
  Forall (fun e => match e with "" => False | String c _ => p (byte c) = false end) encs ->
  p (byte c) = true -> no_space_first (String c s).
Proof.
  intros He Hc. eapply Forall_impl; [exact He|]. intros [|d e]; [done|]. simpl.
  intros Hd. case_bool_decide; [subst; congruence|done].
Qed.

Lemma no_space_first_bytes (p : N -> bool) s :
  Forall (fun e => match e with "" => False | String c _ => p (byte c) = false end) encs ->
  forall_bytes p s = true -> no_space_first s.
Proof.
  intros He Hs. destruct s as [|c s]; simpl in Hs.
  - eapply Forall_impl; [exact He|]. by intros [|d e].
  - apply andb_true_iff in Hs as [Hc _]. by eapply no_space_first_byte.
Qed.
End trim.

Lemma spaces_nonempty : Forall (fun e => e <> "") space_encodings.
Proof. repeat constructor; done. Qed.

Lemma spaces_rev_nonempty : Forall (fun e => e <> "") (String.rev <$> space_encodings).
Proof. repeat constructor; done. Qed.

Lemma trim_right_prefix s : exists t, s = trim_right s +:+ t.
Proof.
  destruct (trim_front_suffix (String.rev <$> space_encodings) 0 (String.rev s)) as [p Hp].
  exists (String.rev p). unfold trim_right. rewrite <- rev_append, <- Hp. by rewrite rev_rev.
Qed.

(** Trimming twice is trimming once. *)
Lemma TrimSpace_idemp s : TrimSpace (TrimSpace s) = TrimSpace s.
Proof.
  set (t := trim_left s).
  assert (no_space_first space_encodings (TrimSpace s)) as Hl.
  { destruct (trim_right_prefix t) as [u Hu]. apply no_space_first_app with u.
    unfold TrimSpace. fold t. rewrite <- Hu. apply trim_front_stops, spaces_nonempty. }
  unfold TrimSpace at 1. unfold trim_left. rewrite trim_front_id by done.
  unfold TrimSpace, trim_right. rewrite rev_rev. rewrite trim_front_id; [done|].
  apply trim_front_stops, spaces_rev_nonempty.
Qed.

Definition printable : N -> bool := between 33 126.

(** Text without spaces and without non-ASCII bytes is not trimmed. *)
Lemma TrimSpace_printable s : forall_bytes printable s = true -> TrimSpace s = s.
Proof.
  intros Hs. unfold TrimSpace, trim_left.
  rewrite trim_front_id; [|apply (no_space_first_bytes _ printable); [by repeat constructor|done]].
  unfold trim_right. rewrite trim_front_id; [apply rev_rev|].
  apply (no_space_first_bytes _ printable); [by repeat constructor|by rewrite forall_bytes_rev].
Qed.

Lemma byte_ascii c : ascii_of_N (byte c) = c.
Proof. apply ascii_N_embedding. Qed.

Lemma byte_bound c : (byte c < 256)%N.
Proof. apply N_ascii_bounded. Qed.

Lemma byte_of_N b : (b < 256)%N -> byte (ascii_of_N b) = b.
Proof. apply N_ascii_embedding. Qed.

Lemma forall_bytes_str p l :
  Forall (fun b => (b < 256)%N /\ p b = true) l -> forall_bytes p (str l) = true.
Proof.
  unfold str. induction 1 as [|b l [Hb Hp] _ IH]; [done|].
  change (p (byte (ascii_of_N b)) && forall_bytes p (String.string_of_list_ascii (ascii_of_N <$> l)) = true).
  by rewrite byte_of_N, Hp, IH.
Qed.

Lemma map_bytes_id f s : forall_bytes (fun b => (f b =? b)%N) s = true -> map_bytes f s = s.
Proof.
  induction s as [|c s IH]; [done|]. simpl. rewrite andb_true_iff. intros [H1%N.eqb_eq H2].
  by rewrite H1, byte_ascii, IH.
Qed.

(** ASCII text without capitals is its own lower case. *)
Lemma ToLower_id `{Unicode} s :
  forall_bytes (fun b => (b <? 128)%N && negb (between 65 90 b)) s = true -> ToLower s = s.
Proof.
  intros Hs. unfold ToLower, is_ascii.
  rewrite (forall_bytes_impl _ (fun b => b <? 128)%N s) with (2 := Hs);
    [|intros b; by intros [? _]%andb_true_iff].
  apply map_bytes_id. eapply forall_bytes_impl; [|exact Hs]. simpl. intros b.
  rewrite andb_true_iff, negb_true_iff. intros [_ Hb]. unfold lower_byte. rewrite Hb. apply N.eqb_refl.
Qed.

(** *** Numbers *)

Lemma digit_char x :
  (x < 10)%N -> is_digit (byte (pretty_N_char x)) = true /\ (byte (pretty_N_char x) - 48)%N = x.
Proof.
  intros Hx. assert (x = 0 \/ x = 1 \/ x = 2 \/ x = 3 \/ x = 4 \/ x = 5 \/ x = 6 \/ x = 7 \/ x = 8 \/ x = 9)%N
    as Hc by lia.
  repeat (destruct Hc as [->|Hc]; [done|]). by subst.
Qed.

(** The digits of a number, as a prefix. *)
Lemma pretty_go_spec x :
  exists d, (forall s, pretty_N_go x s = d +:+ s) /\ forall_bytes is_digit d = true /\
    (forall acc s, digits_value acc (d +:+ s) = digits_value (acc * 10 ^ N.of_nat (String.length d) + x) s) /\
    (x <> 0%N -> d <> "").
Proof.
  induction (N.lt_wf_0 x) as [x _ IH]. destruct (decide (x = 0%N)) as [->|Hx].
  - exists "". split; [by intros s; rewrite pretty_N_go_0|]. split; [done|]. split; [|done].
    intros acc s. simpl. f_equal. lia.
  - destruct (IH (x / 10)%N) as (d & H1 & H2 & H3 & _); [apply N.div_lt; lia|].
    destruct (digit_char (x mod 10)) as [Hc Hv]; [by apply N.mod_lt|].
    exists (d +:+ String (pretty_N_char (x mod 10)) ""). split; [|split; [|split]].
    + intros s. rewrite pretty_N_go_step by lia. by rewrite H1, str_app_assoc.
    + rewrite forall_bytes_app, H2. simpl. by rewrite Hc.
    + intros acc s. rewrite str_app_assoc, H3. cbn [digits_value String.app]. rewrite str_app_cons.
      cbn [digits_value]. rewrite Hv. change ("" +:+ s) with s. f_equal.
      rewrite str_length_app. simpl. rewrite Nat.add_1_r, Nat2N.inj_succ, N.pow_succ_r'.
      pose proof (N.div_mod x 10). lia.
    + intros _. by destruct d.
Qed.

Lemma itoa_spec n :
  (0 <= n)%Z ->
  itoa n <> "" /\ forall_bytes is_digit (itoa n) = true /\ digits_value 0 (itoa n) = Z.to_N n.
Proof.
  intros Hn. destruct n as [|p|p]; [done| |lia]. unfold itoa, pretty, pretty_Z, pretty, pretty_positive.
  unfold pretty, pretty_N. rewrite decide_False by done.
  destruct (pretty_go_spec (N.pos p)) as (d & H1 & H2 & H3 & H4). rewrite H1, str_app_nil.
  split; [by apply H4|]. split; [done|]. rewrite <- (str_app_nil d) at 1. rewrite H3. done.
Qed.

(** [r] does not start with a digit. *)
Definition no_digit_first (r : string) : Prop :=
  match r with "" => True | String c _ => is_digit (byte c) = false end.

Lemma span_digits_app d r :
  forall_bytes is_digit d = true -> no_digit_first r -> span_digits (d +:+ r) = (d, r).
Proof.
  intros Hd Hr. induction d as [|c d IH].
  - change ("" +:+ r) with r. destruct r as [|c r]; [done|]. simpl in *. by rewrite Hr.
  - rewrite str_app_cons. simpl in *. apply andb_true_iff in Hd as [-> Hd]. by rewrite IH.
Qed.

Lemma digit_bounds b : is_digit b = true -> (48 <= b <= 57)%N.
Proof. unfold is_digit, between. rewrite andb_true_iff, !N.leb_le. lia. Qed.

Lemma scan_spaces_digit d r :
  d <> "" -> forall_bytes is_digit d = true -> scan_spaces (d +:+ r) = Some (d +:+ r).
Proof.
  intros Hd Hf. destruct d as [|c d]; [done|]. simpl in Hf. apply andb_true_iff in Hf as [Hc _].
  rewrite str_app_cons. unfold scan_spaces. rewrite trim_front_id.
  - rewrite (proj1 (not_true_iff_false _)); [done|]. rewrite HasPrefix_spec. intros [t Ht].
    injection Ht as -> _. done.
  - apply (no_space_first_byte _ is_digit); [by repeat constructor|done].
Qed.

Lemma scan_uint_itoa width n r :
  (0 <= n < 2 ^ Z.of_N width)%Z -> no_digit_first r ->
  scan_uint width (itoa n +:+ r) = Some (Z.to_N n, r).
Proof.
  intros Hn Hr. destruct (itoa_spec n) as (H1 & H2 & H3); [lia|].
  unfold scan_uint. rewrite scan_spaces_digit by done. simpl.
  rewrite span_digits_app by done. rewrite bool_decide_false by done. rewrite H3.
  rewrite (proj2 (N.ltb_lt _ _)); [done|]. apply N2Z.inj_lt. rewrite N2Z.inj_pow, Z2N.id by lia.
  apply Hn.
Qed.

Lemma scan_int_itoa n r :
  (0 <= n < 2 ^ 63)%Z -> no_digit_first r -> scan_int (itoa n +:+ r) = Some (n, r).
Proof.
  intros Hn Hr. destruct (itoa_spec n) as (H1 & H2 & H3); [lia|].
  unfold scan_int. rewrite scan_spaces_digit by done. simpl.
  assert (match itoa n +:+ r with
          | String "-" s => (true, s) | String "+" s => (false, s) | _ => (false, itoa n +:+ r)
          end = (false, itoa n +:+ r)) as ->.
  { destruct (itoa n) as [|c d]; [done|]. simpl in H2. apply andb_true_iff in H2 as [Hc%digit_bounds _].
    rewrite str_app_cons.
    destruct c as [[] [] [] [] [] [] [] []]; try done; vm_compute in Hc; intuition congruence. }
  rewrite span_digits_app by done. rewrite bool_decide_false by done. rewrite H3, Z2N.id by lia.
  rewrite (proj2 (Z.leb_le _ _)), (proj2 (Z.ltb_lt _ _)) by lia. done.
Qed.

Lemma scan_literal_app lit r : scan_literal lit (lit +:+ r) = Some r.
Proof.
  unfold scan_literal. rewrite (proj2 (HasPrefix_spec (lit +:+ r) lit)) by by exists r.
  by rewrite drop_bytes_app.
Qed.

(** *** Patterns *)

(** The regular expression [^\[a-z0-9\]\[a-z0-9-\]{2,63}$] of
    [src/internal/invites/handlers.go] and of the CHECK constraint on
    [rooms.slug]. *)
Definition slug_first (b : N) : bool := between 97 122 b || is_digit b.

Definition slug_byte (b : N) : bool := slug_first b || (b =? 45)%N.

Definition slugPattern (s : string) : bool :=
  match s with
  | "" => false
  | String c r =>
      slug_first (byte c) && forall_bytes slug_byte r &&
      (2 <=? String.length r) && (String.length r <=? 63)
  end.
