(* ===== verification/Crypto.v ===== *)
(** * Hashes and binary-to-text encodings

    The parts of Go's [crypto/sha256], [crypto/sha1], [crypto/hmac],
    [encoding/hex] and [encoding/base64] that the program uses: session and
    ticket tokens are stored by the hex SHA-256 of their text
    ([src/internal/auth/sessions.go]), TURN credentials are an HMAC-SHA1
    ([src/internal/turn/handlers.go]), and tokens, salts and keys are written in
    base64. *)

From S2P Require Import Prelude GoStrings.
From Stdlib Require Import Ascii.

(** ** 32-bit words *)

Definition w32 (x : N) : N := N.land x 4294967295.

Definition w_add (x y : N) : N := w32 (x + y).

Definition rotl (n x : N) : N := w32 (N.lor (N.shiftl x n) (N.shiftr x (32 - n))).

Definition rotr (n x : N) : N := rotl (32 - n) x.

Definition w_not (x : N) : N := N.lxor x 4294967295.

(** Big-endian bytes of a number, most significant first. *)
Fixpoint be_bytes (n : nat) (x : N) : list N :=
  match n with
  | 0 => []
  | S n => be_bytes n (N.shiftr x 8) ++ [N.land x 255]
  end.

Definition be_value (l : list N) : N := foldl (fun acc b => (256 * acc + b)%N) 0%N l.

(** Split into blocks of [n]; a shorter rest is dropped. *)
Fixpoint blocks_of {A} (fuel n : nat) (l : list A) : list (list A) :=
  match fuel with
  | 0 => []
  | S fuel => if decide (n <= length l) then take n l :: blocks_of fuel n (drop n l) else []
  end.

Definition words_of (block : list N) : list N := be_value <$> blocks_of 16 4 block.

(** The padding both hashes use: a one bit, zeros, the length in bits. *)
Definition pad (m : list N) : list N :=
  let zeros := ((55 - Z.of_nat (length m)) mod 64)%Z in
  m ++ [128%N] ++ replicate (Z.to_nat zeros) 0%N ++ be_bytes 8 (8 * N.of_nat (length m)).

Definition message_blocks (m : list N) : list (list N) :=
  let p := pad m in blocks_of (length p) 64 p.

Definition nth_word (l : list N) (i : nat) : N := nth i l 0%N.

(** ** SHA-256 *)

Definition is_prime (n : N) : bool :=
  (2 <=? n)%N && forallb (fun d => negb (n mod N.of_nat d =? 0)%N) (seq 2 (N.to_nat n - 2)).

(** The primes below 312: there are 64. *)
Definition primes64 : list N := List.filter is_prime (N.of_nat <$> seq 0 312).

(** The integer cube root, from the high bit down. *)
Definition cbrt (n : N) : N :=
  foldl (fun r i => let r' := (r + N.shiftl 1 i)%N in if (r' * r' * r' <=? n)%N then r' else r) 0%N
    (N.of_nat <$> rev (seq 0 40)).

(** FIPS 180-4: the first 32 bits of the fractional parts of the cube roots of
    the first 64 primes, and of the square roots of the first 8. *)
Definition sha256_k : list N := Eval vm_compute in
  (fun p => w32 (cbrt (N.shiftl p 96))) <$> primes64.

Definition sha256_init : list N := Eval vm_compute in
  (fun p => w32 (N.sqrt (N.shiftl p 64))) <$> take 8 primes64.

Definition xor3 (a b c : N) : N := N.lxor a (N.lxor b c).

Definition sha256_round (hs : list N) (k w : N) : list N :=
  match hs with
  | [a; b; c; d; e; f; g; h] =>
      let s1 := xor3 (rotr 6 e) (rotr 11 e) (rotr 25 e) in
      let ch := N.lxor (N.land e f) (N.land (w_not e) g) in
      let t1 := w32 (h + s1 + ch + k + w) in
      let s0 := xor3 (rotr 2 a) (rotr 13 a) (rotr 22 a) in
      let maj := xor3 (N.land a b) (N.land a c) (N.land b c) in
      [w_add t1 (w_add s0 maj); a; b; c; w_add d t1; e; f; g]
  | _ => hs
  end.

(** The rounds, with the window of the next sixteen words of the schedule. *)
Fixpoint sha256_rounds (ks ws hs : list N) : list N :=
  match ks with
  | [] => hs
  | k :: ks =>
      let w0 := nth_word ws 0 in
      let w1 := nth_word ws 1 in
      let w14 := nth_word ws 14 in
      let s0 := xor3 (rotr 7 w1) (rotr 18 w1) (N.shiftr w1 3) in
      let s1 := xor3 (rotr 17 w14) (rotr 19 w14) (N.shiftr w14 10) in
      let next := w32 (w0 + s0 + nth_word ws 9 + s1) in
      sha256_rounds ks (tail ws ++ [next]) (sha256_round hs k w0)
  end.

Definition sha256_block (hs block : list N) : list N :=
  zip_with w_add hs (sha256_rounds sha256_k (words_of block) hs).

Definition sha256 (m : list N) : list N :=
  foldl sha256_block sha256_init (message_blocks m) ≫= be_bytes 4.

(** ** SHA-1 and HMAC *)

Definition sha1_init : list N := [
  0x67452301; 0xefcdab89; 0x98badcfe; 0x10325476; 0xc3d2e1f0]%N.

Definition sha1_f (t : nat) (b c d : N) : N :=
  if decide (t < 20) then N.lxor (N.land b c) (N.land (w_not b) d)
  else if decide (40 <= t < 60) then xor3 (N.land b c) (N.land b d) (N.land c d)
  else xor3 b c d.

Definition sha1_k (t : nat) : N :=
  (if decide (t < 20)%nat then 0x5a827999 else if decide (t < 40)%nat then 0x6ed9eba1
   else if decide (t < 60)%nat then 0x8f1bbcdc else 0xca62c1d6)%N.

Definition sha1_round (hs : list N) (t : nat) (w : N) : list N :=
  match hs with
  | [a; b; c; d; e] => [w32 (rotl 5 a + sha1_f t b c d + e + sha1_k t + w); a; rotl 30 b; c; d]
  | _ => hs
  end.

Fixpoint sha1_rounds (ts : list nat) (ws hs : list N) : list N :=
  match ts with
  | [] => hs
  | t :: ts =>
      let next := rotl 1 (N.lxor (nth_word ws 13) (xor3 (nth_word ws 8) (nth_word ws 2) (nth_word ws 0))) in
      sha1_rounds ts (tail ws ++ [next]) (sha1_round hs t (nth_word ws 0))
  end.

Definition sha1_block (hs block : list N) : list N :=
  zip_with w_add hs (sha1_rounds (seq 0 80) (words_of block) hs).

Definition sha1 (m : list N) : list N :=
  foldl sha1_block sha1_init (message_blocks m) ≫= be_bytes 4.

(** [hmac.New(sha1.New, key)], then [Write(m)] and [Sum(nil)]. *)
Definition hmac_sha1 (key m : list N) : list N :=
  let key := if decide (64 < length key) then sha1 key else key in
  let key := key ++ replicate (64 - length key) 0%N in
  sha1 ((N.lxor 92 <$> key) ++ sha1 ((N.lxor 54 <$> key) ++ m)).

(** ** Hexadecimal and base64 *)

Definition hex_digit (x : N) : N := (if x <? 10 then 48 + x else 87 + x)%N.

(** [hex.EncodeToString] *)
Definition hex_encode (l : list N) : string :=
  str (l ≫= fun b => [hex_digit (N.shiftr b 4); hex_digit (N.land b 15)]).

Definition alphabet_std : string := "ABCDEFGHIJKLMNOPQRSTUVWXYZabcdefghijklmnopqrstuvwxyz0123456789+/".
Definition alphabet_url : string := "ABCDEFGHIJKLMNOPQRSTUVWXYZabcdefghijklmnopqrstuvwxyz0123456789-_".

Section base64.
Variable alphabet : string.

Definition b64_char (x : N) : ascii := default "A"%char (String.get (N.to_nat x) alphabet).

(** The index of a character in the alphabet. *)
Fixpoint index_of (c : ascii) (s : string) (i : N) : option N :=
  match s with
  | "" => None
  | String d s => if decide (c = d) then Some i else index_of c s (i + 1)
  end.

(** Without padding. *)
Fixpoint b64_raw_encode (l : list N) : string :=
  match l with
  | [] => ""
  | [a] => String (b64_char (a / 4)) (String (b64_char (a mod 4 * 16)) "")
  | [a; b] =>
      String (b64_char (a / 4)) (String (b64_char (a mod 4 * 16 + b / 16))
        (String (b64_char (b mod 16 * 4)) ""))
  | a :: b :: c :: l =>
      String (b64_char (a / 4)) (String (b64_char (a mod 4 * 16 + b / 16))
        (String (b64_char (b mod 16 * 4 + c / 64)) (String (b64_char (c mod 64)) (b64_raw_encode l))))
  end%N.

(** With padding. *)
Definition b64_encode (l : list N) : string :=
  b64_raw_encode l +:+ str (replicate ((3 - length l mod 3) mod 3) 61%N).

(** Strict decoding without padding: the bits of the last character that carry
    no data must be zero. *)
Fixpoint b64_digits (s : string) : option (list N) :=
  match s with
  | "" => Some []
  | String c s => x ← index_of c alphabet 0; l ← b64_digits s; Some (x :: l)
  end.

Fixpoint b64_bytes (l : list N) : option (list N) :=
  match l with
  | [] => Some []
  | [_] => None
  | [p; q] => if (q mod 16 =? 0)%N then Some [(p * 4 + q / 16)%N] else None
  | [p; q; r] =>
      if (r mod 4 =? 0)%N then Some [p * 4 + q / 16; q mod 16 * 16 + r / 4]%N else None
  | p :: q :: r :: t :: l =>
      rest ← b64_bytes l;
      Some ([p * 4 + q / 16; q mod 16 * 16 + r / 4; r mod 4 * 64 + t]%N ++ rest)
  end.

(** Carriage returns and newlines are skipped by the decoder, in strict mode too. *)
Fixpoint drop_newlines (s : string) : string :=
  match s with
  | "" => ""
  | String c s =>
      if (byte c =? 10)%N || (byte c =? 13)%N then drop_newlines s
      else String c (drop_newlines s)
  end.

Definition b64_raw_decode (s : string) : option (list N) :=
  l ← b64_digits (drop_newlines s); b64_bytes l.
End base64.

(** ** Test vectors *)

Example sha256_abc :
  hex_encode (sha256 (bytes "abc")) = "ba7816bf8f01cfea414140de5dae2223b00361a396177a9cb410ff61f20015ad".
Proof. vm_compute. reflexivity. Qed.

Example sha256_two_blocks :
  hex_encode (sha256 (bytes "abcdbcdecdefdefgefghfghighijhijkijkljklmklmnlmnomnopnopq"))
  = "248d6a61d20638b8e5c026930c3e6039a33ce45964ff2167f6ecedd419db06c1".
Proof. vm_compute. reflexivity. Qed.

Example sha1_abc : hex_encode (sha1 (bytes "abc")) = "a9993e364706816aba3e25717850c26c9cd0d89d".
Proof. vm_compute. reflexivity. Qed.

(** RFC 2202, test case 2. *)
Example hmac_sha1_jefe :
  hex_encode (hmac_sha1 (bytes "Jefe") (bytes "what do ya want for nothing?"))
  = "effcdf6ae5eb2fa2d27416d5f184df9c259a7c79".
Proof. vm_compute. reflexivity. Qed.

Example b64_foobar : b64_encode alphabet_std (bytes "fooba") = "Zm9vYmE=".
Proof. vm_compute. reflexivity. Qed.

(** ** Lemmas *)

(** Division and remainder by constants, for [lia]. *)
Ltac Zify.zify_post_hook ::= Z.to_euclidean_division_equations.

Definition is_byte (b : N) : Prop := (b < 256)%N.

(** Lower-case hexadecimal digits. *)
Definition is_hex (b : N) : bool := is_digit b || between 97 102 b.

Lemma hex_digit_spec x : (x < 16)%N -> (hex_digit x < 256)%N /\ is_hex (hex_digit x) = true.
Proof.
  intros Hx. unfold hex_digit. destruct (x <? 10)%N eqn:E.
  - apply N.ltb_lt in E. split; [lia|]. unfold is_hex, is_digit, between.
    rewrite (proj2 (N.leb_le _ _)), (proj2 (N.leb_le _ _)) by lia. done.
  - apply N.ltb_ge in E. split; [lia|]. unfold is_hex, between. apply orb_true_iff. right.
    rewrite (proj2 (N.leb_le _ _)), (proj2 (N.leb_le _ _)) by lia. done.
Qed.

Lemma hex_encode_hex l : Forall is_byte l -> forall_bytes is_hex (hex_encode l) = true.
Proof.
  intros Hl. apply forall_bytes_str, Forall_bind. eapply Forall_impl; [exact Hl|]. simpl.
  unfold is_byte. intros b Hb. repeat constructor; try apply hex_digit_spec.
  - rewrite N.shiftr_div_pow2. change (2 ^ 4)%N with 16%N. lia.
  - rewrite N.shiftr_div_pow2. change (2 ^ 4)%N with 16%N. lia.
  - change 15%N with (N.ones 4). rewrite N.land_ones. change (2 ^ 4)%N with 16%N. lia.
  - change 15%N with (N.ones 4). rewrite N.land_ones. change (2 ^ 4)%N with 16%N. lia.
Qed.

Lemma hex_ascii s : forall_bytes is_hex s = true -> is_ascii s = true.
Proof.
  apply forall_bytes_impl. intros b. unfold is_hex, is_digit, between.
  rewrite orb_true_iff, !andb_true_iff, !N.leb_le. intros Hb. apply N.ltb_lt. lia.
Qed.

Section b64_lemmas.
Variable alphabet : string.

(** The alphabet has 64 distinct characters, none of them a newline. *)
Definition alphabet_ok : bool :=
  forallb (fun x => bool_decide (index_of (b64_char alphabet x) alphabet 0 = Some x) &&
    negb ((byte (b64_char alphabet x) =? 10)%N || (byte (b64_char alphabet x) =? 13)%N))
    (N.of_nat <$> seq 0 64).

Hypothesis ok : alphabet_ok = true.

Lemma alphabet_char x :
  (x < 64)%N -> index_of (b64_char alphabet x) alphabet 0 = Some x /\
  (byte (b64_char alphabet x) =? 10)%N || (byte (b64_char alphabet x) =? 13)%N = false.
Proof.
  intros Hx. unfold alphabet_ok in ok. rewrite forallb_forall in ok.
  assert (In x (N.of_nat <$> seq 0 64)) as Hin.
  { apply list_elem_of_In, list_elem_of_fmap. exists (N.to_nat x). split; [lia|].
    apply elem_of_seq. lia. }
  specialize (ok x Hin). apply andb_true_iff in ok as [H1 H2].
  apply bool_decide_eq_true in H1. apply negb_true_iff in H2. done.
Qed.

(** Digits written one after the other. *)
Fixpoint b64_text (l : list N) : string :=
  match l with
  | [] => ""
  | x :: l => String (b64_char alphabet x) (b64_text l)
  end.

Lemma b64_text_read l :
  Forall (fun x => (x < 64)%N) l -> b64_digits alphabet (drop_newlines (b64_text l)) = Some l.
Proof.
  induction 1 as [|x l Hx _ IH]; [done|]. destruct (alphabet_char x Hx) as [H1 H2].
  simpl. rewrite H2. simpl. by rewrite H1, IH.
Qed.

(** The 6-bit digits of a byte sequence. *)
Fixpoint b64_split (l : list N) : list N :=
  match l with
  | [] => []
  | [a] => [a / 4; a mod 4 * 16]
  | [a; b] => [a / 4; a mod 4 * 16 + b / 16; b mod 16 * 4]
  | a :: b :: c :: l =>
      [a / 4; a mod 4 * 16 + b / 16; b mod 16 * 4 + c / 64; c mod 64] ++ b64_split l
  end%N.

(** Induction three bytes at a time. *)
Lemma triples_ind (P : list N -> Prop) :
  P [] -> (forall a, P [a]) -> (forall a b, P [a; b]) ->
  (forall a b c l, P l -> P (a :: b :: c :: l)) -> forall l, P l.
Proof.
  intros H0 H1 H2 H3 l. enough (forall n l, length l < n -> P l) as H by (by apply (H (S (length l))); lia).
  induction n as [|n IH]; intros l' Hl; [lia|].
  destruct l' as [|a [|b [|c l']]]; [done..|]. apply H3, IH. simpl in Hl. lia.
Qed.

Lemma b64_encode_text l : b64_raw_encode alphabet l = b64_text (b64_split l).
Proof. induction l as [| | |a b c l IH] using triples_ind; [done..|]. simpl. by rewrite IH. Qed.

Lemma b64_split_small l : Forall is_byte l -> Forall (fun x => (x < 64)%N) (b64_split l).
Proof.
  unfold is_byte. induction l as [|a|a b|a b c l IH] using triples_ind; intros H; simpl;
    rewrite ?Forall_cons in *; repeat split; try apply Forall_nil_2; try lia.
  apply IH. apply H.
Qed.

Lemma b64_split_join l : Forall is_byte l -> b64_bytes (b64_split l) = Some l.
Proof.
  unfold is_byte. induction l as [|a|a b|a b c l IH] using triples_ind; intros H; simpl;
    rewrite ?Forall_cons in *.
  - done.
  - rewrite (proj2 (N.eqb_eq _ 0)) by lia. do 2 f_equal. lia.
  - rewrite (proj2 (N.eqb_eq _ 0)) by lia. f_equal. f_equal; [|f_equal]; lia.
  - rewrite IH by apply H. simpl. f_equal. f_equal; [|f_equal; [|f_equal]]; lia.
Qed.

(** Decoding what was encoded gives the bytes back. *)
Lemma b64_raw_roundtrip l :
  Forall is_byte l -> b64_raw_decode alphabet (b64_raw_encode alphabet l) = Some l.
Proof.
  intros Hl. unfold b64_raw_decode. rewrite b64_encode_text, b64_text_read by by apply b64_split_small.
  simpl. by apply b64_split_join.
Qed.

(** The text is made of the alphabet's characters. *)
Lemma b64_text_bytes (p : N -> bool) l :
  forallb (fun x => p (byte (b64_char alphabet x))) (N.of_nat <$> seq 0 64) = true ->
  Forall is_byte l -> forall_bytes p (b64_raw_encode alphabet l) = true.
Proof.
  intros Hp Hl. rewrite b64_encode_text. apply b64_split_small in Hl.
  rewrite forallb_forall in Hp. induction Hl as [|x t Hx _ IH]; [done|]. simpl. rewrite IH, andb_true_r.
  apply Hp. apply list_elem_of_In, list_elem_of_fmap. exists (N.to_nat x). split; [lia|].
  apply elem_of_seq. lia.
Qed.
End b64_lemmas.

Lemma alphabet_std_ok : alphabet_ok alphabet_std = true.
Proof. vm_compute. reflexivity. Qed.

Lemma alphabet_url_ok : alphabet_ok alphabet_url = true.
Proof. vm_compute. reflexivity. Qed.
