(* ===== verification/Effects.v ===== *)
(** * Programs that talk to the outside

    The request handlers of the program read the clock and the random source,
    send commands to Redis and statements to Postgres, hash passwords and push
    to the inbox. Here they are programs of a free monad: a tree of such calls,
    each continued with the answer it got. A program can be run against a
    [Machine] from start to end, or interleaved call by call with others. *)

From S2P Require Import Prelude.

(** ** Errors *)

(** The package-level error values of the source, errors of the libraries, and
    [fmt.Errorf("...: %w", err)]. *)
Inductive error :=
| ErrSessionNotFound | ErrTicketNotFound
| ErrInvalidCredentials | ErrInvalidEmail | ErrInvalidDisplayName
| ErrUserNotFound | ErrEmailTaken | ErrUserDisabled | ErrNoCredentials
| ErrInvalidHash | ErrIncompatibleHash
| ErrPasswordTooShort | ErrPasswordTooLong | ErrPasswordNotAllowed
| ErrNotFound | ErrSlugTaken | ErrInvalidName
| RateLimitError (retryAfter : Z)
| Foreign (msg : string)
| Wrap (msg : string) (err : error).

#[export] Instance error_eq_dec : EqDecision error.
Proof. solve_decision. Defined.

(** [errors.Is(err, target)] *)
Fixpoint Is (err target : error) : bool :=
  bool_decide (err = target) || match err with Wrap _ e => Is e target | _ => false end.

(** An error of the infrastructure, passed on with a message; not one of the
    limiter check. *)
Definition store_error (e : error) : Prop :=
  exists m e', e = Wrap m e' /\ m <> "rate limiter unavailable".

(** ** Redis commands, as go-redis offers them *)

(** Times to live are [time.Duration]s, in nanoseconds, but for the [PEXPIRE] a
    script sends, which is in milliseconds. *)
Inductive command :=
| Get (key : string)
| Set_ (key value : string) (ttl : Z)
| Del (keys : list string)
| GetDel (key : string)
| SAdd (key : string) (members : list string)
| SRem (key : string) (members : list string)
| SMembers (key : string)
| Expire (key : string) (ttl : Z)
| Incr (key : string)
| PExpire (key : string) (ms : Z)
| PTTL (key : string).

Inductive reply :=
| RNil
| RStatus
| RBulk (s : string)
| RInt (z : Z)
| RArr (l : list string)
| RErr (msg : string).

(** A Lua script: calls, and the integers it returns. A call that answers with an
    error ends the script with it. *)
Inductive script :=
| Return (l : list Z)
| Call (c : command) (k : reply -> script).

(** One command, or a [TxPipeline], executes atomically; so does a script. *)
Inductive request :=
| Pipeline (cs : list command)
| Script (s : script).

(** ** Postgres statements *)

Record user_row := mkUserRow {
  u_id : string;
  u_email : string;
  u_display_name : string;
  u_email_verified : bool;
  u_created_at : Z;
  u_disabled : bool   (* disabled_at IS NOT NULL *)
}.

Record room_row := mkRoomRow {
  r_id : string;
  r_slug : string;
  r_name : string;
  r_created_by : string;
  r_created_at : Z
}.

Record event_row := mkEventRow {
  e_user_id : option string;
  e_email : option string;
  e_event : string;
  e_ip : option string;
  e_user_agent : string
}.

(** The statements of [src/internal/auth/store.go] and
    [src/internal/rooms/store.go], with the type of what they yield. *)
Inductive statement : Type -> Type :=
| InsertUser (email display_name : string) : statement user_row
| InsertCredential (user_id password_hash : string) : statement unit
| SelectUserByEmail (email : string) : statement (option (user_row * option string))
| SelectUserById (id : string) : statement (option user_row)
| SelectContacts (except : string) (limit : Z) : statement (list (string * string))
| SelectCredential (user_id : string) : statement (option string)
| UpdateCredential (user_id password_hash : string) : statement Z
| InsertEvent (e : event_row) : statement unit
| InsertRoom (slug name created_by : string) : statement room_row
| SelectRoomBySlug (slug : string) : statement (option room_row)
| DeleteRoom (slug : string) : statement Z
| SelectRooms (limit : Z) : statement (list (room_row * string)).

Inductive db_error :=
| UniqueViolation      (* SQLSTATE 23505 *)
| OtherError.

(** A transaction: statements, then a commit or a rollback with its result. *)
Inductive tx (A : Type) : Type :=
| Commit (a : A)
| Rollback (e : error)
| Exec {X : Type} (q : statement X) (k : db_error + X -> tx A).
Arguments Commit {A} a.
Arguments Rollback {A} e.
Arguments Exec {A X} q k.

(** Argon2id parameters, [params] of [src/internal/auth/password.go]. *)
Record params := mkParams {
  memoryKiB : N;
  iterations : N;
  parallelism : N;
  saltLength : N;
  keyLength : N
}.

#[export] Instance params_eq_dec : EqDecision params.
Proof. solve_decision. Defined.

(** ** Programs *)

Inductive eff : Type -> Type :=
| Now : eff Z                                  (* time.Now(), in nanoseconds *)
| Random (n : nat) : eff (option (list N))     (* rand.Read *)
| Redis (r : request) : eff (option (list reply))
| Query {X} (q : statement X) : eff (db_error + X)
| Transaction {X} (t : tx X) : eff (error + X)
| AcquireSlot : eff bool                       (* hashSlots <- struct{}{}; false: ctx.Done() *)
| ReleaseSlot : eff unit
| IDKey (password : string) (salt : list N) (p : params) : eff (list N)
| Deliver (user data : string) : eff nat.      (* the inbox hub *)

Inductive prog (A : Type) : Type :=
| Ret (a : A)
| Vis {X : Type} (e : eff X) (k : X -> prog A).
Arguments Ret {A} a.
Arguments Vis {A X} e k.

Fixpoint bind {A B} (p : prog A) (f : A -> prog B) : prog B :=
  match p with
  | Ret a => f a
  | Vis e k => Vis e (fun x => bind (k x) f)
  end.

Definition call {X} (e : eff X) : prog X := Vis e Ret.

(** [return ..., err] and the check [if err != nil { return ..., err }]. *)
Definition fails {A} (e : error) : prog (error + A) := Ret (inl e).

Definition succeeds {A} (a : A) : prog (error + A) := Ret (inr a).

Definition bindE {A B} (p : prog (error + A)) (f : A -> prog (error + B)) : prog (error + B) :=
  bind p (fun r => match r with inl e => fails e | inr a => f a end).

Declare Scope eff_scope.
Delimit Scope eff_scope with eff.
Notation "x <~ m ;; k" := (bind m (fun x => k))
  (at level 100, m at next level, right associativity) : eff_scope.
Notation "m ;~ k" := (bind m (fun _ => k))
  (at level 100, k at level 200, right associativity) : eff_scope.
Notation "x <~? m ;; k" := (bindE m (fun x => k))
  (at level 100, m at next level, right associativity) : eff_scope.
Open Scope eff_scope.

(** ** Machines *)

(** What answers the calls of a program. *)
Class Machine := {
  mstate : Type;
  respond : forall X, eff X -> mstate -> X * mstate
}.

Fixpoint interp `{Machine} {A} (p : prog A) : ST mstate A :=
  match p with
  | Ret a => st_ret a
  | Vis e k => fun w => let '(x, w') := respond _ e w in interp (k x) w'
  end.

(** ** Interleavings *)

(** The next call of a program, answered. *)
Definition advance `{Machine} {A} (p : prog A) (w : mstate) : option (prog A * mstate) :=
  match p with
  | Ret _ => None
  | Vis e k => let '(x, w') := respond _ e w in Some (k x, w')
  end.

(** Several programs in flight: one of them makes its next call. *)
Inductive pool_step `{Machine} {A} : list (prog A) * mstate -> list (prog A) * mstate -> Prop :=
| pool_call ps i p p' w w' :
    ps !! i = Some p ->
    advance p w = Some (p', w') ->
    pool_step (ps, w) (<[i := p']> ps, w').

Definition pool_steps `{Machine} {A} := rtc (@pool_step _ A).

(** Let the programs make their calls in the given order. *)
Fixpoint run_pool `{Machine} {A} (order : list nat) (s : list (prog A) * mstate)
    : list (prog A) * mstate :=
  match order with
  | [] => s
  | i :: order =>
      match s.1 !! i ≫= (fun p => advance p s.2) with
      | Some (p, w) => run_pool order (<[i := p]> s.1, w)
      | None => run_pool order s
      end
  end.

(** ** Rules *)

Section rules.
Context `{Machine}.

Lemma run_pool_steps {A} order (s : list (prog A) * mstate) : pool_steps s (run_pool order s).
Proof.
  revert s. induction order as [|i order IH]; intros [ps w]; simpl; [apply rtc_refl|].
  destruct (ps !! i) as [p|] eqn:Hi; simpl; [|apply IH].
  destruct (advance p w) as [[p' w']|] eqn:Ha; [|apply IH].
  eapply rtc_l; [by eapply pool_call|apply IH].
Qed.

Lemma wp_interp_ret {A} (a : A) Q w : wp (interp (Ret a)) Q w <-> Q a w.
Proof. done. Qed.

Lemma wp_interp_vis {A X} (e : eff X) (k : X -> prog A) Q w :
  wp (interp (Vis e k)) Q w <-> let '(x, w') := respond _ e w in wp (interp (k x)) Q w'.
Proof. unfold wp. simpl. by destruct (respond _ e w). Qed.

Lemma wp_interp_bind {A B} (p : prog A) (f : A -> prog B) Q w :
  wp (interp (bind p f)) Q w <-> wp (interp p) (fun a w' => wp (interp (f a)) Q w') w.
Proof.
  revert w. induction p as [a|X e k IH]; intros w; [done|].
  simpl bind. rewrite !wp_interp_vis. destruct (respond _ e w) as [x w']. apply IH.
Qed.

Lemma wp_interp_call {X} (e : eff X) Q w :
  wp (interp (call e)) Q w <-> Q (fst (respond _ e w)) (snd (respond _ e w)).
Proof. unfold call. rewrite wp_interp_vis. by destruct (respond _ e w). Qed.

Lemma wp_interp_bindE {A B} (p : prog (error + A)) (f : A -> prog (error + B)) Q w :
  wp (interp (bindE p f)) Q w <->
  wp (interp p) (fun r w' => match r with inl e => Q (inl e) w' | inr a => wp (interp (f a)) Q w' end) w.
Proof.
  unfold bindE. rewrite wp_interp_bind. split; intros Hw; (eapply wp_mono; [exact Hw|]); by intros [e|a] w'.
Qed.

Lemma wp_interp_fails {A} e Q w : wp (interp (@fails A e)) Q w <-> Q (inl e) w.
Proof. done. Qed.

Lemma wp_interp_succeeds {A} (a : A) Q w : wp (interp (succeeds a)) Q w <-> Q (inr a) w.
Proof. done. Qed.

(** Every program runs to completion. *)
Lemma interp_total {A} (p : prog A) w : exists a w', interp p w = Ok (a, w').
Proof.
  revert w. induction p as [a|X e k IH]; intros w; simpl; [eauto|].
  destruct (respond _ e w). apply IH.
Qed.

Lemma wp_any {A} (p : prog A) (Q : A -> mstate -> Prop) w :
  (forall a w', Q a w') -> wp (interp p) Q w.
Proof. intros HQ. destruct (interp_total p w) as (a & w' & Hr). eapply wp_intro; [exact Hr|apply HQ]. Qed.

(** A triple that keeps the run itself. *)
Lemma wp_exact {A} (p : prog A) (Q : A -> mstate -> Prop) w :
  (forall a w', interp p w = Ok (a, w') -> Q a w') -> wp (interp p) Q w.
Proof. intros HQ. destruct (interp_total p w) as (a & w' & Hr). eapply wp_intro; [exact Hr|by apply HQ]. Qed.

(** What holds of every answer to every call and every later state holds at the
    end. *)
Lemma wp_interp_inv {A} (I : mstate -> Prop) (p : prog A) w :
  (forall X (e : eff X) w, I w -> I (snd (respond _ e w))) ->
  I w -> wp (interp p) (fun _ w' => I w') w.
Proof.
  intros Hstep. revert w. induction p as [a|X e k IH]; intros w Hw; [done|].
  rewrite wp_interp_vis. specialize (Hstep X e w Hw). destruct (respond _ e w). by apply IH.
Qed.
End rules.

#[export] Hint Rewrite @wp_interp_ret @wp_interp_bind @wp_interp_call @wp_interp_bindE
  @wp_interp_fails @wp_interp_succeeds : cbback.
