(* ===== verification/RedisSpec.v ===== *)
(** * Redis, as the program relies on it

    The keyspace and what the commands of [Effects.v] do to it, following the
    Redis command reference; the class [RedisLaws] is the interface a machine
    has to meet. It leaves open what the reference leaves open: the order of
    [SMEMBERS], which requests fail, and how often a request was executed before
    its answer arrived. *)

From S2P Require Import Prelude GoStrings Effects.

(** ** The keyspace *)

Inductive value :=
| VStr (s : string)
| VSet (s : gset string).

(** [deadline] is in milliseconds of the server's clock. *)
Record entry := Entry { val : value; deadline : option Z }.

Abbreviation kv := (gmap string entry).

(** A key is gone once the clock has passed its deadline. *)
Definition alive (t : Z) (e : entry) : bool :=
  match deadline e with None => true | Some d => (t <=? d)%Z end.

Definition live (t : Z) (m : kv) : kv := filter (fun p => alive t p.2 = true) m.

(** ** Commands *)

Definition wrong_type : reply := RErr "WRONGTYPE".

Definition get_set (m : kv) (k : string) : option (gset string * option Z) :=
  match m !! k with
  | None => Some (∅, None)
  | Some (Entry (VSet s) d) => Some (s, d)
  | Some _ => None
  end.

(** A set without members is no key. *)
Definition put_set (k : string) (s : gset string) (d : option Z) (m : kv) : kv :=
  if decide (s = ∅) then delete k m else <[k := Entry (VSet s) d]> m.

Definition set_deadline (t ms : Z) (k : string) (m : kv) : reply * kv :=
  match m !! k with
  | None => (RInt 0, m)
  | Some e => (RInt 1, if (0 <? ms)%Z then <[k := Entry (val e) (Some (t + ms)%Z)]> m else delete k m)
  end.

(** The decimal integers [INCR] accepts. *)
Definition parse_int (s : string) : option Z :=
  '(z, r) ← scan_int s;
  if bool_decide (itoa z = s) then Some z else None.

(** How the client turns a [time.Duration] into a time to live in milliseconds:
    none for [SET]; seconds for [EXPIRE]. *)
Record ttl_rules := TtlRules {
  set_ms : Z -> option Z;
  expire_ms : Z -> Z
}.

Section commands.
Variable rules : ttl_rules.

(** The answer of a command and the keyspace it leaves, at server time [t], for
    a keyspace without expired keys. [SMEMBERS] answers in an order of its own. *)
Definition exec_command (t : Z) (c : command) (m : kv) : reply * kv :=
  match c with
  | Get k =>
      (match m !! k with
       | None => RNil
       | Some (Entry (VStr s) _) => RBulk s
       | Some _ => wrong_type
       end, m)
  | Set_ k v ttl =>
      (RStatus, <[k := Entry (VStr v) ((fun ms => (t + ms)%Z) <$> set_ms rules ttl)]> m)
  | Del ks =>
      (RInt (Z.of_nat (length (List.filter (fun k => bool_decide (is_Some (m !! k))) (remove_dups ks)))),
       foldr delete m ks)
  | GetDel k =>
      match m !! k with
      | None => (RNil, m)
      | Some (Entry (VStr s) _) => (RBulk s, delete k m)
      | Some _ => (wrong_type, m)
      end
  | SAdd k ms =>
      match get_set m k with
      | Some (s, d) =>
          (RInt (Z.of_nat (size (list_to_set ms ∖ s))), put_set k (s ∪ list_to_set ms) d m)
      | None => (wrong_type, m)
      end
  | SRem k ms =>
      match get_set m k with
      | Some (s, d) =>
          (RInt (Z.of_nat (size (s ∩ list_to_set ms))), put_set k (s ∖ list_to_set ms) d m)
      | None => (wrong_type, m)
      end
  | SMembers k =>
      (match get_set m k with Some (s, _) => RArr (elements s) | None => wrong_type end, m)
  | Expire k ttl => set_deadline t (expire_ms rules ttl) k m
  | Incr k =>
      match m !! k with
      | None => (RInt 1, <[k := Entry (VStr "1") None]> m)
      | Some (Entry (VStr s) d) =>
          match parse_int s with
          | Some z =>
              if (z <? 2 ^ 63 - 1)%Z
              then (RInt (z + 1), <[k := Entry (VStr (itoa (z + 1))) d]> m)
              else (RErr "ERR increment or decrement would overflow", m)
          | None => (RErr "ERR value is not an integer or out of range", m)
          end
      | Some _ => (wrong_type, m)
      end
  | PExpire k ms => set_deadline t ms k m
  | PTTL k =>
      (match m !! k with
       | None => RInt (-2)
       | Some (Entry _ None) => RInt (-1)
       | Some (Entry _ (Some d)) => RInt (d - t)
       end, m)
  end.

Definition effect (t : Z) (c : command) (m : kv) : kv := snd (exec_command t c m).

(** The answers a server may give. *)
Definition reply_ok (t : Z) (c : command) (m : kv) (r : reply) : Prop :=
  match fst (exec_command t c m) with
  | RArr l => exists l', r = RArr l' /\ l' ≡ₚ l
  | r' => r = r'
  end.

Fixpoint pipeline_spec (t : Z) (cs : list command) (m : kv) (rs : list reply) (m' : kv) : Prop :=
  match cs, rs with
  | [], [] => m' = m
  | c :: cs, r :: rs => reply_ok t c m r /\ pipeline_spec t cs (effect t c m) rs m'
  | _, _ => False
  end.

Fixpoint script_spec (t : Z) (s : script) (m : kv) (rs : list reply) (m' : kv) : Prop :=
  match s with
  | Return l => rs = RInt <$> l /\ m' = m
  | Call c k => exists r, reply_ok t c m r /\
      match r with
      | RErr _ => rs = [r] /\ m' = effect t c m
      | _ => script_spec t (k r) (effect t c m) rs m'
      end
  end.

(** What an executed request does to the keyspace. *)
Definition request_spec (t : Z) (r : request) (m : kv) (rs : list reply) (m' : kv) : Prop :=
  match r with
  | Pipeline cs => pipeline_spec t cs (live t m) rs m'
  | Script s => script_spec t s (live t m) rs m'
  end.

(** The client resends a request whose answer was lost ([MaxRetries] in
    [src/cmd/server/main.go]), so it may be executed any number of times before
    the execution that is answered, or before the client gives up. *)
Definition attempts (lo hi : Z) (r : request) : kv -> kv -> Prop :=
  rtc (fun m m' => exists t rs, (lo <= t <= hi)%Z /\ request_spec t r m rs m').
End commands.

(** ** The interface *)

(** The view of Redis in a machine: its clock, its keyspace, and the client's
    treatment of times to live. *)
Class RedisView `{Machine} := {
  ttls : ttl_rules;
  server_ms : mstate -> Z;
  keyspace : mstate -> kv
}.

Definition is_redis {X} (e : eff X) : bool := match e with Redis _ => true | _ => false end.

Class RedisLaws `{RedisView} : Prop := {
  (* a positive duration is rounded down to milliseconds, but never to nothing;
     no duration means no expiry *)
  set_ms_pos ttl : (0 < ttl)%Z -> set_ms ttls ttl = Some (Z.max 1 (ttl / 1000000));
  set_ms_zero : set_ms ttls 0 = None;
  (* [EXPIRE] counts whole seconds *)
  expire_ms_whole s : (0 < s)%Z -> expire_ms ttls (s * 1000000000) = (s * 1000)%Z;
  redis_clock X (e : eff X) w : (server_ms w <= server_ms (snd (respond _ e w)))%Z;
  redis_answer r w o w' :
    respond _ (Redis r) w = (o, w') ->
    exists m, attempts ttls (server_ms w) (server_ms w') r (keyspace w) m /\
      match o with
      | Some rs => request_spec ttls (server_ms w') r m rs (keyspace w')
      | None => keyspace w' = m
      end;
  redis_frame X (e : eff X) w :
    is_redis e = false -> keyspace (snd (respond _ e w)) = keyspace w
}.
Arguments RedisLaws {_} _.

(** The clocks agree to the millisecond: what the program reads lies between what
    the server would tell before and after. *)
Class ClockLaws `{RedisView} : Prop := {
  clock_answer w n w' :
    respond _ Now w = (n, w') -> (server_ms w <= n / 1000000 <= server_ms w')%Z
}.
Arguments ClockLaws {_} _.

(** ** What the client library makes of answers *)

(** The error of a request: of the connection, or the first of its commands. *)
Fixpoint first_error (rs : list reply) : option error :=
  match rs with
  | [] => None
  | RErr m :: _ => Some (Foreign m)
  | _ :: rs => first_error rs
  end.

(** Send a request; [inl] is the error [Exec] or [Err] returns, [redis.Nil]
    excepted. *)
Definition redis (r : request) : prog (error + list reply) :=
  rs <~ call (Redis r) ;;
  match rs with
  | None => fails (Foreign "redis: connection")
  | Some rs => match first_error rs with Some e => fails e | None => succeeds rs end
  end.

(** [Result] and [Bytes] of a command that yields a string: [None] is
    [redis.Nil]. *)
Definition redis_string (c : command) : prog (error + option string) :=
  rs <~? redis (Pipeline [c]) ;;
  match rs with
  | [RBulk s] => succeeds (Some s)
  | [RNil] => succeeds None
  | _ => fails (Foreign "redis: unexpected reply")
  end.

(** [Result] of a command that yields a list. *)
Definition redis_list (c : command) : prog (error + list string) :=
  rs <~? redis (Pipeline [c]) ;;
  match rs with
  | [RArr l] => succeeds l
  | _ => fails (Foreign "redis: unexpected reply")
  end.

(** [Err] of a command. *)
Definition redis_run (c : command) : prog (error + unit) :=
  _ <~? redis (Pipeline [c]) ;; succeeds tt.

(** [fmt.Errorf(msg + ": %w", err)] around the error of a call. *)
Definition wrapped {A} (msg : string) (p : prog (error + A)) : prog (error + A) :=
  r <~ p ;;
  match r with inl e => fails (Wrap msg e) | inr a => succeeds a end.

(** ** Lemmas *)

Lemma parse_int_itoa z : (0 <= z < 2 ^ 63)%Z -> parse_int (itoa z) = Some z.
Proof.
  intros Hz. unfold parse_int. pose proof (scan_int_itoa z "" Hz I) as H.
  rewrite str_app_nil in H. rewrite H. simpl. by rewrite bool_decide_true.
Qed.

Lemma live_lookup t m k :
  live t m !! k = match m !! k with Some e => if alive t e then Some e else None | None => None end.
Proof.
  apply option_eq. intros e. unfold live. rewrite map_lookup_filter_Some. simpl.
  destruct (m !! k) as [e'|]; [|split; [by intros []|done]]. destruct (alive t e') eqn:E; split.
  - by intros [[= ->] _].
  - by intros [= ->].
  - intros [[= ->] ?]. congruence.
  - done.
Qed.

Lemma live_lookup_Some t m k e : live t m !! k = Some e <-> m !! k = Some e /\ alive t e = true.
Proof. unfold live. by rewrite map_lookup_filter_Some. Qed.

Lemma alive_mono t t' e : (t <= t')%Z -> alive t' e = true -> alive t e = true.
Proof. unfold alive. destruct (deadline e); [|done]. rewrite !Z.leb_le. lia. Qed.

Lemma live_live t t' m : (t <= t')%Z -> live t' (live t m) = live t' m.
Proof.
  intros Ht. apply map_eq. intros k. rewrite !live_lookup. destruct (m !! k) as [e|]; simpl; [|done].
  destruct (alive t e) eqn:E; simpl; [done|]. destruct (alive t' e) eqn:E'; [|done].
  by rewrite (alive_mono t t') in E.
Qed.

(** The key a command works on is the only one it changes. *)
Definition keys_of (c : command) : list string :=
  match c with
  | Get k | Set_ k _ _ | GetDel k | SAdd k _ | SRem k _ | SMembers k
  | Expire k _ | Incr k | PExpire k _ | PTTL k => [k]
  | Del ks => ks
  end.

Lemma foldr_delete_lookup (ks : list string) (m : kv) k :
  foldr delete m ks !! k = if decide (k ∈ ks) then None else m !! k.
Proof.
  induction ks as [|k' ks IH]; cbn [foldr].
  - destruct (decide _) as [Hk|]; [by apply elem_of_nil in Hk|done].
  - rewrite lookup_delete, IH.
    destruct (decide (k' = k)), (decide (k ∈ ks)) as [Hin|Hout], (decide (k ∈ k' :: ks)) as [Hi|Ho];
      try done; [subst; destruct Ho; by left..|destruct Ho; by right|].
    apply elem_of_cons in Hi as [->|?]; done.
Qed.

Lemma put_set_ne k s d m k' : k' ≠ k -> put_set k s d m !! k' = m !! k'.
Proof.
  intros Hk. unfold put_set. case_decide; [by rewrite lookup_delete_ne|by rewrite lookup_insert_ne].
Qed.

Lemma put_set_eq k s d m :
  put_set k s d m !! k = if decide (s = ∅) then None else Some (Entry (VSet s) d).
Proof. unfold put_set. case_decide; [by rewrite lookup_delete_eq|by rewrite lookup_insert_eq]. Qed.

Lemma effect_frame rules t c m k :
  k ∉ keys_of c -> effect rules t c m !! k = m !! k.
Proof.
  assert (forall ms k', k ≠ k' -> (set_deadline t ms k' m).2 !! k = m !! k) as Hdl.
  { intros ms k' Hk. unfold set_deadline. destruct (m !! k'); [|done]. simpl.
    destruct (0 <? ms)%Z; [by rewrite lookup_insert_ne|by rewrite lookup_delete_ne]. }
  unfold effect. destruct c; simpl; rewrite ?list_elem_of_singleton; intros Hk; try done.
  - by rewrite lookup_insert_ne.
  - rewrite foldr_delete_lookup. by rewrite decide_False.
  - destruct (m !! key) as [[[]]|]; simpl; [by rewrite lookup_delete_ne|done..].
  - destruct (get_set m key) as [[]|]; [by apply put_set_ne|done].
  - destruct (get_set m key) as [[]|]; [by apply put_set_ne|done].
  - by apply Hdl.
  - destruct (m !! key) as [[[]]|]; simpl; [|done|by rewrite lookup_insert_ne].
    destruct (parse_int s); [|done]. destruct (_ <? _)%Z; [|done]. simpl. by rewrite lookup_insert_ne.
  - by apply Hdl.
Qed.

Lemma set_deadline_some t ms k m e :
  m !! k = Some e -> (0 < ms)%Z ->
  set_deadline t ms k m = (RInt 1, <[k := Entry (val e) (Some (t + ms)%Z)]> m).
Proof. intros He Hms. unfold set_deadline. by rewrite He, (proj2 (Z.ltb_lt 0 ms)). Qed.

(** What a read answers, and that it only drops expired keys. *)
Lemma get_spec rules t k m rs m' :
  request_spec rules t (Pipeline [Get k]) m rs m' ->
  m' = live t m /\
  rs = [match live t m !! k with
        | None => RNil
        | Some (Entry (VStr s) _) => RBulk s
        | Some _ => wrong_type
        end].
Proof.
  simpl. destruct rs as [|r [|r' rs]]; try tauto. intros [Hr ->]. split; [done|].
  unfold reply_ok in Hr. simpl in Hr. destruct (live t m !! k) as [[[s|s] d]|]; by rewrite Hr.
Qed.

Lemma smembers_spec rules t k m rs m' :
  request_spec rules t (Pipeline [SMembers k]) m rs m' ->
  m' = live t m /\
  match get_set (live t m) k with
  | Some (s, _) => exists l, rs = [RArr l] /\ l ≡ₚ elements s
  | None => rs = [wrong_type]
  end.
Proof.
  simpl. destruct rs as [|r [|r' rs]]; try tauto. intros [Hr ->]. split; [done|].
  unfold reply_ok in Hr. simpl in Hr. destruct (get_set (live t m) k) as [[s d]|]; [|by rewrite Hr].
  destruct Hr as (l & -> & Hl). eauto.
Qed.

Section rules.
Context `{RL : RedisLaws}.

(** The rule for a request: an assertion on the keyspace, which may depend on the
    time the request ends, that every execution keeps; then what the answered
    execution does. *)
Lemma wp_redis r (I : Z -> kv -> Prop) (Q : error + list reply -> mstate -> Prop) w :
  (forall hi, (server_ms w <= hi)%Z -> I hi (keyspace w)) ->
  (forall hi t m rs m', (server_ms w <= t <= hi)%Z -> I hi m ->
     request_spec ttls t r m rs m' -> I hi m') ->
  (forall e w', (server_ms w <= server_ms w')%Z -> I (server_ms w') (keyspace w') ->
     (fst (respond _ (Redis r) w) = None \/
      exists m rs, I (server_ms w') m /\
        request_spec ttls (server_ms w') r m rs (keyspace w') /\ first_error rs <> None) ->
     Q (inl e) w') ->
  (forall m rs w', (server_ms w <= server_ms w')%Z -> I (server_ms w') m ->
     request_spec ttls (server_ms w') r m rs (keyspace w') ->
     first_error rs = None -> Q (inr rs) w') ->
  wp (interp (redis r)) Q w.
Proof.
  intros Hw Hkeep Herr Hok. unfold redis.
  rewrite wp_interp_bind, wp_interp_call.
  pose proof (redis_clock _ (Redis r) w) as Ht.
  destruct (respond _ (Redis r) w) as [o w'] eqn:Hr. simpl in *.
  destruct (redis_answer r w o w' Hr) as (m & Hatt & Hm).
  assert (I (server_ms w') m) as HI.
  { specialize (Hw _ Ht). clear Hm Hr.
    induction Hatt as [|m1 m2 m3 (t & rs & Hb & Hs) _ IH]; [done|].
    apply IH. by apply (Hkeep _ t m1 rs m2). }
  destruct o as [rs|]; simpl.
  - destruct (first_error rs) as [e|] eqn:He; [|by apply (Hok m)].
    apply Herr; [done|by apply (Hkeep _ _ _ _ _ (conj Ht (Z.le_refl _)) HI Hm)|].
    right. exists m, rs. by rewrite He.
  - apply Herr; [done|by subst m|by left].
Qed.

(** Reads: nothing but expired keys goes away. *)
Lemma wp_redis_get k (I : Z -> kv -> Prop) (Q : error + option string -> mstate -> Prop) w :
  (forall hi, (server_ms w <= hi)%Z -> I hi (keyspace w)) ->
  (forall hi t m, (server_ms w <= t <= hi)%Z -> I hi m -> I hi (live t m)) ->
  (forall r w', (server_ms w <= server_ms w')%Z -> I (server_ms w') (keyspace w') ->
     match r with
     | inl _ => fst (respond _ (Redis (Pipeline [Get k])) w) = None \/
         exists s d, keyspace w' !! k = Some (Entry (VSet s) d)
     | inr None => keyspace w' !! k = None
     | inr (Some s) => exists d, keyspace w' !! k = Some (Entry (VStr s) d)
     end -> Q r w') ->
  wp (interp (redis_string (Get k))) Q w.
Proof.
  intros Hw Hlive HQ. unfold redis_string. rewrite wp_interp_bindE.
  apply (wp_redis _ I); [done|..].
  - intros hi t m rs m' Ht HI Hs. apply get_spec in Hs as [-> _]. by apply Hlive.
  - intros e w' Ht HI Hwhy. apply HQ; [done..|]. destruct Hwhy as [?|(m & rs & _ & Hs & He)]; [by left|].
    right. apply get_spec in Hs as [-> ->]. destruct (_ !! k) as [[[s|s] d]|]; [done|eauto|done].
  - intros m rs w' Ht HI Hs He.
    assert (I (server_ms w') (keyspace w')) as HI'.
    { apply get_spec in Hs as [-> _]. apply Hlive; [lia|done]. }
    apply get_spec in Hs as [Hm ->]. rewrite <- Hm in *.
    destruct (keyspace w' !! k) as [[[s|s] d]|] eqn:E; [|done|]; apply HQ; eauto.
Qed.

Lemma wp_redis_smembers k (I : Z -> kv -> Prop) (Q : error + list string -> mstate -> Prop) w :
  (forall hi, (server_ms w <= hi)%Z -> I hi (keyspace w)) ->
  (forall hi t m, (server_ms w <= t <= hi)%Z -> I hi m -> I hi (live t m)) ->
  (forall r w', (server_ms w <= server_ms w')%Z -> I (server_ms w') (keyspace w') ->
     match r with
     | inl _ => fst (respond _ (Redis (Pipeline [SMembers k])) w) = None \/
         get_set (keyspace w') k = None
     | inr l => exists s d, get_set (keyspace w') k = Some (s, d) /\ l ≡ₚ elements s
     end -> Q r w') ->
  wp (interp (redis_list (SMembers k))) Q w.
Proof.
  intros Hw Hlive HQ. unfold redis_list. rewrite wp_interp_bindE.
  apply (wp_redis _ I); [done|..].
  - intros hi t m rs m' Ht HI Hs. apply smembers_spec in Hs as [-> _]. by apply Hlive.
  - intros e w' Ht HI Hwhy. apply HQ; [done..|]. destruct Hwhy as [?|(m & rs & _ & Hs & He)]; [by left|].
    right. apply smembers_spec in Hs as [-> Hr]. destruct (get_set _ k) as [[s d]|]; [|done].
    by destruct Hr as (l & -> & _).
  - intros m rs w' Ht HI Hs He.
    assert (I (server_ms w') (keyspace w')) as HI'.
    { apply smembers_spec in Hs as [-> _]. apply Hlive; [lia|done]. }
    apply smembers_spec in Hs as [Hm Hr]. rewrite <- Hm in *.
    destruct (get_set (keyspace w') k) as [[s d]|] eqn:E; [|by subst].
    destruct Hr as (l & -> & Hl). apply HQ; eauto.
Qed.

Lemma wp_wrapped {A} msg (p : prog (error + A)) (Q : error + A -> mstate -> Prop) w :
  wp (interp p) (fun r w' => match r with inl e => Q (inl (Wrap msg e)) w' | inr a => Q (inr a) w' end) w ->
  wp (interp (wrapped msg p)) Q w.
Proof. intros Hp. unfold wrapped. rewrite wp_interp_bind. eapply wp_mono; [exact Hp|]. by intros [e|a] w'. Qed.
End rules.

(** ** What the commands of a request do, the request does *)

Section commands_of_requests.
Variable ok : command -> Prop.

(** Every command the request can make. *)
Fixpoint script_all (s : script) : Prop :=
  match s with
  | Return _ => True
  | Call c f => ok c /\ forall r, script_all (f r)
  end.

Definition request_all (r : request) : Prop :=
  match r with
  | Pipeline cs => Forall ok cs
  | Script s => script_all s
  end.

(** A preorder on keyspaces that holds over the passing of time and over each
    command holds over the request, and over a call, however often it is tried. *)
Variable R : relation kv.
Context `{!PreOrder R}.

Lemma request_rel rules t r m rs m' :
  (forall m, R m (live t m)) -> (forall c m, ok c -> R m (effect rules t c m)) ->
  request_all r -> request_spec rules t r m rs m' -> R m m'.
Proof.
  intros Hlive Heff Hr Hs. transitivity (live t m); [apply Hlive|].
  destruct r as [cs|s]; simpl in *; revert Hr Hs.
  - generalize (live t m). intros m0 Hr. revert m0 rs. induction Hr as [|c cs Hc _ IH]; intros m0 rs; simpl.
    + by destruct rs; [intros ->|].
    + destruct rs as [|r rs]; [done|]. intros [_ Hs]. transitivity (effect rules t c m0); [by apply Heff|eauto].
  - generalize (live t m). revert rs. induction s as [l|c f IH]; intros rs m0; simpl.
    + by intros _ [_ ->].
    + intros [Hc Hf] (r & _ & Hs). transitivity (effect rules t c m0); [by apply Heff|].
      destruct r; try (by eapply IH). by destruct Hs as [_ ->].
Qed.

Lemma attempts_rel rules lo hi r m m' :
  (forall t m, (lo <= t <= hi)%Z -> R m (live t m)) ->
  (forall t c m, (lo <= t <= hi)%Z -> ok c -> R m (effect rules t c m)) ->
  request_all r -> attempts rules lo hi r m m' -> R m m'.
Proof.
  intros Hlive Heff Hr. induction 1 as [|m1 m2 m3 (t & rs & Ht & Hs) _ IH]; [done|].
  transitivity m2; [|done]. eapply request_rel; eauto.
Qed.

Lemma call_rel `{RL : RedisLaws} X (e : eff X) w :
  (forall t m, (server_ms w <= t <= server_ms (snd (respond _ e w)))%Z -> R m (live t m)) ->
  (forall t c m, (server_ms w <= t <= server_ms (snd (respond _ e w)))%Z -> ok c -> R m (effect ttls t c m)) ->
  match e with Redis r => request_all r | _ => True end ->
  R (keyspace w) (keyspace (snd (respond _ e w))).
Proof.
  intros Hlive Heff He. destruct (is_redis e) eqn:Hr; [|by rewrite redis_frame].
  destruct e as [| |r| | | | | |]; try done. pose proof (redis_clock _ (Redis r) w) as Ht.
  destruct (respond _ (Redis r) w) as [o w'] eqn:E. simpl in *.
  destruct (redis_answer _ _ _ _ E) as (m & Hatt & Hm).
  transitivity m; [eapply attempts_rel; eauto|].
  destruct o as [rs|]; [|by rewrite Hm]. eapply request_rel; eauto with lia.
Qed.
End commands_of_requests.

Lemma request_all_mono (ok ok' : command -> Prop) r :
  (forall c, ok c -> ok' c) -> request_all ok r -> request_all ok' r.
Proof.
  intros Hok. destruct r as [cs|s]; simpl; [intros Hcs; by eapply Forall_impl|].
  induction s as [l|c k IH]; simpl; [done|]. intros [Hc Hk]. auto.
Qed.

(** ** Programs that leave a key alone *)

(** The keys a command may give a value or a new deadline. *)
Definition writes (c : command) : list string :=
  match c with
  | Set_ k _ _ | SAdd k _ | SRem k _ | Expire k _ | Incr k | PExpire k _ => [k]
  | Get _ | Del _ | GetDel _ | SMembers _ | PTTL _ => []
  end.

Definition request_avoids (k : string) : request -> Prop := request_all (fun c => k ∉ writes c).

(** No request the program can ever send writes [k]; it may delete it. *)
Fixpoint avoids {A} (k : string) (p : prog A) : Prop :=
  match p with
  | Ret _ => True
  | Vis e f => match e with Redis r => request_avoids k r | _ => True end /\ forall x, avoids k (f x)
  end.

Lemma avoids_bind {A B} k (p : prog A) (f : A -> prog B) :
  avoids k p -> (forall a, avoids k (f a)) -> avoids k (bind p f).
Proof.
  intros Hp Hf. induction p as [a|X e g IH]; simpl; [apply Hf|]. destruct Hp as [He Hg]. split; [done|].
  intros x. by apply IH.
Qed.

Lemma avoids_bindE {A B} k (p : prog (error + A)) (f : A -> prog (error + B)) :
  avoids k p -> (forall a, avoids k (f a)) -> avoids k (bindE p f).
Proof. intros Hp Hf. apply avoids_bind; [done|]. intros [e|a]; [done|apply Hf]. Qed.

Lemma avoids_wrapped {A} k msg (p : prog (error + A)) : avoids k p -> avoids k (wrapped msg p).
Proof. intros Hp. apply avoids_bind; [done|]. by intros [e|a]. Qed.

Lemma avoids_call {X} k (e : eff X) : is_redis e = false -> avoids k (call e).
Proof. by destruct e. Qed.

Lemma avoids_redis k r : request_avoids k r -> avoids k (redis r).
Proof.
  intros Hr. apply avoids_bind; [by split|]. intros [rs|]; [|done]. by destruct (first_error rs).
Qed.

Lemma avoids_redis_string k c : k ∉ writes c -> avoids k (redis_string c).
Proof.
  intros Hc. apply avoids_bindE; [apply avoids_redis; by repeat constructor|].
  intros rs. by repeat case_match.
Qed.

Lemma avoids_redis_list k c : k ∉ writes c -> avoids k (redis_list c).
Proof.
  intros Hc. apply avoids_bindE; [apply avoids_redis; by repeat constructor|].
  intros rs. by repeat case_match.
Qed.

Lemma avoids_redis_run k c : k ∉ writes c -> avoids k (redis_run c).
Proof. intros Hc. apply avoids_bindE; [apply avoids_redis; by repeat constructor|done]. Qed.

(** Decompose [avoids k p] along the program; what is left are the programs it
    calls and the keys that are not written by inspection. *)
Ltac not_written :=
  simpl; rewrite ?list_elem_of_singleton; first [apply not_elem_of_nil | done].

Ltac pipeline_avoids :=
  simpl; repeat case_match; simpl; repeat (apply Forall_cons; split; [not_written|]); first [apply Forall_nil_2 | done].

Ltac avoid :=
  repeat first
    [ assumption
    | lazymatch goal with
      | |- avoids _ (bindE _ _) => apply avoids_bindE; [|intros ?]
      | |- avoids _ (bind _ _) => apply avoids_bind; [|intros ?]
      | |- avoids _ (wrapped _ _) => apply avoids_wrapped
      | |- avoids _ (call _) => apply avoids_call; reflexivity
      | |- avoids _ (redis_string _) => apply avoids_redis_string; solve [not_written]
      | |- avoids _ (redis_list _) => apply avoids_redis_list; solve [not_written]
      | |- avoids _ (redis_run _) => apply avoids_redis_run; solve [not_written]
      | |- avoids _ (redis _) => apply avoids_redis; solve [pipeline_avoids]
      | |- avoids _ (fails _) => exact I
      | |- avoids _ (succeeds _) => exact I
      | |- avoids _ (Ret _) => exact I
      end
    | case_match ].

(** The key is as it was, or gone. *)
Definition kept_or_gone (k : string) (m m' : kv) : Prop := m' !! k = m !! k \/ m' !! k = None.

Lemma kept_or_gone_trans k m1 m2 m3 :
  kept_or_gone k m1 m2 -> kept_or_gone k m2 m3 -> kept_or_gone k m1 m3.
Proof. unfold kept_or_gone. intros [H1|H1] [H2|H2]; rewrite ?H2, ?H1; auto. Qed.

Lemma live_kept k t m : kept_or_gone k m (live t m).
Proof. unfold kept_or_gone. rewrite live_lookup. destruct (m !! k) as [e|]; [|auto]. destruct (alive t e); auto. Qed.

Lemma effect_kept rules t c m k : k ∉ writes c -> kept_or_gone k m (effect rules t c m).
Proof.
  intros Hk. destruct c as [x|x v ttl|ks|x|x ms|x ms|x|x ttl|x|x ms|x];
    try (left; by apply effect_frame); try by left.
  - unfold kept_or_gone, effect. simpl. rewrite foldr_delete_lookup. destruct (decide _); auto.
  - unfold kept_or_gone, effect. simpl. destruct (m !! x) as [[[s|s] d]|]; simpl; [|auto..].
    rewrite lookup_delete. case_decide; auto.
Qed.

#[export] Instance kept_or_gone_preorder k : PreOrder (kept_or_gone k).
Proof. split; [by left|]. intros m1 m2 m3. apply kept_or_gone_trans. Qed.

Lemma request_kept rules t r m rs m' k :
  request_avoids k r -> request_spec rules t r m rs m' -> kept_or_gone k m m'.
Proof.
  apply (request_rel (fun c => k ∉ writes c) (kept_or_gone k)); [intros ?; apply live_kept|].
  intros c m0. apply effect_kept.
Qed.

Section avoiding.
Context `{RL : RedisLaws}.

Lemma call_kept k X (e : eff X) w :
  match e with Redis r => request_avoids k r | _ => True end ->
  kept_or_gone k (keyspace w) (keyspace (snd (respond _ e w))).
Proof.
  intros He. apply (call_rel (fun c => k ∉ writes c) (kept_or_gone k)); [intros ? ? _; apply live_kept| |by destruct e].
  intros ? ? ? _. apply effect_kept.
Qed.

Lemma wp_avoids {A} k (p : prog A) w :
  avoids k p -> wp (interp p) (fun _ w' => kept_or_gone k (keyspace w) (keyspace w')) w.
Proof.
  revert w. induction p as [a|X e f IH]; intros w; simpl avoids; [by left|]. intros [He Hf].
  rewrite wp_interp_vis. pose proof (call_kept k X e w He) as Hk.
  destruct (respond _ e w) as [x w1]. eapply wp_mono; [by apply IH|].
  intros a w2 Hk2. by eapply kept_or_gone_trans.
Qed.

(** Programs that leave the key alone do so however they interleave. *)
Lemma pool_kept {A} k (s s' : list (prog A) * mstate) :
  Forall (avoids k) s.1 -> pool_steps s s' ->
  Forall (avoids k) s'.1 /\ kept_or_gone k (keyspace s.2) (keyspace s'.2) /\
  (server_ms s.2 <= server_ms s'.2)%Z.
Proof.
  intros Hs. induction 1 as [|s1 s2 s3 Hstep _ IH]; [split; [done|]; split; [by left|lia]|].
  destruct Hstep as [ps i p p' w w' Hi Ha]. simpl in *.
  destruct p as [|X e f]; [done|]. simpl in Ha.
  destruct (Forall_lookup_1 _ _ _ _ Hs Hi) as [He Hf].
  pose proof (call_kept k X e w He) as Hk. pose proof (redis_clock X e w) as Ht.
  destruct (respond _ e w) as [x w1]. injection Ha as <- <-. simpl in *.
  destruct IH as (IH1 & IH2 & IH3); [apply Forall_insert; [done|apply Hf]|].
  split; [done|]. split; [by eapply kept_or_gone_trans|lia].
Qed.
End avoiding.
