(* ===== verification/PostgresSpec.v ===== *)
(** * Postgres, as the program relies on it

    The tables of [src/internal/database/migrations] and what the statements of
    the two stores ([src/internal/auth/store.go], [src/internal/rooms/store.go])
    do to them. The class [PostgresLaws] is the interface a machine has to meet:
    a statement either has its effect or fails; a failed one may have been
    applied when the answer was lost; a transaction is applied as a whole or not
    at all. *)

From S2P Require Import Prelude GoStrings Effects.
From stdpp Require Import sorting.

(** ** Tables *)

Record tables := mkTables {
  users : gmap string user_row;          (* by id *)
  credentials : gmap string string;      (* password_hash by user_id *)
  rooms : gmap string room_row;          (* by id *)
  auth_events : list event_row
}.

(** What the database decides: equality of [citext] values, the uuid a text
    denotes (in its canonical text form), and the order of display names. *)
Record db_rules := DbRules {
  citext_eqb : string -> string -> bool;
  uuid_of : string -> option string;
  name_le : relation string
}.

(** Comparison of addresses is an equivalence; the text of a uuid is
    ASCII and denotes itself. *)
Class DbLaws (rules : db_rules) : Prop := {
  citext_refl a : citext_eqb rules a a = true;
  citext_sym a b : citext_eqb rules a b = citext_eqb rules b a;
  citext_trans a b c : citext_eqb rules a b = true -> citext_eqb rules b c = true -> citext_eqb rules a c = true;
  uuid_ascii a b : uuid_of rules a = Some b -> is_ascii b = true;
  uuid_canonical a b : uuid_of rules a = Some b -> uuid_of rules b = Some b
}.

Section statements.
Variable rules : db_rules.

Definition email_taken (email : string) (tb : tables) : Prop :=
  exists i u, users tb !! i = Some u /\ citext_eqb rules (u_email u) email = true.

Definition slug_taken (slug : string) (tb : tables) : Prop :=
  exists i r, rooms tb !! i = Some r /\ r_slug r = slug.

Definition length_between (lo hi : nat) (s : string) : Prop := lo <= RuneCountInString s <= hi.

(** The rows of [SELECT ... ORDER BY display_name, id]. *)
Definition contact_le (a b : string * string) : Prop :=
  name_le rules a.2 b.2 /\ (name_le rules b.2 a.2 -> String.le a.1 b.1).

Definition contact_rows (except : string) (tb : tables) : list (string * string) :=
  (fun u => (u_id u, u_display_name u)) <$>
    List.filter (fun u => negb (u_disabled u) && negb (bool_decide (u_id u = except)))
      (snd <$> map_to_list (users tb)).

(** The rows of the join of [rooms] with their creators. *)
Definition room_rows (tb : tables) : list (room_row * string) :=
  omap (fun r => u ← users tb !! r_created_by r; Some (r, u_display_name u))
    (snd <$> map_to_list (rooms tb)).

Definition newer (a b : room_row * string) : Prop := (r_created_at b.1 <= r_created_at a.1)%Z.

(** The statement succeeds with a value and leaves the given tables. *)
Definition stmt_ok {X} (q : statement X) (tb : tables) : X -> tables -> Prop :=
  match q in statement X return X -> tables -> Prop with
  | InsertUser email name => fun u tb' =>
      ~ email_taken email tb /\ length_between 3 254 email /\ length_between 1 100 name /\
      users tb !! u_id u = None /\ uuid_of rules (u_id u) = Some (u_id u) /\
      u = mkUserRow (u_id u) email name false (u_created_at u) false /\
      tb' = mkTables (<[u_id u := u]> (users tb)) (credentials tb) (rooms tb) (auth_events tb)
  | InsertCredential i hash => fun _ tb' =>
      is_Some (users tb !! i) /\ credentials tb !! i = None /\
      tb' = mkTables (users tb) (<[i := hash]> (credentials tb)) (rooms tb) (auth_events tb)
  | SelectUserByEmail email => fun o tb' =>
      tb' = tb /\
      match o with
      | None => ~ email_taken email tb
      | Some (u, h) =>
          users tb !! u_id u = Some u /\ citext_eqb rules (u_email u) email = true /\
          h = credentials tb !! u_id u
      end
  | SelectUserById i => fun o tb' =>
      tb' = tb /\ exists j, uuid_of rules i = Some j /\ o = users tb !! j
  | SelectContacts except limit => fun l tb' =>
      tb' = tb /\ exists full, full ≡ₚ contact_rows except tb /\
        StronglySorted contact_le full /\ l = take (Z.to_nat limit) full
  | SelectCredential i => fun o tb' =>
      tb' = tb /\ exists j, uuid_of rules i = Some j /\ o = credentials tb !! j
  | UpdateCredential i hash => fun n tb' =>
      exists j, uuid_of rules i = Some j /\
        n = (if credentials tb !! j then 1 else 0)%Z /\
        tb' = mkTables (users tb) (alter (fun _ => hash) j (credentials tb)) (rooms tb) (auth_events tb)
  | InsertEvent e => fun _ tb' =>
      tb' = mkTables (users tb) (credentials tb) (rooms tb) (auth_events tb ++ [e])
  | InsertRoom slug name by_ => fun r tb' =>
      ~ slug_taken slug tb /\ slugPattern slug = true /\ length_between 1 100 name /\
      is_Some (users tb !! r_created_by r) /\ uuid_of rules by_ = Some (r_created_by r) /\
      rooms tb !! r_id r = None /\
      r = mkRoomRow (r_id r) slug name (r_created_by r) (r_created_at r) /\
      tb' = mkTables (users tb) (credentials tb) (<[r_id r := r]> (rooms tb)) (auth_events tb)
  | SelectRoomBySlug slug => fun o tb' =>
      tb' = tb /\
      match o with
      | None => ~ slug_taken slug tb
      | Some r => rooms tb !! r_id r = Some r /\ r_slug r = slug
      end
  | DeleteRoom slug => fun n tb' =>
      let gone := filter (fun p : string * room_row => r_slug p.2 = slug) (rooms tb) in
      n = Z.of_nat (size gone) /\
      tb' = mkTables (users tb) (credentials tb)
        (filter (fun p : string * room_row => r_slug p.2 <> slug) (rooms tb)) (auth_events tb)
  | SelectRooms limit => fun l tb' =>
      tb' = tb /\ exists full, full ≡ₚ room_rows tb /\
        StronglySorted newer full /\ l = take (Z.to_nat limit) full
  end.

(** The statement violates a unique constraint. *)
Definition conflict {X} (q : statement X) (tb : tables) : Prop :=
  match q with
  | InsertUser email _ => email_taken email tb
  | InsertCredential i _ => is_Some (credentials tb !! i)
  | InsertRoom slug _ _ => slug_taken slug tb
  | _ => False
  end.

(** A statement on its own: when its answer is lost it may have been executed. *)
Definition query_spec {X} (q : statement X) (tb : tables) (r : db_error + X) (tb' : tables) : Prop :=
  match r with
  | inr x => stmt_ok q tb x tb'
  | inl UniqueViolation => conflict q tb /\ tb' = tb
  | inl OtherError => tb' = tb \/ exists x, stmt_ok q tb x tb'
  end.

(** The statements of a transaction, from the tables [tb0] it began with. *)
Fixpoint tx_spec {A} (t : tx A) (tb0 tb : tables) (r : error + A) (tb' : tables) : Prop :=
  match t with
  | Commit a =>
      (r = inr a /\ tb' = tb) \/
      (exists m, r = inl (Wrap "commit" (Foreign m)) /\ (tb' = tb0 \/ tb' = tb))
  | Rollback e => r = inl e /\ tb' = tb0
  | Exec q k => exists ans tb1,
      match ans with
      | inr x => stmt_ok q tb x tb1
      | inl UniqueViolation => conflict q tb /\ tb1 = tb
      | inl OtherError => tb1 = tb
      end /\ tx_spec (k ans) tb0 tb1 r tb'
  end.

(** A transaction, which may fail to begin. *)
Definition transaction_spec {A} (t : tx A) (tb : tables) (r : error + A) (tb' : tables) : Prop :=
  tx_spec t tb tb r tb' \/ (exists m, r = inl (Wrap "begin" (Foreign m)) /\ tb' = tb).
End statements.

(** ** The interface *)

Class PostgresView `{Machine} := {
  db : db_rules;
  database : mstate -> tables
}.

Definition is_postgres {X} (e : eff X) : bool :=
  match e with Query _ => true | Transaction _ => true | _ => false end.

Class PostgresLaws `{PostgresView} : Prop := {
  query_answer X (q : statement X) w r w' :
    respond _ (Query q) w = (r, w') -> query_spec db q (database w) r (database w');
  transaction_answer X (t : tx X) w r w' :
    respond _ (Transaction t) w = (r, w') -> transaction_spec db t (database w) r (database w');
  postgres_frame X (e : eff X) w :
    is_postgres e = false -> database (snd (respond _ e w)) = database w
}.
Arguments PostgresLaws {_} _.

(** ** Lemmas *)

Section rules.
Context `{PL : PostgresLaws}.

Lemma wp_query {X} (q : statement X) (Q : db_error + X -> mstate -> Prop) w :
  (forall r w', query_spec db q (database w) r (database w') -> Q r w') ->
  wp (interp (call (Query q))) Q w.
Proof.
  intros HQ. apply wp_interp_call. destruct (respond _ (Query q) w) as [r w'] eqn:E.
  apply HQ. by apply query_answer.
Qed.

Lemma wp_transaction {X} (t : tx X) (Q : error + X -> mstate -> Prop) w :
  (forall r w', transaction_spec db t (database w) r (database w') -> Q r w') ->
  wp (interp (call (Transaction t))) Q w.
Proof.
  intros HQ. apply wp_interp_call. destruct (respond _ (Transaction t) w) as [r w'] eqn:E.
  apply HQ. by apply transaction_answer.
Qed.
End rules.
