(* ===== verification/Hasher.v ===== *)
(** * Hashing, as the program relies on it

    Argon2id, the random source and the channel [hashSlots] of
    [src/internal/auth/password.go]. [HasherLaws] is the interface a machine has
    to meet: [argon2.IDKey] is a function of its arguments with an output of the
    length asked for, [rand.Read] fills the buffer with bytes, and the channel is
    a counting semaphore. [slots] is the discipline a program has to keep to hand
    every slot back. *)

From S2P Require Import Prelude Crypto Effects.

(** ** The interface *)

(** [free_slots] is the number of hashes that may still be started. *)
Class HasherView `{Machine} := {
  kdf : string -> list N -> params -> list N;
  free_slots : mstate -> nat
}.

Definition is_slot {X} (e : eff X) : bool :=
  match e with AcquireSlot => true | ReleaseSlot => true | _ => false end.

Class HasherLaws `{HasherView} : Prop := {
  idkey_answer password salt p w key w' :
    respond _ (IDKey password salt p) w = (key, w') -> key = kdf password salt p;
  kdf_output password salt p :
    length (kdf password salt p) = N.to_nat (keyLength p) /\ Forall is_byte (kdf password salt p);
  random_answer n w l w' :
    respond _ (Random n) w = (Some l, w') -> length l = n /\ Forall is_byte l;
  acquire_answer w (b : bool) w' :
    respond _ AcquireSlot w = (b, w') ->
    if b then free_slots w = S (free_slots w') else free_slots w' = free_slots w;
  release_answer w w' :
    respond _ ReleaseSlot w = (tt, w') -> free_slots w' = S (free_slots w);
  slot_frame X (e : eff X) w :
    is_slot e = false -> free_slots (snd (respond _ e w)) = free_slots w
}.
Arguments HasherLaws {_} _.

(** ** The discipline *)

(** A program that holds [n] slots, 0 or 1: it hashes only with one in hand,
    calls nothing else meanwhile, and ends with none. *)
Fixpoint slots {A} (n : nat) (p : prog A) : Prop :=
  match p with
  | Ret _ => n = 0
  | Vis e f =>
      match e in eff X return (X -> prog A) -> Prop with
      | AcquireSlot => fun f => n = 0 /\ slots 1 (f true) /\ slots 0 (f false)
      | ReleaseSlot => fun f => n = 1 /\ slots 0 (f tt)
      | IDKey _ _ _ => fun f => n = 1 /\ forall x, slots 1 (f x)
      | _ => fun f => n = 0 /\ forall x, slots 0 (f x)
      end f
  end.

(** The number of slots a program holds, by its next call: the only calls made
    with a slot in hand are the hash and the release. *)
Definition holding {A} (p : prog A) : nat :=
  match p with
  | Vis (IDKey _ _ _) _ | Vis ReleaseSlot _ => 1
  | _ => 0
  end.

Definition held {A} (ps : list (prog A)) : nat := sum_list (holding <$> ps).

Lemma slots_holding {A} n (p : prog A) : slots n p -> holding p = n.
Proof. destruct p as [a|X e f]; simpl; [done|]. destruct e; simpl; naive_solver. Qed.

Lemma slots_bind {A B} n (p : prog A) (f : A -> prog B) :
  slots n p -> (forall a, slots 0 (f a)) -> slots n (bind p f).
Proof.
  intros Hp Hf. revert n Hp. induction p as [a|X e g IH]; simpl; [by intros ? ->|].
  intros n. destruct e; simpl; naive_solver.
Qed.

Lemma slots_bindE {A B} n (p : prog (error + A)) (f : A -> prog (error + B)) :
  slots n p -> (forall a, slots 0 (f a)) -> slots n (bindE p f).
Proof. intros Hp Hf. apply slots_bind; [done|]. by intros [e|a]; [|apply Hf]. Qed.

Lemma slots_call {X} (e : eff X) :
  is_slot e = false -> (match e with IDKey _ _ _ => False | _ => True end) -> slots 0 (call e).
Proof. by destruct e. Qed.

(** ** The work of a run *)

(** What a caller can measure: each hash that is computed, with its parameters,
    and each time no slot was to be had before the request was cancelled. *)
Inductive work := Hashed (p : params) | Refused.

Definition work_of {X} (e : eff X) : X -> list work :=
  match e in eff X return X -> list work with
  | IDKey _ _ p => fun _ => [Hashed p]
  | AcquireSlot => fun b : bool => if b then [] else [Refused]
  | _ => fun _ => []
  end.

Section work.
Context `{Machine}.

Fixpoint work_done {A} (p : prog A) (w : mstate) : list work :=
  match p with
  | Ret _ => []
  | Vis e f => let '(x, w') := respond _ e w in work_of e x ++ work_done (f x) w'
  end.

(** A triple that also sees the work. *)
Definition wpw {A} (p : prog A) (Q : A -> mstate -> list work -> Prop) (w : mstate) : Prop :=
  wp (interp p) (fun a w' => Q a w' (work_done p w)) w.

Lemma wpw_ret {A} (a : A) Q w : Q a w [] -> wpw (Ret a) Q w.
Proof. done. Qed.

Lemma wpw_bind {A B} (p : prog A) (f : A -> prog B) Q w :
  wpw p (fun a w' t => wpw (f a) (fun b w'' t' => Q b w'' (t ++ t')) w') w -> wpw (bind p f) Q w.
Proof.
  unfold wpw. revert w Q. induction p as [a|X e g IH]; intros w Q; [done|].
  simpl bind. rewrite !wp_interp_vis. simpl. destruct (respond _ e w) as [x w'] eqn:E. intros Hp.
  apply (IH x w' (fun b w'' t => Q b w'' (work_of e x ++ t))).
  eapply wp_mono; [exact Hp|]. intros a w2 Hq. unfold wpw in *. eapply wp_mono; [exact Hq|].
  intros b w3. simpl. by rewrite app_assoc.
Qed.

Lemma wpw_bindE {A B} (p : prog (error + A)) (f : A -> prog (error + B)) Q w :
  wpw p (fun r w' t => match r with
    | inl e => Q (inl e) w' t
    | inr a => wpw (f a) (fun b w'' t' => Q b w'' (t ++ t')) w' end) w -> wpw (bindE p f) Q w.
Proof.
  intros Hp. apply wpw_bind. eapply wp_mono; [exact Hp|]. simpl. intros [e|a] w' Hr; [|exact Hr].
  apply wpw_ret. by rewrite app_nil_r.
Qed.

Lemma wpw_mono {A} (p : prog A) (Q Q' : A -> mstate -> list work -> Prop) w :
  wpw p Q w -> (forall a w' t, Q a w' t -> Q' a w' t) -> wpw p Q' w.
Proof. intros Hp HQ. eapply wp_mono; [exact Hp|]. intros a w'. apply HQ. Qed.

Lemma wpw_wp {A} (p : prog A) (Q : A -> mstate -> Prop) w :
  wpw p (fun a w' _ => Q a w') w -> wp (interp p) Q w.
Proof. done. Qed.

(** What holds of the run anyway may be used for it. *)
Lemma wpw_with {A} (p : prog A) (P : A -> mstate -> Prop) (Q : A -> mstate -> list work -> Prop) w :
  wp (interp p) P w -> wpw p (fun a w' t => P a w' -> Q a w' t) w -> wpw p Q w.
Proof.
  intros HP HQ. unfold wpw. eapply wp_mono; [exact (wp_conj _ _ _ _ HP HQ)|].
  simpl. intros a w' [Hp Hq]. by apply Hq.
Qed.

Lemma wpw_run {A} (p : prog A) Q w a w' :
  wpw p Q w -> interp p w = Ok (a, w') -> Q a w' (work_done p w).
Proof. unfold wpw, wp. intros Hp Hr. by rewrite Hr in Hp. Qed.
End work.

Section rules.
Context `{HL : HasherLaws}.

Lemma wpw_idkey password salt p (Q : list N -> mstate -> list work -> Prop) w :
  (forall w', Q (kdf password salt p) w' [Hashed p]) -> wpw (call (IDKey password salt p)) Q w.
Proof.
  intros HQ. unfold wpw. apply wp_interp_call. simpl.
  destruct (respond _ (IDKey password salt p) w) as [k w'] eqn:E. apply idkey_answer in E as ->. apply HQ.
Qed.

Lemma wpw_acquire (Q : bool -> mstate -> list work -> Prop) w :
  (forall w', Q true w' []) -> (forall w', Q false w' [Refused]) -> wpw (call AcquireSlot) Q w.
Proof.
  intros Ht Hf. unfold wpw. apply wp_interp_call. simpl.
  destruct (respond _ AcquireSlot w) as [[] w']; simpl; auto.
Qed.

Lemma wpw_release (Q : unit -> mstate -> list work -> Prop) w :
  (forall w', Q tt w' []) -> wpw (call ReleaseSlot) Q w.
Proof.
  intros HQ. unfold wpw. apply wp_interp_call. simpl. by destruct (respond _ ReleaseSlot w) as [[] w'].
Qed.

Lemma wpw_random n (Q : option (list N) -> mstate -> list work -> Prop) w :
  (forall o w', (forall l, o = Some l -> length l = n /\ Forall is_byte l) -> Q o w' []) ->
  wpw (call (Random n)) Q w.
Proof.
  intros HQ. unfold wpw. apply wp_interp_call. simpl. destruct (respond _ (Random n) w) as [o w'] eqn:E.
  simpl. apply HQ. intros l ->. by eapply random_answer.
Qed.

(** One call: what it takes or gives back is what the program then holds. *)
Lemma slots_advance {A} (p p' : prog A) w w' n :
  slots n p -> advance p w = Some (p', w') ->
  exists n', slots n' p' /\ n' + free_slots w' = n + free_slots w.
Proof.
  destruct p as [a|X e f]; [done|]. simpl. destruct (respond _ e w) as [x w1] eqn:E.
  intros Hs [= <- <-]. pose proof (slot_frame X e w) as Hframe. rewrite E in Hframe. simpl in Hframe.
  destruct e; simpl in Hs; try (destruct Hs as [-> Hs]; eexists; split; [apply Hs|]; by rewrite Hframe).
  - destruct Hs as (-> & H1 & H2). apply acquire_answer in E. destruct x.
    + exists 1. split; [done|]. lia.
    + exists 0. split; [done|]. lia.
  - destruct Hs as [-> Hs], x. apply release_answer in E. exists 0. split; [done|]. lia.
Qed.

(** In every interleaving the slots in use and the free ones add up. *)
Lemma slots_conserved {A} (s s' : list (prog A) * mstate) :
  pool_steps s s' -> Forall (fun p => exists n, slots n p) s.1 ->
  Forall (fun p => exists n, slots n p) s'.1 /\
  held s'.1 + free_slots s'.2 = held s.1 + free_slots s.2.
Proof.
  induction 1 as [s|s1 s2 s3 Hstep _ IH]; [done|]. intros Hs.
  assert (Forall (fun p => exists n, slots n p) s2.1 /\
    held s2.1 + free_slots s2.2 = held s1.1 + free_slots s1.2) as [Hs2 Heq].
  { destruct Hstep as [ps i p p' w w' Hi Ha]. simpl in *.
    destruct (Forall_lookup_1 _ _ _ _ Hs Hi) as [n Hn].
    destruct (slots_advance _ _ _ _ _ Hn Ha) as (n' & Hn' & Heq).
    split; [apply Forall_insert; eauto|].
    apply slots_holding in Hn as Hn1. apply slots_holding in Hn' as Hn1'.
    pose proof (take_drop_middle _ _ _ Hi) as Hps. apply lookup_lt_Some in Hi as Hlt.
    rewrite insert_take_drop by done. rewrite <- Hps at 3. unfold held.
    rewrite !fmap_app. simpl.
    assert (forall l k : list nat, sum_list (l ++ k) = sum_list l + sum_list k) as Happ.
    { intros l k. induction l as [|x l IHl]; simpl; [done|]. lia. }
    rewrite !Happ. simpl. lia. }
  destruct (IH Hs2) as [H1 H2]. split; [done|]. lia.
Qed.
End rules.
