(* ===== verification/RateLimit.v ===== *)
(** * The rate limiter

    [src/internal/auth/ratelimit.go]: fixed windows counted in Redis by one
    atomic script. *)

From S2P Require Import Prelude GoStrings Effects RedisSpec.

(** ** Data *)

Record Limit := mkLimit { Requests : Z; Window : Z }.

Definition Minute : Z := 60000000000.
Definition Hour : Z := 60 * Minute.
Definition Millisecond : Z := 1000000.

Definition LoginPerAccount : Limit := mkLimit 5 (15 * Minute).
Definition LoginPerIP : Limit := mkLimit 20 (15 * Minute).
Definition RegisterPerIP : Limit := mkLimit 5 Hour.
Definition PasswordChangeIP : Limit := mkLimit 10 Hour.

(** [int64] out of a reply, 0 if it is something else. *)
Definition as_int (r : reply) : Z := match r with RInt z => z | _ => 0 end.

(** ** Operations *)

Definition incrementAndExpire (key : string) (window_ms : Z) : script :=
  Call (Incr key) (fun count =>
    let finish := Call (PTTL key) (fun ttl => Return [as_int count; as_int ttl]) in
    if (as_int count =? 1)%Z then Call (PExpire key window_ms) (fun _ => finish) else finish).

Definition limit_key (key : string) : string := "rl:" +:+ key.

Definition Allow (key : string) (limit : Limit) : prog (error + bool * Z) :=
  res <~? wrapped ("rate limit " +:+ key)
    (redis (Script (incrementAndExpire (limit_key key) (Window limit / Millisecond)))) ;;
  match res with
  | [c; t] =>
      let count := as_int c in
      let ttlMillis := as_int t in
      if (Requests limit <? count)%Z then
        let retryAfter := wrap64 (ttlMillis * Millisecond) in
        let retryAfter := if (retryAfter <? 0)%Z then Window limit else retryAfter in
        succeeds (false, retryAfter)
      else succeeds (true, 0%Z)
  | _ => fails (Foreign ("rate limit " +:+ key +:+ ": unexpected reply"))
  end.

Definition Reset (key : string) : prog (error + unit) :=
  wrapped ("reset rate limit " +:+ key) (redis_run (Del [limit_key key])).

(** ** Counters *)

(** A counter the limiter left: its value and the time it expires. *)
Definition counter (m : kv) (k : string) : option (Z * Z) :=
  match m !! k with
  | Some (Entry (VStr s) (Some d)) => (fun n => (n, d)) <$> parse_int s
  | _ => None
  end.

(** A key is either absent or a counter with an expiry: no lockout is permanent. *)
Definition counter_ok (m : kv) (k : string) : Prop :=
  match m !! k with
  | None => True
  | Some e => exists n d, e = Entry (VStr (itoa n)) (Some d) /\ (1 <= n < 2 ^ 63)%Z
  end.

(** ** Lemmas *)

Lemma counter_ok_live t m k : counter_ok m k -> counter_ok (live t m) k.
Proof. unfold counter_ok. rewrite live_lookup. destruct (m !! k) as [e|]; [|done]. by destruct (alive t e). Qed.

Lemma counter_none m k : counter_ok m k -> counter m k = None -> m !! k = None.
Proof.
  unfold counter_ok, counter. destruct (m !! k) as [e|]; [|done].
  intros (n & d & -> & Hn). rewrite parse_int_itoa by lia. done.
Qed.

Lemma counter_some m k n d :
  counter_ok m k -> counter m k = Some (n, d) ->
  m !! k = Some (Entry (VStr (itoa n)) (Some d)) /\ (1 <= n < 2 ^ 63)%Z.
Proof.
  unfold counter_ok, counter. destruct (m !! k) as [e|]; [|done].
  intros (n' & d' & -> & Hn). rewrite parse_int_itoa by lia. by intros [= -> ->].
Qed.

Lemma counter_live t m k :
  counter_ok m k ->
  counter (live t m) k = match counter m k with
    | Some (n, d) => if (t <=? d)%Z then Some (n, d) else None
    | None => None
    end.
Proof.
  intros Hk. destruct (counter m k) as [[n d]|] eqn:E.
  - apply counter_some in E as [E Hn]; [|done]. unfold counter. rewrite live_lookup, E.
    unfold alive. simpl. destruct (t <=? d)%Z; [|done]. by rewrite parse_int_itoa by lia.
  - apply counter_none in E; [|done]. unfold counter. by rewrite live_lookup, E.
Qed.

(** One execution of the script: the counter goes up by one, and a new one gets
    the window as its time to live. *)
Lemma hit_spec rules t k w m rs m' :
  (0 < w)%Z -> counter_ok m k ->
  script_spec rules t (incrementAndExpire k w) m rs m' ->
  counter_ok m' k /\
  match counter m k with
  | None => rs = [RInt 1; RInt w] /\ counter m' k = Some (1, t + w)%Z
  | Some (n, d) =>
      (rs = [RInt (n + 1); RInt (d - t)] /\ counter m' k = Some (n + 1, d)%Z) \/
      (first_error rs <> None /\ m' = m)
  end.
Proof.
  intros Hw Hok Hs. destruct (counter m k) as [[n d]|] eqn:E.
  - apply counter_some in E as [E Hn]; [|done]. unfold incrementAndExpire in Hs. cbn [script_spec] in Hs.
    unfold reply_ok, effect in Hs. cbn [exec_command] in Hs. rewrite E in Hs.
    rewrite parse_int_itoa in Hs by lia. destruct (n <? 2 ^ 63 - 1)%Z eqn:Hlt; simpl in Hs.
    + apply Z.ltb_lt in Hlt. destruct Hs as (r & -> & Hs). simpl in Hs.
      rewrite (proj2 (Z.eqb_neq _ _)) in Hs by lia. simpl in Hs.
      unfold reply_ok, effect in Hs. simpl in Hs. destruct Hs as (r & Hr & Hs).
      rewrite lookup_insert_eq in Hr. simpl in Hr. subst r. destruct Hs as [-> ->]. simpl. unfold counter_ok, counter.
      rewrite lookup_insert_eq. rewrite parse_int_itoa by lia. split; [|by left].
      eexists _, _. split; [done|lia].
    + destruct Hs as (r & -> & -> & ->). split; [done|]. by right.
  - apply counter_none in E; [|done]. unfold incrementAndExpire in Hs. cbn [script_spec] in Hs.
    unfold reply_ok, effect in Hs. cbn [exec_command] in Hs. rewrite E in Hs. simpl in Hs.
    destruct Hs as (r & -> & Hs). simpl in Hs. unfold reply_ok, effect in Hs. simpl in Hs.
    rewrite (set_deadline_some _ _ _ _ _ (lookup_insert_eq m k (Entry (VStr "1") None)) Hw) in Hs.
    simpl in Hs. destruct Hs as (r1 & -> & r & Hr & Hs).
    rewrite lookup_insert_eq in Hr. simpl in Hr. subst r. destruct Hs as [-> ->].
    unfold counter_ok, counter. rewrite lookup_insert_eq. split.
    { exists 1%Z, (t + w)%Z. split; [done|lia]. }
    split; [|done]. simpl. do 3 f_equal. lia.
Qed.
