(* ===== verification/Sim.v ===== *)
(** * A machine

    A concrete [Machine] that meets the interfaces of [RedisSpec.v] and
    [PostgresSpec.v]: an in-memory Redis and an in-memory database, a clock that
    is moved by hand, a counter for a random source, and a list of faults for
    requests to Redis. Theorems are proved against the interfaces; this machine
    shows that they can be met, and it is what the examples run on. *)

From S2P Require Import Prelude GoStrings Crypto Effects RedisSpec PostgresSpec Hasher.
From stdpp Require Import sorting.

Record sim := mkSim {
  sim_store : kv;
  sim_db : tables;
  sim_clock : Z;            (* nanoseconds *)
  sim_seed : N;
  sim_faults : list bool;   (* whether the next requests to Redis fail *)
  sim_pushed : list (string * string);
  sim_slots : nat           (* free hashing slots *)
}.

Definition empty_tables : tables := mkTables ∅ ∅ ∅ [].

Definition with_faults (fs : list bool) (w : sim) : sim :=
  mkSim (sim_store w) (sim_db w) (sim_clock w) (sim_seed w) fs (sim_pushed w) (sim_slots w).

Definition with_slots (n : nat) (w : sim) : sim :=
  mkSim (sim_store w) (sim_db w) (sim_clock w) (sim_seed w) (sim_faults w) (sim_pushed w) n.

(** A stand-in for Argon2id with output of the length asked for. *)
Definition sim_kdf (password : string) (salt : list N) (p : params) : list N :=
  resize (N.to_nat (keyLength p)) 0%N (sha256 (bytes password ++ salt)).

Definition sim_ms (w : sim) : Z := (sim_clock w / 1000000)%Z.

(** ** Redis *)

Definition sim_ttls : ttl_rules := TtlRules
  (fun d => if (0 <? d)%Z then Some (Z.max 1 (d / 1000000)) else None)
  (fun d => (d / 1000000000 * 1000)%Z).

Fixpoint run_pipeline (t : Z) (cs : list command) (m : kv) : list reply * kv :=
  match cs with
  | [] => ([], m)
  | c :: cs =>
      let '(r, m1) := exec_command sim_ttls t c m in
      let '(rs, m2) := run_pipeline t cs m1 in (r :: rs, m2)
  end.

Fixpoint run_script (t : Z) (s : script) (m : kv) : list reply * kv :=
  match s with
  | Return l => (RInt <$> l, m)
  | Call c k =>
      let '(r, m1) := exec_command sim_ttls t c m in
      match r with RErr _ => ([r], m1) | _ => run_script t (k r) m1 end
  end.

Definition run_request (t : Z) (r : request) (m : kv) : list reply * kv :=
  match r with
  | Pipeline cs => run_pipeline t cs (live t m)
  | Script s => run_script t s (live t m)
  end.

(** ** The database *)

Definition sim_rules : db_rules := DbRules
  (fun a b => bool_decide (map_bytes lower_byte a = map_bytes lower_byte b))
  (fun s => if is_ascii s then Some s else None)
  String.le.

(** The id and the time stamp of the next row. *)
Definition sim_uuid (seed : N) : string :=
  "00000000-0000-4000-8000-" +:+ hex_encode (be_bytes 6 seed).

Definition has_email (email : string) (u : user_row) : bool :=
  citext_eqb sim_rules (u_email u) email.

Definition user_list (tb : tables) : list user_row := snd <$> map_to_list (users tb).
Definition room_list (tb : tables) : list room_row := snd <$> map_to_list (rooms tb).

Definition within (lo hi : nat) (s : string) : bool :=
  (lo <=? RuneCountInString s) && (RuneCountInString s <=? hi).

#[export] Instance contact_le_dec a b : Decision (contact_le sim_rules a b).
Proof. unfold contact_le. simpl. apply _. Defined.

#[export] Instance newer_dec a b : Decision (newer a b).
Proof. unfold newer. apply _. Defined.

Definition set_users us tb := mkTables us (credentials tb) (rooms tb) (auth_events tb).
Definition set_credentials cs tb := mkTables (users tb) cs (rooms tb) (auth_events tb).
Definition set_rooms rs tb := mkTables (users tb) (credentials tb) rs (auth_events tb).
Definition add_event e tb := mkTables (users tb) (credentials tb) (rooms tb) (auth_events tb ++ [e]).

(** [id] is an ASCII text. *)
Definition run_statement {X} (id : string) (now : Z) (q : statement X) (tb : tables)
    : (db_error + X) * tables :=
  match q in statement X return (db_error + X) * tables with
  | InsertUser email name =>
      if existsb (has_email email) (user_list tb) then (inl UniqueViolation, tb)
      else if within 3 254 email && within 1 100 name && negb (bool_decide (is_Some (users tb !! id)))
      then let u := mkUserRow id email name false now false in
        (inr u, set_users (<[id := u]> (users tb)) tb)
      else (inl OtherError, tb)
  | InsertCredential i hash =>
      if bool_decide (is_Some (credentials tb !! i)) then (inl UniqueViolation, tb)
      else if bool_decide (is_Some (users tb !! i))
      then (inr tt, set_credentials (<[i := hash]> (credentials tb)) tb)
      else (inl OtherError, tb)
  | SelectUserByEmail email =>
      (match List.find (fun p => has_email email p.2 && bool_decide (u_id p.2 = p.1))
               (map_to_list (users tb)) with
       | Some (_, u) => inr (Some (u, credentials tb !! u_id u))
       | None => if existsb (has_email email) (user_list tb) then inl OtherError else inr None
       end, tb)
  | SelectUserById i => (if is_ascii i then inr (users tb !! i) else inl OtherError, tb)
  | SelectContacts except limit =>
      (inr (take (Z.to_nat limit) (merge_sort (contact_le sim_rules) (contact_rows except tb))), tb)
  | SelectCredential i => (if is_ascii i then inr (credentials tb !! i) else inl OtherError, tb)
  | UpdateCredential i hash =>
      if is_ascii i
      then (inr (if credentials tb !! i then 1 else 0)%Z,
        set_credentials (alter (fun _ => hash) i (credentials tb)) tb)
      else (inl OtherError, tb)
  | InsertEvent e => (inr tt, add_event e tb)
  | InsertRoom slug name by_ =>
      if existsb (fun r => bool_decide (r_slug r = slug)) (room_list tb) then (inl UniqueViolation, tb)
      else if slugPattern slug && within 1 100 name && bool_decide (is_Some (users tb !! by_)) && is_ascii by_
              && negb (bool_decide (is_Some (rooms tb !! id)))
      then let r := mkRoomRow id slug name by_ now in
        (inr r, set_rooms (<[id := r]> (rooms tb)) tb)
      else (inl OtherError, tb)
  | SelectRoomBySlug slug =>
      (match List.find (fun p => bool_decide (r_slug p.2 = slug) && bool_decide (r_id p.2 = p.1))
               (map_to_list (rooms tb)) with
       | Some (_, r) => inr (Some r)
       | None => if existsb (fun r => bool_decide (r_slug r = slug)) (room_list tb)
                 then inl OtherError else inr None
       end, tb)
  | DeleteRoom slug =>
      (inr (Z.of_nat (size (filter (fun p : string * room_row => r_slug p.2 = slug) (rooms tb)))),
       set_rooms (filter (fun p : string * room_row => r_slug p.2 <> slug) (rooms tb)) tb)
  | SelectRooms limit =>
      (inr (take (Z.to_nat limit) (merge_sort newer (room_rows tb))), tb)
  end.

Fixpoint run_tx {A} (id : string) (now : Z) (t : tx A) (tb0 tb : tables) : (error + A) * tables :=
  match t with
  | Commit a => (inr a, tb)
  | Rollback e => (inl e, tb0)
  | Exec q k => let '(ans, tb1) := run_statement id now q tb in
      match ans with
      | inl _ => run_tx id now (k ans) tb0 tb
      | inr _ => run_tx id now (k ans) tb0 tb1
      end
  end.

(** ** The machine *)

Definition sim_respond (X : Type) (e : eff X) (w : sim) : X * sim :=
  let uuid := sim_uuid (sim_seed w) in
  match e in eff X return X * sim with
  | Now => (sim_clock w, w)
  | Random n =>
      (Some (be_bytes n (sim_seed w)),
       mkSim (sim_store w) (sim_db w) (sim_clock w) (sim_seed w + 1) (sim_faults w) (sim_pushed w) (sim_slots w))
  | Redis r =>
      match sim_faults w with
      | true :: fs => (None, with_faults fs w)
      | fs =>
          let '(rs, m) := run_request (sim_ms w) r (sim_store w) in
          (Some rs, mkSim m (sim_db w) (sim_clock w) (sim_seed w) (tail fs) (sim_pushed w) (sim_slots w))
      end
  | Query q =>
      let '(r, tb) := run_statement uuid (sim_clock w) q (sim_db w) in
      (r, mkSim (sim_store w) tb (sim_clock w) (sim_seed w + 1) (sim_faults w) (sim_pushed w) (sim_slots w))
  | Transaction t =>
      let '(r, tb) := run_tx uuid (sim_clock w) t (sim_db w) (sim_db w) in
      (r, mkSim (sim_store w) tb (sim_clock w) (sim_seed w + 1) (sim_faults w) (sim_pushed w) (sim_slots w))
  | AcquireSlot =>
      match sim_slots w with 0 => (false, w) | S n => (true, with_slots n w) end
  | ReleaseSlot => (tt, with_slots (S (sim_slots w)) w)
  | IDKey password salt p => (sim_kdf password salt p, w)
  | Deliver user data =>
      (1, mkSim (sim_store w) (sim_db w) (sim_clock w) (sim_seed w) (sim_faults w)
            (sim_pushed w ++ [(user, data)]) (sim_slots w))
  end.

#[export] Instance sim_machine : Machine := {| mstate := sim; respond := sim_respond |}.

#[export] Instance sim_redis_view : RedisView (H := sim_machine) :=
  {| ttls := sim_ttls; server_ms := sim_ms; keyspace := sim_store |}.

#[export] Instance sim_postgres_view : PostgresView (H := sim_machine) :=
  {| db := sim_rules; database := sim_db |}.

#[export] Instance sim_hasher_view : HasherView (H := sim_machine) :=
  {| kdf := sim_kdf; free_slots := sim_slots |}.

(** The machine's states, under the name programs know them by. *)
Definition machine : Type := @mstate sim_machine.

Definition start (now : Z) : machine := mkSim ∅ empty_tables now 1 [] [] 2.

Definition later (d : Z) (w : machine) : machine :=
  mkSim (sim_store w) (sim_db w) (sim_clock w + d) (sim_seed w) (sim_faults w) (sim_pushed w) (sim_slots w).

(** The next requests to Redis fail or not as listed. *)
Definition faulty (fs : list bool) (w : machine) : machine := with_faults fs w.

(** Run a program, keeping its result or only the state it leaves. *)
Definition result {A} (p : prog A) (w : machine) : option A :=
  match interp p w with Ok (a, _) => Some a | _ => None end.

Definition after {A} (p : prog A) (w : machine) : machine :=
  match interp p w with Ok (_, w') => w' | _ => w end.

Lemma interp_result {A} (p : prog A) (w : machine) a :
  result p w = Some a -> interp p w = Ok (a, after p w).
Proof.
  unfold result, after. destruct (interp p w) as [[b w']| |]; [|done..]. by intros [= ->].
Qed.

(** ** The interfaces are met *)

Lemma exec_reply_ok t c m : reply_ok sim_ttls t c m (exec_command sim_ttls t c m).1.
Proof. unfold reply_ok. destruct (exec_command sim_ttls t c m).1; eauto. Qed.

Lemma run_pipeline_ok t cs m :
  pipeline_spec sim_ttls t cs m (run_pipeline t cs m).1 (run_pipeline t cs m).2.
Proof.
  revert m. induction cs as [|c cs IH]; intros m; simpl; [done|].
  pose proof (exec_reply_ok t c m) as Hr. specialize (IH (effect sim_ttls t c m)).
  unfold effect in IH. destruct (exec_command sim_ttls t c m) as [r m1] eqn:E. simpl in *.
  destruct (run_pipeline t cs m1) as [rs m2]. simpl in *. unfold effect. by rewrite E.
Qed.

Lemma run_script_ok t s m : script_spec sim_ttls t s m (run_script t s m).1 (run_script t s m).2.
Proof.
  revert m. induction s as [l|c k IH]; intros m; simpl; [done|].
  pose proof (exec_reply_ok t c m) as Hr. unfold effect.
  destruct (exec_command sim_ttls t c m) as [r m1] eqn:E. simpl in *. exists r. split; [done|].
  destruct r; try apply IH. done.
Qed.

#[export] Instance sim_redis_laws : RedisLaws sim_redis_view.
Proof.
  split; simpl.
  - intros ttl Ht. by rewrite (proj2 (Z.ltb_lt 0 ttl)).
  - done.
  - intros s Hs. rewrite Z.div_mul by lia. done.
  - intros X e w. destruct e; simpl; unfold sim_ms; simpl; try lia.
    + destruct (sim_faults w) as [|[] fs]; simpl; try lia;
        destruct (run_request _ r (sim_store w)); simpl; lia.
    + destruct (run_statement _ _ q (sim_db w)); simpl; lia.
    + destruct (run_tx _ _ t (sim_db w) (sim_db w)); simpl; lia.
    + destruct (sim_slots w); simpl; lia.
  - intros r w o w' Hr. exists (sim_store w). split; [apply rtc_refl|].
    assert (forall m, request_spec sim_ttls (sim_ms w) r m (run_request (sim_ms w) r m).1
      (run_request (sim_ms w) r m).2) as Hok.
    { intros m. destruct r; [apply run_pipeline_ok|apply run_script_ok]. }
    specialize (Hok (sim_store w)).
    destruct (sim_faults w) as [|[] fs]; [|by injection Hr as <- <-|];
      destruct (run_request (sim_ms w) r (sim_store w)) as [rs m]; injection Hr as <- <-; exact Hok.
  - intros X e w He. destruct e; simpl; try done.
    + by destruct (run_statement _ _ q (sim_db w)).
    + by destruct (run_tx _ _ t (sim_db w) (sim_db w)).
    + by destruct (sim_slots w).
Qed.

#[export] Instance sim_clock_laws : ClockLaws sim_redis_view.
Proof. split. simpl. intros w n w' [= <- <-]. unfold sim_ms. lia. Qed.

Lemma existsb_exists {A} (p : A -> bool) (l : list A) :
  existsb p l = true <-> exists x, x ∈ l /\ p x = true.
Proof.
  rewrite List.existsb_exists. split; intros (x & Hx & Hp); exists x; by rewrite list_elem_of_In in *.
Qed.

Lemma values_spec {A} (m : gmap string A) x : x ∈ (snd <$> map_to_list m) <-> exists i, m !! i = Some x.
Proof.
  rewrite list_elem_of_fmap. split.
  - intros ([i y] & -> & Hi). apply elem_of_map_to_list in Hi. eauto.
  - intros [i Hi]. exists (i, x). split; [done|]. by apply elem_of_map_to_list.
Qed.

Lemma sim_email_taken email tb :
  existsb (has_email email) (user_list tb) = true <-> email_taken sim_rules email tb.
Proof.
  rewrite existsb_exists. unfold user_list, email_taken. split.
  - intros (u & [i Hi]%values_spec & Hu). eauto.
  - intros (i & u & Hi & Hu). exists u. split; [|done]. apply values_spec. eauto.
Qed.

Lemma sim_slug_taken slug tb :
  existsb (fun r => bool_decide (r_slug r = slug)) (room_list tb) = true <-> slug_taken slug tb.
Proof.
  rewrite existsb_exists. unfold room_list, slug_taken. split.
  - intros (r & [i Hi]%values_spec & Hr%bool_decide_eq_true). eauto.
  - intros (i & r & Hi & Hr). exists r. split; [apply values_spec; eauto|by apply bool_decide_eq_true].
Qed.

Lemma within_spec lo hi s : within lo hi s = true <-> length_between lo hi s.
Proof. unfold within, length_between. rewrite andb_true_iff, !Nat.leb_le. done. Qed.

#[export] Instance contact_le_trans : Transitive (contact_le sim_rules).
Proof.
  intros [a1 a2] [b1 b2] [c1 c2] [H1 H2] [H3 H4]. unfold contact_le in *. simpl in *.
  split; [by transitivity b2|]. intros Hca. transitivity b1; [apply H2|apply H4].
  - by transitivity c2.
  - by transitivity a2.
Qed.

#[export] Instance contact_le_total : Total (contact_le sim_rules).
Proof.
  intros [a1 a2] [b1 b2]. unfold contact_le. simpl.
  destruct (total String.le a2 b2) as [H|H], (total String.le a1 b1) as [H'|H'],
    (decide (String.le b2 a2)), (decide (String.le a2 b2)); tauto.
Qed.

#[export] Instance newer_trans : Transitive newer.
Proof. intros a b c. unfold newer. lia. Qed.

#[export] Instance newer_total : Total newer.
Proof. intros a b. unfold newer. lia. Qed.

Lemma find_Some_elem {A} (p : A -> bool) l x : List.find p l = Some x -> x ∈ l /\ p x = true.
Proof. intros H. apply List.find_some in H as [Hx Hp]. by rewrite <- list_elem_of_In in Hx. Qed.

Lemma false_not (b : bool) (P : Prop) : (b = true <-> P) -> b = false -> ~ P.
Proof. intros [_ H] Hb HP. rewrite H in Hb by done. done. Qed.

Lemma be_bytes_ok n x : length (be_bytes n x) = n /\ Forall is_byte (be_bytes n x).
Proof.
  revert x. induction n as [|n IH]; intros x; simpl; [done|]. destruct (IH (N.shiftr x 8)) as [H1 H2].
  rewrite length_app, H1. split; [simpl; lia|]. apply Forall_app. split; [done|].
  constructor; [|done]. unfold is_byte. change 255%N with (N.ones 8). rewrite N.land_ones.
  by apply N.mod_lt.
Qed.

Lemma sim_uuid_ascii seed : is_ascii (sim_uuid seed) = true.
Proof.
  unfold sim_uuid, is_ascii. rewrite forall_bytes_app. apply andb_true_iff. split; [done|].
  by apply hex_ascii, hex_encode_hex, be_bytes_ok.
Qed.

Lemma run_statement_ok X (id : string) now (q : statement X) tb :
  is_ascii id = true ->
  let '(r, tb') := run_statement id now q tb in
  match r with
  | inr x => stmt_ok sim_rules q tb x tb'
  | inl UniqueViolation => conflict sim_rules q tb /\ tb' = tb
  | inl OtherError => tb' = tb
  end.
Proof.
  intros Hascii. destruct q; simpl; try done.
  - destruct (existsb _ _) eqn:E; [by apply sim_email_taken in E|].
    destruct (within 3 254 email && within 1 100 display_name &&
      negb (bool_decide (is_Some (users tb !! id)))) eqn:E2; [|done].
    apply andb_true_iff in E2 as [[H1%within_spec H2%within_spec]%andb_true_iff H3].
    apply negb_true_iff, bool_decide_eq_false, eq_None_not_Some in H3.
    split; [by apply (false_not _ _ (sim_email_taken _ _))|]. cbn [u_id]. by rewrite Hascii.
  - repeat case_bool_decide; [done| |done]. split; [done|]. split; [|done]. by apply eq_None_not_Some.
  - destruct (List.find _ _) as [[i u]|] eqn:E.
    + apply find_Some_elem in E as [Hi [Hu Hkey%bool_decide_eq_true]%andb_true_iff].
      apply elem_of_map_to_list in Hi. simpl in *. subst i. done.
    + destruct (existsb _ _) eqn:E2; [done|]. split; [done|].
      by apply (false_not _ _ (sim_email_taken _ _)).
  - destruct (is_ascii id0) eqn:E; [|done]. eauto.
  - split; [done|]. eexists. split; [apply (merge_sort_Permutation (contact_le sim_rules))|].
    split; [|done]. apply (StronglySorted_merge_sort (contact_le sim_rules)).
  - destruct (is_ascii user_id) eqn:E; [|done]. eauto.
  - destruct (is_ascii user_id) eqn:E; [|done]. eauto.
  - destruct (existsb _ _) eqn:E; [by apply sim_slug_taken in E|].
    destruct (_ && _) eqn:E2; [|done].
    apply andb_true_iff in E2
      as [[[[H1 H2%within_spec]%andb_true_iff H3%bool_decide_eq_true]%andb_true_iff H5]%andb_true_iff H4].
    apply negb_true_iff, bool_decide_eq_false, eq_None_not_Some in H4.
    rewrite H5. by pose proof (false_not _ _ (sim_slug_taken _ _) E).
  - destruct (List.find _ _) as [[i r]|] eqn:E.
    + apply find_Some_elem in E as [Hi [Hu%bool_decide_eq_true Hid%bool_decide_eq_true]%andb_true_iff].
      apply elem_of_map_to_list in Hi. simpl in *. subst i. done.
    + destruct (existsb _ _) eqn:E2; [done|]. split; [done|].
      by apply (false_not _ _ (sim_slug_taken _ _)).
  - split; [done|]. eexists. split; [apply (merge_sort_Permutation newer)|].
    split; [|done]. apply (StronglySorted_merge_sort newer).
Qed.

Lemma run_tx_ok A id now (t : tx A) tb0 tb :
  is_ascii id = true ->
  tx_spec sim_rules t tb0 tb (run_tx id now t tb0 tb).1 (run_tx id now t tb0 tb).2.
Proof.
  intros Hid. revert tb. induction t as [a|e|X q k IH]; intros tb; simpl; [by left|done|].
  pose proof (run_statement_ok X id now q tb Hid) as Hq.
  destruct (run_statement id now q tb) as [ans tb1].
  destruct ans as [e|x]; [exists (inl e), tb|exists (inr x), tb1].
  - split; [|apply IH]. by destruct e as [|]; [destruct Hq|].
  - split; [done|apply IH].
Qed.

#[export] Instance sim_db_laws : DbLaws sim_rules.
Proof.
  split; simpl.
  - intros a. by apply bool_decide_eq_true.
  - intros a b. by apply bool_decide_ext.
  - intros a b c. rewrite !bool_decide_eq_true. congruence.
  - intros a b. destruct (is_ascii a) eqn:E; [|done]. by intros [= <-].
  - intros a b. destruct (is_ascii a) eqn:E; [|done]. intros [= <-]. by rewrite E.
Qed.

#[export] Instance sim_postgres_laws : PostgresLaws sim_postgres_view.
Proof.
  split; simpl.
  - intros X q w r w' Hr. pose proof (run_statement_ok X (sim_uuid (sim_seed w)) (sim_clock w) q (sim_db w) (sim_uuid_ascii _)) as Hq.
    destruct (run_statement _ _ q (sim_db w)) as [r1 tb1]. injection Hr as <- <-. simpl.
    destruct r1 as [[|]|x]; [done|by left|done].
  - intros X t w r w' Hr. pose proof (run_tx_ok X (sim_uuid (sim_seed w)) (sim_clock w) t (sim_db w) (sim_db w) (sim_uuid_ascii _)) as Hq.
    destruct (run_tx _ _ t (sim_db w) (sim_db w)) as [r1 tb1]. injection Hr as <- <-. left. done.
  - intros X e w He. destruct e; simpl; try done.
    + destruct (sim_faults w) as [|[] fs]; simpl; try done; by destruct (run_request _ r (sim_store w)).
    + by destruct (sim_slots w).
Qed.

Lemma sha256_bytes m : Forall is_byte (sha256 m).
Proof.
  unfold sha256. apply Forall_bind, Forall_true. intros x. apply be_bytes_ok.
Qed.

Lemma sim_kdf_ok password salt p :
  length (sim_kdf password salt p) = N.to_nat (keyLength p) /\ Forall is_byte (sim_kdf password salt p).
Proof.
  unfold sim_kdf. rewrite length_resize. split; [done|]. apply Forall_resize; [done|apply sha256_bytes].
Qed.

#[export] Instance sim_hasher_laws : HasherLaws sim_hasher_view.
Proof.
  split; simpl.
  - by intros password salt p w key w' [= <- _].
  - apply sim_kdf_ok.
  - intros n w l w' [= <- _]. apply be_bytes_ok.
  - intros w b w'. by destruct (sim_slots w) as [|n] eqn:E; intros [= <- <-].
  - by intros w w' [= <-].
  - intros X e w He. destruct e; simpl; try done.
    + destruct (sim_faults w) as [|[] fs]; simpl; try done; by destruct (run_request _ r (sim_store w)).
    + by destruct (run_statement _ _ q (sim_db w)).
    + by destruct (run_tx _ _ t (sim_db w) (sim_db w)).
Qed.

(** ** A machine whose requests to Redis never fail *)

Definition steady_machine : Machine :=
  {| mstate := sim; respond := fun X e w => sim_respond X e (with_faults [] w) |}.

Definition steady_view : RedisView (H := steady_machine) :=
  Build_RedisView steady_machine sim_ttls sim_ms sim_store.

Lemma steady_laws : RedisLaws steady_view.
Proof.
  destruct sim_redis_laws as [H1 H2 H3 H4 H5 H6]. split; try assumption.
  - intros X e w. exact (H4 X e (with_faults [] w)).
  - intros r w o w'. exact (H5 r (with_faults [] w) o w').
  - intros X e w. exact (H6 X e (with_faults [] w)).
Qed.

Lemma steady_clock_laws : ClockLaws steady_view.
Proof. split. intros w n w'. exact (@clock_answer _ _ sim_clock_laws (with_faults [] w) n w'). Qed.

Lemma steady_answers r (w : @mstate steady_machine) :
  fst (@respond steady_machine _ (Redis r) w) <> None.
Proof. simpl. by destruct (run_request _ r (sim_store w)). Qed.
