(* ===== verification/RateLimitTheorems.v ===== *)
(** * The properties of the rate limiter *)

From S2P Require Import Prelude GoStrings Effects RedisSpec PostgresSpec Sim RateLimit.

(** ** Any number of callers at once *)

(** A call that was let through. *)
Definition granted (p : prog (error + bool * Z)) : bool :=
  match p with Ret (inr (true, _)) => true | _ => false end.

Abbreviation grants := (count_if granted).

Section window.
Context `{RL : RedisLaws}.
Variables (key : string) (limit : Limit) (lo base : Z).

Let k := limit_key key.
Let w_ms := (Window limit / Millisecond)%Z.
Let R := Requests limit.
Let hi := (lo + w_ms)%Z.

(** The calls that can have been let through, by the state of the counter: [base]
    of them while a counter older than the window was in place. *)
Definition window_potential (g : Z) (m : kv) : Prop :=
  counter_ok m k /\
  match counter m k with
  | None => g <= base
  | Some (n, d) =>
      if (d <? hi)%Z then g <= base /\ (lo <= d -> base = R /\ g <= Z.min n R)
      else g <= base + Z.min n R
  end%Z.

Hypothesis window_pos : (0 < w_ms)%Z.
Hypothesis requests_pos : (0 <= R)%Z.

(** An execution of the script, let through or not. *)
Lemma hit_potential t m rs m' g :
  (lo <= t <= hi)%Z ->
  window_potential g m ->
  request_spec ttls t (Script (incrementAndExpire k w_ms)) m rs m' ->
  window_potential g m' /\
  (first_error rs = None -> exists n p, rs = [RInt n; RInt p] /\ (1 <= n)%Z /\
    ((n <= R)%Z -> window_potential (g + 1) m')).
Proof.
  intros Ht [Hok Hpot] Hs. simpl in Hs.
  apply hit_spec in Hs as [Hok' Hs]; [|done|by apply counter_ok_live].
  rewrite counter_live in Hs by done. unfold window_potential.
  assert ((exists n d, counter m k = Some (n, d) /\ (t <= d)%Z) \/
    (match counter m k with Some (n, d) => d < t | None => True end)%Z) as [(n & d & E & Hd)|Hgone].
  { destruct (counter m k) as [[n d]|]; [|by right]. destruct (decide (t <= d)%Z); [left|right; lia]. eauto. }
  - rewrite E in Hs, Hpot. rewrite (proj2 (Z.leb_le t d) Hd) in Hs.
    apply counter_some in E as [E Hn]; [|done].
    destruct Hs as [[-> Hc]|[He ->]].
    + rewrite Hc. destruct (d <? hi)%Z.
      * split; [split; [done|]; lia|]. intros _. do 2 eexists. split; [done|]. split; [lia|].
        intros. split; [done|lia].
      * split; [split; [done|]; lia|]. intros _. do 2 eexists. split; [done|]. split; [lia|].
        intros. split; [done|lia].
    + split; [|done]. split; [done|]. rewrite counter_live by done.
      unfold counter. rewrite E, parse_int_itoa by lia. simpl. by rewrite (proj2 (Z.leb_le t d) Hd).
  - assert (match counter m k with Some (n, d) => if (t <=? d)%Z then Some (n, d) else None | None => None end
            = None) as Hn.
    { destruct (counter m k) as [[n d]|]; [|done]. by rewrite (proj2 (Z.leb_gt t d) Hgone). }
    rewrite Hn in Hs. destruct Hs as [-> Hc]. rewrite Hc.
    assert (g <= base)%Z as Hg.
    { destruct (counter m k) as [[n d]|]; [|done]. rewrite (proj2 (Z.ltb_lt d hi)) in Hpot by lia. lia. }
    rewrite (proj2 (Z.ltb_ge (t + w_ms) hi)) by lia.
    split; [split; [done|lia]|]. intros _. do 2 eexists. split; [done|]. split; [lia|].
    intros. split; [done|lia].
Qed.

Lemma attempts_potential t1 t2 m m' g :
  (lo <= t1)%Z -> (t2 <= hi)%Z ->
  attempts ttls t1 t2 (Script (incrementAndExpire k w_ms)) m m' ->
  window_potential g m -> window_potential g m'.
Proof.
  intros H1 H2. induction 1 as [|m1 m2 m3 (t & rs & Ht & Hs) _ IH]; [done|].
  intros Hm. apply IH. eapply hit_potential; [|exact Hm|exact Hs]. lia.
Qed.

(** The state of the callers and of the counter while the window lasts. *)
Record window_inv (s : list (prog (error + bool * Z)) * mstate) : Prop := {
  wi_time : (lo <= server_ms s.2)%Z;
  wi_threads : Forall (fun p => p = Allow key limit \/ exists r, p = Ret r) s.1;
  wi_potential : window_potential (grants s.1) (keyspace s.2)
}.

(** One caller gets its answer. *)
Lemma window_inv_update ps i p r w w' :
  window_inv (ps, w) -> ps !! i = Some p -> granted p = false ->
  (server_ms w <= server_ms w')%Z ->
  window_potential (grants ps + (if granted (Ret r) then 1 else 0)) (keyspace w') ->
  window_inv (<[i := Ret r]> ps, w').
Proof.
  intros [Ht Hthr _] Hi Hp Hclk Hpot. simpl in *. split; simpl.
  - lia.
  - apply Forall_insert; [done|]. right. eauto.
  - rewrite (count_if_insert _ _ _ _ _ Hi), Hp. by rewrite Z.sub_0_r.
Qed.

Lemma window_step s s' :
  window_inv s -> pool_step s s' -> (server_ms s'.2 <= hi)%Z -> window_inv s'.
Proof.
  intros Hinv Hstep. destruct Hstep as [ps i p p' w w' Hi Hr]. simpl. intros Hhi.
  destruct (Forall_lookup_1 _ _ _ _ (wi_threads _ Hinv) Hi) as [Hp|[r Hp]]; [|by subst].
  assert (granted p = false) as Hng by by subst.
  pose proof (wi_time _ Hinv) as Ht. pose proof (wi_potential _ Hinv) as Hpot. simpl in Ht, Hpot.
  subst p. unfold Allow, wrapped, redis, bindE, call in Hr. simpl in Hr. fold k w_ms in Hr.
  pose proof (redis_clock _ (Redis (Script (incrementAndExpire k w_ms))) w) as Hclk.
  destruct (respond _ _ w) as [o w1] eqn:Ho. simpl in Hclk. injection Hr as <- <-.
  destruct (redis_answer _ _ _ _ Ho) as (m & Hatt & Hm).
  apply attempts_potential with (g := grants ps) in Hatt; [|done..].
  destruct o as [rs|]; simpl.
  - destruct (hit_potential _ _ _ _ _ (conj (Z.le_trans _ _ _ Ht Hclk) Hhi) Hatt Hm) as [H1 H2].
    destruct (first_error rs) as [e|] eqn:He; simpl.
    + eapply window_inv_update; [done..|]. by rewrite Z.add_0_r.
    + destruct (H2 eq_refl) as (n & p & -> & Hn & H3). simpl. fold R.
      destruct (R <? n)%Z eqn:HR.
      * eapply window_inv_update; [done..|]. by rewrite Z.add_0_r.
      * eapply window_inv_update; [done..|]. apply H3. apply Z.ltb_ge in HR. lia.
  - eapply window_inv_update; [done..|]. simpl in Hm. by rewrite Z.add_0_r, Hm.
Qed.

Lemma window_steps s s' :
  window_inv s -> pool_steps s s' -> (server_ms s'.2 <= hi)%Z -> window_inv s'.
Proof.
  intros Hs. induction 1 as [|s1 s2 s3 Hstep Hrest IH]; [done|]. intros Hhi.
  assert (forall a b, pool_step (A := error + bool * Z) a b -> (server_ms a.2 <= server_ms b.2)%Z) as Hmono.
  { intros a b [ps i p p' w w' _ Hr]. destruct p as [|X e kont]; [done|]. simpl in *.
    pose proof (redis_clock _ e w) as Hc. destruct (respond _ e w). injection Hr as _ <-. done. }
  apply IH; [|done]. eapply window_step; [done..|].
  transitivity (server_ms s3.2); [|done].
  clear -Hrest Hmono. induction Hrest as [|a b c Hab _ IH]; [done|]. specialize (Hmono _ _ Hab). lia.
Qed.
End window.

Section theorems.
Context `{RL : RedisLaws}.

(** C20: however many callers use one counter at once, and however their calls,
    the resends of the client and failures interleave, no more than the quota of
    them are let through within a window that starts without a counter, and no
    more than twice the quota within any span as long as the window. *)
Theorem limiter_window_bound key limit n w ps w' :
  (0 < Window limit / Millisecond)%Z ->
  (0 <= Requests limit)%Z ->
  counter_ok (keyspace w) (limit_key key) ->
  pool_steps (replicate n (Allow key limit), w) (ps, w') ->
  (server_ms w' <= server_ms w + Window limit / Millisecond)%Z ->
  (grants ps <= Requests limit *
     (if counter (live (server_ms w) (keyspace w)) (limit_key key) then 2 else 1))%Z.
Proof.
  intros Hw HR Hok Hsteps Hhi.
  set (base := if counter (live (server_ms w) (keyspace w)) (limit_key key) then Requests limit else 0%Z).
  assert (window_inv key limit (server_ms w) base (ps, w')) as [_ _ Hpot].
  { eapply window_steps; [done..| |exact Hsteps|done]. split; simpl.
    - lia.
    - apply Forall_replicate. by left.
    - assert (grants (replicate n (Allow key limit)) = 0%Z) as ->.
      { apply count_if_none. by apply Forall_replicate. }
      split; [done|]. subst base. rewrite counter_live by done.
      destruct (counter (keyspace w) (limit_key key)) as [[c d]|] eqn:E; [|lia].
      apply counter_some in E as [_ Hn]; [|done].
      destruct (server_ms w <=? d)%Z eqn:Hd; destruct (d <? _)%Z; lia. }
  simpl in Hpot. destruct Hpot as [_ Hpot]. subst base.
  destruct (counter (live _ _) _), (counter (keyspace w') _) as [[c d]|]; simpl in *;
    try destruct (d <? _)%Z; lia.
Qed.

(** A call is refused exactly when its hit exceeds the quota; the wait it is
    told is the time the counter still has, at most the window, and once that
    has passed the counter is gone. *)
Theorem limiter_decision key limit w r w' :
  (Millisecond <= Window limit < 2 ^ 63)%Z ->
  counter_ok (keyspace w) (limit_key key) ->
  (forall n d, counter (keyspace w) (limit_key key) = Some (n, d) ->
     (d <= server_ms w + Window limit / Millisecond)%Z) ->
  interp (Allow key limit) w = Ok (inr r, w') ->
  exists n d, counter (keyspace w') (limit_key key) = Some (n, d) /\
    r = (if (n <=? Requests limit)%Z then (true, 0%Z)
         else (false, ((d - server_ms w') * Millisecond)%Z)) /\
    (0 <= d - server_ms w' <= Window limit / Millisecond)%Z /\
    (forall t, (server_ms w' * Millisecond + (d - server_ms w') * Millisecond < t * Millisecond)%Z ->
       counter (live t (keyspace w')) (limit_key key) = None).
Proof.
  intros HW Hok Hd Hrun. set (k := limit_key key) in *. set (ms := (Window limit / Millisecond)%Z) in *.
  assert (0 < ms)%Z as Hms by (apply Z.div_str_pos; unfold Millisecond in *; lia).
  assert (Millisecond * ms <= Window limit)%Z as HW' by (apply Z.mul_div_le; done).
  enough (wp (interp (Allow key limit)) (fun r w' => forall a, r = inr a -> exists n d,
    counter (keyspace w') k = Some (n, d) /\
    a = (if (n <=? Requests limit)%Z then (true, 0%Z) else (false, ((d - server_ms w') * Millisecond)%Z)) /\
    (0 <= d - server_ms w' <= ms)%Z /\
    (forall t, (server_ms w' * Millisecond + (d - server_ms w') * Millisecond < t * Millisecond)%Z ->
       counter (live t (keyspace w')) k = None)) w) as H1.
  { unfold wp in H1. rewrite Hrun in H1. by apply H1. }
  set (I := fun hi m => counter_ok m k /\ forall n d, counter m k = Some (n, d) -> (d <= hi + ms)%Z).
  unfold Allow. rewrite wp_interp_bindE. apply wp_wrapped. fold ms k.
  apply (wp_redis _ I).
  - intros hi Hhi. split; [done|]. intros n d Hc. specialize (Hd n d Hc). lia.
  - intros hi t m rs m' Ht [HI1 HI2] Hs. apply hit_spec in Hs as [H1 H2]; [|done|by apply counter_ok_live].
    split; [done|]. rewrite counter_live in H2 by done. intros n' d' Hn'.
    destruct (counter m k) as [[n d]|] eqn:E.
    + specialize (HI2 _ _ eq_refl). destruct (t <=? d)%Z eqn:Htd.
      * destruct H2 as [[_ H2]|[_ ->]]; [rewrite H2 in Hn'; by injection Hn' as <- <-|].
        rewrite counter_live, E, Htd in Hn' by done. by injection Hn' as <- <-.
      * destruct H2 as [_ H2]. rewrite H2 in Hn'. injection Hn' as <- <-. lia.
    + destruct H2 as [_ H2]. rewrite H2 in Hn'. injection Hn' as <- <-. lia.
  - done.
  - intros m rs w1 Ht [HI1 HI2] Hs He. apply hit_spec in Hs as [H1 H2]; [|done|by apply counter_ok_live].
    assert (exists n d, rs = [RInt n; RInt (d - server_ms w1)] /\ counter (keyspace w1) k = Some (n, d) /\
      (server_ms w1 <= d <= server_ms w1 + ms)%Z) as (n & d & -> & Hc & Hd').
    { rewrite counter_live in H2 by done. destruct (counter m k) as [[n d]|] eqn:E.
      - specialize (HI2 _ _ eq_refl). destruct (server_ms w1 <=? d)%Z eqn:Htd.
        + destruct H2 as [[-> H2]|[H2 _]]; [|done]. do 2 eexists. split; [done|]. split; [done|].
          apply Z.leb_le in Htd. lia.
        + destruct H2 as [-> H2]. exists 1%Z, (server_ms w1 + ms)%Z. split; [do 3 f_equal; lia|].
          split; [done|lia].
      - destruct H2 as [-> H2]. exists 1%Z, (server_ms w1 + ms)%Z. split; [do 3 f_equal; lia|].
        split; [done|lia]. }
    cbn [as_int]. assert (wrap64 ((d - server_ms w1) * Millisecond) = (d - server_ms w1) * Millisecond)%Z as Hwr.
    { apply wrap64_small. unfold Millisecond in *. lia. }
    rewrite Hwr. rewrite (proj2 (Z.ltb_ge _ 0)) by (unfold Millisecond; lia).
    assert (forall t, (server_ms w1 * Millisecond + (d - server_ms w1) * Millisecond < t * Millisecond)%Z ->
      counter (live t (keyspace w1)) k = None) as Hgone.
    { intros t Ht'. rewrite counter_live, Hc by done. rewrite (proj2 (Z.leb_gt t d)); [done|].
      unfold Millisecond in Ht'. lia. }
    destruct (Requests limit <? n)%Z eqn:HR; simpl; intros a [= <-]; exists n, d;
      (split; [done|split; [|split; [lia|done]]]).
    + rewrite (proj2 (Z.leb_gt _ _)); [done|]. by apply Z.ltb_lt.
    + rewrite (proj2 (Z.leb_le _ _)); [done|]. by apply Z.ltb_ge.
Qed.
End theorems.

(** ** Examples *)

(** Three calls at once against a quota of two. *)
Definition demo_limit : Limit := mkLimit 2 Minute.

Definition demo_pool : list (prog (error + bool * Z)) * machine :=
  run_pool [2; 0; 1] (replicate 3 (Allow "k" demo_limit), start 0).

Lemma limiter_window_bound_witness :
  grants demo_pool.1 = 2%Z /\ (grants demo_pool.1 <= 2 * 1)%Z.
Proof.
  split; [vm_compute; reflexivity|].
  eapply Z.le_trans; [apply (limiter_window_bound "k" demo_limit 3 (start 0) demo_pool.1 demo_pool.2)|].
  - by vm_compute.
  - by vm_compute.
  - exact I.
  - rewrite <- surjective_pairing. exact (run_pool_steps [2; 0; 1] (replicate 3 (Allow "k" demo_limit), start 0)).
  - by vm_compute.
  - by vm_compute.
Defined.

(** The third call is refused and told to wait for the rest of the minute. *)
Definition demo_used : machine := later 20000000000 (after (Allow "k" demo_limit) (after (Allow "k" demo_limit) (start 0))).

Lemma limiter_decision_witness :
  result (Allow "k" demo_limit) demo_used = Some (inr (false, 40000000000%Z)) /\
  exists n d, counter (keyspace (after (Allow "k" demo_limit) demo_used)) (limit_key "k") = Some (n, d).
Proof.
  assert (result (Allow "k" demo_limit) demo_used = Some (inr (false, 40000000000%Z))) as Hr
    by (vm_compute; reflexivity).
  assert (keyspace demo_used !! limit_key "k" = Some (Entry (VStr "2") (Some 60000%Z))) as Hk
    by (vm_compute; reflexivity).
  split; [exact Hr|].
  destruct (limiter_decision "k" demo_limit demo_used (false, 40000000000%Z)
    (after (Allow "k" demo_limit) demo_used)) as (n & d & Hc & _).
  - unfold Millisecond, demo_limit, Minute. simpl. lia.
  - unfold counter_ok. rewrite Hk. exists 2%Z, 60000%Z. split; [vm_compute; reflexivity|lia].
  - intros n d. unfold counter. rewrite Hk. intros [= <- <-]. vm_compute. discriminate.
  - exact (interp_result _ _ _ Hr).
  - eauto.
Defined.
