(* ===== verification/Sessions.v ===== *)
(** * Sessions and websocket tickets

    [src/internal/auth/sessions.go]: opaque tokens whose SHA-256 names a record
    in Redis, an index of sessions per user, and single-use tickets. *)

From S2P Require Import Prelude GoStrings Crypto Effects RedisSpec.

(** ** Data *)

Definition sessionKeyPrefix : string := "sess:".
Definition userIndexPrefix : string := "user_sess:".
Definition wsTicketPrefix : string := "ws_ticket:".
Definition tokenBytes : nat := 32.
Definition touchGranularity : Z := 60000000000.
Definition maxSessionsPerUsr : nat := 20.

(** Times are nanoseconds of one clock, durations nanoseconds. *)
Record Session := mkSession {
  ID : string;
  UserID : string;
  CreatedAt : Z;
  ExpiresAt : Z;
  LastSeenAt : Z;
  IP : string;
  UserAgent : string
}.

Record SessionStore := mkSessionStore {
  idleTTL : Z;
  absoluteTTL : Z;
  ticketTTL : Z
}.

Definition NewSessionStore (idleTTL absoluteTTL ticketTTL : Z) : SessionStore :=
  mkSessionStore idleTTL absoluteTTL ticketTTL.

(** [json.Marshal] and [json.Unmarshal] of a [Session]. The id is not part of the
    text. *)
Class SessionJson := {
  marshal : Session -> option string;
  unmarshal : string -> option Session
}.

(** What is read back has the same user and the same times. *)
Definition same_session (s s' : Session) : Prop :=
  UserID s' = UserID s /\ CreatedAt s' = CreatedAt s /\
  ExpiresAt s' = ExpiresAt s /\ LastSeenAt s' = LastSeenAt s.

(** The text a database gives for a uuid is ASCII, so it survives the encoding
    unchanged; other text may not. *)
Class SessionJsonLaws `{SessionJson} : Prop := {
  marshal_unmarshal s p :
    is_ascii (UserID s) = true -> marshal s = Some p ->
    exists s', unmarshal p = Some s' /\ same_session s s'
}.

(** One entry of the list [live]: the session's id and when it was created. *)
Abbreviation live_entry := (string * Z)%type.

(** ** Helpers *)

(** [a.Sub(b)], which saturates. *)
Definition time_sub (a b : Z) : Z := Z.max (- 2 ^ 63) (Z.min (2 ^ 63 - 1) (a - b)).

Definition newToken : prog (error + string) :=
  buf <~ call (Random tokenBytes) ;;
  match buf with
  | None => fails (Wrap "generate token" (Foreign "rand"))
  | Some buf => succeeds (b64_raw_encode alphabet_url buf)
  end.

Definition hashToken (token : string) : string := hex_encode (sha256 (bytes token)).

Definition truncate (s : string) (n : nat) : string :=
  if String.length s <=? n then s else take_bytes n s.

Definition session_key (id : string) : string := sessionKeyPrefix +:+ id.
Definition index_key (user : string) : string := userIndexPrefix +:+ user.
Definition ticket_key (ticket : string) : string := wsTicketPrefix +:+ hashToken ticket.

Section store.
Context `{SessionJson}.
Variable store : SessionStore.

Definition ttlFor (sess : Session) (now : Z) : Z :=
  let remaining := time_sub (ExpiresAt sess) now in
  if (remaining <? idleTTL store)%Z then remaining else idleTTL store.

Definition revokeByID (userID id : string) : prog (error + unit) :=
  _ <~? wrapped "revoke session" (redis (Pipeline
    (Del [session_key id] ::
     (if bool_decide (userID <> "") then [SRem (index_key userID) [id]] else [])))) ;;
  succeeds tt.

(** ** The cap on sessions per user *)

(** Look every id up: live ones, and those without a readable session. [None]:
    a read failed and the pruning is given up. *)
Fixpoint scan (ids : list string) (live : list live_entry) (stale : list string)
    : prog (option (list live_entry * list string)) :=
  match ids with
  | [] => Ret (Some (live, stale))
  | id :: ids =>
      raw <~ redis_string (Get (session_key id)) ;;
      match raw with
      | inl _ => Ret None
      | inr None => scan ids live (stale ++ [id])
      | inr (Some raw) =>
          match unmarshal raw with
          | None => scan ids live (stale ++ [id])
          | Some sess => scan ids (live ++ [(id, CreatedAt sess)]) stale
          end
      end
  end.

(** [oldest := 0; for i, e := range live { if e.created.Before(live[oldest].created)
    { oldest = i } }] *)
Fixpoint oldest_from (i : nat) (l : list live_entry) (best : nat) (created : Z) : nat :=
  match l with
  | [] => best
  | (_, c) :: l =>
      if (c <? created)%Z then oldest_from (S i) l i c else oldest_from (S i) l best created
  end.

Definition oldest (l : list live_entry) : nat :=
  match l with [] => 0 | (_, c) :: _ => oldest_from 0 l 0 c end.

(** Delete the oldest sessions above the cap; the ids to drop from the index, or
    [None] when a deletion failed. Every round drops one, so as many rounds as
    there are entries are enough. *)
Fixpoint evict (fuel : nat) (live : list live_entry) (stale : list string)
    : prog (option (list string)) :=
  if length live <=? maxSessionsPerUsr then Ret (Some stale)
  else match fuel, live !! oldest live with
  | S fuel, Some (id, _) =>
      r <~ redis_run (Del [session_key id]) ;;
      match r with
      | inl _ => Ret None
      | inr _ => evict fuel (delete (oldest live) live) (stale ++ [id])
      end
  | _, _ => Ret None
  end.

Definition trimSessions (userID : string) : prog unit :=
  ids <~ redis_list (SMembers (index_key userID)) ;;
  match ids with
  | inl _ => Ret tt
  | inr ids =>
      if length ids <=? maxSessionsPerUsr then Ret tt
      else
        scanned <~ scan ids [] [] ;;
        match scanned with
        | None => Ret tt
        | Some (live, stale) =>
            dropped <~ evict (length live) live stale ;;
            match dropped with
            | None | Some [] => Ret tt
            | Some stale => redis_run (SRem (index_key userID) stale) ;~ Ret tt
            end
        end
  end.

(** ** Operations *)

Definition Create (userID ip userAgent : string) : prog (error + string * Session) :=
  token <~? newToken ;;
  now <~ call Now ;;
  let sess := mkSession (hashToken token) userID now (now + absoluteTTL store) now ip
    (truncate userAgent 512) in
  match marshal sess with
  | None => fails (Wrap "marshal session" (Foreign "json"))
  | Some payload =>
      _ <~? wrapped "store session" (redis (Pipeline [
        Set_ (session_key (ID sess)) payload (ttlFor sess now);
        SAdd (index_key userID) [ID sess];
        Expire (index_key userID) (absoluteTTL store)])) ;;
      trimSessions userID ;~
      succeeds (token, sess)
  end.

Definition set_id (id : string) (s : Session) : Session :=
  mkSession id (UserID s) (CreatedAt s) (ExpiresAt s) (LastSeenAt s) (IP s) (UserAgent s).

Definition Get_ (token : string) : prog (error + Session) :=
  let id := hashToken token in
  raw <~? wrapped "read session" (redis_string (Get (session_key id))) ;;
  match raw with
  | None => fails ErrSessionNotFound
  | Some raw =>
      match unmarshal raw with
      | None => fails (Wrap "decode session" (Foreign "json"))
      | Some sess =>
          let sess := set_id id sess in
          now <~ call Now ;;
          if (ExpiresAt sess <? now)%Z then
            _ <~? revokeByID (UserID sess) id ;;
            fails ErrSessionNotFound
          else succeeds sess
      end
  end.

Definition set_seen (now : Z) (s : Session) : Session :=
  mkSession (ID s) (UserID s) (CreatedAt s) (ExpiresAt s) now (IP s) (UserAgent s).

Definition Touch (sess : Session) : prog (error + unit) :=
  now <~ call Now ;;
  if (time_sub now (LastSeenAt sess) <? touchGranularity)%Z then succeeds tt
  else
    let sess := set_seen now sess in
    match marshal sess with
    | None => fails (Wrap "marshal session" (Foreign "json"))
    | Some payload =>
        wrapped "refresh session" (redis_run (Set_ (session_key (ID sess)) payload (ttlFor sess now)))
    end.

Definition Revoke (token : string) : prog (error + unit) :=
  let id := hashToken token in
  raw <~? wrapped "read session" (redis_string (Get (session_key id))) ;;
  match raw with
  | None => succeeds tt
  | Some raw =>
      match unmarshal raw with
      | None => redis_run (Del [session_key id])
      | Some sess => revokeByID (UserID sess) id
      end
  end.

(** The ids of the index, parted by the loop: the keys to delete and what stays. *)
Definition revoked_keys (keep : string) (ids : list string) : list string :=
  session_key <$> List.filter (fun id => negb (bool_decide (id = keep))) ids.

Definition remaining_ids (keep : string) (ids : list string) : list string :=
  List.filter (fun id => bool_decide (id = keep)) ids.

Definition RevokeAllForUser (userID exceptToken : string) : prog (error + nat) :=
  let index := index_key userID in
  ids <~? wrapped "list sessions" (redis_list (SMembers index)) ;;
  let keep := if bool_decide (exceptToken <> "") then hashToken exceptToken else "" in
  let keys := revoked_keys keep ids in
  let remaining := remaining_ids keep ids in
  _ <~? wrapped "revoke sessions" (redis (Pipeline (
    (if bool_decide (0 < length keys) then [Del keys] else []) ++ [Del [index]] ++
    (if bool_decide (0 < length remaining)
     then [SAdd index remaining; Expire index (absoluteTTL store)] else [])))) ;;
  succeeds (length keys).

Definition IssueWSTicket (userID : string) : prog (error + string * Z) :=
  ticket <~? newToken ;;
  _ <~? wrapped "store ticket" (redis_run (Set_ (ticket_key ticket) userID (ticketTTL store))) ;;
  succeeds (ticket, ticketTTL store).

Definition RedeemWSTicket (ticket : string) : prog (error + string) :=
  userID <~? wrapped "redeem ticket" (redis_string (GetDel (ticket_key ticket))) ;;
  match userID with
  | None => fails ErrTicketNotFound
  | Some userID => succeeds userID
  end.
End store.
