(* ===== verification/SessionFacts.v ===== *)
(** * The invariant of the session store

    Every readable session that has not passed its absolute expiry is listed in
    the index of its user, and the index outlives it. What a request does to the
    keyspace is followed command by command; [sessions_ok] survives each of
    them. *)

From S2P Require Import Prelude GoStrings Crypto Effects RedisSpec Sessions.

(** ** Keys *)

Lemma session_key_inj a b : session_key a = session_key b -> a = b.
Proof. unfold session_key. by intros ?%(inj _). Qed.

Lemma index_key_inj a b : index_key a = index_key b -> a = b.
Proof. unfold index_key. by intros ?%(inj _). Qed.

Lemma session_index_ne a b : session_key a <> index_key b.
Proof. done. Qed.

(** The keys of the session store. *)
Definition session_owned (k : string) : Prop :=
  (exists id, k = session_key id) \/ (exists u, k = index_key u).

Lemma ticket_not_owned t : ~ session_owned (ticket_key t).
Proof. by intros [[id H]|[u H]]. Qed.

Section facts.
Context `{SJ : SessionJson}.

(** The session stored under an id. *)
Definition session_at (m : kv) (id : string) : option Session :=
  match m !! session_key id with
  | Some (Entry (VStr p) _) => unmarshal p
  | _ => None
  end.

(** The index of the session's user lists it, until after the session's end. *)
Definition indexed (m : kv) (id : string) (s : Session) : Prop :=
  exists S d, m !! index_key (UserID s) = Some (Entry (VSet S) (Some d)) /\
    id ∈ S /\ (ExpiresAt s / 1000000 <= d)%Z.

Variable abs_ms : Z.

(** [lo] is a time not later than now, [hi] one not earlier. *)
Record sessions_ok (lo hi : Z) (m : kv) : Prop := {
  so_sessions : forall id s, session_at m id = Some s ->
    (ExpiresAt s / 1000000 <= lo + abs_ms)%Z /\
    ((hi <= ExpiresAt s / 1000000)%Z -> indexed m id s);
  so_ascii : forall id s, session_at m id = Some s -> is_ascii (UserID s) = true;
  so_indexes : forall u e, m !! index_key u = Some e -> exists S, val e = VSet S;
  so_strings : forall id e, m !! session_key id = Some e -> exists p, val e = VStr p
}.

Lemma sessions_ok_mono lo hi lo' hi' m :
  (lo <= lo')%Z -> (hi <= hi')%Z -> sessions_ok lo hi m -> sessions_ok lo' hi' m.
Proof.
  intros Hlo Hhi [Hm Ha Hi Hk]. split; [|done..]. intros id s Hs. destruct (Hm id s Hs) as [H1 H2].
  split; [lia|]. intros. apply H2. lia.
Qed.

Lemma session_at_live t m id s : session_at (live t m) id = Some s -> session_at m id = Some s.
Proof.
  unfold session_at. rewrite live_lookup. destruct (m !! _) as [e|]; [|done]. by destruct (alive t e).
Qed.

Lemma indexed_live t m id s :
  (t <= ExpiresAt s / 1000000)%Z -> indexed m id s -> indexed (live t m) id s.
Proof.
  intros Ht (S & d & Hi & Hin & Hd). exists S, d. split; [|done].
  apply live_lookup_Some. split; [done|]. unfold alive. simpl. apply Z.leb_le. lia.
Qed.

(** Sessions may vanish and indexes may grow. *)
Lemma sessions_ok_shrink lo hi m m' :
  (forall id s, session_at m' id = Some s -> session_at m id = Some s /\
     ((hi <= ExpiresAt s / 1000000)%Z -> indexed m id s -> indexed m' id s)) ->
  (forall u e, m' !! index_key u = Some e -> (exists S, val e = VSet S) \/ m !! index_key u = Some e) ->
  (forall id e, m' !! session_key id = Some e -> m !! session_key id = Some e) ->
  sessions_ok lo hi m -> sessions_ok lo hi m'.
Proof.
  intros H Hidx Hkey [Hm Ha Hi Hk]. split.
  - intros id s Hs. destruct (H id s Hs) as [H1 H2]. destruct (Hm id s H1) as [H3 H4]. auto.
  - intros id s Hs. apply (Ha id). by apply H.
  - intros u e [?|He]%Hidx; [done|by eapply Hi].
  - intros id e He%Hkey. by eapply Hk.
Qed.

Lemma sessions_ok_live t lo hi m :
  (t <= hi)%Z -> sessions_ok lo hi m -> sessions_ok lo hi (live t m).
Proof.
  intros Ht. apply sessions_ok_shrink.
  - intros id s Hs%session_at_live. split; [done|]. intros. apply indexed_live; [lia|done].
  - intros u e [He _]%live_lookup_Some. by right.
  - by intros id e [He _]%live_lookup_Some.
Qed.

(** Only the keys of the store matter. *)
Lemma sessions_ok_agree lo hi m m' :
  (forall k, session_owned k -> m' !! k = m !! k) -> sessions_ok lo hi m -> sessions_ok lo hi m'.
Proof.
  intros Hk. apply sessions_ok_shrink.
  - intros id s Hs. unfold session_at in Hs. rewrite Hk in Hs by (left; eauto). split; [done|].
    intros _ (S & d & Hi & Hd). exists S, d. rewrite Hk by (right; eauto). done.
  - intros u e. rewrite Hk by (right; eauto). by right.
  - intros id e. by rewrite Hk by (left; eauto).
Qed.

(** The keys of the store are as they were, or expired by [t] and gone. *)
Definition aged (t : Z) (m m' : kv) : Prop :=
  forall k, session_owned k ->
    m' !! k = m !! k \/ (m' !! k = None /\ exists e, m !! k = Some e /\ alive t e = false).

Lemma aged_refl t m : aged t m m.
Proof. intros k _. by left. Qed.

Lemma aged_trans t t' m1 m2 m3 : (t <= t')%Z -> aged t m1 m2 -> aged t' m2 m3 -> aged t' m1 m3.
Proof.
  intros Ht H1 H2 k Hk. destruct (H1 k Hk) as [E1|(E1 & e & He & Hd)], (H2 k Hk) as [E2|(E2 & e' & He' & Hd')].
  - left. congruence.
  - right. rewrite E2. split; [done|]. exists e'. by rewrite <- E1.
  - right. rewrite E2. split; [done|]. exists e. split; [done|]. destruct (alive t' e) eqn:Ha; [|done].
    by rewrite (alive_mono t t') in Hd.
  - congruence.
Qed.

#[export] Instance aged_preorder t : PreOrder (aged t).
Proof. split; [intros m; apply aged_refl|]. intros m1 m2 m3. by apply aged_trans. Qed.

Lemma aged_live t m : aged t m (live t m).
Proof.
  intros k _. rewrite live_lookup. destruct (m !! k) as [e|] eqn:E; [|by left].
  destruct (alive t e) eqn:Ha; [by left|]. right. eauto.
Qed.

Lemma aged_agree t m m' : (forall k, session_owned k -> m' !! k = m !! k) -> aged t m m'.
Proof. intros H k Hk. left. by apply H. Qed.

Lemma sessions_ok_aged t lo hi m m' :
  (t <= hi)%Z -> aged t m m' -> sessions_ok lo hi m -> sessions_ok lo hi m'.
Proof.
  intros Ht Hk. assert (forall k e, session_owned k -> m' !! k = Some e -> m !! k = Some e) as Hsh.
  { intros k e Ho He. destruct (Hk k Ho) as [E|[E _]]; congruence. }
  apply sessions_ok_shrink.
  - intros id s Hs. split.
    + unfold session_at in *. destruct (m' !! session_key id) as [e|] eqn:E; [|done].
      apply Hsh in E; [|left; eauto]. by rewrite E.
    + intros Hhi (S & d & Hi & Hin & Hd). exists S, d. split; [|done].
      destruct (Hk (index_key (UserID s))) as [E|(_ & e & E & Ha)]; [right; eauto|congruence|].
      rewrite Hi in E. injection E as <-. unfold alive in Ha. simpl in Ha. apply Z.leb_gt in Ha. lia.
  - intros u e He. right. apply Hsh; [right; eauto|done].
  - intros id e He. apply Hsh; [left; eauto|done].
Qed.

Lemma session_at_delete m k id :
  session_at (delete k m) id = if decide (k = session_key id) then None else session_at m id.
Proof. unfold session_at. rewrite lookup_delete. by case_decide. Qed.

Lemma session_at_deletes ks m id :
  session_at (foldr delete m ks) id = if decide (session_key id ∈ ks) then None else session_at m id.
Proof. unfold session_at. rewrite foldr_delete_lookup. by destruct (decide _). Qed.

Lemma session_at_ne m k e id : k <> session_key id -> session_at (<[k := e]> m) id = session_at m id.
Proof. intros Hk. unfold session_at. by rewrite lookup_insert_ne. Qed.

(** Deleting session keys keeps the invariant. *)
Lemma deletes_ok lo hi m ks :
  Forall (fun k => exists id, k = session_key id) ks ->
  sessions_ok lo hi m -> sessions_ok lo hi (foldr delete m ks).
Proof.
  intros Hks. assert (forall u, foldr delete m ks !! index_key u = m !! index_key u) as Hidx.
  { intros u. rewrite foldr_delete_lookup. destruct (decide _) as [Hin|]; [|done].
    rewrite Forall_forall in Hks. by destruct (Hks _ Hin) as [id' ?]. }
  apply sessions_ok_shrink.
  - intros id s. rewrite session_at_deletes. destruct (decide _); [done|]. intros Hs. split; [done|].
    intros _ (S & d & Hi & Hd). exists S, d. by rewrite Hidx.
  - intros u e. rewrite Hidx. by right.
  - intros id e. rewrite foldr_delete_lookup. by destruct (decide _).
Qed.

Lemma get_set_index lo hi m u :
  sessions_ok lo hi m -> exists S d, get_set m (index_key u) = Some (S, d) /\
    (m !! index_key u = None /\ S = ∅ \/ m !! index_key u = Some (Entry (VSet S) d)).
Proof.
  intros Hm. unfold get_set. destruct (m !! index_key u) as [e|] eqn:E; [|exists ∅, None; auto].
  destruct (so_indexes _ _ _ Hm u e E) as [S HS]. destruct e as [v d]. simpl in HS. subst v.
  exists S, d. auto.
Qed.

(** Taking ids without a session off an index keeps it. *)
Lemma srem_ok rules t lo hi m u ids :
  (forall id, id ∈ ids -> session_at m id = None) ->
  sessions_ok lo hi m -> sessions_ok lo hi (effect rules t (SRem (index_key u) ids) m).
Proof.
  intros Hids Hm. destruct (get_set_index _ _ m u Hm) as (S & d & Hgs & HS).
  assert (effect rules t (SRem (index_key u) ids) m = put_set (index_key u) (S ∖ list_to_set ids) d m) as ->.
  { unfold effect. simpl. by rewrite Hgs. }
  revert Hm. apply sessions_ok_shrink.
  - intros id s Hs.
    assert (session_at m id = Some s) as Hs' by (unfold session_at in *; by rewrite put_set_ne in Hs).
    split; [done|]. intros _ (S' & d' & Hi & Hin & Hd).
    assert (id ∉ ids) as Hnin by (intros Hin'; by rewrite Hids in Hs').
    destruct (decide (u = UserID s)) as [->|Hu].
    + destruct HS as [[? _]|HS]; [congruence|]. rewrite HS in Hi. injection Hi as -> ->.
      exists (S' ∖ list_to_set ids), d'. rewrite put_set_eq, decide_False by set_solver.
      split; [done|set_solver].
    + exists S', d'. rewrite put_set_ne; [done|]. intros ?%index_key_inj. congruence.
  - intros u' e He. destruct (decide (u' = u)) as [->|Hu].
    + rewrite put_set_eq in He. left. destruct (decide _); [done|]. injection He as <-. simpl. eauto.
    + rewrite put_set_ne in He by (by intros ?%index_key_inj). by right.
  - intros id e. by rewrite put_set_ne.
Qed.

(** What a login writes: the session, and its id in the index, whose time to
    live starts anew. *)
Lemma create_effect rules t lo hi m u id p ttl abs rs m' :
  request_spec rules t (Pipeline [Set_ (session_key id) p ttl;
    SAdd (index_key u) [id]; Expire (index_key u) abs]) m rs m' ->
  expire_ms rules abs = abs_ms -> (0 < abs_ms)%Z -> sessions_ok lo hi (live t m) ->
  exists S d dl, (live t m !! index_key u = None /\ S = ∅ \/ live t m !! index_key u = Some (Entry (VSet S) d)) /\
    m' !! session_key id = Some (Entry (VStr p) dl) /\
    m' !! index_key u = Some (Entry (VSet (S ∪ {[id]})) (Some (t + abs_ms)%Z)) /\
    forall k, k <> index_key u -> k <> session_key id -> m' !! k = live t m !! k.
Proof.
  simpl. intros Hs Habs Hpos. revert Hs. generalize (live t m) as m0.
  intros m0 Hs Hm. destruct rs as [|r1 [|r2 [|r3 [|r4 rs]]]]; try tauto.
  destruct Hs as (_ & _ & _ & ->).
  set (e1 := Entry (VStr p) ((fun ms => (t + ms)%Z) <$> set_ms rules ttl)).
  change (effect rules t (Set_ (session_key id) p ttl) m0)
    with (<[session_key id := e1]> m0).
  set (m1 := <[session_key id := e1]> m0).
  assert (get_set m1 (index_key u) = get_set m0 (index_key u)) as Hgs
    by (unfold get_set; subst m1; by rewrite lookup_insert_ne).
  destruct (get_set_index _ _ m0 u Hm) as (S & d & Hgs0 & HS). rewrite Hgs0 in Hgs.
  set (m2 := effect rules t (SAdd (index_key u) [id]) m1).
  assert (m2 = put_set (index_key u) (S ∪ {[id]}) d m1) as Hm2.
  { subst m2. unfold effect. simpl. rewrite Hgs. simpl. by rewrite union_empty_r_L. }
  assert (m2 !! index_key u = Some (Entry (VSet (S ∪ {[id]})) d)) as Hl.
  { rewrite Hm2, put_set_eq, decide_False; [done|set_solver]. }
  set (m3 := effect rules t (Expire (index_key u) abs) m2).
  assert (m3 = <[index_key u := Entry (VSet (S ∪ {[id]})) (Some (t + abs_ms)%Z)]> m2) as Hm3.
  { subst m3. unfold effect. simpl. by rewrite Habs, (set_deadline_some _ _ _ _ _ Hl Hpos). }
  exists S, d, ((fun ms => (t + ms)%Z) <$> set_ms rules ttl). split; [exact HS|]. split; [|split].
  - rewrite Hm3, lookup_insert_ne, Hm2, put_set_ne by done. subst m1. by rewrite lookup_insert_eq.
  - by rewrite Hm3, lookup_insert_eq.
  - intros k H1 H2. rewrite Hm3, lookup_insert_ne, Hm2, put_set_ne by done. subst m1. by rewrite lookup_insert_ne.
Qed.

Lemma create_ok rules t lo hi m u id p s ttl abs rs m' :
  request_spec rules t (Pipeline [Set_ (session_key id) p ttl;
    SAdd (index_key u) [id]; Expire (index_key u) abs]) m rs m' ->
  expire_ms rules abs = abs_ms -> (0 < abs_ms)%Z -> (lo <= t <= hi)%Z ->
  unmarshal p = Some s -> UserID s = u -> is_ascii u = true -> (ExpiresAt s / 1000000 <= lo + abs_ms)%Z ->
  sessions_ok lo hi m -> sessions_ok lo hi m'.
Proof.
  intros Hs Habs Hpos Ht Hp Hu Hascii HE Hm. apply (sessions_ok_live t) in Hm; [|lia].
  destruct (create_effect _ _ _ _ _ _ _ _ _ _ _ _ Hs Habs Hpos Hm) as (S & d & dl & HS & Hkey & Hidx & Hframe).
  assert (forall id', id' <> id -> m' !! session_key id' = live t m !! session_key id') as Hothers
    by (intros id' Hne; apply Hframe; [done|by intros ?%session_key_inj]).
  assert (session_at m' id = Some s) as Hnew by (unfold session_at; by rewrite Hkey).
  split.
  - intros id' s' Hs'. destruct (decide (id' = id)) as [->|Hne].
    + rewrite Hnew in Hs'. injection Hs' as <-.
      split; [done|]. intros _. exists (S ∪ {[id]}), (t + abs_ms)%Z. rewrite Hu. split; [done|].
      split; [set_solver|lia].
    + unfold session_at in Hs'. rewrite Hothers in Hs' by done.
      destruct (so_sessions _ _ _ Hm id' s' Hs') as [H1 H2]. split; [done|]. intros Hhi.
      destruct (H2 Hhi) as (S' & d' & Hi & Hin & Hd).
      destruct (decide (UserID s' = u)) as [Hu'|Hu'].
      * rewrite Hu' in Hi. destruct HS as [[? _]|HS]; [congruence|]. rewrite HS in Hi. injection Hi as -> ->.
        exists (S' ∪ {[id]}), (t + abs_ms)%Z. rewrite Hu'. split; [done|]. split; [set_solver|lia].
      * exists S', d'. rewrite Hframe; [done| |done]. by intros ?%index_key_inj.
  - intros id' s' Hs'. destruct (decide (id' = id)) as [->|Hne]; [rewrite Hnew in Hs'; injection Hs' as <-; by rewrite Hu|].
    unfold session_at in Hs'. rewrite Hothers in Hs' by done. by apply (so_ascii _ _ _ Hm id').
  - intros u' e. destruct (decide (u' = u)) as [->|Hu'].
    + rewrite Hidx. intros [= <-]. simpl. eauto.
    + rewrite Hframe; [apply Hm| |done]. by intros ?%index_key_inj.
  - intros id' e He. destruct (decide (id' = id)) as [->|Hne].
    + rewrite Hkey in He. injection He as <-. simpl. eauto.
    + rewrite Hothers in He by done. by eapply Hm.
Qed.

(** Writing a session again that the index lists. *)
Lemma rewrite_ok rules t lo hi m id p s ttl rs m' :
  request_spec rules t (Pipeline [Set_ (session_key id) p ttl]) m rs m' ->
  (t <= hi)%Z -> unmarshal p = Some s -> is_ascii (UserID s) = true -> (ExpiresAt s / 1000000 <= lo + abs_ms)%Z ->
  ((hi <= ExpiresAt s / 1000000)%Z -> indexed m id s) ->
  sessions_ok lo hi m ->
  sessions_ok lo hi m' /\ ((hi <= ExpiresAt s / 1000000)%Z -> indexed m' id s).
Proof.
  intros Hs Ht Hp Hascii HE Hidx Hm. apply (sessions_ok_live t) in Hm; [|lia].
  assert ((hi <= ExpiresAt s / 1000000)%Z -> indexed (live t m) id s) as Hidx'.
  { intros Hhi. apply indexed_live; [lia|auto]. }
  simpl in Hs. revert Hm Hidx' Hs. generalize (live t m) as m0. clear Hidx.
  intros m0 Hm Hidx Hs. destruct rs as [|r1 [|r2 rs]]; try tauto.
  destruct Hs as (_ & ->). unfold effect. simpl. set (e1 := Entry (VStr p) _).
  assert (forall id' s', indexed m0 id' s' -> indexed (<[session_key id := e1]> m0) id' s') as Hk.
  { intros id' s' (S & d & Hi & Hd). exists S, d. by rewrite lookup_insert_ne. }
  split; [|by intros Hhi; apply Hk, Hidx]. split.
  - intros id' s' Hs'. destruct (decide (id' = id)) as [->|Hne].
    + unfold session_at in Hs'. rewrite lookup_insert_eq in Hs'. simpl in Hs'. rewrite Hp in Hs'.
      injection Hs' as <-. split; [done|]. intros Hhi. by apply Hk, Hidx.
    + rewrite session_at_ne in Hs' by (by intros ?%session_key_inj).
      destruct (so_sessions _ _ _ Hm id' s' Hs') as [H1 H2]. split; [done|]. intros Hhi. by apply Hk, H2.
  - intros id' s' Hs'. destruct (decide (id' = id)) as [->|Hne].
    + unfold session_at in Hs'. rewrite lookup_insert_eq in Hs'. simpl in Hs'. rewrite Hp in Hs'.
      by injection Hs' as <-.
    + rewrite session_at_ne in Hs' by (by intros ?%session_key_inj). by apply (so_ascii _ _ _ Hm id').
  - intros u e. rewrite lookup_insert_ne by done. apply Hm.
  - intros id' e. rewrite lookup_insert. case_decide; [intros [= <-]; simpl; eauto|apply Hm].
Qed.
End facts.

(** ** The index of one user *)

(** The index of [u] lists nothing outside [X]. *)
Definition index_within (u : string) (X : gset string) (m : kv) : Prop :=
  exists S d, get_set m (index_key u) = Some (S, d) /\ S ⊆ X.

Lemma index_within_mono u X Y m : X ⊆ Y -> index_within u X m -> index_within u Y m.
Proof. intros HXY (S & d & Hg & HS). exists S, d. split; [done|set_solver]. Qed.

Lemma index_within_live u X t m : index_within u X m -> index_within u X (live t m).
Proof.
  intros (S & d & Hg & HS). unfold index_within, get_set in *. rewrite live_lookup.
  destruct (m !! index_key u) as [e|]; [|exists S, d; auto].
  destruct (alive t e); [exists S, d; auto|]. exists ∅, None. split; [done|set_solver].
Qed.

Lemma index_within_delete u X id m : index_within u X m -> index_within u X (delete (session_key id) m).
Proof. intros Hm. unfold index_within, get_set in *. by rewrite lookup_delete_ne. Qed.
