(* ===== verification/SessionOps.v ===== *)
(** * The operations of the session store, specified

    One triple per operation of [Sessions.v], for any server that meets
    [RedisLaws] and any failure of its connection: the invariant of
    [SessionFacts.v] is kept on every path, and what a successful call has
    done. *)

From S2P Require Import Prelude GoStrings Crypto Effects RedisSpec Sessions SessionFacts.

Section ops.
Context `{RL : RedisLaws} {CL : ClockLaws _} `{JL : SessionJsonLaws}.
Variable store : SessionStore.

(** The absolute time to live is a whole number of seconds. *)
Variable secs : Z.
Hypothesis absolute_secs : absoluteTTL store = (secs * 1000000000)%Z.
Hypothesis secs_pos : (0 < secs)%Z.

Definition abs_ms : Z := (secs * 1000)%Z.

Lemma expire_abs : expire_ms ttls (absoluteTTL store) = abs_ms.
Proof. rewrite absolute_secs. by apply expire_ms_whole. Qed.

Lemma expiry_ms n : ((n + absoluteTTL store) / 1000000 = n / 1000000 + abs_ms)%Z.
Proof. rewrite absolute_secs. unfold abs_ms. replace (secs * 1000000000)%Z with (secs * 1000 * 1000000)%Z by lia. by rewrite Z.div_add. Qed.

(** The invariant in a state. *)
Definition sok (w : mstate) : Prop := sessions_ok abs_ms (server_ms w) (server_ms w) (keyspace w).

(** The invariant while a request started in [w] is under way. *)
Definition sok_from (w : mstate) (hi : Z) (m : kv) : Prop := sessions_ok abs_ms (server_ms w) hi m.

Lemma sok_start w hi : sok w -> (server_ms w <= hi)%Z -> sok_from w hi (keyspace w).
Proof. intros Hw Hhi. eapply sessions_ok_mono; [| |exact Hw]; lia. Qed.

Lemma sok_end w w' : (server_ms w <= server_ms w')%Z -> sok_from w (server_ms w') (keyspace w') -> sok w'.
Proof. intros Ht Hw. eapply sessions_ok_mono; [| |exact Hw]; lia. Qed.

Lemma sok_same w w' : (server_ms w <= server_ms w')%Z -> keyspace w' = keyspace w -> sok w -> sok w'.
Proof. intros Ht Hk Hw. apply (sok_end w); [done|]. rewrite Hk. by apply sok_start. Qed.

Lemma sok_live w hi t m : (t <= hi)%Z -> sok_from w hi m -> sok_from w hi (live t m).
Proof. apply sessions_ok_live. Qed.

(** No key is new. *)
Definition shrunk (m m' : kv) : Prop := forall k e, m' !! k = Some e -> m !! k = Some e.

Lemma shrunk_live m m' t : shrunk m m' -> shrunk m (live t m').
Proof. intros Hs k e [He _]%live_lookup_Some. by apply Hs. Qed.

(** ** Calls that are not requests to Redis *)

Lemma wp_now (Q : Z -> mstate -> Prop) w :
  (forall n w', keyspace w' = keyspace w -> (server_ms w <= n / 1000000 <= server_ms w')%Z -> Q n w') ->
  wp (interp (call Now)) Q w.
Proof.
  intros HQ. apply wp_interp_call. apply HQ; [by apply redis_frame|].
  apply clock_answer. apply surjective_pairing.
Qed.

Lemma wp_newToken (Q : error + string -> mstate -> Prop) w :
  (forall r w', keyspace w' = keyspace w -> (server_ms w <= server_ms w')%Z -> Q r w') ->
  wp (interp newToken) Q w.
Proof.
  intros HQ. unfold newToken. rewrite wp_interp_bind, wp_interp_call.
  destruct (fst _); simpl; apply HQ; by apply redis_frame || apply redis_clock.
Qed.

(** ** Revocation *)

Lemma revoke_pipeline t lo hi m u id rs m' :
  request_spec ttls t (Pipeline (Del [session_key id] ::
    (if bool_decide (u <> "") then [SRem (index_key u) [id]] else []))) m rs m' ->
  (t <= hi)%Z -> sessions_ok abs_ms lo hi m ->
  sessions_ok abs_ms lo hi m' /\ m' !! session_key id = None.
Proof.
  intros Hs Ht Hm. apply (sessions_ok_live _ t) in Hm; [|done].
  assert (sessions_ok abs_ms lo hi (delete (session_key id) (live t m))) as Hd.
  { apply (deletes_ok _ lo hi (live t m) [session_key id]); [|done]. repeat constructor. eauto. }
  simpl in Hs. destruct rs as [|r rs]; [tauto|]. destruct Hs as [_ Hs].
  change (effect ttls t (Del [session_key id]) (live t m)) with (delete (session_key id) (live t m)) in Hs.
  case_bool_decide; simpl in Hs.
  - destruct rs as [|r' [|]]; try tauto. destruct Hs as [_ ->]. split.
    + apply srem_ok; [|done]. intros id' ->%list_elem_of_singleton.
      rewrite session_at_delete. by rewrite decide_True.
    + rewrite effect_frame; [by rewrite lookup_delete_eq|]. simpl. by rewrite list_elem_of_singleton.
  - destruct rs as [|]; [|tauto]. subst m'. split; [done|]. by rewrite lookup_delete_eq.
Qed.

Lemma wp_revokeByID u id (Q : error + unit -> mstate -> Prop) w :
  sok w ->
  (forall r w', (server_ms w <= server_ms w')%Z -> sok w' ->
     match r with
     | inl e => exists e', e = Wrap "revoke session" e'
     | inr _ => keyspace w' !! session_key id = None
     end -> Q r w') ->
  wp (interp (revokeByID u id)) Q w.
Proof.
  intros Hw HQ. unfold revokeByID. rewrite wp_interp_bindE. apply wp_wrapped.
  apply (wp_redis _ (sok_from w)).
  - intros hi. by apply sok_start.
  - intros hi t m rs m' Ht HI Hs. by destruct (revoke_pipeline t (server_ms w) hi _ _ _ _ _ Hs (proj2 Ht) HI).
  - intros e w' Ht HI _. apply HQ; [done|by apply (sok_end w)|eauto].
  - intros m rs w' Ht HI Hs _. destruct (revoke_pipeline _ _ _ _ _ _ _ _ Hs (Z.le_refl _) HI) as [Hok Hgone].
    apply wp_interp_succeeds. apply HQ; [done|by apply (sok_end w)|done].
Qed.

(** ** Lookup *)

(** What a successful [Get] found. *)
Record found (token : string) (s : Session) (w w' : mstate) : Prop := {
  fd_shrunk : shrunk (keyspace w) (keyspace w');
  fd_stored : exists s0, session_at (keyspace w') (hashToken token) = Some s0 /\
    s = set_id (hashToken token) s0;
  fd_indexed : indexed (keyspace w') (hashToken token) s;
  fd_time : exists n, (n <= ExpiresAt s)%Z /\ (server_ms w <= n / 1000000 <= server_ms w')%Z
}.

Lemma wp_Get_ token (Q : error + Session -> mstate -> Prop) w :
  sok w ->
  (forall r w', (server_ms w <= server_ms w')%Z -> sok w' ->
     match r with
     | inr s => found token s w w'
     | inl e => e = ErrSessionNotFound -> keyspace w' !! session_key (hashToken token) = None
     end -> Q r w') ->
  wp (interp (Get_ token)) Q w.
Proof.
  intros Hw HQ. unfold Get_. set (id := hashToken token). rewrite wp_interp_bindE. apply wp_wrapped.
  apply (wp_redis_get _ (fun hi m => sok_from w hi m /\ shrunk (keyspace w) m)).
  - intros hi Hhi. split; [by apply sok_start|by intros k e].
  - intros hi t m Ht [Hm Hsh]. split; [apply sok_live; [lia|done]|by apply shrunk_live].
  - intros r w1 Ht [Hok Hsh] Hr. apply sok_end in Hok; [|done].
    destruct r as [e|[raw|]]; [by apply HQ| |by apply wp_interp_fails, HQ].
    destruct Hr as [d Hd]. destruct (unmarshal raw) as [s0|] eqn:Hun; [|by apply wp_interp_fails, HQ].
    rewrite wp_interp_bind. apply wp_now. intros n w2 Hk Hn.
    assert (sok w2) as Hok2 by (eapply sok_same; [|exact Hk|done]; lia).
    destruct (ExpiresAt (set_id id s0) <? n)%Z eqn:Hexp.
    + rewrite wp_interp_bindE. apply wp_revokeByID; [done|]. intros r w3 Ht3 Hw3 Hgone.
      destruct r as [e|[]]; [|by apply wp_interp_fails, HQ; [lia|..]].
      destruct Hgone as [e' ->]. by apply HQ; [lia|..].
    + apply wp_interp_succeeds. apply HQ; [lia|done|]. rewrite <- Hk in Hsh, Hd.
      assert (session_at (keyspace w2) id = Some s0) as Hs0 by (unfold session_at; by rewrite Hd).
      apply Z.ltb_ge in Hexp. split; [done|by exists s0| |exists n; split; [done|lia]].
      rewrite Hk in *. apply (so_sessions _ _ _ _ Hok _ _ Hs0).
      simpl in Hexp. transitivity (n / 1000000)%Z; [lia|]. by apply Z.div_le_mono.
Qed.

Lemma wp_redis_run c (I : Z -> kv -> Prop) (Q : error + unit -> mstate -> Prop) w :
  (forall hi, (server_ms w <= hi)%Z -> I hi (keyspace w)) ->
  (forall hi t m rs m', (server_ms w <= t <= hi)%Z -> I hi m ->
     request_spec ttls t (Pipeline [c]) m rs m' -> I hi m') ->
  (forall r w', (server_ms w <= server_ms w')%Z -> I (server_ms w') (keyspace w') ->
     match r with
     | inl _ => fst (respond _ (Redis (Pipeline [c])) w) = None \/
         exists m rs, I (server_ms w') m /\
           request_spec ttls (server_ms w') (Pipeline [c]) m rs (keyspace w') /\ first_error rs <> None
     | inr _ => exists m rs, I (server_ms w') m /\
         request_spec ttls (server_ms w') (Pipeline [c]) m rs (keyspace w')
     end -> Q r w') ->
  wp (interp (redis_run c)) Q w.
Proof.
  intros Hw Hkeep HQ. unfold redis_run. rewrite wp_interp_bindE. apply (wp_redis _ I); [done..| |].
  - intros e w' Ht HI Hwhy. apply HQ; [done..|].
    by destruct Hwhy as [?|Hwhy]; [left|right].
  - intros m rs w' Ht HI Hs _. apply wp_interp_succeeds. apply HQ; [done| |eauto].
    eapply Hkeep; [|exact HI|exact Hs]. lia.
Qed.

Lemma wp_del_session id (Q : error + unit -> mstate -> Prop) w (P : kv -> Prop) :
  sok w -> P (keyspace w) ->
  (forall t m, P m -> P (delete (session_key id) (live t m))) ->
  (forall r w', (server_ms w <= server_ms w')%Z -> sok w' -> P (keyspace w') ->
     match r with
     | inl _ => fst (respond _ (Redis (Pipeline [Del [session_key id]])) w) = None
     | inr _ => keyspace w' !! session_key id = None
     end -> Q r w') ->
  wp (interp (redis_run (Del [session_key id]))) Q w.
Proof.
  intros Hw HP Hdel HQ.
  apply (wp_redis_run _ (fun hi m => sok_from w hi m /\ P m)).
  - intros hi Hhi. split; [by apply sok_start|done].
  - intros hi t m rs m' Ht [HI HPm] Hs.
    destruct (revoke_pipeline t (server_ms w) hi m "" id rs m' Hs (proj2 Ht) HI) as [Hok _]. split; [done|].
    simpl in Hs. destruct rs as [|r [|]]; try tauto. destruct Hs as [_ ->]. by apply Hdel.
  - intros r w' Ht [HI HPm] Hr. apply HQ; [done|by apply (sok_end w)|done|]. destruct r as [e|[]].
    { destruct Hr as [?|(m & rs & _ & Hs & He)]; [done|]. simpl in Hs.
      destruct rs as [|r [|]]; try tauto. destruct Hs as [Hr _]. by rewrite Hr in He. }
    destruct Hr as (m & rs & [HIm _] & Hs).
    by destruct (revoke_pipeline _ (server_ms w) _ m "" id rs _ Hs (Z.le_refl _) HIm).
Qed.

Lemma wp_Revoke token (Q : error + unit -> mstate -> Prop) w :
  sok w ->
  (forall r w', (server_ms w <= server_ms w')%Z -> sok w' ->
     (r = inr tt -> keyspace w' !! session_key (hashToken token) = None) -> Q r w') ->
  wp (interp (Revoke token)) Q w.
Proof.
  intros Hw HQ. unfold Revoke. rewrite wp_interp_bindE. apply wp_wrapped.
  apply (wp_redis_get _ (sok_from w)).
  - intros hi. by apply sok_start.
  - intros hi t m Ht. apply sok_live. lia.
  - intros r w1 Ht Hok Hr. apply sok_end in Hok; [|done].
    destruct r as [e|[raw|]]; [by apply HQ| |by apply wp_interp_succeeds, HQ].
    destruct (unmarshal raw) as [s|].
    + apply wp_revokeByID; [done|]. intros r w2 Ht2 Hok2 Hgone. apply HQ; [lia|done|]. by intros ->.
    + apply (wp_del_session _ _ _ (fun _ => True)); [done..|]. intros r w2 Ht2 Hok2 _ Hgone.
      apply HQ; [lia|done|]. by intros ->.
Qed.

(** ** Sliding the idle window *)

(** The index lists the session. *)
Definition known (s : Session) (w : mstate) : Prop :=
  is_ascii (UserID s) = true /\
  (ExpiresAt s / 1000000 <= server_ms w + abs_ms)%Z /\
  ((server_ms w <= ExpiresAt s / 1000000)%Z -> indexed (keyspace w) (ID s) s).

Lemma found_known token s w w' : sok w' -> found token s w w' -> known s w'.
Proof.
  intros Hok [_ (s0 & Hs0 & ->) _ _]. split.
  - exact (so_ascii _ _ _ _ Hok (hashToken token) s0 Hs0).
  - exact (so_sessions _ _ _ _ Hok (hashToken token) s0 Hs0).
Qed.

Lemma wp_Touch s (Q : error + unit -> mstate -> Prop) w :
  sok w -> known s w ->
  (forall r w', (server_ms w <= server_ms w')%Z -> sok w' -> Q r w') ->
  wp (interp (Touch store s)) Q w.
Proof.
  intros Hw (Hascii & HE & Hidx) HQ. unfold Touch. rewrite wp_interp_bind. apply wp_now. intros n w1 Hk Hn.
  assert (sok w1) as Hok by (eapply sok_same; [|exact Hk|done]; lia).
  destruct (_ <? touchGranularity)%Z; [apply wp_interp_succeeds, HQ; [lia|done]|].
  destruct (marshal (set_seen n s)) as [p|] eqn:Hm; [|apply wp_interp_fails, HQ; [lia|done]].
  destruct (marshal_unmarshal (set_seen n s) p Hascii Hm) as (s' & Hs' & Hu & _ & He & _).
  cbn [UserID ExpiresAt set_seen] in Hu, He.
  apply wp_wrapped.
  assert (forall m, indexed m (ID s) s -> indexed m (ID s) s') as Hsame.
  { intros m (S & d & H'). exists S, d. by rewrite Hu, He. }
  apply (wp_redis_run _ (fun hi m => sok_from w1 hi m /\
    ((hi <= ExpiresAt s' / 1000000)%Z -> indexed m (ID s) s'))).
  - intros hi Hhi. split; [by apply sok_start|]. intros Hlt. rewrite Hk. apply Hsame, Hidx. rewrite <- He. lia.
  - intros hi t m rs m' Ht [HI Hi] Hs.
    eapply (rewrite_ok _ ttls t (server_ms w1) hi); [exact Hs|lia|exact Hs'|by rewrite Hu| |exact Hi|exact HI].
    rewrite He. lia.
  - intros r w2 Ht [HI _] _. apply sok_end in HI; [|done]. destruct r; apply HQ; by lia || done.
Qed.

(** ** Revoking all sessions of a user *)

(** The pipeline of [RevokeAllForUser]. *)
Definition revoke_all_requests (u keep : string) (ids : list string) : list command :=
  (if bool_decide (0 < length (revoked_keys keep ids)) then [Del (revoked_keys keep ids)] else []) ++
  [Del [index_key u]] ++
  (if bool_decide (0 < length (remaining_ids keep ids))
   then [SAdd (index_key u) (remaining_ids keep ids); Expire (index_key u) (absoluteTTL store)] else []).

Lemma remaining_spec keep ids id : id ∈ remaining_ids keep ids <-> id ∈ ids /\ id = keep.
Proof.
  unfold remaining_ids. rewrite !list_elem_of_In, List.filter_In, bool_decide_eq_true. done.
Qed.

Lemma revoked_spec keep ids id : session_key id ∈ revoked_keys keep ids <-> id ∈ ids /\ id <> keep.
Proof.
  unfold revoked_keys. rewrite list_elem_of_fmap. split.
  - intros (id' & ->%session_key_inj & Hin). rewrite list_elem_of_In, List.filter_In in Hin.
    rewrite negb_true_iff, bool_decide_eq_false, <- list_elem_of_In in Hin. done.
  - intros [Hin Hne]. exists id. split; [done|]. rewrite list_elem_of_In, List.filter_In.
    by rewrite negb_true_iff, bool_decide_eq_false, <- list_elem_of_In.
Qed.

(** The keyspace the pipeline leaves: the listed sessions deleted, the index
    reset to what is kept. *)
Lemma revoke_all_effect t m u keep ids rs m' :
  pipeline_spec ttls t (revoke_all_requests u keep ids) m rs m' ->
  let m1 := foldr delete m (revoked_keys keep ids) in
  m' = (if bool_decide (0 < length (remaining_ids keep ids))
        then <[index_key u := Entry (VSet (list_to_set (remaining_ids keep ids))) (Some (t + abs_ms)%Z)]> m1
        else delete (index_key u) m1).
Proof.
  intros Hs m1. unfold revoke_all_requests in Hs.
  assert (exists rs1, pipeline_spec ttls t ([Del [index_key u]] ++
    (if bool_decide (0 < length (remaining_ids keep ids))
     then [SAdd (index_key u) (remaining_ids keep ids); Expire (index_key u) (absoluteTTL store)] else []))
    m1 rs1 m') as [rs1 Hs1].
  { revert Hs. subst m1. case_bool_decide as Hlen.
    - simpl. destruct rs as [|r rs]; [tauto|]. intros [_ Hs]. by exists rs.
    - destruct (revoked_keys keep ids); [|simpl in Hlen; lia]. by exists rs. }
  clear Hs. simpl in Hs1. destruct rs1 as [|r1 rs1]; [tauto|]. destruct Hs1 as [_ Hs].
  change (effect ttls t (Del [index_key u]) m1) with (delete (index_key u) m1) in Hs.
  case_bool_decide as Hlen; simpl in Hs.
  - destruct rs1 as [|r2 [|r3 [|]]]; try tauto. destruct Hs as (_ & _ & ->).
    assert (effect ttls t (SAdd (index_key u) (remaining_ids keep ids)) (delete (index_key u) m1) =
      <[index_key u := Entry (VSet (list_to_set (remaining_ids keep ids))) None]> m1) as ->.
    { unfold effect. simpl. unfold get_set. rewrite lookup_delete_eq. simpl. unfold put_set.
      rewrite union_empty_l_L. rewrite decide_False, insert_delete_eq; [done|].
      destruct (remaining_ids keep ids); [simpl in Hlen; lia|set_solver]. }
    unfold effect. simpl. rewrite expire_abs.
    rewrite (set_deadline_some _ _ _ _ _ (lookup_insert_eq m1 (index_key u) _)) by (unfold abs_ms; lia).
    simpl. by rewrite insert_insert_eq.
  - destruct rs1 as [|]; [|tauto]. done.
Qed.

Lemma revoke_all_ok t lo hi m u keep ids rs m' :
  request_spec ttls t (Pipeline (revoke_all_requests u keep ids)) m rs m' ->
  (lo <= t <= hi)%Z -> sessions_ok abs_ms lo hi m -> index_within u (list_to_set ids) m ->
  sessions_ok abs_ms lo hi m' /\ index_within u (list_to_set ids) m' /\ index_within u {[keep]} m'.
Proof.
  intros Hs Ht Hm Hin. apply (sessions_ok_live _ t) in Hm; [|lia]. apply (index_within_live _ _ t) in Hin.
  simpl in Hs. apply revoke_all_effect in Hs. revert Hm Hin Hs. generalize (live t m) as m0. intros m0 Hm Hin Hs.
  set (m1 := foldr delete m0 (revoked_keys keep ids)) in *.
  assert (sessions_ok abs_ms lo hi m1) as Hm1.
  { apply deletes_ok; [|done]. apply Forall_forall. intros k. unfold revoked_keys.
    rewrite list_elem_of_fmap. intros (id & -> & _). eauto. }
  assert (forall k, k <> index_key u -> m' !! k = m1 !! k) as Hframe.
  { intros k Hk. rewrite Hs. case_bool_decide; [by rewrite lookup_insert_ne|by rewrite lookup_delete_ne]. }
  assert (m' !! index_key u = None \/ (0 < length (remaining_ids keep ids) /\ m' !! index_key u =
    Some (Entry (VSet (list_to_set (remaining_ids keep ids))) (Some (t + abs_ms)%Z)))) as Hidx.
  { rewrite Hs. case_bool_decide; [right; by rewrite lookup_insert_eq|left; by rewrite lookup_delete_eq]. }
  assert (get_set m' (index_key u) = Some (list_to_set (remaining_ids keep ids),
    if bool_decide (0 < length (remaining_ids keep ids)) then Some (t + abs_ms)%Z else None)) as Hgs.
  { unfold get_set. rewrite Hs. case_bool_decide as Hlen; [by rewrite lookup_insert_eq|].
    rewrite lookup_delete_eq. destruct (remaining_ids keep ids); [done|simpl in Hlen; lia]. }
  split; [|split].
  - split.
    + intros id s Hat. assert (session_at m1 id = Some s) as Hat1
        by (unfold session_at in *; by rewrite Hframe in Hat).
      destruct (so_sessions _ _ _ _ Hm1 id s Hat1) as [HE Hix]. split; [done|]. intros Hhi.
      destruct (Hix Hhi) as (S & d & Hi & Hid & Hd).
      destruct (decide (UserID s = u)) as [<-|Hu]; [|exists S, d; rewrite Hframe; [done|]; by intros ?%index_key_inj].
      assert (id ∈ remaining_ids keep ids) as Hrem.
      { destruct Hin as (S' & d' & Hg & HS). unfold get_set in Hg.
        assert (m0 !! index_key (UserID s) = Some (Entry (VSet S) (Some d))) as Hi0.
        { rewrite <- Hi. subst m1. rewrite foldr_delete_lookup. rewrite decide_False; [done|].
          unfold revoked_keys. rewrite list_elem_of_fmap. by intros (? & ? & _). }
        rewrite Hi0 in Hg. injection Hg as -> _. apply remaining_spec.
        assert (id ∈ ids) as Hids by (apply HS in Hid; by apply elem_of_list_to_set in Hid).
        split; [done|]. destruct (decide (id = keep)) as [|Hne]; [done|].
        subst m1. rewrite session_at_deletes, decide_True in Hat1; [done|]. by apply revoked_spec. }
      destruct Hidx as [Hidx|[Hlen Hidx]].
      * exfalso. rewrite Hs in Hidx. case_bool_decide as Hlen; [by rewrite lookup_insert_eq in Hidx|].
        destruct (remaining_ids keep ids); [by apply elem_of_nil in Hrem|simpl in Hlen; lia].
      * eexists _, _. split; [exact Hidx|]. split; [by apply elem_of_list_to_set|lia].
    + intros id s Hat. apply (so_ascii _ _ _ _ Hm1 id). unfold session_at in *. by rewrite Hframe in Hat.
    + intros u' e. destruct (decide (u' = u)) as [->|Hu].
      * destruct Hidx as [->|[_ ->]]; [done|]. intros [= <-]. simpl. eauto.
      * rewrite Hframe by (by intros ?%index_key_inj). apply Hm1.
    + intros id e. rewrite Hframe by done. apply Hm1.
  - do 2 eexists. split; [exact Hgs|]. intros id. rewrite !elem_of_list_to_set, remaining_spec. tauto.
  - do 2 eexists. split; [exact Hgs|]. intros id. rewrite elem_of_list_to_set, remaining_spec. set_solver.
Qed.

(** The id [RevokeAllForUser] spares. *)
Definition kept (exceptToken : string) : string :=
  if bool_decide (exceptToken <> "") then hashToken exceptToken else "".

Lemma wp_RevokeAllForUser u except (Q : error + nat -> mstate -> Prop) w :
  sok w ->
  (forall r w', (server_ms w <= server_ms w')%Z -> sok w' ->
     match r with inl _ => True | inr _ => index_within u {[kept except]} (keyspace w') end -> Q r w') ->
  wp (interp (RevokeAllForUser store u except)) Q w.
Proof.
  intros Hw HQ. unfold RevokeAllForUser. fold (kept except). rewrite wp_interp_bindE. apply wp_wrapped.
  apply (wp_redis_smembers _ (sok_from w)).
  - intros hi. by apply sok_start.
  - intros hi t m Ht. apply sok_live. lia.
  - intros r w1 Ht Hok Hr. apply sok_end in Hok; [|done].
    destruct r as [e|ids]; [by apply HQ|]. destruct Hr as (S & d & Hg & Hids).
    rewrite wp_interp_bindE. apply wp_wrapped. fold (revoke_all_requests u (kept except) ids).
    apply (wp_redis _ (fun hi m => sok_from w1 hi m /\ index_within u (list_to_set ids) m)).
    + intros hi Hhi. split; [by apply sok_start|]. exists S, d. split; [done|].
      intros id Hid. apply elem_of_list_to_set. rewrite Hids. by apply elem_of_elements.
    + intros hi t m rs m' Ht' [HI Hin] Hs.
      by destruct (revoke_all_ok t (server_ms w1) hi _ _ _ _ _ _ Hs Ht' HI Hin) as (? & ? & _).
    + intros e w2 Ht2 [HI _] _. apply HQ; [lia|by apply (sok_end w1)|done].
    + intros m rs w2 Ht2 [HI Hin] Hs _.
      destruct (revoke_all_ok _ (server_ms w1) (server_ms w2) _ _ _ _ _ _ Hs (conj Ht2 (Z.le_refl _)) HI Hin)
        as (Hok2 & _ & Hkeep).
      apply wp_interp_succeeds. apply HQ; [lia|by apply (sok_end w1)|done].
Qed.
End ops.
