(* ===== verification/SessionCreate.v ===== *)
(** * Login: creating a session and trimming the others

    The triples of [trimSessions] and [Create] ([Sessions.v]). *)

From S2P Require Import Prelude GoStrings Crypto Effects RedisSpec Sessions SessionFacts SessionOps.

Section create.
Context `{RL : RedisLaws} {CL : ClockLaws _} `{JL : SessionJsonLaws}.
Variable store : SessionStore.
Variable secs : Z.
Hypothesis absolute_secs : absoluteTTL store = (secs * 1000000000)%Z.
Hypothesis secs_pos : (0 < secs)%Z.

Abbreviation sok := (sok secs).
Abbreviation sok_from := (sok_from secs).

(** No request to Redis fails. *)
Definition reliable : Prop := forall r w, fst (respond _ (Redis r) w) <> None.

(** The listed ids have no readable session. *)
Definition without_session (ids : list string) (m : kv) : Prop :=
  forall id, id ∈ ids -> session_at m id = None.

Lemma without_session_live ids t m : without_session ids m -> without_session ids (live t m).
Proof.
  intros Hm id Hid. specialize (Hm id Hid). destruct (session_at (live t m) id) as [s|] eqn:E; [|done].
  apply session_at_live in E. congruence.
Qed.

Lemma without_session_delete ids id m :
  without_session ids m -> without_session (ids ++ [id]) (delete (session_key id) m).
Proof.
  intros Hm id' [Hid| ->]%elem_of_snoc; rewrite session_at_delete; [|by rewrite decide_True].
  destruct (decide _); [done|auto].
Qed.

Lemma without_session_snoc ids id m :
  without_session ids m -> session_at m id = None -> without_session (ids ++ [id]) m.
Proof. intros Hm Hid id' [Hin| ->]%elem_of_snoc; auto. Qed.

(** The invariant of the pruning: of the store, and of the index of [u]. *)
Definition pruning (u : string) (X : gset string) (stale : list string) (m : kv) : Prop :=
  index_within u X m /\ without_session stale m.

Lemma pruning_live u X stale t m : pruning u X stale m -> pruning u X stale (live t m).
Proof. intros [Hi Hs]. split; [by apply index_within_live|by apply without_session_live]. Qed.

(** What the scan found: every id is live or stale, the stale ones without a
    session. *)
Lemma wp_scan u X ids live stale (Q : option (list live_entry * list string) -> mstate -> Prop) w :
  sok w -> pruning u X stale (keyspace w) ->
  (forall r w', (server_ms w <= server_ms w')%Z -> sok w' ->
     match r with
     | None => ~ reliable
     | Some (live', stale') =>
         pruning u X stale' (keyspace w') /\
         (fst <$> live') ++ stale' ≡ₚ (fst <$> live) ++ stale ++ ids
     end -> Q r w') ->
  wp (interp (scan ids live stale)) Q w.
Proof.
  revert live stale w. induction ids as [|id ids IH]; intros lv stale w Hw HP HQ; cbn [scan].
  { apply HQ; [done..|]. by rewrite app_nil_r. }
  rewrite wp_interp_bind.
  apply (wp_redis_get _ (fun hi m => sok_from w hi m /\ pruning u X stale m)).
  - intros hi Hhi. split; [by apply sok_start|done].
  - intros hi t m Ht [Hok HPm]. split; [apply sok_live; [lia|done]|by apply pruning_live].
  - intros r w1 Ht [Hok HP1] Hr. apply sok_end in Hok; [|done].
    assert (session_at (keyspace w1) id = None ->
      wp (interp (scan ids lv (stale ++ [id]))) Q w1) as Hstale.
    { intros Hid. apply IH; [done|split; [apply HP1|]|].
      - apply without_session_snoc; [apply HP1|done].
      - intros r' w2 Ht2 Hok2 Hr'. apply HQ; [lia|done|].
        destruct r' as [[live' stale']|]; [|done]. destruct Hr' as [HP2 Hperm]. split; [done|].
        rewrite Hperm. by rewrite <- (app_assoc stale). }
    destruct r as [e|[raw|]].
    + apply HQ; [done..|]. intros Hrel. destruct Hr as [Hr|(s & d & Hr)]; [by apply Hrel in Hr|].
      by destruct (so_strings _ _ _ _ Hok _ _ Hr).
    + destruct Hr as [d Hd]. destruct (unmarshal raw) as [s|] eqn:Hun.
      * apply IH; [done..|]. intros r' w2 Ht2 Hok2 Hr'. apply HQ; [lia|done|].
        destruct r' as [[live' stale']|]; [|done]. destruct Hr' as [HP2 Hperm]. split; [done|].
        rewrite Hperm, fmap_app, <- app_assoc. simpl. by rewrite Permutation_middle.
      * apply Hstale. unfold session_at. by rewrite Hd.
    + apply Hstale. unfold session_at. by rewrite Hr.
Qed.

Abbreviation earliest c l := (forall k (e : live_entry), l !! k = Some e -> (c <= snd e)%Z).
Abbreviation later_before c n l := (forall k (e : live_entry), k < n -> l !! k = Some e -> (c < snd e)%Z).

(** The loop looks for the first of the earliest entries. *)
Lemma oldest_from_first pre l best id c :
  pre !! best = Some (id, c) -> later_before c best pre -> earliest c pre ->
  exists id' c', (pre ++ l) !! oldest_from (length pre) l best c = Some (id', c') /\
    later_before c' (oldest_from (length pre) l best c) (pre ++ l) /\ earliest c' (pre ++ l).
Proof.
  revert pre best id c. induction l as [|[i' c'] l IH]; intros pre best id c Hb Hfirst Hmin; simpl.
  { rewrite app_nil_r. eauto. }
  assert (pre ++ (i', c') :: l = (pre ++ [(i', c')]) ++ l) as -> by (by rewrite <- app_assoc).
  replace (S (length pre)) with (length (pre ++ [(i', c')])) by (rewrite length_app; simpl; lia).
  assert (best < length pre) as Hlt by by eapply lookup_lt_Some.
  destruct (Z.ltb_spec c' c) as [Hc|Hc].
  - apply (IH _ _ i'); [by rewrite lookup_app_r, Nat.sub_diag by done|..]; intros k e.
    + intros Hk. rewrite lookup_app_l by done. intros He. specialize (Hmin k e He). simpl in *. lia.
    + rewrite lookup_snoc_Some. intros [[_ He]|[_ <-]]; [|done]. specialize (Hmin k e He). simpl in *. lia.
  - apply (IH _ _ id); [by rewrite lookup_app_l|..]; intros k e.
    + intros Hk. rewrite lookup_app_l by lia. eauto.
    + rewrite lookup_snoc_Some. intros [[_ He]|[_ <-]]; [by eapply Hmin|done].
Qed.

Lemma oldest_first l : l <> [] ->
  exists id c, l !! oldest l = Some (id, c) /\ later_before c (oldest l) l /\ earliest c l.
Proof.
  destruct l as [|[id c] l]; [done|]. intros _. unfold oldest. simpl. rewrite Z.ltb_irrefl.
  apply (oldest_from_first [(id, c)] l 0 id c); [done|lia|].
  intros [|k] e; simpl; [by intros [= <-]|done].
Qed.

(** ** By age: insertion sort, entries of one time in their order *)

Fixpoint insert_by_age (e : live_entry) (l : list live_entry) : list live_entry :=
  match l with
  | [] => [e]
  | x :: l => if (snd e <=? snd x)%Z then e :: x :: l else x :: insert_by_age e l
  end.

Definition by_age (l : list live_entry) : list live_entry := foldr insert_by_age [] l.

Lemma insert_by_age_perm e l : insert_by_age e l ≡ₚ e :: l.
Proof.
  induction l as [|x l IH]; simpl; [done|]. destruct (snd e <=? snd x)%Z; [done|]. rewrite IH. apply Permutation_swap.
Qed.

Lemma by_age_perm l : by_age l ≡ₚ l.
Proof. induction l as [|x l IH]; simpl; [done|]. by rewrite insert_by_age_perm, IH. Qed.

(** Taking the first of the earliest entries out is one step of the sort. *)
Lemma by_age_first l i id c :
  l !! i = Some (id, c) -> later_before c i l -> earliest c l ->
  by_age l = (id, c) :: by_age (delete i l).
Proof.
  revert i. induction l as [|x l IH]; intros [|i] Hi Hfirst Hmin; simpl in *; try done.
  - injection Hi as ->. assert (forall e, e ∈ by_age l -> (c <= snd e)%Z) as Hle.
    { intros e. rewrite by_age_perm. intros [k Hk]%list_elem_of_lookup. by apply (Hmin (S k)). }
    destruct (by_age l) as [|y m]; simpl; [done|].
    rewrite (proj2 (Z.leb_le c (snd y))); [done|]. apply Hle. by left.
  - unfold delete in IH. rewrite (IH i Hi); [|intros k e Hk; apply (Hfirst (S k)); lia|intros k; apply (Hmin (S k))].
    simpl. rewrite (proj2 (Z.leb_gt (snd x) c)); [done|]. apply (Hfirst 0); [lia|done].
Qed.

(** The eviction ends at the cap. *)
Lemma wp_evict u X fuel live stale (Q : option (list string) -> mstate -> Prop) w :
  sok w -> pruning u X stale (keyspace w) -> length live <= fuel + maxSessionsPerUsr ->
  (forall r w', (server_ms w <= server_ms w')%Z -> sok w' ->
     match r with
     | None => ~ reliable
     | Some stale' =>
         pruning u X stale' (keyspace w') /\
         stale' = stale ++ (fst <$> take (length live - maxSessionsPerUsr) (by_age live))
     end -> Q r w') ->
  wp (interp (evict fuel live stale)) Q w.
Proof.
  revert live stale w. induction fuel as [|fuel IH]; intros lv stale w Hw HP Hlen HQ; cbn [evict].
  - rewrite (proj2 (Nat.leb_le _ _)) by lia. apply HQ; [done..|]. split; [done|].
    by rewrite (proj2 (Nat.sub_0_le _ _)), app_nil_r by lia.
  - destruct (length lv <=? maxSessionsPerUsr) eqn:Hle.
    { apply Nat.leb_le in Hle. apply HQ; [done..|]. split; [done|].
      by rewrite (proj2 (Nat.sub_0_le _ _)), app_nil_r by lia. }
    apply Nat.leb_gt in Hle.
    destruct (oldest_first lv) as (id & c & Hid & Hfirst & Hmin); [by destruct lv; simpl in Hle; [lia|]|].
    rewrite Hid, wp_interp_bind.
    apply (wp_del_session secs id _ _ (fun m => pruning u X stale m)); [done..| |].
    + intros t m [Hi Hs]. split; [by apply index_within_delete, index_within_live|].
      intros id' Hid'. apply (without_session_delete stale id _ (without_session_live _ t _ Hs)), elem_of_snoc. by left.
    + assert (length (delete (oldest lv) lv) = pred (length lv)) as Hdel by (rewrite length_delete; [lia|eauto]).
      intros r w1 Ht Hok HP1 Hgone. destruct r as [e|[]].
      * apply HQ; [done..|]. intros Hrel. by apply Hrel in Hgone.
      * apply IH; [done| |lia|].
        -- split; [apply HP1|]. apply without_session_snoc; [apply HP1|]. unfold session_at. by rewrite Hgone.
        -- intros r' w2 Ht2 Hok2 Hr'. apply HQ; [lia|done|]. destruct r' as [stale'|]; [|done].
           destruct Hr' as (HP2 & ->). split; [done|].
           rewrite (by_age_first _ _ _ _ Hid Hfirst Hmin), Hdel, <- app_assoc.
           by replace (length lv - maxSessionsPerUsr) with (S (pred (length lv) - maxSessionsPerUsr)) by lia.
Qed.

Lemma srem_within rules t u X ids m :
  index_within u X m -> index_within u (X ∖ list_to_set ids) (effect rules t (SRem (index_key u) ids) m).
Proof.
  intros (S & d & Hg & HS). unfold index_within, effect. simpl. rewrite Hg. simpl. unfold get_set.
  rewrite put_set_eq. destruct (decide _); [exists ∅, None|exists (S ∖ list_to_set ids), d];
    (split; [done|set_solver]).
Qed.

(** Taking ids off an index is never an error: an index is a set. *)
Lemma srem_reply t lo hi u ids m rs m' :
  sessions_ok (abs_ms secs) lo hi m ->
  request_spec ttls t (Pipeline [SRem (index_key u) ids]) m rs m' -> first_error rs = None.
Proof.
  intros Hm Hs. simpl in Hs. destruct rs as [|r [|]]; try tauto. destruct Hs as [Hr _].
  unfold reply_ok in Hr. simpl in Hr.
  assert (exists S d, get_set (live t m) (index_key u) = Some (S, d)) as (S & d & Hg).
  { unfold get_set. destruct (live t m !! index_key u) as [e|] eqn:E; [|eauto].
    apply live_lookup_Some in E as [E _]. destruct (so_indexes _ _ _ _ Hm u e E) as [S HS].
    destruct e as [v d]. simpl in HS. subst v. eauto. }
  rewrite Hg in Hr. simpl in Hr. by subst r.
Qed.

(** The index of [u] has at most as many entries as sessions are allowed. *)
Definition capped (u : string) (w : mstate) : Prop :=
  exists X, size X <= maxSessionsPerUsr /\ index_within u X (keyspace w).

Lemma wp_trimSessions u (Q : unit -> mstate -> Prop) w :
  sok w ->
  (forall w', (server_ms w <= server_ms w')%Z -> sok w' -> (reliable -> capped u w') -> Q tt w') ->
  wp (interp (trimSessions u)) Q w.
Proof.
  intros Hw HQ. unfold trimSessions. rewrite wp_interp_bind.
  apply (wp_redis_smembers _ (sok_from w)); [intros hi; by apply sok_start|intros hi t m Ht; apply sok_live; lia|].
  intros r w1 Ht Hok Hr. apply sok_end in Hok; [|done]. destruct r as [e|ids].
  { apply HQ; [done..|]. intros Hrel. destruct Hr as [Hr|Hr]; [by apply Hrel in Hr|].
    destruct (get_set_index _ _ _ _ u Hok) as (S & d & Hg & _). congruence. }
  destruct Hr as (S & d & Hg & Hids).
  assert (index_within u (list_to_set ids) (keyspace w1)) as Hin.
  { exists S, d. split; [done|]. intros id Hid. apply elem_of_list_to_set. rewrite Hids. by apply elem_of_elements. }
  assert (forall kp : list string, length kp <= maxSessionsPerUsr -> size (list_to_set kp : gset string) <= maxSessionsPerUsr) as Hsize.
  { intros kp Hkp. etransitivity; [|exact Hkp]. apply size_list_to_set_le. }
  destruct (length ids <=? maxSessionsPerUsr) eqn:Hlen.
  { apply Nat.leb_le in Hlen. apply HQ; [done..|]. intros _. exists (list_to_set ids). auto. }
  rewrite wp_interp_bind.
  apply (wp_scan u (list_to_set ids)); [done|split; [done|by intros id ?%elem_of_nil]|].
  intros r w2 Ht2 Hok2 Hr. destruct r as [[lv stale]|]; [|by apply HQ; [lia|..]].
  destruct Hr as [HP2 Hperm]. rewrite wp_interp_bind.
  apply (wp_evict u (list_to_set ids)); [done..|lia|].
  intros r w3 Ht3 Hok3 Hr.
  destruct r as [stale'|]; [|by apply HQ; [lia|..]].
  destruct Hr as (HP3 & Hstale).
  set (kp := fst <$> drop (length lv - maxSessionsPerUsr) (by_age lv)).
  assert (length kp <= maxSessionsPerUsr) as Hkp.
  { unfold kp. rewrite length_fmap, length_drop, (Permutation_length (by_age_perm lv)). lia. }
  assert (kp ++ stale' ≡ₚ ids) as Hall.
  { rewrite Hstale, (Permutation_app_comm stale), app_assoc. unfold kp.
    rewrite (Permutation_app_comm (fst <$> drop _ _)), <- fmap_app, take_drop, by_age_perm. exact Hperm. }
  destruct stale' as [|id stale'].
  { apply HQ; [lia|done|]. intros _. exists (list_to_set kp). split; [by apply Hsize|].
    eapply index_within_mono; [|apply HP3]. intros i. rewrite !elem_of_list_to_set, <- Hall. by rewrite app_nil_r. }
  rewrite wp_interp_bind.
  apply (wp_redis_run _ (fun hi m => sok_from w3 hi m /\ pruning u (list_to_set ids) (id :: stale') m)).
  - intros hi Hhi. split; [by apply sok_start|done].
  - intros hi t m rs m' Ht' [HI HPm] Hs. simpl in Hs. destruct rs as [|? [|]]; try tauto.
    destruct Hs as [_ ->]. destruct (pruning_live _ _ _ t _ HPm) as [Hi' Hws]. split; [|split].
    + apply srem_ok; [exact Hws|]. apply sessions_ok_live; [lia|done].
    + eapply index_within_mono; [|by apply srem_within]. set_solver.
    + intros i Hi. unfold session_at. rewrite effect_frame by (simpl; by rewrite list_elem_of_singleton).
      by apply Hws.
  - intros r w4 Ht4 [HI HPm] Hr. apply wp_interp_ret. apply HQ; [lia|by apply (sok_end _ w3)|].
    intros Hrel. destruct r as [e|[]].
    { destruct Hr as [Hr|(m & rs & [HI' _] & Hs & He)]; [by apply Hrel in Hr|].
      by rewrite (srem_reply _ _ _ _ _ _ _ _ HI' Hs) in He. }
    destruct Hr as (m & rs & [_ HPm'] & Hs). simpl in Hs. destruct rs as [|? [|]]; try tauto.
    destruct Hs as [_ Hs]. exists (list_to_set kp). split; [by apply Hsize|]. rewrite Hs.
    eapply index_within_mono; [|apply srem_within, index_within_live, HPm'].
    intros i [Hi1 Hi2]%elem_of_difference. rewrite elem_of_list_to_set in Hi1, Hi2.
    rewrite <- Hall in Hi1. apply elem_of_app in Hi1 as [?|?]; [by apply elem_of_list_to_set|done].
Qed.

(** What a successful [Create] returns. *)
Record created (u ip ua token : string) (s : Session) (w w' : mstate) : Prop := {
  cr_id : ID s = hashToken token;
  cr_user : UserID s = u;
  cr_expires : ExpiresAt s = (CreatedAt s + absoluteTTL store)%Z;
  cr_time : (server_ms w <= CreatedAt s / 1000000 <= server_ms w')%Z;
  cr_capped : reliable -> capped u w'
}.

Lemma wp_Create u ip ua (Q : error + string * Session -> mstate -> Prop) w :
  sok w -> is_ascii u = true ->
  (forall r w', (server_ms w <= server_ms w')%Z -> sok w' ->
     match r with inl _ => True | inr (token, s) => created u ip ua token s w w' end -> Q r w') ->
  wp (interp (Create store u ip ua)) Q w.
Proof.
  intros Hw Hu HQ. unfold Create. rewrite wp_interp_bindE. apply wp_newToken. intros r w1 Hk1 Ht1.
  pose proof (sok_same _ _ _ Ht1 Hk1 Hw) as Hok1.
  destruct r as [e|token]; [by apply HQ|].
  rewrite wp_interp_bind. apply wp_now. intros n w2 Hk2 Hn.
  assert (sok w2) as Hok2 by (eapply sok_same; [|exact Hk2|exact Hok1]; lia).
  set (sess := mkSession _ u n _ n ip _).
  destruct (marshal sess) as [p|] eqn:Hm; [|apply wp_interp_fails, HQ; [lia|done..]].
  destruct (marshal_unmarshal sess p Hu Hm) as (s' & Hs' & Hu' & _ & He' & _).
  rewrite wp_interp_bindE. apply wp_wrapped.
  assert (forall t hi m rs m', (server_ms w2 <= t <= hi)%Z -> sok_from w2 hi m ->
    request_spec ttls t (Pipeline [Set_ (session_key (ID sess)) p (ttlFor store sess n);
      SAdd (index_key u) [ID sess]; Expire (index_key u) (absoluteTTL store)]) m rs m' ->
    sok_from w2 hi m') as Hstep.
  { intros t hi m rs m' Ht HI Hs.
    eapply (create_ok _ ttls t (server_ms w2) hi); [exact Hs|by apply expire_abs|unfold abs_ms; lia|done|exact Hs'|done..| |exact HI].
    rewrite He'. cbn [ExpiresAt sess]. rewrite (expiry_ms store secs) by done. lia. }
  apply (wp_redis _ (sok_from w2)); [intros hi; by apply sok_start|intros hi t m rs m' Ht; by apply Hstep|..].
  - intros e w3 Ht3 HI _. apply HQ; [lia|by apply (sok_end _ w2)|done].
  - intros m rs w3 Ht3 HI Hs _. apply (Hstep _ (server_ms w3)) in Hs; [|lia|done]. apply sok_end in Hs; [|done].
    rewrite wp_interp_bind. apply wp_trimSessions; [done|]. intros w4 Ht4 Hok4 Hcap.
    apply wp_interp_succeeds. apply HQ; [lia|done|]. split; try done. cbn. lia.
Qed.
End create.
