(* ===== verification/SessionTheorems.v ===== *)
(** * The properties of sessions and tickets *)

From S2P Require Import Prelude GoStrings Crypto Effects RedisSpec PostgresSpec Sim RateLimit Sessions.
From S2P Require Import SessionFacts SessionOps SessionCreate.

(** ** Which operations write which keys *)

Section avoids.
Context `{SJ : SessionJson}.
Variable store : SessionStore.
Variable id : string.

Lemma revokeByID_avoids u i : avoids (session_key id) (revokeByID u i).
Proof. unfold revokeByID. avoid. Qed.

Lemma Get_avoids token : avoids (session_key id) (Get_ token).
Proof. unfold Get_. avoid. apply revokeByID_avoids. Qed.

Lemma Revoke_avoids token : avoids (session_key id) (Revoke token).
Proof. unfold Revoke. avoid. apply revokeByID_avoids. Qed.

Lemma RevokeAll_avoids u except : avoids (session_key id) (RevokeAllForUser store u except).
Proof. unfold RevokeAllForUser. avoid. Qed.

Lemma scan_avoids ids live stale : avoids (session_key id) (scan ids live stale).
Proof. revert live stale. induction ids as [|i ids IH]; intros live stale; cbn [scan]; avoid; auto. Qed.

Lemma evict_avoids fuel live stale : avoids (session_key id) (evict fuel live stale).
Proof. revert live stale. induction fuel as [|fuel IH]; intros live stale; cbn [evict]; avoid; auto. Qed.

Lemma trimSessions_avoids u : avoids (session_key id) (trimSessions u).
Proof. unfold trimSessions. avoid; auto using scan_avoids, evict_avoids. Qed.

Lemma Issue_avoids u : avoids (session_key id) (IssueWSTicket store u).
Proof. unfold IssueWSTicket, newToken. avoid. Qed.

Lemma Redeem_avoids ticket : avoids (session_key id) (RedeemWSTicket ticket).
Proof. unfold RedeemWSTicket. avoid. Qed.

(** Only a [Touch] of the very session writes its key. *)
Lemma Touch_avoids s : ID s <> id -> avoids (session_key id) (Touch store s).
Proof.
  intros Hs. unfold Touch. apply avoids_bind; [by apply avoids_call|]. intros now. case_match; [done|].
  case_match; [|done]. apply avoids_wrapped, avoids_redis_run. simpl. rewrite list_elem_of_singleton.
  by intros ?%session_key_inj.
Qed.
End avoids.

(** ** The system: one operation after the other *)

(** [DoRequest] is what [Require] does with a token: look the session up and slide
    its idle window. *)
Inductive session_op :=
| DoLogin (user ip userAgent : string)
| DoRequest (token : string)
| DoLogout (token : string)
| DoLogoutAll (user exceptToken : string).

Section system.
Context `{RL : RedisLaws} {CL : ClockLaws _} `{JL : SessionJsonLaws}.
Variable store : SessionStore.

Definition run_op (o : session_op) : prog unit :=
  match o with
  | DoLogin u ip ua => Create store u ip ua ;~ Ret tt
  | DoRequest token =>
      r <~ Get_ token ;;
      match r with inl _ => Ret tt | inr s => Touch store s ;~ Ret tt end
  | DoLogout token => Revoke token ;~ Ret tt
  | DoLogoutAll u except => RevokeAllForUser store u except ;~ Ret tt
  end.

(** User ids are uuids, so ASCII. *)
Definition op_ok (o : session_op) : Prop :=
  match o with DoLogin u _ _ => is_ascii u = true | _ => True end.

(** The states that operations run one after the other reach; each may fail at any of
    its requests. Overlapping operations reach others ([SharedSessions.v] says what
    holds in those). *)
Inductive reachable : mstate -> Prop :=
| reach_start w : keyspace w = ∅ -> reachable w
| reach_run o w w' : reachable w -> op_ok o -> interp (run_op o) w = Ok (tt, w') -> reachable w'
| reach_other w w' :   (* time passes, other components use their own keys *)
    reachable w -> (server_ms w <= server_ms w')%Z ->
    aged (server_ms w') (keyspace w) (keyspace w') -> reachable w'.

Variable secs : Z.
Hypothesis absolute_secs : absoluteTTL store = (secs * 1000000000)%Z.
Hypothesis secs_pos : (0 < secs)%Z.

Lemma run_op_ok o w : sok secs w -> op_ok o -> wp (interp (run_op o)) (fun _ w' => sok secs w') w.
Proof.
  intros Hw Ho. destruct o as [u ip ua|token|token|u except]; cbn [run_op]; rewrite wp_interp_bind.
  - eapply wp_Create; [done..|]. intros r w' _ Hok _. done.
  - eapply wp_Get_; [done..|]. intros r w' _ Hok Hr. destruct r as [e|s]; [done|].
    rewrite wp_interp_bind. eapply wp_Touch; [done..|by eapply found_known|done].
  - eapply wp_Revoke; [done..|]. intros r w' _ Hok _. done.
  - eapply wp_RevokeAllForUser; [done..|]. intros r w' _ Hok _. done.
Qed.

Lemma reachable_ok w : reachable w -> sok secs w.
Proof.
  induction 1 as [w Hw|o w w' _ IH Ho Hrun|w w' _ IH Ht Hk].
  - unfold sok. rewrite Hw. split; intros ? ?; unfold session_at; by rewrite lookup_empty.
  - pose proof (run_op_ok o w IH Ho) as Hp. unfold wp in Hp. by rewrite Hrun in Hp.
  - apply (sok_end _ w); [done|]. eapply sessions_ok_aged; [|exact Hk|]; [lia|]. by apply sok_start.
Qed.

(** ** Properties *)

(** C25: as long as the operations of the store run one after the other, with an
    absolute lifetime in whole seconds, and whatever requests to Redis failed or were
    resent in between: every stored session that has not passed its absolute expiry is
    listed in its user's index, and the index will not expire before it. Neither
    condition can be spared: operations that overlap can lose an entry of the index,
    and with a fraction of a second the index can expire first. *)
Theorem session_index_complete w id s :
  reachable w ->
  session_at (keyspace w) id = Some s ->
  (server_ms w <= ExpiresAt s / 1000000)%Z ->
  indexed (keyspace w) id s.
Proof. intros Hw Hs HE. by apply (so_sessions _ _ _ _ (reachable_ok w Hw)). Qed.

(** A user whose index lists one id at most has no other session. *)
Lemma get_within token u id w r w' :
  sok secs w -> index_within u {[id]} (keyspace w) ->
  interp (Get_ token) w = Ok (r, w') ->
  forall s, r = inr s -> UserID s = u -> hashToken token = id.
Proof.
  intros Hok Hin Hget.
  enough (wp (interp (Get_ token)) (fun r _ => forall s, r = inr s -> UserID s = u ->
    hashToken token = id) w) as Hp by (unfold wp in Hp; rewrite Hget in Hp; by eapply Hp).
  eapply wp_Get_; [done..|]. intros r' w'' Ht Hok' Hr s' -> Hu'.
  destruct Hr as [Hsh _ (S & d & Hidx & Hmem & _) _]. rewrite Hu' in Hidx. apply Hsh in Hidx.
  destruct Hin as (S' & d' & Hg & HS). unfold get_set in Hg. rewrite Hidx in Hg.
  injection Hg as -> _. set_solver.
Qed.

(** C4: in a state reached by operations one after the other, with an absolute lifetime
    in whole seconds: after a successful [RevokeAllForUser] a lookup that follows it
    resolves no token to a session of that user, but for the token that was to be kept.
    A [Touch] or [Create] that overlaps it can escape it. *)
Theorem revoke_all_complete u except n token w w1 r w2 :
  reachable w ->
  interp (RevokeAllForUser store u except) w = Ok (inr n, w1) ->
  interp (Get_ token) w1 = Ok (r, w2) ->
  forall s, r = inr s -> UserID s = u -> hashToken token = kept except.
Proof.
  intros Hw Hall Hget s -> Hu.
  assert (sok secs w1 /\ index_within u {[kept except]} (keyspace w1)) as [Hok Hin].
  { enough (wp (interp (RevokeAllForUser store u except)) (fun r w' => sok secs w' /\
      match r with inl _ => True | inr _ => index_within u {[kept except]} (keyspace w') end) w) as Hp
      by (unfold wp in Hp; by rewrite Hall in Hp).
    eapply wp_RevokeAllForUser; [done..|by apply reachable_ok|]. intros r w' _ Hok Hr. by destruct r. }
  by eapply (get_within token u _ w1 (inr s)).
Qed.

(** C34: once a session has been revoked no lookup of its token succeeds again,
    however any number of other operations interleave afterwards, as long as none
    of them can write that session's key; [op_avoids] shows that of the
    operations of the store only a [Touch] that already holds the session can. *)
Theorem revoked_stays_revoked {A} token w w1 (ps ps' : list (prog A)) w2 r w3 :
  reachable w ->
  interp (Revoke token) w = Ok (inr tt, w1) ->
  Forall (avoids (session_key (hashToken token))) ps ->
  pool_steps (ps, w1) (ps', w2) ->
  interp (Get_ token) w2 = Ok (r, w3) ->
  exists e, r = inl e.
Proof.
  intros Hw Hrev Hps Hsteps Hget. set (k := session_key (hashToken token)) in *.
  assert (keyspace w1 !! k = None) as Hgone.
  { enough (wp (interp (Revoke token)) (fun r w' => r = inr tt -> keyspace w' !! k = None) w) as Hp
      by (unfold wp in Hp; rewrite Hrev in Hp; by apply Hp).
    eapply wp_Revoke; [by apply reachable_ok|]. intros r' w' _ _ Hg. exact Hg. }
  destruct (pool_kept k (ps, w1) (ps', w2) Hps Hsteps) as (_ & Hkept & _). simpl in Hkept.
  assert (keyspace w2 !! k = None) as Hgone2 by (destruct Hkept as [->|]; done).
  enough (wp (interp (Get_ token)) (fun r _ => exists e, r = inl e) w2) as Hp
    by (unfold wp in Hp; by rewrite Hget in Hp).
  unfold Get_. fold k. rewrite wp_interp_bindE. apply wp_wrapped.
  apply (wp_redis_get _ (fun _ m => m !! k = None)); [done|..].
  - intros hi t m _ Hm. by destruct (live_kept k t m) as [->|].
  - intros r' w' _ Hk Hr'. destruct r' as [e|[raw|]]; [eauto| |eexists; done].
    destruct Hr' as [d Hd]. congruence.
Qed.

(** The operations of the store leave alone the key of a session they do not
    hold. *)
Lemma op_avoids id :
  (forall token, avoids (session_key id) (Get_ token)) /\
  (forall token, avoids (session_key id) (Revoke token)) /\
  (forall u except, avoids (session_key id) (RevokeAllForUser store u except)) /\
  (forall u, avoids (session_key id) (trimSessions u)) /\
  (forall u, avoids (session_key id) (IssueWSTicket store u)) /\
  (forall ticket, avoids (session_key id) (RedeemWSTicket ticket)) /\
  (forall s, ID s <> id -> avoids (session_key id) (Touch store s)).
Proof.
  split; [|split; [|split; [|split; [|split; [|split]]]]]; intros; auto using Get_avoids, Revoke_avoids,
    RevokeAll_avoids, trimSessions_avoids, Issue_avoids, Redeem_avoids, Touch_avoids.
Qed.

(** C33: a lookup only ever yields a session that is stored under the token's
    hash and that has not passed its absolute expiry; a session past it is
    refused, and deleted when Redis answers. *)
Theorem absolute_expiry_enforced token w r w' :
  reachable w ->
  interp (Get_ token) w = Ok (r, w') ->
  match r with
  | inr s => ID s = hashToken token /\ (server_ms w <= ExpiresAt s / 1000000)%Z /\
      exists s0, session_at (keyspace w) (hashToken token) = Some s0 /\ s = set_id (hashToken token) s0
  | inl e => e = ErrSessionNotFound -> keyspace w' !! session_key (hashToken token) = None
  end.
Proof.
  intros Hw Hget.
  enough (wp (interp (Get_ token)) (fun r w' => match r with
    | inr s => ID s = hashToken token /\ (server_ms w <= ExpiresAt s / 1000000)%Z /\
        exists s0, session_at (keyspace w) (hashToken token) = Some s0 /\ s = set_id (hashToken token) s0
    | inl e => e = ErrSessionNotFound -> keyspace w' !! session_key (hashToken token) = None
    end) w) as Hp by (unfold wp in Hp; by rewrite Hget in Hp).
  eapply wp_Get_; [by apply reachable_ok|]. intros r' w1 Ht _ Hr. destruct r' as [e|s]; [done|].
  destruct Hr as [Hsh (s0 & Hs0 & ->) _ (n & Hn & Hclk)]. split; [done|]. split.
  - transitivity (n / 1000000)%Z; [lia|]. by apply Z.div_le_mono.
  - exists s0. split; [|done]. unfold session_at in *.
    destruct (keyspace w1 !! _) as [e|] eqn:E; [|done]. apply Hsh in E. by rewrite E.
Qed.

(** C26: while Redis answers and the operations of the store run one after the other,
    with an absolute lifetime in whole seconds, a successful [Create] leaves the user
    with at most twenty sessions that have not passed their absolute expiry. *)
Theorem session_cap u ip ua token s w w' ids :
  reachable w -> is_ascii u = true -> reliable ->
  interp (Create store u ip ua) w = Ok (inr (token, s), w') ->
  NoDup ids ->
  (forall id, id ∈ ids -> exists s', session_at (keyspace w') id = Some s' /\ UserID s' = u /\
     (server_ms w' <= ExpiresAt s' / 1000000)%Z) ->
  length ids <= maxSessionsPerUsr.
Proof.
  intros Hw Hu Hrel Hrun Hnd Hids.
  assert (sok secs w' /\ capped u w') as [Hok (X & HX & S & d & Hg & HS)].
  { enough (wp (interp (Create store u ip ua)) (fun r w' => match r with
      | inr _ => sok secs w' /\ capped u w' | inl _ => True end) w) as Hp
      by (unfold wp in Hp; by rewrite Hrun in Hp).
    eapply wp_Create; [done..|by apply reachable_ok|done|]. intros r w1 _ Hok Hr.
    destruct r as [e|[tok s']]; [done|]. split; [done|]. by apply (cr_capped _ _ _ _ _ _ _ _ Hr). }
  assert (list_to_set ids ⊆ S) as Hsub.
  { intros id Hid%elem_of_list_to_set. destruct (Hids id Hid) as (s' & Hs' & Hu' & HE).
    destruct (proj2 (so_sessions _ _ _ _ Hok id s' Hs') HE) as (S' & d' & Hi & Hmem & _).
    unfold get_set in Hg. rewrite <- Hu', Hi in Hg. by injection Hg as -> _. }
  apply subseteq_size in Hsub. apply subseteq_size in HS. rewrite size_list_to_set in Hsub by done. lia.
Qed.

(** C27: while Redis answers, the eviction of the sessions above the cap always
    ends, and what it drops is what sorting the sessions by age and cutting off the
    excess would: the oldest ones, of two of one age the one seen first; none of
    them resolves afterwards. *)
Theorem eviction_drops_oldest entries w :
  reachable w -> reliable ->
  exists w', interp (evict (length entries) entries []) w =
      Ok (Some (fst <$> take (length entries - maxSessionsPerUsr) (by_age entries)), w') /\
    forall id, id ∈ fst <$> take (length entries - maxSessionsPerUsr) (by_age entries) ->
      session_at (keyspace w') id = None.
Proof.
  intros Hw%reachable_ok Hrel. destruct (get_set_index _ _ _ _ "" Hw) as (S & d & Hg & _).
  assert (wp (interp (evict (length entries) entries [])) (fun r w' =>
    r = Some (fst <$> take (length entries - maxSessionsPerUsr) (by_age entries)) /\
    forall id, id ∈ fst <$> take (length entries - maxSessionsPerUsr) (by_age entries) ->
      session_at (keyspace w') id = None) w) as Hp.
  { apply (wp_evict secs "" S); [done| |lia|].
    - split; [by exists S, d|by intros id ?%elem_of_nil].
    - intros [stale'|] w' _ _ Hr; [|by destruct Hr]. destruct Hr as [[_ Hgone] ->]. done. }
  destruct (wp_run _ _ _ Hp) as (r & w' & Hr & -> & Hgone). by exists w'.
Qed.
End system.

(** ** Tickets: any number of redeemers at once *)

Definition redeemed (p : prog (error + string)) : bool :=
  match p with Ret (inr _) => true | _ => false end.

Section tickets.
Context `{RL : RedisLaws}.
Variable ticket : string.

Let k := ticket_key ticket.

Lemma Redeem_avoids_ticket t : avoids k (RedeemWSTicket t).
Proof. unfold RedeemWSTicket. avoid. Qed.

(** What one execution of [GETDEL] does. *)
Lemma getdel_spec rules t m rs m' :
  request_spec rules t (Pipeline [GetDel k]) m rs m' ->
  kept_or_gone k m m' /\
  (forall s, rs = [RBulk s] -> m !! k <> None /\ m' !! k = None).
Proof.
  intros Hs. split; [by eapply request_kept, Hs; repeat constructor; apply not_elem_of_nil|].
  intros s ->. simpl in Hs. destruct Hs as [Hr ->]. unfold reply_ok, effect in *. simpl in *.
  rewrite live_lookup in *. destruct (m !! k) as [e|]; [|done]. split; [done|].
  destruct (alive t e); [|done]. destruct e as [[v|v] d]; [|done]. simpl. by rewrite lookup_delete_eq.
Qed.

(** The answer a redeemer gets settles it. *)
Lemma redeem_advance p w w' :
  advance (RedeemWSTicket ticket) w = Some (p, w') ->
  (exists r, p = Ret r) /\ kept_or_gone k (keyspace w) (keyspace w') /\
  (redeemed p = true -> keyspace w !! k <> None /\ keyspace w' !! k = None).
Proof.
  intros Ha. unfold RedeemWSTicket, wrapped, redis_string, redis, bindE, call in Ha. simpl in Ha. fold k in Ha.
  destruct (respond _ (Redis (Pipeline [GetDel k])) w) as [o w1] eqn:E. injection Ha as <- <-.
  destruct (redis_answer _ _ _ _ E) as (m & Hatt & Hm).
  assert (kept_or_gone k (keyspace w) m) as Hk.
  { clear Hm E. induction Hatt as [|m1 m2 m3 (t & rs & _ & Hs) _ IH]; [by left|].
    apply getdel_spec in Hs as [Hs _]. by eapply kept_or_gone_trans. }
  destruct o as [rs|]; simpl; [|rewrite Hm; split; [eexists; done|done]].
  apply getdel_spec in Hm as [Hm Hb]. split; [repeat (case_match; simpl; eauto)|].
  split; [by eapply kept_or_gone_trans|]. destruct (first_error rs); [done|].
  destruct rs as [|[| |s| | |] [|]]; simpl; try done. intros _.
  destruct (Hb s eq_refl) as [Hm0 Hm1]. split; [|done]. intros Hn. destruct Hk as [Hk|Hk]; congruence.
Qed.

(** [n] redeemers of the ticket among other programs that cannot issue it. *)
Record redeem_inv (n : nat) (s : list (prog (error + string)) * mstate) : Prop := {
  ri_threads : Forall (fun p => p = RedeemWSTicket ticket \/ exists r, p = Ret r) (take n s.1);
  ri_avoids : Forall (avoids k) s.1;
  ri_count : count_if redeemed (take n s.1) = 0%Z \/
    (count_if redeemed (take n s.1) = 1%Z /\ keyspace s.2 !! k = None)
}.

Lemma redeem_step n s s' : redeem_inv n s -> pool_step s s' -> redeem_inv n s'.
Proof.
  intros [Hthr Hav Hcnt] Hstep. destruct (pool_kept k s s' Hav (rtc_once _ _ Hstep)) as (Hav' & Hkept & _).
  destruct Hstep as [ps i p p' w w' Hi Ha]. simpl in *. destruct (decide (i < n)) as [Hin|Hout].
  - assert (take n ps !! i = Some p) as Hti by (by rewrite lookup_take_lt).
    destruct (Forall_lookup_1 _ _ _ _ Hthr Hti) as [->|[r ->]]; [|done].
    apply redeem_advance in Ha as ([r ->] & _ & Hred).
    split; simpl; [rewrite take_insert_lt by done; apply Forall_insert; eauto|done|].
    rewrite take_insert_lt, (count_if_insert _ _ _ _ _ Hti) by done. simpl.
    destruct r as [e|u]; simpl.
    + destruct Hcnt as [->|[-> Hn]]; [by left|right]. split; [done|]. destruct Hkept; congruence.
    + destruct (Hred eq_refl) as [H1' H2']. destruct Hcnt as [->|[_ Hn]]; [by right|done].
  - split; simpl; rewrite ?take_insert_ge by lia; [done..|].
    destruct Hcnt as [Hc|[Hc Hn]]; [by left|right]. split; [done|]. destruct Hkept; congruence.
Qed.

(** C19: a websocket ticket is redeemed at most once: of any number of concurrent
    redemptions, interleaved call by call with any programs that do not issue the
    same ticket, with resends and failures, at most one yields a user. *)
Theorem ticket_single_use n others w ps w' :
  Forall (avoids (ticket_key ticket)) others ->
  pool_steps (replicate n (RedeemWSTicket ticket) ++ others, w) (ps, w') ->
  (count_if redeemed (take n ps) <= 1)%Z.
Proof.
  intros Hothers Hsteps.
  assert (redeem_inv n (ps, w')) as [_ _ Hcnt]; [|simpl in Hcnt; lia].
  assert (redeem_inv n (replicate n (RedeemWSTicket ticket) ++ others, w)) as Hinv.
  { assert (take n (replicate n (RedeemWSTicket ticket) ++ others) = replicate n (RedeemWSTicket ticket)) as Ht
      by (rewrite take_app_le, take_ge; rewrite ?length_replicate; done).
    split; simpl; rewrite ?Ht.
    - apply Forall_replicate. by left.
    - apply Forall_app. split; [apply Forall_replicate, Redeem_avoids_ticket|done].
    - left. apply count_if_none. by apply Forall_replicate. }
  revert Hinv. induction Hsteps as [|s1 s2 s3 Hstep _ IH]; [done|].
  intros Hinv. apply IH. by eapply redeem_step.
Qed.
End tickets.
