(* ===== verification/SessionExamples.v ===== *)
(** * Sessions and tickets, run

    The properties of [SessionTheorems.v] applied on concrete machines, and the
    interleaving in which a revoked session comes back. *)

From S2P Require Import Prelude GoStrings Crypto Effects RedisSpec PostgresSpec Sim RateLimit Sessions.
From S2P Require Import SessionFacts SessionOps SessionCreate SessionTheorems.
From Stdlib Require Import Ascii.

(** ** A text form of sessions *)

Definition in_range (z : Z) : bool := (0 <=? z)%Z && (z <? 2 ^ 63)%Z.

Definition demo_marshal (s : Session) : option string :=
  if in_range (CreatedAt s) && in_range (ExpiresAt s) && in_range (LastSeenAt s)
  then Some (itoa (CreatedAt s) +:+ " " +:+ itoa (ExpiresAt s) +:+ " " +:+ itoa (LastSeenAt s)
    +:+ " " +:+ UserID s)
  else None.

Definition demo_unmarshal (p : string) : option Session :=
  '(c, r) ← scan_int p; r ← scan_literal " " r;
  '(e, r) ← scan_int r; r ← scan_literal " " r;
  '(l, r) ← scan_int r; u ← scan_literal " " r;
  Some (mkSession "" u c e l "" "").

#[export] Instance demo_json : SessionJson := {| marshal := demo_marshal; unmarshal := demo_unmarshal |}.

Lemma in_range_spec z : in_range z = true <-> (0 <= z < 2 ^ 63)%Z.
Proof. unfold in_range. rewrite andb_true_iff, Z.leb_le, Z.ltb_lt. done. Qed.

#[export] Instance demo_json_laws : SessionJsonLaws (H := demo_json).
Proof.
  split. intros s p _ Hp. simpl in Hp. unfold demo_marshal in Hp.
  destruct (_ && _) eqn:E; [|done]. injection Hp as <-.
  apply andb_true_iff in E as [[H1%in_range_spec H2%in_range_spec]%andb_true_iff H3%in_range_spec].
  exists (mkSession "" (UserID s) (CreatedAt s) (ExpiresAt s) (LastSeenAt s) "" ""). split; [|done].
  simpl. unfold demo_unmarshal. rewrite scan_int_itoa by done. cbn [mbind option_bind].
  rewrite scan_literal_app. cbn [mbind option_bind]. rewrite scan_int_itoa by done. cbn [mbind option_bind].
  rewrite scan_literal_app. cbn [mbind option_bind]. rewrite scan_int_itoa by done. cbn [mbind option_bind].
  rewrite scan_literal_app. done.
Qed.

(** ** A small history *)

Definition Day : Z := 24 * Hour.

(** The defaults of [src/internal/config/config.go]. *)
Definition demo_store : SessionStore := mkSessionStore (7 * Day) (30 * Day) 30000000000.

Definition demo_secs : Z := 2592000.

Definition ann : string := "00000000-0000-4000-8000-00000000000a".

Definition t0 : Z := 1700000000000000000.

(** The tokens the machine draws first and second. *)
Definition token1 : string := b64_raw_encode alphabet_url (be_bytes 32 1).
Definition token2 : string := b64_raw_encode alphabet_url (be_bytes 32 2).

(** Ann logs in twice. *)
Definition login : prog unit := run_op demo_store (DoLogin ann "192.0.2.1" "browser").
Definition logged_in : machine := after login (after login (start t0)).

Lemma reach_after o (w : machine) :
  reachable demo_store w -> op_ok o -> result (run_op demo_store o) w = Some tt ->
  reachable demo_store (after (run_op demo_store o) w).
Proof. intros Hw Ho Hr. eapply reach_run; [exact Hw|exact Ho|]. by apply interp_result. Qed.

Lemma logged_in_reachable : reachable demo_store logged_in.
Proof.
  apply reach_after; [apply reach_after; [by apply reach_start| |]| |]; by vm_compute.
Qed.

Lemma session_index_complete_witness :
  exists s, session_at (keyspace logged_in) (hashToken token1) = Some s /\
    indexed (keyspace logged_in) (hashToken token1) s.
Proof.
  eexists. assert (session_at (keyspace logged_in) (hashToken token1) = Some
    (mkSession "" ann t0 (t0 + 30 * Day) t0 "" "")) as Hs by (vm_compute; reflexivity).
  split; [exact Hs|].
  apply (session_index_complete demo_store demo_secs); [done|done|exact logged_in_reachable|exact Hs|].
  vm_compute. discriminate.
Defined.

(** Log out everywhere but here. *)
Definition logged_out : machine := after (RevokeAllForUser demo_store ann token1) logged_in.

Lemma revoke_all_complete_witness :
  exists s, result (Get_ token1) logged_out = Some (inr s) /\ UserID s = ann /\
    hashToken token1 = kept token1.
Proof.
  set (s := mkSession (hashToken token1) ann t0 (t0 + 30 * Day) t0 "" "").
  assert (result (Get_ token1) logged_out = Some (inr s)) as Hr by (vm_compute; reflexivity).
  exists s. split; [exact Hr|]. split; [reflexivity|].
  apply (revoke_all_complete demo_store demo_secs) with (u := ann) (n := 1) (w := logged_in)
    (w1 := logged_out) (r := inr s) (w2 := after (Get_ token1) logged_out) (s := s);
    [done|done|exact logged_in_reachable| |exact (interp_result _ _ _ Hr)|done|done].
  refine (interp_result _ _ _ _). vm_compute. reflexivity.
Defined.

(** After a logout, a lookup by the other device goes on while the token is tried
    again. *)
Definition revoked : machine := after (Revoke token1) logged_in.
Definition after_others : list (prog (error + Session)) * machine :=
  run_pool [0; 1; 0; 1] ([Get_ token2; Get_ token1], revoked).

Lemma revoked_stays_revoked_witness :
  result (Get_ token1) after_others.2 = Some (inl ErrSessionNotFound) /\
  exists e, @inl error Session ErrSessionNotFound = inl e.
Proof.
  assert (result (Get_ token1) after_others.2 = Some (inl ErrSessionNotFound)) as Hr by (vm_compute; reflexivity).
  split; [exact Hr|].
  apply (revoked_stays_revoked demo_store demo_secs) with (token := token1) (w := logged_in) (w1 := revoked)
    (ps := [Get_ token2; Get_ token1]) (ps' := after_others.1) (w2 := after_others.2)
    (w3 := after (Get_ token1) after_others.2).
  - done.
  - done.
  - exact logged_in_reachable.
  - refine (interp_result _ _ _ _). vm_compute. reflexivity.
  - rewrite !Forall_cons, Forall_nil. auto using Get_avoids.
  - rewrite <- surjective_pairing. exact (run_pool_steps [0; 1; 0; 1] ([Get_ token2; Get_ token1], revoked)).
  - exact (interp_result _ _ _ Hr).
Defined.

(** Thirty days later the session is over, whatever its idle window. *)
Lemma absolute_expiry_enforced_witness :
  keyspace (after (Get_ token1) logged_in) !! session_key (hashToken token1) <> None /\
  (server_ms logged_in <= (t0 + 30 * Day) / 1000000)%Z.
Proof.
  split; [by vm_compute|].
  set (s := mkSession (hashToken token1) ann t0 (t0 + 30 * Day) t0 "" "").
  destruct (absolute_expiry_enforced demo_store demo_secs eq_refl eq_refl token1 logged_in (inr s)
    (after (Get_ token1) logged_in) logged_in_reachable) as (_ & HE & _).
  - apply interp_result. vm_compute. reflexivity.
  - exact HE.
Defined.

(** The twenty-first login evicts the first session. *)
Definition steady_login (w : @mstate steady_machine) : @mstate steady_machine :=
  match @interp steady_machine _ login (later 1000000 w) with Ok (_, w') => w' | _ => w end.

Definition twenty : @mstate steady_machine := Nat.iter 20 steady_login (start t0).

Lemma steady_later (w : @mstate steady_machine) d :
  (0 <= d)%Z -> @reachable steady_machine steady_view demo_json demo_store w ->
  @reachable steady_machine steady_view demo_json demo_store (later d w).
Proof.
  intros Hd Hw. eapply (@reach_other steady_machine); [exact Hw| |exact (aged_refl _ _)]. simpl. unfold sim_ms. simpl.
  apply Z.div_le_mono; lia.
Qed.

Lemma steady_reachable n :
  @reachable steady_machine steady_view demo_json demo_store (Nat.iter n steady_login (start t0)).
Proof.
  induction n as [|n IH]; [by apply reach_start|].
  change (Nat.iter (S n) steady_login (start t0)) with (steady_login (Nat.iter n steady_login (start t0))).
  set (w := Nat.iter n steady_login (start t0)) in *. unfold steady_login.
  destruct (@interp_total steady_machine _ login (later 1000000 w)) as ([] & w' & Hr). rewrite Hr.
  eapply (@reach_run steady_machine) with (o := DoLogin ann "192.0.2.1" "browser");
    [|reflexivity|exact Hr].
  by apply steady_later.
Qed.

Definition token21 : string := b64_raw_encode alphabet_url (be_bytes 32 21).

Definition demo_ids (n : nat) : list string :=
  (fun i => hashToken (b64_raw_encode alphabet_url (be_bytes 32 (N.of_nat i)))) <$> seq 2 n.

(** What a run that cannot fail ends with. *)
Definition ran {A} (p : prog A) (w : @mstate steady_machine) (d : A * @mstate steady_machine) :
  A * @mstate steady_machine :=
  match @interp steady_machine A p w with Ok r => r | _ => d end.

Lemma steady_ran {A} (p : prog A) (w : @mstate steady_machine) d :
  @interp steady_machine A p w = Ok (ran p w d).
Proof. unfold ran. by destruct (@interp_total steady_machine A p w) as (a & w' & ->). Qed.

#[local] Abbreviation twenty_one :=
  (ran (Create demo_store ann "192.0.2.1" "browser") (later 1000000 twenty)
    (inl ErrSessionNotFound, twenty)).

(** The session is Ann's and has not passed its absolute expiry. *)
Definition unexpired (m : kv) (now : Z) (id : string) : bool :=
  match session_at m id with
  | Some s => bool_decide (UserID s = ann) && (now <=? ExpiresAt s / 1000000)%Z
  | None => false
  end.

Lemma unexpired_spec m now id :
  unexpired m now id = true ->
  exists s, session_at m id = Some s /\ UserID s = ann /\ (now <= ExpiresAt s / 1000000)%Z.
Proof.
  unfold unexpired. destruct (session_at m id) as [s|]; [|done].
  intros [Hu%bool_decide_eq_true He%Z.leb_le]%andb_true_iff. eauto.
Qed.

Lemma twenty_one_unexpired :
  forallb (unexpired (sim_store twenty_one.2) (sim_ms twenty_one.2)) (demo_ids 20) = true.
Proof. vm_compute. reflexivity. Qed.

Lemma demo_ids_distinct : NoDup (demo_ids 20).
Proof. refine (bool_decide_eq_true_1 _ _). vm_compute. reflexivity. Qed.

Definition is_created (r : error + string * Session) : bool :=
  match r with inr _ => true | inl _ => false end.

Lemma ran_created (p : prog (error + string * Session)) w d :
  is_created (ran p w d).1 = true ->
  exists token s, @interp steady_machine _ p w = Ok (inr (token, s), (ran p w d).2).
Proof.
  rewrite (steady_ran p w d). destruct (ran p w d) as [[|[token s]] w']; [done|]. eauto.
Qed.

Lemma twenty_one_created : is_created twenty_one.1 = true.
Proof. vm_compute. reflexivity. Qed.

Lemma session_cap_witness :
  forallb (unexpired (sim_store twenty_one.2) (sim_ms twenty_one.2)) (demo_ids 20) = true /\
  length (demo_ids 20) <= maxSessionsPerUsr.
Proof.
  split; [exact twenty_one_unexpired|].
  destruct (ran_created _ _ _ twenty_one_created) as (token & s & Hr).
  apply (@session_cap steady_machine steady_view steady_laws steady_clock_laws demo_json demo_json_laws
    demo_store demo_secs eq_refl eq_refl ann "192.0.2.1" "browser" token s (later 1000000 twenty) twenty_one.2).
  - apply (steady_later twenty); [done|exact (steady_reachable 20)].
  - reflexivity.
  - exact steady_answers.
  - exact Hr.
  - exact demo_ids_distinct.
  - intros id Hid. apply unexpired_spec.
    exact (proj1 (forallb_forall _ _) twenty_one_unexpired id (proj1 (list_elem_of_In _ _) Hid)).
Defined.

(** Twenty-two entries, the two oldest at the end and in the middle. *)
Definition aged_entries : list live_entry :=
  [("a", 5); ("b", 2)]%Z ++ ((fun i => (String.append "s" (hex_encode (be_bytes 1 (N.of_nat i))), 9%Z)) <$> seq 0 19) ++ [("c", 1%Z)].

Lemma eviction_drops_oldest_witness :
  exists w', @interp steady_machine _ (evict (length aged_entries) aged_entries []) (later 1000000 twenty) =
      Ok (Some ["c"; "b"], w') /\
    forall id, id ∈ ["c"; "b"] -> session_at (sim_store w') id = None.
Proof.
  refine (@eviction_drops_oldest steady_machine steady_view steady_laws steady_clock_laws demo_json demo_json_laws
    demo_store demo_secs eq_refl eq_refl aged_entries (later 1000000 twenty) _ steady_answers).
  apply (steady_later twenty); [done|exact (steady_reachable 20)].
Defined.

(** ** Tickets *)

(** A ticket is issued and presented by two callers at once. *)
Definition ticketed : machine := after (IssueWSTicket demo_store ann) (start t0).

Definition presented : list (prog (error + string)) * machine :=
  run_pool [1; 0; 2] (replicate 2 (RedeemWSTicket token1) ++ [RedeemWSTicket token2], ticketed).

Lemma ticket_single_use_witness :
  presented.1 = [Ret (inl ErrTicketNotFound); Ret (inr ann); Ret (inl ErrTicketNotFound)] /\
  (count_if redeemed (take 2 presented.1) <= 1)%Z.
Proof.
  split; [vm_compute; reflexivity|].
  apply (ticket_single_use token1 2 [RedeemWSTicket token2] ticketed presented.1 presented.2).
  - rewrite Forall_singleton. apply Redeem_avoids_ticket.
  - rewrite <- surjective_pairing.
    exact (run_pool_steps [1; 0; 2] (replicate 2 (RedeemWSTicket token1) ++ [RedeemWSTicket token2], ticketed)).
Defined.

(** ** A revoked session that comes back

    [Touch] writes the session it was given without looking whether it still
    exists. A request that has read the session before a logout and slides its
    window after it brings the session back, and as the index no longer lists it,
    not even [RevokeAllForUser] finds it again. *)

Definition two_minutes_on : machine := later (2 * Minute) logged_in.

Definition raced : list (prog unit) * machine :=
  run_pool [0; 0; 1; 1; 0; 0]
    ([run_op demo_store (DoRequest token1); run_op demo_store (DoLogout token1)], two_minutes_on).

Theorem touch_resurrects_revoked_session :
  raced.1 = [Ret tt; Ret tt] /\
  (exists s, result (Get_ token1) raced.2 = Some (inr s)) /\
  result (RevokeAllForUser demo_store ann "") raced.2 = Some (inr 1) /\
  (exists s, result (Get_ token1) (after (RevokeAllForUser demo_store ann "") raced.2) = Some (inr s)).
Proof.
  split; [vm_compute; reflexivity|]. split; [eexists; vm_compute; reflexivity|].
  split; [vm_compute; reflexivity|]. eexists. vm_compute. reflexivity.
Qed.
