(* ===== verification/Password.v ===== *)
(** * Passwords

    [src/internal/auth/password.go] and [commonpasswords.go]: the policy, the
    Argon2id hashes in PHC form, and the slots that bound how many hashes are
    computed at once. [argon2.IDKey] is a call to the outside; [HasherLaws] is
    what the program relies on: that it is a function of its arguments, with
    output of the length asked for, and that the slots are a counting
    semaphore. *)

From S2P Require Import Prelude GoStrings Crypto Effects Hasher.
From Stdlib Require Import Ascii.

(** ** Policy *)

Definition MinPasswordLength : nat := 12.
Definition MaxPasswordLength : nat := 128.

Definition commonPasswords : gset string := list_to_set [
  "123456789012"; "1234567890"; "qwertyuiop"; "password"; "password1"; "password123";
  "passw0rd123"; "password1234"; "welcome123456"; "qwerty123456"; "iloveyou1234";
  "letmein12345"; "administrator"; "changeme1234"; "secretpassword"; "trustno1234567";
  "whatever12345"; "111111111111"; "000000000000"; "abcdefghijkl"; "aaaaaaaaaaaa";
  "videocall1234"; "audiocall1234"; "cbback123456"; "monkey123456"; "dragon123456";
  "sunshine1234"; "princess1234"; "football1234"; "baseball1234"; "superman1234";
  "starwars1234"; "qazwsxedcrfv"; "zaq12wsxcde3"; "1qaz2wsx3edc"; "asdfghjkl123";
  "loveyou123456"; "myp@ssw0rd123"; "p@ssword1234"; "admin1234567"; "welcome1234567";
  "letmein1234567"; "qwertyuiop1234"; "thisisapassword"; "correcthorse"; "correctbatteryhs"].

Definition isCommonPassword `{Unicode} (password : string) : bool :=
  bool_decide (ToLower (TrimSpace password) ∈ commonPasswords).

Definition ValidatePassword `{Unicode} (password : string) : option error :=
  let length := RuneCountInString password in
  if length <? MinPasswordLength then Some ErrPasswordTooShort
  else if MaxPasswordLength <? length then Some ErrPasswordTooLong
  else if isCommonPassword password then Some ErrPasswordNotAllowed
  else None.

(** ** Parameters *)

(** [argon2.Version], 0x13. *)
Definition Version : Z := 19.

Definition argon2Params : params := mkParams (19 * 1024) 2 1 16 32.

(** ** Hashes *)

Definition phc (p : params) (salt key : list N) : string :=
  "$argon2id$v=" +:+ itoa Version +:+
  "$m=" +:+ itoa (Z.of_N (memoryKiB p)) +:+ ",t=" +:+ itoa (Z.of_N (iterations p)) +:+
  ",p=" +:+ itoa (Z.of_N (parallelism p)) +:+
  "$" +:+ b64_raw_encode alphabet_std salt +:+ "$" +:+ b64_raw_encode alphabet_std key.

(** [fmt.Sscanf(s, "v=%d", &version)] *)
Definition scan_version (s : string) : option Z :=
  s ← scan_literal "v=" s; '(v, _) ← scan_int s; Some v.

(** [fmt.Sscanf(s, "m=%d,t=%d,p=%d", ...)] into two [uint32] and a [uint8]. *)
Definition scan_params (s : string) : option (N * N * N) :=
  s ← scan_literal "m=" s; '(m, s) ← scan_uint 32 s;
  s ← scan_literal ",t=" s; '(t, s) ← scan_uint 32 s;
  s ← scan_literal ",p=" s; '(p, _) ← scan_uint 8 s;
  Some (m, t, p).

Definition uint32 (n : nat) : N := (N.of_nat n mod 2 ^ 32)%N.

Definition decodeHash (encoded : string) : error + (params * list N * list N) :=
  match Split encoded "$" with
  | [p0; p1; p2; p3; p4; p5] =>
      if negb (bool_decide (p0 = "")) then inl ErrInvalidHash
      else if negb (bool_decide (p1 = "argon2id")) then inl ErrIncompatibleHash
      else match scan_version p2 with
      | None => inl ErrInvalidHash
      | Some version =>
          if negb (version =? Version)%Z then inl ErrIncompatibleHash
          else match scan_params p3 with
          | None => inl ErrInvalidHash
          | Some (m, t, p) =>
              match b64_raw_decode alphabet_std p4, b64_raw_decode alphabet_std p5 with
              | Some salt, Some key =>
                  if bool_decide (length salt = 0) || bool_decide (length key = 0)
                  then inl ErrInvalidHash
                  else inr (mkParams m t p (uint32 (length salt)) (uint32 (length key)), salt, key)
              | _, _ => inl ErrInvalidHash
              end
          end
      end
  | _ => inl ErrInvalidHash
  end.

(** ** Operations *)

(** The slot is given back by a deferred receive. *)
Definition deriveKey (password : string) (salt : list N) (p : params) : prog (error + list N) :=
  acquired <~ call AcquireSlot ;;
  if acquired : bool then
    key <~ call (IDKey password salt p) ;;
    call ReleaseSlot ;~
    succeeds key
  else fails (Wrap "hash password" (Foreign "context")).

Definition HashPassword (password : string) : prog (error + string) :=
  salt <~ call (Random (N.to_nat (saltLength argon2Params))) ;;
  match salt with
  | None => fails (Wrap "generate salt" (Foreign "rand"))
  | Some salt =>
      key <~? deriveKey password salt argon2Params ;;
      succeeds (phc argon2Params salt key)
  end.

(** Whether the password matches and whether the hash should be replaced. *)
Definition VerifyPassword (encoded password : string) : prog (error + bool * bool) :=
  match decodeHash encoded with
  | inl e => fails e
  | inr (stored, salt, key) =>
      candidate <~? deriveKey password salt stored ;;
      if negb (bool_decide (key = candidate)) then succeeds (false, false)
      else succeeds (true, negb (bool_decide (stored = argon2Params)))
  end.

Definition dummySalt : list N := bytes "cb-back-timing-eq".

Definition DummyVerify (password : string) : prog unit :=
  _ <~ deriveKey password dummySalt argon2Params ;;
  Ret tt.

(** ** Lemmas *)

(** The byte of a dollar sign separates the fields. *)
Abbreviation no_dollar := (fun b : N => negb (b =? byte "$")%N).

Lemma digits_no_dollar s : forall_bytes is_digit s = true -> forall_bytes no_dollar s = true.
Proof.
  apply forall_bytes_impl. intros b Hb%digit_bounds. apply negb_true_iff, N.eqb_neq.
  change (byte "$") with 36%N. lia.
Qed.

Lemma itoa_no_dollar n : forall_bytes no_dollar (itoa (Z.of_N n)) = true.
Proof. apply digits_no_dollar. destruct (itoa_spec (Z.of_N n)) as (_ & H & _); [lia|done]. Qed.

Lemma b64_no_dollar l : Forall is_byte l -> forall_bytes no_dollar (b64_raw_encode alphabet_std l) = true.
Proof. apply b64_text_bytes. vm_compute. reflexivity. Qed.

Definition version_text : string := "v=" +:+ itoa Version.

Definition params_text (p : params) : string :=
  "m=" +:+ itoa (Z.of_N (memoryKiB p)) +:+ ",t=" +:+ itoa (Z.of_N (iterations p)) +:+
  ",p=" +:+ itoa (Z.of_N (parallelism p)).

Lemma scan_version_text : scan_version version_text = Some Version.
Proof. vm_compute. reflexivity. Qed.

(** The parameters fit the variables they are scanned into. *)
Definition params_fit (p : params) : Prop :=
  (memoryKiB p < 2 ^ 32 /\ iterations p < 2 ^ 32 /\ parallelism p < 2 ^ 8)%N.

Lemma scan_params_text p :
  params_fit p -> scan_params (params_text p) = Some (memoryKiB p, iterations p, parallelism p).
Proof.
  intros (Hm & Ht & Hp). unfold scan_params, params_text.
  rewrite scan_literal_app. cbn [mbind option_bind].
  rewrite scan_uint_itoa by (done || lia). cbn [mbind option_bind].
  rewrite scan_literal_app. cbn [mbind option_bind].
  rewrite scan_uint_itoa by (done || lia). cbn [mbind option_bind].
  rewrite scan_literal_app. cbn [mbind option_bind].
  rewrite <- (str_app_nil (itoa (Z.of_N (parallelism p)))).
  rewrite scan_uint_itoa by (done || lia). cbn [mbind option_bind].
  by rewrite !N2Z.id.
Qed.

Lemma split_phc p salt key :
  Forall is_byte salt -> Forall is_byte key ->
  Split (phc p salt key) "$" = ["" ; "argon2id"; version_text; params_text p;
    b64_raw_encode alphabet_std salt; b64_raw_encode alphabet_std key].
Proof.
  intros Hs Hk.
  assert (phc p salt key = "" +:+ String "$" ("argon2id" +:+ String "$" (version_text +:+ String "$"
    (params_text p +:+ String "$" (b64_raw_encode alphabet_std salt +:+ String "$"
      (b64_raw_encode alphabet_std key)))))) as ->.
  { unfold phc, params_text, version_text. rewrite !str_app_assoc. reflexivity. }
  rewrite !Split_app; [by rewrite Split_none by by apply b64_no_dollar|..]; try done.
  - by apply b64_no_dollar.
  - unfold params_text. rewrite !forall_bytes_app, !itoa_no_dollar. done.
Qed.

(** What [HashPassword] writes is what [decodeHash] reads. *)
Lemma decode_phc p salt key :
  params_fit p -> Forall is_byte salt -> Forall is_byte key -> salt <> [] -> key <> [] ->
  decodeHash (phc p salt key) =
    inr (mkParams (memoryKiB p) (iterations p) (parallelism p) (uint32 (length salt)) (uint32 (length key)),
      salt, key).
Proof.
  intros Hp Hs Hk Hs0 Hk0. unfold decodeHash. rewrite split_phc by done.
  rewrite scan_version_text. cbn [negb Z.eqb Version]. rewrite !bool_decide_true by done. simpl.
  rewrite scan_params_text by done.
  rewrite !b64_raw_roundtrip by (done || exact alphabet_std_ok).
  rewrite !bool_decide_false by by destruct salt, key. done.
Qed.

(** A hash of parameters Argon2 takes, as the program writes or wrote it. *)
Definition stored_hash (h : string) : Prop :=
  exists p salt key, params_fit p /\ (1 <= iterations p)%N /\ (1 <= parallelism p)%N /\
    Forall is_byte salt /\ Forall is_byte key /\ salt <> [] /\ key <> [] /\ h = phc p salt key.

(** A hash of the current parameters, as the program writes it. *)
Definition current_hash (h : string) : Prop :=
  exists salt key, length salt = 16 /\ length key = 32 /\ Forall is_byte salt /\ Forall is_byte key /\
    h = phc argon2Params salt key.

Lemma decode_current salt key :
  length salt = 16 -> length key = 32 -> Forall is_byte salt -> Forall is_byte key ->
  decodeHash (phc argon2Params salt key) = inr (argon2Params, salt, key).
Proof.
  intros Hs Hk Hsb Hkb. rewrite decode_phc; try done.
  - by rewrite Hs, Hk.
  - by intros ->.
  - by intros ->.
Qed.

Lemma current_stored h : current_hash h -> stored_hash h.
Proof.
  intros (salt & key & Hs & Hk & Hsb & Hkb & ->). exists argon2Params, salt, key.
  do 3 (split; [done|]). do 2 (split; [done|]). split; [by intros ->|]. split; [by intros ->|done].
Qed.

Lemma stored_decodes h :
  stored_hash h -> exists p salt key, decodeHash h = inr (p, salt, key) /\
    (1 <= iterations p)%N /\ (1 <= parallelism p)%N.
Proof.
  intros (p & salt & key & Hp & Ht & Hpar & Hs & Hk & Hs0 & Hk0 & ->). rewrite decode_phc by done. eauto 10.
Qed.

(** *** Slots *)

Lemma deriveKey_slots password salt p : slots 0 (deriveKey password salt p).
Proof. by repeat split. Qed.

Lemma HashPassword_slots password : slots 0 (HashPassword password).
Proof. split; [done|]. intros [salt|]; [|done]. apply slots_bindE; [apply deriveKey_slots|done]. Qed.

Lemma VerifyPassword_slots encoded password : slots 0 (VerifyPassword encoded password).
Proof.
  unfold VerifyPassword. destruct (decodeHash encoded) as [e|[[stored salt] key]]; [done|].
  apply slots_bindE; [apply deriveKey_slots|]. intros candidate. by destruct (negb _).
Qed.

Lemma DummyVerify_slots password : slots 0 (DummyVerify password).
Proof. apply slots_bind; [apply deriveKey_slots|done]. Qed.

(** *** Triples *)

(** The password a stored hash accepts. *)
Definition verifies `{HasherView} (password h : string) : Prop :=
  exists p salt key, decodeHash h = inr (p, salt, key) /\ key = kdf password salt p.

Section rules.
Context `{HL : HasherLaws}.

Definition refused : error := Wrap "hash password" (Foreign "context").

Lemma wpw_deriveKey password salt p (Q : error + list N -> mstate -> list work -> Prop) w :
  (forall w', Q (inr (kdf password salt p)) w' [Hashed p]) ->
  (forall w', Q (inl refused) w' [Refused]) ->
  wpw (deriveKey password salt p) Q w.
Proof.
  intros Hok Hfail. apply wpw_bind, wpw_acquire; intros w1; [|apply wpw_ret, Hfail].
  apply wpw_bind, wpw_idkey. intros w2. apply wpw_bind, wpw_release. intros w3. apply wpw_ret, Hok.
Qed.

Lemma kdf_current password salt :
  length (kdf password salt argon2Params) = 32 /\ Forall is_byte (kdf password salt argon2Params).
Proof. apply kdf_output. Qed.

(** What [HashPassword] yields is a hash of the current parameters, which accepts
    the password. *)
Lemma hash_spec password salt :
  length salt = 16 -> Forall is_byte salt ->
  let h := phc argon2Params salt (kdf password salt argon2Params) in
  current_hash h /\ verifies password h.
Proof.
  intros Hs Hb h. destruct (kdf_current password salt) as [Hk Hkb]. split.
  - by exists salt, (kdf password salt argon2Params).
  - exists argon2Params, salt, (kdf password salt argon2Params).
    split; [by apply decode_current|done].
Qed.

Lemma wpw_HashPassword password (Q : error + string -> mstate -> list work -> Prop) w :
  (forall h w', current_hash h -> verifies password h -> Q (inr h) w' [Hashed argon2Params]) ->
  (forall e w' t, store_error e -> Q (inl e) w' t) ->
  wpw (HashPassword password) Q w.
Proof.
  intros Hok Hfail. apply wpw_bind, wpw_random.
  intros [salt|] w1 Hsalt; [|apply wpw_ret, Hfail; by eexists _, _]. destruct (Hsalt salt eq_refl) as [Hs Hb].
  destruct (hash_spec password salt Hs Hb) as [Hc Hv].
  apply wpw_bindE, wpw_deriveKey; intros w2; [by apply wpw_ret, Hok|apply Hfail; by eexists _, _].
Qed.

(** A stored hash accepts exactly the passwords it verifies. *)
Lemma wpw_VerifyPassword h password (Q : error + bool * bool -> mstate -> list work -> Prop) w p salt key :
  decodeHash h = inr (p, salt, key) ->
  (forall w', Q (inl refused) w' [Refused]) ->
  (forall w', verifies password h ->
    Q (inr (true, negb (bool_decide (p = argon2Params)))) w' [Hashed p]) ->
  (forall w', ~ verifies password h -> Q (inr (false, false)) w' [Hashed p]) ->
  wpw (VerifyPassword h password) Q w.
Proof.
  intros Hd Hfail Hyes Hno. unfold VerifyPassword. rewrite Hd.
  apply wpw_bindE, wpw_deriveKey; intros w1; [|by apply Hfail].
  destruct (bool_decide (key = _)) eqn:Hk; [apply bool_decide_eq_true in Hk|apply bool_decide_eq_false in Hk];
    cbn [negb]; apply wpw_ret; cbn [app].
  - apply Hyes. by exists p, salt, key.
  - apply Hno. intros (p' & salt' & key' & Hd' & ->). rewrite Hd in Hd'. by injection Hd' as -> -> ->.
Qed.

Lemma wpw_DummyVerify password (Q : unit -> mstate -> list work -> Prop) w :
  (forall w', Q tt w' [Hashed argon2Params]) -> (forall w', Q tt w' [Refused]) ->
  wpw (DummyVerify password) Q w.
Proof. intros H1' H2'. apply wpw_bind, wpw_deriveKey; intros w1; apply wpw_ret; auto. Qed.
End rules.
