(* ===== verification/Net.v ===== *)
(** * Addresses

    What the program uses of Go's [net] package: [ParseIP] with [IP.String] in
    [RecordEvent] ([src/internal/auth/store.go]), which gives an address its
    canonical text, and [SplitHostPort] in [ClientIP]
    ([src/internal/httpx/respond.go]). *)

From S2P Require Import Prelude GoStrings Crypto.
From Stdlib Require Import Ascii.

(** ** Parsing *)

(** An address as eight 16-bit groups; IPv4 is ::ffff:a.b.c.d. *)
Definition ip : Type := list N.

(** A decimal field of 1 to 3 digits, at most 255, without leading zeros. *)
Definition v4_field (s : string) : option N :=
  let v := digits_value 0 s in
  if forall_bytes is_digit s && (1 <=? String.length s) && (String.length s <=? 3) && (v <=? 255)%N
     && negb (HasPrefix s "0" && (2 <=? String.length s))
  then Some v else None.

Definition v4_groups (s : string) : option (N * N) :=
  match v4_field <$> Split s "." with
  | [Some a; Some b; Some c; Some d] => Some (256 * a + b, 256 * c + d)%N
  | _ => None
  end.

Definition hex_value (b : N) : option N :=
  if between 48 57 b then Some (b - 48)%N
  else if between 97 102 b then Some (b - 87)%N
  else if between 65 70 b then Some (b - 55)%N
  else None.

(** The longest prefix of hexadecimal digits: its length, its value, the rest. *)
Fixpoint span_hex (n : nat) (acc : N) (s : string) : nat * N * string :=
  match s with
  | "" => (n, acc, "")
  | String c s' =>
      match hex_value (byte c) with
      | Some v => span_hex (S n) (16 * acc + v)%N s'
      | None => (n, acc, s)
      end
  end.

(** The groups of an IPv6 address, [n] of which still fit. [ell] is where the
    groups that :: stands for go. *)
Fixpoint v6_groups (n : nat) (ell : option nat) (acc : list N) (s : string)
    : option (list N * option nat * string) :=
  match n with
  | 0 => Some (acc, ell, s)
  | S n =>
      let '(len, v, r) := span_hex 0 0 s in
      if (len =? 0) || (4 <? len) then None
      else match r with
      | "" => Some (acc ++ [v], ell, "")
      | String "." _ =>
          if (bool_decide (ell = None) && negb (length acc =? 6)) || (6 <? length acc) then None
          else '(h, l) ← v4_groups s; Some (acc ++ [h; l], ell, "")
      | String ":" "" => None
      | String ":" (String ":" s') =>
          if bool_decide (ell <> None) then None
          else
            let acc := acc ++ [v] in
            if bool_decide (s' = "") then Some (acc, Some (length acc), "")
            else v6_groups n (Some (length acc)) acc s'
      | String ":" s' => v6_groups n ell (acc ++ [v]) s'
      | _ => None
      end
  end.

Definition parse_v6 (s : string) : option ip :=
  '(acc, ell, rest) ←
    match s with
    | String ":" (String ":" "") => Some ([], Some 0, "")
    | String ":" (String ":" s) => v6_groups 8 (Some 0) [] s
    | _ => v6_groups 8 None [] s
    end;
  if negb (bool_decide (rest = "")) then None
  else match ell with
  | None => if length acc =? 8 then Some acc else None
  | Some i =>
      if 8 <=? length acc then None
      else Some (take i acc ++ replicate (8 - length acc) 0%N ++ drop i acc)
  end.

(** The first of a dot, a colon and a percent sign decides. *)
Fixpoint ip_kind (s : string) : option ascii :=
  match s with
  | "" => None
  | String c s =>
      if decide (c = "."%char \/ c = ":"%char \/ c = "%"%char) then Some c else ip_kind s
  end.

Definition ParseIP (s : string) : option ip :=
  match ip_kind s with
  | Some "."%char => '(h, l) ← v4_groups s; Some [0; 0; 0; 0; 0; 65535; h; l]%N
  | Some ":"%char => if Contains s "%" then None else parse_v6 s
  | _ => None
  end.

(** ** Printing *)

Definition v4_text (h l : N) : string :=
  Join (itoa ∘ Z.of_N <$> [h / 256; h mod 256; l / 256; l mod 256]%N) ".".

(** A group in hexadecimal, without leading zeros. *)
Definition group_text (g : N) : string :=
  let s := hex_encode (be_bytes 2 g) in
  match List.find (fun n => negb (HasPrefix (drop_bytes n s) "0")) [0; 1; 2] with
  | Some n => drop_bytes n s
  | None => drop_bytes 3 s
  end.

(** The number of zero groups in front. *)
Fixpoint zeros (l : ip) : nat := match l with 0%N :: l => S (zeros l) | _ => 0 end.

(** The first of the longest runs of at least two zero groups, as position and
    length; the best so far is passed along. *)
Fixpoint zero_run (i : nat) (l : ip) (best : nat * nat) : nat * nat :=
  match l with
  | [] => best
  | _ :: l' =>
      let n := zeros l in
      zero_run (S i) l' (if (2 <=? n) && (best.2 <? n) then (i, n) else best)
  end.

Definition v6_text (l : ip) : string :=
  let '(i, n) := zero_run 0 l (0, 0) in
  if n =? 0 then Join (group_text <$> l) ":"
  else Join (group_text <$> take i l) ":" +:+ "::" +:+ Join (group_text <$> drop (i + n) l) ":".

Definition ip_String (l : ip) : string :=
  match l with
  | [0; 0; 0; 0; 0; 65535; h; m]%N => v4_text h m
  | _ => v6_text l
  end.

Example ip_examples :
  (fun s => ip_String <$> ParseIP s) <$>
    ["192.0.2.1"; "192.0.2.01"; "2001:DB8:0:0:1:0:0:1"; "::ffff:10.0.0.1"; "fe80::1%eth0"; "::"; "1:2:3:4:5:6:7::"; "example.com"; ""]
  = [Some "192.0.2.1"; None; Some "2001:db8::1:0:0:1"; Some "10.0.0.1"; None; Some "::"; Some "1:2:3:4:5:6:7:0"; None; None].
Proof. vm_compute. reflexivity. Qed.

(** ** Host and port *)

(** The part before the last colon and the part after it. *)
Fixpoint CutLast (s : string) (sep : ascii) : option (string * string) :=
  match s with
  | "" => None
  | String c s =>
      match CutLast s sep with
      | Some (a, b) => Some (String c a, b)
      | None => if decide (c = sep) then Some ("", s) else None
      end
  end.

Definition SplitHostPort (hostport : string) : option (string * string) :=
  '(before, port) ← CutLast hostport ":";
  match hostport with
  | String "[" inner =>
      let '(host, rest, found) := Cut inner "]" in
      if negb found || negb (bool_decide (rest = ":" +:+ port)) then None
      else if Contains host "[" || Contains port "[" || Contains port "]" then None
      else Some (host, port)
  | _ =>
      if Contains before ":" || Contains hostport "[" || Contains hostport "]" then None
      else Some (before, port)
  end.

Example split_examples :
  SplitHostPort <$> ["192.0.2.1:80"; "[::1]:443"; "::1:443"; "[::1]"; "host"]
  = [Some ("192.0.2.1", "80"); Some ("::1", "443"); None; None; None].
Proof. vm_compute. reflexivity. Qed.
