(* ===== verification/Users.v ===== *)
(** * Accounts

    [src/internal/auth/store.go]: the statements of the [UserStore], and what
    each of them promises about the tables. *)

From S2P Require Import Prelude GoStrings Net Effects PostgresSpec Sessions Password.
From Stdlib Require Import Ascii.

(** ** Data *)

(** A [User] is the row it was read from. *)
Abbreviation User := user_row.

Definition Contact : Type := string * string.

Record AuthEvent := mkAuthEvent {
  ev_UserID : string;
  ev_Email : string;
  ev_Event : string;
  ev_IP : string;
  ev_UserAgent : string
}.

Definition with_event (name : string) (e : AuthEvent) : AuthEvent :=
  mkAuthEvent (ev_UserID e) (ev_Email e) name (ev_IP e) (ev_UserAgent e).

(** ** Operations *)

(** A database error that is not the unique violation. *)
Definition pg_error (msg : string) : error := Wrap msg (Foreign "postgres").

Definition create_user (email displayName passwordHash : string) : tx User :=
  Exec (InsertUser email displayName) (fun r =>
    match r with
    | inl UniqueViolation => Rollback ErrEmailTaken
    | inl OtherError => Rollback (pg_error "insert user")
    | inr u =>
        Exec (InsertCredential (u_id u) passwordHash) (fun r =>
          match r with
          | inl _ => Rollback (pg_error "insert credential")
          | inr _ => Commit u
          end)
    end).

Definition CreateUser (email displayName passwordHash : string) : prog (error + User) :=
  call (Transaction (create_user email displayName passwordHash)).

Definition ByEmailWithCredential (email : string) : prog (error + User * string) :=
  r <~ call (Query (SelectUserByEmail email)) ;;
  match r with
  | inl _ => fails (pg_error "select user")
  | inr None => fails ErrUserNotFound
  | inr (Some (u, None)) => fails ErrNoCredentials
  | inr (Some (u, Some hash)) => succeeds (u, hash)
  end.

Definition ByID (id : string) : prog (error + User) :=
  r <~ call (Query (SelectUserById id)) ;;
  match r with
  | inl _ => fails (pg_error "select user")
  | inr None => fails ErrUserNotFound
  | inr (Some u) => if u_disabled u then fails ErrUserDisabled else succeeds u
  end.

Definition Contacts (exceptUserID : string) (limit : Z) : prog (error + list Contact) :=
  r <~ call (Query (SelectContacts exceptUserID limit)) ;;
  match r with
  | inl _ => fails (pg_error "select contacts")
  | inr l => succeeds l
  end.

Definition CredentialByUserID (userID : string) : prog (error + string) :=
  r <~ call (Query (SelectCredential userID)) ;;
  match r with
  | inl _ => fails (pg_error "select credential")
  | inr None => fails ErrNoCredentials
  | inr (Some hash) => succeeds hash
  end.

Definition UpdatePassword (userID passwordHash : string) : prog (error + unit) :=
  r <~ call (Query (UpdateCredential userID passwordHash)) ;;
  match r with
  | inl _ => fails (pg_error "update credential")
  | inr n => if (n =? 0)%Z then fails ErrNoCredentials else succeeds tt
  end.

Definition non_empty (s : string) : option string := if bool_decide (s = "") then None else Some s.

Definition event_row_of (e : AuthEvent) : event_row :=
  mkEventRow (non_empty (ev_UserID e)) (non_empty (ev_Email e)) (ev_Event e)
    (ip_String <$> ParseIP (ev_IP e)) (truncate (ev_UserAgent e) 512).

Definition RecordEvent (e : AuthEvent) : prog (error + unit) :=
  r <~ call (Query (InsertEvent (event_row_of e))) ;;
  match r with
  | inl _ => fails (pg_error "insert auth event")
  | inr _ => succeeds tt
  end.

Definition NormalizeEmail `{Unicode} (email : string) : string := ToLower (TrimSpace email).

(** ** The invariant of the tables *)

(** Ids are uuids and keys, every account has a credential and every credential an account,
    no two accounts share an email address as the database compares them, and
    every stored hash is one the program can read. *)
Record accounts_ok (rules : db_rules) (tb : tables) : Prop := {
  ac_ids i u : users tb !! i = Some u -> u_id u = i;
  ac_uuid i : is_Some (users tb !! i) -> uuid_of rules i = Some i;
  ac_credential i : is_Some (users tb !! i) <-> is_Some (credentials tb !! i);
  ac_unique i j u v : users tb !! i = Some u -> users tb !! j = Some v ->
    citext_eqb rules (u_email u) (u_email v) = true -> i = j;
  ac_hash i h : credentials tb !! i = Some h -> stored_hash h
}.

(** What the statements of the rooms and of the audit trail leave alone. *)
Definition same_accounts (tb tb' : tables) : Prop :=
  users tb' = users tb /\ credentials tb' = credentials tb.

Lemma same_accounts_ok rules tb tb' :
  same_accounts tb tb' -> accounts_ok rules tb -> accounts_ok rules tb'.
Proof.
  intros [Hu Hc] [H1 H0 H2 H3 H4].
  split; [intros i u|intros i|intros i|intros i j u v|intros i h]; rewrite ?Hu, ?Hc.
  - apply H1.
  - apply H0.
  - apply H2.
  - apply H3.
  - apply H4.
Qed.

Section transactions.
Variable rules : db_rules.

(** The transaction of [CreateUser]: the account and its credential appear
    together, or nothing does. *)
Record account_created (email displayName h : string) (tb : tables) (u : User) (tb' : tables) : Prop := {
  cu_fresh : ~ email_taken rules email tb;
  cu_new : users tb !! u_id u = None;
  cu_uuid : uuid_of rules (u_id u) = Some (u_id u);
  cu_row : u_email u = email /\ u_display_name u = displayName /\ u_disabled u = false;
  cu_users : users tb' = <[u_id u := u]> (users tb);
  cu_credentials : credentials tb' = <[u_id u := h]> (credentials tb)
}.

Lemma create_user_spec email displayName h tb r tb' :
  transaction_spec rules (create_user email displayName h) tb r tb' ->
  match r with
  | inr u => account_created email displayName h tb u tb'
  | inl e => tb' = tb \/ exists u, account_created email displayName h tb u tb'
  end /\ (forall e, r = inl e -> e = ErrEmailTaken /\ email_taken rules email tb /\ tb' = tb \/ store_error e).
Proof.
  intros [Hs|(m & -> & ->)]; [|split; [by left|intros e [= <-]; right; by eexists _, _]].
  simpl in Hs. destruct Hs as ([[|]|u] & tb1 & Hq & Hs).
  - destruct Hs as [-> ->]. split; [by left|]. intros e [= <-]. left. by destruct Hq as [? ->].
  - destruct Hs as [-> ->]. split; [by left|intros e [= <-]; right; by eexists _, _].
  - destruct Hq as (H1 & H2 & H3 & H4 & H5 & H6 & ->). destruct Hs as ([e|[]] & tb2 & Hq & Hs).
    { destruct Hs as [-> ->]. split; [by left|intros e' [= <-]; right; by eexists _, _]. }
    destruct Hq as (H7 & H8 & ->).
    assert (account_created email displayName h tb u (mkTables (<[u_id u := u]> (users tb))
      (<[u_id u := h]> (credentials tb)) (rooms tb) (auth_events tb))) as Hc.
    { split; [done..| |done|done]. by rewrite H6. }
    destruct Hs as [[-> ->]|(m & -> & Hm)]; (split; [|intros e [= <-]; right; by eexists _, _]); [done|].
    destruct Hm as [->| ->]; [by left|]. right. eauto.
Qed.

Lemma created_ok `{DbLaws rules} email displayName h tb u tb' :
  stored_hash h -> account_created email displayName h tb u tb' -> accounts_ok rules tb -> accounts_ok rules tb'.
Proof.
  intros Hh [Hfresh Hnew Huuid (He & _ & _) Hu Hc] [H1 H0 H2 H3 H4].
  split; rewrite ?Hu, ?Hc.
  - intros i v. rewrite lookup_insert_Some. intros [[<- <-]|[_ Hv]]; [done|by apply H1].
  - intros i. rewrite lookup_insert_is_Some. intros [<-|[_ Hi]]; [done|by apply H0].
  - intros i. rewrite !lookup_insert_is_Some. specialize (H2 i). destruct (decide (u_id u = i)); naive_solver.
  - intros i j v v'. rewrite !lookup_insert_Some. intros [[<- <-]|[Hi Hv]] [[<- <-]|[Hj Hv']] Heq.
    + done.
    + destruct Hfresh. exists j, v'. split; [done|]. by rewrite citext_sym, <- He.
    + destruct Hfresh. exists i, v. by rewrite <- He.
    + by apply (H3 i j v v').
  - intros i h'. rewrite lookup_insert_Some. intros [[_ <-]|[_ Hh']]; [done|by apply (H4 i)].
Qed.

Lemma update_ok i h tb :
  stored_hash h -> accounts_ok rules tb ->
  accounts_ok rules (mkTables (users tb) (alter (fun _ => h) i (credentials tb)) (rooms tb) (auth_events tb)).
Proof.
  intros Hh [H1 H0 H2 H3 H4]. split; simpl; [done|done| |done|].
  - intros j. rewrite H2. destruct (decide (i = j)) as [->|Hij];
      [by rewrite lookup_alter_eq, fmap_is_Some|by rewrite lookup_alter_ne].
  - intros j h'. rewrite lookup_alter_Some. intros [(_ & _ & _ & ->)|[_ Hj]]; [done|by apply (H4 j)].
Qed.
End transactions.
