(* ===== verification/Frames.v ===== *)
(** * What a program does not touch

    [only ok p]: every call [p] can make satisfies [ok]. From the calls a
    program is made of follows what it leaves alone: a program without database
    calls keeps the tables, one that stays off the keys of the session store
    keeps its invariant, one without hashing calls computes no hash. *)

From S2P Require Import Prelude GoStrings Crypto Effects RedisSpec PostgresSpec Hasher Sessions SessionFacts.
From S2P Require Import SessionOps.

Definition effects : Type := forall X, eff X -> Prop.

Fixpoint only {A} (ok : effects) (p : prog A) : Prop :=
  match p with
  | Ret _ => True
  | Vis e f => ok _ e /\ forall x, only ok (f x)
  end.

Section only.
Variable ok : effects.

Lemma only_bind {A B} (p : prog A) (f : A -> prog B) :
  only ok p -> (forall a, only ok (f a)) -> only ok (bind p f).
Proof.
  intros Hp Hf. induction p as [a|X e g IH]; simpl; [apply Hf|]. destruct Hp as [He Hg]. split; [done|].
  intros x. by apply IH.
Qed.

Lemma only_bindE {A B} (p : prog (error + A)) (f : A -> prog (error + B)) :
  only ok p -> (forall a, only ok (f a)) -> only ok (bindE p f).
Proof. intros Hp Hf. apply only_bind; [done|]. by intros [e|a]; [|apply Hf]. Qed.

Lemma only_wrapped {A} msg (p : prog (error + A)) : only ok p -> only ok (wrapped msg p).
Proof. intros Hp. apply only_bind; [done|]. by intros [e|a]. Qed.

Lemma only_call {X} (e : eff X) : ok _ e -> only ok (call e).
Proof. by split. Qed.

Lemma only_redis r : ok _ (Redis r) -> only ok (redis r).
Proof. intros Hr. apply only_bind; [by split|]. intros [rs|]; [|done]. by destruct (first_error rs). Qed.

Lemma only_redis_string c : ok _ (Redis (Pipeline [c])) -> only ok (redis_string c).
Proof. intros Hc. apply only_bindE; [by apply only_redis|]. intros rs. by repeat case_match. Qed.

Lemma only_redis_list c : ok _ (Redis (Pipeline [c])) -> only ok (redis_list c).
Proof. intros Hc. apply only_bindE; [by apply only_redis|]. intros rs. by repeat case_match. Qed.

Lemma only_redis_run c : ok _ (Redis (Pipeline [c])) -> only ok (redis_run c).
Proof. intros Hc. apply only_bindE; [by apply only_redis|done]. Qed.
End only.

Lemma only_mono {A} (ok ok' : effects) (p : prog A) :
  (forall X (e : eff X), ok X e -> ok' X e) -> only ok p -> only ok' p.
Proof. intros H. induction p as [a|X e f IH]; simpl; [done|]. intros [He Hf]. auto. Qed.

(** Decompose [only ok p] along the program; what is left are the programs it
    calls. [tac] settles single calls. *)
Ltac only_by tac :=
  repeat first
    [ assumption
    | lazymatch goal with
      | |- only _ (bindE _ _) => apply only_bindE; [|intros ?]
      | |- only _ (bind _ _) => apply only_bind; [|intros ?]
      | |- only _ (wrapped _ _) => apply only_wrapped
      | |- only _ (call _) => apply only_call; tac
      | |- only _ (redis_string _) => apply only_redis_string; tac
      | |- only _ (redis_list _) => apply only_redis_list; tac
      | |- only _ (redis_run _) => apply only_redis_run; tac
      | |- only _ (redis _) => apply only_redis; tac
      | |- only _ (fails _) => exact I
      | |- only _ (succeeds _) => exact I
      | |- only _ (Ret _) => exact I
      end
    | case_match ].

(** ** Kinds of calls *)

(** Redis, the clock and the random source: all the session store uses. *)
Definition store_effect : effects := fun X e =>
  match e with Redis _ | Now | Random _ => True | _ => False end.

Definition db_effect : effects := fun X e =>
  match e with Query _ | Transaction _ => True | _ => False end.

Definition hash_effect : effects := fun X e =>
  match e with Random _ | AcquireSlot | ReleaseSlot | IDKey _ _ _ => True | _ => False end.

Definition no_db : effects := fun X e => is_postgres e = false.

Definition no_hash : effects := fun X e =>
  match e with IDKey _ _ _ | AcquireSlot => False | _ => True end.

Definition no_redis : effects := fun X e => is_redis e = false.

(** Everything but a statement that writes. *)
Definition is_select {X} (q : statement X) : bool :=
  match q with
  | SelectUserByEmail _ | SelectUserById _ | SelectContacts _ _ | SelectCredential _
  | SelectRoomBySlug _ | SelectRooms _ => true
  | _ => false
  end.

Definition reads : effects := fun X e =>
  match e with Query q => is_select q = true | Transaction _ => False | _ => True end.

(** Requests that stay off the session store's keys. *)
Definition request_foreign : request -> Prop :=
  request_all (fun c => Forall (fun k => ~ session_owned k) (keys_of c)).

Definition foreign : effects := fun X e =>
  match e with Redis r => request_foreign r | _ => True end.

(** Limiter requests: Redis off the session store's keys. *)
Definition limiter_effect : effects := fun X e =>
  match e with Redis r => request_foreign r | _ => False end.

Lemma store_no_db {A} (p : prog A) : only store_effect p -> only no_db p.
Proof. apply only_mono. by intros X []. Qed.

Lemma store_no_hash {A} (p : prog A) : only store_effect p -> only no_hash p.
Proof. apply only_mono. by intros X []. Qed.

Lemma limiter_store {A} (p : prog A) : only limiter_effect p -> only store_effect p.
Proof. apply only_mono. by intros X []. Qed.

Lemma limiter_foreign {A} (p : prog A) : only limiter_effect p -> only foreign p.
Proof. apply only_mono. by intros X []. Qed.

Lemma db_foreign {A} (p : prog A) : only db_effect p -> only foreign p.
Proof. apply only_mono. by intros X []. Qed.

Lemma db_no_hash {A} (p : prog A) : only db_effect p -> only no_hash p.
Proof. apply only_mono. by intros X []. Qed.

Lemma db_no_redis {A} (p : prog A) : only db_effect p -> only no_redis p.
Proof. apply only_mono. by intros X []. Qed.

Lemma hash_foreign {A} (p : prog A) : only hash_effect p -> only foreign p.
Proof. apply only_mono. by intros X []. Qed.

Lemma hash_no_db {A} (p : prog A) : only hash_effect p -> only no_db p.
Proof. apply only_mono. by intros X []. Qed.

Lemma no_db_reads {A} (p : prog A) : only no_db p -> only reads p.
Proof. apply only_mono. by intros X []. Qed.

(** Programs without hashing calls hold no slot. *)
Lemma store_slots {A} (p : prog A) : only store_effect p -> slots 0 p.
Proof. induction p as [a|X e f IH]; simpl; [done|]. intros [He Hf]. destruct e; try done; auto. Qed.

Lemma db_slots {A} (p : prog A) : only db_effect p -> slots 0 p.
Proof. induction p as [a|X e f IH]; simpl; [done|]. intros [He Hf]. destruct e; try done; auto. Qed.

(** ** Frames *)

(** A program without hashing calls does no measurable work. *)
Lemma wpw_no_hash `{Machine} {A} (p : prog A) Q w :
  only no_hash p -> wp (interp p) (fun a w' => Q a w' []) w -> wpw p Q w.
Proof.
  intros Hp HQ. unfold wpw. assert (work_done p w = []) as ->; [|done]. clear HQ. revert w.
  induction p as [a|X e f IH]; intros w; [done|]. destruct Hp as [He Hf]. simpl.
  destruct (respond _ e w) as [x w']. rewrite IH by done. by destruct e.
Qed.

Lemma wp_no_db `{PL : PostgresLaws} {A} (p : prog A) w :
  only no_db p -> wp (interp p) (fun _ w' => database w' = database w) w.
Proof.
  revert w. induction p as [a|X e f IH]; intros w; [done|]. intros [He Hf]. rewrite wp_interp_vis.
  pose proof (postgres_frame X e w He) as Hd. destruct (respond _ e w) as [x w1]. simpl in Hd.
  rewrite <- Hd. by apply IH.
Qed.

Lemma select_same {X} rules (q : statement X) tb r tb' :
  is_select q = true -> query_spec rules q tb r tb' -> tb' = tb.
Proof.
  intros Hq Hs. destruct r as [[|]|x]; simpl in Hs; [by destruct Hs| |by destruct q; try done; destruct Hs].
  destruct Hs as [->|[x Hx]]; [done|]. by destruct q; try done; destruct Hx.
Qed.

Lemma wp_reads `{PL : PostgresLaws} {A} (p : prog A) w :
  only reads p -> wp (interp p) (fun _ w' => database w' = database w) w.
Proof.
  revert w. induction p as [a|X e f IH]; intros w; [done|]. intros [He Hf]. rewrite wp_interp_vis.
  assert (database (snd (respond _ e w)) = database w) as Hd.
  { destruct (is_postgres e) eqn:Hp; [|by apply postgres_frame].
    destruct e as [| | |Y q| | | | |]; try done. destruct (respond _ (Query q) w) as [r w1] eqn:E.
    apply query_answer in E. by eapply select_same. }
  destruct (respond _ e w) as [x w1]. simpl in Hd. rewrite <- Hd. by apply IH.
Qed.

Section redis.
Context `{RL : RedisLaws}.

Lemma wp_no_redis {A} (p : prog A) w :
  only no_redis p ->
  wp (interp p) (fun _ w' => keyspace w' = keyspace w /\ (server_ms w <= server_ms w')%Z) w.
Proof.
  revert w. induction p as [a|X e f IH]; intros w; [split; [done|lia]|]. intros [He Hf]. rewrite wp_interp_vis.
  pose proof (redis_frame X e w He) as Hd. pose proof (redis_clock X e w) as Ht.
  destruct (respond _ e w) as [x w1]. simpl in *.
  eapply wp_mono; [by apply IH|]. intros a w' [-> ?]. split; [done|lia].
Qed.

Lemma foreign_effect rules t c m k :
  session_owned k -> Forall (fun k => ~ session_owned k) (keys_of c) ->
  effect rules t c m !! k = m !! k.
Proof. intros Hk Hc. apply effect_frame. intros Hin. rewrite Forall_forall in Hc. by apply (Hc k). Qed.

Lemma call_aged X (e : eff X) w :
  foreign X e ->
  aged (server_ms (snd (respond _ e w))) (keyspace w) (keyspace (snd (respond _ e w))).
Proof.
  intros He. apply (call_rel (fun c => Forall (fun k => ~ session_owned k) (keys_of c)) (aged _)); [| |by destruct e].
  - intros t m Ht. apply (aged_trans t _ _ (live t m)); [lia|apply aged_live|apply aged_refl].
  - intros t c m _ Hc. apply aged_agree. intros k Hk. by apply foreign_effect.
Qed.

Lemma wp_foreign {A} (p : prog A) w :
  only foreign p ->
  wp (interp p) (fun _ w' => aged (server_ms w') (keyspace w) (keyspace w') /\
    (server_ms w <= server_ms w')%Z) w.
Proof.
  revert w. induction p as [a|X e f IH]; intros w; [split; [apply aged_refl|lia]|]. intros [He Hf].
  rewrite wp_interp_vis. pose proof (call_aged X e w He) as Hk. pose proof (redis_clock X e w) as Ht.
  destruct (respond _ e w) as [x w1]. simpl in *.
  eapply wp_mono; [by apply IH|]. intros a w' [Hk' Ht']. split; [|lia].
  by eapply aged_trans.
Qed.
End redis.

(** ** Programs of the session store and of the limiter *)

Section store.
Context `{SJ : SessionJson}.
Variable store : SessionStore.

Lemma newToken_store : only store_effect newToken.
Proof. unfold newToken. only_by ltac:(exact I). Qed.

Lemma revokeByID_store u i : only store_effect (revokeByID u i).
Proof. unfold revokeByID. only_by ltac:(exact I). Qed.

Lemma scan_store ids live stale : only store_effect (scan ids live stale).
Proof. revert live stale. induction ids as [|i ids IH]; intros live stale; cbn [scan]; only_by ltac:(exact I); auto. Qed.

Lemma evict_store fuel live stale : only store_effect (evict fuel live stale).
Proof. revert live stale. induction fuel as [|fuel IH]; intros live stale; cbn [evict]; only_by ltac:(exact I); auto. Qed.

Lemma trimSessions_store u : only store_effect (trimSessions u).
Proof. unfold trimSessions. only_by ltac:(exact I); auto using scan_store, evict_store. Qed.

Lemma Create_store u ip ua : only store_effect (Create store u ip ua).
Proof. unfold Create. only_by ltac:(exact I); auto using newToken_store, trimSessions_store. Qed.

Lemma Get_store token : only store_effect (Get_ token).
Proof. unfold Get_. only_by ltac:(exact I). apply revokeByID_store. Qed.

Lemma Touch_store s : only store_effect (Touch store s).
Proof. unfold Touch. only_by ltac:(exact I). Qed.

Lemma Revoke_store token : only store_effect (Revoke token).
Proof. unfold Revoke. only_by ltac:(exact I). apply revokeByID_store. Qed.

Lemma RevokeAll_store u except : only store_effect (RevokeAllForUser store u except).
Proof. unfold RevokeAllForUser. only_by ltac:(exact I). Qed.

Lemma Issue_store u : only store_effect (IssueWSTicket store u).
Proof. unfold IssueWSTicket. only_by ltac:(exact I). apply newToken_store. Qed.

Lemma Redeem_store ticket : only store_effect (RedeemWSTicket ticket).
Proof. unfold RedeemWSTicket. only_by ltac:(exact I). Qed.
End store.
