(* ===== verification/Guarded.v ===== *)
(** * Invariants under interleaving

    Between two calls of a request other requests may run, so what holds of the
    state throughout has to survive every single call. A program is [guarded]: each
    of its calls satisfies an obligation, given what the answers of its earlier calls
    taught. When an invariant is kept by every call that meets its obligation, any
    number of guarded programs keep it in any interleaving. *)

From S2P Require Import Prelude Effects RedisSpec Frames.

(** What the answer of a call teaches. *)
Definition lessons : Type := forall X, eff X -> X -> Prop.

Section guarded.
Variables (may : effects) (learned : lessons).

Fixpoint guarded {A} (Q : A -> Prop) (p : prog A) : Prop :=
  match p with
  | Ret a => Q a
  | Vis e f => may _ e /\ forall x, learned _ e x -> guarded Q (f x)
  end.

(** Of a result without an error. *)
Definition yields {A} (Q : A -> Prop) (p : prog (error + A)) : Prop :=
  guarded (fun r => match r with inl _ => True | inr a => Q a end) p.

Lemma guarded_mono {A} (Q Q' : A -> Prop) (p : prog A) :
  (forall a, Q a -> Q' a) -> guarded Q p -> guarded Q' p.
Proof.
  intros HQ. induction p as [a|X e f IH]; simpl; [apply HQ|]. intros [He Hf]. split; [done|].
  intros x Hx. by apply IH, Hf.
Qed.

Lemma guarded_bind {A B} (Q : A -> Prop) (R : B -> Prop) (p : prog A) (f : A -> prog B) :
  guarded Q p -> (forall a, Q a -> guarded R (f a)) -> guarded R (bind p f).
Proof.
  intros Hp Hf. induction p as [a|X e g IH]; simpl in *; [by apply Hf|]. destruct Hp as [He Hg].
  split; [done|]. intros x Hx. by apply IH, Hg.
Qed.

Lemma yields_bindE {A B} (Q : A -> Prop) (R : B -> Prop) (p : prog (error + A)) (f : A -> prog (error + B)) :
  yields Q p -> (forall a, Q a -> yields R (f a)) -> yields R (bindE p f).
Proof. intros Hp Hf. eapply guarded_bind; [exact Hp|]. intros [e|a] Ha; [exact I|by apply Hf]. Qed.

Lemma yields_wrapped {A} (Q : A -> Prop) msg (p : prog (error + A)) : yields Q p -> yields Q (wrapped msg p).
Proof. intros Hp. eapply guarded_bind; [exact Hp|]. by intros [e|a]. Qed.

Lemma guarded_only {A} (p : prog A) : only may p -> guarded (fun _ => True) p.
Proof.
  induction p as [a|X e f IH]; [done|]. intros [He Hf]. split; [done|]. intros x _. by apply IH.
Qed.

Lemma yields_only {A} (p : prog (error + A)) : only may p -> yields (fun _ => True) p.
Proof. intros Hp. eapply guarded_mono; [|by apply guarded_only]. by intros [e|a]. Qed.

Lemma guarded_any {A} (Q : A -> Prop) (p : prog A) : guarded Q p -> guarded (fun _ => True) p.
Proof. by apply guarded_mono. Qed.

Lemma guarded_yields {A} (p : prog (error + A)) : guarded (fun _ => True) p -> yields (fun _ => True) p.
Proof. apply guarded_mono. by intros [e|a]. Qed.

(** ** Any number of programs at once *)

Context `{Machine}.

(** [inv] survives every call made with leave, and its answer teaches what is said,
    while the state is within [bound]; a state before one that is within it is
    within it too. *)
Variables (inv bound : mstate -> Prop).
Hypothesis bound_before : forall X (e : eff X) w, bound (snd (respond _ e w)) -> bound w.
Hypothesis inv_call : forall X (e : eff X) w x w',
  inv w -> may _ e -> respond _ e w = (x, w') -> bound w' -> inv w' /\ learned _ e x.

Lemma pool_bound {A} (s s' : list (prog A) * mstate) : pool_steps s s' -> bound s'.2 -> bound s.2.
Proof.
  induction 1 as [s|s1 s2 s3 Hstep _ IH]; [done|]. intros Hb. specialize (IH Hb).
  destruct Hstep as [ps i p p' w w' Hi Ha]. simpl in *. destruct p as [|X e f]; [done|]. simpl in Ha.
  destruct (respond _ e w) as [x w1] eqn:E. injection Ha as <- <-.
  apply (bound_before X e). by rewrite E.
Qed.

Lemma guarded_advance {A} (Q : A -> Prop) (p p' : prog A) w w' :
  guarded Q p -> inv w -> advance p w = Some (p', w') -> bound w' -> guarded Q p' /\ inv w'.
Proof.
  destruct p as [a|X e f]; [done|]. intros [He Hf] Hi. simpl. destruct (respond _ e w) as [x w1] eqn:E.
  intros [= <- <-] Hb. destruct (inv_call X e w x w1 Hi He E Hb) as [Hi' Hx]. split; [by apply Hf|done].
Qed.

Lemma guarded_pool {A} (Q : A -> Prop) (s s' : list (prog A) * mstate) :
  pool_steps s s' -> Forall (guarded Q) s.1 -> bound s'.2 -> inv s.2 -> Forall (guarded Q) s'.1 /\ inv s'.2.
Proof.
  induction 1 as [s|s1 s2 s3 Hstep Hsteps IH]; [done|]. intros Hs Hb Hi.
  destruct Hstep as [ps i p p' w w' Hp Ha]. simpl in *.
  destruct (guarded_advance Q p p' w w') as [Hp' Hi']; [by eapply Forall_lookup_1|done|done| |].
  - exact (pool_bound _ _ Hsteps Hb).
  - apply IH; [by apply Forall_insert|done|done].
Qed.
End guarded.

Arguments guarded_pool {may learned _ inv bound} bound_before inv_call {A} Q s s'.
