(* ===== verification/Lifetimes.v ===== *)
(** * Sessions and tickets when requests interleave

    What the entries of Redis say, whoever writes them in between: a session belongs
    to an account, ends one absolute lifetime after it began, and began when it says;
    a ticket stands for an account. Every text a program stores is one it may store
    there ([text_ok]), because of what it was told before: the accounts it read, the
    session it read back, the clock. *)

From S2P Require Import Prelude GoStrings Crypto Effects RedisSpec PostgresSpec RateLimit Sessions SessionFacts.
From S2P Require Import Password Users Frames Guarded.

(** ** The accounts grow *)

Section growth.
Variable rules : db_rules.

Lemma stmt_grows {X} (q : statement X) tb x tb' : stmt_ok rules q tb x tb' -> users tb ⊆ users tb'.
Proof.
  destruct q; simpl; try (by intros [-> _]); try (by intros [_ ->]); try (by intros ->).
  - intros (_ & _ & _ & Hnew & _ & _ & ->). simpl. by apply insert_subseteq.
  - by intros (_ & _ & ->).
  - by intros (j & _ & _ & ->).
  - by intros (_ & _ & _ & _ & _ & _ & _ & ->).
Qed.

Lemma query_grows {X} (q : statement X) tb r tb' : query_spec rules q tb r tb' -> users tb ⊆ users tb'.
Proof.
  destruct r as [[|]|x]; simpl; [by intros [_ ->]| |apply stmt_grows].
  intros [->|[x Hx]]; [done|by eapply stmt_grows].
Qed.

Lemma tx_grows {A} (t : tx A) tb0 tb r tb' :
  users tb0 ⊆ users tb -> tx_spec rules t tb0 tb r tb' -> users tb0 ⊆ users tb'.
Proof.
  revert tb. induction t as [a|e|X q k IH]; intros tb Htb; simpl.
  - intros [[_ ->]|(m & _ & [->| ->])]; done.
  - by intros [_ ->].
  - intros (ans & tb1 & Hq & Hs). apply (IH ans tb1); [|done]. destruct ans as [[|]|x].
    + by destruct Hq as [_ ->].
    + by rewrite Hq.
    + etrans; [exact Htb|by eapply stmt_grows].
Qed.

Lemma transaction_grows {A} (t : tx A) tb r tb' :
  transaction_spec rules t tb r tb' -> users tb ⊆ users tb'.
Proof. intros [Hs|(m & _ & ->)]; [by eapply tx_grows|done]. Qed.
End growth.

Lemma respond_grows `{PL : PostgresLaws} X (e : eff X) w :
  users (database w) ⊆ users (database (snd (respond _ e w))).
Proof.
  destruct (is_postgres e) eqn:Hp; [|by rewrite postgres_frame]. destruct (respond _ e w) as [x w'] eqn:E.
  destruct e; try done.
  - apply query_answer in E. by eapply query_grows.
  - apply transaction_answer in E. by eapply transaction_grows.
Qed.

(** ** What may be stored *)

(** Of the same user, for the same time. *)
Definition same_life (s s' : Session) : Prop :=
  UserID s' = UserID s /\ CreatedAt s' = CreatedAt s /\ ExpiresAt s' = ExpiresAt s.

Section texts.
Context `{SJ : SessionJson}.
Variable store : SessionStore.

(** The accounts there are in the end, what was stored at the start, and when. *)
Variable accounts : gmap string user_row.
Variable stored : kv.
Variable start : Z.

Definition known (u : string) : Prop := is_Some (accounts !! u).

(** A session of an account, of the absolute lifetime, and not older than it says:
    it was begun since the start, or it was there at the start. *)
Definition lasting (id : string) (s : Session) : Prop :=
  known (UserID s) /\ ExpiresAt s = (CreatedAt s + absoluteTTL store)%Z /\
  ((start <= CreatedAt s / 1000000)%Z \/ exists s0, session_at stored id = Some s0 /\ same_life s0 s).

Definition text_ok (k p : string) : Prop :=
  (forall id s, k = session_key id -> unmarshal p = Some s -> lasting id s) /\
  (forall h, k = wsTicketPrefix +:+ h -> known p).

Definition entry_ok (k : string) (e : entry) : Prop :=
  match val e with VStr p => text_ok k p | VSet _ => True end.

Definition sound (m : kv) : Prop := map_Forall entry_ok m.

(** The only commands that store a text are [SET] and [INCR]. *)
Definition command_ok (c : command) : Prop :=
  match c with
  | Set_ k v _ => text_ok k v
  | Incr k => forall p, text_ok k p
  | _ => True
  end.

Lemma lasting_same id s s' : same_life s s' -> lasting id s -> lasting id s'.
Proof.
  intros (H1 & H2 & H3) (Hk & He & Hc). split; [by rewrite H1|]. split; [by rewrite H2, H3|].
  rewrite H2. destruct Hc as [?|(s0 & Hs0 & E1 & E2 & E3)]; [by left|]. right. exists s0. split; [done|].
  split; [congruence|]. split; congruence.
Qed.

Lemma text_session id p s :
  unmarshal p = Some s -> text_ok (session_key id) p -> lasting id s.
Proof. intros Hp [H _]. by apply H. Qed.

Lemma session_text id p : (forall s, unmarshal p = Some s -> lasting id s) -> text_ok (session_key id) p.
Proof. intros Hp. split; [|done]. intros id' s ->%session_key_inj. apply Hp. Qed.

Lemma text_ticket ticket p : text_ok (ticket_key ticket) p -> known p.
Proof. intros [_ H]. by apply (H (hashToken ticket)). Qed.

Lemma ticket_text ticket p : known p -> text_ok (ticket_key ticket) p.
Proof. by split. Qed.

Lemma limit_text key p : text_ok (limit_key key) p.
Proof. by split. Qed.

Lemma sound_insert k e m : entry_ok k e -> sound m -> sound (<[k := e]> m).
Proof. apply map_Forall_insert_2. Qed.

Lemma sound_shrink m m' : m' ⊆ m -> sound m -> sound m'.
Proof. intros Hm Hs k e He. apply Hs. by eapply lookup_weaken. Qed.

Lemma sound_deletes ks m : sound m -> sound (foldr delete m ks).
Proof. intros Hm k e He. rewrite foldr_delete_lookup in He. destruct (decide _); [done|]. by apply Hm. Qed.

Lemma sound_put_set k S d m : sound m -> sound (put_set k S d m).
Proof.
  intros Hm. unfold put_set. case_decide; [|by apply sound_insert].
  eapply sound_shrink, Hm. apply delete_subseteq.
Qed.

Lemma sound_deadline t ms k m : sound m -> sound (set_deadline t ms k m).2.
Proof.
  intros Hm. unfold set_deadline. destruct (m !! k) as [e|] eqn:E; [|done]. simpl.
  destruct (0 <? ms)%Z; [|eapply sound_shrink, Hm; apply delete_subseteq].
  apply sound_insert; [exact (Hm k e E)|done].
Qed.

Lemma sound_effect rules t c m : command_ok c -> sound m -> sound (effect rules t c m).
Proof.
  intros Hc Hm. unfold effect. destruct c; simpl in *; try done.
  - by apply sound_insert.
  - by apply sound_deletes.
  - destruct (m !! key) as [[[] ?]|]; simpl; try done. eapply sound_shrink, Hm. apply delete_subseteq.
  - destruct (get_set m key) as [[S d]|]; [by apply sound_put_set|done].
  - destruct (get_set m key) as [[S d]|]; [by apply sound_put_set|done].
  - by apply sound_deadline.
  - destruct (m !! key) as [[[s|S] d]|]; simpl; [|done|].
    + destruct (parse_int s); [|done]. destruct (_ <? _)%Z; [|done]. apply sound_insert; [exact (Hc _)|done].
    + apply sound_insert; [exact (Hc _)|done].
  - by apply sound_deadline.
Qed.

Lemma sound_live t m : sound m -> sound (live t m).
Proof. apply sound_shrink. unfold live. apply map_filter_subseteq. Qed.

(** Sound it stays. *)
Definition stays_sound (m m' : kv) : Prop := sound m -> sound m'.

#[local] Instance stays_sound_preorder : PreOrder stays_sound.
Proof. split; [by intros m Hm|]. intros m1 m2 m3 H1 H2 Hm. auto. Qed.

Context `{RL : RedisLaws}.

Lemma sound_call X (e : eff X) w :
  match e with Redis r => request_all command_ok r | _ => True end ->
  sound (keyspace w) -> sound (keyspace (snd (respond _ e w))).
Proof.
  intros He. apply (call_rel command_ok stays_sound); [|intros t c m0 ?; exact (sound_effect _ t c m0)|done].
  intros t m _. exact (sound_live t m).
Qed.

(** The state a request was executed in, when it was answered. *)
Lemma sound_answer r w rs w' :
  request_all command_ok r -> sound (keyspace w) -> respond _ (Redis r) w = (Some rs, w') ->
  exists t m, sound m /\ request_spec ttls t r m rs (keyspace w').
Proof.
  intros Hr Hw E. destruct (redis_answer _ _ _ _ E) as (m & Hatt & Hs). exists (server_ms w'), m.
  split; [|done]. revert Hw. eapply (attempts_rel command_ok stays_sound), Hatt; [|intros t c m0 ?; exact (sound_effect _ t c m0)|done].
  intros t m' _. exact (sound_live t m').
Qed.
End texts.

(** ** The programs of the store *)

Section programs.
Context `{SJ : SessionJson} {SL : SessionJsonLaws (H := SJ)}.
Context `{PL : PostgresLaws} {RV : RedisView} {RL : RedisLaws RV}.
Variable store : SessionStore.
Variable accounts : gmap string user_row.
Variable stored : kv.
Variable start : Z.
Hypothesis accounts_ids : forall i u, accounts !! i = Some u -> u_id u = i.
Hypothesis accounts_ascii : forall i, is_Some (accounts !! i) -> is_ascii i = true.

Abbreviation known := (known accounts).
Abbreviation lasting := (lasting store accounts stored start).
Abbreviation sound := (sound store accounts stored start).

(** Only texts that may be stored are sent. *)
Definition stores_ok : effects := fun X e =>
  match e with Redis r => request_all (command_ok store accounts stored start) r | _ => True end.

(** Replies come from a sound keyspace, rows from tables within [accounts], and the
    time is not before the start. *)
Definition told : lessons := fun X e =>
  match e in eff X return X -> Prop with
  | Redis r => fun o => forall rs, o = Some rs ->
      exists t m m', sound m /\ request_spec ttls t r m rs m'
  | Query q => fun r => exists tb tb', query_spec db q tb r tb' /\ users tb' ⊆ accounts
  | Transaction t => fun r => exists tb tb', transaction_spec db t tb r tb' /\ users tb' ⊆ accounts
  | Now => fun n => (start <= n / 1000000)%Z
  | _ => fun _ => True
  end.

Definition lawful {A} (p : prog A) : Prop := guarded stores_ok told (fun _ => True) p.

Abbreviation yields := (yields stores_ok told).

(** Programs that store nothing but counters. *)
Definition tame_command (c : command) : Prop :=
  match c with
  | Set_ _ _ _ => False
  | Incr k => exists key, k = limit_key key
  | _ => True
  end.

Definition tame : effects := fun X e =>
  match e with Redis r => request_all tame_command r | _ => True end.

Lemma tame_ok c : tame_command c -> command_ok store accounts stored start c.
Proof. destruct c; simpl; try done. intros [key' ->] p. by apply limit_text. Qed.

Lemma tame_stores X (e : eff X) : tame X e -> stores_ok X e.
Proof. destruct e; simpl; try done. apply request_all_mono, tame_ok. Qed.

Lemma tame_lawful {A} (p : prog A) : only tame p -> lawful p.
Proof. intros Hp. eapply guarded_only, only_mono, Hp. apply tame_stores. Qed.

Lemma tame_yields {A} (p : prog (error + A)) : only tame p -> yields (fun _ => True) p.
Proof. intros Hp. by apply guarded_yields, tame_lawful. Qed.

(** *** Calls *)

Lemma told_redis r :
  stores_ok _ (Redis r) ->
  yields (fun rs => exists t m m', sound m /\ request_spec ttls t r m rs m') (redis r).
Proof.
  intros Hr. split; [exact Hr|]. intros [rs|] Hrs; [|exact I].
  destruct (Hrs rs eq_refl) as (t & m & m' & Hm & Hs). simpl. destruct (first_error rs); [exact I|].
  by exists t, m, m'.
Qed.

Lemma told_get k :
  yields (fun o => forall p, o = Some p -> text_ok store accounts stored start k p) (redis_string (Get k)).
Proof.
  eapply yields_bindE; [apply told_redis; by repeat constructor|].
  intros rs (t & m & m' & Hm & Hs). apply get_spec in Hs as [_ ->].
  destruct (live t m !! k) as [e|] eqn:E; [|by intros p]. apply (sound_live _ _ _ _ t) in Hm.
  apply Hm in E. destruct e as [[p|S] d]; [|exact I]. by intros p' [= <-].
Qed.

Lemma told_getdel k :
  yields (fun o => forall p, o = Some p -> text_ok store accounts stored start k p) (redis_string (GetDel k)).
Proof.
  eapply yields_bindE; [apply told_redis; by repeat constructor|].
  intros rs (t & m & m' & Hm & Hs). apply (sound_live _ _ _ _ t) in Hm. simpl in Hs.
  destruct rs as [|r [|r' rs]]; [done| |by destruct Hs]. destruct Hs as [Hr _]. unfold reply_ok in Hr. simpl in Hr.
  destruct (live t m !! k) as [e|] eqn:E; [|by rewrite Hr; intros p]. apply Hm in E.
  destruct e as [[p|S] d]; simpl in Hr; rewrite Hr; [|exact I]. by intros p' [= <-].
Qed.

Lemma lawful_set k v ttl :
  text_ok store accounts stored start k v -> yields (fun _ => True) (redis_run (Set_ k v ttl)).
Proof.
  intros Hv. eapply yields_bindE; [apply told_redis; by apply Forall_singleton|]. intros rs _. exact I.
Qed.

Lemma row_known i u tb : users tb ⊆ accounts -> users tb !! i = Some u -> known (u_id u).
Proof. intros Htb Hu. eapply lookup_weaken in Hu; [|exact Htb]. rewrite (accounts_ids _ _ Hu). by exists u. Qed.

Lemma told_ByID i : yields (fun u => known (u_id u)) (ByID i).
Proof.
  split; [exact I|]. intros [e|[u|]] (tb & tb' & Hq & Htb); try exact I. simpl.
  destruct (u_disabled u); [exact I|]. destruct Hq as [-> (j & _ & Hj)]. by eapply row_known.
Qed.

Lemma told_ByEmail email : yields (fun r => known (u_id r.1)) (ByEmailWithCredential email).
Proof.
  split; [exact I|]. intros [e|[[u [h|]]|]] (tb & tb' & Hq & Htb); try exact I.
  destruct Hq as (-> & Hu & _). by eapply row_known.
Qed.

Lemma told_CreateUser email name h : yields (fun u => known (u_id u)) (CreateUser email name h).
Proof.
  split; [exact I|]. intros [e|u] (tb & tb' & Hq & Htb); [exact I|].
  apply create_user_spec in Hq as [Hc _]. eapply row_known; [exact Htb|].
  rewrite (cu_users _ _ _ _ _ _ _ Hc). apply lookup_insert_eq.
Qed.

(** *** Operations *)

(** A session the store may keep under its own id. *)
Definition lasting_session (s : Session) : Prop := lasting (ID s) s.

Lemma marshal_lasting id s p : lasting id s -> marshal s = Some p -> text_ok store accounts stored start (session_key id) p.
Proof.
  intros Hs Hp. destruct (marshal_unmarshal s p) as (s' & Hp' & (H1 & H2 & H3 & _));
    [by apply accounts_ascii, Hs|done|].
  apply session_text. intros s'' E. rewrite Hp' in E. injection E as <-.
  by apply (lasting_same _ _ _ _ _ s).
Qed.

Lemma newToken_tame : only tame newToken.
Proof. unfold newToken. only_by ltac:(exact I). Qed.

Lemma redis_tame cs : Forall tame_command cs -> only tame (redis (Pipeline cs)).
Proof. intros Hcs. by apply only_redis. Qed.

Ltac tame_call := first [exact I | simpl; repeat case_match; by repeat constructor].

Lemma scan_tame ids l stale : only tame (scan ids l stale).
Proof. revert l stale. induction ids as [|i ids IH]; intros l stale; cbn [scan]; only_by tame_call; auto. Qed.

Lemma evict_tame fuel l stale : only tame (evict fuel l stale).
Proof. revert l stale. induction fuel as [|fuel IH]; intros l stale; cbn [evict]; only_by tame_call; auto. Qed.

Lemma trimSessions_tame u : only tame (trimSessions u).
Proof. unfold trimSessions. only_by tame_call; auto using scan_tame, evict_tame. Qed.

Lemma revokeByID_tame u id : only tame (revokeByID u id).
Proof. unfold revokeByID. only_by tame_call. Qed.

Lemma Revoke_tame token : only tame (Revoke token).
Proof. unfold Revoke. only_by tame_call. apply revokeByID_tame. Qed.

Lemma RevokeAll_tame u except : only tame (RevokeAllForUser store u except).
Proof. unfold RevokeAllForUser. cbv zeta. only_by tame_call. Qed.

Lemma Get_tame token : only tame (Get_ token).
Proof. unfold Get_. only_by tame_call. apply revokeByID_tame. Qed.

Lemma Redeem_tame ticket : only tame (RedeemWSTicket ticket).
Proof. unfold RedeemWSTicket. only_by tame_call. Qed.

Lemma Allow_tame key limit : only tame (Allow key limit).
Proof.
  unfold Allow.
  only_by ltac:(simpl; split; [by exists key|]; intros count; by destruct (_ =? 1)%Z).
Qed.

Lemma Reset_tame key : only tame (Reset key).
Proof. unfold Reset. only_by tame_call. Qed.

Lemma told_Now {B} (Q : B -> Prop) (f : Z -> prog B) :
  (forall now, (start <= now / 1000000)%Z -> guarded stores_ok told Q (f now)) ->
  guarded stores_ok told Q (bind (call Now) f).
Proof. intros Hf. split; [exact I|]. intros now Hnow. by apply Hf. Qed.

Lemma told_NowE {B} (Q : B -> Prop) (f : Z -> prog (error + B)) :
  (forall now, (start <= now / 1000000)%Z -> yields Q (f now)) -> yields Q (bind (call Now) f).
Proof. apply told_Now. Qed.

Lemma lawful_bind {A B} (Q : B -> Prop) (p : prog A) (f : A -> prog B) :
  lawful p -> (forall a, guarded stores_ok told Q (f a)) -> guarded stores_ok told Q (bind p f).
Proof. intros Hp Hf. eapply guarded_bind; [exact Hp|]. intros a _. apply Hf. Qed.

Lemma Create_lawful u ip ua : known u -> yields (fun r => lasting_session r.2) (Create store u ip ua).
Proof.
  intros Hu. eapply yields_bindE; [apply tame_yields, newToken_tame|]. intros token _.
  apply told_NowE. intros now Hnow. cbv zeta. set (s := mkSession _ _ _ _ _ _ _).
  assert (lasting (ID s) s) as Hs by (split; [exact Hu|split; [done|by left]]).
  destruct (marshal s) as [p|] eqn:Hp; [|exact I].
  eapply yields_bindE; [apply yields_wrapped, told_redis|].
  - simpl. rewrite !Forall_cons. split; [by apply (marshal_lasting _ s)|by rewrite Forall_nil].
  - intros rs _. apply lawful_bind; [apply tame_lawful, trimSessions_tame|]. intros _. exact Hs.
Qed.

Lemma Get_lawful token : yields lasting_session (Get_ token).
Proof.
  eapply yields_bindE; [apply yields_wrapped, told_get|]. intros [p|] Hp; [|exact I].
  destruct (unmarshal p) as [s|] eqn:Hs; [|exact I]. apply told_NowE. intros now _.
  destruct (ExpiresAt _ <? now)%Z.
  - eapply yields_bindE; [apply tame_yields, revokeByID_tame|]. intros _ _. exact I.
  - change (lasting (hashToken token) (set_id (hashToken token) s)).
    apply (lasting_same _ _ _ _ _ s); [by split|]. eapply text_session; [exact Hs|by apply Hp].
Qed.

Lemma Touch_lawful s : lasting_session s -> lawful (Touch store s).
Proof.
  intros Hs. apply told_Now. intros now _. destruct (time_sub _ _ <? _)%Z; [exact I|]. cbv zeta.
  destruct (marshal _) as [p|] eqn:Hp; [|exact I].
  eapply guarded_any, yields_wrapped, lawful_set, marshal_lasting, Hp.
  by apply (lasting_same _ _ _ _ _ s).
Qed.

Lemma Issue_lawful u : known u -> lawful (IssueWSTicket store u).
Proof.
  intros Hu. enough (yields (fun _ => True) (IssueWSTicket store u)) by (by eapply guarded_any).
  eapply yields_bindE; [apply tame_yields, newToken_tame|]. intros ticket _.
  eapply yields_bindE; [by apply yields_wrapped, lawful_set, ticket_text|]. by intros ? _.
Qed.

(** *** Between the calls *)

Context {CL : ClockLaws RV}.

Definition entries_ok (w : mstate) : Prop := sound (keyspace w) /\ (start <= server_ms w)%Z.

Definition within (w : mstate) : Prop := users (database w) ⊆ accounts.

Lemma within_before X (e : eff X) w : within (snd (respond _ e w)) -> within w.
Proof. unfold within. intros Hw. etrans; [apply respond_grows|exact Hw]. Qed.

Lemma entries_call X (e : eff X) w x w' :
  entries_ok w -> stores_ok _ e -> respond _ e w = (x, w') -> within w' -> entries_ok w' /\ told _ e x.
Proof.
  intros [Hm Ht] He E Hb. split; [split|].
  - pose proof (sound_call store accounts stored start X e w) as Hs. rewrite E in Hs. apply Hs; [by destruct e|done].
  - pose proof (redis_clock X e w) as Hc. rewrite E in Hc. simpl in Hc. lia.
  - destruct e; simpl in *; try done.
    + apply clock_answer in E. lia.
    + intros rs ->. destruct (sound_answer _ _ _ _ _ _ _ _ He Hm E) as (t & m & Hs & Hr). by exists t, m, (keyspace w').
    + apply query_answer in E. by exists (database w), (database w').
    + apply transaction_answer in E. by exists (database w), (database w').
Qed.

Lemma lawful_pool {A} (s s' : list (prog A) * mstate) :
  pool_steps s s' -> Forall lawful s.1 -> within s'.2 -> entries_ok s.2 -> entries_ok s'.2.
Proof. intros Hs Hp Hb Hi. by apply (guarded_pool within_before entries_call _ _ _ Hs Hp Hb Hi). Qed.
End programs.
