(* ===== verification/AuthService.v ===== *)
(** * The authentication service

    [src/internal/auth/service.go]: registration, login, logout and the change of
    a password, over the stores, the limiter and the password hashes. The
    [logger] calls have no effect the program can see and are left out. *)

From S2P Require Import Prelude GoStrings Net Effects RedisSpec PostgresSpec RateLimit Sessions Password.
From S2P Require Import Users.
From Stdlib Require Import Ascii.

(** ** Email addresses *)

(** The quotation mark and ()[];@\,<>:. *)
Definition specials : list N := [34%N] ++ bytes "()[];@\,<>:.".

(** The characters of an atom of RFC 5322: the printable ASCII characters but
    the ones with a meaning in addresses. *)
Definition is_atext (b : N) : bool :=
  between 33 126 b && negb (existsb (N.eqb b) specials).

(** A run of atom characters and of well-formed non-ASCII runes. [skip] counts the
    bytes still to pass over of the last rune. *)
Fixpoint atom_run (skip : nat) (s : string) : bool :=
  match s with
  | "" => true
  | String c s' =>
      match skip with
      | S k => atom_run k s'
      | 0 =>
          if (byte c <? 128)%N then is_atext (byte c) && atom_run 0 s'
          else (2 <=? rune_len s) && atom_run (rune_len s - 1) s'
      end
  end.

Definition dot_atom (s : string) : bool :=
  forallb (fun part => negb (bool_decide (part = "")) && atom_run 0 part) (Split s ".").

(** An IP address in brackets. *)
Definition domain_literal (s : string) : bool :=
  match s with
  | String "[" rest =>
      let '(text, after, found) := Cut rest "]" in
      found && bool_decide (after = "") && bool_decide (ParseIP text <> None)
  | _ => false
  end.

(** Whether [mail.ParseAddress] takes the text for a bare address, one that it
    gives back unchanged and without a name. Its other results (a quoted local
    part, a name with an address in angle brackets, a comment, a group) have an
    [Address] shorter than the text. *)
Definition is_bare_address (email : string) : bool :=
  let '(local, domain, found) := Cut email "@" in
  found && dot_atom local && (dot_atom domain || domain_literal domain).

Definition validateEmail `{Unicode} (raw : string) : error + string :=
  let email := NormalizeEmail raw in
  if (String.length email <? 3) || (254 <? String.length email) then inl ErrInvalidEmail
  else if negb (is_bare_address email) then inl ErrInvalidEmail
  else if negb (Count email "@" =? 1) then inl ErrInvalidEmail
  else
    let '(local, domain, _) := Cut email "@" in
    if bool_decide (local = "") || bool_decide (domain = "") || negb (Contains domain ".")
       || HasSuffix domain "."
    then inl ErrInvalidEmail
    else inr email.

(** ** The service *)

Record Credentials := mkCredentials {
  cr_Email : string;
  cr_Password : string;
  cr_DisplayName : string;
  cr_IP : string;
  cr_UserAgent : string
}.

Definition lift {A} (r : error + A) : prog (error + A) := Ret r.

Definition lift_option (o : option error) : prog (error + unit) :=
  match o with Some e => fails e | None => succeeds tt end.

(** [check]: fail closed when the limiter is not available. *)
Definition check (key : string) (limit : Limit) : prog (error + unit) :=
  r <~? wrapped "rate limiter unavailable" (Allow key limit) ;;
  let '(allowed, retryAfter) := r in
  if negb allowed then fails (RateLimitError retryAfter) else succeeds tt.

(** [record]: a failure is logged and goes no further. *)
Definition record (e : AuthEvent) : prog unit := RecordEvent e ;~ Ret tt.

Section service.
Context `{Unicode} `{SessionJson}.
Variable store : SessionStore.

Definition event_of (in_ : Credentials) (user email name : string) : AuthEvent :=
  mkAuthEvent user email name (cr_IP in_) (cr_UserAgent in_).

Definition display_name (in_ : Credentials) (email : string) : string :=
  let displayName := TrimSpace (cr_DisplayName in_) in
  if bool_decide (displayName = "") then (Cut email "@").1.1 else displayName.

Definition Register (in_ : Credentials) : prog (error + User * string * Session) :=
  _ <~? check ("register:ip:" +:+ cr_IP in_) RegisterPerIP ;;
  email <~? lift (validateEmail (cr_Email in_)) ;;
  let displayName := display_name in_ email in
  let n := RuneCountInString displayName in
  if (n <? 1) || (100 <? n) then fails ErrInvalidDisplayName
  else
    _ <~? lift_option (ValidatePassword (cr_Password in_)) ;;
    hash <~? HashPassword (cr_Password in_) ;;
    user <~? CreateUser email displayName hash ;;
    record (event_of in_ (u_id user) email "register") ;~
    created <~? Create store (u_id user) (cr_IP in_) (cr_UserAgent in_) ;;
    let '(token, sess) := created in
    succeeds (user, token, sess).

(** Replace a hash whose parameters are out of date; failures are only logged. *)
Definition rehash (user : User) (password : string) : prog unit :=
  upgraded <~ HashPassword password ;;
  match upgraded with
  | inl _ => Ret tt
  | inr upgraded => UpdatePassword (u_id user) upgraded ;~ Ret tt
  end.

Definition account_key (email : string) : string := "login:account:" +:+ email.

Definition Login (in_ : Credentials) : prog (error + User * string * Session) :=
  let email := NormalizeEmail (cr_Email in_) in
  _ <~? check ("login:ip:" +:+ cr_IP in_) LoginPerIP ;;
  allowed <~ check (account_key email) LoginPerAccount ;;
  match allowed with
  | inl e => record (event_of in_ "" email "login_rate_limited") ;~ fails e
  | inr _ =>
      found <~ ByEmailWithCredential email ;;
      match found with
      | inl e =>
          if Is e ErrUserNotFound || Is e ErrNoCredentials then
            DummyVerify (cr_Password in_) ;~
            record (event_of in_ "" email "login_failed_unknown_user") ;~
            fails ErrInvalidCredentials
          else fails e
      | inr (user, hash) =>
          if u_disabled user then
            DummyVerify (cr_Password in_) ;~
            record (event_of in_ (u_id user) email "login_failed_disabled") ;~
            fails ErrInvalidCredentials
          else
            verified <~ VerifyPassword hash (cr_Password in_) ;;
            match verified with
            | inl _ => fails ErrInvalidCredentials
            | inr (false, _) =>
                record (event_of in_ (u_id user) email "login_failed_bad_password") ;~
                fails ErrInvalidCredentials
            | inr (true, needsRehash) =>
                (if needsRehash : bool then rehash user (cr_Password in_) else Ret tt) ;~
                Reset (account_key email) ;~
                created <~? Create store (u_id user) (cr_IP in_) (cr_UserAgent in_) ;;
                let '(token, sess) := created in
                record (event_of in_ (u_id user) email "login") ;~
                succeeds (user, token, sess)
            end
      end
  end.

Definition Logout (token : string) (e : AuthEvent) : prog (error + unit) :=
  _ <~? Revoke token ;;
  record (with_event "logout" e) ;~
  succeeds tt.

Definition LogoutAll (userID : string) (e : AuthEvent) : prog (error + nat) :=
  n <~? RevokeAllForUser store userID "" ;;
  record (with_event "logout_all" e) ;~
  succeeds n.

Definition ChangePassword (userID current next keepToken : string) (e : AuthEvent) : prog (error + unit) :=
  _ <~? check ("password:ip:" +:+ ev_IP e) PasswordChangeIP ;;
  hash <~? CredentialByUserID userID ;;
  verified <~ VerifyPassword hash current ;;
  match verified with
  | inl _ | inr (false, _) =>
      record (with_event "password_change_failed" e) ;~
      fails ErrInvalidCredentials
  | inr (true, _) =>
      _ <~? lift_option (ValidatePassword next) ;;
      updated <~? HashPassword next ;;
      _ <~? UpdatePassword userID updated ;;
      _ <~? RevokeAllForUser store userID keepToken ;;
      record (with_event "password_changed" e) ;~
      succeeds tt
  end.
End service.
