(* ===== verification/AuthFacts.v ===== *)
(** * The steps of the authentication service

    What each call the service makes leaves alone, and rules for the statements
    of the [UserStore]. *)

From S2P Require Import Prelude GoStrings Crypto Effects RedisSpec PostgresSpec Hasher RateLimit Sessions.
From S2P Require Import SessionFacts SessionOps SessionCreate Password Users Frames AuthService.

(** ** Calls *)

Lemma limit_key_foreign k : ~ session_owned (limit_key k).
Proof. by intros [[id Hk]|[u Hk]]. Qed.

Ltac foreign_request :=
  simpl; repeat (first [apply Forall_nil_2 | apply Forall_cons; split | split | intros ?]);
  try apply limit_key_foreign; try done.

Lemma Allow_limiter key limit : only limiter_effect (Allow key limit).
Proof.
  unfold Allow. only_by idtac. simpl. split; [repeat constructor; apply limit_key_foreign|].
  intros r. repeat case_match; simpl; repeat (split; [repeat constructor; apply limit_key_foreign|intros ?]); done.
Qed.

Lemma Reset_limiter key : only limiter_effect (Reset key).
Proof.
  unfold Reset. only_by idtac. simpl. repeat constructor. apply limit_key_foreign.
Qed.

Lemma check_limiter key limit : only limiter_effect (check key limit).
Proof. unfold check. only_by idtac. apply Allow_limiter. Qed.

Lemma record_db e : only db_effect (record e).
Proof. unfold record, RecordEvent. only_by ltac:(exact I). Qed.

Lemma CreateUser_db email name h : only db_effect (CreateUser email name h).
Proof. unfold CreateUser. only_by ltac:(exact I). Qed.

Lemma ByEmail_db email : only db_effect (ByEmailWithCredential email).
Proof. unfold ByEmailWithCredential. only_by ltac:(exact I). Qed.

Lemma ByID_db id : only db_effect (ByID id).
Proof. unfold ByID. only_by ltac:(exact I). Qed.

Lemma CredentialByUserID_db id : only db_effect (CredentialByUserID id).
Proof. unfold CredentialByUserID. only_by ltac:(exact I). Qed.

Lemma UpdatePassword_db id h : only db_effect (UpdatePassword id h).
Proof. unfold UpdatePassword. only_by ltac:(exact I). Qed.

Lemma deriveKey_hash password salt p : only hash_effect (deriveKey password salt p).
Proof. unfold deriveKey. only_by ltac:(exact I). Qed.

Lemma HashPassword_hash password : only hash_effect (HashPassword password).
Proof. unfold HashPassword. only_by ltac:(exact I). apply deriveKey_hash. Qed.

Lemma VerifyPassword_hash h password : only hash_effect (VerifyPassword h password).
Proof. unfold VerifyPassword. only_by ltac:(exact I). apply deriveKey_hash. Qed.

Lemma DummyVerify_hash password : only hash_effect (DummyVerify password).
Proof. unfold DummyVerify. only_by ltac:(exact I). apply deriveKey_hash. Qed.

(** ** Rules *)

(** A check does no work and its errors are its own. *)
Definition check_error (e : error) : Prop :=
  (exists e', e = Wrap "rate limiter unavailable" e') \/ (exists d, e = RateLimitError d).

Lemma store_error_not e : store_error e -> e <> ErrInvalidCredentials /\ ~ check_error e.
Proof. intros (m & e' & -> & Hm). split; [done|]. intros [[e'' [= Hm' _]]|[d Hd]]; done. Qed.

Lemma wp_check `{Machine} key limit (Q : error + unit -> mstate -> Prop) w :
  (forall r w', match r with inl e => check_error e | inr _ => True end -> Q r w') ->
  wp (interp (check key limit)) Q w.
Proof.
  intros HQ. unfold check. rewrite wp_interp_bindE. unfold wrapped. rewrite wp_interp_bind.
  apply wp_any. intros [e|[[] d]] w1; rewrite ?wp_interp_fails, ?wp_interp_succeeds; apply HQ; [left|done|right]; eauto.
Qed.

Section database.
Context `{PL : PostgresLaws} {DL : DbLaws db}.

Lemma wp_record e (Q : unit -> mstate -> Prop) w :
  (forall w', same_accounts (database w) (database w') -> Q tt w') -> wp (interp (record e)) Q w.
Proof.
  intros HQ. unfold record, RecordEvent. rewrite !wp_interp_bind. apply wp_query. intros r w' Hs.
  assert (same_accounts (database w) (database w')) as Hsame.
  { destruct r as [[|]|[]]; simpl in Hs; [by destruct Hs as [_ ->]| |by rewrite Hs].
    destruct Hs as [->|([] & ->)]; done. }
  destruct r; by apply HQ.
Qed.

(** What a lookup by address finds. *)
Lemma wp_ByEmail email (Q : error + User * string -> mstate -> Prop) w :
  accounts_ok db (database w) ->
  (forall w', database w' = database w -> ~ email_taken db email (database w) -> Q (inl ErrUserNotFound) w') ->
  (forall w', database w' = database w -> Q (inl (pg_error "select user")) w') ->
  (forall u h w', database w' = database w ->
    users (database w) !! u_id u = Some u -> citext_eqb db (u_email u) email = true ->
    credentials (database w) !! u_id u = Some h -> Q (inr (u, h)) w') ->
  wp (interp (ByEmailWithCredential email)) Q w.
Proof.
  intros Hok Hnone Herr Hsome. unfold ByEmailWithCredential. rewrite wp_interp_bind.
  apply wp_query. intros r w' Hs. destruct r as [[|]|[[u [h|]]|]]; simpl in Hs.
  - by destruct Hs as [[] _].
  - apply Herr. by destruct Hs as [|(o & ? & _)].
  - destruct Hs as (Hd & Hu & He & Hh). by apply Hsome.
  - destruct Hs as (Hd & Hu & He & Hh). destruct (proj1 (ac_credential _ _ Hok (u_id u))) as [h Hh']; [eauto|].
    congruence.
  - destruct Hs as [Hd Hn]. by apply Hnone.
Qed.

Lemma wp_ByID id (Q : error + User -> mstate -> Prop) w :
  accounts_ok db (database w) ->
  (forall r w', database w' = database w ->
    match r with
    | inr u => exists j, uuid_of db id = Some j /\ users (database w) !! j = Some u /\ u_id u = j /\ u_disabled u = false
    | inl e => True
    end -> Q r w') ->
  wp (interp (ByID id)) Q w.
Proof.
  intros Hok HQ. unfold ByID. rewrite wp_interp_bind. apply wp_query. intros r w' Hs.
  destruct r as [[|]|[u|]]; simpl in Hs.
  - by destruct Hs as [[] _].
  - apply HQ; [|done]. by destruct Hs as [|(o & ? & _)].
  - destruct Hs as (Hd & j & Hj & Hu). destruct (u_disabled u) eqn:E; apply HQ; try done.
    exists j. split; [done|]. split; [done|]. split; [by apply (ac_ids _ _ Hok)|done].
  - destruct Hs as (Hd & _). by apply HQ.
Qed.

(** The tables after a credential was replaced. *)
Definition credential_set (i h : string) (tb tb' : tables) : Prop :=
  users tb' = users tb /\ credentials tb' = alter (fun _ => h) i (credentials tb).

Lemma credential_set_ok i h tb tb' :
  stored_hash h -> credential_set i h tb tb' -> accounts_ok db tb -> accounts_ok db tb'.
Proof.
  intros Hh [Hu Hc] Hok.
  apply (same_accounts_ok db (mkTables (users tb) (alter (fun _ => h) i (credentials tb)) (rooms tb) (auth_events tb)));
    [by split|]. by apply update_ok.
Qed.

(** An update reports success only if it changed a row. *)
Lemma wp_UpdatePassword id h (Q : error + unit -> mstate -> Prop) w :
  (forall r w',
    match r with
    | inr _ => exists j, uuid_of db id = Some j /\ is_Some (credentials (database w) !! j) /\
        credential_set j h (database w) (database w')
    | inl e => e <> ErrInvalidCredentials /\ ~ check_error e /\ (same_accounts (database w) (database w') \/
        exists j, uuid_of db id = Some j /\ credential_set j h (database w) (database w'))
    end -> Q r w') ->
  wp (interp (UpdatePassword id h)) Q w.
Proof.
  intros HQ. unfold UpdatePassword. rewrite wp_interp_bind. apply wp_query. intros r w' Hs.
  destruct r as [[|]|n]; simpl in Hs.
  - by destruct Hs as [[] _].
  - apply HQ. split; [done|]. split; [by intros [[? [= ]]|[? ?]]|]. destruct Hs as [->|(n & j & Hj & _ & ->)]; [by left|]. right. by exists j.
  - destruct Hs as (j & Hj & -> & Hd). destruct (credentials (database w) !! j) as [h0|] eqn:E; simpl.
    + apply HQ. exists j. rewrite Hd. split; [done|]. split; [eauto|done].
    + apply HQ. split; [done|]. split; [by intros [[? ?]|[? ?]]|]. left. rewrite Hd. split; [done|]. simpl.
      apply map_eq. intros k. destruct (decide (j = k)) as [->|Hne];
        [by rewrite lookup_alter_eq, E|by rewrite lookup_alter_ne].
Qed.

Lemma wp_CredentialByUserID id (Q : error + string -> mstate -> Prop) w :
  (forall r w', database w' = database w ->
    match r with
    | inr h => exists j, uuid_of db id = Some j /\ credentials (database w) !! j = Some h
    | inl e => e <> ErrInvalidCredentials
    end -> Q r w') ->
  wp (interp (CredentialByUserID id)) Q w.
Proof.
  intros HQ. unfold CredentialByUserID. rewrite wp_interp_bind. apply wp_query. intros r w' Hs.
  destruct r as [[|]|[h|]]; simpl in Hs.
  - by destruct Hs as [[] _].
  - apply HQ; [|done]. by destruct Hs as [|(o & ? & _)].
  - destruct Hs as (Hd & j & Hj & Hh). apply HQ; [done|]. eauto.
  - destruct Hs as (Hd & _). by apply HQ.
Qed.

Lemma wp_CreateUser email name h (Q : error + User -> mstate -> Prop) w :
  (forall r w',
    match r with
    | inr u => account_created db email name h (database w) u (database w')
    | inl e => database w' = database w \/ exists u, account_created db email name h (database w) u (database w')
    end -> (forall e, r = inl e ->
      e = ErrEmailTaken /\ email_taken db email (database w) /\ database w' = database w \/ store_error e) ->
    Q r w') ->
  wp (interp (CreateUser email name h)) Q w.
Proof.
  intros HQ. apply wp_transaction. intros r w' Hs. apply create_user_spec in Hs as [Hs Ht]. by apply HQ.
Qed.

(** *** With the work *)

Lemma wpw_check key limit (Q : error + unit -> mstate -> list work -> Prop) w :
  (forall r w', database w' = database w -> match r with inl e => check_error e | inr _ => True end -> Q r w' []) ->
  wpw (check key limit) Q w.
Proof.
  intros HQ. apply wpw_no_hash; [apply store_no_hash, limiter_store, check_limiter|].
  eapply wp_mono; [apply (wp_conj _ (fun _ w' => database w' = database w)
      (fun r _ => match r with inl e => check_error e | inr _ => True end));
    [apply wp_no_db, store_no_db, limiter_store, check_limiter|by apply wp_check]|].
  simpl. intros r w' [Hd Hr]. by apply HQ.
Qed.

Lemma wpw_Reset key (Q : error + unit -> mstate -> list work -> Prop) w :
  (forall r w', database w' = database w -> Q r w' []) -> wpw (Reset key) Q w.
Proof.
  intros HQ. apply wpw_no_hash; [apply store_no_hash, limiter_store, Reset_limiter|].
  eapply wp_mono; [apply wp_no_db, store_no_db, limiter_store, Reset_limiter|]. intros r w' Hd. by apply HQ.
Qed.

Lemma wpw_record e (Q : unit -> mstate -> list work -> Prop) w :
  (forall w', same_accounts (database w) (database w') -> Q tt w' []) -> wpw (record e) Q w.
Proof. intros HQ. apply wpw_no_hash; [apply db_no_hash, record_db|]. by apply wp_record. Qed.

(** Hashing does not touch the tables. *)
Lemma wpw_hashing {A} (p : prog A) (Q : A -> mstate -> list work -> Prop) w :
  only hash_effect p -> wpw p (fun a w' t => database w' = database w -> Q a w' t) w -> wpw p Q w.
Proof. intros Hp. apply wpw_with, wp_no_db, hash_no_db, Hp. Qed.
End database.
