(* ===== verification/AuthLogin.v ===== *)
(** * Logging in

    What a login decides, by which work, and what it leaves in the tables. *)

From S2P Require Import Prelude GoStrings Crypto Effects RedisSpec PostgresSpec Hasher RateLimit Sessions.
From S2P Require Import SessionFacts SessionOps SessionCreate Password Users Frames AuthService AuthFacts.

Section login.
Context `{PL : PostgresLaws} {DL : DbLaws db} {HV : HasherView} {HL : HasherLaws HV}.
Context `{Unicode} `{SJ : SessionJson}.
Variable store : SessionStore.

(** The account an address and a password give access to. *)
Definition valid_login (tb : tables) (email password : string) (u : User) : Prop :=
  users tb !! u_id u = Some u /\ citext_eqb db (u_email u) email = true /\ u_disabled u = false /\
  exists h, credentials tb !! u_id u = Some h /\ verifies password h.

(** The accounts as they were, but for a new hash of the same password. *)
Definition upgraded (tb tb' : tables) (u : User) (password : string) : Prop :=
  same_accounts tb tb' \/
  exists h, current_hash h /\ verifies password h /\ credential_set (u_id u) h tb tb'.

(** The parameters a failed attempt is hashed with. *)
Definition attempt_params (tb : tables) (p : params) : Prop :=
  p = argon2Params \/
  exists i h salt key, credentials tb !! i = Some h /\ decodeHash h = inr (p, salt, key).

Definition login_post (tb : tables) (email password : string)
    (r : error + User * string * Session) (tb' : tables) (t : list work) : Prop :=
  match r with
  | inr (u, token, s) =>
      valid_login tb email password u /\ upgraded tb tb' u password /\
      UserID s = u_id u /\ ID s = hashToken token
  | inl e =>
      (same_accounts tb tb' \/ exists u, valid_login tb email password u /\ upgraded tb tb' u password) /\
      (check_error e -> t = [] /\ same_accounts tb tb') /\
      (e = ErrInvalidCredentials ->
        same_accounts tb tb' /\
        (t = [Refused] \/
         exists p, t = [Hashed p] /\ attempt_params tb p /\ forall u, ~ valid_login tb email password u))
  end.

(** An address belongs to one account. *)
Lemma email_unique tb email u v :
  accounts_ok db tb -> users tb !! u_id u = Some u -> users tb !! u_id v = Some v ->
  citext_eqb db (u_email u) email = true -> citext_eqb db (u_email v) email = true -> u = v.
Proof.
  intros Hok Hu Hv He He'. assert (u_id u = u_id v) as Hid.
  { apply (ac_unique _ _ Hok (u_id u) (u_id v) u v); try done.
    apply (citext_trans _ email); [done|]. by rewrite citext_sym. }
  rewrite Hid in Hu. congruence.
Qed.

Lemma Create_error u ip ua (Q : error + string * Session -> mstate -> Prop) w :
  (forall r w', match r with
    | inl e => store_error e
    | inr (token, s) => ID s = hashToken token /\ UserID s = u
    end -> Q r w') ->
  wp (interp (Create store u ip ua)) Q w.
Proof.
  intros HQ. unfold Create, newToken. rewrite wp_interp_bindE, wp_interp_bind. apply wp_interp_call.
  destruct (fst _) as [buf|]; [|apply wp_interp_fails, HQ; by eexists _, _].
  apply wp_interp_succeeds. rewrite wp_interp_bind. apply wp_interp_call.
  destruct (marshal _) as [p|]; [|apply wp_interp_fails, HQ; by eexists _, _].
  rewrite wp_interp_bindE. apply wp_wrapped, wp_any. intros [e|rs] w2; [apply HQ; by eexists _, _|].
  rewrite wp_interp_bind. apply wp_any. intros [] w3.
  apply wp_interp_succeeds, HQ. done.
Qed.

Lemma wpw_Create u ip ua (Q : error + string * Session -> mstate -> list work -> Prop) w :
  (forall r w', database w' = database w -> match r with
    | inl e => store_error e
    | inr (token, s) => ID s = hashToken token /\ UserID s = u
    end -> Q r w' []) ->
  wpw (Create store u ip ua) Q w.
Proof.
  intros HQ. apply wpw_no_hash; [apply store_no_hash, Create_store|].
  eapply wp_mono; [apply (wp_conj _ (fun _ w' => database w' = database w) (fun r _ => match r with
    | inl e => store_error e | inr (token, s) => ID s = hashToken token /\ UserID s = u end));
    [apply wp_no_db, store_no_db, Create_store|by apply Create_error]|].
  simpl. intros r w' [Hd Hr]. by apply HQ.
Qed.

Lemma same_accounts_trans tb1 tb2 tb3 : same_accounts tb1 tb2 -> same_accounts tb2 tb3 -> same_accounts tb1 tb3.
Proof. intros [H1' H2'] [H3' H4']. split; congruence. Qed.

(** The end of a login that will fail for want of an account. *)
Lemma wpw_no_account e password (Q : error + User * string * Session -> mstate -> list work -> Prop) w :
  (forall w' t, same_accounts (database w) (database w') -> t = [Refused] \/ t = [Hashed argon2Params] ->
    Q (inl ErrInvalidCredentials) w' t) ->
  wpw (DummyVerify password ;~ record e ;~ fails ErrInvalidCredentials) Q w.
Proof.
  intros HQ. apply wpw_bind, wpw_hashing; [apply DummyVerify_hash|].
  apply wpw_DummyVerify; intros w1 Hd; apply wpw_bind, wpw_record; intros w2 Hs; apply wpw_ret, HQ;
    rewrite ?Hd in Hs; auto.
Qed.

(** A new hash of the right password, or none. *)
Lemma wpw_rehash u password (Q : unit -> mstate -> list work -> Prop) w :
  accounts_ok db (database w) -> is_Some (users (database w) !! u_id u) ->
  (forall w' t, upgraded (database w) (database w') u password -> Q tt w' t) ->
  wpw (rehash u password) Q w.
Proof.
  intros Hok Hu HQ. apply wpw_bind, wpw_hashing; [apply HashPassword_hash|].
  apply wpw_HashPassword; [|intros e w1 t _ Hd; apply wpw_ret, HQ; left; by rewrite Hd].
  intros h w1 Hh Hv Hd. apply wpw_bind, wpw_no_hash; [apply db_no_hash, UpdatePassword_db|].
  apply wp_UpdatePassword. intros r w2 Hr. apply wpw_ret, HQ. rewrite Hd in Hr.
  assert (forall j, uuid_of db (u_id u) = Some j -> j = u_id u) as Hj.
  { intros j Hj. rewrite (ac_uuid _ _ Hok) in Hj by done. by injection Hj. }
  destruct r as [e|[]].
  - destruct Hr as (_ & _ & [Hs|(j & ->%Hj & Hs)]); [by left|]. right. eauto.
  - destruct Hr as (j & ->%Hj & _ & Hs). right. eauto.
Qed.

(** The rest of a login once the password is known to be right. *)
Lemma wpw_admitted (needsRehash : bool) u password key ip ua e
    (Q : error + User * string * Session -> mstate -> list work -> Prop) w :
  accounts_ok db (database w) -> is_Some (users (database w) !! u_id u) ->
  (forall r w' t, upgraded (database w) (database w') u password ->
    match r with
    | inl e => store_error e
    | inr (u', token, s) => u' = u /\ ID s = hashToken token /\ UserID s = u_id u
    end -> Q r w' t) ->
  wpw ((if needsRehash then rehash u password else Ret tt) ;~
       Reset key ;~
       created <~? Create store (u_id u) ip ua ;;
       let '(token, sess) := created in
       record e ;~
       succeeds (u, token, sess)) Q w.
Proof.
  intros Hok Hu HQ. apply wpw_bind.
  assert (forall w1 t1, upgraded (database w) (database w1) u password ->
    wpw (Reset key ;~ created <~? Create store (u_id u) ip ua ;;
      let '(token, sess) := created in record e ;~ succeeds (u, token, sess))
      (fun b w'' t' => Q b w'' (t1 ++ t')) w1) as Hrest.
  { intros w1 t1 Hup. apply wpw_bind, wpw_Reset. intros r1 w2 Hd2.
    apply wpw_bindE, wpw_Create. intros r w3 Hd3 Hr. rewrite Hd2 in Hd3.
    destruct r as [e1|[token s]]; [apply HQ; [by rewrite Hd3|done]|].
    apply wpw_bind, wpw_record. intros w4 Hs. apply wpw_ret, HQ; [|done].
    rewrite Hd3 in Hs. destruct Hup as [Hup|(h & Hh & Hv & Hset)].
    - left. by eapply same_accounts_trans.
    - right. exists h. split; [done|]. split; [done|]. destruct Hset as [E1 E2], Hs as [E3 E4].
      split; congruence. }
  destruct needsRehash.
  - apply wpw_rehash; [done..|]. intros w1 t1 Hup. by apply Hrest.
  - apply wpw_ret, Hrest. by left.
Qed.

Lemma wpw_Login in_ (Q : error + User * string * Session -> mstate -> list work -> Prop) w :
  accounts_ok db (database w) ->
  (forall r w' t,
    login_post (database w) (NormalizeEmail (cr_Email in_)) (cr_Password in_) r (database w') t -> Q r w' t) ->
  wpw (Login store in_) Q w.
Proof.
  intros Hok HQ. set (email := NormalizeEmail (cr_Email in_)) in *. unfold Login. fold email.
  apply wpw_bindE, wpw_check. intros r1 w1 Hd1 Hr1.
  destruct r1 as [e|[]]; [apply HQ; rewrite Hd1; split; [by left|]; split; [done|];
    by destruct Hr1 as [[? ->]|[? ->]]|].
  apply wpw_bind, wpw_check. intros r2 w2 Hd2 Hr2. rewrite Hd1 in Hd2.
  destruct r2 as [e|[]].
  { apply wpw_bind, wpw_record. intros w3 Hs. rewrite Hd2 in Hs. apply wpw_ret, HQ. split; [by left|].
    split; [done|]. by destruct Hr2 as [[? ->]|[? ->]]. }
  apply wpw_bind, wpw_no_hash; [apply db_no_hash, ByEmail_db|].
  apply wp_ByEmail; [by rewrite Hd2|..].
  - intros w3 Hd3 Hn. rewrite Hd2 in Hn, Hd3. cbn [Is error_eq_dec]. rewrite bool_decide_true by done. simpl.
    apply wpw_no_account. intros w4 t Hs Ht. apply HQ. rewrite Hd3 in Hs. split; [by left|]. split.
    + intros [[? ?]|[? ?]]; done.
    + intros _. split; [done|]. destruct Ht as [->| ->]; [by left|]. right.
      exists argon2Params. split; [done|]. split; [by left|].
      intros u (Hu & He & _). apply Hn. by exists (u_id u), u.
  - intros w3 Hd3. rewrite Hd2 in Hd3. simpl. apply wpw_ret, HQ. rewrite Hd3. split; [by left|]. split; [|done].
    intros [[? ?]|[? ?]]; done.
  - intros u h w3 Hd3 Hu He Hh. rewrite Hd2 in Hd3, Hu, Hh.
    assert (forall v, valid_login (database w) email (cr_Password in_) v -> v = u) as Huniq.
    { intros v (Hv & Hve & _). by apply (email_unique (database w) email). }
    destruct (u_disabled u) eqn:Hdis.
    + apply wpw_no_account. intros w4 t Hs Ht. apply HQ. rewrite Hd3 in Hs. split; [by left|]. split.
      * intros [[? ?]|[? ?]]; done.
      * intros _. split; [done|]. destruct Ht as [->| ->]; [by left|]. right.
        exists argon2Params. split; [done|]. split; [by left|].
        intros v Hv. pose proof (Huniq v Hv) as ->. destruct Hv as (_ & _ & Hdis' & _). congruence.
    + destruct (stored_decodes h (ac_hash _ _ Hok _ _ Hh)) as (p & salt & key & Hdec & _).
      apply wpw_bind, wpw_hashing; [apply VerifyPassword_hash|].
      apply (wpw_VerifyPassword _ _ _ _ p salt key Hdec).
      * intros w4 Hd4. rewrite Hd3 in Hd4. apply wpw_ret, HQ. rewrite Hd4. split; [by left|].
        split; [by intros [[? ?]|[? ?]]|]. intros _. split; [done|]. by left.
      * intros w4 Hv Hd4. rewrite Hd3 in Hd4.
        assert (valid_login (database w) email (cr_Password in_) u) as Hvalid
          by (split; [done|]; split; [done|]; split; [done|]; by exists h).
        apply wpw_admitted with (password := cr_Password in_); [by rewrite Hd4|rewrite Hd4; eauto|].
        intros r w5 t Hup Hr. rewrite Hd4 in Hup. apply HQ.
        destruct r as [e|[[u' token] s]]; [|by destruct Hr as (-> & Hid & Hus)].
        apply store_error_not in Hr as [Hnot Hnc]. split; [right; eauto|]. split; [by intros Hc%Hnc|done].
      * intros w4 Hv Hd4. rewrite Hd3 in Hd4. apply wpw_bind, wpw_record. intros w5 Hs. rewrite Hd4 in Hs.
        apply wpw_ret, HQ. split; [by left|]. split; [by intros [[? ?]|[? ?]]|]. intros _. split; [done|].
        right. exists p. split; [done|]. split; [right; by exists (u_id u), h, salt, key|].
        intros v Hvv. pose proof (Huniq v Hvv) as ->. destruct Hvv as (_ & _ & _ & h' & Hh' & Hver).
        rewrite Hh in Hh'. injection Hh' as <-. done.
Qed.
End login.
