(* ===== verification/LoginSucceeds.v ===== *)
(** * Logging in when nothing is in the way

    What a login can fail of, besides the wrong address or password: a call that is
    not answered, a counter over its limit, no hashing slot, no randomness, a time that
    has no JSON. When none of that happens in its run it succeeds. *)

From S2P Require Import Prelude GoStrings Crypto Effects RedisSpec PostgresSpec Hasher RateLimit Sessions.
From S2P Require Import SessionFacts SessionOps SessionCreate Password Users Frames AuthService AuthFacts AuthLogin.

(** ** Runs in which every answer is of a kind *)

Section answers.
Context `{Machine}.
Variable good : forall X, eff X -> X -> Prop.

Fixpoint undisturbed {A} (p : prog A) (w : mstate) : Prop :=
  match p with
  | Ret _ => True
  | Vis e f => let '(x, w') := respond _ e w in good _ e x /\ undisturbed (f x) w'
  end.

(** A triple for such runs. *)
Definition wpu {A} (p : prog A) (Q : A -> mstate -> Prop) (w : mstate) : Prop :=
  undisturbed p w -> wp (interp p) Q w.

Lemma wpu_bind {A B} (p : prog A) (f : A -> prog B) Q w :
  wpu p (fun a w' => wpu (f a) Q w') w -> wpu (bind p f) Q w.
Proof.
  unfold wpu. revert w. induction p as [a|X e g IH]; intros w; cbn [bind undisturbed]; [intros Hp; exact (Hp I)|].
  rewrite !wp_interp_vis. destruct (respond _ e w) as [x w1]. intros Hp [He Hrest]. apply IH; [|done].
  intros Hg. by apply Hp.
Qed.

Lemma wpu_call {X} (e : eff X) (Q : X -> mstate -> Prop) w :
  (forall x w', respond _ e w = (x, w') -> good _ e x -> Q x w') -> wpu (call e) Q w.
Proof.
  unfold wpu, call. cbn [undisturbed]. intros HQ. rewrite wp_interp_vis. destruct (respond _ e w) as [x w1]. intros [Hg _]. by apply HQ.
Qed.

Lemma wpu_ret {A} (a : A) (Q : A -> mstate -> Prop) w : Q a w -> wpu (Ret a) Q w.
Proof. by intros HQ _. Qed.

Lemma wpu_succeeds {A} (a : A) (Q : error + A -> mstate -> Prop) w : Q (inr a) w -> wpu (succeeds a) Q w.
Proof. apply wpu_ret. Qed.

Lemma wpu_mono {A} (p : prog A) (Q Q' : A -> mstate -> Prop) w :
  wpu p Q w -> (forall a w', Q a w' -> Q' a w') -> wpu p Q' w.
Proof. intros Hp HQ Hu. eapply wp_mono; [by apply Hp|]. done. Qed.

(** What holds of every run holds of these. *)
Lemma wpu_wp {A} (p : prog A) (Q R : A -> mstate -> Prop) w :
  wp (interp p) R w -> wpu p (fun a w' => R a w' -> Q a w') w -> wpu p Q w.
Proof.
  intros Hr Hp Hu. eapply wp_mono; [exact (wp_conj _ _ _ _ Hr (Hp Hu))|]. cbv beta. intros a w' [H1 H2]. by apply H2.
Qed.

Lemma wpu_any {A} (p : prog A) (Q : A -> mstate -> Prop) w : (forall a w', Q a w') -> wpu p Q w.
Proof. intros HQ _. by apply wp_any. Qed.

Lemma wpu_bindE {A B} (p : prog (error + A)) (f : A -> prog (error + B)) Q w :
  wpu p (fun r w' => exists a, r = inr a /\ wpu (f a) Q w') w -> wpu (bindE p f) Q w.
Proof.
  intros Hp. apply wpu_bind. eapply wpu_mono; [exact Hp|]. cbv beta. by intros r w' (a & -> & Hf).
Qed.

Lemma wpu_wrapped {A} msg (p : prog (error + A)) Q w :
  wpu p (fun r w' => exists a, r = inr a /\ Q (inr a) w') w -> wpu (wrapped msg p) Q w.
Proof.
  intros Hp. apply wpu_bind. eapply wpu_mono; [exact Hp|]. cbv beta. by intros r w' (a & -> & Hq) _.
Qed.
End answers.

(** ** The answers a login hopes for *)

Section login.
Context `{PL : PostgresLaws} {DL : DbLaws db} {HV : HasherView} {HL : HasherLaws HV}.
Context `{Unicode} `{SJ : SessionJson}.
Variable store : SessionStore.

(** A counter within its limit; any other answer without a failure; a time of which a
    session that begins then can be encoded. *)
Definition fine_answer (limits : string -> Z) : forall X, eff X -> X -> Prop := fun X e =>
  match e in eff X return X -> Prop with
  | Now => fun n => forall s, CreatedAt s = n -> ExpiresAt s = (n + absoluteTTL store)%Z -> LastSeenAt s = n ->
      marshal s <> None
  | Random _ => fun o => o <> None
  | Redis (Pipeline _) => fun o => exists rs, o = Some rs /\ first_error rs = None
  | Redis (Script (Call (Incr k) _)) => fun o => exists count ttl, o = Some [RInt count; RInt ttl] /\ (count <= limits k)%Z
  | Query _ => fun r => exists x, r = inr x
  | AcquireSlot => fun b => b = true
  | _ => fun _ => True
  end.

(** The limits of the two counters of a login. *)
Definition login_limits (email : string) (k : string) : Z :=
  if decide (k = limit_key (account_key email)) then Requests LoginPerAccount else Requests LoginPerIP.

Variable email : string.
Abbreviation wpu := (wpu (fine_answer (login_limits email))).

Lemma wpu_check key limit (Q : error + unit -> mstate -> Prop) w :
  (login_limits email (limit_key key) <= Requests limit)%Z ->
  (forall w', database w' = database w -> Q (inr tt) w') -> wpu (check key limit) Q w.
Proof.
  intros Hlim HQ.
  eapply (wpu_wp _ _ _ (fun _ w' => database w' = database w));
    [apply wp_no_db, store_no_db, limiter_store, check_limiter|].
  unfold check. apply wpu_bindE, wpu_wrapped. unfold Allow. apply wpu_bindE, wpu_wrapped.
  unfold redis. apply wpu_bind, wpu_call. intros o w1 _ (count & ttl & -> & Hc). apply wpu_succeeds.
  eexists. split; [done|]. eexists. split; [done|]. cbn [as_int].
  assert ((Requests limit <? count)%Z = false) as -> by lia.
  apply wpu_succeeds. eexists. split; [done|]. eexists. split; [done|]. apply wpu_succeeds, HQ.
Qed.

Lemma wpu_found password u (Q : error + User * string -> mstate -> Prop) w :
  accounts_ok db (database w) -> valid_login (database w) email password u ->
  (forall h w', database w' = database w -> credentials (database w) !! u_id u = Some h -> verifies password h ->
    Q (inr (u, h)) w') ->
  wpu (ByEmailWithCredential email) Q w.
Proof.
  intros Hok (Hu & He & _ & h & Hh & Hv) HQ. unfold ByEmailWithCredential.
  apply wpu_bind, wpu_call. intros r w1 Hr [x ->]. apply query_answer in Hr. simpl in Hr.
  destruct x as [[v o]|]; simpl in Hr.
  - destruct Hr as (Hd & Hv1 & Hv2 & ->). pose proof (email_unique _ email v u Hok Hv1 Hu Hv2 He) as ->.
    rewrite Hh. apply wpu_succeeds. by eapply HQ.
  - destruct Hr as [_ Hno]. destruct Hno. by exists (u_id u), u.
Qed.

Lemma wpu_verified password h p salt key (Q : error + bool * bool -> mstate -> Prop) w :
  decodeHash h = inr (p, salt, key) -> verifies password h ->
  (forall needs w', database w' = database w -> Q (inr (true, needs)) w') -> wpu (VerifyPassword h password) Q w.
Proof.
  intros Hd Hv HQ. assert (key = kdf password salt p) as Hk.
  { destruct Hv as (p' & salt' & key' & Hd' & ->). rewrite Hd in Hd'. by injection Hd' as <- <- <-. }
  eapply (wpu_wp _ _ _ (fun _ w' => database w' = database w)); [apply wp_no_db, hash_no_db, VerifyPassword_hash|].
  unfold VerifyPassword. rewrite Hd. apply wpu_bindE. unfold deriveKey.
  apply wpu_bind, wpu_call. intros b w1 _ ->. apply wpu_bind, wpu_call. intros k w2 Hr _. apply idkey_answer in Hr as ->.
  apply wpu_bind, wpu_call. intros [] w3 _ _. apply wpu_succeeds. eexists. split; [done|].
  rewrite bool_decide_true by done. apply wpu_succeeds, HQ.
Qed.

Lemma wpu_Create u ip ua (Q : error + string * Session -> mstate -> Prop) w :
  (forall token s w', Q (inr (token, s)) w') -> wpu (Create store u ip ua) Q w.
Proof.
  intros HQ. unfold Create, newToken. apply wpu_bindE, wpu_bind, wpu_call. intros o w1 _ Ho. simpl in Ho.
  destruct o as [buf|]; [|done]. apply wpu_succeeds. eexists. split; [done|].
  apply wpu_bind, wpu_call. intros n w2 _ Hn. cbv zeta. set (s := mkSession _ _ _ _ _ _ _).
  destruct (marshal s) as [payload|] eqn:Hm; [|by apply (Hn s) in Hm].
  apply wpu_bindE, wpu_wrapped. unfold redis. apply wpu_bind, wpu_call. intros o w3 _ (rs & -> & Hrs). rewrite Hrs.
  apply wpu_succeeds. eexists. split; [done|]. eexists. split; [done|].
  apply wpu_bind, wpu_any. intros [] w4. apply wpu_succeeds, HQ.
Qed.
End login.

Section succeeds.
Context `{PL : PostgresLaws} {DL : DbLaws db} {HV : HasherView} {HL : HasherLaws HV}.
Context `{Unicode} `{SJ : SessionJson}.
Variable store : SessionStore.

(** A valid login that meets only fine answers succeeds. *)
Lemma login_succeeds in_ u w :
  accounts_ok db (database w) ->
  valid_login (database w) (NormalizeEmail (cr_Email in_)) (cr_Password in_) u ->
  undisturbed (fine_answer store (login_limits (NormalizeEmail (cr_Email in_)))) (Login store in_) w ->
  wp (interp (Login store in_)) (fun r _ => exists x, r = inr x) w.
Proof.
  intros Hok Hvalid. set (email := NormalizeEmail (cr_Email in_)) in *.
  change (wpu (fine_answer store (login_limits email)) (Login store in_) (fun r _ => exists x, r = inr x) w).
  unfold Login. fold email. apply wpu_bindE, wpu_check; [unfold login_limits; case_decide; done|]. intros w1 Hd1.
  eexists. split; [done|]. apply wpu_bind, wpu_check; [unfold login_limits; by rewrite decide_True|]. intros w2 Hd2.
  rewrite Hd1 in Hd2. apply wpu_bind. eapply (wpu_found store email (cr_Password in_) u); [by rewrite Hd2..|].
  intros h w3 Hd3 Hh Hv. rewrite Hd2 in Hd3, Hh. destruct (proj2 (proj2 Hvalid)) as [-> _].
  destruct (stored_decodes h (ac_hash _ _ Hok _ _ Hh)) as (p & salt & key & Hdec & _).
  apply wpu_bind. eapply wpu_verified; [exact Hdec|exact Hv|]. intros needs w4 _.
  apply wpu_bind, wpu_any. intros _ w5. apply wpu_bind, wpu_any. intros _ w6.
  apply wpu_bindE, wpu_Create. intros token s w7. eexists. split; [done|].
  apply wpu_bind, wpu_any. intros _ w8. apply wpu_succeeds. by eexists.
Qed.
End succeeds.
