(* ===== verification/World.v ===== *)
(** * The invariant of the whole service

    [world]: the session store's invariant and that of the accounts hold
    together. [keeps p Phi]: run from such a state, [p] ends in one, with a
    result that satisfies [Phi]. Every operation of the authentication service
    keeps it. *)

From S2P Require Import Prelude GoStrings Crypto Effects RedisSpec PostgresSpec Hasher RateLimit.
From S2P Require Import Sessions SessionFacts SessionOps SessionCreate Password Users Frames.
From S2P Require Import AuthService AuthFacts AuthLogin.

Section world.
Context `{RL : RedisLaws} {CL : ClockLaws _} {PV : PostgresView} {PL : PostgresLaws PV} {DL : DbLaws db}.
Context {HV : HasherView} {HL : HasherLaws HV} `{JL : SessionJsonLaws} `{Unicode}.
Variable store : SessionStore.
Variable secs : Z.
Hypothesis absolute_secs : absoluteTTL store = (secs * 1000000000)%Z.
Hypothesis secs_pos : (0 < secs)%Z.

Record world (w : mstate) : Prop := {
  wo_sessions : sok secs w;
  wo_accounts : accounts_ok db (database w)
}.

Definition keeps {A} (p : prog A) (Phi : A -> Prop) : Prop :=
  forall w, world w -> wp (interp p) (fun a w' => world w' /\ Phi a) w.

Definition anything {A} (_ : A) : Prop := True.

(** ** Composition *)

Lemma keeps_mono {A} (p : prog A) (Phi Psi : A -> Prop) :
  (forall a, Phi a -> Psi a) -> keeps p Phi -> keeps p Psi.
Proof. intros HPhi Hp w Hw. eapply wp_mono; [by apply Hp|]. naive_solver. Qed.

Lemma keeps_ret {A} (a : A) (Phi : A -> Prop) : Phi a -> keeps (Ret a) Phi.
Proof. by intros Ha w Hw. Qed.

Lemma keeps_bind {A B} (p : prog A) (f : A -> prog B) Phi Psi :
  keeps p Phi -> (forall a, Phi a -> keeps (f a) Psi) -> keeps (bind p f) Psi.
Proof.
  intros Hp Hf w Hw. rewrite wp_interp_bind. eapply wp_mono; [by apply Hp|].
  intros a w' [Hw' Ha]. by apply Hf.
Qed.

(** Errors aside. *)
Definition on_success {A} (Phi : A -> Prop) (r : error + A) : Prop :=
  match r with inl _ => True | inr a => Phi a end.

Lemma keeps_bindE {A B} (p : prog (error + A)) (f : A -> prog (error + B)) Phi Psi :
  keeps p (on_success Phi) -> (forall a, Phi a -> keeps (f a) (on_success Psi)) ->
  keeps (bindE p f) (on_success Psi).
Proof.
  intros Hp Hf. eapply keeps_bind; [exact Hp|]. intros [e|a] Ha; [by apply keeps_ret|by apply Hf].
Qed.

(** ** Single steps *)

(** Requests to Redis off the session keys, and hashing. *)
Lemma keeps_foreign {A} (p : prog A) : only foreign p -> only no_db p -> keeps p anything.
Proof.
  intros Hf Hd w [Hs Ha].
  eapply wp_mono; [exact (wp_conj _ _ _ _ (wp_foreign p w Hf) (wp_no_db p w Hd))|].
  intros a w' [[Hage Ht] Hdb]. split; [|done]. split; [|by rewrite Hdb].
  apply (sok_end _ w); [done|]. eapply sessions_ok_aged; [|exact Hage|]; [lia|]. by apply sok_start.
Qed.

Lemma keeps_limiter {A} (p : prog A) : only limiter_effect p -> keeps p anything.
Proof. intros Hp. apply keeps_foreign; [by apply limiter_foreign|by apply store_no_db, limiter_store]. Qed.

Lemma keeps_hashing {A} (p : prog A) : only hash_effect p -> keeps p anything.
Proof. intros Hp. apply keeps_foreign; [by apply hash_foreign|by apply hash_no_db]. Qed.

(** Programs of the session store, by their triples. *)
Lemma keeps_store {A} (p : prog A) Phi :
  only store_effect p -> (forall w, sok secs w -> wp (interp p) (fun a w' => sok secs w' /\ Phi a) w) ->
  keeps p Phi.
Proof.
  intros Hp Htriple w [Hs Ha].
  eapply wp_mono; [exact (wp_conj _ _ _ _ (Htriple w Hs) (wp_no_db p w (store_no_db _ Hp)))|].
  intros a w' [[Hs' HPhi] Hdb]. split; [|done]. split; [done|by rewrite Hdb].
Qed.

(** Programs of the database, by what they do to the accounts. *)
Lemma keeps_db {A} (p : prog A) Phi :
  only db_effect p ->
  (forall w, accounts_ok db (database w) -> wp (interp p) (fun a w' => accounts_ok db (database w') /\ Phi a) w) ->
  keeps p Phi.
Proof.
  intros Hp Htriple w [Hs Ha].
  eapply wp_mono; [exact (wp_conj _ _ _ _ (Htriple w Ha) (wp_foreign p w (db_foreign _ Hp)))|].
  intros a w' [[Ha' HPhi] [Hage Ht]]. split; [|done]. split; [|done].
  apply (sok_end _ w); [done|]. eapply sessions_ok_aged; [|exact Hage|]; [lia|]. by apply sok_start.
Qed.

(** ** The stores *)

Lemma keeps_check key limit : keeps (check key limit) (on_success anything).
Proof. eapply keeps_mono; [|apply keeps_limiter, check_limiter]. by intros [|]. Qed.

Lemma keeps_Reset key : keeps (Reset key) anything.
Proof. apply keeps_limiter, Reset_limiter. Qed.

Lemma keeps_record e : keeps (record e) anything.
Proof.
  apply keeps_db; [apply record_db|]. intros w Ha. apply wp_record. intros w' Hs. split; [|done].
  by eapply same_accounts_ok.
Qed.

(** The user of a login: an account with a uuid. *)
Definition known_user (u : User) : Prop := is_ascii (u_id u) = true.

Lemma account_ascii tb u : accounts_ok db tb -> is_Some (users tb !! u_id u) -> known_user u.
Proof. intros Hok Hu. eapply uuid_ascii. by apply (ac_uuid _ _ Hok). Qed.

Lemma keeps_ByEmail email :
  keeps (ByEmailWithCredential email) (on_success (fun p => known_user p.1 /\ stored_hash p.2)).
Proof.
  apply keeps_db; [apply ByEmail_db|]. intros w Ha. apply wp_ByEmail; [done|..].
  - intros w' -> _. done.
  - by intros w' ->.
  - intros u h w' -> Hu _ Hh. split; [done|]. split; [eapply account_ascii; eauto|by eapply ac_hash].
Qed.

Lemma keeps_ByID id : keeps (ByID id) (on_success known_user).
Proof.
  apply keeps_db; [apply ByID_db|]. intros w Ha. apply wp_ByID; [done|].
  intros r w' -> Hr. split; [done|]. destruct r as [|u]; [done|].
  destruct Hr as (j & _ & Hu & <- & _). eapply account_ascii; eauto.
Qed.

Lemma keeps_CredentialByUserID id : keeps (CredentialByUserID id) (on_success stored_hash).
Proof.
  apply keeps_db; [apply CredentialByUserID_db|]. intros w Ha. apply wp_CredentialByUserID.
  intros r w' -> Hr. split; [done|]. destruct r as [|h]; [done|]. destruct Hr as (j & _ & Hh).
  by eapply ac_hash.
Qed.

Lemma keeps_UpdatePassword id h : stored_hash h -> keeps (UpdatePassword id h) anything.
Proof.
  intros Hh. apply keeps_db; [apply UpdatePassword_db|]. intros w Ha. apply wp_UpdatePassword.
  intros r w' Hr. split; [|done].
  destruct r as [e|[]]; [destruct Hr as (_ & _ & [Hs|(j & _ & Hs)])|destruct Hr as (j & _ & _ & Hs)];
    eauto using same_accounts_ok, credential_set_ok.
Qed.

Lemma keeps_CreateUser email name h :
  stored_hash h -> keeps (CreateUser email name h) (on_success known_user).
Proof.
  intros Hh. apply keeps_db; [apply CreateUser_db|]. intros w Ha. apply wp_CreateUser. intros r w' Hr _.
  destruct r as [e|u].
  - split; [|done]. destruct Hr as [->|[u Hu]]; [done|by eapply created_ok].
  - split; [by eapply created_ok|]. eapply uuid_ascii. by eapply cu_uuid.
Qed.

Lemma keeps_HashPassword password : keeps (HashPassword password) (on_success stored_hash).
Proof.
  intros w Hw.
  assert (wp (interp (HashPassword password)) (fun r _ => on_success stored_hash r) w) as Hh.
  { apply wpw_wp, wpw_HashPassword; [|done]. intros h w' Hc _. by apply current_stored. }
  eapply wp_mono; [exact (wp_conj _ _ _ _ Hh (keeps_hashing _ (HashPassword_hash password) w Hw))|].
  simpl. by intros r w' [? []].
Qed.

Lemma keeps_VerifyPassword h password : keeps (VerifyPassword h password) anything.
Proof. apply keeps_hashing, VerifyPassword_hash. Qed.

Lemma keeps_DummyVerify password : keeps (DummyVerify password) anything.
Proof. apply keeps_hashing, DummyVerify_hash. Qed.

Lemma keeps_Create u ip ua :
  is_ascii u = true -> keeps (Create store u ip ua) (on_success (fun p => UserID p.2 = u)).
Proof.
  intros Hu. apply keeps_store; [apply Create_store|]. intros w Hw.
  eapply wp_Create; [done..|]. intros r w' _ Hok Hr. split; [done|].
  destruct r as [|[token s]]; [done|]. apply Hr.
Qed.

Lemma keeps_Revoke token : keeps (Revoke token) anything.
Proof. apply keeps_store; [apply Revoke_store|]. intros w Hw. by eapply wp_Revoke. Qed.

Lemma keeps_RevokeAll u except : keeps (RevokeAllForUser store u except) anything.
Proof. apply keeps_store; [apply RevokeAll_store|]. intros w Hw. by eapply wp_RevokeAllForUser. Qed.
End world.
