(* ===== verification/AuthKeeps.v ===== *)
(** * The service keeps the invariant

    [keeps] for the five operations of [AuthService.v] and for the session work
    of a request. *)

From S2P Require Import Prelude GoStrings Crypto Effects RedisSpec PostgresSpec Hasher RateLimit.
From S2P Require Import Sessions SessionFacts SessionOps SessionCreate Password Users Frames.
From S2P Require Import AuthService AuthFacts AuthLogin World.

Section keeps.
Context `{RL : RedisLaws} {CL : ClockLaws _} {PV : PostgresView} {PL : PostgresLaws PV} {DL : DbLaws db}.
Context {HV : HasherView} {HL : HasherLaws HV} `{JL : SessionJsonLaws} `{Unicode}.
Variable store : SessionStore.
Variable secs : Z.
Hypothesis absolute_secs : absoluteTTL store = (secs * 1000000000)%Z.
Hypothesis secs_pos : (0 < secs)%Z.

Abbreviation world := (world secs).
Abbreviation keeps := (keeps secs).

Lemma keeps_lift {A} (r : error + A) : keeps (lift r) (on_success anything).
Proof. apply keeps_ret. by destruct r. Qed.

Lemma keeps_lift_option o : keeps (lift_option o) (on_success anything).
Proof. by destruct o; apply keeps_ret. Qed.

Lemma keeps_after {A B} (p : prog A) (q : prog B) Psi :
  keeps p anything -> keeps q Psi -> keeps (p ;~ q) Psi.
Proof. intros Hp Hq. eapply keeps_bind; [exact Hp|]. by intros a _. Qed.

Lemma keeps_any_error {A} (p : prog (error + A)) : keeps p anything -> keeps p (on_success anything).
Proof. apply keeps_mono. by intros [|]. Qed.

(** The session of an account, given to its owner. *)
Definition owned (p : User * string * Session) : Prop := UserID p.2 = u_id p.1.1.

Lemma keeps_Register in_ : keeps (Register store in_) (on_success owned).
Proof.
  unfold Register. eapply keeps_bindE; [by apply keeps_check|]. intros [] _.
  eapply keeps_bindE; [apply keeps_lift|]. intros email _.
  destruct (_ || _); [by apply keeps_ret|].
  eapply keeps_bindE; [apply keeps_lift_option|]. intros [] _.
  eapply keeps_bindE; [by apply keeps_HashPassword|]. intros h Hh.
  eapply keeps_bindE; [by apply keeps_CreateUser|]. intros u Hu.
  apply keeps_after; [by apply keeps_record|].
  eapply keeps_bindE; [by apply keeps_Create|]. intros [token s] Hs. by apply keeps_ret.
Qed.

Lemma keeps_rehash u password : keeps (rehash u password) anything.
Proof.
  unfold rehash. eapply keeps_bind; [by apply keeps_HashPassword|]. intros [e|h] Hh; [by apply keeps_ret|].
  apply keeps_after; [by apply keeps_UpdatePassword|by apply keeps_ret].
Qed.

Lemma keeps_Login in_ : keeps (Login store in_) (on_success owned).
Proof.
  unfold Login. eapply keeps_bindE; [by apply keeps_check|]. intros [] _.
  eapply keeps_bind; [by apply keeps_check|]. intros [e|[]] _.
  { apply keeps_after; [by apply keeps_record|by apply keeps_ret]. }
  eapply keeps_bind; [by apply keeps_ByEmail|].
  assert (forall (p : prog unit) e, keeps p anything ->
    keeps (p ;~ record e ;~ @fails (User * string * Session) ErrInvalidCredentials) (on_success owned)) as Hfail.
  { intros p e Hp. apply keeps_after; [done|]. apply keeps_after; [by apply keeps_record|by apply keeps_ret]. }
  intros [e|[u h]] Hr; [destruct (_ || _); [by apply Hfail, keeps_DummyVerify|by apply keeps_ret]|].
  destruct Hr as [Hu _]. destruct (u_disabled u); [by apply Hfail, keeps_DummyVerify|].
  eapply keeps_bind; [by apply keeps_VerifyPassword|].
  intros [e|[[] needs]] _; [by apply keeps_ret| |apply keeps_after; [by apply keeps_record|by apply keeps_ret]].
  apply keeps_after; [destruct needs; [apply keeps_rehash|by apply keeps_ret]|].
  apply keeps_after; [by apply keeps_Reset|].
  eapply keeps_bindE; [by apply keeps_Create|]. intros [token s] Hs.
  apply keeps_after; [by apply keeps_record|by apply keeps_ret].
Qed.

Lemma keeps_Logout token e : keeps (Logout token e) (on_success anything).
Proof.
  unfold Logout. eapply keeps_bindE; [by apply keeps_any_error, keeps_Revoke|]. intros [] _.
  apply keeps_after; [by apply keeps_record|by apply keeps_ret].
Qed.

Lemma keeps_LogoutAll u e : keeps (LogoutAll store u e) (on_success anything).
Proof.
  unfold LogoutAll. eapply keeps_bindE; [by apply keeps_any_error, keeps_RevokeAll|]. intros n _.
  apply keeps_after; [by apply keeps_record|by apply keeps_ret].
Qed.

Lemma keeps_ChangePassword u current next keep e :
  keeps (ChangePassword store u current next keep e) (on_success anything).
Proof.
  unfold ChangePassword. eapply keeps_bindE; [by apply keeps_check|]. intros [] _.
  eapply keeps_bindE; [by apply keeps_CredentialByUserID|]. intros h _.
  eapply keeps_bind; [by apply keeps_VerifyPassword|].
  intros [x|[[] needs]] _; try (apply keeps_after; [by apply keeps_record|by apply keeps_ret]).
  eapply keeps_bindE; [apply keeps_lift_option|]. intros [] _.
  eapply keeps_bindE; [by apply keeps_HashPassword|]. intros h' Hh'.
  eapply keeps_bindE; [by apply keeps_any_error, keeps_UpdatePassword|]. intros [] _.
  eapply keeps_bindE; [by apply keeps_any_error, keeps_RevokeAll|]. intros n _.
  apply keeps_after; [by apply keeps_record|by apply keeps_ret].
Qed.
End keeps.
