(* ===== verification/Httpx.v ===== *)
(** * HTTP plumbing

    [src/internal/httpx/origin.go] and [respond.go]: requests and responses, the
    origin policy, the CSRF guard, the security headers, the client's address.
    [url.Parse] and the JSON decoders are classes. *)

From S2P Require Import Prelude GoStrings Net Effects.
From Stdlib Require Import Ascii.

(** ** Requests and responses *)

(** What the handlers read of a request. [Header] is [r.Header.Get], [Cookies] the
    name-value pairs of the Cookie header, [Query] is [r.URL.Query().Get], and
    [Segments] the path as the mux splits it. *)
Record http_request := mkRequest {
  Method : string;
  Segments : list string;
  Host : string;
  RemoteAddr : string;
  Header : string -> string;
  Cookies : list (string * string);
  Query_ : string -> string;
  ContentLength : Z;
  Body : string
}.

(** [r.Cookie(name)] *)
Definition Cookie (r : http_request) (name : string) : option string :=
  snd <$> List.find (fun c => bool_decide (c.1 = name)) (Cookies r).

Record cookie := mkCookie {
  c_Name : string;
  c_Value : string;
  c_Domain : string;
  c_Expires : Z;
  c_MaxAge : Z;
  c_Secure : bool
}.

(** The fields that are the same in every cookie the program sets. *)
Definition c_Path (_ : cookie) : string := "/".
Definition c_HttpOnly (_ : cookie) : bool := true.
Definition c_SameSite (_ : cookie) : string := "Lax".

(** The values handed to [JSON]. *)
Inductive payload :=
| NoBody
| ErrorBody (error message : string)
| UsersBody (users : list (string * string))
| SessionBody (user : user_row) (expires_at : Z) (token token_type : string)
| RevokedBody (revoked : nat)
| TicketBody (ticket : string) (expires_in : Z)
| RoomBody (room : room_row)
| RoomsBody (rooms : list (room_row * string))
| DeliveredBody (delivered : nat)
| CredentialsBody (urls : list string) (username credential : string) (ttl : Z)
| HealthBody (clients inboxes : Z)
| ReadyBody (postgres redis : string)
| TextBody (text : string)
| Upgraded (user name room : string).   (* the connection is now a websocket *)

Record response := mkResponse {
  status : Z;
  headers : list (string * string);   (* in the order they are set *)
  set_cookies : list cookie;
  payload_ : payload
}.

(** Whether [json.Marshal] takes the value. *)
Class ResponseJson := { encodable : payload -> bool }.

Definition json_headers : list (string * string) :=
  [("Content-Type", "application/json; charset=utf-8"); ("Cache-Control", "no-store")].

Section respond.
Context `{ResponseJson}.

(** The second case is [http.Error]. *)
Definition JSON (status : Z) (v : payload) : response :=
  if encodable v then mkResponse status json_headers [] v
  else mkResponse 500
    [("Content-Type", "text/plain; charset=utf-8"); ("X-Content-Type-Options", "nosniff")] []
    (ErrorBody "internal_error" "").

Definition Error (status : Z) (code message : string) : response := JSON status (ErrorBody code message).

Definition internal_error : response := Error 500 "internal_error" "".
End respond.

(** [w.WriteHeader(status)] without a body. *)
Definition status_only (status : Z) : response := mkResponse status [] [] NoBody.

Definition with_cookie (c : cookie) (r : response) : response :=
  mkResponse (status r) (headers r) (c :: set_cookies r) (payload_ r).

Definition with_header (k v : string) (r : response) : response :=
  mkResponse (status r) ((k, v) :: headers r) (set_cookies r) (payload_ r).

(** The decoder takes the first value of at most [maxBytes] bytes of the body. *)
Definition DecodeJSON {A} (decode : string -> option A) (maxBytes : nat) (r : http_request) : option A :=
  decode (take_bytes maxBytes (Body r)).

Definition security_headers : list (string * string) :=
  [("X-Content-Type-Options", "nosniff"); ("X-Frame-Options", "DENY"); ("Referrer-Policy", "no-referrer");
   ("Content-Security-Policy", "default-src 'none'; frame-ancestors 'none'")].

(** A response with the headers. *)
Definition secured (resp : response) : response :=
  mkResponse (status resp) (security_headers ++ headers resp) (set_cookies resp) (payload_ resp).

Definition SecurityHeaders (next : http_request -> prog response) (r : http_request) : prog response :=
  resp <~ next r ;;
  Ret (secured resp).

(** ** Origins *)

(** [url.Parse]: scheme and host. *)
Class UrlParse := { url_parse : string -> option (string * string) }.

Record OriginPolicy := mkOriginPolicy {
  permitted : gset string;
  allowAny : bool
}.

Inductive origin_error :=
| ParseOrigin (raw : string)
| IncompleteOrigin (raw : string).

Section origin.
Context `{Unicode} `{UrlParse}.

(** The loop over the entries of the list. *)
Fixpoint permit (entries : list string) (acc : gset string) : origin_error + gset string :=
  match entries with
  | [] => inr acc
  | raw :: entries =>
      let raw := TrimSpace raw in
      if bool_decide (raw = "") then permit entries acc
      else match url_parse raw with
      | None => inl (ParseOrigin raw)
      | Some (scheme, host) =>
          if bool_decide (scheme = "") || bool_decide (host = "") then inl (IncompleteOrigin raw)
          else permit entries ({[ToLower (scheme +:+ "://" +:+ host)]} ∪ acc)
      end
  end.

Definition NewOriginPolicy (allowed : string) : origin_error + OriginPolicy :=
  let allowed := TrimSpace allowed in
  if bool_decide (allowed = "*") then inr (mkOriginPolicy ∅ true)
  else match permit (Split allowed ",") ∅ with
  | inl e => inl e
  | inr permitted => inr (mkOriginPolicy permitted false)
  end.

Definition AllowOrigin (p : OriginPolicy) (r : http_request) : bool :=
  if allowAny p then true
  else
    let origin := Header r "Origin" in
    if bool_decide (origin = "") then true
    else if bool_decide (permitted p = ∅) then
      match url_parse origin with
      | None => false
      | Some (_, host) => EqualFold host (Host r)
      end
    else bool_decide (ToLower origin ∈ permitted p).

Definition CheckOrigin (p : OriginPolicy) (r : http_request) : bool := AllowOrigin p r.

Definition safeMethods : list string := ["GET"; "HEAD"; "OPTIONS"].

Definition is_safe (r : http_request) : bool := bool_decide (Method r ∈ safeMethods).

Definition CSRF (policy : OriginPolicy) (deny : http_request -> string -> response)
    (next : http_request -> prog response) (r : http_request) : prog response :=
  if is_safe r then next r
  else if negb (bool_decide (Header r "Authorization" = "")) then next r
  else if negb (AllowOrigin policy r) then Ret (deny r "origin not allowed")
  else next r.
End origin.

(** ** The client's address *)

Definition ClientIP (r : http_request) (trustProxy : bool) : string :=
  let direct :=
    match SplitHostPort (RemoteAddr r) with
    | None => RemoteAddr r
    | Some (host, _) => host
    end in
  if trustProxy then
    let xff := Header r "X-Forwarded-For" in
    let '(first, _, found) := Cut xff "," in
    let ip := TrimSpace first in
    if negb (bool_decide (xff = "")) && (found || negb (bool_decide (first = ""))) && negb (bool_decide (ip = ""))
    then ip
    else
      let real := TrimSpace (Header r "X-Real-IP") in
      if negb (bool_decide (real = "")) then real else direct
  else direct.

(** ** Lemmas *)

Section lemmas.
Context `{Unicode} `{UrlParse}.

(** An allowlist is read entry by entry: the permitted origins are those of its
    entries. *)
Lemma permit_spec entries acc res :
  permit entries acc = inr res ->
  forall o, o ∈ res <-> o ∈ acc \/ exists raw scheme host, raw ∈ (TrimSpace <$> entries) /\ raw <> "" /\
    url_parse raw = Some (scheme, host) /\ scheme <> "" /\ host <> "" /\
    o = ToLower (scheme +:+ "://" +:+ host).
Proof.
  revert acc. induction entries as [|raw entries IH]; intros acc; cbn [permit fmap list_fmap].
  - intros [= <-] o. split; [by left|]. intros [Ho|(? & ? & ? & Hin & _)]; [done|by apply not_elem_of_nil in Hin].
  - case_bool_decide as Hraw.
    + intros Hp o. rewrite (IH _ Hp). split; intros [Ho|(raw' & sc & h & Hin & Hr)]; [by left| |by left|].
      * right. exists raw', sc, h. split; [by right|done].
      * right. exists raw', sc, h. apply elem_of_cons in Hin as [->|Hin]; [|done]. by destruct Hr.
    + destruct (url_parse (TrimSpace raw)) as [[sc h]|] eqn:Hu; [|done].
      destruct (bool_decide (sc = "") || bool_decide (h = "")) eqn:E; [done|].
      apply orb_false_iff in E as [Hsc%bool_decide_eq_false Hh%bool_decide_eq_false].
      intros Hp o. rewrite (IH _ Hp), elem_of_union, elem_of_singleton. split.
      * intros [[->|Ho]|(raw' & sc' & h' & Hin & Hr)]; [|by left|].
        { right. exists (TrimSpace raw), sc, h. split; [by left|done]. }
        right. exists raw', sc', h'. split; [by right|done].
      * intros [Ho|(raw' & sc' & h' & Hin & Hr)]; [by left; right|].
        apply elem_of_cons in Hin as [->|Hin]; [|right; by exists raw', sc', h'].
        destruct Hr as (_ & Hu' & _ & _ & ->). rewrite Hu in Hu'. injection Hu' as -> ->. by left; left.
Qed.
End lemmas.
