(* ===== verification/Respond.v ===== *)
(** * Writing responses, and panics

    The rest of [src/internal/httpx/respond.go]: [JSON], [Error] and [SecurityHeaders]
    as they write to the [http.ResponseWriter], and [Recover], which writes to one that
    a handler has left half-way. [Httpx.v] has them as values; [JSON_writes] says that
    on a fresh writer it is the same. *)

From S2P Require Import Prelude GoStrings Effects Httpx.

(** ** The response writer of net/http *)

(** [rw_sent] is the status line and the headers once they are on the wire; setting
    headers after that changes nothing any more. *)
Record ResponseWriter := mkWriter {
  rw_headers : list (string * string);
  rw_cookies : list cookie;
  rw_sent : option (Z * list (string * string) * list cookie);
  rw_body : list payload
}.

Definition fresh : ResponseWriter := mkWriter [] [] None [].

(** [w.Header().Set] and [Del] *)
Definition Del_ (k : string) (w : ResponseWriter) : ResponseWriter :=
  mkWriter (List.filter (fun h => negb (bool_decide (h.1 = k))) (rw_headers w)) (rw_cookies w) (rw_sent w) (rw_body w).

Definition Set_ (k v : string) (w : ResponseWriter) : ResponseWriter :=
  mkWriter (rw_headers (Del_ k w) ++ [(k, v)]) (rw_cookies w) (rw_sent w) (rw_body w).

(** [http.SetCookie] *)
Definition SetCookie_ (c : cookie) (w : ResponseWriter) : ResponseWriter :=
  mkWriter (rw_headers w) (rw_cookies w ++ [c]) (rw_sent w) (rw_body w).

(** A second status is superfluous. *)
Definition WriteHeader (status : Z) (w : ResponseWriter) : ResponseWriter :=
  mkWriter (rw_headers w) (rw_cookies w)
    (Some (match rw_sent w with None => (status, rw_headers w, rw_cookies w) | Some s => s end)) (rw_body w).

Definition Write (v : payload) (w : ResponseWriter) : ResponseWriter :=
  let w := WriteHeader 200 w in
  mkWriter (rw_headers w) (rw_cookies w) (rw_sent w) (rw_body w ++ [v]).

(** [http.Error] *)
Definition http_Error (v : payload) (status : Z) (w : ResponseWriter) : ResponseWriter :=
  Write v (WriteHeader status (Set_ "X-Content-Type-Options" "nosniff"
    (Set_ "Content-Type" "text/plain; charset=utf-8" (Del_ "Content-Length" w)))).

Section respond.
Context `{ResponseJson}.

Definition JSON_to (status : Z) (v : payload) (w : ResponseWriter) : ResponseWriter :=
  if encodable v then
    Write v (WriteHeader status
      (Set_ "Cache-Control" "no-store" (Set_ "Content-Type" "application/json; charset=utf-8" w)))
  else http_Error (ErrorBody "internal_error" "") 500 w.

Definition Error_to (status : Z) (code message : string) (w : ResponseWriter) : ResponseWriter :=
  JSON_to status (ErrorBody code message) w.

(** What a handler does with its writer, in order, and what it panics with, if it does. *)
Inductive writer_call :=
| CallSet (k v : string)
| CallSetCookie (c : cookie)
| CallWriteHeader (status : Z)
| CallWrite (v : payload).

Definition call_writer (w : ResponseWriter) (c : writer_call) : ResponseWriter :=
  match c with
  | CallSet k v => Set_ k v w
  | CallSetCookie c => SetCookie_ c w
  | CallWriteHeader status => WriteHeader status w
  | CallWrite v => Write v w
  end.

Definition Handler : Type := http_request -> list writer_call * option string.

(** How serving ends: the writer, and the panic that reaches net/http. *)
Definition ServeHTTP (next : Handler) (r : http_request) (w : ResponseWriter) : ResponseWriter * option string :=
  let '(calls, panic) := next r in (foldl call_writer w calls, panic).

Definition SecurityHeaders_to (next : Handler) : Handler := fun r =>
  let '(calls, panic) := next r in (((fun h => CallSet h.1 h.2) <$> security_headers) ++ calls, panic).

(** [Recover]: the deferred call runs on what the handler left. *)
Definition Recover (next : Handler) (r : http_request) (w : ResponseWriter) : ResponseWriter * option string :=
  match ServeHTTP next r w with
  | (w', Some _) => (Error_to 500 "internal_error" "" w', None)
  | (w', None) => (w', None)
  end.

(** The response a writer ends up sending, read as the values of [Httpx.v]. *)
Definition rendered (w : ResponseWriter) : option response :=
  match rw_sent w, rw_body w with
  | Some (status, headers, cookies), [] => Some (mkResponse status headers cookies NoBody)
  | Some (status, headers, cookies), [v] => Some (mkResponse status headers cookies v)
  | _, _ => None
  end.

(** ** Properties *)

Lemma JSON_writes status v : rendered (JSON_to status v fresh) = Some (JSON status v).
Proof. unfold JSON_to, JSON. by destruct (encodable v). Qed.

Lemma Error_writes status code message : rendered (Error_to status code message fresh) = Some (Error status code message).
Proof. apply JSON_writes. Qed.

(** Nothing is on the wire before the status line. *)
Definition orderly (w : ResponseWriter) : Prop := rw_sent w = None -> rw_body w = [].

Lemma call_orderly w c : orderly w -> orderly (call_writer w c).
Proof. unfold orderly. by destruct c. Qed.

Lemma calls_orderly calls w : orderly w -> orderly (foldl call_writer w calls).
Proof. revert w. induction calls as [|c calls IH]; intros w Hw; [done|]. by apply IH, call_orderly. Qed.

(** What is sent is sent. *)
Lemma JSON_to_sent status v w s : rw_sent w = Some s ->
  rw_sent (JSON_to status v w) = Some s /\ exists v', rw_body (JSON_to status v w) = rw_body w ++ [v'].
Proof.
  intros Hs. unfold JSON_to. destruct (encodable v); cbn; rewrite Hs; (split; [done|by eexists]).
Qed.

Lemma JSON_to_unsent status v w : rw_sent w = None -> orderly w ->
  exists status' headers, rw_sent (JSON_to status v w) = Some (status', headers, rw_cookies w) /\
    (status' = status /\ rw_body (JSON_to status v w) = [v] \/
     status' = 500%Z /\ rw_body (JSON_to status v w) = [ErrorBody "internal_error" ""]).
Proof.
  intros Hs Hw. specialize (Hw Hs). unfold JSON_to. destruct (encodable v); cbn; rewrite Hs, Hw; do 2 eexists;
    (split; [done|]); [by left|by right].
Qed.

(** A header stays unless something else is set in its place. *)
Lemma Del_kept k h w : h ∈ rw_headers w -> h.1 <> k -> h ∈ rw_headers (Del_ k w).
Proof.
  intros Hin Hne. simpl. apply list_elem_of_In, filter_In. split; [by apply list_elem_of_In|]. by rewrite bool_decide_false.
Qed.

Lemma Set_kept k v h w : h ∈ rw_headers w -> h.1 <> k -> h ∈ rw_headers (Set_ k v w).
Proof. intros Hin Hne. apply elem_of_app. left. by apply Del_kept. Qed.

Lemma Set_set k v w : (k, v) ∈ rw_headers (Set_ k v w).
Proof. apply elem_of_app. right. by apply list_elem_of_singleton. Qed.

Definition sets (k : string) (c : writer_call) : bool := match c with CallSet k' _ => bool_decide (k = k') | _ => false end.

Lemma calls_kept calls h w :
  h ∈ rw_headers w -> existsb (sets h.1) calls = false -> h ∈ rw_headers (foldl call_writer w calls).
Proof.
  revert w. induction calls as [|c calls IH]; intros w Hin; [done|]. simpl. intros [Hc Hcs]%orb_false_iff.
  apply IH; [|done]. destruct c; [|done..]. apply Set_kept; [done|]. by apply bool_decide_eq_false in Hc.
Qed.

Lemma written_headers status v w :
  rw_sent w = None -> rw_sent (Write v (WriteHeader status w)) = Some (status, rw_headers w, rw_cookies w).
Proof. intros Hs. cbn. by rewrite Hs. Qed.

Lemma JSON_to_headers status v w h :
  h ∈ rw_headers w -> h.1 <> "Content-Type" -> h.1 <> "Cache-Control" -> h.1 <> "Content-Length" ->
  (h.1 = "X-Content-Type-Options" -> h.2 = "nosniff") -> rw_sent w = None ->
  exists s, rw_sent (JSON_to status v w) = Some s /\ h ∈ s.1.2.
Proof.
  intros Hin H1 H2 H3 H4 Hs. unfold JSON_to, http_Error.
  destruct (encodable v); (rewrite written_headers; [|exact Hs]); eexists; (split; [done|]).
  - by apply Set_kept; [apply Set_kept|].
  - destruct (decide (h.1 = "X-Content-Type-Options")) as [E|E].
    + destruct h as [k x]. simpl in E, H4. rewrite E, (H4 E). apply Set_set.
    + apply Set_kept; [|done]. apply Set_kept; [|done]. by apply Del_kept.
Qed.

(** The writer as [SecurityHeaders] hands it on. *)
Definition secured : ResponseWriter := foldl call_writer fresh ((fun h => CallSet h.1 h.2) <$> security_headers).

(** The answer to a panic still carries each security header, unless the handler
    itself had set another value. *)
Lemma panic_keeps_security next r calls p h :
  next r = (calls, Some p) -> rw_sent (foldl call_writer secured calls) = None ->
  h ∈ security_headers -> existsb (sets h.1) calls = false ->
  exists s, rw_sent (Recover (SecurityHeaders_to next) r fresh).1 = Some s /\ h ∈ s.1.2.
Proof.
  intros Hnext Hs Hh Hno. unfold Recover, ServeHTTP, SecurityHeaders_to. rewrite Hnext, foldl_app. fold secured. cbn [fst].
  assert (h ∈ rw_headers secured /\ h.1 <> "Content-Type" /\ h.1 <> "Cache-Control" /\ h.1 <> "Content-Length" /\
    (h.1 = "X-Content-Type-Options" -> h.2 = "nosniff")) as (H1 & H2 & H3 & H4 & H5).
  { repeat apply elem_of_cons in Hh as [->|Hh]; [split; [vm_compute; set_solver|done]..|].
    by apply not_elem_of_nil in Hh. }
  apply JSON_to_headers; [by apply calls_kept|done..].
Qed.

(** A panic of any handler is contained. The client gets a 500 with the error body
    when nothing had been sent, with the cookies set so far; otherwise the status it
    was sent stays, and the error is appended to the body. Without a panic nothing is
    added. *)
Theorem recover_contains next r :
  let '(calls, panic) := next r in
  let w := foldl call_writer fresh calls in
  let '(w', escaped) := Recover next r fresh in
  escaped = None /\
  match panic, rw_sent w with
  | None, _ => w' = w
  | Some _, None => (exists headers, rw_sent w' = Some (500%Z, headers, rw_cookies w)) /\
      rw_body w' = [ErrorBody "internal_error" ""]
  | Some _, Some s => rw_sent w' = Some s /\ exists v, rw_body w' = rw_body w ++ [v]
  end.
Proof.
  unfold Recover, ServeHTTP. destruct (next r) as [calls [p|]]; [|done]. split; [done|].
  destruct (rw_sent (foldl call_writer fresh calls)) eqn:Hs; [by apply JSON_to_sent|].
  destruct (JSON_to_unsent 500 (ErrorBody "internal_error" "") _ Hs) as (st & hs & H1 & [[-> H2]|[-> H2]]).
  - by apply calls_orderly.
  - split; [by eexists|done].
  - split; [by eexists|done].
Qed.
End respond.
