(* ===== verification/Duration.v ===== *)
(** * Durations as numbers

    [int(d.Seconds())]: the conversion goes through a [float64], which for very
    long durations rounds up to the next second. *)

From S2P Require Import Prelude TokenBucket.
From Corelib Require Import SpecFloat.

(** [int(x)]: toward zero. *)
Definition trunc (x : f64) : Z :=
  match x with
  | S754_finite neg m e =>
      let v := if (0 <=? e)%Z then (Z.pos m * 2 ^ e)%Z else (Z.pos m / 2 ^ (- e))%Z in
      if neg then (- v)%Z else v
  | _ => 0%Z
  end.

Definition seconds_int (d : Z) : Z := trunc (f64_seconds d).

Example seconds_of_day : seconds_int 86400000000000 = 86400%Z.
Proof. vm_compute. reflexivity. Qed.

Example seconds_truncate : seconds_int 1999999999 = 1%Z /\ seconds_int (-1500000000) = (-1)%Z.
Proof. vm_compute. done. Qed.

(** Two hundred days less a nanosecond count as two hundred days. *)
Example seconds_round_up : seconds_int (200 * 86400 * 1000000000 - 1) = (200 * 86400)%Z.
Proof. vm_compute. reflexivity. Qed.
