(* ===== verification/Middleware.v ===== *)
(** * The middleware

    [src/internal/auth/middleware.go]: where a request's token comes from, who is
    behind it, and the session cookie. *)

From S2P Require Import Prelude GoStrings Effects RedisSpec Sessions Users Httpx Duration.
From Stdlib Require Import Ascii.

Record Identity := mkIdentity {
  id_User : User;
  id_Session : Session;
  id_Token : string
}.

Record Middleware := mkMiddleware {
  cookieName : string;
  cookieDomain : string;
  cookieSecure : bool;
  mw_idleTTL : Z;
  mw_absoluteTTL : Z;
  trustProxy : bool
}.

Record MiddlewareOptions := mkOptions {
  o_CookieName : string;
  o_CookieDomain : string;
  o_CookieSecure : bool;
  o_IdleTTL : Z;
  o_AbsoluteTTL : Z;
  o_TrustProxy : bool
}.

Definition NewMiddleware (opts : MiddlewareOptions) : Middleware :=
  mkMiddleware (o_CookieName opts) (o_CookieDomain opts) (o_CookieSecure opts) (o_IdleTTL opts)
    (o_AbsoluteTTL opts) (o_TrustProxy opts).

(** The zero [time.Time], year 1, in nanoseconds from 1970. *)
Definition zero_time : Z := -62135596800000000000.

Section middleware.
Context `{Unicode} `{SessionJson} `{ResponseJson}.
Variable store : SessionStore.
Variable m : Middleware.

Definition tokenFrom (r : http_request) : string :=
  let header := Header r "Authorization" in
  if negb (bool_decide (header = "")) then
    let '(scheme, value, found) := Cut header " " in
    if found && EqualFold scheme "Bearer" then TrimSpace value else ""
  else match Cookie r (cookieName m) with
  | Some value => value
  | None => ""
  end.

Definition identify (r : http_request) : prog (error + Identity) :=
  let token := tokenFrom r in
  if bool_decide (token = "") then fails ErrSessionNotFound
  else
    sess <~? Get_ token ;;
    user <~? ByID (UserID sess) ;;
    succeeds (mkIdentity user sess token).

(** ** Cookies *)

Definition SetCookie (token : string) (sessionExpiry : Z) (resp : response) : prog response :=
  now <~ call Now ;;
  let expires := (now + mw_idleTTL m)%Z in
  let expires :=
    if negb (sessionExpiry =? zero_time)%Z && (sessionExpiry <? expires)%Z then sessionExpiry else expires in
  now' <~ call Now ;;
  Ret (with_cookie (mkCookie (cookieName m) token (cookieDomain m) expires
    (seconds_int (time_sub expires now')) (cookieSecure m)) resp).

Definition RefreshCookie (r : http_request) (id : Identity) (resp : response) : prog response :=
  if negb (bool_decide (Header r "Authorization" = "")) then Ret resp
  else match Cookie r (cookieName m) with
  | None => Ret resp
  | Some _ => SetCookie (id_Token id) (ExpiresAt (id_Session id)) resp
  end.

Definition ClearCookie (resp : response) : response :=
  with_cookie (mkCookie (cookieName m) "" (cookieDomain m) 0 (-1) (cookieSecure m)) resp.

(** ** Guards *)

Definition unauthenticated (e : error) : bool :=
  Is e ErrSessionNotFound || Is e ErrUserNotFound || Is e ErrUserDisabled.

(** [Require]: [next] runs with the identity in its context. *)
Definition Require_ (next : option Identity -> http_request -> prog response) (r : http_request) : prog response :=
  id <~ identify r ;;
  match id with
  | inl e =>
      if unauthenticated e then Ret (ClearCookie (Error 401 "unauthenticated" "sign in to continue"))
      else Ret internal_error
  | inr id =>
      Touch store (id_Session id) ;~
      next (Some id) r
  end.

Definition AuthenticateWS (r : http_request) : prog (error + string * string) :=
  let ticket := Query_ r "ticket" in
  if negb (bool_decide (ticket = "")) then
    userID <~? RedeemWSTicket ticket ;;
    user <~? ByID userID ;;
    succeeds (u_id user, u_display_name user)
  else
    id <~? identify r ;;
    succeeds (u_id (id_User id), u_display_name (id_User id)).
End middleware.

(** ** Lemmas *)

Section lemmas.
Context `{Unicode}.
Variable m : Middleware.

(** With an Authorization header the cookies do not matter. *)
Lemma tokenFrom_header r cs :
  Header r "Authorization" <> "" ->
  tokenFrom m r = tokenFrom m (mkRequest (Method r) (Segments r) (Host r) (RemoteAddr r) (Header r) cs
    (Query_ r) (ContentLength r) (Body r)).
Proof. intros Hh. unfold tokenFrom. simpl. by rewrite bool_decide_false. Qed.
End lemmas.
