(* ===== verification/AuthHandlers.v ===== *)
(** * The credential endpoints

    [src/internal/auth/handlers.go]: each handler from the request to the
    response, errors included. *)

From S2P Require Import Prelude GoStrings Effects RedisSpec Sessions Users AuthService Httpx Duration Middleware.

Definition maxBodyBytes : nat := 4096.
Definition contactsLimit : Z := 200.

Record credentialsRequest := mkCredentialsRequest {
  rq_Email : string;
  rq_Password : string;
  rq_DisplayName : string;
  rq_Mode : string
}.

Record changePasswordRequest := mkChangePasswordRequest {
  rq_Current : string;
  rq_New : string
}.

Definition modeBearer : string := "bearer".

(** Strict decoding of the two request bodies. *)
Class AuthJson := {
  decode_credentials : string -> option credentialsRequest;
  decode_change : string -> option changePasswordRequest
}.

(** [errors.As(err, &rateErr)] *)
Fixpoint as_rate_limit (e : error) : option Z :=
  match e with
  | RateLimitError d => Some d
  | Wrap _ e => as_rate_limit e
  | _ => None
  end.

(** [err.Error()] of the errors whose text is sent to the client. *)
Definition password_message (e : error) : string :=
  match e with
  | ErrPasswordTooShort => "auth: password must be at least 12 characters"
  | ErrPasswordTooLong => "auth: password must be at most 128 characters"
  | _ => "auth: password is too easily guessed"
  end.

Section handlers.
Context `{Unicode} `{SessionJson} `{ResponseJson} `{AuthJson}.
Variable store : SessionStore.
Variable m : Middleware.

Definition writeAuthError (err : error) : response :=
  match as_rate_limit err with
  | Some retryAfter =>
      with_header "Retry-After" (itoa (seconds_int retryAfter + 1))
        (Error 429 "rate_limited" "too many attempts, try again later")
  | None =>
      if Is err ErrInvalidCredentials then Error 401 "invalid_credentials" "email or password is incorrect"
      else if Is err ErrEmailTaken then Error 409 "email_taken" "that email is already registered"
      else if Is err ErrInvalidEmail then Error 400 "invalid_email" "enter a valid email address"
      else if Is err ErrInvalidDisplayName then
        Error 400 "invalid_display_name" "auth: display name must be 1-100 characters"
      else if Is err ErrPasswordTooShort || Is err ErrPasswordTooLong || Is err ErrPasswordNotAllowed then
        Error 400 "weak_password" (password_message err)
      else internal_error
  end.

Definition writeSession (mode : string) (user : User) (token : string) (sess : Session) (status : Z)
    : prog response :=
  if bool_decide (mode = modeBearer) then
    Ret (JSON status (SessionBody user (ExpiresAt sess) token "Bearer"))
  else
    SetCookie m token (ExpiresAt sess) (JSON status (SessionBody user (ExpiresAt sess) "" "")).

Definition invalid_body : response := Error 400 "invalid_body" "expected a JSON object".

Definition credentials_of (r : http_request) (req : credentialsRequest) (displayName : string) : Credentials :=
  mkCredentials (rq_Email req) (rq_Password req) displayName (ClientIP r (trustProxy m)) (Header r "User-Agent").

Definition register (r : http_request) : prog response :=
  match DecodeJSON decode_credentials maxBodyBytes r with
  | None => Ret invalid_body
  | Some req =>
      result <~ Register store (credentials_of r req (rq_DisplayName req)) ;;
      match result with
      | inl err => Ret (writeAuthError err)
      | inr (user, token, sess) => writeSession (rq_Mode req) user token sess 201
      end
  end.

Definition login (r : http_request) : prog response :=
  match DecodeJSON decode_credentials maxBodyBytes r with
  | None => Ret invalid_body
  | Some req =>
      result <~ Login store (credentials_of r req "") ;;
      match result with
      | inl err => Ret (writeAuthError err)
      | inr (user, token, sess) => writeSession (rq_Mode req) user token sess 200
      end
  end.

Definition logout (r : http_request) : prog response :=
  let token := tokenFrom m r in
  let done_ := ClearCookie m (status_only 204) in
  if bool_decide (token = "") then Ret done_
  else
    result <~ Logout token (mkAuthEvent "" "" "" (ClientIP r (trustProxy m)) (Header r "User-Agent")) ;;
    match result with
    | inl _ => Ret internal_error
    | inr _ => Ret done_
    end.

(** The audit event of an authenticated request. *)
Definition event_for (id : Identity) (r : http_request) : AuthEvent :=
  mkAuthEvent (u_id (id_User id)) (u_email (id_User id)) "" (ClientIP r (trustProxy m)) (Header r "User-Agent").

(** The handlers behind [Require] look the identity up in the context. *)
Definition with_identity (id : option Identity) (k : Identity -> prog response) : prog response :=
  match id with
  | None => Ret (Error 401 "unauthenticated" "")
  | Some id => k id
  end.

Definition logoutAll (id : option Identity) (r : http_request) : prog response :=
  with_identity id (fun id =>
    result <~ LogoutAll store (u_id (id_User id)) (event_for id r) ;;
    match result with
    | inl _ => Ret internal_error
    | inr n => Ret (ClearCookie m (JSON 200 (RevokedBody n)))
    end).

Definition me (id : option Identity) (r : http_request) : prog response :=
  with_identity id (fun id =>
    RefreshCookie m r id (JSON 200 (SessionBody (id_User id) (ExpiresAt (id_Session id)) "" ""))).

Definition changePassword (id : option Identity) (r : http_request) : prog response :=
  with_identity id (fun id =>
    match DecodeJSON decode_change maxBodyBytes r with
    | None => Ret invalid_body
    | Some req =>
        result <~ ChangePassword store (u_id (id_User id)) (rq_Current req) (rq_New req) (id_Token id)
          (event_for id r) ;;
        match result with
        | inl err => Ret (writeAuthError err)
        | inr _ => Ret (status_only 204)
        end
    end).

Definition wsTicket (id : option Identity) (r : http_request) : prog response :=
  with_identity id (fun id =>
    result <~ IssueWSTicket store (u_id (id_User id)) ;;
    match result with
    | inl _ => Ret internal_error
    | inr (ticket, ttl) => Ret (JSON 200 (TicketBody ticket (seconds_int ttl)))
    end).

Definition contacts (id : option Identity) (r : http_request) : prog response :=
  with_identity id (fun id =>
    result <~ Contacts (u_id (id_User id)) contactsLimit ;;
    match result with
    | inl _ => Ret internal_error
    | inr l => Ret (JSON 200 (UsersBody l))
    end).
End handlers.
