(* ===== verification/Rooms.v ===== *)
(** * Rooms

    [src/internal/rooms]: the store, the service that generates slugs, and the
    handlers. *)

From S2P Require Import Prelude GoStrings Effects PostgresSpec Httpx Middleware AuthHandlers.
From Stdlib Require Import Ascii.

(** ** The store *)

Module Store.

Definition pg_error (msg : string) : error := Wrap msg (Foreign "postgres").

Definition Create (createdBy slug name : string) : prog (error + room_row) :=
  r <~ call (Query (InsertRoom slug name createdBy)) ;;
  match r with
  | inl UniqueViolation => fails ErrSlugTaken
  | inl OtherError => fails (pg_error "insert room")
  | inr room => succeeds room
  end.

Definition BySlug (slug : string) : prog (error + room_row) :=
  r <~ call (Query (SelectRoomBySlug slug)) ;;
  match r with
  | inl _ => fails (pg_error "select room")
  | inr None => fails ErrNotFound
  | inr (Some room) => succeeds room
  end.

Definition DeleteBySlug (slug : string) : prog (error + unit) :=
  r <~ call (Query (DeleteRoom slug)) ;;
  match r with
  | inl _ => fails (pg_error "delete room")
  | inr n => if (n =? 0)%Z then fails ErrNotFound else succeeds tt
  end.

Definition List_ (limit : Z) : prog (error + list (room_row * string)) :=
  r <~ call (Query (SelectRooms limit)) ;;
  match r with
  | inl _ => fails (pg_error "select rooms")
  | inr l => succeeds l
  end.
End Store.

(** ** The service *)

Module Service.

Definition maxNameLength : nat := 100.
Definition listLimit : Z := 100.
Definition slugAttempts : nat := 5.
Definition slugGroupSizes : list nat := [3; 4; 4].
Definition slugAlphabet : string := "bcdfghjkmnpqrstvwxz23456789".

(** [slugAlphabet[int(b)%len(slugAlphabet)]] *)
Definition slug_char (b : N) : ascii :=
  default "b"%char (String.get (N.to_nat (b mod N.of_nat (String.length slugAlphabet))) slugAlphabet).

(** [string(buf)] once every byte is replaced. *)
Fixpoint slug_text (buf : list N) : string :=
  match buf with
  | [] => ""
  | b :: buf => String (slug_char b) (slug_text buf)
  end.

Fixpoint slug_groups (sizes : list nat) (groups : list string) : prog (error + list string) :=
  match sizes with
  | [] => succeeds groups
  | size :: sizes =>
      buf <~ call (Random size) ;;
      match buf with
      | None => fails (Wrap "generate slug" (Foreign "rand"))
      | Some buf => slug_groups sizes (groups ++ [slug_text buf])
      end
  end.

Definition generateSlug : prog (error + string) :=
  groups <~? slug_groups slugGroupSizes [] ;;
  succeeds (Join groups "-").

(** [for attempt := range slugAttempts] *)
Fixpoint allocate (attempts : nat) (createdBy name : string) : prog (error + room_row) :=
  match attempts with
  | 0 => fails (Foreign "rooms: could not allocate a unique slug")
  | S attempts =>
      slug <~? generateSlug ;;
      room <~ Store.Create createdBy slug name ;;
      match room with
      | inr room => succeeds room
      | inl err => if negb (Is err ErrSlugTaken) then fails err else allocate attempts createdBy name
      end
  end.

Definition room_name (name : string) : string :=
  let name := TrimSpace name in
  if bool_decide (name = "") then "New room" else name.

Definition Create (createdBy name : string) : prog (error + room_row) :=
  let name := room_name name in
  if maxNameLength <? RuneCountInString name then fails ErrInvalidName
  else allocate slugAttempts createdBy name.

Section service.
Context `{Unicode}.

Definition BySlug (slug : string) : prog (error + room_row) := Store.BySlug (ToLower (TrimSpace slug)).

Definition Delete (slug : string) : prog (error + unit) := Store.DeleteBySlug (ToLower (TrimSpace slug)).
End service.

Definition List_ : prog (error + list (room_row * string)) := Store.List_ listLimit.
End Service.

(** ** The handlers *)

Module Handlers.

Definition maxBodyBytes : nat := 2048.

(** Strict decoding of a body with a name. *)
Class RoomJson := { decode_create : string -> option string }.

Section handlers.
Context `{Unicode} `{ResponseJson} `{RoomJson}.

Definition room_not_found : response := Error 404 "room_not_found" "no such room".

(** [r.PathValue("slug")] *)
Definition PathSlug (r : http_request) : string :=
  match Segments r with
  | _ :: _ :: slug :: _ => slug
  | _ => ""
  end.

Definition create (id : option Identity) (r : http_request) : prog response :=
  with_identity id (fun id =>
    let req :=
      if (0 <? ContentLength r)%Z then DecodeJSON decode_create maxBodyBytes r else Some "" in
    match req with
    | None => Ret invalid_body
    | Some name =>
        result <~ Service.Create (u_id (id_User id)) name ;;
        match result with
        | inl err =>
            if Is err ErrInvalidName
            then Ret (Error 400 "invalid_name" "rooms: name must be 1-100 characters")
            else Ret internal_error
        | inr room => Ret (JSON 201 (RoomBody room))
        end
    end).

Definition list_ (id : option Identity) (r : http_request) : prog response :=
  with_identity id (fun _ =>
    result <~ Service.List_ ;;
    match result with
    | inl _ => Ret internal_error
    | inr l => Ret (JSON 200 (RoomsBody l))
    end).

Definition delete_ (id : option Identity) (r : http_request) : prog response :=
  with_identity id (fun _ =>
    result <~ Service.Delete (PathSlug r) ;;
    match result with
    | inl err => if Is err ErrNotFound then Ret room_not_found else Ret internal_error
    | inr _ => Ret (status_only 204)
    end).

Definition bySlug (id : option Identity) (r : http_request) : prog response :=
  result <~ Service.BySlug (PathSlug r) ;;
  match result with
  | inl err => if Is err ErrNotFound then Ret room_not_found else Ret internal_error
  | inr room => Ret (JSON 200 (RoomBody room))
  end.
End handlers.
End Handlers.
