(* ===== verification/Invites.v ===== *)
(** * Invites

    [src/internal/invites/handlers.go]: ringing a user into a room, cancelling
    and declining. *)

From S2P Require Import Prelude GoStrings Crypto Effects RateLimit Sessions Users.
From S2P Require Import Httpx Duration Middleware AuthHandlers Rooms InboxEvents.
From Stdlib Require Import Ascii.

Module Invites.

Definition maxBodyBytes : nat := 1024.

Definition PerSender : Limit := mkLimit 30 Minute.

(** [^[0-9a-fA-F]{8}-[0-9a-fA-F]{4}-[0-9a-fA-F]{4}-[0-9a-fA-F]{4}-[0-9a-fA-F]{12}$] *)
Definition hex_group (n : nat) (s : string) : bool :=
  (String.length s =? n) && forall_bytes (fun b => is_hex b || between 65 70 b) s.

Definition uuidPattern (s : string) : bool :=
  match Split s "-" with
  | [a; b; c; d; e] => hex_group 8 a && hex_group 4 b && hex_group 4 c && hex_group 4 d && hex_group 12 e
  | _ => false
  end.

(** Strict decoding of the body, and [Event.Encode]. *)
Class InviteJson := {
  decode_recipient : string -> option string;
  Encode : Event -> option string
}.

Section invites.
Context `{Unicode} `{ResponseJson} `{InviteJson}.

Definition room_not_found : response := Error 404 "room_not_found" "no such room".

(** The part of [handle] after the room is resolved. *)
Definition ring (recipient : string) (event : Event) : prog response :=
  user <~ ByID recipient ;;
  match user with
  | inl err =>
      if Is err ErrUserNotFound || Is err ErrUserDisabled
      then Ret (Error 404 "user_not_found" "no such user")
      else Ret internal_error
  | inr _ =>
      match Encode event with
      | None => Ret internal_error
      | Some data =>
          delivered <~ call (Deliver recipient data) ;;
          Ret (JSON 200 (DeliveredBody delivered))
      end
  end.

Definition handle (eventType : string) (id : option Identity) (r : http_request) : prog response :=
  with_identity id (fun id =>
    match DecodeJSON decode_recipient maxBodyBytes r with
    | None => Ret invalid_body
    | Some userID =>
        let recipient := ToLower (TrimSpace userID) in
        if negb (uuidPattern recipient) then Ret (Error 400 "invalid_user" "user_id must be a user id")
        else if bool_decide (recipient = u_id (id_User id)) then
          Ret (Error 400 "invalid_user" "you cannot ring yourself")
        else
          let slug := ToLower (TrimSpace (Handlers.PathSlug r)) in
          if negb (slugPattern slug) then Ret room_not_found
          else
            limited <~ Allow ("invite:user:" +:+ u_id (id_User id)) PerSender ;;
            match limited with
            | inl _ => Ret internal_error
            | inr (false, retryAfter) =>
                Ret (with_header "Retry-After" (itoa (seconds_int retryAfter + 1))
                  (Error 429 "rate_limited" "too many calls, try again later"))
            | inr (true, _) =>
                let event name :=
                  mkEvent eventType (mkRoom slug name) (mkSender (u_id (id_User id)) (u_display_name (id_User id))) in
                room <~ Service.BySlug slug ;;
                match room with
                | inr room => ring recipient (event (r_name room))
                | inl err =>
                    if Is err ErrNotFound && negb (bool_decide (eventType = TypeInvite)) then
                      ring recipient (event "")
                    else if Is err ErrNotFound then Ret room_not_found
                    else Ret internal_error
                end
            end
    end).
End invites.
End Invites.
