(* ===== verification/Turn.v ===== *)
(** * TURN credentials

    [src/internal/turn/handlers.go]: coturn's shared-secret scheme. *)

From S2P Require Import Prelude GoStrings Crypto Effects Httpx Duration Middleware AuthHandlers.

Module Turn.

Record Handlers := mkHandlers {
  secret : string;
  urls : list string;
  ttl : Z
}.

Definition NewHandlers (secret : string) (urls : list string) (ttl : Z) : Handlers := mkHandlers secret urls ttl.

Record Credentials := mkCredentials {
  URLs : list string;
  Username : string;
  Credential : string;
  TTL : Z
}.

(** [mint] at the given time; [Unix()] is in whole seconds. *)
Definition mint_at (h : Handlers) (now : Z) (userID : string) : Credentials :=
  let username := itoa ((now + ttl h) / 1000000000) +:+ ":" +:+ userID in
  mkCredentials (urls h) username
    (b64_encode alphabet_std (hmac_sha1 (bytes (secret h)) (bytes username)))
    (seconds_int (ttl h)).

Definition mint (h : Handlers) (userID : string) : prog Credentials :=
  now <~ call Now ;;
  Ret (mint_at h now userID).

Definition credentials `{ResponseJson} (h : Handlers) (id : option Identity) (r : http_request) : prog response :=
  if bool_decide (secret h = "") then Ret (Error 503 "turn_disabled" "no TURN relay is configured")
  else with_identity id (fun id =>
    c <~ mint h (u_id (id_User id)) ;;
    Ret (JSON 200 (CredentialsBody (URLs c) (Username c) (Credential c) (TTL c)))).

(** The vector of [src/internal/turn/handlers_test.go]. *)
Example mint_vector :
  let c := mint_at (mkHandlers "s3cret" ["turn:turn.example.com:3478"] 3600000000000) 1700000000000000000 "user-1" in
  Username c = "1700003600:user-1" /\ Credential c = "D/3A4z6ImTw+jB+qL+7PTELkgCk=" /\ TTL c = 3600%Z.
Proof. vm_compute. done. Qed.
End Turn.
