(* ===== verification/Config.v ===== *)
(** * Configuration

    [src/internal/config/config.go]: the settings read from the environment, with
    the parsers of the standard library they go through. *)

From S2P Require Import Prelude GoStrings TokenBucket Duration RateLimit.
From Stdlib Require Import Ascii.
From Corelib Require Import SpecFloat.

(** ** [time.ParseDuration] *)

(** [leadingInt]: the digits at the front, unless they pass 2^63. *)
Fixpoint leadingInt (x : Z) (s : string) : option (Z * string) :=
  match s with
  | "" => Some (x, "")
  | String c s' =>
      if is_digit (byte c) then
        if (2 ^ 63 / 10 <? x)%Z then None
        else
          let x := (x * 10 + (Z.of_N (byte c) - 48))%Z in
          if (2 ^ 63 <? x)%Z then None else leadingInt x s'
      else Some (x, s)
  end.

(** [leadingFraction]: the digits as a number and the power of ten they are to be
    divided by, a [float64]. Digits that no longer fit are dropped. *)
Fixpoint leadingFraction (x : Z) (scale : f64) (overflow : bool) (s : string) : Z * f64 * string :=
  match s with
  | "" => (x, scale, "")
  | String c s' =>
      if is_digit (byte c) then
        if overflow || ((2 ^ 63 - 1) / 10 <? x)%Z then leadingFraction x scale true s'
        else
          let y := (x * 10 + (Z.of_N (byte c) - 48))%Z in
          if (2 ^ 63 <? y)%Z then leadingFraction x scale true s'
          else leadingFraction y (f_mul scale (f64_of_Z 10)) false s'
      else (x, scale, s)
  end.

(** The unit: up to the next digit or point. *)
Fixpoint span_unit (s : string) : string * string :=
  match s with
  | "" => ("", "")
  | String c s' =>
      if is_digit (byte c) || bool_decide (c = "."%char) then ("", s)
      else let '(u, r) := span_unit s' in (String c u, r)
  end.

(** The two spellings of the microsecond are in UTF-8. *)
Definition unitMap (u : string) : option Z :=
  if bool_decide (u = "ns") then Some 1%Z
  else if bool_decide (u ∈ ["us"; str [194; 181; 115]%N; str [206; 188; 115]%N]) then Some 1000%Z
  else if bool_decide (u = "ms") then Some Millisecond
  else if bool_decide (u = "s") then Some 1000000000%Z
  else if bool_decide (u = "m") then Some Minute
  else if bool_decide (u = "h") then Some Hour
  else None.

(** What follows a decimal point. *)
Definition take_point (s : string) : option string :=
  match s with
  | String c s => if bool_decide (c = "."%char) then Some s else None
  | "" => None
  end.

(** A number with its unit at the front of the text, in nanoseconds. *)
Definition duration_term (s : string) : option (Z * string) :=
  '(v, r) ← leadingInt 0 s;
  let pre := negb (bool_decide (r = s)) in
  let '(f, scale, post, r) :=
    match take_point r with
    | Some r' =>
        let '(f, scale, r'') := leadingFraction 0 (f64_of_Z 1) false r' in
        (f, scale, negb (bool_decide (r'' = r')), r'')
    | None => (0%Z, f64_of_Z 1, false, r)
    end in
  if negb pre && negb post then None
  else
    let '(u, r) := span_unit r in
    unit ← unitMap u;
    if (2 ^ 63 / unit <? v)%Z then None
    else
      let v := (v * unit)%Z in
      let v :=
        if (0 <? f)%Z then (v + trunc (f_mul (f64_of_Z f) (SFdiv 53 1024 (f64_of_Z unit) scale)))%Z else v in
      if (2 ^ 63 <? v)%Z then None else Some (v, r).

(** The sum of the terms, in 64 bits; every one takes at least a byte, so the
    length of the text is enough fuel. *)
Fixpoint duration_terms (fuel : nat) (d : Z) (s : string) : option Z :=
  match s, fuel with
  | "", _ => Some d
  | _, 0 => None
  | _, S fuel =>
      '(v, s) ← duration_term s;
      let d := ((d + v) mod 2 ^ 64)%Z in
      if (2 ^ 63 <? d)%Z then None else duration_terms fuel d s
  end.

Definition ParseDuration (s : string) : option Z :=
  let '(neg, s) :=
    match s with
    | String "-" s => (true, s)
    | String "+" s => (false, s)
    | _ => (false, s)
    end in
  if bool_decide (s = "0") then Some 0%Z
  else if bool_decide (s = "") then None
  else
    d ← duration_terms (String.length s) 0 s;
    if neg : bool then Some (- d)%Z
    else if (2 ^ 63 - 1 <? d)%Z then None else Some d.

Example parse_durations :
  ParseDuration "168h" = Some (168 * Hour)%Z /\ ParseDuration "1h30m" = Some (90 * Minute)%Z /\
  ParseDuration "1.5s" = Some 1500000000%Z /\ ParseDuration "-2ms" = Some (-2000000)%Z /\
  ParseDuration ".5m" = Some (30 * 1000000000)%Z /\ ParseDuration "0" = Some 0%Z /\
  ParseDuration "3" = None /\ ParseDuration "h" = None /\ ParseDuration "2540400h10m10.000000000s" =
    Some 9145440610000000000%Z /\ ParseDuration "9223372036854775808ns" = None /\
  ParseDuration "-9223372036854775808ns" = Some (- 2 ^ 63)%Z.
Proof. vm_compute. by repeat split. Qed.

(** ** Levels and booleans *)

(** [strings.ToUpper] where a byte is not ASCII. *)
Class UnicodeUpper := { upper_non_ascii : string -> string }.

Definition upper_byte (b : N) : N := if between 97 122 b then (b - 32)%N else b.

Definition ToUpper `{UnicodeUpper} (s : string) : string :=
  if is_ascii s then map_bytes upper_byte s else upper_non_ascii s.

(** [strconv.Atoi]: a sign and digits, within 64 bits. *)
Definition Atoi (s : string) : option Z :=
  let '(neg, s) :=
    match s with
    | String "-" s => (true, s)
    | String "+" s => (false, s)
    | _ => (false, s)
    end in
  if bool_decide (s = "") || negb (forall_bytes is_digit s) then None
  else
    let n := Z.of_N (digits_value 0 s) in
    let n := if neg : bool then (- n)%Z else n in
    if (- 2 ^ 63 <=? n)%Z && (n <? 2 ^ 63)%Z then Some n else None.

(** The name before the first sign, and the rest. *)
Fixpoint span_name (s : string) : string * string :=
  match s with
  | "" => ("", "")
  | String c s' =>
      if bool_decide (c = "+"%char) || bool_decide (c = "-"%char) then ("", s)
      else let '(n, r) := span_name s' in (String c n, r)
  end.

(** [UnmarshalText] of [slog.Level]. *)
Definition UnmarshalLevel `{UnicodeUpper} (s : string) : option Z :=
  let '(name, rest) := span_name s in
  offset ← (if bool_decide (rest = "") then Some 0%Z else Atoi rest);
  let name := ToUpper name in
  base ← (if bool_decide (name = "DEBUG") then Some (-4)%Z
    else if bool_decide (name = "INFO") then Some 0%Z
    else if bool_decide (name = "WARN") then Some 4%Z
    else if bool_decide (name = "ERROR") then Some 8%Z
    else None);
  Some (wrap64 (base + offset)).

Definition ParseBool (s : string) : option bool :=
  if bool_decide (s ∈ ["1"; "t"; "T"; "TRUE"; "true"; "True"]) then Some true
  else if bool_decide (s ∈ ["0"; "f"; "F"; "FALSE"; "false"; "False"]) then Some false
  else None.

(** ** The settings *)

Record Config := mkConfig {
  Addr : string;
  LogLevel : Z;
  AllowedOrigins : string;
  TrustProxy : bool;
  DatabaseURL : string;
  RedisURL : string;
  CookieName : string;
  CookieDomain : string;
  CookieSecure : bool;
  SessionIdleTTL : Z;
  SessionAbsoluteTTL : Z;
  WSTicketTTL : Z;
  TURNSecret : string;
  TURNURLs : list string;
  TURNCredentialTTL : Z
}.

(** What is wrong with a setting. *)
Inductive config_error :=
| BadLevel (raw : string)
| BadBool (key raw : string)
| BadDuration (key raw : string)
| NotPositive (key : string) (d : Z)
| HalfTURN
| Required (key : string)
| IdleExceedsAbsolute (idle absolute : Z).

Section load.
Context `{UnicodeUpper}.

(** [os.Getenv]: empty when unset. *)
Variable Getenv : string -> string.

Definition envOr (key fallback : string) : string :=
  let v := TrimSpace (Getenv key) in
  if bool_decide (v <> "") then v else fallback.

(** The parsers give back a value in any case, and an error or none. *)
Definition parseLevel (raw : string) : Z * option config_error :=
  match UnmarshalLevel raw with
  | None => (0%Z, Some (BadLevel raw))
  | Some lvl => (lvl, None)
  end.

Definition parseBool (key : string) (fallback : bool) : bool * option config_error :=
  let raw := TrimSpace (Getenv key) in
  if bool_decide (raw = "") then (fallback, None)
  else match ParseBool raw with
  | None => (fallback, Some (BadBool key raw))
  | Some v => (v, None)
  end.

Definition splitCSV (raw : string) : list string :=
  List.filter (fun v => negb (bool_decide (v = ""))) (TrimSpace <$> Split raw ",").

Definition parseDuration (key : string) (fallback : Z) : Z * option config_error :=
  let raw := TrimSpace (Getenv key) in
  if bool_decide (raw = "") then (fallback, None)
  else match ParseDuration raw with
  | None => (fallback, Some (BadDuration key raw))
  | Some d => if (d <=? 0)%Z then (fallback, Some (NotPositive key d)) else (d, None)
  end.

(** [collect] *)
Definition collect (err : option config_error) : list config_error :=
  match err with Some e => [e] | None => [] end.

Definition when (b : bool) (e : config_error) : list config_error := if b then [e] else [].

(** All errors are collected; with none the settings are returned. *)
Definition Load : list config_error + Config :=
  let databaseURL := Getenv "DATABASE_URL" in
  let redisURL := Getenv "REDIS_URL" in
  let turnSecret := envOr "TURN_SECRET" "" in
  let turnURLs := splitCSV (Getenv "TURN_URLS") in
  let '(level, e1) := parseLevel (envOr "LOG_LEVEL" "info") in
  let '(secure, e2) := parseBool "COOKIE_SECURE" true in
  let '(trust, e3) := parseBool "TRUST_PROXY" false in
  let '(idle, e4) := parseDuration "SESSION_IDLE_TTL" (7 * 24 * Hour) in
  let '(absolute, e5) := parseDuration "SESSION_ABSOLUTE_TTL" (30 * 24 * Hour) in
  let '(turnTTL, e6) := parseDuration "TURN_CREDENTIAL_TTL" (24 * Hour) in
  let errs :=
    collect e1 ++ collect e2 ++ collect e3 ++ collect e4 ++ collect e5 ++ collect e6 ++
    when (negb (Bool.eqb (bool_decide (turnSecret = "")) (bool_decide (length turnURLs = 0)))) HalfTURN ++
    when (bool_decide (TrimSpace databaseURL = "")) (Required "DATABASE_URL") ++
    when (bool_decide (TrimSpace redisURL = "")) (Required "REDIS_URL") ++
    when (absolute <? idle)%Z (IdleExceedsAbsolute idle absolute) in
  if bool_decide (0 < length errs) then inl errs
  else inr (mkConfig (envOr "ADDR" ":8080") level (Getenv "ALLOWED_ORIGINS") trust databaseURL redisURL
    (envOr "SESSION_COOKIE_NAME" "cb_session") (Getenv "SESSION_COOKIE_DOMAIN") secure idle absolute
    (30 * 1000000000) turnSecret turnURLs turnTTL).
End load.

(** ** Properties *)

Lemma duration_terms_bounds fuel d s r :
  (0 <= d <= 2 ^ 63)%Z -> duration_terms fuel d s = Some r -> (0 <= r <= 2 ^ 63)%Z.
Proof.
  revert d s. induction fuel as [|fuel IH]; intros d s Hd.
  { destruct s; [by intros [= <-]|done]. }
  destruct s as [|c s]; [by intros [= <-]|]. cbn [duration_terms].
  destruct (duration_term _) as [[v s']|]; [|done]. cbn [mbind option_bind].
  pose proof (Z.mod_pos_bound (d + v) (2 ^ 64)). destruct (2 ^ 63 <? _)%Z eqn:E; [done|].
  apply Z.ltb_ge in E. apply IH. lia.
Qed.

Lemma ParseDuration_bounds s d : ParseDuration s = Some d -> (- 2 ^ 63 <= d < 2 ^ 63)%Z.
Proof.
  unfold ParseDuration. destruct (match s with String "-" s => _ | _ => _ end) as [neg r].
  case_bool_decide; [by intros [= <-]|]. case_bool_decide; [done|].
  destruct (duration_terms _ 0 r) as [n|] eqn:E; [|done]. cbn [mbind option_bind].
  apply duration_terms_bounds in E; [|done]. destruct neg; [by intros [= <-]; lia|].
  destruct (2 ^ 63 - 1 <? n)%Z eqn:E'; [done|]. apply Z.ltb_ge in E'. intros [= <-]. lia.
Qed.

(** A leading integer leaves a suffix. *)
Lemma leadingInt_length x s v r : leadingInt x s = Some (v, r) -> String.length r <= String.length s.
Proof.
  revert x. induction s as [|c s IH]; intros x; cbn [leadingInt]; [by intros [= _ <-]|].
  destruct (is_digit _); [|by intros [= _ <-]]. destruct (_ <? _)%Z; [done|]. cbv zeta.
  destruct (_ <? _)%Z; [done|]. intros Hr%IH. simpl. lia.
Qed.

Lemma leadingFraction_length x scale o s f sc r :
  leadingFraction x scale o s = (f, sc, r) -> String.length r <= String.length s.
Proof.
  revert x scale o. induction s as [|c s IH]; intros x scale o; cbn [leadingFraction]; [by intros [= _ _ <-]|].
  destruct (is_digit _); [|by intros [= _ _ <-]]. cbv zeta.
  destruct (_ || _); [intros Hr%IH; simpl; lia|]. destruct (_ <? _)%Z; intros Hr%IH; simpl; lia.
Qed.

Lemma span_unit_length s u r : span_unit s = (u, r) -> String.length s = String.length u + String.length r.
Proof.
  revert u. induction s as [|c s IH]; intros u; cbn [span_unit]; [by intros [= <- <-]|].
  destruct (_ || _); [by intros [= <- <-]|]. destruct (span_unit s) as [u' r'].
  intros [= <- <-]. simpl. by rewrite (IH u' eq_refl).
Qed.

(** A term takes at least one byte. *)
Lemma duration_term_length s v r : duration_term s = Some (v, r) -> String.length r < String.length s.
Proof.
  unfold duration_term. destruct (leadingInt 0 s) as [[v0 r0]|] eqn:E0; [|done]. cbn [mbind option_bind].
  apply leadingInt_length in E0.
  destruct (match take_point r0 with Some _ => _ | None => _ end) as [[[f scale] post] r1] eqn:E1.
  assert (String.length r1 <= String.length r0) as Hr1.
  { destruct (take_point r0) as [r'|] eqn:Ep; [|injection E1 as <- <- <- <-; lia].
    destruct (leadingFraction _ _ _ r') as [[f' sc'] r''] eqn:Ef. injection E1 as <- <- <- <-.
    apply leadingFraction_length in Ef. destruct r0 as [|c r0]; [done|]. simpl in Ep.
    case_bool_decide; [|done]. injection Ep as ->. simpl. lia. }
  cbv zeta. destruct (_ && _); [done|]. destruct (span_unit r1) as [u r2] eqn:Eu.
  apply span_unit_length in Eu. destruct (unitMap u) as [unit|] eqn:Em; [|done]. cbn [mbind option_bind].
  destruct (_ <? _)%Z; [done|]. cbv zeta. destruct (_ <? _)%Z; [done|]. intros [= _ <-].
  assert (String.length u <> 0); [|lia]. intros Hu. destruct u; [|done]. vm_compute in Em. done.
Qed.

(** Parsing a duration terminates by itself: more fuel than the length of the
    text changes nothing, so the bound of the model is the loop of the code. *)
Theorem duration_fuel_enough fuel d s :
  String.length s <= fuel -> duration_terms fuel d s = duration_terms (String.length s) d s.
Proof.
  assert (forall n fuel s d, String.length s <= n -> n <= fuel ->
    duration_terms fuel d s = duration_terms n d s) as Hall; [|intros Hf; by apply Hall].
  clear. induction n as [|n IH]; intros fuel s d Hs Hf.
  { destruct s; [|simpl in Hs; lia]. by destruct fuel. }
  destruct fuel as [|fuel]; [lia|]. destruct s as [|c s]; [done|]. cbn [duration_terms].
  destruct (duration_term _) as [[v r]|] eqn:E; [|done]. cbn [mbind option_bind].
  apply duration_term_length in E. simpl in Hs, E. destruct (_ <? _)%Z; [done|]. apply IH; lia.
Qed.

Section valid.
Context `{UnicodeUpper}.
Variable Getenv : string -> string.

Lemma parseDuration_positive key fallback d e :
  (0 < fallback < 2 ^ 63)%Z -> parseDuration Getenv key fallback = (d, e) -> (0 < d < 2 ^ 63)%Z.
Proof.
  intros Hf. unfold parseDuration. case_bool_decide; [by intros [= <- _]|].
  destruct (ParseDuration _) as [d'|] eqn:E; [|by intros [= <- _]]. apply ParseDuration_bounds in E.
  destruct (d' <=? 0)%Z eqn:E'; [by intros [= <- _]|]. apply Z.leb_gt in E'. intros [= <- _]. lia.
Qed.

Lemma collected (errs : list (list config_error)) : concat errs = [] -> Forall (fun l => l = []) errs.
Proof. induction errs as [|[|e l] errs IH]; [constructor|constructor; [done|by apply IH]|done]. Qed.

Lemma when_none b e : when b e = [] -> b = false.
Proof. by destruct b. Qed.

(** Settings that load are safe to run with: the three lifetimes are positive
    64-bit durations and no idle window is longer than the absolute lifetime; the
    two stores are named; TURN is configured whole or not at all, with non-empty
    addresses; the cookie has a name; and cookies are for HTTPS, and proxy headers
    not trusted, unless the environment says otherwise. *)
Theorem config_valid cfg :
  Load Getenv = inr cfg ->
  (0 < SessionIdleTTL cfg <= SessionAbsoluteTTL cfg)%Z /\ (SessionAbsoluteTTL cfg < 2 ^ 63)%Z /\
  (0 < TURNCredentialTTL cfg < 2 ^ 63)%Z /\ WSTicketTTL cfg = (30 * 1000000000)%Z /\
  TrimSpace (DatabaseURL cfg) <> "" /\ TrimSpace (RedisURL cfg) <> "" /\ CookieName cfg <> "" /\
  (TURNSecret cfg = "" <-> TURNURLs cfg = []) /\ Forall (fun u => u <> "" /\ TrimSpace u = u) (TURNURLs cfg) /\
  (TrimSpace (Getenv "COOKIE_SECURE") = "" -> CookieSecure cfg = true) /\
  (TrimSpace (Getenv "TRUST_PROXY") = "" -> TrustProxy cfg = false).
Proof.
  unfold Load. cbv zeta. destruct (parseLevel _) as [level e1].
  destruct (parseBool _ "COOKIE_SECURE" _) as [secure e2] eqn:E2.
  destruct (parseBool _ "TRUST_PROXY" _) as [trust e3] eqn:E3.
  destruct (parseDuration _ "SESSION_IDLE_TTL" _) as [idle e4] eqn:E4.
  destruct (parseDuration _ "SESSION_ABSOLUTE_TTL" _) as [absolute e5] eqn:E5.
  destruct (parseDuration _ "TURN_CREDENTIAL_TTL" _) as [turnTTL e6] eqn:E6.
  case_bool_decide as Herrs; [done|]. intros [= <-]. simpl.
  assert (forall errs : list config_error, ~ 0 < length errs -> errs = []) as Hnil
    by (intros []; simpl; [done|lia]).
  apply Hnil in Herrs.
  repeat match goal with
  | H : _ ++ _ = [] |- _ => apply app_eq_nil in H as [? H]
  | H : when _ _ = [] |- _ => apply when_none in H
  end.
  apply parseDuration_positive in E4, E5, E6; try (unfold Hour, Minute; lia).
  assert (forall v fallback, envOr Getenv v fallback <> "" \/ fallback = "") as Henv.
  { clear. intros v fallback. unfold envOr. case_bool_decide; [by left|].
    destruct (decide (fallback = "")); [by right|by left]. }
  repeat match goal with H : bool_decide _ = false |- _ => apply bool_decide_eq_false in H end.
  repeat match goal with H : (_ <? _)%Z = false |- _ => apply Z.ltb_ge in H end.
  split; [lia|]. split; [lia|]. split; [lia|]. split; [done|]. split; [done|]. split; [done|].
  split; [by destruct (Henv "SESSION_COOKIE_NAME" "cb_session")|]. split.
  { match goal with H : negb _ = false |- _ => apply negb_false_iff, Bool.eqb_prop in H as Heq end.
    rewrite <- length_zero_iff_nil.
    split; intros H'; [rewrite (bool_decide_true _ H') in Heq|rewrite (bool_decide_true _ H') in Heq; symmetry in Heq];
      symmetry in Heq; by apply bool_decide_eq_true in Heq. }
  split.
  { unfold splitCSV. apply Forall_forall. intros u Hu. rewrite list_elem_of_In, List.filter_In in Hu.
    destruct Hu as [Hu Hne]. apply negb_true_iff, bool_decide_eq_false in Hne. split; [done|].
    rewrite <- list_elem_of_In in Hu. apply list_elem_of_fmap in Hu as (v & -> & _). apply TrimSpace_idemp. }
  split; intros He; [unfold parseBool in E2; rewrite (bool_decide_true _ He) in E2|
    unfold parseBool in E3; rewrite (bool_decide_true _ He) in E3]; congruence.
Qed.
End valid.

(** ** An environment *)

#[export] Instance demo_upper : UnicodeUpper := {| upper_non_ascii s := s |}.

(** That of [src/.env.example], with a relay. *)
Definition demo_env (key : string) : string :=
  default "" (list_to_map (M := gmap string string) [
    ("ADDR", ":8080"); ("LOG_LEVEL", "info"); ("SESSION_IDLE_TTL", "168h");
    ("ALLOWED_ORIGINS", "http://localhost:5173"); ("COOKIE_SECURE", "false"); ("TRUST_PROXY", " ");
    ("DATABASE_URL", "postgres://cbback@127.0.0.1:5432/cbback"); ("REDIS_URL", "redis://127.0.0.1:6379/0");
    ("TURN_SECRET", "s3cret"); ("TURN_URLS", "turn:203.0.113.10:3478?transport=udp, ,turn:203.0.113.10:3478")]
    !! key).

Definition demo_config : Config :=
  mkConfig ":8080" 0 "http://localhost:5173" false "postgres://cbback@127.0.0.1:5432/cbback"
    "redis://127.0.0.1:6379/0" "cb_session" "" false (168 * Hour) (720 * Hour) 30000000000 "s3cret"
    ["turn:203.0.113.10:3478?transport=udp"; "turn:203.0.113.10:3478"] (24 * Hour).

Lemma demo_load : Load demo_env = inr demo_config.
Proof. vm_compute. reflexivity. Qed.

(** A relay without a secret, and an idle window that is too long. *)
Example bad_load :
  Load (fun key => if bool_decide (key = "TURN_SECRET") then ""
    else if bool_decide (key = "SESSION_IDLE_TTL") then "721h" else demo_env key) =
  inl [HalfTURN; IdleExceedsAbsolute (721 * Hour) (720 * Hour)].
Proof. vm_compute. reflexivity. Qed.

Lemma config_valid_witness :
  (0 < SessionIdleTTL demo_config <= SessionAbsoluteTTL demo_config)%Z /\ TrustProxy demo_config = false.
Proof.
  destruct (config_valid demo_env demo_config demo_load) as (H1 & _ & _ & _ & _ & _ & _ & _ & _ & _ & H2).
  split; [exact H1|]. apply H2. vm_compute. reflexivity.
Defined.

Lemma duration_fuel_enough_witness : duration_terms 100 0 "1h30m" = duration_terms 5 0 "1h30m".
Proof. apply (duration_fuel_enough 100 0 "1h30m"). simpl. lia. Defined.
