(* ===== verification/Server.v ===== *)
(** * The server

    [run] of [src/cmd/server/main.go] and the [Routes] of the packages: which
    handler answers which request, behind which guards. *)

From S2P Require Import Prelude GoStrings Effects RateLimit Sessions Users AuthService.
From S2P Require Import Httpx Middleware AuthHandlers Rooms InboxEvents Invites Turn.
From Stdlib Require Import Ascii.
Import Rooms.

(** [Upgrader.Upgrade] of gorilla/websocket: the status it answers with when it
    refuses, given the origin check. *)
Class Upgrader := { upgrade : (http_request -> bool) -> http_request -> option Z }.

(** Its documentation: a request whose origin check fails is refused. *)
Class UpgraderLaws `{Upgrader} : Prop := {
  upgrade_origin check r : check r = false -> upgrade check r <> None
}.

(** What a resolver of room slugs can answer besides a room id. *)
Inductive resolve_failure := RoomNotFound | ResolveFailed.

Inductive endpoint :=
| PostRegister | PostLogin | PostLogout
| GetMe | PostLogoutAll | PostPassword | PostTicket | GetUsers
| PostRooms | GetRooms | GetRoom | DeleteRoom_
| PostInvite | PostCancel | PostDecline
| GetTurn
| GetWs | GetWsInbox | GetHealthz | GetReadyz.

#[export] Instance endpoint_eq_dec : EqDecision endpoint.
Proof. solve_decision. Defined.

(** A segment of a pattern: itself, or any but the empty one. *)
Inductive segment := Lit (text : string) | Any.

Definition pattern : Type := string * list segment * endpoint.

(** [Routes] of the packages, and what [run] registers itself. *)
Definition auth_routes : list pattern := [
  ("POST", [Lit "api"; Lit "auth"; Lit "register"], PostRegister);
  ("POST", [Lit "api"; Lit "auth"; Lit "login"], PostLogin);
  ("POST", [Lit "api"; Lit "auth"; Lit "logout"], PostLogout);
  ("GET", [Lit "api"; Lit "auth"; Lit "me"], GetMe);
  ("POST", [Lit "api"; Lit "auth"; Lit "logout-all"], PostLogoutAll);
  ("POST", [Lit "api"; Lit "auth"; Lit "password"], PostPassword);
  ("POST", [Lit "api"; Lit "auth"; Lit "ws-ticket"], PostTicket);
  ("GET", [Lit "api"; Lit "users"], GetUsers)].

Definition room_routes : list pattern := [
  ("POST", [Lit "api"; Lit "rooms"], PostRooms);
  ("GET", [Lit "api"; Lit "rooms"], GetRooms);
  ("GET", [Lit "api"; Lit "rooms"; Any], GetRoom);
  ("DELETE", [Lit "api"; Lit "rooms"; Any], DeleteRoom_)].

Definition invite_routes : list pattern := [
  ("POST", [Lit "api"; Lit "rooms"; Any; Lit "invites"], PostInvite);
  ("POST", [Lit "api"; Lit "rooms"; Any; Lit "invites"; Lit "cancel"], PostCancel);
  ("POST", [Lit "api"; Lit "rooms"; Any; Lit "invites"; Lit "decline"], PostDecline)].

Definition turn_routes : list pattern := [("GET", [Lit "api"; Lit "turn-credentials"], GetTurn)].

Definition patterns : list pattern :=
  auth_routes ++ room_routes ++ turn_routes ++ invite_routes ++
  [("GET", [Lit "ws"], GetWs); ("GET", [Lit "ws"; Lit "inbox"], GetWsInbox);
   ("GET", [Lit "healthz"], GetHealthz); ("GET", [Lit "readyz"], GetReadyz)].

Fixpoint path_matches (p : list segment) (path : list string) : bool :=
  match p, path with
  | [], [] => true
  | Lit t :: p, s :: path => bool_decide (s = t) && path_matches p path
  | Any :: p, s :: path => negb (bool_decide (s = "")) && path_matches p path
  | _, _ => false
  end.

(** What is registered for a path. *)
Definition path_endpoints (path : list string) : list (string * endpoint) :=
  (fun p : pattern => (p.1.1, p.2)) <$> List.filter (fun p => path_matches p.1.2 path) patterns.

(** A GET pattern also takes HEAD. *)
Definition method_matches (pattern method : string) : bool :=
  bool_decide (pattern = method) || (bool_decide (pattern = "GET") && bool_decide (method = "HEAD")).

Definition route (r : http_request) : option endpoint :=
  snd <$> List.find (fun p => method_matches p.1 (Method r)) (path_endpoints (Segments r)).

(** The methods of an Allow header, in order. *)
Definition allowed_methods (l : list (string * endpoint)) : list string :=
  List.filter (fun m => existsb (fun p => method_matches p.1 m) l) ["DELETE"; "GET"; "HEAD"; "POST"].

(** The mux's answers when no pattern matches. *)
Definition no_route (r : http_request) : response :=
  let text := [("Content-Type", "text/plain; charset=utf-8"); ("X-Content-Type-Options", "nosniff")] in
  match path_endpoints (Segments r) with
  | [] => mkResponse 404 text [] (TextBody "404 page not found")
  | l => mkResponse 405 (("Allow", Join (allowed_methods l) ", ") :: text) [] (TextBody "Method Not Allowed")
  end.

Section server.
Context `{Unicode} `{SessionJson} `{ResponseJson} `{UrlParse} `{Upgrader}.
Context `{AuthJson} `{Handlers.RoomJson} `{Invites.InviteJson}.

Record server_config := mkServer {
  sv_sessions : SessionStore;
  sv_middleware : Middleware;
  sv_policy : OriginPolicy;
  sv_turn : Turn.Handlers
}.

Variable sv : server_config.

(** What the probes see: the hubs' counters, and what the two pings answer. *)
Variables (clients inboxes : Z) (postgres_ping redis_ping : option string).

Abbreviation store := (sv_sessions sv).
Abbreviation m := (sv_middleware sv).

(** [resolveRoom] of [run]. *)
Definition resolveRoom (slug : string) : prog (resolve_failure + string) :=
  room <~ Service.BySlug slug ;;
  match room with
  | inl err => Ret (inl (if Is err ErrNotFound then RoomNotFound else ResolveFailed))
  | inr room => Ret (inr (r_id room))
  end.

(** [fail] of [src/internal/signaling/client.go]. *)
Definition ws_fail (status : Z) (code : string) : response :=
  mkResponse status [("Content-Type", "application/json; charset=utf-8")] [] (ErrorBody code "").

(** The end of both handshakes. *)
Definition finish_upgrade (r : http_request) (user name room : string) : response :=
  match upgrade (CheckOrigin (sv_policy sv)) r with
  | Some status => status_only status
  | None => mkResponse 101 [] [] (Upgraded user name room)
  end.

(** [ServeHTTP] of [src/internal/signaling/client.go], up to the upgrade. *)
Definition serve_ws (r : http_request) : prog response :=
  who <~ AuthenticateWS m r ;;
  match who with
  | inl _ => Ret (ws_fail 401 "unauthenticated")
  | inr (user, name) =>
      let slug := Query_ r "room" in
      if bool_decide (slug = "") then Ret (ws_fail 400 "room_required")
      else
        room <~ resolveRoom slug ;;
        match room with
        | inl RoomNotFound => Ret (ws_fail 404 "room_not_found")
        | inl ResolveFailed => Ret (ws_fail 500 "internal_error")
        | inr room => Ret (finish_upgrade r user name room)
        end
  end.

(** [ServeHTTP] of [src/internal/inbox/conn.go], up to the upgrade. *)
Definition serve_inbox (r : http_request) : prog response :=
  who <~ AuthenticateWS m r ;;
  match who with
  | inl _ => Ret (ws_fail 401 "unauthenticated")
  | inr (user, _) => Ret (finish_upgrade r user "" "")
  end.

Definition healthz : response := JSON 200 (HealthBody clients inboxes).

Definition readyz : response :=
  let check ping := match ping with None => "ok" | Some err => err end in
  JSON (if bool_decide (postgres_ping = None) && bool_decide (redis_ping = None) then 200 else 503)
    (ReadyBody (check postgres_ping) (check redis_ping)).

(** The handlers behind [Require]. *)
Definition protected (e : endpoint) : option (option Identity -> http_request -> prog response) :=
  match e with
  | GetMe => Some (me m)
  | PostLogoutAll => Some (logoutAll store m)
  | PostPassword => Some (changePassword store m)
  | PostTicket => Some (wsTicket store)
  | GetUsers => Some contacts
  | PostRooms => Some Handlers.create
  | GetRooms => Some Handlers.list_
  | GetRoom => Some Handlers.bySlug
  | DeleteRoom_ => Some Handlers.delete_
  | PostInvite => Some (Invites.handle TypeInvite)
  | PostCancel => Some (Invites.handle TypeInviteCancelled)
  | PostDecline => Some (Invites.handle TypeInviteDeclined)
  | GetTurn => Some (Turn.credentials (sv_turn sv))
  | _ => None
  end.

(** The others. *)
Definition public (e : endpoint) (r : http_request) : prog response :=
  match e with
  | PostRegister => register store m r
  | PostLogin => login store m r
  | PostLogout => logout m r
  | GetWs => serve_ws r
  | GetWsInbox => serve_inbox r
  | GetHealthz => Ret healthz
  | _ => Ret readyz
  end.

Definition mux (r : http_request) : prog response :=
  match route r with
  | None => Ret (no_route r)
  | Some e =>
      match protected e with
      | Some next => Require_ store m next r
      | None => public e r
      end
  end.

Definition deny (r : http_request) (reason : string) : response := Error 403 "forbidden_origin" reason.

(** [handler] of [run], without [Recover], which adds nothing unless a handler panics
    ([Respond.v]). *)
Definition handler : http_request -> prog response :=
  SecurityHeaders (CSRF (sv_policy sv) deny mux).
End server.
