(* ===== verification/Interleaving.v ===== *)
(** * The accounts when requests interleave

    Each statement of a program keeps [accounts_ok] from whatever tables it meets
    ([keeps_accounts]), which for the statements that write hashes follows from what
    the program did before. *)

From S2P Require Import Prelude GoStrings Crypto Effects RedisSpec PostgresSpec Hasher RateLimit.
From S2P Require Import Sessions SessionFacts SessionOps SessionCreate Password Users Frames.
From S2P Require Import AuthService AuthFacts Guarded Httpx Middleware AuthHandlers Rooms InboxEvents Invites Turn Server.
Import Rooms.

Section guarded.
Context `{PL : PostgresLaws} {DL : DbLaws db} {HV : HasherView} {HL : HasherLaws HV}.

(** Whatever the tables are when the call is made. *)
Definition keeps_accounts : effects := fun X e =>
  match e with
  | Query q => forall tb r tb', accounts_ok db tb -> query_spec db q tb r tb' -> accounts_ok db tb'
  | Transaction t => forall tb r tb', accounts_ok db tb -> transaction_spec db t tb r tb' -> accounts_ok db tb'
  | _ => True
  end.

(** What is known of the answer. *)
Definition answered : lessons := fun X e =>
  match e in eff X return X -> Prop with
  | Random n => fun o => forall l, o = Some l -> length l = n /\ Forall is_byte l
  | IDKey password salt p => fun key => key = kdf password salt p
  | _ => fun _ => True
  end.

Abbreviation guarded := (guarded keeps_accounts answered).

Definition safe {A} (p : prog A) : Prop := guarded (fun _ => True) p.

Lemma safe_bind {A B} (p : prog A) (f : A -> prog B) : safe p -> (forall a, safe (f a)) -> safe (bind p f).
Proof. intros Hp Hf. eapply guarded_bind; [exact Hp|]. intros a _. apply Hf. Qed.

Lemma safe_bindE {A B} (p : prog (error + A)) (f : A -> prog (error + B)) :
  safe p -> (forall a, safe (f a)) -> safe (bindE p f).
Proof. intros Hp Hf. apply safe_bind; [done|]. by intros [e|a]; [|apply Hf]. Qed.

Lemma only_safe {A} (p : prog A) : only no_db p -> safe p.
Proof. intros Hp. apply guarded_only. eapply only_mono; [|exact Hp]. by intros X []. Qed.

Lemma store_safe {A} (p : prog A) : only store_effect p -> safe p.
Proof. intros Hp. by apply only_safe, store_no_db. Qed.

(** Statements that write no account and no hash. *)
Definition quiet {X} (q : statement X) : bool :=
  match q with InsertUser _ _ | InsertCredential _ _ | UpdateCredential _ _ => false | _ => true end.

Lemma quiet_same {X} (q : statement X) tb x tb' :
  quiet q = true -> stmt_ok db q tb x tb' -> same_accounts tb tb'.
Proof.
  unfold same_accounts. destruct q; simpl; try done; intros _; try (by intros [-> _]); try (by intros ->).
  - intros (_ & _ & _ & _ & _ & _ & _ & ->). done.
  - intros [_ ->]. done.
Qed.

Lemma quiet_keeps {X} (q : statement X) : quiet q = true -> keeps_accounts _ (Query q).
Proof.
  intros Hq tb r tb' Hok. destruct r as [[|]|x]; simpl.
  - by intros [_ ->].
  - intros [->|[x Hx]]; [done|]. eapply same_accounts_ok, Hok. by eapply quiet_same.
  - intros Hx. eapply same_accounts_ok, Hok. by eapply quiet_same.
Qed.

Lemma query_safe {X} (q : statement X) : quiet q = true -> safe (call (Query q)).
Proof. intros Hq. split; [by apply quiet_keeps|done]. Qed.

(** ** The programs that write accounts *)

Lemma create_user_keeps email displayName h :
  stored_hash h -> keeps_accounts _ (Transaction (create_user email displayName h)).
Proof.
  intros Hh tb r tb' Hok Hs. apply create_user_spec in Hs as [Hs _].
  destruct r as [e|u]; [destruct Hs as [->|[u Hs]]; [done|]|]; exact (created_ok db _ _ _ _ _ _ Hh Hs Hok).
Qed.

Lemma update_keeps i h : stored_hash h -> keeps_accounts _ (Query (UpdateCredential i h)).
Proof.
  intros Hh tb r tb' Hok. destruct r as [[|]|n]; simpl.
  - by intros [[] _].
  - intros [->|(n & j & _ & _ & ->)]; [done|]. by apply update_ok.
  - intros (j & _ & _ & ->). by apply update_ok.
Qed.

Lemma CreateUser_safe email displayName h : stored_hash h -> safe (CreateUser email displayName h).
Proof. intros Hh. split; [by apply create_user_keeps|done]. Qed.

Lemma UpdatePassword_safe i h : stored_hash h -> safe (UpdatePassword i h).
Proof. intros Hh. split; [by apply update_keeps|]. intros [e|n] _; [exact I|]. simpl. by destruct (n =? 0)%Z. Qed.

(** A hash that is made is one that may be stored. *)
Lemma HashPassword_guarded password :
  guarded (fun r => forall h, r = inr h -> stored_hash h) (HashPassword password).
Proof.
  split; [done|]. intros [salt|] Hsalt; [|done]. destruct (Hsalt salt eq_refl) as [Hs Hb].
  split; [done|]. intros [|] _; [|done]. split; [done|]. intros key ->. split; [done|]. intros _ _ h [= <-].
  by apply current_stored, (hash_spec password salt).
Qed.

Lemma HashPassword_safe {B} password (f : string -> prog (error + B)) :
  (forall h, stored_hash h -> safe (f h)) -> safe (bindE (HashPassword password) f).
Proof.
  intros Hf. eapply guarded_bind; [apply HashPassword_guarded|]. intros [e|h] Hh; [done|]. by apply Hf, Hh.
Qed.

Lemma deriveKey_safe password salt p : safe (deriveKey password salt p).
Proof. split; [done|]. by intros [|] _. Qed.

(** ** Any number of programs at once *)

Lemma accounts_call X (e : eff X) w x w' :
  accounts_ok db (database w) -> keeps_accounts _ e -> respond _ e w = (x, w') -> True ->
  accounts_ok db (database w') /\ answered _ e x.
Proof.
  intros Hok He E _. split.
  - pose proof (postgres_frame X e w) as Hframe. rewrite E in Hframe. simpl in Hframe.
    destruct e; simpl in He; try (by rewrite Hframe).
    + apply query_answer in E. by eapply He.
    + apply transaction_answer in E. by eapply He.
  - destruct e; simpl in *; try done.
    + intros l ->. by eapply random_answer.
    + by apply idkey_answer in E.
Qed.

Lemma safe_pool {A} (s s' : list (prog A) * mstate) :
  pool_steps s s' -> Forall safe s.1 -> accounts_ok db (database s.2) -> accounts_ok db (database s'.2).
Proof.
  intros Hs Hp Hok.
  by apply (guarded_pool (bound := fun _ => True) (fun _ _ _ _ => I) accounts_call _ _ _ Hs Hp I).
Qed.
End guarded.

(** ** The handlers *)

Ltac safe_by lems :=
  repeat first
    [ assumption
    | lazymatch goal with
      | |- safe (bindE (HashPassword _) _) => apply HashPassword_safe; intros ? ?
      | |- safe (bindE _ _) => apply safe_bindE; [|intros ?]
      | |- safe (bind _ _) => apply safe_bind; [|intros ?]
      | |- safe (call (Query _)) => apply query_safe; reflexivity
      | |- safe (call _) => apply only_safe; apply only_call; reflexivity
      | |- safe (wrapped _ _) => apply safe_bind; [|intros [?|?]; exact I]
      | |- safe (redis_string _) => apply only_safe, only_redis_string; reflexivity
      | |- safe (redis_list _) => apply only_safe, only_redis_list; reflexivity
      | |- safe (redis_run _) => apply only_safe, only_redis_run; reflexivity
      | |- safe (redis _) => apply only_safe, only_redis; reflexivity
      | |- safe (lift _) => exact I
      | |- safe (fails _) => exact I
      | |- safe (succeeds _) => exact I
      | |- safe (Ret _) => exact I
      end
    | lems
    | case_match ].

Ltac part := idtac;
  lazymatch goal with
  | |- safe (check _ _) => apply store_safe, limiter_store, check_limiter
  | |- safe (Allow _ _) => apply store_safe, limiter_store, Allow_limiter
  | |- safe (Reset _) => apply store_safe, limiter_store, Reset_limiter
  | |- safe (Create _ _ _ _) => apply store_safe, Create_store
  | |- safe (Get_ _) => apply store_safe, Get_store
  | |- safe (Touch _ _) => apply store_safe, Touch_store
  | |- safe (Revoke _) => apply store_safe, Revoke_store
  | |- safe (RevokeAllForUser _ _ _) => apply store_safe, RevokeAll_store
  | |- safe (IssueWSTicket _ _) => apply store_safe, Issue_store
  | |- safe (RedeemWSTicket _) => apply store_safe, Redeem_store
  | |- safe (deriveKey _ _ _) => apply deriveKey_safe
  | |- safe (CreateUser _ _ _) => apply CreateUser_safe; assumption
  | |- safe (UpdatePassword _ _) => apply UpdatePassword_safe; assumption
  | |- safe (record _) => unfold record
  | |- safe (RecordEvent _) => unfold RecordEvent
  | |- safe (ByEmailWithCredential _) => unfold ByEmailWithCredential
  | |- safe (ByID _) => unfold ByID
  | |- safe (CredentialByUserID _) => unfold CredentialByUserID
  | |- safe (VerifyPassword _ _) => unfold VerifyPassword
  | |- safe (DummyVerify _) => unfold DummyVerify
  | |- safe (lift_option _) => unfold lift_option
  end.

Section handlers.
Context `{PL : PostgresLaws} {DL : DbLaws db} {HV : HasherView} {HL : HasherLaws HV}.
Context `{Unicode} `{SessionJson}.
Variable store : SessionStore.

Lemma Register_safe in_ : safe (Register store in_).
Proof. unfold Register. safe_by part. Qed.

Lemma rehash_safe user password : safe (rehash user password).
Proof.
  unfold rehash. eapply guarded_bind; [apply HashPassword_guarded|]. intros [e|h] Hh; [exact I|].
  apply safe_bind; [by apply UpdatePassword_safe, Hh|intros _; exact I].
Qed.

Lemma Login_safe in_ : safe (Login store in_).
Proof. unfold Login. safe_by ltac:(first [part | apply rehash_safe]). Qed.

Lemma Logout_safe token e : safe (Logout token e).
Proof. unfold Logout. safe_by part. Qed.

Lemma LogoutAll_safe u e : safe (LogoutAll store u e).
Proof. unfold LogoutAll. safe_by part. Qed.

Lemma ChangePassword_safe u current next keep e : safe (ChangePassword store u current next keep e).
Proof. unfold ChangePassword. safe_by part. Qed.

Context `{ResponseJson} `{UrlParse} `{Upgrader} `{AuthJson} `{Handlers.RoomJson} `{Invites.InviteJson}.
Variable m : Middleware.

Lemma identify_safe r : safe (identify m r).
Proof. unfold identify. safe_by part. Qed.

Lemma AuthenticateWS_safe r : safe (AuthenticateWS m r).
Proof. unfold AuthenticateWS. safe_by ltac:(first [part | apply identify_safe]). Qed.

Lemma SetCookie_safe token e resp : safe (SetCookie m token e resp).
Proof. unfold SetCookie. safe_by part. Qed.

Lemma register_safe r : safe (register store m r).
Proof. unfold register, writeSession. safe_by ltac:(first [apply Register_safe | apply SetCookie_safe]). Qed.

Lemma login_safe r : safe (login store m r).
Proof. unfold login, writeSession. safe_by ltac:(first [apply Login_safe | apply SetCookie_safe]). Qed.

Lemma logout_safe r : safe (logout m r).
Proof. unfold logout. cbv zeta. safe_by ltac:(apply Logout_safe). Qed.

Lemma slug_groups_safe sizes groups : safe (Service.slug_groups sizes groups).
Proof. revert groups. induction sizes as [|size sizes IH]; intros groups; cbn [Service.slug_groups]; safe_by part. apply IH. Qed.

Lemma allocate_safe n u name : safe (Service.allocate n u name).
Proof.
  induction n as [|n IH]; [exact I|]. cbn [Service.allocate].
  unfold Service.generateSlug, Store.Create. safe_by ltac:(apply slug_groups_safe).
Qed.

Lemma BySlug_safe slug : safe (Service.BySlug slug).
Proof. unfold Service.BySlug, Store.BySlug. safe_by part. Qed.

Lemma ring_safe recipient event : safe (Invites.ring recipient event).
Proof. unfold Invites.ring. safe_by part. Qed.
End handlers.

Section server.
Context `{PL : PostgresLaws} {DL : DbLaws db} {HV : HasherView} {HL : HasherLaws HV}.
Context `{Unicode} `{SessionJson} `{ResponseJson} `{UrlParse} `{Upgrader}.
Context `{AuthJson} `{Handlers.RoomJson} `{Invites.InviteJson}.

Lemma protected_safe sv e next id r : protected sv e = Some next -> safe (next (Some id) r).
Proof.
  destruct e; simpl; intros [= <-].
  - unfold me, with_identity, RefreshCookie. safe_by ltac:(apply SetCookie_safe).
  - unfold logoutAll, with_identity. safe_by ltac:(apply LogoutAll_safe).
  - unfold changePassword, with_identity. safe_by ltac:(apply ChangePassword_safe).
  - unfold wsTicket, with_identity. safe_by part.
  - unfold contacts, with_identity, Contacts. safe_by part.
  - unfold Handlers.create, with_identity, Service.Create. safe_by ltac:(apply allocate_safe).
  - unfold Handlers.list_, with_identity, Service.List_, Store.List_. safe_by part.
  - unfold Handlers.bySlug. safe_by ltac:(apply BySlug_safe).
  - unfold Handlers.delete_, with_identity, Service.Delete, Store.DeleteBySlug. safe_by part.
  - unfold Invites.handle, with_identity. safe_by ltac:(first [part | apply BySlug_safe | apply ring_safe]).
  - unfold Invites.handle, with_identity. safe_by ltac:(first [part | apply BySlug_safe | apply ring_safe]).
  - unfold Invites.handle, with_identity. safe_by ltac:(first [part | apply BySlug_safe | apply ring_safe]).
  - unfold Turn.credentials, with_identity, Turn.mint. safe_by part.
Qed.

Lemma public_safe sv cl ib pg rd e r : safe (public sv cl ib pg rd e r).
Proof.
  destruct e; cbn [public]; try exact I; eauto using register_safe, login_safe, logout_safe.
  - unfold serve_ws, resolveRoom. safe_by ltac:(first [apply AuthenticateWS_safe | apply BySlug_safe]).
  - unfold serve_inbox. safe_by ltac:(apply AuthenticateWS_safe).
Qed.

Lemma handler_safe sv cl ib pg rd r : safe (handler sv cl ib pg rd r).
Proof.
  unfold handler, SecurityHeaders. apply safe_bind; [|intros ?; exact I].
  assert (safe (mux sv cl ib pg rd r)) as Hm.
  { unfold mux. destruct (route r) as [e|]; [|exact I].
    destruct (protected sv e) as [next|] eqn:Hp; [|apply public_safe].
    unfold Require_. safe_by ltac:(first [part | apply identify_safe | by eapply protected_safe]). }
  unfold CSRF. repeat case_match; try exact I; exact Hm.
Qed.

(** C15: however the calls of any number of requests interleave, whatever fails in
    between and however far each request gets: ids stay the uuids of their accounts,
    every account keeps its credential, no two accounts share an address, and every
    stored hash is one the program can read. *)
Theorem accounts_survive_interleaving sv cl ib pg rd rs w ps w' :
  accounts_ok db (database w) ->
  pool_steps (handler sv cl ib pg rd <$> rs, w) (ps, w') ->
  accounts_ok db (database w').
Proof.
  intros Hok Hsteps. apply (safe_pool _ _ Hsteps); [|exact Hok].
  apply Forall_fmap, Forall_true. intros r. apply handler_safe.
Qed.
End server.
