(* ===== verification/SharedSessions.v ===== *)
(** * Sessions and tickets of the server, however its requests interleave

    The programs of [Lifetimes.v] put together: every handler only stores sessions and
    tickets that may be stored, so what is in Redis stays true of the accounts. *)

From S2P Require Import Prelude GoStrings Crypto Effects RedisSpec PostgresSpec Hasher RateLimit.
From S2P Require Import Sessions SessionFacts Password Users Frames Guarded Lifetimes.
From S2P Require Import AuthService AuthFacts Httpx Middleware AuthHandlers Rooms InboxEvents Invites Turn Server Interleaving.
Import Rooms.

(** ** Programs that store nothing but counters *)

Lemma db_tame {A} (p : prog A) : only db_effect p -> only tame p.
Proof. apply only_mono. by intros X []. Qed.

Lemma hash_tame {A} (p : prog A) : only hash_effect p -> only tame p.
Proof. apply only_mono. by intros X []. Qed.

Lemma check_tame key limit : only tame (check key limit).
Proof. unfold check. only_by ltac:(exact I). apply Allow_tame. Qed.

Ltac tame_part := idtac;
  lazymatch goal with
  | |- only tame (check _ _) => apply check_tame
  | |- only tame (Allow _ _) => apply Allow_tame
  | |- only tame (Reset _) => apply Reset_tame
  | |- only tame (Revoke _) => apply Revoke_tame
  | |- only tame (RevokeAllForUser _ _ _) => apply RevokeAll_tame
  | |- only tame (Get_ _) => apply Get_tame
  | |- only tame (RedeemWSTicket _) => apply Redeem_tame
  | |- only tame (record _) => apply db_tame, record_db
  | |- only tame (ByID _) => apply db_tame, ByID_db
  | |- only tame (CredentialByUserID _) => apply db_tame, CredentialByUserID_db
  | |- only tame (UpdatePassword _ _) => apply db_tame, UpdatePassword_db
  | |- only tame (HashPassword _) => apply hash_tame, HashPassword_hash
  | |- only tame (VerifyPassword _ _) => apply hash_tame, VerifyPassword_hash
  | |- only tame (DummyVerify _) => apply hash_tame, DummyVerify_hash
  | |- only tame (lift _) => exact I
  | |- only tame (lift_option ?o) => destruct o; exact I
  end.

Ltac tame_by lems := repeat first [progress only_by ltac:(exact I) | tame_part | lems].

Section tame_programs.
Context `{Unicode} `{SJ : SessionJson}.
Variable store : SessionStore.

Lemma rehash_tame user password : only tame (rehash user password).
Proof. unfold rehash. tame_by fail. Qed.

Lemma Logout_tame token e : only tame (Logout token e).
Proof. unfold Logout. tame_by fail. Qed.

Lemma LogoutAll_tame u e : only tame (LogoutAll store u e).
Proof. unfold LogoutAll. tame_by fail. Qed.

Lemma ChangePassword_tame u current next keep e : only tame (ChangePassword store u current next keep e).
Proof. unfold ChangePassword. tame_by fail. Qed.

Lemma slug_groups_tame sizes groups : only tame (Service.slug_groups sizes groups).
Proof. revert groups. induction sizes as [|size sizes IH]; intros groups; cbn [Service.slug_groups]; tame_by fail. apply IH. Qed.

Lemma allocate_tame n u name : only tame (Service.allocate n u name).
Proof.
  induction n as [|n IH]; [exact I|]. cbn [Service.allocate].
  unfold Service.generateSlug, Store.Create. tame_by ltac:(apply slug_groups_tame).
Qed.

Lemma BySlug_tame slug : only tame (Service.BySlug slug).
Proof. unfold Service.BySlug, Store.BySlug. tame_by fail. Qed.

Context `{ResponseJson} `{Invites.InviteJson}.

Lemma ring_tame recipient event : only tame (Invites.ring recipient event).
Proof. unfold Invites.ring. tame_by fail. Qed.

Lemma invite_tame kind id r : only tame (Invites.handle kind id r).
Proof. unfold Invites.handle, with_identity. cbv zeta. tame_by ltac:(first [apply BySlug_tame | apply ring_tame]). Qed.

Variable m : Middleware.

Lemma SetCookie_tame token e resp : only tame (SetCookie m token e resp).
Proof. unfold SetCookie. tame_by fail. Qed.

Lemma writeSession_tame mode user token sess status : only tame (writeSession m mode user token sess status).
Proof. unfold writeSession. tame_by ltac:(apply SetCookie_tame). Qed.
End tame_programs.

(** ** The handlers *)

Section handlers.
Context `{Unicode} `{SJ : SessionJson} {SL : SessionJsonLaws (H := SJ)}.
Context `{PL : PostgresLaws} {RV : RedisView} {RL : RedisLaws RV}.
Variable store : SessionStore.
Variable accounts : gmap string user_row.
Variable stored : kv.
Variable start : Z.
Hypothesis accounts_ids : forall i u, accounts !! i = Some u -> u_id u = i.
Hypothesis accounts_ascii : forall i, is_Some (accounts !! i) -> is_ascii i = true.

Abbreviation known := (known accounts).
Abbreviation lawful := (lawful store accounts stored start).
Abbreviation yields := (yields (stores_ok store accounts stored start) (told store accounts stored start)).
Abbreviation lasting_session := (lasting_session store accounts stored start).

Lemma tame_bindE {A B} (Q : B -> Prop) (p : prog (error + A)) (f : A -> prog (error + B)) :
  only tame p -> (forall a, yields Q (f a)) -> yields Q (bindE p f).
Proof. intros Hp Hf. eapply yields_bindE; [by apply tame_yields|]. intros a _. apply Hf. Qed.

Lemma tame_bind {A B} (Q : B -> Prop) (p : prog A) (f : A -> prog (error + B)) :
  only tame p -> (forall a, yields Q (f a)) -> yields Q (bind p f).
Proof. intros Hp. by apply lawful_bind, tame_lawful. Qed.

(** What follows the creation of a session. *)
Lemma with_Create {B} u ip ua (f : string * Session -> prog (error + B)) :
  known u -> (forall r, only tame (f r)) -> yields (fun _ => True) (bindE (Create store u ip ua) f).
Proof. intros Hu Hf. eapply yields_bindE; [by apply Create_lawful|]. intros r _. by apply tame_yields. Qed.

Lemma Register_lawful in_ : yields (fun _ => True) (Register store in_).
Proof.
  unfold Register. apply tame_bindE; [tame_by fail|]. intros _. apply tame_bindE; [tame_by fail|]. intros email.
  cbv zeta. destruct (_ || _); [exact I|]. apply tame_bindE; [tame_by fail|]. intros _.
  apply tame_bindE; [tame_by fail|]. intros hash.
  eapply yields_bindE; [by apply told_CreateUser|]. intros user Hu.
  apply tame_bind; [tame_by fail|]. intros _. apply with_Create; [exact Hu|]. intros [token sess]. exact I.
Qed.

Lemma Login_lawful in_ : yields (fun _ => True) (Login store in_).
Proof.
  unfold Login. cbv zeta. apply tame_bindE; [tame_by fail|]. intros _. apply tame_bind; [tame_by fail|].
  intros [e|_]; [apply tame_yields; tame_by fail|].
  eapply guarded_bind; [by apply told_ByEmail|]. intros [e|[user hash]] Hu; [apply tame_yields; tame_by fail|].
  destruct (u_disabled user); [apply tame_yields; tame_by fail|].
  apply tame_bind; [tame_by fail|]. intros [e|[[|] needs]]; [exact I| |apply tame_yields; tame_by fail].
  apply tame_bind; [destruct needs; [apply rehash_tame|exact I]|]. intros _.
  apply tame_bind; [tame_by fail|]. intros _. apply with_Create; [exact Hu|]. intros [token sess]. tame_by fail.
Qed.

Context `{ResponseJson} `{UrlParse} `{Upgrader} `{AuthJson} `{Handlers.RoomJson} `{Invites.InviteJson}.
Variable m : Middleware.

(** Who a request is from: an account, with a session that may be stored again. *)
Definition known_identity (id : Identity) : Prop := lasting_session (id_Session id) /\ known (u_id (id_User id)).

Lemma identify_lawful r : yields known_identity (identify m r).
Proof.
  unfold identify. cbv zeta. destruct (bool_decide _); [exact I|].
  eapply yields_bindE; [by apply Get_lawful|]. intros sess Hs.
  eapply yields_bindE; [by apply told_ByID|]. intros user Hu. by split.
Qed.

Lemma AuthenticateWS_tame r : only tame (AuthenticateWS m r).
Proof.
  unfold AuthenticateWS, identify. cbv zeta.
  tame_by fail.
Qed.

Lemma Require_lawful next r :
  (forall id, known_identity id -> lawful (next (Some id) r)) -> lawful (Require_ store m next r).
Proof.
  intros Hnext. unfold Require_. eapply guarded_bind; [apply identify_lawful|]. intros [e|id] Hid.
  - destruct (unauthenticated e); exact I.
  - apply lawful_bind; [by apply Touch_lawful, Hid|]. intros _. by apply Hnext.
Qed.

Lemma wsTicket_lawful id r : known_identity id -> lawful (wsTicket store (Some id) r).
Proof.
  intros [_ Hu]. apply lawful_bind; [by apply Issue_lawful|]. intros [e|[ticket ttl]]; exact I.
Qed.

Lemma register_lawful r : lawful (register store m r).
Proof.
  unfold register. destruct (DecodeJSON _ _ _); [|exact I].
  apply lawful_bind; [eapply guarded_any, Register_lawful|].
  intros [e|[[user token] sess]]; [exact I|]. apply tame_lawful, writeSession_tame.
Qed.

Lemma login_lawful r : lawful (login store m r).
Proof.
  unfold login. destruct (DecodeJSON _ _ _); [|exact I].
  apply lawful_bind; [eapply guarded_any, Login_lawful|].
  intros [e|[[user token] sess]]; [exact I|]. apply tame_lawful, writeSession_tame.
Qed.
End handlers.

(** ** The server *)

(** What the entries of the store say of the accounts. *)
Record entries_true `{SessionJson} (store : SessionStore) (tb : tables) (m : kv) : Prop := {
  et_session id s : session_at m id = Some s ->
    is_Some (users tb !! UserID s) /\ ExpiresAt s = (CreatedAt s + absoluteTTL store)%Z;
  et_ticket h u d : m !! (wsTicketPrefix +:+ h) = Some (Entry (VStr u) d) -> is_Some (users tb !! u)
}.

Section server.
Context `{PL : PostgresLaws} {DL : DbLaws db} {HV : HasherView} {HL : HasherLaws HV}.
Context {RV : RedisView} {RL : RedisLaws RV} {CL : ClockLaws RV}.
Context `{Unicode} `{SJ : SessionJson} {SL : SessionJsonLaws (H := SJ)} `{ResponseJson} `{UrlParse} `{Upgrader}.
Context `{AuthJson} `{Handlers.RoomJson} `{Invites.InviteJson}.
Variable sv : server_config.

Abbreviation store := (sv_sessions sv).

Section lawful.
Variable accounts : gmap string user_row.
Variable stored : kv.
Variable start : Z.
Hypothesis accounts_ids : forall i u, accounts !! i = Some u -> u_id u = i.
Hypothesis accounts_ascii : forall i, is_Some (accounts !! i) -> is_ascii i = true.

Abbreviation lawful := (lawful store accounts stored start).

Lemma protected_lawful e next id r :
  protected sv e = Some next -> known_identity store accounts stored start id -> lawful (next (Some id) r).
Proof.
  destruct e; simpl; intros [= <-] Hid; try by apply wsTicket_lawful.
  all: apply tame_lawful; try apply invite_tame.
  - unfold me, with_identity, RefreshCookie. tame_by ltac:(apply SetCookie_tame).
  - unfold logoutAll, with_identity. tame_by ltac:(apply LogoutAll_tame).
  - unfold changePassword, with_identity. tame_by ltac:(apply ChangePassword_tame).
  - unfold contacts, with_identity, Contacts. tame_by fail.
  - unfold Handlers.create, with_identity, Service.Create. cbv zeta. tame_by ltac:(apply allocate_tame).
  - unfold Handlers.list_, with_identity, Service.List_, Store.List_. tame_by fail.
  - unfold Handlers.bySlug. tame_by ltac:(apply BySlug_tame).
  - unfold Handlers.delete_, with_identity, Service.Delete, Store.DeleteBySlug. tame_by fail.
  - unfold Turn.credentials, with_identity, Turn.mint. tame_by fail.
Qed.

Lemma public_lawful cl ib pg rd e r : lawful (public sv cl ib pg rd e r).
Proof.
  destruct e; cbn [public]; try exact I.
  - by apply register_lawful.
  - by apply login_lawful.
  - apply tame_lawful. unfold logout. cbv zeta. tame_by ltac:(apply Logout_tame).
  - apply tame_lawful. unfold serve_ws, resolveRoom. cbv zeta.
    tame_by ltac:(first [apply AuthenticateWS_tame | apply BySlug_tame]).
  - apply tame_lawful. unfold serve_inbox. tame_by ltac:(apply AuthenticateWS_tame).
Qed.

Lemma handler_lawful cl ib pg rd r : lawful (handler sv cl ib pg rd r).
Proof.
  unfold handler, SecurityHeaders. apply lawful_bind; [|intros ?; exact I].
  assert (lawful (mux sv cl ib pg rd r)) as Hm.
  { unfold mux. destruct (route r) as [e|]; [|exact I].
    destruct (protected sv e) as [next|] eqn:Hp; [|apply public_lawful].
    apply Require_lawful; [done..|]. intros id Hid. by eapply protected_lawful. }
  unfold CSRF. repeat case_match; try exact I; exact Hm.
Qed.
End lawful.

(** What is true at the start is sound, with the accounts of any later state. *)
Lemma entries_sound w (accounts : gmap string user_row) :
  entries_true store (database w) (keyspace w) -> users (database w) ⊆ accounts ->
  sound store accounts (keyspace w) (server_ms w) (keyspace w).
Proof.
  intros [Hs Ht] Hsub k [[p|S] d] He; [|exact I].
  assert (forall u, is_Some (users (database w) !! u) -> known accounts u) as Hk
    by (intros u Hu; by eapply lookup_weaken_is_Some).
  split.
  - intros id s -> Hp. assert (session_at (keyspace w) id = Some s) as Hat by (unfold session_at; by rewrite He).
    destruct (Hs id s Hat) as [Hu HE]. split; [by apply Hk|]. split; [done|]. right. by exists s.
  - intros h ->. apply Hk. by eapply Ht.
Qed.

Lemma sound_entries tb stored start m : sound store (users tb) stored start m -> entries_true store tb m.
Proof.
  intros Hm. split.
  - intros id s. unfold session_at. destruct (m !! session_key id) as [[[p|S] d]|] eqn:E; try done. intros Hp.
    apply Hm in E as [E _]. destruct (E id s eq_refl Hp) as (Hk & He & _). by split.
  - intros h u d Hu. apply Hm in Hu as [_ Hu]. by apply (Hu h).
Qed.

(** C16: however the calls of any number of requests interleave, whatever fails in
    between and however far each request gets: every stored session belongs to an
    account that exists and ends exactly one absolute lifetime after it was begun,
    every ticket stands for an account, and a session that is not new, whoever
    touched it or brought it back, is for the user and the time it was for before. *)
Theorem sessions_survive_interleaving cl ib pg rd rs w ps w' :
  accounts_ok db (database w) -> entries_true store (database w) (keyspace w) ->
  pool_steps (handler sv cl ib pg rd <$> rs, w) (ps, w') ->
  entries_true store (database w') (keyspace w') /\
  forall id s, session_at (keyspace w') id = Some s ->
    (server_ms w <= CreatedAt s / 1000000)%Z \/
    exists s0, session_at (keyspace w) id = Some s0 /\ same_life s0 s.
Proof.
  intros Hok Htrue Hsteps.
  assert (accounts_ok db (database w')) as Hok'.
  { apply (safe_pool _ _ Hsteps); [|exact Hok]. apply Forall_fmap, Forall_true. intros r. apply handler_safe. }
  set (F := users (database w')).
  assert (forall i u, F !! i = Some u -> u_id u = i) as Hids by apply Hok'.
  assert (forall i, is_Some (F !! i) -> is_ascii i = true) as Hascii.
  { intros i Hi. eapply uuid_ascii. by apply (ac_uuid _ _ Hok'). }
  assert (users (database w) ⊆ F) as Hsub
    by (apply (pool_bound _ (within_before F) _ _ Hsteps); by unfold within).
  destruct (lawful_pool store F (keyspace w) (server_ms w) _ _ Hsteps) as [Hsound _].
  - apply Forall_fmap, Forall_true. intros r. by apply handler_lawful.
  - by unfold within.
  - split; [by apply entries_sound|simpl; lia].
  - simpl in Hsound. split; [by eapply sound_entries|]. intros id s. unfold session_at at 1.
    destruct (keyspace w' !! session_key id) as [[[p|S] d]|] eqn:E; try done. intros Hp.
    apply Hsound in E as [E _]. by destruct (E id s eq_refl Hp) as (_ & _ & ?).
Qed.
End server.
