(* ===== verification/ServerFacts.v ===== *)
(** * Every request keeps the invariant and hands its slot back *)

From S2P Require Import Prelude GoStrings Crypto Effects RedisSpec PostgresSpec Hasher RateLimit.
From S2P Require Import Sessions SessionFacts SessionOps SessionCreate Password Users Frames.
From S2P Require Import AuthService AuthFacts AuthLogin World AuthKeeps.
From S2P Require Import Httpx Middleware AuthHandlers Rooms InboxEvents Invites Turn Server.
Import Rooms.

(** ** Slots *)

Ltac slots_by lems :=
  repeat first
    [ assumption
    | lazymatch goal with
      | |- slots _ (bindE _ _) => apply slots_bindE; [|intros ?]
      | |- slots _ (bind _ _) => apply slots_bind; [|intros ?]
      | |- slots _ (call _) => apply slots_call; [reflexivity|exact I]
      | |- slots _ (wrapped _ _) => apply slots_bind; [|intros [?|?]; reflexivity]
      | |- slots _ (lift _) => reflexivity
      | |- slots _ (fails _) => reflexivity
      | |- slots _ (succeeds _) => reflexivity
      | |- slots _ (Ret _) => reflexivity
      end
    | lems
    | case_match ].

Ltac service_call := idtac;
  lazymatch goal with
  | |- slots _ (check _ _) => apply store_slots, limiter_store, check_limiter
  | |- slots _ (Allow _ _) => apply store_slots, limiter_store, Allow_limiter
  | |- slots _ (Reset _) => apply store_slots, limiter_store, Reset_limiter
  | |- slots _ (Create _ _ _ _) => apply store_slots, Create_store
  | |- slots _ (Get_ _) => apply store_slots, Get_store
  | |- slots _ (Touch _ _) => apply store_slots, Touch_store
  | |- slots _ (Revoke _) => apply store_slots, Revoke_store
  | |- slots _ (RevokeAllForUser _ _ _) => apply store_slots, RevokeAll_store
  | |- slots _ (IssueWSTicket _ _) => apply store_slots, Issue_store
  | |- slots _ (RedeemWSTicket _) => apply store_slots, Redeem_store
  | |- slots _ (record _) => apply db_slots, record_db
  | |- slots _ (CreateUser _ _ _) => apply db_slots, CreateUser_db
  | |- slots _ (ByEmailWithCredential _) => apply db_slots, ByEmail_db
  | |- slots _ (ByID _) => apply db_slots, ByID_db
  | |- slots _ (CredentialByUserID _) => apply db_slots, CredentialByUserID_db
  | |- slots _ (UpdatePassword _ _) => apply db_slots, UpdatePassword_db
  | |- slots _ (HashPassword _) => apply HashPassword_slots
  | |- slots _ (VerifyPassword _ _) => apply VerifyPassword_slots
  | |- slots _ (DummyVerify _) => apply DummyVerify_slots
  end.

Ltac service := slots_by service_call.

Section slots.
Context `{Unicode} `{SessionJson}.
Variable store : SessionStore.

Lemma Register_slots in_ : slots 0 (Register store in_).
Proof. unfold Register, lift_option. service. Qed.

Lemma Login_slots in_ : slots 0 (Login store in_).
Proof. unfold Login, rehash. service. Qed.

Lemma Logout_slots token e : slots 0 (Logout token e).
Proof. unfold Logout. service. Qed.

Lemma LogoutAll_slots u e : slots 0 (LogoutAll store u e).
Proof. unfold LogoutAll. service. Qed.

Lemma ChangePassword_slots u current next keep e : slots 0 (ChangePassword store u current next keep e).
Proof. unfold ChangePassword, lift_option. service. Qed.

Context `{ResponseJson} `{UrlParse} `{Upgrader} `{AuthJson} `{Handlers.RoomJson} `{Invites.InviteJson}.
Variable m : Middleware.

Lemma identify_slots r : slots 0 (identify m r).
Proof. unfold identify. service. Qed.

Lemma AuthenticateWS_slots r : slots 0 (AuthenticateWS m r).
Proof. unfold AuthenticateWS. slots_by ltac:(first [service_call | apply identify_slots]). Qed.

Lemma SetCookie_slots token e resp : slots 0 (SetCookie m token e resp).
Proof. unfold SetCookie. service. Qed.

Lemma register_slots r : slots 0 (register store m r).
Proof. unfold register, writeSession. slots_by ltac:(first [apply Register_slots | apply SetCookie_slots]). Qed.

Lemma login_slots r : slots 0 (login store m r).
Proof. unfold login, writeSession. slots_by ltac:(first [apply Login_slots | apply SetCookie_slots]). Qed.

Lemma logout_slots r : slots 0 (logout m r).
Proof. unfold logout. cbv zeta. slots_by ltac:(apply Logout_slots). Qed.

Lemma slug_groups_slots sizes groups : slots 0 (Service.slug_groups sizes groups).
Proof. revert groups. induction sizes as [|size sizes IH]; intros groups; cbn [Service.slug_groups]; service. apply IH. Qed.

Lemma allocate_slots n u name : slots 0 (Service.allocate n u name).
Proof.
  induction n as [|n IH]; [reflexivity|]. cbn [Service.allocate].
  unfold Service.generateSlug, Store.Create. slots_by ltac:(apply slug_groups_slots).
Qed.

Lemma BySlug_slots slug : slots 0 (Service.BySlug slug).
Proof. unfold Service.BySlug, Store.BySlug. service. Qed.

Lemma ring_slots recipient event : slots 0 (Invites.ring recipient event).
Proof. unfold Invites.ring. service. Qed.

End slots.

Section server_slots.
Context `{Unicode} `{SessionJson} `{ResponseJson} `{UrlParse} `{Upgrader}.
Context `{AuthJson} `{Handlers.RoomJson} `{Invites.InviteJson}.

Lemma protected_slots sv e next id r : protected sv e = Some next -> slots 0 (next (Some id) r).
Proof.
  destruct e; simpl; intros [= <-].
  - unfold me, with_identity, RefreshCookie. slots_by ltac:(apply SetCookie_slots).
  - unfold logoutAll, with_identity. slots_by ltac:(apply LogoutAll_slots).
  - unfold changePassword, with_identity. slots_by ltac:(apply ChangePassword_slots).
  - unfold wsTicket, with_identity. service.
  - unfold contacts, with_identity, Contacts. service.
  - unfold Handlers.create, with_identity, Service.Create. slots_by ltac:(apply allocate_slots).
  - unfold Handlers.list_, with_identity, Service.List_, Store.List_. service.
  - unfold Handlers.bySlug. slots_by ltac:(apply BySlug_slots).
  - unfold Handlers.delete_, with_identity, Service.Delete, Store.DeleteBySlug. service.
  - unfold Invites.handle, with_identity. slots_by ltac:(first
      [apply BySlug_slots | apply ring_slots | service_call]).
  - unfold Invites.handle, with_identity. slots_by ltac:(first
      [apply BySlug_slots | apply ring_slots | service_call]).
  - unfold Invites.handle, with_identity. slots_by ltac:(first
      [apply BySlug_slots | apply ring_slots | service_call]).
  - unfold Turn.credentials, with_identity, Turn.mint. service.
Qed.

Lemma public_slots sv cl ib pg rd e r : slots 0 (public sv cl ib pg rd e r).
Proof.
  destruct e; cbn [public]; try reflexivity; eauto using register_slots, login_slots, logout_slots.
  - unfold serve_ws, resolveRoom. slots_by ltac:(first [apply AuthenticateWS_slots | apply BySlug_slots]).
  - unfold serve_inbox. slots_by ltac:(apply AuthenticateWS_slots).
Qed.

(** Every request hands back the slot it takes. *)
Lemma handler_slots sv cl ib pg rd r : slots 0 (handler sv cl ib pg rd r).
Proof.
  unfold handler, SecurityHeaders. apply slots_bind; [|done].
  assert (slots 0 (mux sv cl ib pg rd r)) as Hm.
  { unfold mux. destruct (route r) as [e|]; [|done].
    destruct (protected sv e) as [next|] eqn:Hp; [|apply public_slots].
    unfold Require_. slots_by ltac:(first [apply identify_slots | by eapply protected_slots | service_call]). }
  unfold CSRF. by repeat case_match.
Qed.
End server_slots.
