(* ===== verification/ServerKeeps.v ===== *)
(** * Every request keeps the invariant

    [keeps] for the handlers, and the states the server can reach. *)

From S2P Require Import Prelude GoStrings Crypto Effects RedisSpec PostgresSpec Hasher RateLimit.
From S2P Require Import Sessions SessionFacts SessionOps SessionCreate Password Users Frames.
From S2P Require Import AuthService AuthFacts AuthLogin World AuthKeeps.
From S2P Require Import Httpx Middleware AuthHandlers Rooms InboxEvents Invites Turn Server.
Import Rooms.

Section keeps.
Context `{RL : RedisLaws} {CL : ClockLaws _} {PV : PostgresView} {PL : PostgresLaws PV} {DL : DbLaws db}.
Context {HV : HasherView} {HL : HasherLaws HV} `{JL : SessionJsonLaws} `{Unicode}.
Context `{ResponseJson} `{UrlParse} `{Upgrader} `{AuthJson} `{Handlers.RoomJson} `{Invites.InviteJson}.
Variable store : SessionStore.
Variable secs : Z.
Hypothesis absolute_secs : absoluteTTL store = (secs * 1000000000)%Z.
Hypothesis secs_pos : (0 < secs)%Z.

Abbreviation world := (world secs).
Abbreviation keeps := (keeps secs).

(** ** Other calls *)

Lemma keeps_quiet {X} (e : eff X) : is_redis e = false -> is_postgres e = false -> keeps (call e) anything.
Proof.
  intros Hr Hd. apply keeps_foreign; apply only_call; [|done]. by destruct e.
Qed.

(** Statements that leave the accounts alone. *)
Lemma keeps_query {X} (q : statement X) :
  (forall tb r tb', query_spec db q tb r tb' -> same_accounts tb tb') -> keeps (call (Query q)) anything.
Proof.
  intros Hq. apply keeps_db; [by apply only_call|]. intros w Ha. apply wp_query. intros r w' Hs.
  split; [|done]. eapply same_accounts_ok; [by eapply Hq|done].
Qed.

(** A statement whose effect, if any, is not on the accounts. *)
Lemma query_same {X} (q : statement X) tb r tb' :
  (forall x tb', stmt_ok db q tb x tb' -> same_accounts tb tb') ->
  query_spec db q tb r tb' -> same_accounts tb tb'.
Proof.
  intros Hq Hs. destruct r as [[|]|x]; simpl in Hs; [by destruct Hs as [_ ->]| |by eapply Hq].
  destruct Hs as [->|[x Hx]]; [done|by eapply Hq].
Qed.

Ltac statement := apply keeps_query; intros tb r tb'; apply query_same; simpl; intros x tb1.

Lemma keeps_Contacts u limit : keeps (Contacts u limit) anything.
Proof.
  unfold Contacts. eapply keeps_bind; [statement; by intros [-> _]|]. intros [|] _; by apply keeps_ret.
Qed.

Lemma keeps_room_create u slug name : keeps (Store.Create u slug name) anything.
Proof.
  unfold Store.Create. eapply keeps_bind; [statement; by intros (_ & _ & _ & _ & _ & _ & _ & ->)|].
  intros [[|]|] _; by apply keeps_ret.
Qed.

Lemma keeps_BySlug slug : keeps (Service.BySlug slug) anything.
Proof.
  unfold Service.BySlug, Store.BySlug. eapply keeps_bind; [statement; by intros [-> _]|].
  intros [|[|]] _; by apply keeps_ret.
Qed.

Lemma keeps_room_delete slug : keeps (Service.Delete slug) anything.
Proof.
  unfold Service.Delete, Store.DeleteBySlug. eapply keeps_bind; [statement; by intros [_ ->]|].
  intros [|n] _; [by apply keeps_ret|]. by destruct (n =? 0)%Z; apply keeps_ret.
Qed.

Lemma keeps_room_list : keeps Service.List_ anything.
Proof.
  unfold Service.List_, Store.List_. eapply keeps_bind; [statement; by intros [-> _]|].
  intros [|] _; by apply keeps_ret.
Qed.

Lemma keeps_slug_groups sizes groups : keeps (Service.slug_groups sizes groups) anything.
Proof.
  revert groups. induction sizes as [|size sizes IH]; intros groups; cbn [Service.slug_groups]; [by apply keeps_ret|].
  eapply keeps_bind; [by apply keeps_quiet|]. intros [buf|] _; [apply IH|by apply keeps_ret].
Qed.

Lemma keeps_allocate n u name : keeps (Service.allocate n u name) (on_success anything).
Proof.
  induction n as [|n IH]; cbn [Service.allocate]; [by apply keeps_ret|].
  eapply keeps_bindE.
  { unfold Service.generateSlug. eapply keeps_bindE; [apply keeps_any_error, keeps_slug_groups|].
    intros groups _. by apply (keeps_ret _ _ (on_success anything)). }
  intros slug _. eapply keeps_bind; [apply keeps_room_create|].
  intros [e|room] _; [|by apply keeps_ret]. destruct (negb _); [by apply keeps_ret|exact IH].
Qed.

Lemma keeps_Issue u : keeps (IssueWSTicket store u) anything.
Proof.
  assert (~ session_owned (ticket_key "")) as _ by apply ticket_not_owned.
  apply keeps_foreign; [|apply store_no_db, Issue_store]. unfold IssueWSTicket, newToken.
  only_by ltac:(first [exact I | simpl; repeat constructor; apply ticket_not_owned]).
Qed.

Lemma keeps_Redeem ticket : keeps (RedeemWSTicket ticket) anything.
Proof.
  apply keeps_foreign; [|apply store_no_db, Redeem_store]. unfold RedeemWSTicket.
  only_by ltac:(simpl; repeat constructor; apply ticket_not_owned).
Qed.

(** ** Identities *)

Section middleware.
Variable m : Middleware.

(** What a token that [identify] accepts stands for. *)
Record identified (r : http_request) (id : Identity) (w w' : mstate) : Prop := {
  if_token : id_Token id = tokenFrom m r;
  if_present : tokenFrom m r <> "";
  if_session : exists s0, session_at (keyspace w) (hashToken (id_Token id)) = Some s0 /\
    id_Session id = set_id (hashToken (id_Token id)) s0;
  if_live : (server_ms w <= ExpiresAt (id_Session id) / 1000000)%Z;
  if_user : users (database w) !! u_id (id_User id) = Some (id_User id) /\
    u_disabled (id_User id) = false /\
    uuid_of db (UserID (id_Session id)) = Some (u_id (id_User id));
  if_known : known secs (id_Session id) w'
}.

Lemma wp_identify r (Q : error + Identity -> mstate -> Prop) w :
  world w ->
  (forall res w', world w' -> database w' = database w ->
     match res with inr id => identified r id w w' | inl _ => True end -> Q res w') ->
  wp (interp (identify m r)) Q w.
Proof.
  intros [Hs Ha] HQ. unfold identify.
  destruct (bool_decide (tokenFrom m r = "")) eqn:Htok; [by apply wp_interp_fails, HQ|].
  apply bool_decide_eq_false in Htok. rewrite wp_interp_bindE.
  eapply wp_mono.
  { apply (wp_conj _ _ (fun r0 w1 => (server_ms w <= server_ms w1)%Z /\ sok secs w1 /\
      match r0 with inr s => found (tokenFrom m r) s w w1 | inl _ => True end)
      w (wp_no_db _ w (store_no_db _ (Get_store _)))).
    eapply wp_Get_; [done..|]. intros r0 w1 Ht Hok Hr. split; [done|]. split; [done|]. by destruct r0. }
  cbv beta. intros res w1 (Hd1 & Ht1 & Hok1 & Hfound).
  destruct res as [e|s]; [by apply HQ; [split; [|rewrite Hd1]|..]|].
  rewrite wp_interp_bindE.
  eapply wp_mono.
  { apply (wp_conj _ _ (fun r0 w2 => database w2 = database w1 /\ match r0 with
      | inr u => exists j, uuid_of db (UserID s) = Some j /\ users (database w1) !! j = Some u /\
          u_id u = j /\ u_disabled u = false
      | inl _ => True end) w1 (wp_no_redis _ w1 (db_no_redis _ (ByID_db _)))).
    apply wp_ByID; [by rewrite Hd1|]. intros r0 w2 Hd2 Hr. split; [done|]. by destruct r0. }
  cbv beta. intros res w2 ((Hk2 & Ht2) & Hd2 & Hu). rewrite Hd1 in Hd2, Hu.
  assert (sok secs w2) as Hok2 by (by apply (sok_same secs w1)).
  assert (world w2) as Hw2 by (split; [done|by rewrite Hd2]).
  destruct res as [e|u]; [by apply HQ|]. destruct Hu as (j & Hj & Hju & <- & Hdis).
  apply wp_interp_succeeds, HQ; [done..|].
  pose proof (found_known secs _ _ _ _ Hok1 Hfound) as Hknown.
  destruct Hfound as [Hsh (s0 & Hs0 & ->) _ (n & Hn & Hclk)].
  split; try done; simpl.
  - exists s0. split; [|done]. unfold session_at in *.
    destruct (keyspace w1 !! session_key (hashToken (tokenFrom m r))) as [e|] eqn:E; [|done].
    apply Hsh in E. by rewrite E.
  - transitivity (n / 1000000)%Z; [lia|]. by apply Z.div_le_mono.
  - destruct Hknown as (K1 & K2 & K3). split; [done|]. split; [lia|]. rewrite Hk2. intros. apply K3. lia.
Qed.

Lemma keeps_identify r : keeps (identify m r) anything.
Proof. intros w Hw. apply wp_identify; [done|]. by intros res w' Hw' _ _. Qed.

Lemma keeps_SetCookie token e resp : keeps (SetCookie m token e resp) anything.
Proof.
  unfold SetCookie. eapply keeps_bind; [by apply keeps_quiet|]. intros now _.
  eapply keeps_bind; [by apply keeps_quiet|]. intros now' _. by apply keeps_ret.
Qed.

Lemma keeps_AuthenticateWS r : keeps (AuthenticateWS m r) anything.
Proof.
  unfold AuthenticateWS. destruct (negb _).
  - eapply keeps_mono; [|eapply (keeps_bindE _ _ _ anything anything)]; [done|apply keeps_any_error, keeps_Redeem|].
    intros u _. eapply keeps_bindE; [by apply keeps_ByID|]. intros user _. by apply keeps_ret.
  - eapply keeps_mono; [|eapply (keeps_bindE _ _ _ anything anything)]; [done|apply keeps_any_error, keeps_identify|].
    intros id _. by apply keeps_ret.
Qed.

(** A request that is let in slides its session and goes on. *)
Lemma keeps_Require next r :
  (forall id, known_user (id_User id) -> keeps (next (Some id) r) anything) ->
  keeps (Require_ store m next r) anything.
Proof.
  intros Hnext w Hw. unfold Require_. rewrite wp_interp_bind. apply wp_identify; [done|].
  intros res w1 Hw1 Hd1 Hid. destruct res as [e|id]; [by destruct (unauthenticated e)|].
  rewrite wp_interp_bind.
  eapply wp_mono.
  { apply (wp_conj _ _ (fun _ w2 => sok secs w2) w1 (wp_no_db _ w1 (store_no_db _ (Touch_store _ _)))).
    eapply wp_Touch; [done..|by apply wo_sessions|by eapply if_known|]. by intros. }
  simpl. intros r2 w2 [Hd2 Hok2]. apply Hnext.
  - destruct (if_user _ _ _ _ Hid) as (_ & _ & Huuid). by eapply uuid_ascii.
  - split; [done|]. rewrite Hd2. by eapply wo_accounts.
Qed.

(** ** The handlers *)

Lemma keeps_register r : keeps (register store m r) anything.
Proof.
  unfold register. destruct (DecodeJSON _ _ r) as [req|]; [|by apply keeps_ret].
  eapply keeps_bind; [by apply keeps_Register|]. intros [e|[[u token] s]] _; [by apply keeps_ret|].
  unfold writeSession. destruct (bool_decide _); [by apply keeps_ret|apply keeps_SetCookie].
Qed.

Lemma keeps_login r : keeps (login store m r) anything.
Proof.
  unfold login. destruct (DecodeJSON _ _ r) as [req|]; [|by apply keeps_ret].
  eapply keeps_bind; [by apply keeps_Login|]. intros [e|[[u token] s]] _; [by apply keeps_ret|].
  unfold writeSession. destruct (bool_decide _); [by apply keeps_ret|apply keeps_SetCookie].
Qed.

Lemma keeps_logout r : keeps (logout m r) anything.
Proof.
  unfold logout. cbv zeta. destruct (bool_decide _); [by apply keeps_ret|].
  eapply keeps_bind; [by apply keeps_Logout|]. intros [|] _; by apply keeps_ret.
Qed.

Lemma keeps_with_identity id (k : Identity -> prog response) :
  (forall i, id = Some i -> keeps (k i) anything) -> keeps (with_identity id k) anything.
Proof. intros Hk. destruct id as [i|]; simpl; [by apply Hk|by apply keeps_ret]. Qed.

Lemma keeps_invite eventType id r : keeps (Invites.handle eventType id r) anything.
Proof.
  assert (forall recipient event, keeps (Invites.ring recipient event) anything) as Hring.
  { intros recipient event. unfold Invites.ring. eapply keeps_bind; [by apply keeps_ByID|].
    intros [e|u] _; [destruct (_ || _); by apply keeps_ret|].
    destruct (Invites.Encode event); [|by apply keeps_ret].
    eapply keeps_bind; [by apply keeps_quiet|]. intros n _. by apply keeps_ret. }
  apply keeps_with_identity. intros i _. destruct (DecodeJSON _ _ r) as [u|]; [|by apply keeps_ret].
  cbv zeta. destruct (negb _); [by apply keeps_ret|]. destruct (bool_decide _); [by apply keeps_ret|].
  destruct (negb _); [by apply keeps_ret|].
  eapply keeps_bind; [by apply keeps_limiter, Allow_limiter|].
  intros [e|[[] d]] _; [by apply keeps_ret| |by apply keeps_ret].
  eapply keeps_bind; [apply keeps_BySlug|]. intros [e|room] _; [|apply Hring].
  destruct (_ && _); [apply Hring|]. destruct (Is e ErrNotFound); by apply keeps_ret.
Qed.

(** A handler behind [Require] and the identity [Require] gives it. *)
Lemma keeps_protected sv e next id r :
  sv_sessions sv = store -> sv_middleware sv = m -> protected sv e = Some next ->
  known_user (id_User id) -> keeps (next (Some id) r) anything.
Proof.
  intros Hst Hm Hp Hid. destruct e; simpl in Hp; try discriminate Hp; injection Hp as <-; rewrite ?Hst, ?Hm.
  - unfold me, RefreshCookie. cbn [with_identity]. destruct (negb _); [by apply keeps_ret|].
    destruct (Cookie r _); [apply keeps_SetCookie|by apply keeps_ret].
  - unfold logoutAll. cbn [with_identity]. eapply keeps_bind; [by apply keeps_LogoutAll|]. intros [|] _; by apply keeps_ret.
  - unfold changePassword. cbn [with_identity]. destruct (DecodeJSON _ _ r); [|by apply keeps_ret].
    eapply keeps_bind; [by apply keeps_ChangePassword|]. intros [|] _; by apply keeps_ret.
  - unfold wsTicket. cbn [with_identity]. eapply keeps_bind; [apply keeps_Issue|]. intros [|[]] _; by apply keeps_ret.
  - unfold contacts. cbn [with_identity]. eapply keeps_bind; [apply keeps_Contacts|]. intros [|] _; by apply keeps_ret.
  - unfold Handlers.create. cbn [with_identity]. destruct (if _ : bool then _ else _) as [name|]; [|by apply keeps_ret].
    eapply keeps_bind.
    { unfold Service.Create. destruct (_ <? _); [|apply keeps_allocate].
      by apply (keeps_ret _ _ (on_success anything)). }
    intros [e|room] _; [destruct (Is e _)|]; by apply keeps_ret.
  - unfold Handlers.list_. cbn [with_identity]. eapply keeps_bind; [apply keeps_room_list|]. intros [|] _; by apply keeps_ret.
  - unfold Handlers.bySlug. eapply keeps_bind; [apply keeps_BySlug|].
    intros [e|room] _; [destruct (Is e _)|]; by apply keeps_ret.
  - unfold Handlers.delete_. cbn [with_identity]. eapply keeps_bind; [apply keeps_room_delete|].
    intros [e|room] _; [destruct (Is e _)|]; by apply keeps_ret.
  - apply keeps_invite.
  - apply keeps_invite.
  - apply keeps_invite.
  - unfold Turn.credentials. destruct (bool_decide _); [by apply keeps_ret|]. cbn [with_identity]. unfold Turn.mint.
    eapply keeps_bind; [|intros c _; by apply keeps_ret].
    eapply keeps_bind; [by apply keeps_quiet|]. intros now _. by apply (keeps_ret _ _ anything).
Qed.
End middleware.

(** ** The server *)

Lemma keeps_serve_ws sv r : keeps (serve_ws sv r) anything.
Proof.
  unfold serve_ws. eapply keeps_bind; [apply keeps_AuthenticateWS|]. intros [e|[u name]] _; [by apply keeps_ret|].
  cbv zeta. destruct (bool_decide _); [by apply keeps_ret|].
  eapply keeps_bind; [|intros [[]|room] _; by apply keeps_ret].
  unfold resolveRoom. eapply (keeps_bind _ _ _ _ anything); [apply keeps_BySlug|].
  intros [e|room] _; by apply keeps_ret.
Qed.

Lemma keeps_handler sv cl ib pg rd r :
  sv_sessions sv = store -> keeps (handler sv cl ib pg rd r) anything.
Proof.
  intros Hst. unfold handler, SecurityHeaders. eapply keeps_bind; [|intros resp _; by apply keeps_ret].
  assert (keeps (mux sv cl ib pg rd r) anything) as Hm.
  { unfold mux. destruct (route r) as [e|]; [|by apply keeps_ret].
    destruct (protected sv e) as [next|] eqn:Hp.
    - rewrite Hst. apply keeps_Require. intros id Hid. by eapply keeps_protected.
    - destruct e; try discriminate Hp; simpl; rewrite ?Hst; try (by apply keeps_ret).
      + apply keeps_register.
      + apply keeps_login.
      + apply keeps_logout.
      + apply keeps_serve_ws.
      + unfold serve_inbox. eapply keeps_bind; [apply keeps_AuthenticateWS|].
        intros [e|[u name]] _; by apply keeps_ret. }
  unfold CSRF. by repeat case_match; try (by apply keeps_ret).
Qed.
End keeps.
