(* ===== verification/AuthRegister.v ===== *)
(** * Registering and changing a password

    What the two operations of [AuthService.v] that write accounts leave in the
    tables, error by error. *)

From S2P Require Import Prelude GoStrings Effects RedisSpec PostgresSpec Hasher RateLimit Sessions.
From S2P Require Import Password Users Frames AuthService AuthFacts AuthLogin.

Section register.
Context `{PL : PostgresLaws} {DL : DbLaws db} {HV : HasherView} {HL : HasherLaws HV}.
Context `{Unicode} `{SJ : SessionJson}.
Variable store : SessionStore.

(** The account a registration asks for, with a fresh hash of its password. *)
Definition registered (in_ : Credentials) (tb : tables) (u : User) (tb' : tables) : Prop :=
  exists email h, validateEmail (cr_Email in_) = inr email /\ ValidatePassword (cr_Password in_) = None /\
    current_hash h /\ verifies (cr_Password in_) h /\
    account_created db email (display_name in_ email) h tb u tb'.

(** The errors that tell the client what is wrong with its input. *)
Definition register_refusal (in_ : Credentials) (tb : tables) (e : error) : Prop :=
  check_error e \/
  validateEmail (cr_Email in_) = inl e \/
  exists email, validateEmail (cr_Email in_) = inr email /\
    (e = ErrInvalidDisplayName /\ ~ (1 <= RuneCountInString (display_name in_ email) <= 100) \/
     ValidatePassword (cr_Password in_) = Some e \/
     e = ErrEmailTaken /\ email_taken db email tb).

Definition register_post (in_ : Credentials) (tb : tables) (r : error + User * string * Session) (tb' : tables)
    : Prop :=
  match r with
  | inr (u, token, s) => registered in_ tb u tb' /\ UserID s = u_id u /\ ID s = hashToken token
  | inl e =>
      register_refusal in_ tb e /\ same_accounts tb tb' \/
      store_error e /\ (same_accounts tb tb' \/ exists u, registered in_ tb u tb')
  end.

Lemma account_created_same email name h tb u tb1 tb2 :
  account_created db email name h tb u tb1 -> same_accounts tb1 tb2 ->
  account_created db email name h tb u tb2.
Proof. intros [] [E1 E2]. split; congruence. Qed.

Lemma wpw_Register in_ (Q : error + User * string * Session -> mstate -> list work -> Prop) w :
  (forall r w' t, register_post in_ (database w) r (database w') -> Q r w' t) ->
  wpw (Register store in_) Q w.
Proof.
  intros HQ. unfold Register. apply wpw_bindE, wpw_check. intros r1 w1 Hd1 Hr1. rewrite <- Hd1 in HQ.
  destruct r1 as [e|[]]; [apply HQ; left; split; [by left|done]|].
  apply wpw_bindE, wpw_ret. destruct (validateEmail (cr_Email in_)) as [e|email] eqn:Hemail;
    [apply HQ; left; split; [by right; left|done]|].
  assert (forall e w' t, same_accounts (database w1) (database w') ->
    e = ErrInvalidDisplayName /\ ~ (1 <= RuneCountInString (display_name in_ email) <= 100) \/
     ValidatePassword (cr_Password in_) = Some e \/
     e = ErrEmailTaken /\ email_taken db email (database w1) -> Q (inl e) w' t) as Hrefuse.
  { intros e w' t Hs He. apply HQ. left. split; [|done]. right. right. eauto. }
  cbv zeta. destruct (_ || _) eqn:Hn.
  { apply wpw_ret, Hrefuse; [done|]. left. split; [done|].
    intros [H1' H2']. apply orb_true_iff in Hn as [Hn%Nat.ltb_lt|Hn%Nat.ltb_lt]; lia. }
  apply wpw_bindE. destruct (ValidatePassword (cr_Password in_)) as [e|] eqn:Hp; apply wpw_ret; cbn [app].
  { by apply Hrefuse; [|right; left]. }
  apply wpw_bindE, wpw_hashing; [apply HashPassword_hash|].
  apply wpw_HashPassword; [|intros e w2 t He Hd2; apply HQ; right; split; [done|left; by rewrite Hd2]].
  intros h w2 Hh Hv Hd2. apply wpw_bindE, wpw_no_hash; [apply db_no_hash, CreateUser_db|].
  apply wp_CreateUser. rewrite Hd2. intros r w3 Hr He.
  assert (forall u, account_created db email (display_name in_ email) h (database w1) u (database w3) ->
    registered in_ (database w1) u (database w3)) as Hreg by (intros u Hu; by exists email, h).
  destruct r as [e|u].
  - apply HQ. destruct (He e eq_refl) as [(-> & Htaken & Hd3)|Hse].
    + left. split; [right; right; exists email; split; [done|]; by right; right|]. by rewrite Hd3.
    + right. split; [done|]. destruct Hr as [->|[u Hu]]; [by left|]. right. exists u. by apply Hreg.
  - apply wpw_bind, wpw_record. intros w4 Hs4. apply wpw_bindE, wpw_Create. intros r w5 Hd5 Hr5.
    assert (registered in_ (database w1) u (database w5)) as Hreg5.
    { rewrite Hd5. exists email, h. repeat (split; [done|]). by eapply account_created_same. }
    destruct r as [e|[token s]]; [apply HQ; right; split; [done|]; right; eauto|].
    apply wpw_ret, HQ. destruct Hr5. by repeat split.
Qed.

(** The credentials a registration stored are good for a login, as long as no
    other write touches them. *)
Lemma registered_valid in_ tb u tb' :
  registered in_ tb u tb' ->
  valid_login tb' (NormalizeEmail (cr_Email in_)) (cr_Password in_) u.
Proof.
  intros (email & h & Hemail & _ & Hh & Hv & Hc). destruct Hc as [_ _ _ (He & _ & Hdis) Hu Hcred].
  assert (email = NormalizeEmail (cr_Email in_)) as ->.
  { unfold validateEmail in Hemail. repeat case_match; try done. by injection Hemail. }
  split; [by rewrite Hu, lookup_insert_eq|]. split; [rewrite He; apply citext_refl|]. split; [done|].
  exists h. split; [by rewrite Hcred, lookup_insert_eq|done].
Qed.

(** *** Changing the password *)

Definition change_post (u current next : string) (tb : tables) (r : error + unit) (tb' : tables) : Prop :=
  let proven j := exists h, credentials tb !! j = Some h /\ verifies current h in
  let replaced j := exists h, current_hash h /\ verifies next h /\ credential_set j h tb tb' in
  match r with
  | inr _ => exists j, uuid_of db u = Some j /\ proven j /\ ValidatePassword next = None /\ replaced j
  | inl e =>
      same_accounts tb tb' \/
      e <> ErrInvalidCredentials /\ ~ check_error e /\
      exists j, uuid_of db u = Some j /\ proven j /\ ValidatePassword next = None /\ replaced j
  end.

Lemma RevokeAll_error u except (Q : error + nat -> mstate -> Prop) w :
  (forall r w', match r with inl e => store_error e | inr _ => True end -> Q r w') ->
  wp (interp (RevokeAllForUser store u except)) Q w.
Proof.
  intros HQ. unfold RevokeAllForUser. rewrite wp_interp_bindE. apply wp_wrapped, wp_any.
  intros [e|ids] w1; [apply HQ; by eexists _, _|].
  rewrite wp_interp_bindE. apply wp_wrapped, wp_any. intros [e|rs] w2; apply HQ; [by eexists _, _|done].
Qed.

Lemma wp_ChangePassword u current next keep e (Q : error + unit -> mstate -> Prop) w :
  accounts_ok db (database w) ->
  (forall r w', change_post u current next (database w) r (database w') -> Q r w') ->
  wpw (ChangePassword store u current next keep e) (fun r w' _ => Q r w') w.
Proof.
  intros Hok HQ. unfold ChangePassword. apply wpw_bindE, wpw_check. intros r1 w1 Hd1 Hr1. rewrite <- Hd1 in HQ, Hok.
  destruct r1 as [x|[]]; [apply HQ; by left|].
  apply wpw_bindE, wpw_no_hash; [apply db_no_hash, CredentialByUserID_db|].
  apply wp_CredentialByUserID. intros r w2 Hd2 Hr. rewrite <- Hd2 in HQ, Hok.
  destruct r as [x|h]; [apply HQ; by left|]. destruct Hr as (j & Hj & Hh). rewrite <- Hd2 in Hh.
  assert (forall w', database w' = database w2 -> wpw
    (record (with_event "password_change_failed" e) ;~ fails ErrInvalidCredentials) (fun r w' _ => Q r w') w') as Hfail.
  { intros w' Hd. apply wpw_bind, wpw_record. intros w4 Hs. apply wpw_ret, HQ. left. by rewrite <- Hd. }
  destruct (stored_decodes h (ac_hash _ _ Hok _ _ Hh)) as (p & salt & key & Hdec & _).
  apply wpw_bind, wpw_hashing; [apply VerifyPassword_hash|].
  apply (wpw_VerifyPassword _ _ _ _ p salt key Hdec);
    [intros w3 Hd3; by apply Hfail| |intros w3 _ Hd3; by apply Hfail].
  intros w3 Hv Hd3. rewrite <- Hd3 in HQ, Hok, Hh.
  apply wpw_bindE. destruct (ValidatePassword next) as [x|] eqn:Hp; apply wpw_ret; [apply HQ; by left|].
  apply wpw_bindE, wpw_hashing; [apply HashPassword_hash|].
  apply wpw_HashPassword; [|intros x w4 t _ Hd4; apply HQ; left; by rewrite Hd4].
  intros h' w4 Hh' Hv' Hd4. rewrite <- Hd4 in HQ, Hok, Hh.
  apply wpw_bindE, wpw_no_hash; [apply db_no_hash, UpdatePassword_db|].
  apply wp_UpdatePassword. intros r w5 Hr.
  assert (forall k, uuid_of db u = Some k -> credential_set k h' (database w4) (database w5) ->
    forall w', same_accounts (database w5) (database w') ->
    exists j, uuid_of db u = Some j /\ (exists h, credentials (database w4) !! j = Some h /\ verifies current h) /\
      ValidatePassword next = None /\
      exists h, current_hash h /\ verifies next h /\ credential_set j h (database w4) (database w')) as Hdone.
  { intros k Hk [E1 E2] w' [E3 E4]. rewrite Hj in Hk. injection Hk as <-. exists j.
    repeat (split; [by eauto|]). exists h'. repeat (split; [done|]). split; congruence. }
  destruct r as [x|[]].
  { apply HQ. destruct Hr as (Hne & Hnc & [Hs|(k & Hk & Hs)]); [by left|]. right.
    split; [done|]. split; [done|]. by apply (Hdone k). }
  destruct Hr as (k & Hk & _ & Hs).
  apply wpw_bindE, wpw_no_hash; [apply store_no_hash, RevokeAll_store|].
  eapply wp_mono; [apply (wp_conj _ (fun _ w' => database w' = database w5) (fun r _ => match r with
    | inl e => store_error e | inr _ => True end));
    [apply wp_no_db, store_no_db, RevokeAll_store|by apply RevokeAll_error]|].
  cbv beta. intros r w6 [Hd6 Hr6]. destruct r as [x|n].
  { apply HQ. right. apply store_error_not in Hr6 as [Hne Hnc]. split; [done|]. split; [done|].
    apply (Hdone k); [done..|by rewrite Hd6]. }
  apply wpw_bind, wpw_record. intros w7 Hs7. apply wpw_ret, HQ. rewrite Hd6 in Hs7. by apply (Hdone k).
Qed.
End register.
