(* ===== verification/AuthTheorems.v ===== *)
(** * The properties of accounts and passwords *)

From S2P Require Import Prelude GoStrings Crypto Effects RedisSpec PostgresSpec Hasher RateLimit.
From S2P Require Import Sessions SessionFacts SessionOps SessionCreate SessionTheorems Password Users Frames.
From S2P Require Import AuthService AuthFacts AuthLogin LoginSucceeds AuthRegister World AuthKeeps.

(** ** Hashes *)

(** C38: what [HashPassword] writes in PHC form, [decodeHash] reads back: the
    parameters, the salt and the key, for all parameters that fit their fields. *)
Theorem phc_roundtrip p salt key :
  params_fit p -> Forall is_byte salt -> Forall is_byte key ->
  salt <> [] -> key <> [] ->
  N.of_nat (length salt) = saltLength p -> N.of_nat (length key) = keyLength p ->
  (saltLength p < 2 ^ 32)%N -> (keyLength p < 2 ^ 32)%N ->
  decodeHash (phc p salt key) = inr (p, salt, key).
Proof.
  intros Hp Hs Hk Hs0 Hk0 Hsl Hkl Hsb Hkb. rewrite decode_phc by done. unfold uint32.
  rewrite Hsl, Hkl, !N.mod_small by done. by destruct p.
Qed.

Section hashing.
Context `{HL : HasherLaws}.

(** A hash that [HashPassword] made accepts, at any later time, exactly the
    passwords with the same key under its salt, so in particular the password it
    was made from, and never asks to be replaced. *)
Theorem hashed_password_verifies password h password' b needs w w1 w2 w3 :
  interp (HashPassword password) w = Ok (inr h, w1) ->
  interp (VerifyPassword h password') w2 = Ok (inr (b, needs), w3) ->
  needs = false /\ exists salt, length salt = 16 /\ decodeHash h = inr (argon2Params, salt, kdf password salt argon2Params) /\
    b = bool_decide (kdf password' salt argon2Params = kdf password salt argon2Params).
Proof.
  intros Hhash Hverify.
  assert (current_hash h /\ verifies password h) as [Hc Hv].
  { enough (wpw (HashPassword password) (fun r _ _ => forall h, r = inr h -> current_hash h /\ verifies password h) w)
      as Hp by by apply (wpw_run _ _ _ _ _ Hp Hhash).
    apply wpw_HashPassword; [|done]. by intros h' w' Hc Hv ? [= <-]. }
  destruct Hc as (salt & key & Hs & Hk & Hsb & Hkb & ->).
  pose proof (decode_current salt key Hs Hk Hsb Hkb) as Hdec.
  destruct Hv as (p & salt' & key' & Hdec' & ->). rewrite Hdec in Hdec'. injection Hdec' as <- <- ->.
  enough (wpw (VerifyPassword (phc argon2Params salt (kdf password salt argon2Params)) password')
    (fun r _ _ => forall b needs, r = inr (b, needs) -> needs = false /\
      b = bool_decide (kdf password' salt argon2Params = kdf password salt argon2Params)) w2) as Hp.
  { destruct (wpw_run _ _ _ _ _ Hp Hverify b needs eq_refl) as [-> ->]. eauto. }
  apply (wpw_VerifyPassword _ _ _ _ _ _ _ Hdec); [done|..]; intros w' Hver b' needs' [= <- <-].
  - split; [done|]. destruct Hver as (p & s & k & Hd & ->). rewrite Hdec in Hd.
    injection Hd as <- <- ->. by rewrite bool_decide_true.
  - split; [done|]. rewrite bool_decide_false; [done|]. intros Heq. apply Hver.
    by exists argon2Params, salt, (kdf password salt argon2Params).
Qed.
End hashing.

(** ** Logging in *)

Section accounts.
Context `{PL : PostgresLaws} {DL : DbLaws db} {HV : HasherView} {HL : HasherLaws HV}.
Context `{Unicode} `{SJ : SessionJson}.
Variable store : SessionStore.

(** C1: a login that succeeds is for the enabled account with that address, whose
    stored hash the password matches, and yields a session of that account under
    the token's hash; one that is refused as invalid, unless no hashing slot was
    to be had, is for an address and password that no enabled account has. Only
    a login that succeeds or fails in the stores afterwards changes the accounts,
    and then only to a new hash of the same password. *)
Theorem login_decides in_ r w w' :
  accounts_ok db (database w) ->
  interp (Login store in_) w = Ok (r, w') ->
  let email := NormalizeEmail (cr_Email in_) in
  match r with
  | inr (u, token, s) =>
      valid_login (database w) email (cr_Password in_) u /\
      upgraded (database w) (database w') u (cr_Password in_) /\
      UserID s = u_id u /\ ID s = hashToken token
  | inl e =>
      (same_accounts (database w) (database w') \/
        exists u, valid_login (database w) email (cr_Password in_) u /\
          upgraded (database w) (database w') u (cr_Password in_)) /\
      (e = ErrInvalidCredentials ->
        same_accounts (database w) (database w') /\
        (work_done (Login store in_) w = [Refused] \/
         forall u, ~ valid_login (database w) email (cr_Password in_) u))
  end.
Proof.
  intros Hok Hrun email.
  pose proof (wpw_run _ _ _ _ _ (wpw_Login store in_ _ w Hok (fun r w' t Hp => Hp)) Hrun) as Hp.
  destruct r as [e|[[u token] s]]; [|exact Hp]. destruct Hp as (Hacc & _ & Hinv). split; [exact Hacc|].
  intros He. destruct (Hinv He) as [Hs [Ht|(p & _ & _ & Hnone)]]; auto.
Qed.

(** C22: when the stored hashes have the current parameters, a login that fails
    with invalid credentials did the same work whatever the reason, an unknown
    address, a disabled account or a wrong password: one hash of the current
    parameters, or none when no slot was to be had. A login the limiter stops does
    none. *)
Theorem login_failures_alike in_ e w w' :
  accounts_ok db (database w) ->
  (forall i h, credentials (database w) !! i = Some h -> current_hash h) ->
  interp (Login store in_) w = Ok (inl e, w') ->
  (e = ErrInvalidCredentials ->
     work_done (Login store in_) w = [Hashed argon2Params] \/ work_done (Login store in_) w = [Refused]) /\
  (check_error e -> work_done (Login store in_) w = []).
Proof.
  intros Hok Hcur Hrun.
  destruct (wpw_run _ _ _ _ _ (wpw_Login store in_ _ w Hok (fun r w' t Hp => Hp)) Hrun) as (_ & Hc & Hinv).
  split; [|by intros [? _]%Hc]. intros He. destruct (Hinv He) as [_ [Ht|(p & Ht & Hp & _)]]; [by right|].
  left. rewrite Ht. f_equal. f_equal. destruct Hp as [->|(i & h & salt & key & Hh & Hdec)]; [done|].
  destruct (Hcur _ _ Hh) as (salt' & key' & Hs & Hk & Hsb & Hkb & ->).
  rewrite decode_current in Hdec by done. by injection Hdec as <-.
Qed.

(** ** Registering *)

(** C12: registration is all or nothing. Success creates one account and its
    credential together, for an address that was free, with a hash of the
    password that passed the policy. An error that tells the client what is
    wrong with its input, or that it comes too often, is true of the input and
    leaves the accounts alone; any other error is one of the stores, after which
    the account is there as a whole or not at all. *)
Theorem register_atomic in_ r w w' :
  interp (Register store in_) w = Ok (r, w') -> register_post in_ (database w) r (database w').
Proof. intros Hrun. exact (wpw_run _ _ _ _ _ (wpw_Register store in_ _ w (fun r w' t Hp => Hp)) Hrun). Qed.

(** C36: whoever registered can log in: as long as the accounts stay as they are,
    a login with the same address, however it is cased or padded, and the same
    password gives a session of that very account, unless in its run a call failed, a
    counter was over its limit, no hashing slot was to be had or the time has no JSON;
    and it is refused as invalid only for want of a hashing slot. *)
Theorem register_then_login in_ u token s in' r w w1 w2 w3 :
  accounts_ok db (database w) ->
  interp (Register store in_) w = Ok (inr (u, token, s), w1) ->
  same_accounts (database w1) (database w2) ->
  NormalizeEmail (cr_Email in') = NormalizeEmail (cr_Email in_) -> cr_Password in' = cr_Password in_ ->
  interp (Login store in') w2 = Ok (r, w3) ->
  match r with
  | inr (v, token', s') => v = u /\ UserID s' = u_id u /\ ID s' = hashToken token'
  | inl e =>
      ~ undisturbed (fine_answer store (login_limits (NormalizeEmail (cr_Email in')))) (Login store in') w2 /\
      (e = ErrInvalidCredentials -> work_done (Login store in') w2 = [Refused])
  end.
Proof.
  intros Hok Hreg Hsame Hemail Hpw Hrun.
  pose proof (wpw_run _ _ _ _ _ (wpw_Register store in_ _ w (fun r w' t Hp => Hp)) Hreg) as (Hr & _).
  pose proof (registered_valid _ _ _ _ Hr) as Hvalid.
  assert (accounts_ok db (database w2)) as Hok2.
  { eapply same_accounts_ok; [exact Hsame|]. destruct Hr as (email & h & _ & _ & Hh & _ & Hc).
    eapply created_ok; [exact _|by apply current_stored|exact Hc|exact Hok]. }
  assert (valid_login (database w2) (NormalizeEmail (cr_Email in')) (cr_Password in') u) as Hv2.
  { destruct Hsame as [E1 E2]. unfold valid_login. by rewrite E1, E2, Hemail, Hpw. }
  pose proof (wpw_run _ _ _ _ _ (wpw_Login store in' _ w2 Hok2 (fun r w' t Hp => Hp)) Hrun) as Hp.
  destruct r as [e|[[v token'] s']].
  - split.
    + intros Hun. pose proof (login_succeeds store in' u w2 Hok2 Hv2 Hun) as Hs. unfold wp in Hs.
      rewrite Hrun in Hs. by destruct Hs.
    + intros He. destruct Hp as (_ & _ & Hinv). destruct (Hinv He) as [_ [Ht|(p & _ & _ & Hno)]]; [done|].
      by destruct (Hno u).
  - destruct Hp as ((Hvu & Hve & _) & _ & Hid & Htok). destruct Hv2 as (Huu & Hue & _).
    pose proof (email_unique _ _ v u Hok2 Hvu Huu Hve Hue) as ->. done.
Qed.

(** C37: the password of an account changes only for someone who proves the
    current one, to one that passes the policy, and only in that account; a
    refusal leaves the accounts alone. *)
Theorem change_password_authorized u current next keep e r w w' :
  accounts_ok db (database w) ->
  interp (ChangePassword store u current next keep e) w = Ok (r, w') ->
  change_post u current next (database w) r (database w').
Proof.
  intros Hok Hrun.
  exact (wpw_run _ _ _ _ _ (wp_ChangePassword store u current next keep e _ w Hok (fun r w' Hp => Hp)) Hrun).
Qed.
End accounts.

(** ** Changing the password ends the other sessions *)

Section evict.
Context `{RL : RedisLaws} {CL : ClockLaws _} {PV : PostgresView} {PL : PostgresLaws PV} {DL : DbLaws db}.
Context {HV : HasherView} {HL : HasherLaws HV} `{JL : SessionJsonLaws} `{Unicode}.
Variable store : SessionStore.
Variable secs : Z.
Hypothesis absolute_secs : absoluteTTL store = (secs * 1000000000)%Z.
Hypothesis secs_pos : (0 < secs)%Z.

Lemma wp_keeps_bindE {A B} (p : prog (error + A)) (f : A -> prog (error + B)) Phi Q w :
  world secs w -> keeps secs p (on_success Phi) ->
  (forall e w', Q (inl e) w') -> (forall a w', world secs w' -> Phi a -> wp (interp (f a)) Q w') ->
  wp (interp (bindE p f)) Q w.
Proof.
  intros Hw Hp He Hf. rewrite wp_interp_bindE. eapply wp_mono; [by apply Hp|].
  cbv beta. intros [e|a] w' [Hw' Ha]; [apply He|by apply Hf].
Qed.

Lemma wp_change_evicts u current next keep e w :
  world secs w ->
  wp (interp (ChangePassword store u current next keep e))
    (fun r w' => r = inr tt -> sok secs w' /\ index_within u {[kept keep]} (keyspace w')) w.
Proof.
  intros Hw. unfold ChangePassword.
  eapply wp_keeps_bindE; [done|by apply keeps_check|done|]. intros [] w1 Hw1 _.
  eapply wp_keeps_bindE; [done|by apply keeps_CredentialByUserID|done|]. intros h w2 Hw2 _.
  rewrite wp_interp_bind. eapply wp_mono; [by apply keeps_VerifyPassword|].
  cbv beta. intros [x|[[] needs]] w3 [Hw3 _]; try (rewrite wp_interp_bind; by apply wp_any).
  eapply wp_keeps_bindE; [done|by apply keeps_lift_option|done|]. intros [] w4 Hw4 _.
  eapply wp_keeps_bindE; [done|by apply keeps_HashPassword|done|]. intros h' w5 Hw5 Hh'.
  eapply wp_keeps_bindE; [done|by apply keeps_any_error, keeps_UpdatePassword|done|]. intros [] w6 Hw6 _.
  rewrite wp_interp_bindE. eapply wp_RevokeAllForUser; [done..|by destruct Hw6|].
  intros r w7 _ Hok7 Hin. destruct r as [x|n]; [done|].
  rewrite wp_interp_bind. eapply wp_mono; [apply wp_no_redis, db_no_redis, record_db|].
  cbv beta. intros [] w8 [Hk8 Ht8] _. split; [by eapply sok_same|by rewrite Hk8].
Qed.

(** C11: in a well-formed state, one that requests handled one after the other keep
    when the absolute lifetime is in whole seconds: after a successful change of password
    a lookup that follows it resolves no token to a session of that user but the one of
    the request, so whoever stole another is out. A [Touch] that read the session before
    and is still to write it can bring it back. *)
Theorem change_password_evicts u current next keep e token w w1 r w2 :
  world secs w ->
  interp (ChangePassword store u current next keep e) w = Ok (inr tt, w1) ->
  interp (Get_ token) w1 = Ok (r, w2) ->
  forall s, r = inr s -> UserID s = u -> hashToken token = kept keep.
Proof.
  intros Hw Hch Hget s -> Hu.
  pose proof (wp_change_evicts u current next keep e w Hw) as Hp. unfold wp in Hp. rewrite Hch in Hp.
  destruct (Hp eq_refl) as [Hok Hin]. by eapply (get_within store secs).
Qed.
End evict.
