(* ===== verification/Guards.v ===== *)
(** * What stands before the handlers

    Which routes take which methods, what the handlers of safe requests leave
    alone, and what the two ways into a websocket prove. *)

From S2P Require Import Prelude GoStrings Crypto Effects RedisSpec PostgresSpec Hasher RateLimit.
From S2P Require Import Sessions SessionFacts SessionOps SessionCreate SessionTheorems Password Users Frames.
From S2P Require Import AuthService AuthFacts AuthLogin World AuthKeeps.
From S2P Require Import Httpx Middleware AuthHandlers Rooms InboxEvents Invites Turn Server ServerKeeps.
Import Rooms.

(** ** Routes *)

(** What a route was registered for. *)
Lemma route_pattern r e :
  route r = Some e -> exists m p, (m, p, e) ∈ patterns /\ method_matches m (Method r) = true.
Proof.
  unfold route, path_endpoints. intros ([m e'] & Hf & Heq)%fmap_Some. simpl in Heq. subst e'.
  apply List.find_some in Hf as [Hin Hm]. rewrite <- list_elem_of_In, list_elem_of_fmap in Hin.
  destruct Hin as ([[m' p] e''] & [= -> ->] & Hin). rewrite list_elem_of_In, List.filter_In in Hin.
  exists m', p. rewrite list_elem_of_In. by destruct Hin.
Qed.

Definition read_only (e : endpoint) : bool :=
  match e with
  | GetMe | GetUsers | GetRooms | GetRoom | GetTurn | GetWs | GetWsInbox | GetHealthz | GetReadyz => true
  | _ => false
  end.

(** A safe method reaches read-only endpoints alone. *)
Lemma route_safe r e : route r = Some e -> is_safe r = true -> read_only e = true.
Proof.
  intros (m & p & Hin & Hm)%route_pattern Hs.
  assert (Forall (fun q : pattern => bool_decide (q.1.1 = "GET") = read_only q.2 /\
    q.1.1 ∈ ["GET"; "POST"; "DELETE"]) patterns) as Hall.
  { repeat constructor; repeat (apply elem_of_cons; (by left) || right). }
  rewrite Forall_forall in Hall. destruct (Hall _ Hin) as [Heq Hmm]. simpl in Heq, Hmm. rewrite <- Heq.
  unfold is_safe in Hs. apply bool_decide_eq_true in Hs. unfold method_matches in Hm.
  apply orb_true_iff in Hm as [Hm%bool_decide_eq_true|[Hm _]%andb_true_iff]; [|done].
  rewrite <- Hm in Hs. unfold safeMethods in Hs. rewrite !elem_of_cons, elem_of_nil in Hs, Hmm.
  destruct Hmm as [->|[->|[->|[]]]]; [done|by destruct Hs as [|[|[|]]]..].
Qed.

(** ** Safe requests read *)

Section reads.
Context `{Unicode} `{SessionJson} `{ResponseJson} `{UrlParse} `{Upgrader}.
Context `{AuthJson} `{Handlers.RoomJson} `{Invites.InviteJson}.

Ltac read := only_by ltac:(first [exact I | reflexivity]).

Lemma identify_reads m r : only reads (identify m r).
Proof. unfold identify, ByID. read. apply no_db_reads, store_no_db, Get_store. Qed.

Lemma AuthenticateWS_reads m r : only reads (AuthenticateWS m r).
Proof.
  unfold AuthenticateWS, ByID. read; [apply no_db_reads, store_no_db, Redeem_store|apply identify_reads].
Qed.

Lemma SetCookie_reads m token e resp : only reads (SetCookie m token e resp).
Proof. unfold SetCookie. read. Qed.

Lemma protected_reads sv e next id r :
  protected sv e = Some next -> read_only e = true -> only reads (next (Some id) r).
Proof.
  destruct e; simpl; try discriminate; intros [= <-] _.
  - unfold me, with_identity, RefreshCookie. read; apply SetCookie_reads.
  - unfold contacts, with_identity, Contacts. read.
  - unfold Handlers.list_, with_identity, Service.List_, Store.List_. read.
  - unfold Handlers.bySlug, Service.BySlug, Store.BySlug. read.
  - unfold Turn.credentials, with_identity, Turn.mint. read.
Qed.

Lemma public_reads sv cl ib pg rd e r :
  protected sv e = None -> read_only e = true -> only reads (public sv cl ib pg rd e r).
Proof.
  destruct e; cbn [protected public read_only]; try discriminate; intros _ _; try exact I.
  - unfold serve_ws, resolveRoom, Service.BySlug, Store.BySlug. read. apply AuthenticateWS_reads.
  - unfold serve_inbox. read. apply AuthenticateWS_reads.
Qed.

Lemma Require_reads store m next r :
  (forall id, only reads (next (Some id) r)) -> only reads (Require_ store m next r).
Proof.
  intros Hnext. unfold Require_. read; [apply identify_reads|apply no_db_reads, store_no_db, Touch_store|apply Hnext].
Qed.

Lemma mux_reads sv cl ib pg rd r : is_safe r = true -> only reads (mux sv cl ib pg rd r).
Proof.
  intros Hs. unfold mux. destruct (route r) as [e|] eqn:Hr; [|exact I].
  pose proof (route_safe r e Hr Hs) as He. destruct (protected sv e) as [next|] eqn:Hp.
  - apply Require_reads. intros id. by eapply protected_reads.
  - by apply public_reads.
Qed.
End reads.

(** ** Tickets *)

Section tickets.
Context `{RL : RedisLaws}.

(** The ticket stands for the user. *)
Definition issued (ticket user : string) (m : kv) : Prop :=
  exists d, m !! ticket_key ticket = Some (Entry (VStr user) d).

Lemma wp_Redeem ticket (Q : error + string -> mstate -> Prop) w :
  (forall r w', match r with inr u => issued ticket u (keyspace w) | inl _ => True end -> Q r w') ->
  wp (interp (RedeemWSTicket ticket)) Q w.
Proof.
  intros HQ. unfold RedeemWSTicket. rewrite wp_interp_bindE. apply wp_wrapped.
  unfold redis_string. rewrite wp_interp_bindE.
  apply (wp_redis _ (fun _ m => kept_or_gone (ticket_key ticket) (keyspace w) m)).
  - intros _ _. by left.
  - intros hi t m rs m' _ Hm Hs. apply getdel_spec in Hs as [Hs _]. by eapply kept_or_gone_trans.
  - intros e w' _ _ _. by apply HQ.
  - intros m rs w' _ Hm Hs _.
    destruct rs as [|[| |s| | |] [|]]; try (apply wp_interp_fails, HQ; done).
    apply wp_interp_succeeds, HQ. simpl in Hs. destruct Hs as [Hr _]. unfold reply_ok in Hr. simpl in Hr.
    rewrite live_lookup in Hr. destruct (m !! ticket_key ticket) as [e|] eqn:E; [|done].
    destruct Hm as [Hm|Hm]; [|congruence]. destruct (alive _ e); [|done].
    destruct e as [[v|v] d]; simpl in Hr; [|done]. injection Hr as ->. exists d. congruence.
Qed.
End tickets.

(** ** Identities *)

Section identities.
Context `{RL : RedisLaws} {CL : ClockLaws _} {PV : PostgresView} {PL : PostgresLaws PV} {DL : DbLaws db}.
Context {HV : HasherView} {HL : HasherLaws HV} `{JL : SessionJsonLaws} `{Unicode}.
Context `{ResponseJson} `{UrlParse} `{Upgrader} `{AuthJson} `{Handlers.RoomJson} `{Invites.InviteJson}.
Variable store : SessionStore.
Variable secs : Z.
Hypothesis absolute_secs : absoluteTTL store = (secs * 1000000000)%Z.
Hypothesis secs_pos : (0 < secs)%Z.

(** Who an upgrade request speaks for: the enabled account its ticket was issued
    to, or without a ticket the one its session belongs to. *)
Definition ws_identity (m : Middleware) (r : http_request) (user name : string) (w : mstate) : Prop :=
  let ticket := Query_ r "ticket" in
  exists v, users (database w) !! user = Some v /\ u_display_name v = name /\ u_disabled v = false /\
    (ticket <> "" /\ (exists t, issued ticket t (keyspace w) /\ uuid_of db t = Some user) \/
     ticket = "" /\ exists id w', identified secs m r id w w' /\ id_User id = v).

Lemma wp_AuthenticateWS m r (Q : error + string * string -> mstate -> Prop) w :
  world secs w ->
  (forall res w', database w' = database w ->
     match res with inr (user, name) => ws_identity m r user name w | inl _ => True end -> Q res w') ->
  wp (interp (AuthenticateWS m r)) Q w.
Proof.
  intros Hw HQ. unfold AuthenticateWS. destruct (bool_decide (Query_ r "ticket" = "")) eqn:Ht; cbn [negb];
    [apply bool_decide_eq_true in Ht|apply bool_decide_eq_false in Ht]; rewrite wp_interp_bindE.
  - eapply wp_identify; [done..|]. intros res w' _ Hd Hid.
    destruct res as [e|id]; [by apply HQ|]. apply wp_interp_succeeds, HQ; [done|].
    destruct (if_user _ _ _ _ _ _ Hid) as (Hu & Hdis & _). exists (id_User id).
    repeat (split; [done|]). right. split; [done|]. by exists id, w'.
  - eapply wp_mono.
    { apply (wp_conj _ (fun _ w1 => database w1 = database w) (fun r0 _ => match r0 with
        inr u => issued (Query_ r "ticket") u (keyspace w) | inl _ => True end)).
      - apply wp_no_db, store_no_db, Redeem_store.
      - apply wp_Redeem. by intros. }
    cbv beta. intros res w1 [Hd1 Hi]. destruct res as [e|t]; [by apply HQ|].
    rewrite wp_interp_bindE. apply wp_ByID; [rewrite Hd1; by destruct Hw|].
    intros r2 w2 Hd2 Hr. rewrite Hd1 in Hd2, Hr. destruct r2 as [e|v]; [by apply HQ|].
    apply wp_interp_succeeds, HQ; [done|]. destruct Hr as (j & Hj & Hv & <- & Hdis).
    exists v. repeat (split; [done|]). left. split; [done|]. eauto.
Qed.

(** The room a resolver answers with exists under the slug. *)
Lemma wp_resolveRoom slug (Q : resolve_failure + string -> mstate -> Prop) w :
  (forall res w', database w' = database w ->
     match res with
     | inr room => exists row, rooms (database w) !! room = Some row /\ r_slug row = ToLower (TrimSpace slug)
     | inl RoomNotFound => ~ slug_taken (ToLower (TrimSpace slug)) (database w)
     | inl ResolveFailed => True
     end -> Q res w') ->
  wp (interp (resolveRoom slug)) Q w.
Proof.
  intros HQ. unfold resolveRoom, Service.BySlug, Store.BySlug. rewrite !wp_interp_bind.
  apply wp_query. intros r w' Hs. destruct r as [[|]|[row|]]; simpl in Hs.
  - by destruct Hs.
  - apply HQ; [|done]. by destruct Hs as [->|(o & -> & _)].
  - destruct Hs as (Hd & Hrow & Hslug). apply HQ; [done|]. eauto.
  - destruct Hs as (Hd & Hno). by apply HQ.
Qed.
End identities.
