(* ===== verification/ServerTheorems.v ===== *)
(** * The properties of the server *)

From S2P Require Import Prelude GoStrings Crypto Effects RedisSpec PostgresSpec Hasher RateLimit.
From S2P Require Import Sessions SessionFacts SessionOps SessionCreate SessionTheorems Password Users Frames.
From S2P Require Import AuthService AuthFacts AuthLogin World AuthKeeps.
From S2P Require Import Httpx Middleware AuthHandlers Rooms InboxEvents Invites Turn.
From S2P Require Import Server ServerFacts ServerKeeps Guards.
Import Rooms.

(** ** Requests side by side *)

Section slots.
Context `{HL : HasherLaws} `{Unicode} `{SessionJson} `{ResponseJson} `{UrlParse} `{Upgrader}.
Context `{AuthJson} `{Handlers.RoomJson} `{Invites.InviteJson}.

Definition finished {A} (p : prog A) : Prop := exists a, p = Ret a.

Lemma held_finished {A} (ps : list (prog A)) : Forall finished ps -> held ps = 0.
Proof. induction 1 as [|p ps [a ->] _ IH]; [done|]. exact IH. Qed.

(** C21: whatever requests the server handles at once, in whatever interleaving
    of their calls, every hashing slot is either free or held by a request that
    is about to hash or to release it; once all requests are finished, every slot
    is free again. *)
Theorem hash_slots_never_leak sv cl ib pg rd rs w ps' w' :
  pool_steps (handler sv cl ib pg rd <$> rs, w) (ps', w') ->
  held ps' + free_slots w' = free_slots w /\ (Forall finished ps' -> free_slots w' = free_slots w).
Proof.
  intros Hsteps. destruct (slots_conserved _ _ Hsteps) as [_ Heq].
  { simpl. apply Forall_fmap, Forall_true. intros r. exists 0. apply handler_slots. }
  simpl in Heq. assert (held (handler sv cl ib pg rd <$> rs) = 0) as H0'.
  { clear Heq Hsteps. induction rs as [|r rs IH]; [done|]. unfold held in *. simpl.
    rewrite (slots_holding 0) by apply handler_slots. exact IH. }
  rewrite H0' in Heq. split; [done|]. intros Hf. rewrite (held_finished _ Hf) in Heq. done.
Qed.
End slots.

(** ** The system *)

Section server.
Context `{RL : RedisLaws} {CL : ClockLaws _} {PV : PostgresView} {PL : PostgresLaws PV} {DL : DbLaws db}.
Context {HV : HasherView} {HL : HasherLaws HV} `{JL : SessionJsonLaws} `{Unicode}.
Context `{ResponseJson} `{UrlParse} `{UL : UpgraderLaws} `{AuthJson} `{Handlers.RoomJson} `{Invites.InviteJson}.
Variable sv : server_config.
Variable secs : Z.
Hypothesis absolute_secs : absoluteTTL (sv_sessions sv) = (secs * 1000000000)%Z.
Hypothesis secs_pos : (0 < secs)%Z.

(** The states the server reaches from an empty session store when it handles one
    request after the other: a request is handled, or time passes. What holds when
    requests overlap is in [Interleaving.v] and [SharedSessions.v]. *)
Inductive served : mstate -> Prop :=
| served_start w : keyspace w = ∅ -> accounts_ok db (database w) -> served w
| served_request cl ib pg rd r resp w w' :
    served w -> interp (handler sv cl ib pg rd r) w = Ok (resp, w') -> served w'
| served_pause w w' :
    served w -> (server_ms w <= server_ms w')%Z -> aged (server_ms w') (keyspace w) (keyspace w') ->
    same_accounts (database w) (database w') -> served w'.

Lemma served_world w : served w -> world secs w.
Proof.
  induction 1 as [w Hk Ha|cl ib pg rd r resp w w' _ IH Hrun|w w' _ [Hok Ha] Ht Hage Hsame].
  - split; [|done]. unfold sok. rewrite Hk. split; intros ? ?; unfold session_at; by rewrite lookup_empty.
  - pose proof (keeps_handler (sv_sessions sv) secs absolute_secs secs_pos sv cl ib pg rd r eq_refl w IH) as Hp.
    unfold wp in Hp. rewrite Hrun in Hp. by destruct Hp.
  - split; [|by eapply same_accounts_ok]. apply (sok_end _ w); [done|].
    eapply sessions_ok_aged; [|exact Hage|]; [lia|]. by apply sok_start.
Qed.

(** In every state the server reaches, ids are the uuids of their accounts,
    accounts and credentials go together, no two accounts share an address, every
    stored hash can be read, and every unexpired session is in its user's index. *)
Theorem served_well_formed w :
  served w ->
  accounts_ok db (database w) /\
  forall id s, session_at (keyspace w) id = Some s -> (server_ms w <= ExpiresAt s / 1000000)%Z ->
    indexed (keyspace w) id s.
Proof.
  intros [Hok Ha]%served_world. split; [done|]. intros id s Hs HE. by apply (so_sessions _ _ _ _ Hok).
Qed.

(** ** Identities *)

Section request.
Variables (cl ib : Z) (pg rd : option string) (r : http_request).

Abbreviation handler := (handler sv cl ib pg rd r).

(** Handling is the mux's, with the security headers, but for requests the origin
    check stops. *)
Lemma wp_secured (Q : response -> mstate -> Prop) w :
  (is_safe r = false -> AllowOrigin (sv_policy sv) r = false -> Header r "Authorization" = "" ->
    forall resp, status resp = 403%Z \/ status resp = 500%Z -> (exists c m, payload_ resp = ErrorBody c m) ->
      Q resp w) ->
  (is_safe r = true \/ AllowOrigin (sv_policy sv) r = true \/ Header r "Authorization" <> "" ->
    wp (interp (mux sv cl ib pg rd r)) (fun resp w' => Q (secured resp) w') w) ->
  wp (interp handler) Q w.
Proof.
  intros Hdeny Hmux. unfold Server.handler, SecurityHeaders. rewrite wp_interp_bind.
  unfold CSRF. destruct (is_safe r); [apply Hmux; by left|].
  destruct (bool_decide (Header r "Authorization" = "")) eqn:Ha; cbn [negb];
    [apply bool_decide_eq_true in Ha|apply bool_decide_eq_false in Ha; apply Hmux; auto].
  destruct (AllowOrigin (sv_policy sv) r); cbn [negb]; [apply Hmux; auto|].
  apply wp_interp_ret. apply Hdeny; try done; simpl; unfold deny, Error, JSON; destruct (encodable _); simpl; eauto.
Qed.

Lemma wp_handler (Q : response -> mstate -> Prop) w :
  (is_safe r = false -> AllowOrigin (sv_policy sv) r = false -> Header r "Authorization" = "" ->
    forall resp, status resp = 403%Z \/ status resp = 500%Z -> (exists c m, payload_ resp = ErrorBody c m) ->
      Q resp w) ->
  (is_safe r = true \/ AllowOrigin (sv_policy sv) r = true \/ Header r "Authorization" <> "" ->
    wp (interp (mux sv cl ib pg rd r)) (fun resp w' => forall resp', status resp' = status resp ->
      payload_ resp' = payload_ resp -> Q resp' w') w) ->
  wp (interp handler) Q w.
Proof.
  intros Hdeny Hmux. apply wp_secured; [done|]. intros Hgo. eapply wp_mono; [by apply Hmux|].
  cbv beta. intros resp w' HQ. by apply HQ.
Qed.

Lemma error_status st code msg : status (Error st code msg) = st \/ status (Error st code msg) = 500%Z.
Proof. unfold Error, JSON. destruct (encodable _); simpl; auto. Qed.

(** The request was handled for [id]: its token was looked up and its session
    touched, which changed no table, and the response is what the handler answered
    when it was given [id]. *)
Definition handled_for (next : option Identity -> http_request -> prog response) (id : Identity)
    (w : mstate) (resp : response) (w' : mstate) : Prop :=
  exists w1 touched w2 answer,
    interp (identify (sv_middleware sv) r) w = Ok (inr id, w1) /\ identified secs (sv_middleware sv) r id w w1 /\
    interp (Touch (sv_sessions sv) (id_Session id)) w1 = Ok (touched, w2) /\ database w2 = database w /\
    interp (next (Some id) r) w2 = Ok (answer, w') /\ resp = secured answer.

(** C8: a request to a protected route is handled on behalf of an account only if
    its token resolves to a stored, unexpired session of that very account, which
    is not disabled: then the response and all that happens to the tables is what the
    handler does when it is given this account and session. Otherwise the answer is 401,
    403 or 500 and the tables are as they were. *)
Theorem protected_needs_identity e next w resp w' :
  served w ->
  route r = Some e -> protected sv e = Some next ->
  interp handler w = Ok (resp, w') ->
  (exists id, handled_for next id w resp w') \/
  (database w' = database w /\ (status resp = 401 \/ status resp = 403 \/ status resp = 500)%Z).
Proof.
  intros Hw%served_world Hroute Hp Hrun.
  enough (wp (interp handler) (fun resp w' => (exists id, handled_for next id w resp w') \/
    (database w' = database w /\ (status resp = 401 \/ status resp = 403 \/ status resp = 500)%Z)) w) as Hwp
    by (unfold wp in Hwp; by rewrite Hrun in Hwp).
  apply wp_secured; [intros _ _ _ resp' [->| ->] _; auto|]. intros _. unfold mux. rewrite Hroute, Hp.
  unfold Require_. rewrite wp_interp_bind. apply wp_exact. intros res w1 Hres.
  assert (database w1 = database w /\ match res with inr id => identified secs (sv_middleware sv) r id w w1 | inl _ => True end)
    as [Hd Hid].
  { enough (wp (interp (identify (sv_middleware sv) r)) (fun res w1 => database w1 = database w /\
      match res with inr id => identified secs (sv_middleware sv) r id w w1 | inl _ => True end) w) as Hi
      by (unfold wp in Hi; by rewrite Hres in Hi).
    eapply wp_identify; [done..|]. by intros. }
  destruct res as [err|id].
  { destruct (unauthenticated err); apply wp_interp_ret; right; (split; [done|]); simpl.
    - destruct (error_status 401 "unauthenticated" "sign in to continue") as [->| ->]; auto.
    - unfold internal_error. destruct (error_status 500 "internal_error" "") as [->| ->]; auto. }
  rewrite wp_interp_bind. apply wp_exact. intros touched w2 Ht. apply wp_exact. intros answer w3 Hans.
  left. exists id, w1, touched, w2, answer. repeat (split; [done|]). split; [|done].
  pose proof (wp_no_db (Touch (sv_sessions sv) (id_Session id)) w1 (store_no_db _ (Touch_store _ _))) as Hn.
  unfold wp in Hn. rewrite Ht in Hn. congruence.
Qed.

(** C9: a request from a foreign page, one with an Origin header the policy
    refuses and without an Authorization header, changes no table, whatever cookie
    it carries; if its method is unsafe nothing happens at all. *)
Theorem cross_site_request_harmless w resp w' :
  AllowOrigin (sv_policy sv) r = false -> Header r "Authorization" = "" ->
  interp handler w = Ok (resp, w') ->
  database w' = database w /\ (is_safe r = false -> w' = w /\ (status resp = 403 \/ status resp = 500)%Z).
Proof.
  intros Ho Ha Hrun.
  enough (wp (interp handler) (fun resp w' => database w' = database w /\
    (is_safe r = false -> w' = w /\ (status resp = 403 \/ status resp = 500)%Z)) w) as Hwp
    by (unfold wp in Hwp; by rewrite Hrun in Hwp).
  apply wp_handler; [done|]. intros [Hs|[?|?]]; [|congruence|done]. rewrite Hs.
  eapply wp_mono; [by apply wp_reads, mux_reads|]. by intros resp1 w1 Hd resp2 _ _.
Qed.

(** ** Websockets *)

(** What an open websocket was checked for. *)
Definition upgrade_checked (e : endpoint) (w : mstate) (user name room : string) : Prop :=
  AllowOrigin (sv_policy sv) r = true /\
  exists display, ws_identity secs (sv_middleware sv) r user display w /\
    match e with
    | GetWs => name = display /\
        exists row, rooms (database w) !! room = Some row /\ r_slug row = ToLower (TrimSpace (Query_ r "room"))
    | _ => name = "" /\ room = ""
    end.

Lemma finish_upgrade_checked user name room u n ro :
  payload_ (finish_upgrade sv r user name room) = Upgraded u n ro ->
  AllowOrigin (sv_policy sv) r = true /\ u = user /\ n = name /\ ro = room.
Proof.
  unfold finish_upgrade. destruct (upgrade _ r) eqn:E; simpl; [done|]. intros [= -> -> ->]. split; [|done].
  destruct (AllowOrigin (sv_policy sv) r) eqn:Ho; [done|]. by apply upgrade_origin in E.
Qed.

Lemma upgrade_is_checked e user name room w resp w' :
  served w ->
  route r = Some e -> e = GetWs \/ e = GetWsInbox ->
  interp handler w = Ok (resp, w') ->
  payload_ resp = Upgraded user name room ->
  upgrade_checked e w user name room.
Proof.
  intros Hw%served_world Hroute He Hrun Hup.
  enough (wp (interp handler) (fun resp w' => payload_ resp = Upgraded user name room ->
    upgrade_checked e w user name room) w) as Hwp by (unfold wp in Hwp; rewrite Hrun in Hwp; by apply Hwp).
  apply wp_handler; [by intros _ _ _ resp' _ (c & m & ->)|]. intros _. unfold mux. rewrite Hroute.
  destruct He as [-> | ->]; cbn [protected public].
  - unfold serve_ws. rewrite wp_interp_bind. eapply wp_AuthenticateWS; [done..|].
    intros res w1 Hd1 Hid. destruct res as [err|[u n]]; [apply wp_interp_ret; by intros resp' _ ->|].
    cbv zeta. destruct (bool_decide (_ = "")); [apply wp_interp_ret; by intros resp' _ ->|].
    rewrite wp_interp_bind. apply wp_resolveRoom. intros res2 w2 _ Hroom.
    destruct res2 as [[]|ro]; apply wp_interp_ret; intros resp' _ ->; [done..|].
    intros (Ho & -> & -> & ->)%finish_upgrade_checked. split; [done|]. exists n. split; [done|].
    split; [done|]. by rewrite Hd1 in Hroom.
  - unfold serve_inbox. rewrite wp_interp_bind. eapply wp_AuthenticateWS; [done..|].
    intros res w1 Hd1 Hid. destruct res as [err|[u n]]; apply wp_interp_ret; intros resp' _ ->; [done|].
    intros (Ho & -> & -> & ->)%finish_upgrade_checked. split; [done|]. by exists n.
Qed.

(** C18: in a state that requests handled one after the other reach, a websocket opens only for a request whose origin the policy allows, on
    behalf of the enabled account that its ticket was issued to or its session
    belongs to, under that account's name, and, for signaling, in an existing
    room, the one its slug names. *)
Theorem websocket_opens_checked e user name room w resp w' :
  served w ->
  route r = Some e -> e = GetWs \/ e = GetWsInbox ->
  interp handler w = Ok (resp, w') ->
  payload_ resp = Upgraded user name room ->
  upgrade_checked e w user name room.
Proof. apply upgrade_is_checked. Qed.
End request.
End server.
