(* ===== verification/RoomTheorems.v ===== *)
(** * The properties of rooms and origins *)

From S2P Require Import Prelude GoStrings Crypto Effects PostgresSpec Hasher Users Frames Httpx Rooms.
From Stdlib Require Import Ascii.

(** ** Slugs *)

Section slugs.
Context `{HL : HasherLaws}.

Definition in_alphabet (b : N) : bool :=
  existsb (fun c => (byte c =? b)%N) (String.list_ascii_of_string Service.slugAlphabet).

Lemma slug_char_ok b : in_alphabet (byte (Service.slug_char b)) = true.
Proof.
  unfold Service.slug_char.
  assert (forall i, i < 27 -> in_alphabet (byte (default "b"%char (String.get i Service.slugAlphabet))) = true) as Hall.
  { intros i Hi. do 27 (destruct i as [|i]; [reflexivity|]). lia. }
  apply Hall. change (N.of_nat (String.length Service.slugAlphabet)) with 27%N.
  pose proof (N.mod_lt b 27). lia.
Qed.

Lemma slug_text_ok buf :
  forall_bytes in_alphabet (Service.slug_text buf) = true /\ String.length (Service.slug_text buf) = length buf.
Proof.
  induction buf as [|b buf [IH1 IH2]]; [done|]. cbn [Service.slug_text forall_bytes String.length length].
  rewrite slug_char_ok, IH1, IH2. done.
Qed.

(** The groups of a slug: letters of the alphabet, of the sizes asked for. *)
Definition groups_ok (sizes : list nat) (groups : list string) : Prop :=
  Forall2 (fun n g => forall_bytes in_alphabet g = true /\ String.length g = n) sizes groups.

Lemma wp_slug_groups sizes done_ groups (Q : error + list string -> mstate -> Prop) w :
  groups_ok done_ groups ->
  (forall r w', match r with inr l => groups_ok (done_ ++ sizes) l | inl e => store_error e end -> Q r w') ->
  wp (interp (Service.slug_groups sizes groups)) Q w.
Proof.
  revert done_ groups w. induction sizes as [|n sizes IH]; intros done_ groups w Hg HQ; cbn [Service.slug_groups].
  - apply wp_interp_succeeds, HQ. by rewrite app_nil_r.
  - rewrite wp_interp_bind. apply wp_interp_call. destruct (respond _ (Random n) w) as [[buf|] w1] eqn:E; simpl.
    + apply (IH (done_ ++ [n])); [|by rewrite <- app_assoc]. apply Forall2_app; [done|]. repeat constructor.
      * apply slug_text_ok.
      * rewrite (proj2 (slug_text_ok buf)). by apply random_answer in E as [? _].
    + apply wp_interp_fails, HQ. by eexists _, _.
Qed.

(** What [generateSlug] yields. *)
Definition meeting_slug (slug : string) : Prop :=
  exists a b c, slug = a +:+ "-" +:+ b +:+ "-" +:+ c /\
    String.length a = 3 /\ String.length b = 4 /\ String.length c = 4 /\
    forall_bytes in_alphabet (a +:+ b +:+ c) = true.

Lemma generateSlug_store : only store_effect Service.generateSlug.
Proof.
  unfold Service.generateSlug. apply only_bindE; [|done]. generalize Service.slugGroupSizes, (@nil string).
  intros sizes. induction sizes as [|n sizes IH]; intros groups; cbn [Service.slug_groups]; only_by ltac:(exact I).
  apply IH.
Qed.

Lemma wp_generateSlug (Q : error + string -> mstate -> Prop) w :
  (forall r w', match r with inr slug => meeting_slug slug | inl e => store_error e end -> Q r w') ->
  wp (interp Service.generateSlug) Q w.
Proof.
  intros HQ. unfold Service.generateSlug. rewrite wp_interp_bindE.
  apply (wp_slug_groups _ [] []); [constructor|]. intros r w' Hr. destruct r as [e|l]; [by apply HQ|].
  apply wp_interp_succeeds, HQ. unfold groups_ok, Service.slugGroupSizes in Hr. simpl in Hr.
  apply Forall2_cons_inv_l in Hr as (a & l1 & [Ha Hla] & Hr & ->).
  apply Forall2_cons_inv_l in Hr as (b & l2 & [Hb Hlb] & Hr & ->).
  apply Forall2_cons_inv_l in Hr as (c & l3 & [Hc Hlc] & Hr & ->). apply Forall2_nil_inv_l in Hr as ->.
  exists a, b, c. split; [done|]. repeat (split; [done|]). by rewrite !forall_bytes_app, Ha, Hb, Hc.
Qed.

Lemma alphabet_slug b : in_alphabet b = true -> slug_first b = true.
Proof.
  intros Hb. unfold in_alphabet in Hb. rewrite existsb_exists in Hb. destruct Hb as (c & Hc & <-%N.eqb_eq).
  assert (Forall (fun c => slug_first (byte c) = true) (String.list_ascii_of_string Service.slugAlphabet)) as Hall
    by (by repeat constructor).
  rewrite Forall_forall in Hall. apply Hall. by apply list_elem_of_In.
Qed.

Lemma meeting_slug_pattern slug : meeting_slug slug -> slugPattern slug = true /\ String.length slug = 13.
Proof.
  intros (a & b & c & -> & Ha & Hb & Hc & Hall). split; [|rewrite !str_length_app, Ha, Hb, Hc; done].
  rewrite !forall_bytes_app in Hall. apply andb_true_iff in Hall as [Hfa [Hfb Hfc]%andb_true_iff].
  destruct a as [|x a]; [done|]. cbn [forall_bytes] in Hfa. apply andb_true_iff in Hfa as [Hx Hfa].
  rewrite (str_app_cons x a). unfold slugPattern. rewrite (alphabet_slug _ Hx). cbn [andb].
  assert (forall s, forall_bytes in_alphabet s = true -> forall_bytes slug_byte s = true) as Hslug.
  { intros s. apply forall_bytes_impl. intros y Hy. unfold slug_byte. by rewrite alphabet_slug. }
  rewrite !forall_bytes_app, (Hslug a), (Hslug b), (Hslug c) by done. simpl in Ha. rewrite !str_length_app. cbn [String.length].
  rewrite Hb, Hc. assert (String.length a = 2) as -> by lia. reflexivity.
Qed.

(** A generated slug has the shape [abc-defg-hij] over the alphabet without
    vowels and look-alikes, so it satisfies the pattern the database and the
    invites require, whatever bytes the random source yields. *)
Theorem generated_slug_valid slug w w' :
  interp Service.generateSlug w = Ok (inr slug, w') ->
  meeting_slug slug /\ slugPattern slug = true /\ String.length slug = 13.
Proof.
  intros Hrun.
  enough (wp (interp Service.generateSlug) (fun r _ => forall s, r = inr s -> meeting_slug s) w) as Hp.
  { unfold wp in Hp. rewrite Hrun in Hp. specialize (Hp slug eq_refl). split; [done|]. by apply meeting_slug_pattern. }
  apply wp_generateSlug. by intros r w1 Hr s ->.
Qed.
End slugs.

(** ** Rooms *)

Section rooms.
Context `{PL : PostgresLaws} {HV : HasherView} {HL : HasherLaws HV}.

(** The tables after the room was added. *)
Definition room_added (u name : string) (row : room_row) (tb tb' : tables) : Prop :=
  r_name row = name /\ uuid_of db u = Some (r_created_by row) /\ is_Some (users tb !! r_created_by row) /\
  meeting_slug (r_slug row) /\ ~ slug_taken (r_slug row) tb /\
  rooms tb !! r_id row = None /\
  tb' = mkTables (users tb) (credentials tb) (<[r_id row := row]> (rooms tb)) (auth_events tb).

Definition create_post (u name : string) (tb : tables) (r : error + room_row) (tb' : tables) : Prop :=
  match r with
  | inr row => room_added u name row tb tb' /\ 1 <= RuneCountInString name <= Service.maxNameLength
  | inl e =>
      e <> ErrInvalidName /\ e <> ErrSlugTaken /\
      (tb' = tb \/ exists row, room_added u name row tb tb')
  end.

Lemma wp_room_insert u slug name (Q : error + room_row -> mstate -> Prop) w :
  meeting_slug slug ->
  (forall r w',
     match r with
     | inr row => room_added u name row (database w) (database w') /\ 1 <= RuneCountInString name <= 100
     | inl e => (e = ErrSlugTaken /\ slug_taken slug (database w) /\ database w' = database w) \/
         (e = Store.pg_error "insert room" /\
           (database w' = database w \/ exists row, room_added u name row (database w) (database w')))
     end -> Q r w') ->
  wp (interp (Store.Create u slug name)) Q w.
Proof.
  intros Hslug HQ. unfold Store.Create. rewrite wp_interp_bind. apply wp_query. intros r w' Hs.
  assert (forall row tb', stmt_ok db (InsertRoom slug name u) (database w) row tb' ->
    room_added u name row (database w) tb' /\ 1 <= RuneCountInString name <= 100) as Hrow.
  { intros row tb' (H1' & H2' & H3' & H4' & H5' & H6' & H7' & H8'). split; [|exact H3'].
    assert (r_slug row = slug /\ r_name row = name) as [Es En] by (by rewrite H7').
    unfold room_added. by rewrite Es. }
  destruct r as [[|]|row]; simpl in Hs.
  - destruct Hs as [Ht Hd]. apply HQ. by left.
  - apply HQ. right. split; [done|]. destruct Hs as [->|[row Hok]]; [by left|]. right. exists row.
    by apply Hrow.
  - apply wp_interp_succeeds, HQ. by apply Hrow.
Qed.

Lemma wp_allocate n u name (Q : error + room_row -> mstate -> Prop) w :
  (forall r w', create_post u name (database w) r (database w') -> Q r w') ->
  wp (interp (Service.allocate n u name)) Q w.
Proof.
  revert w Q. induction n as [|n IH]; intros w Q HQ; cbn [Service.allocate].
  { apply wp_interp_fails, HQ. split; [done|]. split; [done|]. by left. }
  assert (forall e w', store_error e ->
    (database w' = database w \/ exists row, room_added u name row (database w) (database w')) -> Q (inl e) w') as Herr.
  { intros e w' (m & e' & -> & _) Hd. apply HQ. by repeat split. }
  rewrite wp_interp_bindE. eapply wp_mono.
  { apply (wp_conj _ (fun _ w' => database w' = database w) (fun r _ => match r with
      inr slug => meeting_slug slug | inl e => store_error e end)); [|by apply wp_generateSlug].
    apply wp_no_db, store_no_db, generateSlug_store. }
  cbv beta. intros r w1 [Hd1 Hr]. destruct r as [e|slug]; [apply Herr; [done|by left]|].
  rewrite wp_interp_bind. apply wp_room_insert; [done|]. rewrite Hd1. intros r w2 Hr2.
  destruct r as [e|row]; [|by apply wp_interp_succeeds, HQ].
  destruct Hr2 as [(-> & _ & Hd2)|[-> Hd2]].
  - cbn [Is error_eq_dec]. rewrite bool_decide_true by done. apply IH. rewrite Hd2. exact HQ.
  - apply wp_interp_fails, Herr; [by eexists _, _|done].
Qed.

(** C35: a room is created under the trimmed name, or the default one, by the
    caller, with a fresh slug nobody has, and nothing else changes. A name of more
    than 100 characters is refused and nothing happens; any other error is one of
    the stores or that no free slug came up in five attempts, and never that a slug
    was taken. *)
Theorem room_create_correct u name r w w' :
  interp (Service.Create u name) w = Ok (r, w') ->
  if Service.maxNameLength <? RuneCountInString (Service.room_name name)
  then r = inl ErrInvalidName /\ w' = w
  else create_post u (Service.room_name name) (database w) r (database w').
Proof.
  unfold Service.Create. cbv zeta. destruct (_ <? _); intros Hrun; [by injection Hrun as <- <-|].
  pose proof (wp_allocate Service.slugAttempts u (Service.room_name name) _ w (fun r w' Hp => Hp)) as Hp.
  unfold wp in Hp. by rewrite Hrun in Hp.
Qed.

(** Deleting by slug, however it is cased or padded, removes the room of that
    slug and nothing else; it reports not found exactly when there is none, and
    then changes nothing. *)
Theorem room_delete_correct `{Unicode} slug r w w' :
  interp (Service.Delete slug) w = Ok (r, w') ->
  let s := ToLower (TrimSpace slug) in
  let gone tb' := users tb' = users (database w) /\ credentials tb' = credentials (database w) /\
    forall i row, rooms tb' !! i = Some row <-> rooms (database w) !! i = Some row /\ r_slug row <> s in
  match r with
  | inr _ => slug_taken s (database w) /\ gone (database w')
  | inl e => (e = ErrNotFound /\ ~ slug_taken s (database w) \/ e = Store.pg_error "delete room") /\
      (database w' = database w \/ e <> ErrNotFound /\ gone (database w'))
  end.
Proof.
  intros Hrun s gone.
  assert (forall n tb', stmt_ok db (DeleteRoom s) (database w) n tb' -> gone tb' /\
    ((n = 0)%Z /\ ~ slug_taken s (database w) /\ tb' = database w \/ (n <> 0)%Z /\ slug_taken s (database w)))
    as Hstmt.
  { simpl. intros n tb' [Hn ->]. split.
    - split; [done|]. split; [done|]. intros i row. simpl. rewrite map_lookup_filter_Some. done.
    - set (m := filter _ (rooms (database w))) in Hn at 1. destruct (decide (m = ∅)) as [Hm|Hm].
      + left. split; [rewrite Hn; fold m; by rewrite Hm, map_size_empty|].
        assert (forall i row, rooms (database w) !! i = Some row -> r_slug row <> s) as Hno.
        { intros i row Hi Hs. assert (m !! i = Some row) as Hmi by (by apply map_lookup_filter_Some).
          by rewrite Hm, lookup_empty in Hmi. }
        split; [intros (i & row & Hi & Hs); by eapply Hno|].
        rewrite map_filter_id by (intros i row Hi; by eapply Hno). by destruct (database w).
      + right. split; [rewrite Hn; fold m; intros Hz; apply Hm, map_size_empty_iff; lia|].
        apply map_choose in Hm as (i & row & Hi). apply map_lookup_filter_Some in Hi as [Hi Hs]. by exists i, row. }
  enough (wp (interp (Service.Delete slug)) (fun r w' => match r with
    | inr _ => slug_taken s (database w) /\ gone (database w')
    | inl e => (e = ErrNotFound /\ ~ slug_taken s (database w) \/ e = Store.pg_error "delete room") /\
        (database w' = database w \/ e <> ErrNotFound /\ gone (database w'))
    end) w) as Hp by (unfold wp in Hp; by rewrite Hrun in Hp).
  unfold Service.Delete, Store.DeleteBySlug. fold s. rewrite wp_interp_bind. apply wp_query.
  intros q w1 Hq. destruct q as [[|]|n]; cbn [query_spec] in Hq.
  - by destruct Hq.
  - apply wp_interp_fails. split; [by right|]. destruct Hq as [->|[n Hn%Hstmt]]; [by left|]. right. by destruct Hn.
  - apply Hstmt in Hq as [Hg [(-> & Hno & Hd)|[Hn Hs]]]; simpl.
    + apply wp_interp_fails. split; [by left|by left].
    + apply Z.eqb_neq in Hn as ->. by apply wp_interp_succeeds.
Qed.
End rooms.
