(* ===== verification/EdgeTheorems.v ===== *)
(** * The properties of the origin policy and of TURN credentials *)

From S2P Require Import Prelude GoStrings Crypto Effects Duration Httpx Turn.
From Stdlib Require Import Ascii.

(** ** Origins *)

Section origins.
Context `{Unicode} `{UrlParse}.

(** The entries of an allowlist. *)
Definition entries (allowed : string) : list string :=
  List.filter (fun raw => negb (bool_decide (raw = ""))) (TrimSpace <$> Split (TrimSpace allowed) ",").

Lemma elem_of_entries raw allowed :
  raw ∈ entries allowed <-> raw ∈ (TrimSpace <$> Split (TrimSpace allowed) ",") /\ raw <> "".
Proof.
  unfold entries. rewrite list_elem_of_In, List.filter_In, <- list_elem_of_In, negb_true_iff, bool_decide_eq_false.
  done.
Qed.

(** A policy without permitted origins comes from a list without entries. *)
Lemma permit_nonempty l acc res raw :
  permit l acc = inr res -> raw ∈ (TrimSpace <$> l) -> raw <> "" -> res <> ∅.
Proof.
  intros Hp Hraw Hne. revert acc Hp. induction l as [|x l IH]; [by apply not_elem_of_nil in Hraw|].
  intros acc. cbn [permit]. cbn [fmap list_fmap] in Hraw. apply elem_of_cons in Hraw as [->|Hraw].
  - rewrite bool_decide_false by done. destruct (url_parse _) as [[sc h]|]; [|done].
    destruct (_ || _); [done|]. intros Hp ->.
    destruct (permit_spec _ _ _ Hp (ToLower (sc +:+ "://" +:+ h))) as [_ Hin].
    assert (ToLower (sc +:+ "://" +:+ h) ∈ (∅ : gset string)) as Hbad; [|by apply not_elem_of_empty in Hbad].
    apply Hin. left. set_solver.
  - case_bool_decide; [by apply IH|]. destruct (url_parse _) as [[sc h']|]; [|done].
    destruct (_ || _); [done|]. by apply IH.
Qed.

(** C39: a policy read from a list other than the wildcard lets a request pass
    exactly when it has no Origin, or the list has no entries and the origin is of
    the request's own host, or the origin is that of an entry, compared without
    regard to case. *)
Theorem origin_policy_exact allowed p r :
  TrimSpace allowed <> "*" ->
  NewOriginPolicy allowed = inr p ->
  let origin := Header r "Origin" in
  AllowOrigin p r = true <->
    origin = "" \/
    (entries allowed = [] /\ exists scheme host, url_parse origin = Some (scheme, host) /\
       EqualFold host (Host r) = true) \/
    (exists raw scheme host, raw ∈ entries allowed /\ url_parse raw = Some (scheme, host) /\
       scheme <> "" /\ host <> "" /\ ToLower origin = ToLower (scheme +:+ "://" +:+ host)).
Proof.
  intros Hstar Hnew origin. unfold NewOriginPolicy in Hnew. cbv zeta in Hnew.
  rewrite bool_decide_false in Hnew by done.
  destruct (permit _ ∅) as [e|res] eqn:Hp; [done|]. injection Hnew as <-. unfold AllowOrigin. simpl. fold origin.
  assert (res = ∅ <-> entries allowed = []) as Hempty.
  { split.
    - intros ->. destruct (entries allowed) as [|raw l] eqn:E; [done|].
      assert (raw ∈ entries allowed) as [Hin Hne]%elem_of_entries by (rewrite E; by left).
      by destruct (permit_nonempty _ _ _ _ Hp Hin Hne).
    - intros E. apply elem_of_equiv_empty_L. intros o Ho.
      apply (permit_spec _ _ _ Hp) in Ho as [Ho|(raw & sc & h & Hin & Hne & _)]; [set_solver|].
      assert (raw ∈ entries allowed) as Hraw by by apply elem_of_entries.
      rewrite E in Hraw. by apply not_elem_of_nil in Hraw. }
  case_bool_decide as Hor; [by split; [left|]|]. case_bool_decide as Hres.
  - split.
    + intros Heq. right. left. split; [by apply Hempty|]. destruct (url_parse origin) as [[sc h]|]; [|done]. eauto.
    + intros [?|[(_ & sc & h & -> & Hf)|(raw & sc & h & Hin & _)]]; [done..|].
      apply Hempty in Hres. rewrite Hres in Hin. by apply not_elem_of_nil in Hin.
  - rewrite bool_decide_eq_true, (permit_spec _ _ _ Hp). split.
    + intros [Ho|(raw & sc & h & Hin & Hne & Hu & Hsc & Hh & Ho)]; [set_solver|]. right. right.
      exists raw, sc, h. rewrite elem_of_entries. done.
    + intros [?|[(E & _)|(raw & sc & h & Hin & Hu & Hsc & Hh & Ho)]]; [done|by apply Hempty in E|].
      right. exists raw, sc, h. apply elem_of_entries in Hin as [Hin Hne]. done.
Qed.
End origins.

(** ** TURN *)

(** What coturn checks of a username and a credential, at [now] in seconds, with
    the secret it shares with the server: the time before the colon is not past
    and the credential is the code of the username. *)
Definition relay_accepts (secret : string) (now : Z) (username credential : string) : bool :=
  let '(expiry, _, found) := Cut username ":" in
  match scan_int expiry with
  | Some (t, "") =>
      found && (now <=? t)%Z &&
      bool_decide (credential = b64_encode alphabet_std (hmac_sha1 (bytes secret) (bytes username)))
  | _ => false
  end.

Lemma Cut_app s t sep :
  forall_bytes (fun b => negb (b =? byte sep)%N) s = true -> Cut (s +:+ String sep t) sep = (s, t, true).
Proof.
  induction s as [|c s IH]; simpl; [by rewrite decide_True by done|]. intros [Hc Hs]%andb_true_iff.
  rewrite decide_False by (intros ->; by rewrite N.eqb_refl in Hc). by rewrite IH.
Qed.

(** Coturn accepts a credential with the username it was minted for, whatever
    the user id, until the lifetime has passed, and no longer. *)
Theorem turn_credential_accepted h now user t :
  (0 <= now + Turn.ttl h < 2 ^ 63 * 1000000000)%Z ->
  let c := Turn.mint_at h now user in
  relay_accepts (Turn.secret h) t (Turn.Username c) (Turn.Credential c) =
    (t <=? (now + Turn.ttl h) / 1000000000)%Z.
Proof.
  intros Hr c. unfold c, Turn.mint_at, relay_accepts. cbv zeta. cbn [Turn.Username Turn.Credential].
  set (e := ((now + Turn.ttl h) / 1000000000)%Z).
  assert (0 <= e < 2 ^ 63)%Z as He.
  { split; [apply Z.div_pos; lia|]. apply Z.div_lt_upper_bound; lia. }
  destruct (itoa_spec e) as (Hne & Hdig & _); [lia|].
  replace (itoa e +:+ ":" +:+ user) with (itoa e +:+ String ":" user) by done.
  rewrite Cut_app.
  - rewrite <- (str_app_nil (itoa e)) at 1. rewrite scan_int_itoa by done. cbn [andb].
    rewrite bool_decide_true by done. by rewrite andb_true_r.
  - eapply forall_bytes_impl; [|exact Hdig]. intros b Hb%digit_bounds. apply negb_true_iff, N.eqb_neq.
    change (byte ":") with 58%N. lia.
Qed.
