(* ===== verification/InviteTheorems.v ===== *)
(** * The properties of invites *)

From S2P Require Import Prelude GoStrings Crypto Effects RedisSpec PostgresSpec Hasher RateLimit Sessions.
From S2P Require Import Password Users Frames AuthService AuthFacts.
From S2P Require Import Httpx Duration Middleware AuthHandlers Rooms InboxEvents Invites.
Import Rooms.

(** ** What reaches the inbox *)

(** A frame handed to the inbox hub: the user, the frame, and the hub's answer. *)
Definition delivery : Type := string * string * nat.

(** The frames a run hands to the inbox hub. *)
Section deliveries.
Context `{Machine}.

Definition delivered_by {X} (e : eff X) : X -> list delivery :=
  match e in eff X return X -> list delivery with
  | Deliver user data => fun n => [(user, data, n)]
  | _ => fun _ => []
  end.

Fixpoint deliveries {A} (p : prog A) (w : mstate) : list delivery :=
  match p with
  | Ret _ => []
  | Vis e f => let '(x, w') := respond _ e w in delivered_by e x ++ deliveries (f x) w'
  end.

(** A triple that also sees the deliveries. *)
Definition wpd {A} (p : prog A) (Q : A -> mstate -> list delivery -> Prop) (w : mstate) : Prop :=
  wp (interp p) (fun a w' => Q a w' (deliveries p w)) w.

Lemma wpd_ret {A} (a : A) Q w : Q a w [] -> wpd (Ret a) Q w.
Proof. done. Qed.

Lemma wpd_vis {A X} (e : eff X) (f : X -> prog A) Q w :
  (let '(x, w') := respond _ e w in wpd (f x) (fun a w'' t => Q a w'' (delivered_by e x ++ t)) w') ->
  wpd (Vis e f) Q w.
Proof. unfold wpd. rewrite wp_interp_vis. simpl. by destruct (respond _ e w). Qed.

Lemma wpd_mono {A} (p : prog A) (Q Q' : A -> mstate -> list delivery -> Prop) w :
  wpd p Q w -> (forall a w' t, Q a w' t -> Q' a w' t) -> wpd p Q' w.
Proof. intros Hp HQ. eapply wp_mono; [exact Hp|]. intros a w'. apply HQ. Qed.

Lemma wpd_bind {A B} (p : prog A) (f : A -> prog B) Q w :
  wpd p (fun a w' t => wpd (f a) (fun b w'' t' => Q b w'' (t ++ t')) w') w -> wpd (bind p f) Q w.
Proof.
  revert Q w. induction p as [a|X e g IH]; intros Q w; [done|]. simpl bind. intros Hp. apply wpd_vis.
  unfold wpd in Hp at 1. rewrite wp_interp_vis in Hp. simpl in Hp. destruct (respond _ e w) as [x w'].
  apply IH. eapply wp_mono; [exact Hp|]. cbv beta. intros a w1 Hf. eapply wpd_mono; [exact Hf|].
  intros b w2 t. by rewrite app_assoc.
Qed.

(** A program that delivers nothing, and then another. *)
Definition silent : effects := fun X e => match e with Deliver _ _ => False | _ => True end.

Lemma wpd_silent {A B} (p : prog A) (f : A -> prog B) Q w :
  only silent p -> wp (interp p) (fun a w' => wpd (f a) Q w') w -> wpd (bind p f) Q w.
Proof.
  intros Hp HQ. revert w HQ. induction p as [a|X e g IH]; intros w; [done|]. destruct Hp as [He Hg].
  rewrite wp_interp_vis. intros HQ. simpl bind. apply wpd_vis. destruct (respond _ e w) as [x w'].
  specialize (IH x (Hg x) w' HQ). by destruct e.
Qed.
End deliveries.

Lemma db_silent {A} (p : prog A) : only db_effect p -> only silent p.
Proof. apply only_mono. by intros X []. Qed.

Lemma limiter_silent {A} (p : prog A) : only limiter_effect p -> only silent p.
Proof. apply only_mono. by intros X []. Qed.

(** ** Invites *)

Section invites.
Context `{PL : PostgresLaws} {DL : DbLaws db} `{Unicode} `{ResponseJson} `{IJ : Invites.InviteJson}.

Lemma slug_normal s : slugPattern s = true -> ToLower (TrimSpace s) = s.
Proof.
  intros Hs. assert (forall_bytes slug_byte s = true) as Hb.
  { destruct s as [|c s]; [done|]. unfold slugPattern in Hs. apply andb_true_iff in Hs as [Hs _].
    apply andb_true_iff in Hs as [[Hc Hr]%andb_true_iff _]. cbn [forall_bytes]. unfold slug_byte at 1. by rewrite Hc, Hr. }
  assert (forall b, slug_byte b = true -> (33 <= b <= 126 /\ ~ 65 <= b <= 90)%N) as Hrange.
  { intros b. unfold slug_byte, slug_first, is_digit, between.
    rewrite !orb_true_iff, !andb_true_iff, !N.leb_le, N.eqb_eq. lia. }
  rewrite TrimSpace_printable; [apply ToLower_id|]; (eapply forall_bytes_impl; [|exact Hb]); intros b Hb'%Hrange.
  - apply andb_true_iff. split; [apply N.ltb_lt; lia|]. apply negb_true_iff. unfold between.
    apply not_true_iff_false. rewrite andb_true_iff, !N.leb_le. lia.
  - unfold printable, between. rewrite andb_true_iff, !N.leb_le. lia.
Qed.

(** A frame that tells the truth: from the sender, to an enabled account other
    than the sender, about the room of the URL, by its name in the tables. *)
Definition truthful (eventType : string) (id : Identity) (r : http_request) (tb : tables)
    (recipient data : string) : Prop :=
  let slug := ToLower (TrimSpace (Handlers.PathSlug r)) in
  Invites.uuidPattern recipient = true /\ recipient <> u_id (id_User id) /\
  (exists j v, uuid_of db recipient = Some j /\ users tb !! j = Some v /\ u_disabled v = false) /\
  slugPattern slug = true /\
  exists name,
    Invites.Encode (mkEvent eventType (mkRoom slug name)
      (mkSender (u_id (id_User id)) (u_display_name (id_User id)))) = Some data /\
    ((exists i row, rooms tb !! i = Some row /\ r_slug row = slug /\ r_name row = name) \/
     (eventType <> TypeInvite /\ name = "" /\ ~ slug_taken slug tb)).

(** A response that does not speak of a delivery. *)
Definition undelivered (resp : response) : Prop := forall n, payload_ resp <> DeliveredBody n.

Lemma error_undelivered st code msg : undelivered (Error st code msg).
Proof. intros n. unfold Error, JSON. by destruct (encodable _). Qed.

Lemma header_undelivered k v resp : undelivered resp -> undelivered (with_header k v resp).
Proof. done. Qed.

Lemma wpd_ring recipient event (Q : response -> mstate -> list delivery -> Prop) w :
  accounts_ok db (database w) ->
  (forall resp w', database w' = database w -> undelivered resp -> Q resp w' []) ->
  (forall n data w', database w' = database w -> Invites.Encode event = Some data ->
    (exists j v, uuid_of db recipient = Some j /\ users (database w) !! j = Some v /\ u_disabled v = false) ->
    Q (JSON 200 (DeliveredBody n)) w' [(recipient, data, n)]) ->
  wpd (Invites.ring recipient event) Q w.
Proof.
  intros Hok Hno Hyes. unfold Invites.ring. apply wpd_silent; [apply db_silent, ByID_db|].
  apply wp_ByID; [done|]. intros res w1 Hd1 Hr. destruct res as [e|v].
  { destruct (_ || _); by apply wpd_ret, Hno, error_undelivered. }
  destruct Hr as (j & Hj & Hv & _ & Hdis). destruct (Invites.Encode event) as [data|] eqn:He; [|by apply wpd_ret, Hno, error_undelivered].
  apply wpd_vis. pose proof (postgres_frame _ (Deliver recipient data) w1 eq_refl) as Hf.
  destruct (respond _ (Deliver recipient data) w1) as [n w2]. simpl in Hf. apply wpd_ret. simpl.
  apply Hyes; [congruence|done|]. eauto.
Qed.

(** What an invite, a cancellation or a decline hands to the inbox hub. *)
Definition rang (eventType : string) (id : Identity) (r : http_request) (tb : tables) (resp : response)
    (sent : list delivery) : Prop :=
  (sent = [] /\ undelivered resp) \/
  exists recipient data n, sent = [(recipient, data, n)] /\ resp = JSON 200 (DeliveredBody n) /\
    truthful eventType id r tb recipient data /\
    (exists body, DecodeJSON Invites.decode_recipient Invites.maxBodyBytes r = Some body /\
      recipient = ToLower (TrimSpace body)).

Lemma wpd_handle eventType id r w :
  accounts_ok db (database w) ->
  wpd (Invites.handle eventType (Some id) r) (fun resp _ sent => rang eventType id r (database w) resp sent) w.
Proof.
  intros Hok. assert (forall resp w', undelivered resp ->
    wpd (Ret resp) (fun resp _ sent => rang eventType id r (database w) resp sent) w') as Hno.
  { intros resp w' Hu. apply wpd_ret. by left. }
  unfold Invites.handle. cbn [with_identity].
  destruct (DecodeJSON _ _ r) as [body|] eqn:Hbody; [|by apply Hno, error_undelivered]. cbv zeta.
  set (recipient := ToLower (TrimSpace body)). set (slug := ToLower (TrimSpace (Handlers.PathSlug r))).
  destruct (Invites.uuidPattern recipient) eqn:Huuid; cbn [negb]; [|by apply Hno, error_undelivered].
  destruct (bool_decide (recipient = _)) eqn:Hself; [by apply Hno, error_undelivered|]. apply bool_decide_eq_false in Hself.
  destruct (slugPattern slug) eqn:Hslug; cbn [negb]; [|by apply Hno, error_undelivered].
  apply wpd_silent; [apply limiter_silent, Allow_limiter|].
  eapply wp_mono; [apply wp_no_db, store_no_db, limiter_store, Allow_limiter|].
  intros [e|[[] d]] w1 Hd1; [by apply Hno, error_undelivered| |by apply Hno, header_undelivered, error_undelivered].
  apply wpd_silent.
  { apply db_silent. unfold Service.BySlug, Store.BySlug. only_by ltac:(exact I). }
  unfold Service.BySlug, Store.BySlug. rewrite (slug_normal slug) by done.
  rewrite wp_interp_bind. apply wp_query. rewrite Hd1. intros q w2 Hq.
  assert (forall name, database w2 = database w ->
    ((exists i row, rooms (database w) !! i = Some row /\ r_slug row = slug /\ r_name row = name) \/
     (eventType <> TypeInvite /\ name = "" /\ ~ slug_taken slug (database w))) ->
    wpd (Invites.ring recipient (mkEvent eventType (mkRoom slug name)
      (mkSender (u_id (id_User id)) (u_display_name (id_User id)))))
      (fun resp _ sent => rang eventType id r (database w) resp sent) w2) as Hring.
  { intros name Hd2 Hname. apply wpd_ring; [by rewrite Hd2|intros resp w3 _ Hu; by left|].
    intros n data w3 _ He Hrec. right. exists recipient, data, n. split; [done|]. rewrite Hd2 in Hrec.
    split; [done|]. split; [|exists body; split; [assumption|done]].
    split; [done|]. split; [done|]. split; [done|]. split; [done|]. by exists name. }
  destruct q as [[|]|[row|]]; simpl in Hq.
  - by destruct Hq.
  - apply wp_interp_fails. cbn. rewrite !bool_decide_false by done. by apply Hno, error_undelivered.
  - destruct Hq as (Hd2 & Hrow & Hs). apply wp_interp_succeeds, Hring; [done|]. left. eauto.
  - destruct Hq as (Hd2 & Hfree). apply wp_interp_fails. cbn [Is error_eq_dec].
    rewrite (bool_decide_true (ErrNotFound = ErrNotFound)) by done. cbn [orb andb].
    destruct (bool_decide (eventType = TypeInvite)) eqn:Hty; cbn [negb]; [by apply Hno, error_undelivered|].
    apply bool_decide_eq_false in Hty. apply Hring; [done|]. by right.
Qed.

(** An invite, a cancellation or a decline reaches at most one inbox, that of
    the recipient named in the body, and only as a truthful event: stamped with
    the sender the request is authenticated as, to an enabled account that is not
    the sender, about the room of the URL. Only a cancellation or a decline may be
    about a room that is gone. *)
Theorem invite_truthful eventType id r resp w w' :
  accounts_ok db (database w) ->
  interp (Invites.handle eventType (Some id) r) w = Ok (resp, w') ->
  rang eventType id r (database w) resp (deliveries (Invites.handle eventType (Some id) r) w).
Proof. intros Hok Hrun. pose proof (wpd_handle eventType id r w Hok) as Hp. unfold wpd, wp in Hp. by rewrite Hrun in Hp. Qed.
End invites.
