(* ===== verification/Ringing.v ===== *)
(** * Ringing, from the request to the phones

    The request handlers of [Invites.v] and the hub of [InboxHub.v] put together:
    [InboxView] is where a machine keeps the hub, [InboxLaws] that the [Deliver] calls
    of the handlers are the hub's. While a request is under way the hub goes on:
    connections come and go, other requests ring, pumps write. *)

From S2P Require Import Prelude Chan Registry InboxHub InboxTheorems.
From S2P Require Import GoStrings Crypto Effects RedisSpec PostgresSpec Hasher RateLimit.
From S2P Require Import Sessions SessionFacts SessionOps SessionCreate SessionTheorems Password Users Frames.
From S2P Require Import AuthService AuthFacts AuthLogin World AuthKeeps.
From S2P Require Import Httpx Middleware AuthHandlers Rooms InboxEvents Invites Turn.
From S2P Require Import Server ServerFacts ServerKeeps Guards ServerTheorems InviteTheorems.
Import Rooms.

(** ** The hub while others use it *)

Inductive hub_step : state -> state -> Prop :=
| hub_op sc o h h' : allowed h o -> run sc o h = Ok (tt, h') -> hub_step h h'
| hub_write c h : hub_step h (set_chans (alter ch_take c (chans h)) h).

Definition hub_steps : relation state := rtc hub_step.

Lemma hub_steps_reachable h h' : hub_steps h h' -> InboxHub.reachable h -> InboxHub.reachable h'.
Proof.
  induction 1 as [|h1 h2 h3 Hs _ IH]; [done|]. intros Hr. apply IH.
  destruct Hs as [sc o h h' Ho Hrun|c h]; [by eapply reach_op|by apply reach_write].
Qed.

(** ** The interface *)

Class InboxView `{Machine} := { inbox : mstate -> state }.

Class InboxLaws `{InboxView} : Prop := {
  deliver_answer user data w n w' :
    InboxHub.reachable (inbox w) -> respond _ (Deliver user data) w = (n, w') ->
    exists sc h h', hub_steps (inbox w) h /\ InboxHub.Deliver sc user data h = Ok (n, h') /\ hub_steps h' (inbox w');
  inbox_frame X (e : eff X) w :
    match e with Deliver _ _ => False | _ => True end ->
    hub_steps (inbox w) (inbox (snd (respond _ e w)))
}.
Arguments InboxLaws {_} _.

Section hub.
Context `{IL : InboxLaws}.

(** What the hub did over a run: the deliveries of the run, in order, and whatever
    else in between. *)
Inductive hub_run : list delivery -> state -> state -> Prop :=
| run_others h h' : hub_steps h h' -> hub_run [] h h'
| run_deliver sc user data n l h h1 h2 h' :
    hub_steps h h1 -> InboxHub.Deliver sc user data h1 = Ok (n, h2) -> hub_run l h2 h' ->
    hub_run ((user, data, n) :: l) h h'.

Lemma hub_run_steps l h h1 h' : hub_steps h h1 -> hub_run l h1 h' -> hub_run l h h'.
Proof.
  intros Hs Hr. destruct Hr as [h2 h3 Hs'|sc u d n l h2 h3 h4 h5 Hs' Hd Hr].
  - apply run_others. by etrans.
  - eapply run_deliver; [by etrans|done..].
Qed.

Lemma deliver_reachable sc user data n h h' :
  InboxHub.reachable h -> InboxHub.Deliver sc user data h = Ok (n, h') -> InboxHub.reachable h'.
Proof.
  intros Hr Hd. apply (reach_op sc (Push user data) h); [done|exact I|].
  unfold run, st_bind. by rewrite Hd.
Qed.

Lemma hub_run_reachable l h h' : hub_run l h h' -> InboxHub.reachable h -> InboxHub.reachable h'.
Proof.
  induction 1 as [h h' Hs|sc u d n l h h1 h2 h' Hs Hd _ IH]; intros Hr; [by eapply hub_steps_reachable|].
  eapply IH, deliver_reachable, Hd. by eapply hub_steps_reachable.
Qed.

Lemma run_deliveries {A} (p : prog A) w a w' :
  InboxHub.reachable (inbox w) -> interp p w = Ok (a, w') -> hub_run (deliveries p w) (inbox w) (inbox w').
Proof.
  revert w. induction p as [b|X e f IH]; intros w Hr; simpl.
  - intros [= <- <-]. by apply run_others.
  - destruct (respond _ e w) as [x w1] eqn:E. intros Hrun.
    assert (forall l, delivered_by e x = [] -> match e with Deliver _ _ => False | _ => True end ->
      l = delivered_by e x ++ deliveries (f x) w1 -> hub_run l (inbox w) (inbox w')) as Hother.
    { intros l Hno He ->. pose proof (inbox_frame X e w He) as Hs. rewrite E in Hs. simpl in Hs.
      rewrite Hno. eapply hub_run_steps; [exact Hs|]. apply IH; [|done]. by eapply hub_steps_reachable. }
    destruct e; try by apply Hother. simpl.
    destruct (deliver_answer _ _ _ _ _ Hr E) as (sc & h & h' & H1 & Hd & H2).
    eapply run_deliver; [exact H1|exact Hd|]. eapply hub_run_steps; [exact H2|]. apply IH; [|done].
    eapply hub_steps_reachable; [exact H2|]. eapply deliver_reachable, Hd. by eapply hub_steps_reachable.
Qed.
End hub.

(** ** The endpoints *)

(** What the three endpoints send. *)
Definition invite_kind (e : endpoint) : option string :=
  match e with
  | PostInvite => Some TypeInvite
  | PostCancel => Some TypeInviteCancelled
  | PostDecline => Some TypeInviteDeclined
  | _ => None
  end.

Section server.
Context `{RL : RedisLaws} {CL : ClockLaws _} {PV : PostgresView} {PL : PostgresLaws PV} {DL : DbLaws db}.
Context {HV : HasherView} {HL : HasherLaws HV} `{JL : SessionJsonLaws} `{Unicode}.
Context `{ResponseJson} `{UrlParse} `{UL : UpgraderLaws} `{AuthJson} `{Handlers.RoomJson} `{Invites.InviteJson}.
Context {IV : InboxView} {IL : InboxLaws IV}.
Variable sv : server_config.
Variable secs : Z.
Hypothesis absolute_secs : absoluteTTL (sv_sessions sv) = (secs * 1000000000)%Z.
Hypothesis secs_pos : (0 < secs)%Z.

Abbreviation identified := (identified secs (sv_middleware sv)).

Lemma store_silent {A} (p : prog A) : only store_effect p -> only silent p.
Proof. apply only_mono. by intros X []. Qed.

Lemma identify_silent m r : only silent (identify m r).
Proof.
  unfold identify. cbv zeta. destruct (bool_decide _); [exact I|]. apply only_bindE; [apply store_silent, Get_store|]. intros sess.
  apply only_bindE; [apply db_silent, ByID_db|done].
Qed.

(** The guards around the handlers neither deliver nor change what is answered. *)
Lemma wpd_handler cl ib pg rd r (Q : response -> mstate -> list delivery -> Prop) w :
  (forall resp, undelivered resp -> Q resp w []) ->
  wpd (mux sv cl ib pg rd r) (fun resp w' t => forall resp', payload_ resp' = payload_ resp -> Q resp' w' t) w ->
  wpd (handler sv cl ib pg rd r) Q w.
Proof.
  intros Hno Hmux. unfold handler, SecurityHeaders. apply wpd_bind.
  assert (forall p, wpd p (fun resp w' t => forall resp', payload_ resp' = payload_ resp -> Q resp' w' t) w ->
    wpd p (fun resp w' t => wpd (Ret (mkResponse (Httpx.status resp) (security_headers ++ headers resp)
      (set_cookies resp) (payload_ resp))) (fun resp' w'' t' => Q resp' w'' (t ++ t')) w') w) as Hend.
  { intros p Hp. eapply wpd_mono; [exact Hp|]. cbv beta. intros resp w' t HQ. apply wpd_ret.
    rewrite app_nil_r. by apply HQ. }
  unfold CSRF. destruct (is_safe r); [by apply Hend|]. destruct (negb _); [by apply Hend|].
  destruct (negb _); [|by apply Hend]. apply Hend, wpd_ret. intros resp' Hp. apply Hno.
  intros n. rewrite Hp. apply error_undelivered.
Qed.

(** Behind [Require], with the identity it found. *)
Lemma wpd_Require next r (Q : response -> mstate -> list delivery -> Prop) w :
  world secs w ->
  (forall resp w', undelivered resp -> Q resp w' []) ->
  (forall id w1 w2, identified r id w w1 -> database w2 = database w -> wpd (next (Some id) r) Q w2) ->
  wpd (Require_ (sv_sessions sv) (sv_middleware sv) next r) Q w.
Proof.
  intros Hw Hno Hnext. unfold Require_. apply wpd_silent; [apply identify_silent|].
  eapply wp_identify; [done..|]. intros [e|id] w1 _ Hd1 Hid.
  - destruct (unauthenticated e); apply wpd_ret, Hno; intros n; [|apply error_undelivered].
    apply (error_undelivered 401%Z "unauthenticated" "sign in to continue").
  - apply wpd_silent; [apply store_silent, Touch_store|].
    eapply wp_mono; [apply wp_no_db, store_no_db, Touch_store|]. cbv beta. intros _ w2 Hd2.
    eapply Hnext; [exact Hid|]. by rewrite Hd2.
Qed.

(** C3: whoever posts an invite, a cancellation or a decline rings at most one user:
    in the name of the enabled account its token stands for, truthfully (another
    enabled account, the room of the URL), and the count it is answered with is the
    number of connections of that user that were sent the event, which are all the
    user is left with; nobody else is sent anything by it. Any other answer rings
    nobody. *)
Theorem ring_end_to_end cl ib pg rd r e kind w resp w' :
  served sv w -> InboxHub.reachable (inbox w) ->
  route r = Some e -> invite_kind e = Some kind ->
  interp (handler sv cl ib pg rd r) w = Ok (resp, w') ->
  let sent := deliveries (handler sv cl ib pg rd r) w in
  (sent = [] /\ undelivered resp) \/
  exists id w1 recipient data n h h',
    sent = [(recipient, data, n)] /\ (forall k, payload_ resp = DeliveredBody k -> k = n) /\
    identified r id w w1 /\ truthful kind id r (database w) recipient data /\
    hub_steps (inbox w) h /\ reached recipient data n h h' /\ hub_steps h' (inbox w').
Proof.
  intros Hserved Hhub Hroute Hkind Hrun.
  pose proof (served_world sv secs absolute_secs secs_pos w Hserved) as Hw.
  assert (protected sv e = Some (Invites.handle kind)) as Hp by (by destruct e; simpl in *; try done; injection Hkind as <-).
  assert (wpd (handler sv cl ib pg rd r) (fun resp _ sent => (sent = [] /\ undelivered resp) \/
    exists id w1 recipient data n, sent = [(recipient, data, n)] /\
      (forall k, payload_ resp = DeliveredBody k -> k = n) /\
      identified r id w w1 /\ truthful kind id r (database w) recipient data) w) as Hwpd.
  { apply wpd_handler; [by left|]. unfold mux. rewrite Hroute, Hp. apply wpd_Require; [done| |].
    - intros resp1 w1 Hu resp' Heq. left. split; [done|]. intros n. by rewrite Heq.
    - intros id w1 w2 Hid Hd. eapply wpd_mono; [apply wpd_handle; rewrite Hd; by destruct Hw|]. cbv beta.
      intros resp1 w3 t [[-> Hu]|(recipient & data & n & -> & -> & Ht & _)] resp' Heq.
      + left. split; [done|]. intros n. by rewrite Heq.
      + right. exists id, w1, recipient, data, n. rewrite Hd in Ht. repeat (split; [done|]). split; [|done].
        intros k. rewrite Heq. unfold JSON. destruct (encodable _); simpl; congruence. }
  unfold wpd, wp in Hwpd. rewrite Hrun in Hwpd.
  pose proof (run_deliveries _ _ _ _ Hhub Hrun) as Hhist. simpl.
  destruct Hwpd as [?|(id & w1 & recipient & data & n & Hs & Hk & Hid & Ht)]; [by left|]. right.
  rewrite Hs in Hhist. inversion Hhist as [|sc u d k l h0 h h' h2 Hbefore Hd Hrest]; subst.
  inversion Hrest as [h3 h4 Hafter|]; subst. exists id, w1, recipient, data, n, h, h'. rewrite Hs.
  repeat (split; [done|]). split; [|done].
  pose proof (wp_reached sc recipient data h (hub_steps_reachable _ _ Hbefore Hhub)) as Hr.
  unfold wp in Hr. by rewrite Hd in Hr.
Qed.
End server.
