(* ===== verification/Demo.v ===== *)
(** * A small installation

    Concrete codecs for the parameters of the model, a server configuration, and
    states it reaches: the ground the properties are tried on. *)

From S2P Require Import Prelude GoStrings Crypto Effects RedisSpec PostgresSpec Hasher Sim RateLimit.
From S2P Require Import Sessions SessionFacts SessionOps SessionCreate SessionTheorems SessionExamples.
From S2P Require Import Password Users Frames AuthService AuthFacts AuthLogin World AuthKeeps.
From S2P Require Import Httpx Middleware AuthHandlers Rooms InboxEvents Invites Turn Server ServerKeeps ServerTheorems.
From Stdlib Require Import Ascii.
Import Rooms.

(** ** Codecs *)

#[export] Instance demo_unicode : Unicode :=
  {| lower_non_ascii s := s; fold_non_ascii a b := bool_decide (a = b) |}.

#[export] Instance demo_response_json : ResponseJson := {| encodable _ := true |}.

#[export] Instance demo_url : UrlParse := {| url_parse s :=
  let '(scheme, rest, found) := Cut s ":" in
  if found && HasPrefix rest "//" then Some (scheme, drop_bytes 2 rest) else None |}.

#[export] Instance demo_upgrader : Upgrader := {| upgrade check r := if check r then None else Some 403%Z |}.

#[export] Instance demo_upgrader_laws : UpgraderLaws (H := demo_upgrader).
Proof. split. simpl. by intros check r ->. Qed.

#[export] Instance demo_auth_json : AuthJson := {|
  decode_credentials s :=
    match Split s "|" with
    | [e; p; n; m] => Some (mkCredentialsRequest e p n m)
    | _ => None
    end;
  decode_change s :=
    match Split s "|" with
    | [c; n] => Some (mkChangePasswordRequest c n)
    | _ => None
    end |}.

#[export] Instance demo_room_json : Handlers.RoomJson := {| Handlers.decode_create s := Some s |}.

#[export] Instance demo_invite_json : Invites.InviteJson := {|
  Invites.decode_recipient s := Some s;
  Invites.Encode e := Some (Join [evType e; Slug (evRoom e); Name (evRoom e); senderID (evFrom e);
    senderName (evFrom e)] "|") |}.

(** ** The server *)

Definition demo_middleware : Middleware := mkMiddleware "session" "" true (7 * Day) (30 * Day) false.

Definition demo_policy : OriginPolicy := mkOriginPolicy {["https://call.example"]} false.

Definition demo_sv : server_config := mkServer demo_store demo_middleware demo_policy
  (Turn.mkHandlers "s3cret" ["turn:turn.example.com:3478"] 3600000000000).

Definition demo_request (method : string) (path : list string) (hs : list (string * string))
    (cookies : list (string * string)) (query : list (string * string)) (body : string) : http_request :=
  mkRequest method path "call.example" "192.0.2.1:4711"
    (fun k => default "" (list_to_map (M := gmap string string) hs !! k)) cookies
    (fun k => default "" (list_to_map (M := gmap string string) query !! k))
    (Z.of_nat (String.length body)) body.

Definition serve (r : http_request) : prog response := handler demo_sv 0 0 None None r.

(** ** Accounts *)

Definition demo_credentials (email password name : string) : Credentials :=
  mkCredentials email password name "192.0.2.1" "browser".

Definition register_ann : prog (error + User * string * Session) :=
  Register demo_store (demo_credentials " Ann@Example.com" "correct battery 9" "Ann").

Definition login_as (email password : string) : prog (error + User * string * Session) :=
  Login demo_store (demo_credentials email password "").

Lemma world_start now : world demo_secs (start now).
Proof.
  split.
  - unfold sok. change (keyspace (start now)) with (∅ : kv).
    split; intros ? ?; unfold session_at; by rewrite lookup_empty.
  - split; simpl.
    + intros i u. by rewrite lookup_empty.
    + intros i [u Hu]. by rewrite lookup_empty in Hu.
    + intros i. rewrite !lookup_empty. split; by intros [u Hu].
    + intros i j u v. by rewrite lookup_empty.
    + intros i h. by rewrite lookup_empty.
Qed.

Lemma world_after {A} (p : prog A) Phi (w : machine) :
  keeps demo_secs p Phi -> world demo_secs w -> world demo_secs (after p w).
Proof.
  intros Hp Hw. specialize (Hp w Hw). unfold wp in Hp. unfold after.
  destruct (interp p w) as [[a w']| |]; by try destruct Hp.
Qed.

(** The run ends with a value. *)
Definition fine {A} (r : option (error + A)) : bool := match r with Some (inr _) => true | _ => false end.

Lemma fine_run {A} (p : prog (error + A)) (w : machine) :
  fine (result p w) = true -> exists a, interp p w = Ok (inr a, after p w).
Proof.
  intros Hf. destruct (result p w) as [[e|a]|] eqn:E; try discriminate Hf. exists a. by apply interp_result.
Qed.

(** Ann's account, and a state in which she is logged in. *)
Definition with_ann : machine := after register_ann (start t0).

Lemma with_ann_world : world demo_secs with_ann.
Proof. eapply world_after; [by apply keeps_Register|apply world_start]. Qed.

Lemma register_ann_fine : fine (result register_ann (start t0)) = true.
Proof. vm_compute. reflexivity. Qed.

Definition ann_id : string := sim_uuid 2.

Lemma ann_registered : fst <$> map_to_list (users (database with_ann)) = [ann_id].
Proof. vm_compute. reflexivity. Qed.
