(* ===== verification/AuthExamples.v ===== *)
(** * Accounts and passwords, run

    The properties of [AuthTheorems.v] applied in the installation of [Demo.v]. *)

From S2P Require Import Prelude GoStrings Crypto Effects RedisSpec PostgresSpec Hasher Sim RateLimit.
From S2P Require Import Sessions SessionFacts SessionOps SessionCreate SessionTheorems SessionExamples.
From S2P Require Import Password Users Frames AuthService AuthFacts AuthLogin LoginSucceeds AuthRegister World AuthKeeps.
From S2P Require Import AuthTheorems Demo.

(** ** Hashes *)

Lemma phc_roundtrip_witness :
  decodeHash (phc argon2Params (be_bytes 16 7) (be_bytes 32 9)) = inr (argon2Params, be_bytes 16 7, be_bytes 32 9).
Proof. apply phc_roundtrip; try done; apply be_bytes_ok. Defined.

Definition ann_password : string := "correct battery 9".

#[local] Abbreviation demo_hash :=
  (phc argon2Params (be_bytes 16 1) (sim_kdf ann_password (be_bytes 16 1) argon2Params)).

Lemma demo_hash_run : result (HashPassword ann_password) (start t0) = Some (inr demo_hash).
Proof. vm_compute. reflexivity. Qed.

Lemma demo_verify_run : result (VerifyPassword demo_hash "correct battery 8") (start t0) = Some (inr (false, false)).
Proof. vm_compute. reflexivity. Qed.

Lemma hashed_password_verifies_witness :
  false = false /\ exists salt, length salt = 16 /\
    decodeHash demo_hash = inr (argon2Params, salt, kdf ann_password salt argon2Params) /\
    false = bool_decide (kdf "correct battery 8" salt argon2Params = kdf ann_password salt argon2Params).
Proof.
  exact (hashed_password_verifies ann_password demo_hash "correct battery 8" false false (start t0) _ (start t0) _
    (interp_result _ _ _ demo_hash_run) (interp_result _ _ _ demo_verify_run)).
Defined.

(** ** Logging in *)

Lemma with_ann_accounts : accounts_ok db (database with_ann).
Proof. eapply wo_accounts, with_ann_world. Qed.

Lemma ann_login_fine : fine (result (login_as "ANN@example.com" ann_password) with_ann) = true.
Proof. vm_compute. reflexivity. Qed.

Lemma login_decides_witness :
  exists u, valid_login (database with_ann) "ann@example.com" ann_password u /\
    upgraded (database with_ann) (database (after (login_as "ANN@example.com" ann_password) with_ann)) u ann_password.
Proof.
  destruct (fine_run _ _ ann_login_fine) as [[[u token] s] Hr].
  destruct (login_decides demo_store _ _ _ _ with_ann_accounts Hr) as (Hv & Hup & _).
  exists u. exact (conj Hv Hup).
Defined.

Lemma with_ann_registered : exists u, registered (demo_credentials " Ann@Example.com" ann_password "Ann")
  (database (start t0)) u (database with_ann).
Proof.
  destruct (fine_run _ _ register_ann_fine) as [[[u token] s] Hr].
  destruct (wpw_run _ _ _ _ _ (wpw_Register demo_store _ _ (start t0) (fun r w' t Hp => Hp)) Hr) as (Hreg & _).
  by exists u.
Qed.

Lemma with_ann_current i h : credentials (database with_ann) !! i = Some h -> current_hash h.
Proof.
  destruct with_ann_registered as (u & email & h' & _ & _ & Hh & _ & Hc). rewrite (cu_credentials _ _ _ _ _ _ _ Hc).
  change (credentials (database (start t0))) with (∅ : gmap string string).
  rewrite lookup_insert_Some, lookup_empty. by intros [[_ <-]|[_ ?]].
Qed.

Lemma nobody_run :
  result (login_as "nobody@example.com" ann_password) with_ann = Some (inl ErrInvalidCredentials).
Proof. vm_compute. reflexivity. Qed.

Lemma wrong_password_run :
  result (login_as "ann@example.com" "correct battery 8") with_ann = Some (inl ErrInvalidCredentials).
Proof. vm_compute. reflexivity. Qed.

Lemma login_failures_alike_witness :
  let work p := work_done p with_ann = [Hashed argon2Params] \/ work_done p with_ann = [Refused] in
  work (login_as "nobody@example.com" ann_password) /\ work (login_as "ann@example.com" "correct battery 8").
Proof.
  split.
  - exact (proj1 (login_failures_alike demo_store _ _ _ _ with_ann_accounts with_ann_current
      (interp_result _ _ _ nobody_run)) eq_refl).
  - exact (proj1 (login_failures_alike demo_store _ _ _ _ with_ann_accounts with_ann_current
      (interp_result _ _ _ wrong_password_run)) eq_refl).
Defined.

(** ** Registering *)

Lemma twice_run : result register_ann with_ann = Some (inl ErrEmailTaken).
Proof. vm_compute. reflexivity. Qed.

Lemma register_atomic_witness :
  register_post (demo_credentials " Ann@Example.com" ann_password "Ann") (database with_ann) (inl ErrEmailTaken)
    (database (after register_ann with_ann)).
Proof. exact (register_atomic demo_store _ _ _ _ (interp_result _ _ _ twice_run)). Defined.

(** Whether answers are fine, computed. *)
Definition fine_here (limits : string -> Z) : forall X, eff X -> X -> bool := fun X e =>
  match e in eff X return X -> bool with
  | Now => fun n => in_range n && in_range (n + absoluteTTL demo_store)
  | Random _ => fun o => if o is Some _ then true else false
  | Redis (Pipeline _) => fun o => if o is Some rs then (if first_error rs is None then true else false) else false
  | Redis (Script (Call (Incr k) _)) => fun o => if o is Some [RInt count; RInt _] then (count <=? limits k)%Z else false
  | Query _ => fun r => if r is inr _ then true else false
  | AcquireSlot => fun b => b
  | _ => fun _ => true
  end.

Lemma fine_here_ok limits X (e : eff X) x : fine_here limits X e x = true -> fine_answer demo_store limits X e x.
Proof.
  destruct e as [|n|[cs|[l|c k]]|X q|X t| | | |]; simpl; try done.
  - intros [Hn He]%andb_true_iff s Hc Hs Hl. unfold demo_marshal. by rewrite Hc, Hs, Hl, Hn, He.
  - by destruct x.
  - destruct x as [rs|]; [|done]. intros H. exists rs. split; [done|]. by destruct (first_error rs).
  - destruct c; try done. destruct x as [[|[] [|[] []]]|]; try done. intros H%Z.leb_le. eauto.
  - destruct x as [|y]; [done|eauto].
Qed.

Fixpoint undisturbed_here (good : forall X, eff X -> X -> bool) {A} (p : prog A) (w : machine) : bool :=
  match p with
  | Ret _ => true
  | Vis e f => let '(x, w') := respond _ e w in good _ e x && undisturbed_here good (f x) w'
  end.

Lemma undisturbed_here_ok limits {A} (p : prog A) (w : machine) :
  undisturbed_here (fine_here limits) p w = true -> undisturbed (fine_answer demo_store limits) p w.
Proof.
  revert w. induction p as [a|X e f IH]; intros w; [done|]. cbn [undisturbed_here undisturbed].
  destruct (respond _ e w) as [x w1]. intros [H1 H2]%andb_true_iff. split; [by apply fine_here_ok|by apply IH].
Qed.

(** Nothing is in the way of Ann's login. *)
Example ann_undisturbed :
  undisturbed (fine_answer demo_store (login_limits "ann@example.com")) (login_as "ANN@example.com" ann_password) with_ann.
Proof. apply undisturbed_here_ok. vm_compute. reflexivity. Qed.

Lemma register_then_login_witness :
  exists u token s w, interp (login_as "ANN@example.com" ann_password) with_ann = Ok (inr (u, token, s), w) /\
    UserID s = u_id u /\ valid_login (database with_ann) "ann@example.com" ann_password u.
Proof.
  destruct (fine_run _ _ register_ann_fine) as [[[u token] s] Hreg].
  destruct (interp_total (login_as "ANN@example.com" ann_password) with_ann) as (r & w & Hlog).
  pose proof (register_then_login demo_store (demo_credentials " Ann@Example.com" ann_password "Ann") u token s
    (demo_credentials "ANN@example.com" ann_password "") r (start t0) with_ann with_ann w
    (wo_accounts _ _ (world_start t0)) Hreg (conj eq_refl eq_refl) ltac:(vm_compute; reflexivity) eq_refl Hlog) as Hr.
  destruct r as [e|[[v token'] s']]; [destruct Hr as [Hno _]; destruct (Hno ann_undisturbed)|].
  destruct Hr as (-> & Hu & _). exists u, token', s', w. split; [exact Hlog|]. split; [exact Hu|].
  destruct (wpw_run _ _ _ _ _ (wpw_Register demo_store _ _ (start t0) (fun r w' t Hp => Hp)) Hreg) as (Hreg' & _).
  exact (registered_valid _ _ _ _ Hreg').
Defined.

(** ** Changing the password *)

(** The token of the registration, and the state after another login. *)
Definition ann_token : string := b64_raw_encode alphabet_url (be_bytes 32 4).
Definition elsewhere : machine := after (login_as "ann@example.com" ann_password) with_ann.

Definition change (current next : string) : prog (error + unit) :=
  ChangePassword demo_store ann_id current next ann_token (mkAuthEvent ann_id "ann@example.com" "" "192.0.2.1" "browser").

Lemma elsewhere_world : world demo_secs elsewhere.
Proof. eapply world_after; [by apply keeps_Login|apply with_ann_world]. Qed.

Lemma wrong_change_run : result (change "guessed battery" "another battery 7") elsewhere = Some (inl ErrInvalidCredentials).
Proof. vm_compute. reflexivity. Qed.

Lemma change_password_authorized_witness :
  change_post ann_id "guessed battery" "another battery 7" (database elsewhere) (inl ErrInvalidCredentials)
    (database (after (change "guessed battery" "another battery 7") elsewhere)).
Proof.
  refine (change_password_authorized demo_store _ _ _ _ _ _ elsewhere _ _ (interp_result _ _ _ wrong_change_run)).
  eapply wo_accounts, elsewhere_world.
Defined.

Definition changed : machine := after (change ann_password "another battery 7") elsewhere.

Lemma change_run : result (change ann_password "another battery 7") elsewhere = Some (inr tt).
Proof. vm_compute. reflexivity. Qed.

Lemma still_in : match result (Get_ ann_token) changed with Some (inr s) => bool_decide (UserID s = ann_id) | _ => false end = true.
Proof. vm_compute. reflexivity. Qed.

Lemma change_password_evicts_witness : hashToken ann_token = kept ann_token.
Proof.
  pose proof still_in as Hs. destruct (result (Get_ ann_token) changed) as [[e|s]|] eqn:E; try discriminate Hs.
  apply bool_decide_eq_true in Hs.
  exact (change_password_evicts demo_store demo_secs eq_refl eq_refl ann_id _ _ _ _ ann_token elsewhere changed (inr s)
    (after (Get_ ann_token) changed) elsewhere_world (interp_result _ _ _ change_run) (interp_result _ _ _ E) s eq_refl Hs).
Defined.
