(* ===== verification/ServerExamples.v ===== *)
(** * The server, run

    The properties of [ServerTheorems.v], [RoomTheorems.v], [EdgeTheorems.v] and
    [InviteTheorems.v] applied in the installation of [Demo.v]. *)

From S2P Require Import Prelude GoStrings Crypto Effects RedisSpec PostgresSpec Hasher Sim RateLimit.
From S2P Require Import Sessions SessionFacts SessionOps SessionCreate SessionTheorems SessionExamples.
From S2P Require Import Password Users Frames AuthService AuthFacts AuthLogin World AuthKeeps.
From S2P Require Import Httpx Middleware AuthHandlers Rooms InboxEvents Invites Turn Server ServerFacts ServerKeeps.
From S2P Require Import Guarded Lifetimes Interleaving SharedSessions Guards ServerTheorems RoomTheorems EdgeTheorems InviteTheorems Demo.
From Stdlib Require Import Ascii.
Import Rooms.

(** ** A history *)

Definition post (path : list string) (hs cookies : list (string * string)) (body : string) : http_request :=
  demo_request "POST" path hs cookies [] body.

Definition register_request (email name : string) : http_request :=
  post ["api"; "auth"; "register"] [] [] (email +:+ "|correct battery 9|" +:+ name +:+ "|cookie").

(** Ann registers, Bob registers, Ann opens a room. *)
Definition ann_cookie : string * string := ("session", b64_raw_encode alphabet_url (be_bytes 32 4)).
Definition open_room : http_request := post ["api"; "rooms"] [] [ann_cookie] " Stand-up ".

Definition day1 : machine := after (serve (register_request "ann@example.com" "Ann")) (start t0).
Definition day2 : machine := after (serve (register_request "bob@example.com" "Bob")) day1.
Definition day3 : machine := after (serve open_room) day2.

Lemma serve_total r (w : machine) : exists resp, interp (serve r) w = Ok (resp, after (serve r) w).
Proof.
  destruct (interp_total (serve r) w) as (resp & w' & Hr). exists resp. unfold after. by rewrite Hr.
Qed.

Lemma served_after r (w : machine) : served demo_sv w -> served demo_sv (after (serve r) w).
Proof. intros Hw. destruct (serve_total r w) as [resp Hr]. by eapply served_request. Qed.

Lemma day3_served : served demo_sv day3.
Proof.
  apply served_after, served_after, served_after, served_start; [done|].
  eapply wo_accounts, world_start.
Qed.

Lemma served_well_formed_witness : accounts_ok db (database day3).
Proof. exact (proj1 (served_well_formed demo_sv demo_secs eq_refl eq_refl day3 day3_served)). Defined.

(** Two logins at once, each with a slot in hand. *)
Definition login_request : http_request :=
  post ["api"; "auth"; "login"] [] [] "ann@example.com|correct battery 9||cookie".

Definition crowd : list (prog response) * machine :=
  run_pool [0; 1; 0; 1; 0; 1; 0; 1] (serve <$> [login_request; login_request], day3).

Lemma crowd_holds : held crowd.1 = 2.
Proof. vm_compute. reflexivity. Qed.

Lemma hash_slots_never_leak_witness : held crowd.1 + free_slots crowd.2 = free_slots day3.
Proof.
  refine (proj1 (hash_slots_never_leak demo_sv 0 0 None None [login_request; login_request] day3 crowd.1 crowd.2 _)).
  rewrite <- surjective_pairing. exact (run_pool_steps _ _).
Defined.

(** Two registrations of one address at once: one of them makes the account. *)
Definition rivals : list http_request :=
  [register_request "ann@example.com" "Ann"; register_request "Ann@Example.com" "Anna"].

Definition race : list (prog response) * machine :=
  run_pool (concat (replicate 20 [0; 1])) (serve <$> rivals, start t0).

Lemma race_run : pool_steps (serve <$> rivals, start t0) (race.1, race.2).
Proof. rewrite <- surjective_pairing. exact (run_pool_steps _ _). Qed.

Lemma race_settled :
  (u_display_name ∘ snd <$> map_to_list (users (database race.2)),
   (fun p => match p with Ret resp => status resp | _ => 0%Z end) <$> race.1) = (["Ann"], [201; 409]%Z).
Proof. vm_compute. reflexivity. Qed.

Lemma accounts_survive_interleaving_witness : accounts_ok db (database race.2).
Proof.
  exact (accounts_survive_interleaving demo_sv 0 0 None None rivals (start t0) race.1 race.2
    (wo_accounts _ _ (world_start t0)) race_run).
Defined.

(** Ann registers. Two minutes later she signs out while another of her requests is
    under way: it stores the session again, but no longer than it was for. *)
Definition opening : list (prog response) * machine :=
  run_pool (replicate 40 0) (serve <$> [register_request "ann@example.com" "Ann"], start t0).

Definition overlapping : list http_request :=
  [demo_request "GET" ["api"; "auth"; "me"] [] [ann_cookie] [] "";
   post ["api"; "auth"; "logout"] [] [ann_cookie] ""].

Definition two_minutes_on : machine := later 120000000000 opening.2.

Definition overlap : list (prog response) * machine :=
  run_pool (replicate 4 0 ++ replicate 20 1 ++ replicate 20 0) (serve <$> overlapping, two_minutes_on).

Definition back_again : Session := mkSession "" ann_id t0 (t0 + 30 * Day) (t0 + 120000000000) "" "".

Lemma overlap_run :
  (fun p => match p with Ret resp => status resp | _ => 0%Z end) <$> overlap.1 = [200; 204]%Z /\
  session_at (keyspace overlap.2) (hashToken ann_cookie.2) = Some back_again.
Proof. vm_compute. exact (conj eq_refl eq_refl). Qed.

Lemma overlap_start : (server_ms two_minutes_on <=? CreatedAt back_again / 1000000)%Z = false.
Proof. vm_compute. reflexivity. Qed.

Lemma nothing_stored : entries_true demo_store (database (start t0)) (keyspace (start t0)).
Proof.
  change (keyspace (start t0)) with (∅ : kv). split.
  - intros id s. unfold session_at. by rewrite lookup_empty.
  - intros h u d. by rewrite lookup_empty.
Qed.

Lemma pool_accounts order rs (w : machine) :
  accounts_ok db (database w) -> accounts_ok db (database (run_pool order (serve <$> rs, w)).2).
Proof.
  intros Hok. apply (safe_pool _ _ (run_pool_steps order (serve <$> rs, w))); [|exact Hok].
  apply Forall_fmap, Forall_true. intros r. apply handler_safe.
Qed.

Lemma later_accounts d (w : machine) : accounts_ok db (database w) -> accounts_ok db (database (later d w)).
Proof. done. Qed.

Lemma later_entries d (w : machine) :
  entries_true demo_store (database w) (keyspace w) ->
  entries_true demo_store (database (later d w)) (keyspace (later d w)).
Proof. done. Qed.

Lemma pool_runs order rs (w : machine) :
  pool_steps (serve <$> rs, w) ((run_pool order (serve <$> rs, w)).1, (run_pool order (serve <$> rs, w)).2).
Proof. rewrite <- surjective_pairing. exact (run_pool_steps _ _). Qed.

Lemma sessions_survive_interleaving_witness :
  is_Some (users (database overlap.2) !! ann_id) /\
  exists s, session_at (keyspace two_minutes_on) (hashToken ann_cookie.2) = Some s /\ same_life s back_again.
Proof.
  assert (accounts_ok db (database two_minutes_on)) as Hok.
  { apply later_accounts, pool_accounts, (wo_accounts _ _ (world_start t0)). }
  assert (entries_true demo_store (database two_minutes_on) (keyspace two_minutes_on)) as Htrue.
  { apply later_entries. refine (proj1 (sessions_survive_interleaving demo_sv 0 0 None None _ _ _ _
      (wo_accounts _ _ (world_start t0)) nothing_stored (pool_runs _ _ _))). }
  destruct (sessions_survive_interleaving demo_sv 0 0 None None _ _ _ _ Hok Htrue
    (pool_runs (replicate 4 0 ++ replicate 20 1 ++ replicate 20 0) overlapping two_minutes_on)) as [Hent Hold].
  fold overlap in Hent, Hold. destruct overlap_run as [_ Hback].
  split; [exact (proj1 (et_session _ _ _ Hent _ _ Hback))|].
  destruct (Hold _ _ Hback) as [Hnew|Hs]; [|exact Hs]. apply Z.leb_le in Hnew. by rewrite overlap_start in Hnew.
Defined.

(** ** Guards *)

Definition ann_me : http_request := demo_request "GET" ["api"; "auth"; "me"] [] [ann_cookie] [] "".

Lemma ann_me_run : status <$> result (serve ann_me) day3 = Some 200%Z.
Proof. vm_compute. reflexivity. Qed.

(** Ann asks who she is: the handler answers for her session. *)
Lemma protected_needs_identity_witness :
  exists resp id, result (serve ann_me) day3 = Some resp /\
    handled_for demo_sv demo_secs ann_me (me demo_middleware) id day3 resp (after (serve ann_me) day3).
Proof.
  pose proof ann_me_run as Hst. destruct (result (serve ann_me) day3) as [resp|] eqn:E; [|discriminate Hst].
  injection Hst as Hst. exists resp.
  destruct (protected_needs_identity demo_sv demo_secs eq_refl eq_refl 0 0 None None ann_me GetMe (me demo_middleware)
    day3 resp _ day3_served eq_refl eq_refl (interp_result _ _ _ E)) as [[id Hid]|[_ [H|[H|H]]]];
    [exists id; split; [reflexivity|exact Hid]|rewrite Hst in H; discriminate H..].
Defined.

Definition forged : http_request :=
  post ["api"; "auth"; "logout-all"] [("Origin", "https://evil.example")] [ann_cookie] "".

Lemma cross_site_request_harmless_witness : after (serve forged) day3 = day3.
Proof.
  destruct (serve_total forged day3) as [resp Hr].
  refine (proj1 (proj2 (cross_site_request_harmless demo_sv 0 0 None None forged day3 resp _ _ _ Hr) _));
    vm_compute; reflexivity.
Defined.

(** The slug of the room that Ann opened. *)
Definition the_slug : string := "bbp-bbbq-bbbr".

Definition join_request : http_request :=
  demo_request "GET" ["ws"] [("Origin", "https://call.example")] [ann_cookie] [("room", "BBP-bbbq-bbbr")] "".

Definition joined (r : option response) : bool :=
  match r with
  | Some resp => match payload_ resp with Upgraded u n _ => bool_decide (u = ann_id /\ n = "Ann") | _ => false end
  | None => false
  end.

Lemma join_run : joined (result (serve join_request) day3) = true.
Proof. vm_compute. reflexivity. Qed.

Lemma websocket_opens_checked_witness :
  exists room, upgrade_checked demo_sv demo_secs join_request GetWs day3 ann_id "Ann" room.
Proof.
  pose proof join_run as Hj. unfold joined in Hj.
  destruct (result (serve join_request) day3) as [resp|] eqn:E; [|discriminate Hj].
  destruct (payload_ resp) eqn:Hp; try discriminate Hj.
  apply bool_decide_eq_true in Hj as [-> ->]. eexists.
  exact (websocket_opens_checked demo_sv demo_secs eq_refl eq_refl 0 0 None None join_request GetWs ann_id "Ann" _ day3
    resp _ day3_served eq_refl (or_introl eq_refl) (interp_result _ _ _ E) Hp).
Defined.

(** ** Rooms *)

Lemma slug_run : result Service.generateSlug day3 = Some (inr "bbt-bbbv-bbbw").
Proof. vm_compute. reflexivity. Qed.

Lemma generated_slug_valid_witness : meeting_slug "bbt-bbbv-bbbw" /\ slugPattern "bbt-bbbv-bbbw" = true.
Proof.
  destruct (generated_slug_valid "bbt-bbbv-bbbw" day3 _ (interp_result _ _ _ slug_run)) as (H1 & H2 & _).
  exact (conj H1 H2).
Defined.

Lemma create_fine : fine (result (Service.Create ann_id " Stand-up ") day3) = true.
Proof. vm_compute. reflexivity. Qed.

Lemma room_create_correct_witness :
  exists row, room_added ann_id "Stand-up" row (database day3)
    (database (after (Service.Create ann_id " Stand-up ") day3)).
Proof.
  destruct (fine_run _ _ create_fine) as [row Hr]. exists row.
  pose proof (room_create_correct ann_id " Stand-up " _ _ _ Hr) as Hp.
  change (Service.room_name " Stand-up ") with "Stand-up" in Hp. exact (proj1 Hp).
Defined.

Lemma delete_run : result (Service.Delete " BBP-bbbq-bbbr ") day3 = Some (inr tt).
Proof. vm_compute. reflexivity. Qed.

Lemma room_delete_correct_witness : slug_taken the_slug (database day3).
Proof. exact (proj1 (room_delete_correct " BBP-bbbq-bbbr " _ _ _ (interp_result _ _ _ delete_run))). Defined.

(** ** Origins and relays *)

Definition two_origins : string := "https://call.example, https://Staging.example".

Definition staging_policy : OriginPolicy :=
  mkOriginPolicy {["https://call.example"; "https://staging.example"]} false.

Lemma two_origins_run : NewOriginPolicy two_origins = inr staging_policy.
Proof. vm_compute. reflexivity. Qed.

Lemma origin_policy_exact_witness :
  AllowOrigin staging_policy (demo_request "GET" ["ws"] [("Origin", "https://STAGING.example")] [] [] "") = true.
Proof.
  apply (origin_policy_exact two_origins staging_policy); [vm_compute; discriminate|exact two_origins_run|].
  right. right. exists "https://Staging.example", "https", "Staging.example".
  split; [apply elem_of_entries; split; [vm_compute; right; left|done]|]. by vm_compute.
Defined.

Lemma turn_credential_accepted_witness :
  let c := Turn.mint_at (sv_turn demo_sv) t0 ann_id in
  relay_accepts "s3cret" 1700003600 (Turn.Username c) (Turn.Credential c) = true /\
  relay_accepts "s3cret" 1700003601 (Turn.Username c) (Turn.Credential c) = false.
Proof.
  split; (refine (eq_trans (turn_credential_accepted (sv_turn demo_sv) t0 ann_id _ _) _); [|vm_compute; reflexivity]);
    vm_compute; split; [discriminate|reflexivity|discriminate|reflexivity].
Defined.

(** ** Invites *)

(** Ann, as [Require] knows her. *)
Definition ann_identity : Identity :=
  mkIdentity (mkUserRow ann_id "ann@example.com" "Ann" false t0 false)
    (mkSession "" ann_id t0 (t0 + 30 * Day) t0 "" "") ann_cookie.2.

Definition bob_id : string := sim_uuid 6.

Definition invite_request : http_request :=
  post ["api"; "rooms"; the_slug; "invites"] [] [ann_cookie] bob_id.

Abbreviation ring_bob := (Invites.handle TypeInvite (Some ann_identity) invite_request).

Lemma day3_accounts : accounts_ok db (database day3).
Proof. exact (wo_accounts _ _ (served_world demo_sv demo_secs eq_refl eq_refl day3 day3_served)). Qed.

Definition bobs_frame : string := Join [TypeInvite; the_slug; "Stand-up"; ann_id; "Ann"] "|".

Lemma ring_bob_frames : deliveries ring_bob day3 = [(bob_id, bobs_frame, 1)].
Proof. vm_compute. reflexivity. Qed.

Lemma invite_truthful_witness : truthful TypeInvite ann_identity invite_request (database day3) bob_id bobs_frame.
Proof.
  destruct (interp_total ring_bob day3) as (resp & w' & Hr).
  destruct (invite_truthful TypeInvite ann_identity invite_request resp day3 w' day3_accounts Hr)
    as [[Hs _]|(recipient & data & n & Hs & _ & Ht & _)]; rewrite ring_bob_frames in Hs; [discriminate Hs|].
  injection Hs as <- <- _. exact Ht.
Defined.
