(* ===== verification/Switchboard.v ===== *)
(** * A machine with an inbox

    Any machine gains an inbox hub: [Deliver] is answered by the hub, everything
    else by the machine, and all its laws stay. On the machine of [Sim.v] the
    property of [Ringing.v] is applied: Ann rings Bob's two devices. *)

From S2P Require Import Prelude Chan Registry InboxHub InboxTheorems.
From S2P Require Import GoStrings Crypto Effects RedisSpec PostgresSpec Hasher Sim RateLimit.
From S2P Require Import Sessions SessionFacts SessionOps SessionCreate SessionTheorems SessionExamples.
From S2P Require Import Password Users Frames AuthService AuthFacts AuthLogin World AuthKeeps.
From S2P Require Import Httpx Middleware AuthHandlers Rooms InboxEvents Invites Turn Server ServerFacts ServerKeeps.
From S2P Require Import Guards ServerTheorems InviteTheorems Ringing Demo ServerExamples.
Import Rooms.

Section with_hub.
Variable M : Machine.

Definition hub_respond (X : Type) (e : eff X) (w : @mstate M * state) : X * (@mstate M * state) :=
  let '(x, w1) := @respond M X e w.1 in
  match e in eff X return X -> X * (@mstate M * state) with
  | Deliver user data => fun x =>
      match InboxHub.Deliver (idle_sched conn) user data w.2 with
      | Ok (n, h) => (n, (w1, h))
      | _ => (x, (w1, w.2))
      end
  | _ => fun x => (x, (w1, w.2))
  end x.

Definition with_hub : Machine := {| mstate := @mstate M * state; respond := hub_respond |}.

(** The machine goes its own way. *)
Lemma hub_respond_machine X (e : eff X) w : (hub_respond X e w).2.1 = (@respond M X e w.1).2.
Proof.
  unfold hub_respond. destruct (@respond M X e w.1) as [x w1]. destruct e; try done.
  by destruct (InboxHub.Deliver _ _ _ _) as [[n h]| |].
Qed.

Lemma hub_respond_other X (e : eff X) w :
  match e with Deliver _ _ => False | _ => True end ->
  hub_respond X e w = let '(x, w1) := @respond M X e w.1 in (x, (w1, w.2)).
Proof. intros He. unfold hub_respond. destruct (@respond M X e w.1) as [x w1]. by destruct e. Qed.

Ltac other E := rewrite hub_respond_other in E by exact I.

Context {RV : @RedisView M} {PV : @PostgresView M} {HV : @HasherView M}.

Definition hub_redis : @RedisView with_hub := @Build_RedisView with_hub ttls (fun w => server_ms w.1) (fun w => keyspace w.1).
Definition hub_postgres : @PostgresView with_hub := @Build_PostgresView with_hub db (fun w => database w.1).
Definition hub_hasher : @HasherView with_hub := @Build_HasherView with_hub kdf (fun w => free_slots w.1).
Definition hub_inbox : @InboxView with_hub := @Build_InboxView with_hub snd.

Lemma hub_redis_laws : RedisLaws RV -> @RedisLaws with_hub hub_redis.
Proof.
  intros [L1 L2 L3 L4 L5 L6]. split; [done|done|done|..]; simpl.
  - intros X e w. rewrite hub_respond_machine. apply L4.
  - intros r [w h] o w' E. other E. simpl in E.
    destruct (respond _ (Redis r) w) as [x w1] eqn:Ew. injection E as <- <-. by apply L5.
  - intros X e w He. rewrite hub_respond_machine. by apply L6.
Qed.

Lemma hub_clock_laws : ClockLaws RV -> @ClockLaws with_hub hub_redis.
Proof.
  intros [L]. split. simpl. intros [w h] n w' E. other E. simpl in E.
  destruct (respond _ Now w) as [x w1] eqn:Ew. injection E as <- <-. by apply L.
Qed.

Lemma hub_postgres_laws : PostgresLaws PV -> @PostgresLaws with_hub hub_postgres.
Proof.
  intros [L1 L2 L3]. split; simpl.
  - intros X q [w h] r w' E. other E. simpl in E.
    destruct (respond _ (Query q) w) as [x w1] eqn:Ew. injection E as <- <-. by apply L1.
  - intros X t [w h] r w' E. other E. simpl in E.
    destruct (respond _ (Transaction t) w) as [x w1] eqn:Ew. injection E as <- <-. by apply L2.
  - intros X e w He. rewrite hub_respond_machine. by apply L3.
Qed.

Lemma hub_hasher_laws : HasherLaws HV -> @HasherLaws with_hub hub_hasher.
Proof.
  intros [L1 L2 L3 L4 L5 L6]. split; simpl.
  - intros password salt p [w h] key w' E. other E. simpl in E.
    destruct (respond _ (IDKey password salt p) w) as [x w1] eqn:Ew. injection E as <- <-. by eapply L1.
  - done.
  - intros n [w h] l w' E. other E. simpl in E.
    destruct (respond _ (Random n) w) as [x w1] eqn:Ew. injection E as -> <-. by eapply L3.
  - intros [w h] b w' E. other E. simpl in E.
    destruct (respond _ AcquireSlot w) as [x w1] eqn:Ew. injection E as <- <-. by apply L4.
  - intros [w h] w' E. other E. simpl in E.
    destruct (respond _ ReleaseSlot w) as [x w1] eqn:Ew. injection E as _ <-. destruct x. by apply L5.
  - intros X e w He. rewrite hub_respond_machine. by apply L6.
Qed.

Lemma hub_inbox_laws : @InboxLaws with_hub hub_inbox.
Proof.
  split; simpl.
  - intros user data [w h] n w' Hr E. simpl in Hr, E. exists (idle_sched conn), h, w'.2.
    split; [apply rtc_refl|]. split; [|apply rtc_refl]. unfold hub_respond in E. simpl in E.
    destruct (respond _ (Deliver user data) w) as [x w1].
    destruct (wp_run _ _ _ (wp_reached (idle_sched conn) user data h Hr)) as (k & h' & Hd & _).
    rewrite Hd in *. by injection E as <- <-.
  - intros X e w He. rewrite hub_respond_other by done. destruct (respond X e w.1). apply rtc_refl.
Qed.
End with_hub.

(** ** Ann rings Bob *)

(** From here on the machine is that of [Sim.v] with a hub. *)
Definition exchange : Machine := with_hub sim_machine.

#[local] Existing Instance exchange | 0.
#[local] Instance exchange_redis : RedisView := hub_redis sim_machine.
#[local] Instance exchange_postgres : PostgresView := hub_postgres sim_machine.
#[local] Instance exchange_hasher : HasherView := hub_hasher sim_machine.
#[local] Instance exchange_inbox : InboxView := hub_inbox sim_machine.
#[local] Instance exchange_redis_laws : RedisLaws exchange_redis := hub_redis_laws sim_machine _.
#[local] Instance exchange_clock_laws : ClockLaws exchange_redis := hub_clock_laws sim_machine _.
#[local] Instance exchange_postgres_laws : PostgresLaws exchange_postgres := hub_postgres_laws sim_machine _.
#[local] Instance exchange_hasher_laws : HasherLaws exchange_hasher := hub_hasher_laws sim_machine _.
#[local] Instance exchange_inbox_laws : InboxLaws exchange_inbox := hub_inbox_laws sim_machine.

Definition bobs_phone : conn := mkConn 1 "1" bob_id.
Definition bobs_laptop : conn := mkConn 2 "2" bob_id.
Definition anns_phone : conn := mkConn 3 "3" ann_id.

Definition connected : InboxHub.state :=
  after_op (InboxHub.Add anns_phone) (after_op (InboxHub.Add bobs_laptop) (after_op (InboxHub.Add bobs_phone) initial_world)).

Lemma connected_reachable : InboxHub.reachable connected.
Proof.
  unfold connected. do 3 (apply after_op_reachable; [|vm_compute; reflexivity|vm_compute; reflexivity]). constructor.
Qed.

Definition then_serve (r : http_request) (w : mstate) : mstate :=
  match interp (serve r) w with Ok (_, w') => w' | _ => w end.

Lemma then_serve_ok r w : exists resp, interp (serve r) w = Ok (resp, then_serve r w).
Proof. unfold then_serve. destruct (interp_total (serve r) w) as (resp & w' & ->). by exists resp. Qed.

(** Ann and Bob have registered, Ann has opened a room. *)
Definition office : mstate :=
  then_serve open_room (then_serve (register_request "bob@example.com" "Bob")
    (then_serve (register_request "ann@example.com" "Ann") (start t0, connected))).

Lemma served_then r w : served demo_sv w -> served demo_sv (then_serve r w).
Proof. intros Hw. destruct (then_serve_ok r w) as [resp Hr]. by eapply served_request. Qed.

Lemma office_served : served demo_sv office.
Proof. apply served_then, served_then, served_then, served_start; [done|]. eapply (@wo_accounts sim_machine), world_start. Qed.

Lemma reachable_then r w : InboxHub.reachable (inbox w) -> InboxHub.reachable (inbox (then_serve r w)).
Proof.
  intros Hw. destruct (then_serve_ok r w) as [resp Hr]. eapply hub_run_reachable, Hw. by eapply run_deliveries.
Qed.

Lemma office_reachable : InboxHub.reachable (inbox office).
Proof. apply reachable_then, reachable_then, reachable_then, connected_reachable. Qed.

(** The count in the answer. *)
Definition counted (o : outcome (response * mstate)) : option nat :=
  match o with
  | Ok (resp, _) => match payload_ resp with DeliveredBody n => Some n | _ => None end
  | _ => None
  end.

Lemma rung : counted (interp (serve invite_request) office) = Some 2.
Proof. vm_compute. reflexivity. Qed.

Lemma ring_end_to_end_witness :
  exists recipient data h h', reached recipient data 2 h h' /\ hub_steps h' (inbox (then_serve invite_request office)).
Proof.
  destruct (then_serve_ok invite_request office) as [resp Hr]. pose proof rung as Hc. rewrite Hr in Hc. simpl in Hc.
  destruct (ring_end_to_end demo_sv demo_secs eq_refl eq_refl 0 0 None None invite_request PostInvite TypeInvite
    office resp _ office_served office_reachable eq_refl eq_refl Hr)
    as [[_ Hno]|(id & w1 & recipient & data & n & h & h' & _ & Hk & _ & _ & _ & Hreached & Hafter)].
  - destruct (payload_ resp) eqn:Hp; try discriminate Hc. by destruct (Hno delivered).
  - destruct (payload_ resp) eqn:Hp; try discriminate Hc. injection Hc as ->. rewrite <- (Hk 2 eq_refl) in Hreached.
    exists recipient, data, h, h'. exact (conj Hreached Hafter).
Defined.
