(* ===== verification/Calls.v ===== *)
(** * Calls, from the login to the frame

    The server of [Server.v] and the signaling system of [SignalClient.v] put
    together: the only way into the hub is a websocket the server opened, and the
    client that is registered is made of what the server checked. *)

From S2P Require Import Prelude Chan Registry Protocol TokenBucket SignalHub SignalHubFacts SignalClient SignalTheorems.
From S2P Require Import GoStrings Crypto Effects RedisSpec PostgresSpec Hasher RateLimit.
From S2P Require Import Sessions SessionFacts SessionOps SessionCreate SessionTheorems Password Users Frames Guarded Lifetimes.
From S2P Require Import AuthService AuthFacts AuthLogin World AuthKeeps.
From S2P Require Import Httpx Middleware AuthHandlers Rooms InboxEvents Invites Turn.
From S2P Require Import Server ServerFacts ServerKeeps Guards ServerTheorems.
Import Rooms.

Section calls.
Context `{RL : RedisLaws} {CL : ClockLaws _} {PV : PostgresView} {PL : PostgresLaws PV} {DL : DbLaws db}.
Context {HV : HasherView} {HL : HasherLaws HV} `{JL : SessionJsonLaws} `{Unicode}.
Context `{ResponseJson} `{UrlParse} `{UL : UpgraderLaws} `{AuthJson} `{Handlers.RoomJson} `{Invites.InviteJson}.
Context `{Json} {F : Type} `{Arith F}.
Variable sv : server_config.
Variable secs : Z.
Hypothesis absolute_secs : absoluteTTL (sv_sessions sv) = (secs * 1000000000)%Z.
Hypothesis secs_pos : (0 < secs)%Z.

(** The server and the hub, and for every client the request it came with and the
    state in which the server handled it. *)
Record system := mkSystem {
  at_server : mstate;
  at_hub : SignalHub.state;
  came_with : gmap Client (http_request * mstate)
}.

Inductive call_step : system -> system -> Prop :=
| call_request cl ib pg rd r resp w w' h from :
    interp (handler sv cl ib pg rd r) w = Ok (resp, w') -> call_step (mkSystem w h from) (mkSystem w' h from)
| call_pause w w' h from :
    (server_ms w <= server_ms w')%Z -> aged (server_ms w') (keyspace w) (keyspace w') ->
    same_accounts (database w) (database w') -> call_step (mkSystem w h from) (mkSystem w' h from)
(* the end of [ServeHTTP]: the client made after the upgrade is added *)
| call_join cl ib pg rd r resp user name room w w' address id sc h h' from :
    route r = Some GetWs -> interp (handler sv cl ib pg rd r) w = Ok (resp, w') ->
    payload_ resp = Httpx.Upgraded user name room ->
    let c := mkClient address id user name room in
    Chan.status h c = None -> SignalHub.handle sc (SignalHub.Register c) h = Ok (tt, h') ->
    call_step (mkSystem w h from) (mkSystem w' h' (<[c := (r, w)]> from))
(* anything else that happens to the hub *)
| call_hub w h h' from :
    step (F := F) h h' -> (forall k, was_connected h' k -> was_connected h k) ->
    call_step (mkSystem w h from) (mkSystem w h' from).

Inductive call_reachable : system -> Prop :=
| calls_start w : keyspace w = ∅ -> accounts_ok db (database w) -> call_reachable (mkSystem w SignalHub.initial ∅)
| calls_step s s' : call_reachable s -> call_step s s' -> call_reachable s'.

(** Who a client is: an account, under its name; and the very request that it came with
    was for this room, from an origin that is allowed, with a ticket or session of
    that account when the server handled it, and was answered by the upgrade that made
    the client. *)
Definition vouched (s : system) (k : Client) : Prop :=
  (exists v, users (database (at_server s)) !! SignalHub.userID k = Some v /\ u_display_name v = displayName k) /\
  exists r w0, came_with s !! k = Some (r, w0) /\ route r = Some GetWs /\
    upgrade_checked sv secs r GetWs w0 (SignalHub.userID k) (displayName k) (roomID k) /\
    exists cl ib pg rd resp w1, interp (handler sv cl ib pg rd r) w0 = Ok (resp, w1) /\
      payload_ resp = Httpx.Upgraded (SignalHub.userID k) (displayName k) (roomID k).

Lemma interp_grows {A} (p : prog A) w a w' :
  interp p w = Ok (a, w') -> users (database w) ⊆ users (database w').
Proof.
  revert w. induction p as [b|X e f IH]; intros w; simpl; [by intros [= _ <-]|].
  pose proof (respond_grows X e w) as Hg. destruct (respond _ e w) as [x w1]. simpl in Hg.
  intros Hrun. etrans; [exact Hg|by eapply IH].
Qed.

Lemma vouched_grows w w' h h' from k :
  users (database w) ⊆ users (database w') -> vouched (mkSystem w h from) k -> vouched (mkSystem w' h' from) k.
Proof.
  intros Hsub [(v & Hv & Hn) Hup]. split; [|done]. exists v. split; [|done]. by eapply lookup_weaken.
Qed.

(** What the parts know of themselves, and the hub of its clients. *)
Record calls_ok (s : system) : Prop := {
  ca_served : served sv (at_server s);
  ca_hub_ok : SignalClient.reachable (F := F) (at_hub s);
  ca_vouched : forall k, was_connected (at_hub s) k -> vouched s k
}.

Lemma calls_server w w' h from :
  served sv w' -> users (database w) ⊆ users (database w') ->
  calls_ok (mkSystem w h from) -> calls_ok (mkSystem w' h from).
Proof. intros Hs Hsub [_ Hh Hv]. split; [done|done|]. intros k Hk. by eapply vouched_grows, Hv. Qed.

(** Registering a client connects nobody else. *)
Lemma register_connects sc c h h' k :
  SignalClient.reachable (F := F) h -> Chan.status h c = None ->
  SignalHub.handle sc (SignalHub.Register c) h = Ok (tt, h') -> was_connected h' k -> k = c \/ was_connected h k.
Proof.
  intros Hh Hc Hrun. pose proof (sys_hub _ _ (reachable_inv _ Hh)) as Hi.
  pose proof (wp_event (F := F) sc _ h Hi (adm_register h c Hc)) as Hp. unfold wp in Hp. rewrite Hrun in Hp.
  destruct (stopped (hub h)); [subst; by right|]. destruct Hp as [J _]. apply (jc_made _ _ _ _ J).
Qed.

Lemma calls_invariant s : call_reachable s -> calls_ok s.
Proof.
  induction 1 as [w Hk Ha|s s' _ IH Hstep]; [split; [by apply served_start|constructor|done]|].
  destruct Hstep as [cl ib pg rd r resp w w' h from Hrun|w w' h from Ht Hage Hsame
    |cl ib pg rd r resp user name room w w' address id sc h h' from Hroute Hrun Hup c Hc Hreg|w h h' from Hstep Hold].
  - eapply calls_server, IH; [|by eapply interp_grows]. eapply served_request, Hrun. apply IH.
  - eapply calls_server, IH; [eapply served_pause, Hsame; [apply IH|done..]|]. by destruct Hsame as [-> _].
  - assert (users (database w) ⊆ users (database w')) as Hsub by by eapply interp_grows.
    destruct IH as [Hws Hhs Hvs]. simpl in *.
    split; [by eapply served_request|eapply reach_step; [exact Hhs|by eapply step_connect]|]. simpl. intros k Hk.
    apply (register_connects _ _ _ _ _ Hhs Hc Hreg) in Hk.
    destruct (decide (k = c)) as [->|Hne].
    + pose proof (upgrade_is_checked sv secs absolute_secs secs_pos cl ib pg rd r GetWs user name room w resp w'
        Hws Hroute (or_introl eq_refl) Hrun Hup) as Hcheck.
      split; [|exists r, w; split; [apply lookup_insert_eq|]; split; [done|]; split; [done|];
        by exists cl, ib, pg, rd, resp, w'].
      destruct Hcheck as (_ & display & (v & Hv & Hn & _) & -> & _).
      exists v. split; [by eapply lookup_weaken|done].
    + destruct Hk as [?|Hk]; [done|]. destruct (Hvs k Hk) as [(v & Hv & Hn) (r0 & w0 & Hfrom & Hrest)].
      split; [exists v; split; [by eapply lookup_weaken|done]|]. exists r0, w0. split; [|done].
      simpl. rewrite lookup_insert_ne by done. exact Hfrom.
  - destruct IH as [Hws Hhs Hvs]. split; [done|by eapply reach_step|]. intros k Hk. by apply Hvs, Hold.
Qed.

(** C2: in a call everybody is who they seem: whatever a client is ever sent comes from
    the clients of its room that the server let in, each for an existing account,
    under that account's name, because the very request the client came with had a ticket
    or session of that account, an allowed origin, and the slug of this room. Presence
    names them; a relayed message carries the account id of its sender. Requests are
    handled one after the other. *)
Theorem calls_authenticated s c f :
  call_reachable s -> f ∈ log (at_hub s) c ->
  exists o, encode o = Some f /\ origin (fun k => was_connected (at_hub s) k /\ vouched s k) c o.
Proof.
  intros Hs%calls_invariant Hf. apply (frames_origin (F := F) _ (at_hub s)); [apply Hs| |done].
  intros k Hk. split; [done|]. by apply (ca_vouched _ Hs).
Qed.
End calls.
