(* ===== verification/CallExamples.v ===== *)
(** * A call

    The property of [Calls.v] applied: Ann and Bob register, Ann opens a room, both
    open a websocket to it, and Ann says hello. *)

From S2P Require Import Prelude Chan Registry Protocol TokenBucket SignalHub SignalHubFacts SignalClient SignalTheorems.
From S2P Require Import GoStrings Crypto Effects RedisSpec PostgresSpec Hasher Sim RateLimit.
From S2P Require Import Sessions SessionFacts SessionOps SessionCreate SessionTheorems SessionExamples.
From S2P Require Import Password Users Frames Guarded Lifetimes AuthService AuthFacts AuthLogin World AuthKeeps.
From S2P Require Import Httpx Middleware AuthHandlers Rooms InboxEvents Invites Turn Server ServerFacts ServerKeeps.
From S2P Require Import Guards ServerTheorems Demo ServerExamples Calls.

Abbreviation reach := (call_reachable (F := f64) demo_sv).

Definition bob_cookie : string * string := ("session", b64_raw_encode alphabet_url (be_bytes 32 8)).

Definition join_with (cookie : string * string) : http_request :=
  demo_request "GET" ["ws"] [("Origin", "https://call.example")] [cookie] [("room", the_slug)] "".

Definition room_id : string := "00000000-0000-4000-8000-00000000000d".

Definition ann_client : Client := mkClient 1 "1" ann_id "Ann" room_id.
Definition bob_client : Client := mkClient 2 "2" bob_id "Bob" room_id.

Definition day4 : machine := Sim.after (serve (join_with ann_cookie)) day3.
Definition day5 : machine := Sim.after (serve (join_with bob_cookie)) day4.

Definition hub1 : SignalHub.state := SignalTheorems.after (SignalHub.Register ann_client) initial.
Definition hub2 : SignalHub.state := SignalTheorems.after (SignalHub.Register bob_client) hub1.

Definition greeting : message := mkMessage room_id ann_client "" ("chat " +:+ ann_id +:+ " hello").
Definition hub3 : SignalHub.state := SignalTheorems.after (SignalHub.Broadcast greeting) hub2.

Lemma reach_serve r (w : machine) h from : reach (mkSystem w h from) -> reach (mkSystem (Sim.after (serve r) w) h from).
Proof.
  intros Hw. destruct (serve_total r w) as [resp Hr]. eapply calls_step; [exact Hw|]. by eapply call_request.
Qed.

(** The server lets a client in. *)
Definition lets_in (r : http_request) (w : machine) (c : Client) : bool :=
  match result (serve r) w with
  | Some resp =>
      match payload_ resp with
      | Httpx.Upgraded user name room =>
          bool_decide (user = SignalHub.userID c) && bool_decide (name = displayName c) && bool_decide (room = roomID c)
      | _ => false
      end
  | None => false
  end.

Lemma reach_join r c (w : machine) h from :
  reach (mkSystem w h from) -> route r = Some GetWs -> lets_in r w c = true -> Chan.status h c = None ->
  (if SignalHub.handle (idle_sched Client) (SignalHub.Register c) h is Ok _ then true else false) = true ->
  reach (mkSystem (Sim.after (serve r) w) (SignalTheorems.after (SignalHub.Register c) h) (<[c := (r, w)]> from)).
Proof.
  intros Hw Hroute Hin Hc Hh. unfold lets_in in Hin.
  destruct (result (serve r) w) as [resp|] eqn:Hr; [|done].
  destruct (payload_ resp) as [| | | | | | | | | | | | |u n ro] eqn:Hp; try done.
  apply andb_true_iff in Hin as [[->%bool_decide_eq_true ->%bool_decide_eq_true]%andb_true_iff ->%bool_decide_eq_true].
  apply interp_result in Hr. eapply calls_step; [exact Hw|].
  pose proof (call_join (F := f64) demo_sv 0 0 None None r resp _ _ _ w _ (addr c) (SignalHub.id c) (idle_sched Client) h
    (SignalTheorems.after (SignalHub.Register c) h) from Hroute Hr Hp) as Hjoin.
  destruct c. apply Hjoin; [exact Hc|by apply SignalTheorems.after_ok].
Qed.

Lemma reach_day3 : reach (mkSystem day3 initial ∅).
Proof.
  apply reach_serve, reach_serve, reach_serve, calls_start; [reflexivity|].
  eapply wo_accounts, world_start.
Qed.

Lemma ann_let_in : lets_in (join_with ann_cookie) day3 ann_client = true.
Proof. vm_compute. reflexivity. Qed.

Lemma bob_let_in : lets_in (join_with bob_cookie) day4 bob_client = true.
Proof. vm_compute. reflexivity. Qed.

Definition arrivals : gmap Client (http_request * machine) :=
  <[bob_client := (join_with bob_cookie, day4)]> (<[ann_client := (join_with ann_cookie, day3)]> ∅).

Lemma reach_two : reach (mkSystem day5 hub2 arrivals).
Proof.
  apply (reach_join (join_with bob_cookie) bob_client day4 hub1 (<[ann_client := (join_with ann_cookie, day3)]> ∅)); [|reflexivity|exact bob_let_in|vm_compute; reflexivity..].
  apply (reach_join (join_with ann_cookie) ann_client day3 SignalHub.initial ∅); [exact reach_day3|reflexivity|exact ann_let_in|vm_compute; reflexivity..].
Qed.

Lemma greeting_published :
  readFrame ann_client demo_bucket 0 true "chat  hello" =
  ((readFrame ann_client demo_bucket 0 true "chat  hello").1, Publish greeting).
Proof. vm_compute. reflexivity. Qed.

(** A frame from a client connects nobody. *)
Lemma reach_publish c (budget budget' : tokenBucket f64) now data m (w : machine) h from :
  reach (mkSystem w h from) -> was_connected h c -> readFrame c budget now true data = (budget', Publish m) ->
  (if SignalHub.handle (idle_sched Client) (SignalHub.Broadcast m) h is Ok _ then true else false) = true ->
  reach (mkSystem w (SignalTheorems.after (SignalHub.Broadcast m) h) from).
Proof.
  intros Hw Hc Hm Hrun%SignalTheorems.after_ok. eapply calls_step; [exact Hw|].
  pose proof (calls_invariant demo_sv demo_secs eq_refl eq_refl _ Hw) as [_ Hh _].
  eapply call_hub; [by eapply step_publish|]. intros k.
  pose proof (wp_event (F := f64) (idle_sched _) _ h (sys_hub _ _ (reachable_inv _ Hh)) (adm_broadcast h c _ _ _ _ _ m Hc Hm)) as Hp.
  unfold wp in Hp. rewrite Hrun in Hp.
  destruct (stopped _); [by rewrite Hp|]. apply (ev_made _ _ _ _ (proj1 Hp)).
Qed.

Lemma reach_greeting : reach (mkSystem day5 hub3 arrivals).
Proof.
  eapply (reach_publish ann_client demo_bucket _ 0 "chat  hello"); [exact reach_two| |exact greeting_published|];
    vm_compute; [discriminate|reflexivity].
Qed.

Lemma bob_hears : "chat " +:+ ann_id +:+ " hello" ∈ log hub3 bob_client.
Proof. refine (bool_decide_eq_true_1 _ _). vm_compute. reflexivity. Qed.

Lemma calls_authenticated_witness :
  exists o, encode o = Some ("chat " +:+ ann_id +:+ " hello") /\
    origin (fun k => was_connected hub3 k /\ vouched demo_sv demo_secs (mkSystem day5 hub3 arrivals) k) bob_client o.
Proof.
  exact (calls_authenticated demo_sv demo_secs eq_refl eq_refl (mkSystem day5 hub3 arrivals) bob_client _ reach_greeting bob_hears).
Defined.
