(* ===== verification/Migrate.v ===== *)
(** * Migrations

    [src/internal/database/migrate.go]: several replicas that start at once, each
    running [Migrate] against one database. The database gives a session-level
    advisory lock, statements that fail or take effect, and transactions that are
    applied as a whole or not at all, though the answer to a commit may be lost. *)

From S2P Require Import Prelude.
From stdpp Require Import sorting.

(** ** The database *)

(** [schema_migrations], the files whose statements were committed, in order, and
    the connection that holds the advisory lock. *)
Record mig_db := mkMigDb {
  versions : gset string;
  committed : list string;
  lock : option nat
}.

(** ** One run of [Migrate] *)

Inductive mig_error :=
| NoMigrations
| LockFailed
| CreateFailed
| ReadFailed
| ApplyFailed (name : string)
| ConnectionLost.

(** Where a run is: about to take the lock, to create the table, to read it, in
    the loop over the files, about to release the lock, or done. *)
Inductive mig_pc :=
| Start
| Creating
| Reading
| Looping (applied : gset string) (todo : list string)
| Releasing (result : option mig_error)
| Finished (result : option mig_error).

(** The loop up to the next file that is not applied. *)
Fixpoint next_pc (applied : gset string) (files : list string) : mig_pc :=
  match files with
  | [] => Releasing None
  | name :: files => if decide (name ∈ applied) then next_pc applied files else Looping applied (name :: files)
  end.

(** [sort.Strings] on the embedded names. *)
Definition migrationFiles (embedded : list string) : option (list string) :=
  match embedded with
  | [] => None
  | _ => Some (merge_sort String.le embedded)
  end.

Lemma migrationFiles_spec embedded files :
  migrationFiles embedded = Some files -> files ≡ₚ embedded /\ Sorted String.le files.
Proof.
  destruct embedded as [|x l]; [done|]. intros [= <-]. split; [apply merge_sort_Permutation|].
  apply (Sorted_merge_sort String.le).
Qed.

Definition set_lock (o : option nat) (d : mig_db) : mig_db := mkMigDb (versions d) (committed d) o.

(** The transaction of [applyMigration]. *)
Definition commit (name : string) (d : mig_db) : mig_db :=
  mkMigDb ({[name]} ∪ versions d) (committed d ++ [name]) (lock d).

(** [SELECT version FROM schema_migrations], or an error of the query or of a row. *)
Inductive appliedVersions (d : mig_db) : option (gset string) -> Prop :=
| versions_read : appliedVersions d (Some (versions d))
| versions_fail : appliedVersions d None.

(** The version is the primary key of [schema_migrations]. Whatever fails before
    the commit, the deferred rollback leaves nothing of the transaction. *)
Inductive applyMigration (name : string) (d : mig_db) : option mig_error -> mig_db -> Prop :=
| applied_all : name ∉ versions d -> applyMigration name d None (commit name d)
| applied_nothing : applyMigration name d (Some (ApplyFailed name)) d
| answer_lost : name ∉ versions d -> applyMigration name d (Some (ApplyFailed name)) (commit name d).

(** Where a run starts: it needs the files first. *)
Definition entry (files : option (list string)) : mig_pc :=
  match files with None => Finished (Some NoMigrations) | Some _ => Start end.

(** [Migrate] from there on: the next thing the run of replica [i] does. *)
Inductive Migrate (files : list string) (i : nat) : mig_pc -> mig_db -> mig_pc -> mig_db -> Prop :=
| acquire_ok d : lock d = None -> Migrate files i Start d Creating (set_lock (Some i) d)
| acquire_fails d : Migrate files i Start d (Finished (Some LockFailed)) d
| acquire_unknown d : lock d = None -> Migrate files i Start d (Finished (Some LockFailed)) (set_lock (Some i) d)
| create_ok d : Migrate files i Creating d Reading d
| create_fails d : Migrate files i Creating d (Releasing (Some CreateFailed)) d
| read_ok d applied :
    appliedVersions d (Some applied) -> Migrate files i Reading d (next_pc applied files) d
| read_fails d : appliedVersions d None -> Migrate files i Reading d (Releasing (Some ReadFailed)) d
| apply_ok applied name todo d d' :
    applyMigration name d None d' ->
    Migrate files i (Looping applied (name :: todo)) d (next_pc applied todo) d'
| apply_fails applied name todo d d' e :
    applyMigration name d (Some e) d' ->
    Migrate files i (Looping applied (name :: todo)) d (Releasing (Some e)) d'
| release_ok r d : Migrate files i (Releasing r) d (Finished r) (set_lock None d)
| release_fails r d : Migrate files i (Releasing r) d (Finished r) d.

(** ** Replicas side by side *)

Abbreviation mig_state := (list mig_pc * mig_db)%type.

(** A run whose connection ends. *)
Definition ended (p : mig_pc) : mig_pc :=
  match p with Finished r => Finished r | _ => Finished (Some ConnectionLost) end.

(** One replica moves, or dies; the database releases the lock of a connection
    that ends. *)
Inductive mig_step (files : list string) : mig_state -> mig_state -> Prop :=
| replica_runs ps i p p' d d' :
    ps !! i = Some p -> Migrate files i p d p' d' ->
    mig_step files (ps, d) (<[i := p']> ps, d')
| connection_ends ps i p d :
    ps !! i = Some p ->
    mig_step files (ps, d) (<[i := ended p]> ps, if decide (lock d = Some i) then set_lock None d else d).

Definition mig_steps (files : list string) : mig_state -> mig_state -> Prop := rtc (mig_step files).

(** ** Invariant *)

Section invariant.
Variable files : list string.
Hypothesis files_distinct : NoDup files.

(** The replica holds the lock between taking it and giving it back. *)
Definition holds (p : mig_pc) : bool :=
  match p with Creating | Reading | Looping _ _ | Releasing _ => true | _ => false end.

(** What a run knows. In its loop: the files before are applied, and of those it
    still has to do it knows which are. At its end without an error: all are. *)
Definition caught_up (d : mig_db) (applied : gset string) (j : nat) : Prop :=
  (forall name, name ∈ take j files -> name ∈ versions d) /\
  (forall name, name ∈ drop j files -> (name ∈ applied <-> name ∈ versions d)).

Definition knows (d : mig_db) (p : mig_pc) : Prop :=
  match p with
  | Looping applied todo => exists j, todo = drop j files /\ caught_up d applied j
  | Releasing None | Finished None => forall name, name ∈ files -> name ∈ versions d
  | _ => True
  end.

(** The committed files are the first ones, once each, in order. *)
Record in_order (d : mig_db) : Prop := {
  io_prefix : committed d = take (length (committed d)) files;
  io_versions : forall name, name ∈ versions d <-> name ∈ committed d
}.

Record mig_inv (s : mig_state) : Prop := {
  mi_order : in_order s.2;
  mi_lock : forall i p, s.1 !! i = Some p -> holds p = true -> lock s.2 = Some i;
  mi_knows : forall i p, s.1 !! i = Some p -> knows s.2 p
}.

Lemma next_pc_knows d applied j : caught_up d applied j -> knows d (next_pc applied (drop j files)).
Proof.
  intros Hc. remember (drop j files) as todo eqn:Ht. revert j Ht Hc.
  induction todo as [|name todo IH]; intros j Ht Hc.
  - simpl. intros name Hname. apply (proj1 Hc). rewrite take_ge; [done|].
    assert (length (drop j files) = 0) as Hl by (by rewrite <- Ht). rewrite length_drop in Hl. lia.
  - assert (files !! j = Some name) as Hj.
    { pose proof (lookup_drop files j 0) as Hl. rewrite <- Ht, Nat.add_0_r in Hl. done. }
    assert (todo = drop (S j) files) as Htodo by (pose proof (drop_S _ _ _ Hj); congruence).
    simpl. case_decide as Ha; [|by exists j]. apply (IH (S j) Htodo). destruct Hc as [Hbefore Hafter]. split.
    + intros x. rewrite (take_S_r _ _ _ Hj), elem_of_app, list_elem_of_singleton. intros [Hx| ->]; [by apply Hbefore|].
      apply Hafter; [|done]. rewrite <- Ht. by left.
    + intros x Hx. apply Hafter. rewrite <- Ht. right. by rewrite Htodo.
Qed.

(** The next file a run that knows the state applies is the next one of all. *)
Lemma next_file d applied name todo :
  in_order d -> knows d (Looping applied (name :: todo)) -> name ∉ versions d ->
  files !! length (committed d) = Some name /\ todo = drop (S (length (committed d))) files /\
  caught_up d applied (length (committed d)).
Proof.
  intros [Hpre Hver] (j & Ht & Hc) Hnew. pose proof Hc as [Hbefore _].
  assert (files !! j = Some name) as Hj.
  { pose proof (lookup_drop files j 0) as Hl. rewrite <- Ht, Nat.add_0_r in Hl. done. }
  assert (j = length (committed d)) as ->.
  { set (k := length (committed d)) in *. assert (k <= length files) as Hk.
    { unfold k. rewrite Hpre, length_take. lia. }
    destruct (Nat.lt_trichotomy j k) as [Hlt|[?|Hgt]]; [|done|].
    - destruct Hnew. apply Hver. rewrite Hpre. apply elem_of_take. eauto.
    - destruct (lookup_lt_is_Some_2 files k) as [x Hx]; [apply lookup_lt_Some in Hj; lia|].
      assert (x ∈ versions d) as Hin by (apply Hbefore, elem_of_take; eauto).
      rewrite Hver, Hpre in Hin. apply elem_of_take in Hin as (i & Hi & Hik).
      rewrite (NoDup_lookup _ _ _ _ files_distinct Hi Hx) in Hik. lia. }
  split; [done|]. split; [pose proof (drop_S _ _ _ Hj); congruence|done].
Qed.

Lemma commit_order d name :
  in_order d -> files !! length (committed d) = Some name -> in_order (commit name d).
Proof.
  intros [Hpre Hver] Hn. split; simpl.
  - rewrite length_app, Nat.add_1_r. rewrite (take_S_r _ _ _ Hn). by rewrite <- Hpre.
  - intros x. rewrite elem_of_union, elem_of_singleton, elem_of_app, list_elem_of_singleton, Hver. tauto.
Qed.

Lemma set_lock_order o d : in_order d -> in_order (set_lock o d).
Proof. by intros []. Qed.

(** What the database has applied stays applied. *)
Lemma knows_mono d d' p :
  versions d ⊆ versions d' -> (holds p = true -> versions d' = versions d) -> knows d p -> knows d' p.
Proof.
  intros Hsub Hsame. destruct p as [| | |applied todo|[e|]|[e|]]; simpl; try done.
  - intros (j & Ht & H1 & H2). exists j. split; [done|]. unfold caught_up. rewrite Hsame by done. done.
  - set_solver.
  - set_solver.
Qed.

(** ** One step *)

(** What is applied grows by the next file, or not at all. *)
Inductive spec_step : list string -> list string -> Prop :=
| apply_next done_ name : files !! length done_ = Some name -> spec_step done_ (done_ ++ [name]).

(** A replica's move: its own part of the invariant, the database's, and what the
    others rely on. *)
Record moved (i : nat) (p : mig_pc) (d : mig_db) (p' : mig_pc) (d' : mig_db) : Prop := {
  mv_order : in_order d';
  mv_spec : committed d' = committed d \/ spec_step (committed d) (committed d');
  mv_knows : knows d' p';
  mv_sub : versions d ⊆ versions d';
  mv_frame : lock d = Some i \/ lock d = None \/ lock d' = lock d;
  mv_same : holds p = false -> versions d' = versions d;
  mv_lock : holds p' = true -> lock d' = Some i
}.

Lemma Migrate_moved i p d p' d' :
  in_order d -> knows d p -> (holds p = true -> lock d = Some i) ->
  Migrate files i p d p' d' -> moved i p d p' d'.
Proof.
  intros Ho Hk Hl Hstep. destruct Hstep as [| | | | |d applied Hread|d Hread|applied name todo d d' Happ
    |applied name todo d d' e Happ| |]; simpl in *;
    try (split; simpl; try done; try (intros _; by apply Hl); auto using set_lock_order; fail).
  - inversion Hread; subst. split; simpl; try done; auto.
    rewrite <- (drop_0 files) at 1. apply next_pc_knows. split; [|done]. intros x. rewrite take_0. set_solver.
  - inversion Happ; subst. destruct (next_file _ _ _ _ Ho Hk) as (Hn & -> & Hc); [done|].
    split; simpl; auto; [by apply commit_order|right; by constructor| |set_solver|done].
    apply next_pc_knows. destruct Hc as [Hbefore Hafter]. split; simpl.
    + intros x. rewrite (take_S_r _ _ _ Hn), elem_of_app, list_elem_of_singleton. set_solver.
    + intros x Hx. rewrite elem_of_union, elem_of_singleton, Hafter.
      * split; [by right|]. intros [->|?]; [|done]. exfalso.
        apply list_elem_of_lookup in Hx as [k Hk']. rewrite lookup_drop in Hk'.
        pose proof (NoDup_lookup _ _ _ _ files_distinct Hn Hk'). lia.
      * rewrite (drop_S _ _ _ Hn). by right.
  - inversion Happ; subst; [split; simpl; try done; auto|].
    destruct (next_file _ _ _ _ Ho Hk) as (Hn & -> & Hc); [done|].
    split; simpl; auto; [by apply commit_order|right; by constructor|set_solver|done].
Qed.

Lemma moved_inv ps i p p' d d' :
  mig_inv (ps, d) -> ps !! i = Some p -> moved i p d p' d' -> mig_inv (<[i := p']> ps, d').
Proof.
  intros [Ho Hlock Hkn] Hi [Ho' _ Hk' Hsub Hframe Hsame Hl']. simpl in *.
  assert (forall k q, k <> i -> ps !! k = Some q -> holds q = true -> lock d' = lock d /\ holds p = false) as Hother.
  { intros k q Hne Hq Hh. specialize (Hlock _ _ Hq Hh) as Hlk.
    destruct (holds p) eqn:Hp; [specialize (Hlock _ _ Hi Hp); congruence|].
    destruct Hframe as [?|[?|?]]; [congruence..|done]. }
  split; simpl; [done|..]; intros k q; rewrite list_lookup_insert_Some;
    intros [(<- & <- & _)|[Hne Hq]]; try done.
  - intros Hh. destruct (Hother k q) as [-> _]; [done..|]. by apply Hlock with q.
  - eapply knows_mono; [exact Hsub| |by apply Hkn with k]. intros Hh. apply Hsame. by eapply Hother.
Qed.

Lemma mig_step_moved s s' :
  mig_inv s -> mig_step files s s' -> exists i p p',
    s.1 !! i = Some p /\ s'.1 = <[i := p']> s.1 /\ moved i p s.2 p' s'.2.
Proof.
  intros [Ho Hlock Hkn] Hstep. destruct Hstep as [ps i p p' d d' Hi Hrun|ps i p d Hi]; simpl in *;
    exists i, p; eexists; (split; [done|]); (split; [done|]).
  - eapply Migrate_moved; [done|by apply Hkn with i|intros Hh; by apply Hlock with p|done].
  - assert (knows d (ended p)) as Hk by (specialize (Hkn _ _ Hi); by destruct p as [| | | | |[|]]).
    assert (holds (ended p) = true -> False) as Hh by by destruct p as [| | | | |[|]].
    case_decide as Hl; split; simpl; auto using set_lock_order; by intros ?%Hh.
Qed.

Lemma mig_steps_inv s s' :
  mig_inv s -> mig_steps files s s' -> mig_inv s' /\ rtc spec_step (committed s.2) (committed s'.2).
Proof.
  intros Hs Hsteps. induction Hsteps as [s|s1 s2 s3 Hstep _ IH]; [split; [done|apply rtc_refl]|].
  destruct (mig_step_moved _ _ Hs Hstep) as (i & p & p' & Hi & Heq & Hm).
  assert (mig_inv s2) as Hs2.
  { destruct s1 as [ps d], s2 as [ps' d']. simpl in *. rewrite Heq. by eapply moved_inv. }
  destruct (IH Hs2) as [Hs3 Hspec]. split; [done|].
  destruct (mv_spec _ _ _ _ _ Hm) as [<-|Hone]; [done|]. by eapply rtc_l.
Qed.

Lemma run_refines n d0 ps d :
  in_order d0 -> lock d0 = None ->
  mig_steps files (replicate n Start, d0) (ps, d) ->
  rtc spec_step (committed d0) (committed d) /\ committed d = take (length (committed d)) files /\
  (forall i, ps !! i = Some (Finished None) -> committed d = files).
Proof.
  intros Ho Hl Hsteps. destruct (mig_steps_inv _ _ (Build_mig_inv (replicate n Start, d0) Ho
    ltac:(by intros i p [-> _]%lookup_replicate) ltac:(by intros i p [-> _]%lookup_replicate)) Hsteps)
    as [[[Hpre Hver] _ Hkn] Hspec].
  simpl in *. split; [done|]. split; [done|]. intros i Hi. specialize (Hkn _ _ Hi). simpl in Hkn.
  rewrite Hpre. apply take_ge. destruct (Nat.le_gt_cases (length files) (length (committed d))) as [?|Hlt]; [done|].
  destruct (lookup_lt_is_Some_2 _ _ Hlt) as [x Hx].
  assert (x ∈ committed d) as Hin by (apply Hver, Hkn, list_elem_of_lookup; eauto).
  rewrite Hpre in Hin. apply elem_of_take in Hin as (k & Hk & Hlt').
  pose proof (NoDup_lookup _ _ _ _ files_distinct Hk Hx). lia.
Qed.
End invariant.

(** C17: however many replicas start at once, however their runs interleave, and
    whatever statements fail, commits lose their answer or connections die: what
    the database has applied evolves as in a single run that applies the files one
    by one in the order of their names, each exactly once, stopping anywhere; and a
    replica that reports success leaves all of them applied. *)
Theorem replicas_refine_one_run embedded files n d0 ps d :
  NoDup embedded -> migrationFiles embedded = Some files ->
  in_order files d0 -> lock d0 = None ->
  mig_steps files (replicate n (entry (Some files)), d0) (ps, d) ->
  files ≡ₚ embedded /\ Sorted String.le files /\
  rtc (spec_step files) (committed d0) (committed d) /\ committed d = take (length (committed d)) files /\
  (forall i, ps !! i = Some (Finished None) -> committed d = files).
Proof.
  intros Hnd Hfiles Ho Hl Hsteps. destruct (migrationFiles_spec _ _ Hfiles) as [Hp Hs].
  split; [done|]. split; [done|]. apply (run_refines files) with n; [by rewrite Hp|done..].
Qed.

(** ** Two replicas *)

Definition two_files : list string := ["migrations/0001_init.sql"; "migrations/0002_rooms.sql"]%string.

Definition fresh_db : mig_db := mkMigDb ∅ [] None.

(** The first applies one file and dies; the second finds that done and finishes. *)
Definition crash_db : mig_db := commit "migrations/0001_init.sql" fresh_db.
Definition final_db : mig_db := commit "migrations/0002_rooms.sql" crash_db.

Lemma crash_then_finish :
  mig_steps two_files (replicate 2 Start, fresh_db) ([Finished (Some ConnectionLost); Finished None], final_db).
Proof.
  eapply rtc_l; [by eapply (replica_runs _ _ 0), acquire_ok|].
  eapply rtc_l; [by eapply (replica_runs _ _ 0), create_ok|].
  eapply rtc_l; [by eapply (replica_runs _ _ 0), read_ok, versions_read|].
  eapply rtc_l; [by eapply (replica_runs _ _ 0), apply_ok, applied_all|].
  eapply rtc_l; [by eapply (connection_ends _ _ 0)|].
  eapply rtc_l; [by eapply (replica_runs _ _ 1), acquire_ok|].
  eapply rtc_l; [by eapply (replica_runs _ _ 1), create_ok|].
  eapply rtc_l; [by eapply (replica_runs _ _ 1), read_ok, versions_read|].
  eapply rtc_l; [by eapply (replica_runs _ _ 1), apply_ok, applied_all; vm_compute|].
  eapply rtc_l; [by eapply (replica_runs _ _ 1), release_ok|].
  apply rtc_refl.
Qed.

Lemma fresh_in_order files : in_order files fresh_db.
Proof. split; simpl; [done|set_solver]. Qed.

Lemma replicas_refine_one_run_witness : committed final_db = two_files.
Proof.
  refine (proj2 (proj2 (proj2 (proj2 (replicas_refine_one_run (rev two_files) two_files 2 fresh_db _ final_db _ _
    (fresh_in_order _) eq_refl crash_then_finish)))) 1 eq_refl); [apply (bool_decide_unpack _); by vm_compute|by vm_compute].
Defined.
