(* ===== verification/Startup.v ===== *)
(** * Starting and stopping

    [main], [run] and [connectRedis] of [src/cmd/server/main.go] and [Connect] of
    [src/internal/database/postgres.go]: the steps of the startup in their order, the
    constructors that build the server from the settings, how it ends, and what is
    opened and closed on the way. *)

From S2P Require Import Prelude GoStrings Crypto Effects RedisSpec PostgresSpec Hasher Sim RateLimit.
From S2P Require Import Sessions SessionFacts SessionOps SessionCreate SessionTheorems SessionExamples.
From S2P Require Import Password Users AuthLogin World Httpx Middleware AuthHandlers Rooms Invites Turn.
From S2P Require Import Config Migrate Server ServerTheorems Demo ServerExamples.
Import Rooms.

(** The constructors [run] calls, from [NewOriginPolicy] to [turn.NewHandlers]. *)
Definition wire `{Unicode} `{UrlParse} (cfg : Config) : origin_error + server_config :=
  match NewOriginPolicy (AllowedOrigins cfg) with
  | inl e => inl e
  | inr policy =>
      let sessions := NewSessionStore (SessionIdleTTL cfg) (SessionAbsoluteTTL cfg) (WSTicketTTL cfg) in
      let middleware := NewMiddleware (mkOptions (CookieName cfg) (CookieDomain cfg) (CookieSecure cfg)
        (SessionIdleTTL cfg) (SessionAbsoluteTTL cfg) (TrustProxy cfg)) in
      inr (mkServer sessions middleware policy
        (Turn.NewHandlers (TURNSecret cfg) (TURNURLs cfg) (TURNCredentialTTL cfg)))
  end.

(** ** What a start opens and a stop closes *)

(** What [Connect] sets in the settings of the pool. *)
Record PoolConfig := mkPool {
  MaxConns : Z;
  MinConns : Z;
  MaxConnLifetime : Z;
  MaxConnIdleTime : Z;
  ConnectTimeout : Z
}.

Definition Sec : Z := 1000000000.

Definition readHeaderTimeout : Z := 10 * Sec.
Definition idleTimeout : Z := 120 * Sec.

Definition poolConfig : PoolConfig := mkPool 20 2 (3600 * Sec) (1800 * Sec) (10 * Sec).

(** What [connectRedis] sets in the options of the client. *)
Record RedisOptions := mkRedis {
  MaxRetries : Z;
  DialTimeout : Z;
  ReadTimeout : Z;
  WriteTimeout : Z
}.

Definition redisOptions : RedisOptions := mkRedis 3 (5 * Sec) (3 * Sec) (3 * Sec).

(** The [http.Server]. *)
Record http_server := mkHttp {
  srv_Addr : string;
  srv_Handler : server_config;
  ReadHeaderTimeout : Z;
  IdleTimeout : Z
}.

(** What [run] does to the process, in order. *)
Inductive action :=
| NotifySignals
| OpenPool (cfg : PoolConfig)
| OpenRedis (opts : RedisOptions)
| RunHub
| Listen (srv : http_server)
| ShutdownServer
| ShutdownInboxes
| CloseRedis
| ClosePool
| CancelStartup
| StopSignals.   (* also ends the context of [hub.Run] *)

(** Why [Connect] or [connectRedis] gives up. *)
Inductive connect_error := ParseURL | CreatePool | PingFailed.

(** What [run] reports. *)
Inductive run_error :=
| PostgresDown (e : connect_error)
| MigrateFailed (e : mig_error)
| RedisDown (e : connect_error)
| OriginsInvalid (e : origin_error)
| ListenFailed
| DrainTimeout
| ShutdownFailed.

(** Why the select of [run] ends: [ListenAndServe] returned, or a signal came. *)
Inductive stop_cause :=
| Served (err : option bool)   (* the error, and whether it is [http.ErrServerClosed] *)
| Signalled.

(** What [run] meets outside the program: whether each URL parses, the pool can be
    made and each store answers its ping; what [Migrate] returns; how serving ends;
    whether the hub is done before the timeout and [srv.Shutdown] succeeds. *)
Record surroundings := mkSurroundings {
  pg_parses : bool;
  pg_made : bool;
  pg_answers : bool;
  migrated : option mig_error;
  rd_parses : bool;
  rd_answers : bool;
  why : stop_cause;
  hub_done : bool;
  shutdown_ok : bool
}.

(** A value and what was done to get it. *)
Definition traced (A : Type) : Type := A * list action.

Definition doing (a : action) : traced unit := (tt, [a]).

Definition andthen {A B} (m : traced A) (k : A -> traced B) : traced B := ((k m.1).1, m.2 ++ (k m.1).2).

(** [defer]: whatever the body returns. *)
Definition deferred {A} (a : action) (body : traced A) : traced A := (body.1, body.2 ++ [a]).

(** [Connect] of [src/internal/database/postgres.go]. *)
Definition Connect (env : surroundings) : traced (option connect_error) :=
  if negb (pg_parses env) then (Some ParseURL, [])
  else if negb (pg_made env) then (Some CreatePool, [])
  else andthen (doing (OpenPool poolConfig)) (fun _ =>
    if negb (pg_answers env) then (Some PingFailed, [ClosePool])
    else (None, [])).

Definition connectRedis (env : surroundings) : traced (option connect_error) :=
  if negb (rd_parses env) then (Some ParseURL, [])
  else andthen (doing (OpenRedis redisOptions)) (fun _ =>
    if negb (rd_answers env) then (Some PingFailed, [CloseRedis])
    else (None, [])).

(** [run] from the select on. The inbox hub is shut down whenever the server is. *)
Definition finish (env : surroundings) : traced (option run_error) :=
  match why env with
  | Served (Some false) => (Some ListenFailed, [])
  | _ =>
      (if negb (hub_done env) then Some DrainTimeout
       else if negb (shutdown_ok env) then Some ShutdownFailed else None, [ShutdownServer; ShutdownInboxes])
  end.

Definition run `{Unicode} `{UrlParse} (cfg : Config) (env : surroundings) : traced (option run_error) :=
  andthen (doing NotifySignals) (fun _ => deferred StopSignals (deferred CancelStartup (
    andthen (Connect env) (fun err =>
      match err with
      | Some e => (Some (PostgresDown e), [])
      | None => deferred ClosePool (
          match migrated env with
          | Some e => (Some (MigrateFailed e), [])
          | None =>
              andthen (connectRedis env) (fun err =>
                match err with
                | Some e => (Some (RedisDown e), [])
                | None => deferred CloseRedis (
                    match wire cfg with
                    | inl e => (Some (OriginsInvalid e), [])
                    | inr sv =>
                        andthen (doing RunHub) (fun _ =>
                        andthen (doing (Listen (mkHttp (Addr cfg) sv readHeaderTimeout idleTimeout))) (fun _ => finish env))
                    end)
                end)
          end)
      end)))).

(** The exit code of [main]. *)
Definition main `{Unicode} `{UnicodeUpper} `{UrlParse} (Getenv : string -> string) (env : surroundings) : traced Z :=
  match Load Getenv with
  | inl _ => (1%Z, [])
  | inr cfg => andthen (run cfg env) (fun err => (match err with Some _ => 1%Z | None => 0%Z end, []))
  end.

Section wired.
Context `{RL : RedisLaws} {CL : ClockLaws _} {PV : PostgresView} {PL : PostgresLaws PV} {DL : DbLaws db}.
Context {HV : HasherView} {HL : HasherLaws HV} `{JL : SessionJsonLaws} `{Unicode} `{UnicodeUpper}.
Context `{ResponseJson} `{UrlParse} `{UL : UpgraderLaws} `{AuthJson} `{Handlers.RoomJson} `{Invites.InviteJson}.

(** The start gives up at some point, having opened nothing, the pool or both, or the
    server serves. *)
Definition gave_up (opened closed : list action) : list action :=
  NotifySignals :: opened ++ closed ++ [CancelStartup; StopSignals].

Definition served_by (srv : http_server) (ending : list action) : list action :=
  [NotifySignals; OpenPool poolConfig; OpenRedis redisOptions; RunHub; Listen srv] ++ ending ++
  [CloseRedis; ClosePool; CancelStartup; StopSignals].

Lemma run_cases cfg env :
  (exists e opened closed, run cfg env = (Some e, gave_up opened closed) /\
    (opened, closed) ∈ [([], []); ([OpenPool poolConfig], [ClosePool]);
      ([OpenPool poolConfig; OpenRedis redisOptions], [CloseRedis; ClosePool])]) \/
  (exists sv, migrated env = None /\ wire cfg = inr sv /\
    run cfg env = ((finish env).1, served_by (mkHttp (Addr cfg) sv readHeaderTimeout idleTimeout) (finish env).2)).
Proof.
  unfold run, Connect, connectRedis, andthen, deferred, doing, gave_up, served_by.
  destruct (pg_parses env); [|left; eexists _, [], []; split; [done|set_solver]].
  destruct (pg_made env); [|left; eexists _, [], []; split; [done|set_solver]].
  destruct (pg_answers env); [|left; eexists _, [OpenPool poolConfig], [ClosePool]; split; [done|set_solver]].
  destruct (migrated env); [left; eexists _, [OpenPool poolConfig], [ClosePool]; split; [done|set_solver]|].
  destruct (rd_parses env); [|left; eexists _, [OpenPool poolConfig], [ClosePool]; split; [done|set_solver]].
  destruct (rd_answers env); simpl;
    [|left; eexists _, [OpenPool poolConfig; OpenRedis redisOptions], [CloseRedis; ClosePool]; split; [done|set_solver]].
  destruct (wire cfg) as [e|sv]; simpl;
    [left; eexists _, [OpenPool poolConfig; OpenRedis redisOptions], [CloseRedis; ClosePool]; split; [done|set_solver]|].
  right. exists sv. split; [done|]. split; [done|]. by rewrite <- !app_assoc.
Qed.

(** Whatever had been opened by then. *)
Ltac opened_cases H := repeat apply elem_of_cons in H as [[= -> ->]|H]; [..|by apply not_elem_of_nil in H].

Lemma finish_listens env srv : Listen srv ∉ (finish env).2.
Proof. unfold finish. destruct (why env) as [[[]|]|]; set_solver. Qed.

Lemma run_listens cfg env srv :
  Listen srv ∈ (run cfg env).2 -> migrated env = None /\ wire cfg = inr (srv_Handler srv) /\ srv_Addr srv = Addr cfg.
Proof.
  pose proof (finish_listens env srv) as Hno.
  destruct (run_cases cfg env) as [(e & o & c & -> & Hoc)|(sv & Hm & Hw & ->)]; unfold gave_up, served_by; simpl; intros Hin.
  - opened_cases Hoc; set_solver.
  - assert (srv = mkHttp (Addr cfg) sv readHeaderTimeout idleTimeout) as -> by set_solver. done.
Qed.

(** C14: whatever environment the settings load from, as long as the absolute
    session lifetime is in whole seconds: a server listens only on a database that
    has been migrated, and in every state it then reaches by handling requests one after
    the other, ids are the uuids of their accounts, accounts and credentials go
    together, no two accounts share an address, every stored hash can be read, and every
    unexpired session is in its user's index. *)
Theorem configured_server_well_formed Getenv cfg env srv w :
  Load Getenv = inr cfg -> Listen srv ∈ (run cfg env).2 -> (SessionAbsoluteTTL cfg mod 1000000000 = 0)%Z ->
  served (srv_Handler srv) w ->
  migrated env = None /\ accounts_ok db (database w) /\
  forall id s, session_at (keyspace w) id = Some s -> (server_ms w <= ExpiresAt s / 1000000)%Z ->
    indexed (keyspace w) id s.
Proof.
  intros Hload (Hm & Hwire & _)%run_listens Hsecs Hw. split; [done|].
  destruct (config_valid _ _ Hload) as ((Hidle & Habs) & _).
  assert (absoluteTTL (sv_sessions (srv_Handler srv)) = (SessionAbsoluteTTL cfg / 1000000000 * 1000000000)%Z) as Ha.
  { unfold wire in Hwire. destruct (NewOriginPolicy _); [done|]. injection Hwire as <-. simpl.
    rewrite (Z.div_mod (SessionAbsoluteTTL cfg) 1000000000) at 1 by done. lia. }
  assert (0 < SessionAbsoluteTTL cfg / 1000000000)%Z as Hpos.
  { destruct (Z.div_mod (SessionAbsoluteTTL cfg) 1000000000) as []; [done|].
    pose proof (Z.div_pos (SessionAbsoluteTTL cfg) 1000000000). lia. }
  destruct (served_world (srv_Handler srv) _ Ha Hpos w Hw) as [Hok Hacc]. split; [done|].
  intros id s Hs HE. by apply (so_sessions _ _ _ _ Hok).
Qed.

(** What is opened is closed, last opened first, whatever goes wrong. *)
Definition opens (a : action) : bool := match a with OpenPool _ | OpenRedis _ => true | _ => false end.
Definition closes (a : action) : bool := match a with ClosePool | CloseRedis => true | _ => false end.
Definition closing (a : action) : action := match a with OpenPool _ => ClosePool | _ => CloseRedis end.

Lemma run_closes cfg env :
  filter closes (run cfg env).2 = reverse (closing <$> filter opens (run cfg env).2).
Proof.
  destruct (run_cases cfg env) as [(e & o & c & -> & Hoc)|(sv & Hm & Hw & ->)].
  - by opened_cases Hoc.
  - unfold finish. by destruct (why env) as [[[]|]|].
Qed.

Lemma run_succeeds cfg env :
  (run cfg env).1 = None <-> (exists srv, Listen srv ∈ (run cfg env).2) /\ (finish env).1 = None.
Proof.
  destruct (run_cases cfg env) as [(e & o & c & -> & Hoc)|(sv & Hm & Hw & ->)]; simpl.
  - unfold gave_up. split; [done|]. intros [[srv Hin] _]. opened_cases Hoc; set_solver.
  - split; [|by intros [_ ?]]. intros Hf. split; [|done]. eexists. unfold served_by.
    apply elem_of_app. left. do 4 (apply elem_of_cons; right). apply elem_of_cons. by left.
Qed.

(** The process exits with 0 exactly when a server was serving, stopped for a signal
    or [http.ErrServerClosed], and everybody left in time. *)
Lemma main_exit Getenv env :
  (main Getenv env).1 = 0%Z <->
  exists cfg, Load Getenv = inr cfg /\ (exists srv, Listen srv ∈ (run cfg env).2) /\
    why env <> Served (Some false) /\ hub_done env = true /\ shutdown_ok env = true.
Proof.
  assert ((finish env).1 = None <-> why env <> Served (Some false) /\ hub_done env = true /\ shutdown_ok env = true) as Hf.
  { unfold finish. destruct (why env) as [[[]|]|], (hub_done env), (shutdown_ok env); simpl; naive_solver. }
  setoid_rewrite <- Hf. unfold main. destruct (Load Getenv) as [e|cfg] eqn:Hl;
    [split; [done|]; intros (cfg & Hc & _); congruence|].
  pose proof (run_succeeds cfg env) as Hr. unfold andthen. cbn [fst snd]. destruct ((run cfg env).1) as [e|].
  - split; [done|]. intros (cfg' & Hc & Hs). replace cfg' with cfg in Hs by congruence. by apply Hr in Hs.
  - split; [|done]. intros _. exists cfg. split; [done|]. by apply Hr.
Qed.
End wired.

(** The server of [demo_config], after a registration and a login. *)
Definition local_sv : server_config :=
  match wire demo_config with inr sv => sv | inl _ => demo_sv end.

Definition local_srv : http_server := mkHttp (Addr demo_config) local_sv readHeaderTimeout idleTimeout.

(** Everything answers, and a signal ends it. *)
Definition calm : surroundings := mkSurroundings true true true None true true Signalled true true.

Example calm_run :
  (run demo_config calm).2 = [NotifySignals; OpenPool poolConfig; OpenRedis redisOptions; RunHub; Listen local_srv;
    ShutdownServer; ShutdownInboxes; CloseRedis; ClosePool; CancelStartup; StopSignals] /\
  (main demo_env calm).1 = 0%Z.
Proof. split; [|unfold main; rewrite demo_load]; reflexivity. Qed.

Lemma calm_listens : Listen local_srv ∈ (run demo_config calm).2.
Proof. rewrite (proj1 calm_run). set_solver. Qed.

Definition local_request (r : http_request) (w : machine) : machine := after (handler local_sv 0 0 None None r) w.

Definition local_day : machine :=
  local_request login_request (local_request (register_request "ann@example.com" "Ann") (start t0)).

Lemma configured_server_well_formed_witness :
  accounts_ok db (database local_day) /\ fst <$> map_to_list (users (database local_day)) = [ann_id].
Proof.
  split; [|vm_compute; reflexivity].
  refine (proj1 (proj2 (configured_server_well_formed demo_env demo_config calm local_srv local_day demo_load calm_listens _ _)));
    [vm_compute; reflexivity|].
  assert (forall r w, served local_sv w -> served local_sv (local_request r w)) as Hstep.
  { intros r w Hw. destruct (interp_total (handler local_sv 0 0 None None r) w) as (resp & w' & Hr).
    unfold local_request, after. rewrite Hr. by eapply served_request. }
  apply Hstep, Hstep, served_start; [reflexivity|]. eapply wo_accounts, world_start.
Defined.
